(* ===== verification/_CoqProject ===== *)
-Q . S2P
Prelude.v
Message.v
TextCodec.v
Window.v
StreamTable.v
CtrlHub.v
Adapter.v
Handshake.v
Config.v
Register.v
CtrlProxy.v
Proxy.v
Ws.v
Router.v
CtrlClient.v
Sniff.v
Bridge.v
BridgeEnd.v
Socks5.v
Rainnet.v
Decorator.v
Dialer.v
ConfigStore.v
Watcher.v
Dns.v
Admin.v
Pool.v
H2.v
Transport.v
WsConn.v
Pluginer.v
StarRun.v
Frame.v
Codec.v
Command.v
Tunnel.v
Custom.v
Facade.v
Ingress.v
Chain.v
EndToEnd.v
Servers.v
Session.v
Setup.v
