(* ===== verification/Prelude.v ===== *)
(** * rain-net: a verified model of the tunnel

    rain-net is a reverse tunnel. A client behind a firewall dials the server
    over one control connection and registers streams; outside users connect to
    ingresses of the server; each of their connections is opened through a
    registered stream, and its bytes travel over the control connection to a
    local service of the client. The program is in Go; this library models its
    core as Gallina functions and step relations and proves what makes it
    correct, and the places where it is not.

    ** Parts and files (all sources under src/)

    - [Prelude] (this file): the result monad of Go's [(value, error)] pairs,
      machine integers with their wrap-around, bytes and big-endian numbers,
      [io.ReadFull], shared tactics and lemmas.
    - [Message], protocol/star/message.go, response.go, session.go: frames, their
      encoding, the control records, sessions. encoding/json is a class
      ([JsonCodec], laws in [JsonLaws]); [TextCodec] gives a concrete instance
      for the witnesses.
    - [Window], protocol/star/window.go: the send window; goroutines in [Acquire]
      interleave with [Release] and [Close] in the step relation [wstep].
    - [StreamTable], internal/handler/star/streamtable.go: registered streams,
      entries on a heap shared by two indexes.
    - [CtrlHub], internal/handler/star/ctrl_hub.go: the server's connections:
      entries on a heap, acknowledgement channels, queues; [hub_step].
    - [Adapter], protocol/star/adapter.go: [StreamConn] and [StreamHub], the
      connections of a session seen as byte streams.
    - [Handshake], protocol/star/handshake.go: both sides of the handshake and of
      the registration.
    - [Config], config/schema.go and star.go: the configuration and its validation.
    - [Register], internal/star/starserver/register.go and config.go: from the
      configuration to the servers of the process.
    - [CtrlProxy], internal/handler/star/ctrlproxy.go: the star server:
      authentication, the dispatch of messages, the end of a session; [sv_step].
    - [Proxy], internal/star/starserver/connecttable.go and proxy_server.go: rule
      table, choice of a stream, and one proxied connection as a machine of two
      goroutines ([papply], [prun]).
    - [Ws], protocol/ws/ws.go: the websocket frames and messages.
    - [Router], internal/router/router.go: the rule list and its round robin.
    - [CtrlClient], protocol/star/ctrlclient.go: the client: registration, the read
      loop, the write pumps and uplinks of its local connections, the
      connections it dials through the tunnel ([capply], [crun], [cstep]).
    - [Sniff], internal/ingress/sniff/sniff.go: one port shared by several
      protocols.
    - [Bridge], internal/bridge/bridge.go: two connections joined by two pumps
      ([bapply], [brun]).
    - [BridgeEnd]: a star stream ([Adapter]) at one end of a [Bridge], as [Ingress]
      and [Chain] both have one: the pump that reads it, deliveries to it.
    - [Socks5], internal/star/plugin/socks5: negotiation, authentication, requests
      and replies as a state and error monad over the connection ([sockM]), and the
      relay of a connected session ([rapply], [rrun]).
    - [Rainnet], pkg/rainnet: classified errors, connection metadata.
    - [Decorator], internal/decorator: token bucket, rate limit, byte counters,
      admission gate ([gstep], [grun]); times are nanoseconds, tokens rationals.
    - [Dialer], internal/client/dialer.go: the reconnection loop ([dapply], [drun])
      around the sessions of [CtrlClient].
    - [ConfigStore], internal/configstore: keys, files as inodes under names,
      interleaved writers ([wapply], [wrun]), a tick of the polling watch.
    - [Watcher], internal/configstore/store.go: the watching goroutine with its
      bounded channel, its consumer and its cancellation ([wapply], [wrun]).
    - [Dns], internal/handler/dns/dns.go: zones, answers, forwarding, TCP framing;
      miekg/dns is a parameter.
    - [Admin], internal/star/starserver/admin_server.go: authentication, routing and
      handlers over [CtrlProxy], [CtrlHub], [Proxy] and [Dns].
    - [Pool], internal/transport/kcp and quic: pooled dialing ([Kcp.exec],
      [Quic.exec]), goroutines and the mutex explicit.
    - [H2], internal/transport/h2/h2.go: the connections of both sides ([happly],
      [hrun]).
    - [WsConn], internal/transport/ws/ws.go: a byte stream over websocket frames; the
      frame codec is a parameter with laws ([gobwas_laws]) that the frames of [Ws]
      satisfy ([rfc_laws]).
    - [Transport], internal/transport/transport.go: the registry, the factories of
      the transports, the accept queue they share (Module [Listener]).
    - [Pluginer], pluginer: the plugin framework: registries, start and stop of an
      instance over the interfaces it calls (class [Components]), the goroutines
      that serve it ([gapply], [grun]), shutdown callbacks, the trap of interrupts.
    - [StarRun], internal/star/starserver/star.go with parts of register.go,
      server.go and config.go: the framework instantiated with [Config] and
      [Register]; [Reload] and the signal loop of [Run]. Files and sockets are the
      class [Os].
    - [Frame], protocol/star/server.go, response.go, internal/star/starserver/server.go
      and the plugins printer, forward and httpProxy: the chain servers, the race of
      their two goroutines ([serve_run]), the relay ([rapply], [rrun]).
    - [Codec], protocol/codec: the registry, what registers with it, the raw codec.
    - [Command], cmd/rainc: from flags and configuration to the dialer that runs.
    - [Tunnel]: no file of its own in the source: one proxied connection end to end,
      the machines of [Proxy], [CtrlProxy] and [CtrlClient] joined by the two
      directions of the control connection ([tstep], executable as [trun]), and
      the abstract [pipe]s it refines.
    - [Custom], protocol/custom and internal/custom: the server type custom, its
      two plugins, and the type as components of [Pluginer].
    - [Facade], internal/transport: the listeners and the dials of tcp, tls, ws, h2,
      quic and kcp; one machine ([fapply], [frun]) for the facades over a socket,
      with their accept loops, sessions, guards and closing.
    - [Ingress], internal/star/starserver/proxy_server.go: construction, [Listen],
      the embedded dialers of chain routes, the accept loop, a connection before it
      is proxied, and the chain gateway ([gapply], [grun]) over [CtrlClient] and
      [Bridge].
    - [Chain], internal/handler/star/ctrlproxy.go: a node with the goroutines of
      its chained connections ([target_apply]) beside the read loops of its
      sessions and its proxies ([far_apply], [far_run]).
    - [EndToEnd]: no file of its own in the source: a chained connection through two
      nodes, [Ingress] and [Chain] joined by the two directions of a session
      ([chain_apply], [chain_run]).
    - [Servers], pluginer/server.go with the [Listen] and [Serve] of every server:
      the framework's interface as a class ([NetServer], laws in [NetServerLaws])
      and its instances; the loop of internal/ingress/sniff/sniff.go over its
      physical listener ([port_step], [port_run]).
    - [Session], protocol/star/session.go, protocol/ws/ws.go: concurrent [Send]s
      under the write lock ([send_step], [send_run]), deadlines, the two ends of the
      websocket handshake.
    - [Setup], admin_server.go, register.go, internal/bridge/bridge.go and others:
      registration of the administration routes, servers built without the
      framework, the bridge's options and buffers ([buf_step], [buf_run]), and what
      is declared and not used (Modules [DnsType] and [Controller]).

    The parts interact as in the code: [CtrlProxy] uses [CtrlHub] (with its
    [StreamTable] and [Window]s), [Handshake] over [Message] and [Adapter] for
    chained connections; [Proxy] opens its connections in [CtrlHub]; [CtrlClient]
    is the other end of the frames of [CtrlHub] and [CtrlProxy]; [Register]
    builds the servers from [Config]; [Dialer] keeps a [CtrlClient] connected;
    [Admin] operates on all of the server's state and stores zones of [Dns] through
    [ConfigStore]; [Decorator] refuses with the errors of [Rainnet]; [StarRun] starts
    the servers of [Register] through [Pluginer], those with plugin chains being
    [Frame]'s; [Command] configures the [Dialer]; [Tunnel] composes [Proxy],
    [CtrlProxy] and [CtrlClient]; [Ingress] hands connections to [Proxy] or, through
    a [CtrlClient] of its own, to a far node over a [Bridge]; that node is [Chain],
    and [EndToEnd] composes the two; [Facade] offers
    connections to the accept queue of [Transport]; [Servers] serves any server of
    the process through the facades of [Sniff].

    ** How state and operations correspond to the code

    A struct is a record with the source's fields; a map is a [gmap]; an object
    reached through a pointer lives in a list used as a heap, and pointers are
    locations, so that aliasing (an entry in two indexes, a connection still held
    by a goroutine after it left the map) is visible. Critical sections under a
    mutex are single functions. Goroutines are phases in the state and events:
    [papply], [capply], [bapply] and their like return [None] for an event that cannot happen in
    a state (a blocked receive, a full channel), and histories are lists of
    events. [uint32] and [int64] arithmetic wraps where the code's does.

    ** What the theorems show

    - Wire formats: frames of star and of websockets are read back as written;
      whatever the reader accepts is the encoding of what it returns.
    - The tunnel as a whole: opening a connection agrees on its number at both
      ends ([Tunnel.opening_connects]); from then on, whatever else the server and
      the client do, server, link and client together are two ordered pipes with an
      end of file ([Tunnel.tunnel_refines_pipes]), and a tunnel at rest has
      delivered everything ([Tunnel.tunnel_delivers_all]). Other sessions, other
      connections and the administration enter as the rely steps of [tstep]
      ([other_hub], [other_server]), which the operations of [CtrlProxy] are
      shown to satisfy ([handle_effect], [other_session_message], ...). The
      hypotheses are that the number is below 2^31 (above are those of chained
      connections), that JSON returns the numbers it was given, and that reads
      return bytes, since an empty data frame means half closed. The model of a
      client ends when a panic ends its process.
    - Two nodes in a chain: whatever shares the session, the target gets a prefix of
      what the user sent and the user a prefix of what the target sent, and a
      direction at rest has delivered everything ([EndToEnd.chain_end_to_end]). The
      session is in order and complete as far as it is read; what one side receives
      is what [ReadMessage] makes of a frame the other has written. The hypotheses
      are that JSON returns the numbers it was given ([number_kept]) and that the
      node's own proxies use numbers below 2^31 ([proxies_low]). Each end by itself:
      [Ingress.chain_gateway_copies], [Chain.chain_target_copies].
    - Data: bytes keep their order and are not lost, on a stream
      ([Adapter.stream_end_to_end]), towards the external user
      ([Proxy.downlink_ordered]), towards the local service
      ([CtrlClient.local_order]), through a bridge ([Bridge.bridge_copies]),
      through both ends of a chain,
      through the sniffer ([Sniff.dispatch_transparent]), through the socks5 relay
      ([Socks5.relay_copies]) and over the ws and h2 transports
      ([WsConn.ws_stream_roundtrip], [H2.h2_read_order]). Frames sent concurrently
      do not interleave ([Session.concurrent_sends]), and bridges do not share
      buffers ([Setup.buffers_exclusive]).
    - Listeners: a facade hands out every connection once
      ([Facade.facade_conserves]) and its closing reaches everybody
      ([Facade.facade_closed]); so does the sniffer's port ([Servers.shared_port_order],
      [Servers.port_closing]), through which every server that keeps the laws of the
      interface serves its target ([Servers.served_through_port]).
    - The watch of the store delivers the events of its ticks in order and, once it
      is cancelled, ends if its consumer leaves room ([Watcher.watch_delivers],
      [Watcher.cancel_needs_room]).
    - Flow control: the window bounds what is in flight and loses no wake-up; the
      token bucket keeps to its rate and the gate to its limits
      ([Decorator.bucket_rate_bound], [Decorator.gate_bound]).
    - Access: the socks5 server dials only for authenticated clients
      ([Socks5.dial_authenticated]), the administration API answers only with the
      password ([Admin.api_needs_password]), keys stay below the store's root.
    - Authentication and identity: the two sides of the handshake agree, a client
      has the identity of its password, and streams carry it.
    - Life cycles: the maps and heaps of the hub, the table and the client stay
      consistent in every interleaving; a session's end cleans up after it; a
      proxied connection is torn down once; a bridge can always return; a dialer
      has one session and ends when closed; pooled sessions do not leak. Stopping an
      instance closes exactly what starting it opened ([Pluginer.start_stop_sockets]),
      a reload replaces it ([StarRun.reload_outcomes]), its goroutines end
      ([Pluginer.goroutines_terminate]).
    - Configuration and routing: validation is exact, servers and rules are the
      ones configured, choices rotate; a proxy starts one dialer per chain
      specification ([Ingress.chain_dialers_started]); the administration routes
      register without conflict exactly if the DNS components have different names
      ([Setup.admin_mux_total]).
    - Defects, each proved of the code as it is: see the theorems whose comments
      begin with what goes wrong ([CtrlClient.uplink_starved],
      [CtrlClient.write_failure_panics], [CtrlHub.OpenConn_failure_keeps_ack],
      [Proxy.half_closed_unnotified], [Sniff.long_prefixes_interfere],
      [Pool.Kcp.redial_of_dead_session_fatal], [H2.error_not_sticky],
      [ConfigStore.concurrent_puts_torn], [Watcher.change_before_baseline_missed],
      [StarRun.reload_failure_sticks], [StarRun.forgotten_plugins_crash],
      [StarRun.udp_process_never_stops],
      [Frame.datagram_crashes], [Frame.listener_race],
      [Tunnel.foreign_data_injected], [Custom.tcp_message_crashes],
      [Ingress.reload_doubles_dialers], [Facade.ws_failure_unnoticed],
      [Facade.kcp_abandoned_dial_leaks], [Facade.client_tried_once],
      [Servers.queued_after_close], [Session.failed_write_poisons],
      [Setup.build_without_plugins], [Setup.DnsType.dns_type_crashes], ...).

    ** Fuel

    Recursions that are not structural take fuel, always derived from the input:
    the number of bytes left to read, written or buffered, or of bytes to
    acquire; each turn uses at least one byte. The lemmas about them
    ([read_all_sent], [read_string_spec], [find_host_spec], ...) show that the
    fuel given is enough.

    ** What is not modelled

    Sockets, timers and the scheduler are events of the histories. Deadlines
    (but for the reads of [H2] and [Session.ping_timed]), logging and metrics have
    no effect on the state modelled. The embedded pages of the administration
    server, interfaces and structs that nothing uses and empty packages have no
    model. YAML and HTTP parsing, JSON, SHA-1 and base64 are parameters, and so
    are the third-party packages: miekg/dns, gobwas/ws, quic-go, kcp-go, smux,
    x/net/http2. Tokens of [Decorator] are not rounded as float64 is. Critical
    sections of [Pool] but the faulty one are single steps. [Pluginer] starts an
    instance in one step: interrupts during a start are not modelled, nor is the
    order of the shutdown callbacks among goroutines. Case folding and trimming
    are those of ASCII text. *)
From Stdlib Require Import ZArith Lia.
From Stdlib Require Export Ascii Strings.Byte.
From stdpp Require Export gmap strings list fin_maps fin_sets relations pretty sorting.
#[export] Set Default Goal Selector "!".
Open Scope Z_scope.

(** * Automation shared by the development *)

Create HintDb rainnet.
Create Rewrite HintDb rainnet_rw.

(** Case analysis on the matches of the goal, with equations simplified. *)
Ltac go_case := repeat (case_match; simplify_eq/=).

(** Turns boolean comparisons of [Z], [nat] and strings into propositions. *)
Ltac bool_to_prop :=
  repeat match goal with
  | H : (_ <? _) = true |- _ => apply Z.ltb_lt in H
  | H : (_ <? _) = false |- _ => apply Z.ltb_ge in H
  | H : (_ <=? _) = true |- _ => apply Z.leb_le in H
  | H : (_ <=? _) = false |- _ => apply Z.leb_gt in H
  | H : (_ =? _) = true |- _ => apply Z.eqb_eq in H
  | H : (_ =? _) = false |- _ => apply Z.eqb_neq in H
  | H : Nat.ltb _ _ = true |- _ => apply Nat.ltb_lt in H
  | H : Nat.ltb _ _ = false |- _ => apply Nat.ltb_ge in H
  | H : Nat.eqb _ _ = true |- _ => apply Nat.eqb_eq in H
  | H : Nat.eqb _ _ = false |- _ => apply Nat.eqb_neq in H
  | H : String.eqb _ _ = true |- _ => apply String.eqb_eq in H
  | H : String.eqb _ _ = false |- _ => apply String.eqb_neq in H
  | H : _ && _ = true |- _ => apply andb_true_iff in H as [??]
  | H : _ || _ = false |- _ => apply orb_false_iff in H as [??]
  end.

(** * Results: Go's [(value, error)] pairs *)

Inductive result (E A : Type) : Type :=
  | Ok (a : A)
  | Err (e : E).
Arguments Ok {E A} a.
Arguments Err {E A} e.

#[export] Instance result_ret E : MRet (result E) := fun A a => Ok a.
#[export] Instance result_bind E : MBind (result E) := fun A B k r =>
  match r with Ok a => k a | Err e => Err e end.
#[export] Instance result_fmap E : FMap (result E) := fun A B f r =>
  match r with Ok a => Ok (f a) | Err e => Err e end.

#[export] Instance result_eq_dec E A `{EqDecision E, EqDecision A} : EqDecision (result E A).
Proof. solve_decision. Defined.

Definition map_err {E F A} (f : E → F) (r : result E A) : result F A :=
  match r with Ok a => Ok a | Err e => Err (f e) end.

(** * Machine integers *)

(** Go's fixed-width arithmetic wraps; [uN]/[i64] write that wrap-around out. *)
Definition u8 (z : Z) : Z := z mod 2 ^ 8.
Definition u16 (z : Z) : Z := z mod 2 ^ 16.
Definition u32 (z : Z) : Z := z mod 2 ^ 32.
Definition u64 (z : Z) : Z := z mod 2 ^ 64.
Definition i64 (z : Z) : Z := (z + 2 ^ 63) mod 2 ^ 64 - 2 ^ 63.

Lemma u32_small z : 0 ≤ z < 2 ^ 32 → u32 z = z.
Proof. intros. by apply Z.mod_small. Qed.

Lemma u32_range z : 0 ≤ u32 z < 2 ^ 32.
Proof. by apply Z.mod_pos_bound. Qed.

Lemma i64_small z : - 2 ^ 63 ≤ z < 2 ^ 63 → i64 z = z.
Proof. intros. unfold i64. rewrite Z.mod_small; lia. Qed.

#[export] Hint Resolve u32_range : rainnet.

(** * Bytes *)

(** A Go [byte] is the kernel's 256-constructor [byte]; every byte string is
    well formed by its type. *)
#[export] Instance byte_eq_dec' : EqDecision byte := Byte.byte_eq_dec.

Definition b2z (b : byte) : Z := Z.of_N (Byte.to_N b).
Definition z2b (z : Z) : byte := default x00 (Byte.of_N (Z.to_N (u8 z))).

Lemma b2z_range b : 0 ≤ b2z b < 256.
Proof. unfold b2z. pose proof (Byte.to_N_bounded b). lia. Qed.

Lemma b2z_z2b z : b2z (z2b z) = u8 z.
Proof.
  unfold b2z, z2b. pose proof (Z.mod_pos_bound z 256 eq_refl) as Hr.
  change (z mod 256) with (u8 z) in Hr.
  destruct (Byte.of_N (Z.to_N (u8 z))) as [b|] eqn:E; simpl.
  - apply Byte.to_of_N in E. rewrite E. lia.
  - apply Byte.of_N_None_iff in E. lia.
Qed.

Lemma z2b_b2z b : z2b (b2z b) = b.
Proof.
  unfold z2b, b2z, u8. pose proof (Byte.to_N_bounded b).
  rewrite Z.mod_small by lia. rewrite N2Z.id, Byte.of_to_N. done.
Qed.

Lemma b2z_inj a b : b2z a = b2z b → a = b.
Proof. intros H. by rewrite <- (z2b_b2z a), <- (z2b_b2z b), H. Qed.

Lemma u8_small z : 0 ≤ z < 256 → u8 z = z.
Proof. intros. by apply Z.mod_small. Qed.

(** Byte xor, as [^] on Go bytes. *)
Definition bxor (a b : byte) : byte := z2b (Z.lxor (b2z a) (b2z b)).

Lemma lxor_byte_range a b : 0 ≤ a < 256 → 0 ≤ b < 256 → 0 ≤ Z.lxor a b < 256.
Proof.
  intros Ha Hb. split; [apply Z.lxor_nonneg; lia|].
  destruct (Z.eq_dec (Z.lxor a b) 0) as [->|Hne]; [lia|].
  assert (0 ≤ Z.lxor a b) by (apply Z.lxor_nonneg; lia).
  apply (Z.log2_lt_pow2 _ 8); [lia|].
  pose proof (Z.log2_lxor a b ltac:(lia) ltac:(lia)).
  assert (∀ x, 0 ≤ x < 256 → Z.log2 x < 8) as Hl.
  { intros x Hx. destruct (Z.eq_dec x 0) as [->|]; [done|]. apply Z.log2_lt_pow2; lia. }
  pose proof (Hl a Ha). pose proof (Hl b Hb). lia.
Qed.

Lemma bxor_involutive a k : bxor (bxor a k) k = a.
Proof.
  unfold bxor. rewrite b2z_z2b, u8_small.
  2:{ apply lxor_byte_range; apply b2z_range. }
  rewrite Z.lxor_assoc, Z.lxor_nilpotent, Z.lxor_0_r. apply z2b_b2z.
Qed.

(** Big-endian integers: encoding/binary's [BigEndian.PutUintN] and [UintN]. *)
Fixpoint be_put (n : nat) (z : Z) : list byte :=
  match n with
  | O => []
  | S n => z2b (Z.shiftr z (8 * Z.of_nat n)) :: be_put n z
  end.

Definition be_step (acc : Z) (b : byte) : Z := Z.lor (Z.shiftl acc 8) (b2z b).
Definition be_get (l : list byte) : Z := fold_left be_step l 0.

Lemma length_be_put n z : length (be_put n z) = n.
Proof. induction n; simpl; congruence. Qed.

Lemma be_step_add acc b : 0 ≤ acc → be_step acc b = acc * 256 + b2z b.
Proof.
  intros. unfold be_step. pose proof (b2z_range b).
  rewrite Z.shiftl_mul_pow2 by lia. change (2 ^ 8) with 256.
  rewrite <- Z.add_lor_land, <- Z.add_0_r at 1.
  enough (Z.land (acc * 256) (b2z b) = 0) as -> by lia.
  apply Z.bits_inj'. intros i Hi. rewrite Z.land_spec, Z.bits_0.
  destruct (Z.ltb_spec i 8).
  - change 256 with (2 ^ 8). rewrite Z.mul_pow2_bits_low by lia. done.
  - rewrite (Z.bits_above_log2 (b2z b) i); [apply andb_false_r|lia|].
    destruct (Z.eq_dec (b2z b) 0) as [->|]; [simpl; lia|].
    enough (Z.log2 (b2z b) < 8) by lia. apply Z.log2_lt_pow2; lia.
Qed.

Lemma be_fold_put n z acc :
  0 ≤ acc → fold_left be_step (be_put n z) acc = acc * 256 ^ Z.of_nat n + z mod 256 ^ Z.of_nat n.
Proof.
  revert acc. induction n as [|n IH]; intros acc Ha; cbn [be_put fold_left].
  { rewrite Z.mod_1_r. simpl. lia. }
  rewrite be_step_add, b2z_z2b by done.
  pose proof (Z.mod_pos_bound (Z.shiftr z (8 * Z.of_nat n)) (2 ^ 8) eq_refl).
  rewrite IH by (unfold u8; lia).
  rewrite Nat2Z.inj_succ, Z.pow_succ_r by lia. unfold u8.
  rewrite Z.shiftr_div_pow2 by lia. change (2 ^ 8) with 256.
  replace (2 ^ (8 * Z.of_nat n)) with (256 ^ Z.of_nat n) by (rewrite Z.pow_mul_r by lia; done).
  rewrite (Z.mul_comm 256), Z.rem_mul_r by lia. ring.
Qed.

Lemma be_get_put n z : 0 ≤ z < 256 ^ Z.of_nat n → be_get (be_put n z) = z.
Proof. intros. unfold be_get. rewrite be_fold_put, Z.mod_small; lia. Qed.

Lemma be_get_bound_acc l acc :
  0 ≤ acc → 0 ≤ fold_left be_step l acc < (acc + 1) * 256 ^ Z.of_nat (length l).
Proof.
  revert acc. induction l as [|b l IH]; intros acc Ha; simpl fold_left.
  { simpl. lia. }
  rewrite be_step_add by done. pose proof (b2z_range b).
  destruct (IH (acc * 256 + b2z b)) as [H1 H2]; [lia|]. split; [done|].
  rewrite length_cons, Nat2Z.inj_succ, Z.pow_succ_r by lia.
  assert (0 < 256 ^ Z.of_nat (length l)) by (apply Z.pow_pos_nonneg; lia). nia.
Qed.

Lemma be_get_bound l : 0 ≤ be_get l < 256 ^ Z.of_nat (length l).
Proof. pose proof (be_get_bound_acc l 0 ltac:(lia)). unfold be_get. lia. Qed.

Lemma be_fold_inj l1 l2 a1 a2 :
  length l1 = length l2 → 0 ≤ a1 → 0 ≤ a2 →
  fold_left be_step l1 a1 = fold_left be_step l2 a2 → a1 = a2 ∧ l1 = l2.
Proof.
  revert l2 a1 a2. induction l1 as [|b1 l1 IH]; intros [|b2 l2] a1 a2 Hl H1 H2 He;
    simplify_eq/=; [done|].
  rewrite !be_step_add in He by done.
  pose proof (b2z_range b1). pose proof (b2z_range b2).
  apply IH in He as [He ->]; [|lia..].
  assert (a1 = a2) as -> by lia. split; [done|]. f_equal. apply b2z_inj. lia.
Qed.

Lemma be_put_get l : be_put (length l) (be_get l) = l.
Proof.
  apply (be_fold_inj _ _ 0 0); [apply length_be_put|lia..|].
  apply be_get_put. apply be_get_bound.
Qed.

(** * Readers *)

(** What is left to read on a connection, up to its end of file. *)
Inductive io_err := EOF | UnexpectedEOF.
#[export] Instance io_err_eq_dec : EqDecision io_err.
Proof. solve_decision. Defined.

(** [io.ReadFull]: all [n] bytes, or [EOF] when the stream is already empty and
    [ErrUnexpectedEOF] when it ends in the middle. *)
Definition read_full (n : nat) (s : list byte) : result io_err (list byte * list byte) :=
  if Nat.ltb (length s) n then
    Err (match s with [] => EOF | _ => UnexpectedEOF end)
  else Ok (take n s, drop n s).

Lemma read_full_app p s : read_full (length p) (p ++ s) = Ok (p, s).
Proof.
  unfold read_full. rewrite length_app.
  destruct (Nat.ltb_spec (length p + length s) (length p)); [lia|].
  by rewrite take_app_length, drop_app_length.
Qed.

Lemma read_full_app' n p s : length p = n → read_full n (p ++ s) = Ok (p, s).
Proof. intros <-. apply read_full_app. Qed.

Lemma read_full_Ok n s p s' : read_full n s = Ok (p, s') → s = p ++ s' ∧ length p = n.
Proof.
  unfold read_full. destruct (Nat.ltb_spec (length s) n); intros; simplify_eq.
  rewrite take_drop, length_take. split; [done|lia].
Qed.

Lemma read_full_short n s :
  (length s < n)%nat → read_full n s = Err (match s with [] => EOF | _ => UnexpectedEOF end).
Proof. intros. unfold read_full. by destruct (Nat.ltb_spec (length s) n); [|lia]. Qed.

#[export] Hint Rewrite read_full_app length_be_put : rainnet_rw.

(** * Lists used as heaps *)

(** A loop that updates the cells named by a list of references. *)
Lemma lookup_foldl_alter {A K} (f : A → A) (vs : list (K * nat)) (hp : list A) (l : nat) :
  (∀ a, f (f a) = f a) →
  foldl (λ hp x, alter f x.2 hp) hp vs !! l =
    if bool_decide (l ∈ vs.*2) then f <$> hp !! l else hp !! l.
Proof.
  intros Hf. revert hp. induction vs as [|[k i] vs IH]; intros hp; cbn [foldl].
  { by rewrite bool_decide_false by (by intros ?%elem_of_nil). }
  rewrite IH. cbn [snd]. rewrite fmap_cons. cbn [snd].
  rewrite (bool_decide_ext (l ∈ i :: vs.*2) (l = i ∨ l ∈ vs.*2)) by apply elem_of_cons.
  destruct (decide (l = i)) as [->|Hne].
  - rewrite list_lookup_alter_eq, (bool_decide_true (_ ∨ _)) by (by left).
    case_bool_decide; [|done]. destruct (hp !! i); simpl; congruence.
  - rewrite list_lookup_alter_ne by done.
    rewrite (bool_decide_ext (l = i ∨ l ∈ vs.*2) (l ∈ vs.*2)) by tauto. done.
Qed.

Lemma elem_of_values `{Countable K} {A} (m : gmap K A) (k : K) (x : A) :
  m !! k = Some x → x ∈ (map_to_list m).*2.
Proof. intros Hk. apply list_elem_of_fmap. exists (k, x). split; [done|]. by apply elem_of_map_to_list. Qed.

(** * Concatenations *)

Lemma list_elem_of_concat {A} (x : A) (ls : list (list A)) : x ∈ concat ls ↔ ∃ l, x ∈ l ∧ l ∈ ls.
Proof.
  induction ls as [|l ls IH]; cbn [concat].
  - split; [by intros ?%elem_of_nil|]. by intros (?&_&?%elem_of_nil).
  - rewrite elem_of_app, IH. setoid_rewrite elem_of_cons. naive_solver.
Qed.

(** * Filters *)

Lemma filter_all {A} (P : A → Prop) `{∀ x, Decision (P x)} (l : list A) :
  (∀ x, x ∈ l → P x) → filter P l = l.
Proof.
  induction l as [|x l IH]; intros Hl; [done|]. rewrite filter_cons_True by (apply Hl; by left).
  f_equal. apply IH. intros y Hy. apply Hl. by right.
Qed.

(** * Finite checks *)

(** A property of the integers below [n], checked one by one. *)
Lemma small_check (f : Z → bool) (n : Z) :
  forallb f (seqZ 0 n) = true → ∀ z, 0 ≤ z < n → f z = true.
Proof.
  intros H z Hz. rewrite forallb_forall in H. apply H, list_elem_of_In, elem_of_seqZ. lia.
Qed.
