(* ===== verification/Message.v ===== *)
(** The star wire format (protocol/star/message.go, session.go, response.go):
    frames, their encoder and decoder, the control messages they carry and the
    [Session] that sends and receives them. *)
From S2P Require Import Prelude.
From Stdlib Require Import ZArith Lia.

(** * Constants *)

Definition ProtocolVersion : byte := x01.

Definition MsgHandshake : byte := x01.
Definition MsgHandshakeAck : byte := x02.
Definition MsgRegisterStream : byte := x03.
Definition MsgRegisterStreamAck : byte := x04.
Definition MsgConnOpen : byte := x05.
Definition MsgConnOpenAck : byte := x06.
Definition MsgData : byte := x10.
Definition MsgStreamClose : byte := x11.
Definition MsgPing : byte := x20.
Definition MsgPong : byte := x21.
Definition MsgClientConnReq : byte := x30.
Definition MsgClientConnAck : byte := x31.
Definition MsgWindowUpdate : byte := x22.

Definition HeaderSize : nat := 12.
Definition MaxPayloadSize : Z := 2 ^ 20.
Definition CtrlStreamID : Z := 0.
Definition FlagHalfClose : byte := x01.

(** * Messages *)

(** [Payload = []] is Go's nil slice: [ReadMessage] leaves [Payload] nil when
    the declared length is 0. *)
Record Message := mkMessage {
  Type_ : byte;
  Flags : byte;
  StreamID : Z;
  Payload : list byte;
}.

#[export] Instance Message_eq_dec : EqDecision Message.
Proof. solve_decision. Defined.

Definition IsHalfClose (m : Message) : bool :=
  bool_decide (Type_ m = MsgStreamClose) &&
  negb (Z.land (b2z (Flags m)) (b2z FlagHalfClose) =? 0).

Definition HalfClose (streamID : Z) : Message :=
  mkMessage MsgStreamClose FlagHalfClose streamID [].

(** What a Go value of type [Message] guarantees by its field types, with the
    size limit [WriteMessage] enforces. *)
Definition Message_wf (m : Message) : Prop :=
  0 ≤ StreamID m < 2 ^ 32 ∧ Z.of_nat (length (Payload m)) ≤ MaxPayloadSize.

Inductive star_err :=
  | ErrPayloadSize (n : Z)
  | ErrVersion (v : byte)
  | ErrIO (e : io_err)
  | ErrWrite
  | ErrEmptyPayload (t : byte)
  | ErrJson
  | ErrUnexpected (t : byte)
  | ErrRejected.

#[export] Instance star_err_eq_dec : EqDecision star_err.
Proof. solve_decision. Defined.

(** The frame [WriteMessage] builds; byte 3 keeps the zero [make] gave it. *)
Definition frame (m : Message) : list byte :=
  [ProtocolVersion; Type_ m; Flags m; x00]
    ++ be_put 4 (StreamID m)
    ++ be_put 4 (u32 (Z.of_nat (length (Payload m))))
    ++ Payload m.

(** An [io.Writer]: the [Write] calls so far, and whether writing fails. *)
Record writer := mkWriter { w_log : list (list byte); w_broken : bool }.

Definition w_write (w : writer) (bs : list byte) : result star_err writer :=
  if w_broken w then Err ErrWrite else Ok (mkWriter (w_log w ++ [bs]) false).

Definition WriteMessage (w : writer) (m : Message) : result star_err writer :=
  if MaxPayloadSize <? Z.of_nat (length (Payload m))
  then Err (ErrPayloadSize (Z.of_nat (length (Payload m))))
  else w_write w (frame m).

Definition ReadMessage (r : list byte) : result star_err (Message * list byte) :=
  '(head, r) ← map_err ErrIO (read_full HeaderSize r);
  if negb (bool_decide (nth 0 head x00 = ProtocolVersion)) then Err (ErrVersion (nth 0 head x00))
  else
    let streamID := be_get (take 4 (drop 4 head)) in
    let len := be_get (take 4 (drop 8 head)) in
    if MaxPayloadSize <? len then Err (ErrPayloadSize len)
    else if 0 <? len then
      '(p, r) ← map_err ErrIO (read_full (Z.to_nat len) r);
      Ok (mkMessage (nth 1 head x00) (nth 2 head x00) streamID p, r)
    else Ok (mkMessage (nth 1 head x00) (nth 2 head x00) streamID [], r).

(** A read loop: frames until the first error, which it returns with them.
    Every frame takes at least [HeaderSize] bytes, so [length r] is fuel enough. *)
Fixpoint read_all (fuel : nat) (r : list byte) : list Message * star_err :=
  match ReadMessage r with
  | Err e => ([], e)
  | Ok (m, r') =>
      match fuel with
      | O => ([], ErrIO EOF)
      | S fuel => let '(ms, e) := read_all fuel r' in (m :: ms, e)
      end
  end.

(** * Message names *)

Definition hex_digit (z : Z) : Ascii.ascii :=
  default Ascii.zero (String.get (Z.to_nat z) "0123456789abcdef").

(** fmt's [%02x] on a byte. *)
Definition hex2 (b : byte) : string :=
  String (hex_digit (b2z b / 16)) (String (hex_digit (b2z b mod 16)) EmptyString).

Definition MsgTypeName (t : byte) : string :=
  if bool_decide (t = MsgHandshake) then "handshake"
  else if bool_decide (t = MsgHandshakeAck) then "handshakeAck"
  else if bool_decide (t = MsgRegisterStream) then "registerStream"
  else if bool_decide (t = MsgRegisterStreamAck) then "registerStreamAck"
  else if bool_decide (t = MsgConnOpen) then "connOpen"
  else if bool_decide (t = MsgConnOpenAck) then "connOpenAck"
  else if bool_decide (t = MsgData) then "data"
  else if bool_decide (t = MsgStreamClose) then "streamClose"
  else if bool_decide (t = MsgPing) then "ping"
  else if bool_decide (t = MsgPong) then "pong"
  else if bool_decide (t = MsgClientConnReq) then "clientConnReq"
  else if bool_decide (t = MsgClientConnAck) then "clientConnAck"
  else if bool_decide (t = MsgWindowUpdate) then "windowUpdate"
  else "unknown(0x" +:+ hex2 t +:+ ")".

(** * Control messages *)

Record HandshakeReq := mkHandshakeReq {
  hr_Version : Z; hr_ClientName : string; hr_KeyPassword : string }.
Record HandshakeAck := mkHandshakeAck { ha_OK : bool; ha_Message : string }.
Record RegisterStreamReq := mkRegisterStreamReq {
  rr_ClientProxyName : string; rr_StreamId : string }.
Record RegisterStreamAck := mkRegisterStreamAck {
  ra_OK : bool; ra_StreamId : string; ra_AssignID : Z; ra_Message : string }.
Record ConnOpenReq := mkConnOpenReq { cr_StreamID : Z; cr_ConnID : Z }.
Record ConnOpenAck := mkConnOpenAck { ca_ConnID : Z; ca_OK : bool; ca_Message : string }.
Record ClientConnReq := mkClientConnReq {
  cc_ConnID : Z; cc_ClientProxyName : string; cc_StreamId : string }.
Record ClientConnAck := mkClientConnAck { cca_ConnID : Z; cca_OK : bool; cca_Message : string }.
Record WindowUpdate := mkWindowUpdate { wu_ConnID : Z; wu_Delta : Z }.

(** encoding/json on a control type: [Marshal] (which cannot fail on these
    structs of integers, booleans and strings) and [Unmarshal]. *)
Class JsonCodec (A : Type) := {
  json_marshal : A → list byte;
  json_unmarshal : list byte → option A;
}.

(** What the protocol relies on: an object is never the empty text, and values
    whose strings are valid UTF-8 ([json_valid]) are read back unchanged. *)
Class JsonLaws (A : Type) `{JsonCodec A} := {
  json_valid : A → Prop;
  json_nonempty v : json_marshal v ≠ [];
  json_roundtrip v : json_valid v → json_unmarshal (json_marshal v) = Some v;
}.

(** The codecs of all the control messages of the protocol. *)
Class ControlJson := {
  #[global] json_HandshakeReq :: JsonCodec HandshakeReq;
  #[global] json_HandshakeAck :: JsonCodec HandshakeAck;
  #[global] json_RegisterStreamReq :: JsonCodec RegisterStreamReq;
  #[global] json_RegisterStreamAck :: JsonCodec RegisterStreamAck;
  #[global] json_ConnOpenReq :: JsonCodec ConnOpenReq;
  #[global] json_ConnOpenAck :: JsonCodec ConnOpenAck;
  #[global] json_ClientConnReq :: JsonCodec ClientConnReq;
  #[global] json_ClientConnAck :: JsonCodec ClientConnAck;
  #[global] json_WindowUpdate :: JsonCodec WindowUpdate;
}.

Definition DecodeControl {A} `{JsonCodec A} (m : Message) : result star_err A :=
  match Payload m with
  | [] => Err (ErrEmptyPayload (Type_ m))
  | p => match json_unmarshal p with Some v => Ok v | None => Err ErrJson end
  end.

(** The message [SendControl] sends. *)
Definition control_message {A} `{JsonCodec A} (t : byte) (v : A) : Message :=
  mkMessage t x00 CtrlStreamID (json_marshal v).

(** * Sessions *)

(** A [Session]: what is left to read on its connection, and its writer. *)
Record Session := mkSession { s_in : list byte; s_out : writer }.

Definition NewSession (r : list byte) : Session := mkSession r (mkWriter [] false).

Definition Send (s : Session) (m : Message) : result star_err Session :=
  w ← WriteMessage (s_out s) m; Ok (mkSession (s_in s) w).

Definition Receive (s : Session) : result star_err (Message * Session) :=
  '(m, r) ← ReadMessage (s_in s); Ok (m, mkSession r (s_out s)).

Definition SendControl {A} `{JsonCodec A} (s : Session) (t : byte) (v : A) : result star_err Session :=
  Send s (control_message t v).

(** [Ping]: one ping, then exactly one message, which must be a pong; the
    round-trip time is left out. *)
Definition Ping (s : Session) : result star_err Session :=
  s ← Send s (mkMessage MsgPing x00 CtrlStreamID []);
  '(m, s) ← Receive s;
  if bool_decide (Type_ m = MsgPong) then Ok s else Err (ErrUnexpected (Type_ m)).

(** The bytes a session has written, in order. *)
Definition written (s : Session) : list byte := concat (w_log (s_out s)).

(** * The codec *)

Lemma frame_split m :
  frame m = ([ProtocolVersion; Type_ m; Flags m; x00] ++ be_put 4 (StreamID m)
     ++ be_put 4 (u32 (Z.of_nat (length (Payload m))))) ++ Payload m.
Proof. unfold frame. by rewrite <- !app_assoc. Qed.

Lemma length_header m : length ([ProtocolVersion; Type_ m; Flags m; x00]
     ++ be_put 4 (StreamID m) ++ be_put 4 (u32 (Z.of_nat (length (Payload m))))) = HeaderSize.
Proof. reflexivity. Qed.

Lemma length_frame m : length (frame m) = (HeaderSize + length (Payload m))%nat.
Proof. by rewrite frame_split, length_app, length_header. Qed.

(** The decoder after a complete header. *)
Lemma ReadMessage_header v t f r sid len rest :
  length sid = 4%nat → length len = 4%nat →
  ReadMessage ([v; t; f; r] ++ sid ++ len ++ rest) =
    if negb (bool_decide (v = ProtocolVersion)) then Err (ErrVersion v)
    else if MaxPayloadSize <? be_get len then Err (ErrPayloadSize (be_get len))
    else if 0 <? be_get len then
      '(p, r) ← map_err ErrIO (read_full (Z.to_nat (be_get len)) rest);
      Ok (mkMessage t f (be_get sid) p, r)
    else Ok (mkMessage t f (be_get sid) [], rest).
Proof.
  intros Hs Hl.
  destruct sid as [|s0 [|s1 [|s2 [|s3 [|]]]]]; simplify_eq/=.
  destruct len as [|l0 [|l1 [|l2 [|l3 [|]]]]]; simplify_eq/=.
  unfold ReadMessage. cbn [app].
  pose (hdr := [v; t; f; r; s0; s1; s2; s3; l0; l1; l2; l3]).
  change (v :: t :: f :: r :: s0 :: s1 :: s2 :: s3 :: l0 :: l1 :: l2 :: l3 :: rest) with (hdr ++ rest).
  rewrite (read_full_app' HeaderSize) by done. reflexivity.
Qed.

Lemma ReadMessage_frame m rest : Message_wf m → ReadMessage (frame m ++ rest) = Ok (m, rest).
Proof.
  intros [Hs Hp]. unfold frame. rewrite <- !app_assoc.
  rewrite ReadMessage_header by apply length_be_put.
  rewrite bool_decide_true by done. cbn [negb].
  unfold MaxPayloadSize in *.
  rewrite !be_get_put by (change (256 ^ Z.of_nat 4) with (2 ^ 32); (apply u32_range || lia)).
  rewrite u32_small by lia.
  destruct (Z.ltb_spec (2 ^ 20) (Z.of_nat (length (Payload m)))); [lia|].
  destruct m as [t f sid p]; cbn in *. destruct (Z.ltb_spec 0 (Z.of_nat (length p))).
  - rewrite Nat2Z.id, read_full_app. done.
  - destruct p; [done|simpl in *; lia].
Qed.

Lemma WriteMessage_ok w m :
  w_broken w = false → Z.of_nat (length (Payload m)) ≤ MaxPayloadSize →
  WriteMessage w m = Ok (mkWriter (w_log w ++ [frame m]) false).
Proof.
  intros Hb Hp. unfold WriteMessage, w_write. rewrite Hb.
  destruct (Z.ltb_spec MaxPayloadSize (Z.of_nat (length (Payload m)))); [lia|done].
Qed.

(** C7: A message written to a working connection goes out in one [Write], and
    [ReadMessage] gives back exactly that message from the bytes written,
    leaving what follows them on the stream untouched. *)
Theorem WriteMessage_ReadMessage w m rest :
  w_broken w = false → Message_wf m →
  ∃ bs, WriteMessage w m = Ok (mkWriter (w_log w ++ [bs]) false) ∧
        ReadMessage (bs ++ rest) = Ok (m, rest).
Proof.
  intros Hb Hwf. exists (frame m). split.
  - apply WriteMessage_ok; [done|apply Hwf].
  - by apply ReadMessage_frame.
Qed.

Lemma WriteMessage_ReadMessage_witness :
  ∃ bs, WriteMessage (mkWriter [] false) (mkMessage MsgData x00 7 [x61; x62])
          = Ok (mkWriter [bs] false) ∧
        ReadMessage (bs ++ [x01]) = Ok (mkMessage MsgData x00 7 [x61; x62], [x01]).
Proof.
  apply (WriteMessage_ReadMessage (mkWriter [] false) (mkMessage MsgData x00 7 [x61; x62]) [x01]);
    [reflexivity|split; vm_compute; (split; congruence) || congruence].
Defined.

(** A stream with a whole header, cut into its fields. *)
Lemma header_cut s :
  (HeaderSize ≤ length s)%nat →
  ∃ (v t f r : byte) (sid len rest : list byte), length sid = 4%nat ∧ length len = 4%nat ∧
    s = [v; t; f; r] ++ sid ++ len ++ rest.
Proof.
  unfold HeaderSize. intros H.
  destruct s as [|v [|t [|f [|r s]]]]; simpl in H; try lia.
  exists v, t, f, r, (take 4 s), (take 4 (drop 4 s)), (drop 8 s).
  rewrite !length_take, length_drop. split; [lia|]. split; [lia|].
  cbn [app]. do 4 f_equal. rewrite <- (take_drop 4 s) at 1. f_equal.
  rewrite <- (take_drop 4 (drop 4 s)) at 1. by rewrite drop_drop.
Qed.

Lemma be_field l z :
  length l = 4%nat → be_get l = z → be_put 4 z = l ∧ 0 ≤ z < 2 ^ 32.
Proof.
  intros Hl <-. pose proof (be_get_bound l) as Hb. rewrite Hl in Hb.
  rewrite <- Hl. split; [apply be_put_get|exact Hb].
Qed.

(** C40: What [ReadMessage] accepts is canonical: the consumed bytes are the
    frame of the message it returns, up to the second reserved byte, which it
    ignores; and the message is within the limits of the format. *)
Theorem ReadMessage_sound s m rest :
  ReadMessage s = Ok (m, rest) →
  Message_wf m ∧ ∃ r, s = <[3%nat := r]> (frame m) ++ rest.
Proof.
  intros H. destruct (Nat.ltb_spec (length s) HeaderSize) as [Hs|Hs].
  { unfold ReadMessage in H. by rewrite read_full_short in H. }
  destruct (header_cut s Hs) as (v & t & f & r & sid & len & tl & Hsid & Hlen & ->).
  rewrite ReadMessage_header in H by done.
  case_bool_decide as Hv; [subst v; cbn [negb] in H|done].
  destruct (be_field sid _ Hsid eq_refl) as [Es Hsr], (be_field len _ Hlen eq_refl) as [El Hlr].
  set (n := be_get len) in *. set (i := be_get sid) in *.
  destruct (MaxPayloadSize <? n) eqn:Hmax; [done|].
  enough (∃ p, m = mkMessage t f i p ∧ Z.of_nat (length p) = n ∧ tl = p ++ rest) as (p & -> & Hp & ->).
  { bool_to_prop. split; [unfold Message_wf; cbn [StreamID Payload]; lia|].
    exists r. unfold frame. cbn [StreamID Payload Type_ Flags]. rewrite Hp, (u32_small n), Es, El by done.
    simpl. by rewrite <- !app_assoc. }
  destruct (0 <? n) eqn:Hpos; bool_to_prop.
  - destruct (read_full (Z.to_nat n) tl) as [[p s2]|] eqn:Ep; simplify_eq/=.
    apply read_full_Ok in Ep as [-> Hp]. exists p. split_and!; [done|lia|done].
  - simplify_eq. exists []. split_and!; [done|simpl; lia|done].
Qed.

Lemma ReadMessage_sound_witness :
  Message_wf (mkMessage MsgPing x00 0 []) ∧
  ∃ r, frame (mkMessage MsgPing x00 0 []) = <[3%nat := r]> (frame (mkMessage MsgPing x00 0 [])) ++ [].
Proof. apply (ReadMessage_sound (frame (mkMessage MsgPing x00 0 []))). vm_compute. reflexivity. Defined.

(** The read loop recovers a sequence of frames. *)
Lemma read_all_sent ms fuel :
  Forall Message_wf ms → (length ms ≤ fuel)%nat →
  read_all fuel (concat (frame <$> ms)) = (ms, ErrIO EOF).
Proof.
  revert fuel. induction ms as [|m ms IH]; intros fuel Hwf Hf.
  { by destruct fuel. }
  apply Forall_cons in Hwf as [Hm Hwf]. destruct fuel as [|fuel]; simpl in Hf; [lia|].
  cbn [fmap list_fmap concat read_all]. rewrite ReadMessage_frame by done.
  by rewrite IH by (done || lia).
Qed.

(** Framing never loses synchronisation: a peer that reads the bytes of any
    sequence of sent messages recovers exactly that sequence, then the end of
    the stream. *)
Theorem read_all_frames ms fuel :
  Forall Message_wf ms → (length ms ≤ fuel)%nat →
  read_all fuel (concat (frame <$> ms)) = (ms, ErrIO EOF).
Proof. apply read_all_sent. Qed.

Lemma read_all_frames_witness :
  read_all 2 (concat (frame <$> [mkMessage MsgData x00 7 [x61]; HalfClose 7]))
  = ([mkMessage MsgData x00 7 [x61]; HalfClose 7], ErrIO EOF).
Proof.
  apply read_all_frames; [|simpl; lia].
  repeat constructor; vm_compute; congruence.
Defined.

(** The limits are enforced on both sides: an oversized payload is never
    written; a header of another version or with an oversized length is
    rejected whatever follows it; a truncated frame is an [io] error: [EOF] when
    the stream ends before the frame or right after its header (a cut the
    caller cannot tell from a clean end), [ErrUnexpectedEOF] elsewhere. *)
Theorem codec_errors w m v t f r (sid len rest : list byte) :
  (MaxPayloadSize < Z.of_nat (length (Payload m)) →
     WriteMessage w m = Err (ErrPayloadSize (Z.of_nat (length (Payload m))))) ∧
  (length sid = 4%nat → length len = 4%nat → v ≠ ProtocolVersion →
     ReadMessage ([v; t; f; r] ++ sid ++ len ++ rest) = Err (ErrVersion v)) ∧
  (length sid = 4%nat → length len = 4%nat → MaxPayloadSize < be_get len →
     ReadMessage ([ProtocolVersion; t; f; r] ++ sid ++ len ++ rest) = Err (ErrPayloadSize (be_get len))) ∧
  (∀ k, (k < length (frame m))%nat → Message_wf m →
     ReadMessage (take k (frame m)) =
       Err (ErrIO (if (k =? 0)%nat || (k =? HeaderSize)%nat then EOF else UnexpectedEOF))) .
Proof.
  split_and!.
  - intros H. unfold WriteMessage. by destruct (Z.ltb_spec MaxPayloadSize (Z.of_nat (length (Payload m)))); [|lia].
  - intros Hs Hl Hv. rewrite ReadMessage_header by done. by rewrite bool_decide_false.
  - intros Hs Hl Hv. rewrite ReadMessage_header, bool_decide_true by done.
    cbn [negb]. by destruct (Z.ltb_spec MaxPayloadSize (be_get len)); [|lia].
  - intros k Hk [Hsid Hp]. rewrite length_frame in Hk. unfold MaxPayloadSize in *.
    destruct (Nat.ltb_spec k HeaderSize) as [Hlt|Hge].
    { unfold ReadMessage. rewrite read_full_short; [|rewrite length_take; lia].
      destruct k as [|k]; [done|]. cbn. unfold HeaderSize in *.
      by destruct (Nat.eqb_spec k 11); [lia|]. }
    rewrite frame_split, take_app_ge, length_header by (rewrite length_header; lia).
    rewrite <- !app_assoc, ReadMessage_header, bool_decide_true by (done || apply length_be_put).
    cbn [negb]. rewrite !be_get_put by (change (256 ^ Z.of_nat 4) with (2 ^ 32); (apply u32_range || lia)).
    rewrite u32_small by lia. unfold MaxPayloadSize.
    destruct (Z.ltb_spec (2 ^ 20) (Z.of_nat (length (Payload m)))); [lia|].
    destruct (Z.ltb_spec 0 (Z.of_nat (length (Payload m)))); [|lia].
    rewrite read_full_short by (rewrite length_take, Nat2Z.id; lia).
    unfold HeaderSize in *. destruct k as [|k]; [lia|]. cbn [Nat.eqb orb].
    destruct (Nat.eqb_spec k 11) as [->|Hne]; [done|].
    destruct (Payload m) as [|b p]; simpl in *; [lia|]. destruct (k - 11)%nat eqn:?; [lia|done].
Qed.
