(* ===== verification/TextCodec.v ===== *)
(** A concrete [ControlJson] for the witnesses of the development: an injective
    encoding of the control records as text. It is not encoding/json; the
    theorems quantify over every codec, and a witness instantiates them with
    this one. *)
From S2P Require Import Prelude Message.
From Stdlib Require Import ZArith Lia.

Fixpoint pos_text (p : positive) : list byte :=
  match p with
  | xH => [x2e]
  | xO p => x30 :: pos_text p
  | xI p => x31 :: pos_text p
  end.

Fixpoint text_pos (l : list byte) : option positive :=
  match l with
  | [] => None
  | b :: l =>
      if bool_decide (b = x2e) then match l with [] => Some xH | _ => None end
      else if bool_decide (b = x30) then xO <$> text_pos l
      else if bool_decide (b = x31) then xI <$> text_pos l
      else None
  end.

Lemma text_pos_text p : text_pos (pos_text p) = Some p.
Proof. induction p as [p IH|p IH|]; simpl; [by rewrite IH..|done]. Qed.

Section text.
Context (A : Type) `{Countable A}.

Definition text_codec : JsonCodec A := {|
  json_marshal v := pos_text (encode v);
  json_unmarshal l := text_pos l ≫= decode |}.

Lemma text_nonempty p : pos_text p ≠ [].
Proof. by destruct p. Qed.

Definition text_laws : @JsonLaws A text_codec.
Proof.
  refine (@Build_JsonLaws A text_codec (λ _, True) (λ v, text_nonempty (encode v)) _).
  intros v _. simpl. rewrite text_pos_text. simpl. apply decode_encode.
Defined.
End text.

#[export] Instance HandshakeReq_eq_dec : EqDecision HandshakeReq.
Proof. solve_decision. Defined.
#[export] Instance HandshakeReq_countable : Countable HandshakeReq.
Proof. by apply (inj_countable' (λ v, (hr_Version v, hr_ClientName v, hr_KeyPassword v)) (λ '(a, b, c), mkHandshakeReq a b c)); intros []. Defined.

#[export] Instance HandshakeAck_eq_dec : EqDecision HandshakeAck.
Proof. solve_decision. Defined.
#[export] Instance HandshakeAck_countable : Countable HandshakeAck.
Proof. by apply (inj_countable' (λ v, (ha_OK v, ha_Message v)) (λ '(a, b), mkHandshakeAck a b)); intros []. Defined.

#[export] Instance RegisterStreamReq_eq_dec : EqDecision RegisterStreamReq.
Proof. solve_decision. Defined.
#[export] Instance RegisterStreamReq_countable : Countable RegisterStreamReq.
Proof. by apply (inj_countable' (λ v, (rr_ClientProxyName v, rr_StreamId v)) (λ '(a, b), mkRegisterStreamReq a b)); intros []. Defined.

#[export] Instance RegisterStreamAck_eq_dec : EqDecision RegisterStreamAck.
Proof. solve_decision. Defined.
#[export] Instance RegisterStreamAck_countable : Countable RegisterStreamAck.
Proof. by apply (inj_countable' (λ v, (ra_OK v, ra_StreamId v, ra_AssignID v, ra_Message v)) (λ '(a, b, c, d), mkRegisterStreamAck a b c d)); intros []. Defined.

#[export] Instance ConnOpenReq_eq_dec : EqDecision ConnOpenReq.
Proof. solve_decision. Defined.
#[export] Instance ConnOpenReq_countable : Countable ConnOpenReq.
Proof. by apply (inj_countable' (λ v, (cr_StreamID v, cr_ConnID v)) (λ '(a, b), mkConnOpenReq a b)); intros []. Defined.

#[export] Instance ConnOpenAck_eq_dec : EqDecision ConnOpenAck.
Proof. solve_decision. Defined.
#[export] Instance ConnOpenAck_countable : Countable ConnOpenAck.
Proof. by apply (inj_countable' (λ v, (ca_ConnID v, ca_OK v, ca_Message v)) (λ '(a, b, c), mkConnOpenAck a b c)); intros []. Defined.

#[export] Instance ClientConnReq_eq_dec : EqDecision ClientConnReq.
Proof. solve_decision. Defined.
#[export] Instance ClientConnReq_countable : Countable ClientConnReq.
Proof. by apply (inj_countable' (λ v, (cc_ConnID v, cc_ClientProxyName v, cc_StreamId v)) (λ '(a, b, c), mkClientConnReq a b c)); intros []. Defined.

#[export] Instance ClientConnAck_eq_dec : EqDecision ClientConnAck.
Proof. solve_decision. Defined.
#[export] Instance ClientConnAck_countable : Countable ClientConnAck.
Proof. by apply (inj_countable' (λ v, (cca_ConnID v, cca_OK v, cca_Message v)) (λ '(a, b, c), mkClientConnAck a b c)); intros []. Defined.

#[export] Instance WindowUpdate_eq_dec : EqDecision WindowUpdate.
Proof. solve_decision. Defined.
#[export] Instance WindowUpdate_countable : Countable WindowUpdate.
Proof. by apply (inj_countable' (λ v, (wu_ConnID v, wu_Delta v)) (λ '(a, b), mkWindowUpdate a b)); intros []. Defined.

#[export] Instance TextControl : ControlJson := {|
  json_HandshakeReq := text_codec HandshakeReq;
  json_HandshakeAck := text_codec HandshakeAck;
  json_RegisterStreamReq := text_codec RegisterStreamReq;
  json_RegisterStreamAck := text_codec RegisterStreamAck;
  json_ConnOpenReq := text_codec ConnOpenReq;
  json_ConnOpenAck := text_codec ConnOpenAck;
  json_ClientConnReq := text_codec ClientConnReq;
  json_ClientConnAck := text_codec ClientConnAck;
  json_WindowUpdate := text_codec WindowUpdate |}.

#[export] Instance HandshakeReq_text_laws : JsonLaws HandshakeReq := text_laws HandshakeReq.
#[export] Instance HandshakeAck_text_laws : JsonLaws HandshakeAck := text_laws HandshakeAck.
#[export] Instance RegisterStreamReq_text_laws : JsonLaws RegisterStreamReq := text_laws RegisterStreamReq.
#[export] Instance RegisterStreamAck_text_laws : JsonLaws RegisterStreamAck := text_laws RegisterStreamAck.
#[export] Instance ConnOpenReq_text_laws : JsonLaws ConnOpenReq := text_laws ConnOpenReq.
#[export] Instance ConnOpenAck_text_laws : JsonLaws ConnOpenAck := text_laws ConnOpenAck.
#[export] Instance ClientConnReq_text_laws : JsonLaws ClientConnReq := text_laws ClientConnReq.
#[export] Instance ClientConnAck_text_laws : JsonLaws ClientConnAck := text_laws ClientConnAck.
#[export] Instance WindowUpdate_text_laws : JsonLaws WindowUpdate := text_laws WindowUpdate.
