(* ===== verification/Window.v ===== *)
(** The per-connection send window (protocol/star/window.go): the state behind
    its mutex, the critical sections of [Acquire], [Release] and [Close], and the
    interleavings of any number of goroutines that use one window. *)
From S2P Require Import Prelude.
From Stdlib Require Import ZArith Lia.

(** * The window and its critical sections *)

Definition DefaultStreamWindow : Z := 256 * 2 ^ 10.

(** [notify] holds the channels of the goroutines blocked in [Acquire]. *)
Record Window := mkWindow {
  outstanding : Z;
  limit : Z;
  closed : bool;
  notify : list nat;
}.

Definition NewWindow (l : Z) : Window := mkWindow 0 l false [].

Definition min64 (a b : Z) : Z := if a <? b then a else b.

Lemma min64_min a b : min64 a b = Z.min a b.
Proof. unfold min64. destruct (Z.ltb_spec a b); lia. Qed.

(** One turn of [Acquire]'s loop, under the mutex; [ch] is the channel it makes
    when it has to wait. *)
Inductive acquire_turn :=
  | AcqClosed
  | AcqTook (w : Window) (n : Z)
  | AcqWait (w : Window).

Definition Acquire_turn (w : Window) (n : Z) (ch : nat) : acquire_turn :=
  if closed w then AcqClosed
  else if i64 (outstanding w + min64 n (limit w)) <=? limit w then
    let take := min64 n (limit w) in
    AcqTook (mkWindow (i64 (outstanding w + take)) (limit w) (closed w) (notify w)) (i64 (n - take))
  else AcqWait (mkWindow (outstanding w) (limit w) (closed w) (notify w ++ [ch])).

(** All the turns of [Acquire] when none needs to wait; each takes at least
    one of the [n] bytes, so [S n] turns are enough. *)
Fixpoint acquire_now (fuel : nat) (w : Window) (n : Z) : option Window :=
  match fuel with
  | O => None
  | S fuel =>
      match Acquire_turn w n 0 with
      | AcqTook w n => if n <=? 0 then Some w else acquire_now fuel w n
      | _ => None
      end
  end.

(** [Release] and [Close] return the waiters, which they notify after unlocking. *)
Definition Release (w : Window) (n : Z) : Window * list nat :=
  (mkWindow (i64 (outstanding w - n)) (limit w) (closed w) [], notify w).

Definition Close (w : Window) : Window * list nat :=
  (mkWindow (outstanding w) (limit w) true [], notify w).

(** * Interleavings *)

(** A goroutine inside [Acquire]: about to take the mutex with [n] bytes still to
    take, blocked in the [select] on its channel, or returned. *)
Inductive acquirer :=
  | ARun (n : Z)
  | AWait (n : Z) (ch : nat)
  | ADone
  | AClosed
  | ACancelled.

(** [sending]: channels [Release]/[Close] have still to send to (they do it after
    unlocking); [tokens]: one-slot channels holding a value. [taken] and
    [returned] are the totals acquired and released, for the specification. *)
Record sys := mkSys {
  win : Window;
  acquirers : gmap nat acquirer;
  sending : list nat;
  tokens : gset nat;
  next_ch : nat;
  taken : Z;
  returned : Z;
}.

Definition init_sys (l : Z) : sys := mkSys (NewWindow l) ∅ [] ∅ 0 0 0.

(** A goroutine continues its loop, or returns nil when nothing is left. *)
Definition after_take (n : Z) : acquirer := if n <=? 0 then ADone else ARun n.

Inductive wstep : sys → sys → Prop :=
  | step_call s t n :
      acquirers s !! t = None → 0 ≤ n < 2 ^ 61 →
      wstep s (mkSys (win s) (<[t := ARun n]> (acquirers s)) (sending s) (tokens s)
                 (next_ch s) (taken s) (returned s))
  | step_closed s t n :
      acquirers s !! t = Some (ARun n) →
      Acquire_turn (win s) n (next_ch s) = AcqClosed →
      wstep s (mkSys (win s) (<[t := AClosed]> (acquirers s)) (sending s) (tokens s)
                 (next_ch s) (taken s) (returned s))
  | step_took s t n w n' :
      acquirers s !! t = Some (ARun n) →
      Acquire_turn (win s) n (next_ch s) = AcqTook w n' →
      wstep s (mkSys w (<[t := after_take n']> (acquirers s)) (sending s) (tokens s)
                 (next_ch s) (taken s + (n - n')) (returned s))
  | step_wait s t n w :
      acquirers s !! t = Some (ARun n) →
      Acquire_turn (win s) n (next_ch s) = AcqWait w →
      wstep s (mkSys w (<[t := AWait n (next_ch s)]> (acquirers s)) (sending s) (tokens s)
                 (S (next_ch s)) (taken s) (returned s))
  | step_wake s t n ch :
      acquirers s !! t = Some (AWait n ch) → ch ∈ tokens s →
      wstep s (mkSys (win s) (<[t := ARun n]> (acquirers s)) (sending s) (tokens s ∖ {[ch]})
                 (next_ch s) (taken s) (returned s))
  | step_cancel s t n ch :
      acquirers s !! t = Some (AWait n ch) →
      wstep s (mkSys (win s) (<[t := ACancelled]> (acquirers s)) (sending s) (tokens s)
                 (next_ch s) (taken s) (returned s))
  | step_release s n :
      0 ≤ n < 2 ^ 32 →
      wstep s (mkSys (Release (win s) n).1 (acquirers s) (sending s ++ (Release (win s) n).2) (tokens s)
                 (next_ch s) (taken s) (returned s + n))
  | step_close s :
      wstep s (mkSys (Close (win s)).1 (acquirers s) (sending s ++ (Close (win s)).2) (tokens s)
                 (next_ch s) (taken s) (returned s))
  | step_send s ch l1 l2 :
      sending s = l1 ++ ch :: l2 →
      wstep s (mkSys (win s) (acquirers s) (l1 ++ l2) ({[ch]} ∪ tokens s)
                 (next_ch s) (taken s) (returned s)).

(** * The invariant *)

(** A blocked goroutine that nobody has notified, and nobody is about to
    notify, is one the window cannot serve. *)
Definition blocked_ok (s : sys) (n : Z) (ch : nat) : Prop :=
  (ch ∈ notify (win s) ∧ closed (win s) = false ∧
     limit (win s) < outstanding (win s) + Z.min n (limit (win s)))
  ∨ ch ∈ sending s ∨ ch ∈ tokens s.

Record sys_inv (l : Z) (s : sys) : Prop := {
  inv_limit : limit (win s) = l;
  inv_count : outstanding (win s) = taken s - returned s;
  inv_bound : outstanding (win s) ≤ l;
  inv_returned : 0 ≤ returned s;
  inv_taken : 0 ≤ taken s;
  inv_size t n : acquirers s !! t = Some (ARun n) → 0 ≤ n < 2 ^ 61;
  inv_wsize t n ch : acquirers s !! t = Some (AWait n ch) → 0 ≤ n < 2 ^ 61 ∧ blocked_ok s n ch;
  inv_unique t1 t2 n1 n2 ch :
    acquirers s !! t1 = Some (AWait n1 ch) → acquirers s !! t2 = Some (AWait n2 ch) → t1 = t2;
  inv_fresh ch : ch ∈ notify (win s) ∨ ch ∈ sending s ∨ ch ∈ tokens s → (ch < next_ch s)%nat;
  inv_nodup : NoDup (notify (win s) ++ sending s);
  inv_empty ch : ch ∈ notify (win s) ∨ ch ∈ sending s → ch ∉ tokens s;
}.

Section invariant.
Context (l : Z) (Hl : 0 < l ≤ 2 ^ 61).

(** Away from the limits of int64, the arithmetic of a turn is exact. *)
Lemma Acquire_turn_exact w n ch :
  - 2 ^ 62 < outstanding w ≤ l → limit w = l → 0 ≤ n < 2 ^ 61 →
  Acquire_turn w n ch =
    if closed w then AcqClosed
    else if outstanding w + Z.min n l <=? l then
      AcqTook (mkWindow (outstanding w + Z.min n l) l (closed w) (notify w)) (n - Z.min n l)
    else AcqWait (mkWindow (outstanding w) l (closed w) (notify w ++ [ch])).
Proof.
  intros Ho Hlim Hn. unfold Acquire_turn. rewrite Hlim, min64_min.
  rewrite !i64_small by lia. done.
Qed.

Lemma sys_inv_init : sys_inv l (init_sys l).
Proof.
  split; simpl; try lia; try (intros; simplify_map_eq); try set_solver.
  all: try apply NoDup_nil_2.
Qed.

(** What a turn of the loop reads off the invariant. *)
Lemma inv_turn s t n :
  sys_inv l s → returned s < 2 ^ 62 → acquirers s !! t = Some (ARun n) →
  - 2 ^ 62 < outstanding (win s) ≤ l ∧ limit (win s) = l ∧ 0 ≤ n < 2 ^ 61.
Proof.
  intros [] Hr Ht. pose proof (inv_size0 _ _ Ht). split_and!; try done; lia.
Qed.

Lemma wstep_returned s s' : wstep s s' → returned s ≤ returned s'.
Proof. destruct 1; simpl; lia. Qed.


Ltac insert_cases :=
  repeat match goal with
  | H : <[_ := _]> _ !! _ = Some _ |- _ => apply lookup_insert_Some in H as [[??]|[??]]
  end; try discriminate;
  repeat match goal with
  | H : AWait _ _ = AWait _ _ |- _ => injection H as <- <-
  | H : ARun _ = ARun _ |- _ => injection H as <-
  | H : ?x = ?y |- _ => is_var x; is_var y; subst x
  end.

(** A goroutine moves to a state in which it does not wait. *)
Lemma inv_move s t a :
  sys_inv l s → (∀ n ch, a ≠ AWait n ch) → (∀ n, a = ARun n → 0 ≤ n < 2 ^ 61) →
  sys_inv l (mkSys (win s) (<[t := a]> (acquirers s)) (sending s) (tokens s)
               (next_ch s) (taken s) (returned s)).
Proof.
  intros [] Ha Hr. split; simpl; try assumption; intros; insert_cases; eauto.
  all: exfalso; eapply Ha; eassumption.
Qed.

(** The window after a successful turn: the other waiters are still short. *)
Lemma inv_take s k :
  sys_inv l s → 0 ≤ k → outstanding (win s) + k ≤ l →
  sys_inv l (mkSys (mkWindow (outstanding (win s) + k) l (closed (win s)) (notify (win s)))
               (acquirers s) (sending s) (tokens s) (next_ch s) (taken s + k) (returned s)).
Proof.
  intros [] Hk Hb. split; simpl; try assumption; try lia; eauto.
  intros t n ch Ht. destruct (inv_wsize0 _ _ _ Ht) as [Hn [(?&?&?)|?]]; (split; [done|]).
  - left. simpl. rewrite inv_limit0 in *. split_and!; [done..|lia].
  - by right.
Qed.

(** The channel a goroutine waits on has been made before. *)
Lemma inv_wait_old s t n ch :
  sys_inv l s → acquirers s !! t = Some (AWait n ch) → (ch < next_ch s)%nat.
Proof.
  intros [] Ht. destruct (inv_wsize0 _ _ _ Ht) as [_ [(?&_)|[?|?]]]; apply inv_fresh0; tauto.
Qed.

Lemma inv_wait s t n :
  sys_inv l s → 0 ≤ n < 2 ^ 61 → closed (win s) = false →
  l < outstanding (win s) + Z.min n l →
  sys_inv l (mkSys (mkWindow (outstanding (win s)) l false (notify (win s) ++ [next_ch s]))
               (<[t := AWait n (next_ch s)]> (acquirers s)) (sending s) (tokens s)
               (S (next_ch s)) (taken s) (returned s)).
Proof.
  intros Hinv Hn Hc Hs. pose proof (inv_wait_old s) as Hold.
  assert (∀ x, x = next_ch s → x ∈ notify (win s) ∨ x ∈ sending s ∨ x ∈ tokens s → False) as Hnew.
  { intros x -> Hx. apply (inv_fresh _ _ Hinv) in Hx. lia. }
  destruct Hinv. split; simpl; try assumption; try done; intros.
  - insert_cases. eauto.
  - insert_cases.
    + split; [done|]. left. simpl. split_and!; [|done|done].
      apply elem_of_app. right. by left.
    + destruct (inv_wsize0 _ _ _ H0) as [? [(?&?&?)|?]]; (split; [done|]); [left|by right].
      simpl. rewrite <- inv_limit0. split_and!; [|done..]. apply elem_of_app. by left.
  - insert_cases; [done| | |by eauto].
    + exfalso. eapply Nat.lt_irrefl, Hold; [by split|done].
    + exfalso. eapply Nat.lt_irrefl, Hold; [by split|done].
  - rewrite elem_of_app, list_elem_of_singleton in H.
    destruct H as [[?| ->]|?]; [apply Nat.lt_lt_succ_r, inv_fresh0; tauto|lia|].
    apply Nat.lt_lt_succ_r, inv_fresh0; tauto.
  - rewrite <- app_assoc. cbn [app]. rewrite <- Permutation_middle. apply NoDup_cons.
    rewrite elem_of_app. split; [|done]. intros ?. eapply Hnew; [done|tauto].
  - rewrite elem_of_app, list_elem_of_singleton in H.
    destruct H as [[?| ->]|?]; [apply inv_empty0; tauto| |apply inv_empty0; tauto].
    intros ?. eapply Hnew; [done|tauto].
Qed.

Lemma inv_wake s t n ch :
  sys_inv l s → acquirers s !! t = Some (AWait n ch) → ch ∈ tokens s →
  sys_inv l (mkSys (win s) (<[t := ARun n]> (acquirers s)) (sending s) (tokens s ∖ {[ch]})
               (next_ch s) (taken s) (returned s)).
Proof.
  intros [] Ht Hch. split; simpl; try assumption; intros.
  - insert_cases; [apply (inv_wsize0 _ _ _ Ht)|eauto].
  - insert_cases. destruct (inv_wsize0 _ _ _ H0) as [? Hb]. split; [done|].
    destruct Hb as [?|[?|?]]; [by left|right; by left|right; right].
    simpl. apply elem_of_difference. split; [done|]. intros ->%elem_of_singleton.
    by apply H, (inv_unique0 _ _ _ _ _ Ht H0).
  - insert_cases. eauto.
  - apply inv_fresh0. rewrite elem_of_difference in H. tauto.
  - rewrite elem_of_difference. intros [? _]. by eapply inv_empty0.
Qed.

(** [Release] and [Close] hand every waiter over to the notification loop. *)
Lemma inv_drain s o c k :
  sys_inv l s → 0 ≤ k → o = outstanding (win s) - k →
  sys_inv l (mkSys (mkWindow o (limit (win s)) c []) (acquirers s) (sending s ++ notify (win s))
               (tokens s) (next_ch s) (taken s) (returned s + k)).
Proof.
  intros [] Hk ->. split; simpl; try assumption; try lia; intros.
  - destruct (inv_wsize0 _ _ _ H) as [? Hb]. split; [done|]. right. simpl. rewrite elem_of_app.
    destruct Hb as [(?&_)|[?|?]]; tauto.
  - rewrite elem_of_app, elem_of_nil in H. apply inv_fresh0. tauto.
  - by rewrite (Permutation_app_comm (sending s)).
  - rewrite elem_of_app, elem_of_nil in H. apply inv_empty0. tauto.
Qed.

Lemma inv_send s ch l1 l2 :
  sys_inv l s → sending s = l1 ++ ch :: l2 →
  sys_inv l (mkSys (win s) (acquirers s) (l1 ++ l2) ({[ch]} ∪ tokens s)
               (next_ch s) (taken s) (returned s)).
Proof.
  intros [] Hs.
  assert (∀ x, x ∈ sending s ↔ x = ch ∨ x ∈ l1 ++ l2) as Hin.
  { intros x. rewrite Hs, !elem_of_app, elem_of_cons. tauto. }
  rewrite Hs, <- (Permutation_middle l1), <- (Permutation_middle (notify (win s))) in inv_nodup0.
  apply NoDup_cons in inv_nodup0 as [Hch Hnd]. rewrite elem_of_app in Hch.
  split; simpl; try assumption; intros.
  - destruct (inv_wsize0 _ _ _ H) as [? Hb]. split; [done|].
    destruct Hb as [?|Hb]; [by left|right]. simpl. rewrite Hin in Hb.
    rewrite elem_of_union, elem_of_singleton. tauto.
  - apply inv_fresh0. rewrite Hin. rewrite elem_of_union, elem_of_singleton in H. tauto.
  - rewrite elem_of_union, elem_of_singleton. intros [->|Ht]; [tauto|].
    apply (inv_empty0 ch0); [rewrite Hin; tauto|done].
Qed.

Lemma sys_inv_step s s' :
  sys_inv l s → wstep s s' → returned s' < 2 ^ 62 → sys_inv l s'.
Proof.
  intros Hinv Hstep Hr. pose proof (wstep_returned _ _ Hstep).
  assert (returned s < 2 ^ 62) as Hrs by lia.
  destruct Hstep as [s t n Hn Hn'|s t n Ht Ha|s t n w n' Ht Ha|s t n w Ht Ha|s t n ch Ht Hch
                    |s t n ch Ht|s n Hn|s|s ch l1 l2 Hs].
  - apply inv_move; [done..|]. by intros ? [= <-].
  - by apply inv_move.
  - destruct (inv_turn _ _ _ Hinv Hrs Ht) as (?&Hlim&?).
    rewrite Acquire_turn_exact in Ha by done.
    destruct (closed (win s)) eqn:Hc; [done|].
    destruct (outstanding (win s) + Z.min n l <=? l) eqn:Hle; [|done]. bool_to_prop.
    injection Ha as <- <-. rewrite <- Hc.
    replace (n - (n - Z.min n l)) with (Z.min n l) by lia.
    refine (inv_take _ (Z.min n l) (inv_move s t (after_take (n - Z.min n l)) Hinv _ _) _ _);
      [unfold after_take; intros; by case_match| |simpl; lia|simpl; lia].
    unfold after_take. intros n'. case_match; intros; simplify_eq. bool_to_prop. lia.
  - destruct (inv_turn _ _ _ Hinv Hrs Ht) as (?&?&?).
    rewrite Acquire_turn_exact in Ha by done.
    destruct (closed (win s)) eqn:Hc; [done|].
    destruct (outstanding (win s) + Z.min n l <=? l) eqn:Hle; [done|]. bool_to_prop.
    injection Ha as <-. by apply inv_wait.
  - by eapply inv_wake.
  - by apply inv_move.
  - apply inv_drain; [done|lia|]. rewrite i64_small; [done|].
    destruct Hinv. simpl in *. lia.
  - replace (returned s) with (returned s + 0) by lia. apply inv_drain; [done|lia|]. lia.
  - by apply inv_send.
Qed.

Lemma sys_inv_reachable s :
  rtc wstep (init_sys l) s → returned s < 2 ^ 62 → sys_inv l s.
Proof.
  intros Hs. revert s Hs. refine (rtc_ind_r _ _ _ _).
  - intros _. apply sys_inv_init.
  - intros s s' _ Hst IH Hr. eapply sys_inv_step; [|done..]. apply IH.
    pose proof (wstep_returned _ _ Hst). lia.
Qed.
End invariant.

(** From a wake-up on its way, a blocked goroutine gets back to its loop, the
    window being as it was. *)
Lemma woken s t n ch :
  acquirers s !! t = Some (AWait n ch) → ch ∈ sending s ∨ ch ∈ tokens s →
  ∃ s', rtc wstep s s' ∧ acquirers s' !! t = Some (ARun n) ∧
        win s' = win s ∧ returned s' = returned s.
Proof.
  intros Ht Hch.
  assert (∃ s1, rtc wstep s s1 ∧ acquirers s1 !! t = Some (AWait n ch) ∧ ch ∈ tokens s1 ∧
                win s1 = win s ∧ returned s1 = returned s)
    as (s1 & H1 & Ht1 & Hch1 & Hw & Hr).
  { destruct Hch as [Hch|Hch]; [|by exists s].
    apply list_elem_of_split in Hch as (l1 & l2 & Hs). eexists. split_and!.
    - apply rtc_once. by apply (step_send s ch l1 l2).
    - done.
    - simpl. set_solver.
    - done.
    - done. }
  eexists. split_and!.
  - eapply rtc_r; [exact H1|]. by apply (step_wake s1 t n ch).
  - simpl. apply lookup_insert_eq.
  - done.
  - done.
Qed.

(** C14: However many goroutines use a window of [l] bytes, and however their
    [Acquire]s, [Release]s and [Close]s interleave, what has been acquired and not
    returned is exactly [outstanding] and never exceeds [l] (as long as fewer than
    2^62 bytes have ever been returned, where int64 could overflow). *)
Theorem window_bound l s :
  0 < l ≤ 2 ^ 61 → rtc wstep (init_sys l) s → returned s < 2 ^ 62 →
  outstanding (win s) = taken s - returned s ∧ taken s ≤ returned s + l.
Proof.
  intros Hl Hs Hr. destruct (sys_inv_reachable l Hl s Hs Hr). split; [done|lia].
Qed.

(** One acquisition of a 100-byte window. *)
Definition one_acquire : sys :=
  mkSys (mkWindow 60 100 false []) {[ 0%nat := ADone ]} [] ∅ 0 60 0.

Lemma one_acquire_reachable : rtc wstep (init_sys 100) one_acquire.
Proof.
  eapply rtc_l; [apply (step_call _ 0%nat 60); [done|lia]|].
  eapply rtc_l; [eapply (step_took _ 0%nat 60); [apply lookup_insert_eq|vm_compute; reflexivity]|].
  apply rtc_refl.
Qed.

Lemma window_bound_witness :
  outstanding (win one_acquire) = taken one_acquire - returned one_acquire ∧
  taken one_acquire ≤ returned one_acquire + 100.
Proof.
  apply (window_bound 100 one_acquire); [lia|apply one_acquire_reachable|vm_compute; reflexivity].
Defined.

(** C15: No wake-up is lost: a goroutine blocked in [Acquire] for at most [l] bytes
    can always go on to return as soon as the window has been closed, or has
    room for it; so a goroutine stays blocked only while the window is short. *)
Theorem no_lost_wakeup l s t n ch :
  0 < l ≤ 2 ^ 61 → rtc wstep (init_sys l) s → returned s < 2 ^ 62 →
  acquirers s !! t = Some (AWait n ch) → n ≤ l →
  closed (win s) = true ∨ outstanding (win s) + n ≤ l →
  ∃ s', rtc wstep s s' ∧
    acquirers s' !! t = Some (if closed (win s) then AClosed else ADone).
Proof.
  intros Hl Hs Hr Ht Hn Hroom. pose proof (sys_inv_reachable l Hl s Hs Hr) as Hinv.
  destruct (inv_wsize _ _ Hinv _ _ _ Ht) as [Hsz Hb].
  assert (ch ∈ sending s ∨ ch ∈ tokens s) as Hch.
  { destruct Hb as [(_ & Hc & Hshort)|?]; [exfalso|done].
    rewrite (inv_limit _ _ Hinv) in Hshort. destruct Hroom; [congruence|lia]. }
  destruct (woken s t n ch Ht Hch) as (s1 & H1 & Ht1 & Hw1 & Hr1).
  assert (sys_inv l s1) as Hinv1.
  { apply (sys_inv_reachable l Hl); [by etrans|lia]. }
  destruct (inv_turn l s1 t n Hinv1 ltac:(lia) Ht1) as (Ho & Hlim & _).
  pose proof (Acquire_turn_exact l Hl (win s1) n (next_ch s1) Ho Hlim Hsz) as Hturn.
  rewrite Hw1 in Hturn. destruct (closed (win s)).
  - eexists. split; [eapply rtc_r; [exact H1|]; apply (step_closed s1 t n Ht1); by rewrite Hw1|].
    apply lookup_insert_eq.
  - destruct Hroom as [?|Hroom]; [done|].
    destruct (Z.leb_spec (outstanding (win s) + Z.min n l) l); [|lia].
    eexists. split; [eapply rtc_r; [exact H1|]; eapply (step_took s1 t n); [done|by rewrite Hw1]|].
    simpl. rewrite lookup_insert_eq. unfold after_take. by destruct (Z.leb_spec (n - Z.min n l) 0); [|lia].
Qed.

(** Two goroutines on a 100-byte window: the second blocks, then 100 bytes come back. *)
Definition blocked_then_released : sys :=
  mkSys (mkWindow (-40) 100 false []) {[ 0%nat := ADone; 1%nat := AWait 70 0 ]} [0%nat] ∅ 1 60 100.

Lemma blocked_then_released_reachable : rtc wstep (init_sys 100) blocked_then_released.
Proof.
  eapply rtc_l; [apply (step_call _ 0%nat 60); [done|lia]|].
  eapply rtc_l; [eapply (step_took _ 0%nat 60); [apply lookup_insert_eq|vm_compute; reflexivity]|].
  eapply rtc_l; [apply (step_call _ 1%nat 70); [done|lia]|].
  eapply rtc_l; [eapply (step_wait _ 1%nat 70); [apply lookup_insert_eq|vm_compute; reflexivity]|].
  eapply rtc_l; [apply (step_release _ 100); lia|].
  apply rtc_refl.
Qed.

Lemma no_lost_wakeup_witness :
  ∃ s', rtc wstep blocked_then_released s' ∧ acquirers s' !! 1%nat = Some ADone.
Proof.
  apply (no_lost_wakeup 100 blocked_then_released 1%nat 70 0%nat);
    [lia|apply blocked_then_released_reachable|vm_compute; reflexivity|reflexivity|lia|].
  right. vm_compute. congruence.
Defined.
