(* ===== verification/StreamTable.v ===== *)
(** The server's stream table (internal/handler/star/streamtable.go): the two
    indexes over the registered streams, numeric id allocation, and the
    specification they implement. *)
From S2P Require Import Prelude Message.
From Stdlib Require Import ZArith Lia.

(** * Entries and tables *)

(** Sessions are compared by address ([*star.Session]). *)
Abbreviation session_id := nat.
(** The address of a [StreamEntry]: both indexes, and the connections opened on
    the stream, share the entry and its counters. *)
Abbreviation entry_loc := nat.

Record StreamEntry := mkStreamEntry {
  se_AssignID : Z;
  se_ClientProxyName : string;
  se_StreamId : string;
  se_Client : session_id;
  se_Since : Z;
  se_InBytes : Z;
  se_OutBytes : Z;
}.

Record StreamStat := mkStreamStat {
  ss_AssignID : Z; ss_ClientProxyName : string; ss_StreamId : string;
  ss_Since : Z; ss_InBytes : Z; ss_OutBytes : Z }.

Definition streamKey (clientProxyName streamId : string) : string :=
  clientProxyName +:+ "/" +:+ streamId.

Definition entry_key (e : StreamEntry) : string := streamKey (se_ClientProxyName e) (se_StreamId e).

Record StreamTable := mkStreamTable {
  st_seq : Z;
  byID : gmap Z entry_loc;
  byStreamID : gmap string entry_loc;
  st_heap : list StreamEntry;
}.

Definition NewStreamTable : StreamTable := mkStreamTable 0 ∅ ∅ [].

Inductive table_err := ErrDuplicateStream (key : string).

(** * Operations *)

Definition Assign (t : StreamTable) (client : session_id) (req : RegisterStreamReq) (now : Z)
    : StreamTable * result table_err Z :=
  let key := streamKey (rr_ClientProxyName req) (rr_StreamId req) in
  match byStreamID t !! key with
  | Some _ => (t, Err (ErrDuplicateStream key))
  | None =>
      let seq := u32 (st_seq t + 1) in
      let l := length (st_heap t) in
      let e := mkStreamEntry seq (rr_ClientProxyName req) (rr_StreamId req) client now 0 0 in
      (mkStreamTable seq (<[seq := l]> (byID t)) (<[key := l]> (byStreamID t)) (st_heap t ++ [e]), Ok seq)
  end.

Definition entry_at (t : StreamTable) (l : entry_loc) : option StreamEntry := st_heap t !! l.

Definition Get (t : StreamTable) (assignID : Z) : option StreamEntry :=
  byID t !! assignID ≫= entry_at t.

Definition GetByName (t : StreamTable) (clientProxyName streamId : string) : option StreamEntry :=
  byStreamID t !! streamKey clientProxyName streamId ≫= entry_at t.

(** The entries of [byID], in some order (Go's map iteration order is random). *)
Definition entries (t : StreamTable) : list StreamEntry :=
  omap (λ '(_, l), entry_at t l) (map_to_list (byID t)).

Definition by_assign_id (e1 e2 : StreamEntry) : Prop := se_AssignID e1 ≤ se_AssignID e2.
#[export] Instance by_assign_id_dec : RelDecision by_assign_id.
Proof. intros e1 e2. unfold by_assign_id. apply _. Defined.

Definition FindByClientProxy (t : StreamTable) (clientProxyName : string) : list StreamEntry :=
  merge_sort by_assign_id (filter (λ e, se_ClientProxyName e = clientProxyName) (entries t)).

(** [delete] in both indexes; the entry itself stays reachable by pointer. *)
Definition drop_entry (t : StreamTable) (id : Z) (e : StreamEntry) : StreamTable :=
  mkStreamTable (st_seq t) (delete id (byID t)) (delete (entry_key e) (byStreamID t)) (st_heap t).

Definition Remove (t : StreamTable) (assignID : Z) : StreamTable :=
  match Get t assignID with
  | Some e => drop_entry t assignID e
  | None => t
  end.

(** One iteration of [RemoveByClient]'s loop over [byID]. *)
Definition remove_if_client (client : session_id) (acc : StreamTable * nat) (x : Z * entry_loc)
    : StreamTable * nat :=
  match entry_at acc.1 x.2 with
  | Some e =>
      if bool_decide (se_Client e = client) then (drop_entry acc.1 x.1 e, S acc.2) else acc
  | None => acc
  end.

Definition RemoveByClient (t : StreamTable) (client : session_id) : StreamTable * nat :=
  foldl (remove_if_client client) (t, 0%nat) (map_to_list (byID t)).

Definition Len (t : StreamTable) : nat := size (byID t).

Definition stream_stat (e : StreamEntry) : StreamStat :=
  mkStreamStat (se_AssignID e) (se_ClientProxyName e) (se_StreamId e)
    (se_Since e) (se_InBytes e) (se_OutBytes e).

Definition Snapshot (t : StreamTable) : list StreamStat :=
  stream_stat <$> merge_sort by_assign_id (entries t).

(** [e.InBytes.Add], [e.OutBytes.Add] through a shared pointer. *)
Definition add_bytes (t : StreamTable) (l : entry_loc) (inb outb : Z) : StreamTable :=
  mkStreamTable (st_seq t) (byID t) (byStreamID t)
    (alter (λ e, mkStreamEntry (se_AssignID e) (se_ClientProxyName e) (se_StreamId e) (se_Client e)
       (se_Since e) (u64 (se_InBytes e + inb)) (u64 (se_OutBytes e + outb))) l (st_heap t)).

(** * The invariant *)

Record table_inv (t : StreamTable) : Prop := {
  ti_seq : 0 ≤ st_seq t < 2 ^ 32;
  ti_byID id l : byID t !! id = Some l →
    ∃ e, entry_at t l = Some e ∧ se_AssignID e = id ∧ 1 ≤ id ≤ st_seq t ∧
         byStreamID t !! entry_key e = Some l;
  ti_byStreamID k l : byStreamID t !! k = Some l →
    ∃ e, entry_at t l = Some e ∧ entry_key e = k ∧ byID t !! se_AssignID e = Some l;
}.

Lemma table_inv_new : table_inv NewStreamTable.
Proof. split; simpl; [lia|intros; simplify_map_eq..]. Qed.

Lemma ti_Get t id e : table_inv t → Get t id = Some e → se_AssignID e = id.
Proof.
  intros Hinv (l & Hl & He)%bind_Some. apply (ti_byID _ Hinv) in Hl as (?&?&?&_). congruence.
Qed.

(** Both indexes give the same entries. *)
Lemma Get_GetByName t id e :
  table_inv t → Get t id = Some e →
  GetByName t (se_ClientProxyName e) (se_StreamId e) = Some e.
Proof.
  intros Hinv (l & Hl & He)%bind_Some. apply bind_Some. exists l. split; [|done].
  apply (ti_byID _ Hinv) in Hl as (e' & He' & _ & _ & Hk). by simplify_eq.
Qed.

Lemma GetByName_Get t n s e :
  table_inv t → GetByName t n s = Some e →
  entry_key e = streamKey n s ∧ Get t (se_AssignID e) = Some e.
Proof.
  intros Hinv (l & Hl & He)%bind_Some.
  apply (ti_byStreamID _ Hinv) in Hl as (e' & He' & Hk & Hid). simplify_eq.
  split; [done|]. apply bind_Some. by exists l.
Qed.

Lemma table_inv_Assign t client req now :
  table_inv t → st_seq t + 1 < 2 ^ 32 → table_inv (Assign t client req now).1.
Proof.
  intros Hinv Hseq. unfold Assign. case_match eqn:Hkey; [done|]. simpl.
  pose proof (ti_seq _ Hinv). rewrite u32_small by lia.
  assert (∀ l e, entry_at t l = Some e → ∀ e', (st_heap t ++ [e']) !! l = Some e) as Hold.
  { intros l e Hl e'. apply lookup_app_l_Some. done. }
  set (k := streamKey (rr_ClientProxyName req) (rr_StreamId req)) in *.
  set (e0 := mkStreamEntry _ _ _ _ _ _ _).
  assert ((st_heap t ++ [e0]) !! length (st_heap t) = Some e0) as Hnew by apply list_lookup_middle, eq_refl.
  split; simpl; [lia| |].
  - intros id l Hl. apply lookup_insert_Some in Hl as [[<- <-]|[Hne Hl]].
    + exists e0. split_and!; try done; try lia. apply lookup_insert_eq.
    + destruct (ti_byID _ Hinv _ _ Hl) as (e & He & Hid & Hr & Hk). exists e.
      split_and!; [by apply Hold|done|lia|lia|]. rewrite lookup_insert_ne; [done|congruence].
  - intros k' l Hl. apply lookup_insert_Some in Hl as [[<- <-]|[Hne Hl]].
    + exists e0. split_and!; try done. apply lookup_insert_eq.
    + destruct (ti_byStreamID _ Hinv _ _ Hl) as (e & He & Hk & Hid). exists e.
      split_and!; [by apply Hold|done|]. rewrite lookup_insert_ne; [done|].
      apply (ti_byID _ Hinv) in Hid as (?&?&?&?&_). lia.
Qed.

Lemma table_inv_drop t id e l :
  table_inv t → byID t !! id = Some l → entry_at t l = Some e → table_inv (drop_entry t id e).
Proof.
  intros Hinv Hid He. destruct (ti_byID _ Hinv _ _ Hid) as (e' & He' & Ha & _ & Hk). simplify_eq.
  split; simpl; [apply Hinv| |].
  - intros i l' [Hne Hl]%lookup_delete_Some.
    destruct (ti_byID _ Hinv _ _ Hl) as (e' & He'' & Hi & Hr & Hk'). exists e'.
    split_and!; [exact He''|done|simpl; lia|simpl; lia|]. apply lookup_delete_Some. split; [|done].
    intros Heq. rewrite Heq in Hk. simplify_eq.
  - intros k l' [Hne Hl]%lookup_delete_Some.
    destruct (ti_byStreamID _ Hinv _ _ Hl) as (e' & He'' & Hk' & Hi). exists e'.
    split_and!; [exact He''|done|]. apply lookup_delete_Some. split; [|done].
    intros Heq. rewrite <- Heq in Hi. simplify_eq.
Qed.

Lemma table_inv_Remove t id : table_inv t → table_inv (Remove t id).
Proof.
  intros Hinv. unfold Remove. destruct (Get t id) as [e|] eqn:He; [|done].
  apply bind_Some in He as (l & Hl & He). by eapply table_inv_drop.
Qed.

(** What [RemoveByClient]'s loop has done after some of the entries: those of
    the client are gone from both indexes, the others untouched. *)
Definition removed_from (t t' : StreamTable) (client : session_id) (l : list (Z * entry_loc)) : Prop :=
  st_heap t' = st_heap t ∧ st_seq t' = st_seq t ∧
  ∀ id lo, byID t' !! id = Some lo ↔
    byID t !! id = Some lo ∧ ∀ e, (id, lo) ∈ l → entry_at t lo = Some e → se_Client e ≠ client.

Lemma remove_loop t client l :
  table_inv t → NoDup l → (∀ x, x ∈ l → byID t !! x.1 = Some x.2) →
  let r := foldl (remove_if_client client) (t, 0%nat) l in
  table_inv r.1 ∧ removed_from t r.1 client l ∧ (size (byID r.1) + r.2 = size (byID t))%nat.
Proof.
  intros Hinv. induction l as [|[id lo] l IH] using rev_ind; intros Hnd Hl.
  { simpl. split_and!; [done| |lia]. split_and!; [done..|]. intros id lo. split; [|tauto].
    intros ?. split; [done|]. by intros ??%elem_of_nil. }
  rewrite foldl_app. simpl. set (r := foldl _ _ l) in *.
  apply NoDup_app in Hnd as (Hnd & Hnotin & _).
  destruct IH as (Hr & (Hh & Hs & Hspec) & Hsz); [done|intros; apply Hl; set_solver|].
  assert (byID t !! id = Some lo) as Hid by (apply (Hl (id, lo)); set_solver).
  assert ((id, lo) ∉ l) as Hni by (intros ?; eapply Hnotin; [done|by left]).
  assert (byID r.1 !! id = Some lo) as Hidr by (apply Hspec; split; [done|]; by intros ??%Hni).
  destruct (ti_byID _ Hinv _ _ Hid) as (e & He & Ha & _ & Hk).
  assert (entry_at r.1 lo = Some e) as He' by (unfold entry_at; by rewrite Hh).
  unfold remove_if_client. simpl. rewrite He'. case_bool_decide as Hc; simpl.
  - split_and!; [by eapply table_inv_drop| |].
    + unfold removed_from; simpl. split_and!; [done..|]. intros i lo'. rewrite lookup_delete_Some, Hspec. split.
      * intros (Hne & ? & H'). split; [done|]. intros e' [?|[= -> ->]%list_elem_of_singleton]%elem_of_app; [by apply H'|done].
      * intros (Hi & H'). assert (id ≠ i) by (intros ->; simplify_eq; eapply H'; [apply elem_of_app; right; by left|done|done]).
        split_and!; [done..|]. intros e' ?. apply H', elem_of_app. by left.
    + rewrite map_size_delete_Some by eauto. assert (size (byID r.1) ≠ 0%nat); [|lia].
      intros Hz%map_size_empty_iff. rewrite Hz in Hidr. simplify_map_eq.
  - split_and!; [done| |done]. unfold removed_from. split_and!; [done..|]. intros i lo'. rewrite Hspec.
    split; intros [? H']; (split; [done|]); intros e' Hin He''.
    + apply elem_of_app in Hin as [?|Hin%list_elem_of_singleton]; [by eapply H'|].
      simplify_eq. congruence.
    + eapply H'; [apply elem_of_app; by left|done].
Qed.

Lemma RemoveByClient_spec t client :
  table_inv t →
  let r := RemoveByClient t client in
  table_inv r.1 ∧ removed_from t r.1 client (map_to_list (byID t)) ∧
  (size (byID r.1) + r.2 = size (byID t))%nat.
Proof.
  intros Hinv. apply remove_loop; [done|apply NoDup_map_to_list|].
  intros [id lo] Hin. by apply elem_of_map_to_list in Hin.
Qed.

Lemma RemoveByClient_Get t client id e :
  table_inv t →
  Get (RemoveByClient t client).1 id = Some e ↔ Get t id = Some e ∧ se_Client e ≠ client.
Proof.
  intros Hinv. destruct (RemoveByClient_spec t client Hinv) as (_ & (Hh & _ & Hspec) & _).
  set (t' := (RemoveByClient t client).1) in *.
  unfold Get, entry_at. rewrite !bind_Some, Hh. split.
  - intros (lo & Hlo & He). apply Hspec in Hlo as [Hlo Hc]. split; [by exists lo|].
    apply Hc; [by apply elem_of_map_to_list|done].
  - intros [(lo & Hlo & He) Hc]. exists lo. split; [|done]. apply Hspec. split; [done|].
    unfold entry_at. intros e' _ He'. by simplify_eq.
Qed.

(** * Histories of a table *)

Inductive table_op :=
  | OpAssign (client : session_id) (req : RegisterStreamReq) (now : Z)
  | OpRemove (id : Z)
  | OpRemoveByClient (client : session_id)
  | OpCount (l : entry_loc) (inb outb : Z).

Definition table_step (t : StreamTable) (op : table_op) : StreamTable :=
  match op with
  | OpAssign c r now => (Assign t c r now).1
  | OpRemove id => Remove t id
  | OpRemoveByClient c => (RemoveByClient t c).1
  | OpCount l i o => add_bytes t l i o
  end.

Definition run_table (ops : list table_op) : StreamTable := foldl table_step NewStreamTable ops.

(** Counting bytes touches neither the indexes nor what identifies an entry. *)
Lemma entry_at_add_bytes t l i o lo e :
  entry_at (add_bytes t l i o) lo = Some e →
  ∃ e', entry_at t lo = Some e' ∧ se_AssignID e = se_AssignID e' ∧
        se_ClientProxyName e = se_ClientProxyName e' ∧ se_StreamId e = se_StreamId e' ∧
        se_Client e = se_Client e'.
Proof.
  unfold entry_at, add_bytes. simpl. destruct (decide (l = lo)) as [->|].
  - rewrite list_lookup_alter_eq. intros (e' & He' & ->)%fmap_Some. by exists e'.
  - rewrite list_lookup_alter_ne by done. intros ?. by exists e.
Qed.

Lemma entry_at_add_bytes' t l i o lo e :
  entry_at t lo = Some e →
  ∃ e', entry_at (add_bytes t l i o) lo = Some e' ∧ se_AssignID e' = se_AssignID e ∧
        entry_key e' = entry_key e.
Proof.
  unfold entry_at, add_bytes. simpl. destruct (decide (l = lo)) as [->|]; intros He.
  - rewrite list_lookup_alter_eq, He. by eexists.
  - rewrite list_lookup_alter_ne by done. by exists e.
Qed.

Lemma table_inv_add_bytes t l i o : table_inv t → table_inv (add_bytes t l i o).
Proof.
  intros Hinv. split; [apply Hinv| |].
  - intros id lo (e & He & Ha & Hr & Hk)%(ti_byID _ Hinv).
    destruct (entry_at_add_bytes' t l i o lo e He) as (e' & He' & Ha' & Hk').
    exists e'. split_and!; [done|congruence|simpl; lia|simpl; lia|by rewrite Hk'].
  - intros k lo (e & He & Hk & Hid)%(ti_byStreamID _ Hinv).
    destruct (entry_at_add_bytes' t l i o lo e He) as (e' & He' & Ha' & Hk').
    exists e'. split_and!; [done|congruence|by rewrite Ha'].
Qed.

Lemma st_seq_step t op :
  table_inv t → st_seq t + 1 < 2 ^ 32 → st_seq (table_step t op) ≤ st_seq t + 1.
Proof.
  intros Hinv Hs. pose proof (ti_seq _ Hinv). destruct op; simpl; try lia.
  - unfold Assign. case_match; simpl; [lia|]. rewrite u32_small; lia.
  - unfold Remove. case_match; simpl; lia.
  - destruct (RemoveByClient_spec t client Hinv) as (_ & (_ & -> & _) & _). lia.
Qed.

Lemma table_inv_step t op :
  table_inv t → st_seq t + 1 < 2 ^ 32 → table_inv (table_step t op).
Proof.
  intros Hinv Hs. destruct op; simpl.
  - by apply table_inv_Assign.
  - by apply table_inv_Remove.
  - by apply RemoveByClient_spec.
  - by apply table_inv_add_bytes.
Qed.

Lemma run_table_inv ops :
  Z.of_nat (length ops) < 2 ^ 32 - 1 →
  table_inv (run_table ops) ∧ st_seq (run_table ops) ≤ Z.of_nat (length ops).
Proof.
  induction ops as [|op ops IH] using rev_ind; intros Hl; [split; [apply table_inv_new|simpl; lia]|].
  unfold run_table in *. rewrite foldl_app. simpl. rewrite length_app in *. simpl in *.
  destruct IH as [IH Hs]; [lia|]. pose proof (st_seq_step _ op IH ltac:(lia)).
  split; [by apply table_inv_step; [|lia]|lia].
Qed.

(** * Properties *)

(** After any history of fewer than 2^32 - 1 registrations, removals and
    disconnections, the two indexes of the table agree: the same streams are
    found by number and by name, each under its own number (which is never the
    control stream 0), and each name is registered once. *)
Theorem table_indexes_agree ops :
  Z.of_nat (length ops) < 2 ^ 32 - 1 →
  let t := run_table ops in
  (∀ id e, Get t id = Some e ↔ se_AssignID e = id ∧ GetByName t (se_ClientProxyName e) (se_StreamId e) = Some e) ∧
  (∀ id e, Get t id = Some e → CtrlStreamID < id ≤ Z.of_nat (length ops)) ∧
  (∀ i j e f, Get t i = Some e → Get t j = Some f → entry_key e = entry_key f → i = j).
Proof.
  intros Hl t. destruct (run_table_inv ops Hl) as [Hinv Hseq]. fold t in Hinv, Hseq.
  split_and!.
  - intros id e. split.
    + intros H. split; [by eapply ti_Get|by eapply Get_GetByName].
    + intros [<- H]. by apply GetByName_Get in H as [_ ?].
  - intros id e (l & Hlo & _)%bind_Some. apply (ti_byID _ Hinv) in Hlo as (?&?&?&?&_).
    unfold CtrlStreamID. lia.
  - intros i j e f Hi Hj Hk.
    apply bind_Some in Hi as (l & Hl1 & He), Hj as (l' & Hl2 & Hf).
    destruct (ti_byID _ Hinv _ _ Hl1) as (?&?&?&_&Hk1), (ti_byID _ Hinv _ _ Hl2) as (?&?&?&_&Hk2).
    simplify_eq. rewrite Hk in Hk1. by simplify_eq.
Qed.

Definition reg (n s : string) : RegisterStreamReq := mkRegisterStreamReq n s.
Definition two_streams : list table_op :=
  [OpAssign 1 (reg "clientProxy-0" "stream-0") 0; OpAssign 2 (reg "clientProxy-0" "stream-1") 0].

Lemma table_indexes_agree_witness :
  let t := run_table two_streams in
  (∀ id e, Get t id = Some e ↔ se_AssignID e = id ∧ GetByName t (se_ClientProxyName e) (se_StreamId e) = Some e) ∧
  (∀ id e, Get t id = Some e → CtrlStreamID < id ≤ 2) ∧
  (∀ i j e f, Get t i = Some e → Get t j = Some f → entry_key e = entry_key f → i = j).
Proof. apply (table_indexes_agree two_streams). vm_compute. reflexivity. Defined.

(** Registration: a name already in the table is refused and the table is
    unchanged; a free one gets a number no registered stream has, is found by
    name and by number with the session that registered it, and every other
    stream is where it was. *)
Theorem Assign_spec t client req now :
  table_inv t → st_seq t + 1 < 2 ^ 32 →
  let n := rr_ClientProxyName req in let s := rr_StreamId req in
  match GetByName t n s with
  | Some _ => Assign t client req now = (t, Err (ErrDuplicateStream (streamKey n s)))
  | None => ∃ t' id, Assign t client req now = (t', Ok id) ∧ Get t id = None ∧
      Get t' id = Some (mkStreamEntry id n s client now 0 0) ∧
      GetByName t' n s = Some (mkStreamEntry id n s client now 0 0) ∧
      Len t' = S (Len t) ∧ ∀ id', id' ≠ id → Get t' id' = Get t id'
  end.
Proof.
  intros Hinv Hseq n s. pose proof (ti_seq _ Hinv).
  unfold GetByName, Assign. fold n s. destruct (byStreamID t !! streamKey n s) as [l|] eqn:Hk; simpl.
  { destruct (ti_byStreamID _ Hinv _ _ Hk) as (e & -> & _). done. }
  rewrite u32_small by lia. set (e := mkStreamEntry _ _ _ _ _ _ _).
  assert (byID t !! (st_seq t + 1) = None) as Hfree.
  { destruct (byID t !! (st_seq t + 1)) as [l|] eqn:Hl; [|done].
    apply (ti_byID _ Hinv) in Hl as (?&?&?&?&_). lia. }
  assert ((st_heap t ++ [e]) !! length (st_heap t) = Some e) as Hnew by apply list_lookup_middle, eq_refl.
  eexists _, _. split_and!; [done| | | | |].
  - unfold Get. by rewrite Hfree.
  - unfold Get, entry_at. simpl. rewrite lookup_insert_eq. exact Hnew.
  - unfold GetByName, entry_at. simpl. rewrite lookup_insert_eq. exact Hnew.
  - unfold Len. simpl. by rewrite map_size_insert_None.
  - intros id' Hne. unfold Get, entry_at. simpl. rewrite lookup_insert_ne by done.
    destruct (byID t !! id') as [l|] eqn:Hl; simpl; [|done].
    apply (ti_byID _ Hinv) in Hl as (e' & He' & _). unfold entry_at in He'. rewrite He'.
    by apply lookup_app_l_Some.
Qed.

Lemma Assign_spec_witness :
  ∃ t' id, Assign NewStreamTable 1 (reg "a" "s") 5 = (t', Ok id) ∧ Get NewStreamTable id = None ∧
    Get t' id = Some (mkStreamEntry id "a" "s" 1 5 0 0) ∧
    GetByName t' "a" "s" = Some (mkStreamEntry id "a" "s" 1 5 0 0) ∧
    Len t' = 1%nat ∧ ∀ id', id' ≠ id → Get t' id' = Get NewStreamTable id'.
Proof. apply (Assign_spec NewStreamTable 1 (reg "a" "s") 5 table_inv_new). vm_compute. reflexivity. Defined.

(** When a session ends, [RemoveByClient] unregisters all of its streams and
    no other, by number and by name, and reports how many it removed. *)
Theorem RemoveByClient_exact t client :
  table_inv t →
  let '(t', n) := RemoveByClient t client in
  (Len t' + n = Len t)%nat ∧
  (∀ id e, Get t' id = Some e ↔ Get t id = Some e ∧ se_Client e ≠ client) ∧
  (∀ name s e, GetByName t' name s = Some e → GetByName t name s = Some e ∧ se_Client e ≠ client).
Proof.
  intros Hinv. pose proof (RemoveByClient_spec t client Hinv) as (Hinv' & _ & Hsz).
  pose proof (λ id e, RemoveByClient_Get t client id e Hinv) as Hget.
  destruct (RemoveByClient t client) as [t' n]. simpl in *. split_and!; [done|done|].
  intros name s e He. apply GetByName_Get in He as [Hk He]; [|done].
  apply Hget in He as [He Hc]. split; [|done].
  apply Get_GetByName in He; [|done]. unfold GetByName in *.
  unfold entry_key in Hk. by rewrite Hk in He.
Qed.

Lemma RemoveByClient_exact_witness :
  let '(t', n) := RemoveByClient (run_table two_streams) 1 in
  (Len t' + n = Len (run_table two_streams))%nat ∧
  (∀ id e, Get t' id = Some e ↔ Get (run_table two_streams) id = Some e ∧ se_Client e ≠ 1%nat) ∧
  (∀ name s e, GetByName t' name s = Some e → GetByName (run_table two_streams) name s = Some e ∧ se_Client e ≠ 1%nat).
Proof.
  apply (RemoveByClient_exact (run_table two_streams) 1). apply run_table_inv. vm_compute. reflexivity.
Defined.

(** A name has no ["/"]. *)
Fixpoint slash_free (s : string) : bool :=
  match s with
  | EmptyString => true
  | String c s => negb (Ascii.eqb c "/"%char) && slash_free s
  end.

Lemma streamKey_inj n1 s1 n2 s2 :
  slash_free n1 = true → slash_free n2 = true →
  streamKey n1 s1 = streamKey n2 s2 → n1 = n2 ∧ s1 = s2.
Proof.
  unfold streamKey. revert n2. induction n1 as [|c n1 IH]; intros [|c' n2] H1 H2 He; simpl in *.
  - injection He as He. split; [done|exact He].
  - injection He as <- _. done.
  - injection He as -> _. done.
  - apply andb_true_iff in H1 as [_ H1], H2 as [_ H2]. injection He as -> He.
    by destruct (IH n2 H1 H2 He) as [-> ->].
Qed.

(** Names identify streams as long as client names have no ["/"]: looking a
    stream up by client name and stream id then only finds a stream registered
    under exactly that client name and stream id. *)
Theorem GetByName_exact t n s e :
  table_inv t → slash_free n = true → slash_free (se_ClientProxyName e) = true →
  GetByName t n s = Some e → se_ClientProxyName e = n ∧ se_StreamId e = s.
Proof.
  intros Hinv Hn He H. apply GetByName_Get in H as [Hk _]; [|done].
  by apply streamKey_inj in Hk.
Qed.

Lemma GetByName_exact_witness :
  let e := mkStreamEntry 2 "clientProxy-0" "stream-1" 2 0 0 0 in
  se_ClientProxyName e = "clientProxy-0"%string ∧ se_StreamId e = "stream-1"%string.
Proof.
  apply (GetByName_exact (run_table two_streams));
    [apply run_table_inv; vm_compute; reflexivity|vm_compute; reflexivity..].
Defined.

(** Without that restriction the key is ambiguous: after the client ["a/b"]
    registered its stream ["c"], the client ["a"] cannot register ["b/c"], and
    looking up ["b/c"] of ["a"] gives the stream of the other client. *)
Theorem streamKey_collision :
  let t := run_table [OpAssign 1 (reg "a/b" "c") 0] in
  Assign t 2 (reg "a" "b/c") 0 = (t, Err (ErrDuplicateStream "a/b/c")) ∧
  GetByName t "a" "b/c" = Some (mkStreamEntry 1 "a/b" "c" 1 0 0 0).
Proof. split; vm_compute; reflexivity. Qed.
