(* ===== verification/CtrlHub.v ===== *)
(** The server's hub of tunnelled connections (internal/handler/star/ctrl_hub.go):
    connection entries shared by the hub's map and the data pumps, the ack
    channels of connections being opened, and every operation of the hub. *)
From S2P Require Import Prelude Message TextCodec Window StreamTable.
From Stdlib Require Import ZArith Lia.

(** * State *)

(** [make(chan []byte, downlinkQueue)] *)
Definition downlinkQueue : nat := 256.

(** The address of a [ConnEntry]. *)
Abbreviation conn_loc := nat.

(** [Sink] is the queue of payloads on their way to the external connection;
    [Done] and [RemoteClosed] tell whether those channels have been closed. *)
Record ConnEntry := mkConnEntry {
  ce_ConnID : Z;
  ce_StreamID : Z;
  ce_ClientProxyName : string;
  ce_StreamId : string;
  ce_Client : session_id;
  ce_Stream : entry_loc;
  ce_OpenedAt : Z;
  ce_Sink : list (list byte);
  ce_Done : bool;
  ce_RemoteClosed : bool;
  ce_recvPending : Z;
  ce_SendWin : Window;
}.

(** [hub_heap] holds every entry ever made; [hub_acks] the one-slot channels
    that [OpenConn] waits on, [hub_chans] what they hold. *)
Record CtrlHub := mkCtrlHub {
  Streams : StreamTable;
  conns : gmap Z conn_loc;
  acks : gmap Z nat;
  connSeq : Z;
  hub_heap : list ConnEntry;
  hub_chans : list (option ConnOpenAck);
}.

Definition NewCtrlHub : CtrlHub := mkCtrlHub NewStreamTable ∅ ∅ 0 [] [].

(** A message on its way to a client session. *)
Abbreviation outgoing := (session_id * Message)%type.

Definition hub_entry (h : CtrlHub) (l : conn_loc) : option ConnEntry := hub_heap h !! l.

(** Assigning a field through a [*ConnEntry]. *)
Definition upd_entry (f : ConnEntry → ConnEntry) (l : conn_loc) (h : CtrlHub) : CtrlHub :=
  mkCtrlHub (Streams h) (conns h) (acks h) (connSeq h) (alter f l (hub_heap h)) (hub_chans h).

Definition with_conns (h : CtrlHub) (c : gmap Z conn_loc) : CtrlHub :=
  mkCtrlHub (Streams h) c (acks h) (connSeq h) (hub_heap h) (hub_chans h).

Definition set_done (e : ConnEntry) : ConnEntry :=
  mkConnEntry (ce_ConnID e) (ce_StreamID e) (ce_ClientProxyName e) (ce_StreamId e) (ce_Client e)
    (ce_Stream e) (ce_OpenedAt e) (ce_Sink e) true (ce_RemoteClosed e) (ce_recvPending e)
    (Close (ce_SendWin e)).1.

Definition set_remote_closed (e : ConnEntry) : ConnEntry :=
  mkConnEntry (ce_ConnID e) (ce_StreamID e) (ce_ClientProxyName e) (ce_StreamId e) (ce_Client e)
    (ce_Stream e) (ce_OpenedAt e) (ce_Sink e) (ce_Done e) true (ce_recvPending e) (ce_SendWin e).

Definition set_sink (q : list (list byte)) (e : ConnEntry) : ConnEntry :=
  mkConnEntry (ce_ConnID e) (ce_StreamID e) (ce_ClientProxyName e) (ce_StreamId e) (ce_Client e)
    (ce_Stream e) (ce_OpenedAt e) q (ce_Done e) (ce_RemoteClosed e) (ce_recvPending e) (ce_SendWin e).

Definition set_pending (n : Z) (e : ConnEntry) : ConnEntry :=
  mkConnEntry (ce_ConnID e) (ce_StreamID e) (ce_ClientProxyName e) (ce_StreamId e) (ce_Client e)
    (ce_Stream e) (ce_OpenedAt e) (ce_Sink e) (ce_Done e) (ce_RemoteClosed e) n (ce_SendWin e).

Definition set_win (w : Window) (e : ConnEntry) : ConnEntry :=
  mkConnEntry (ce_ConnID e) (ce_StreamID e) (ce_ClientProxyName e) (ce_StreamId e) (ce_Client e)
    (ce_Stream e) (ce_OpenedAt e) (ce_Sink e) (ce_Done e) (ce_RemoteClosed e) (ce_recvPending e) w.

(** * Entries *)

(** [e.close()]: closes [Done] once, and the window. *)
Definition ConnEntry_close (h : CtrlHub) (l : conn_loc) : CtrlHub := upd_entry set_done l h.

Definition markRemoteClosed (h : CtrlHub) (l : conn_loc) : CtrlHub := upd_entry set_remote_closed l h.

(** [AcquireSend]: a turn of the loop of [Acquire] on the entry's window. *)
Definition AcquireSend_turn (e : ConnEntry) (n : nat) (ch : nat) : acquire_turn :=
  Acquire_turn (ce_SendWin e) (Z.of_nat n) ch.

Definition recvBatch : Z := 64 * 2 ^ 10.

(** [ReleaseRecv]: counts consumed bytes and, per 64 KB, sends one window
    update. The message carries the connection in its [StreamID] and has no
    payload. *)
Definition window_update_frame (connID : Z) : Message := mkMessage MsgWindowUpdate x00 connID [].

Definition ReleaseRecv (h : CtrlHub) (l : conn_loc) (n : nat) : CtrlHub * list outgoing :=
  match hub_entry h l with
  | None => (h, [])
  | Some e =>
      let pending := i64 (ce_recvPending e + Z.of_nat n) in
      if pending <? recvBatch then (upd_entry (set_pending pending) l h, [])
      else (upd_entry (set_pending (i64 (pending - recvBatch))) l h,
            [(ce_Client e, window_update_frame (ce_ConnID e))])
  end.

(** * Opening a connection *)

Section open.
Context `{!JsonCodec ConnOpenReq}.

Definition conn_open_frame (streamID connID : Z) : Message :=
  mkMessage MsgConnOpen x00 streamID (json_marshal (mkConnOpenReq streamID connID)).

(** The locked part of [OpenConn], up to the request: the entry is in the map
    before the request leaves. *)
Definition OpenConn_begin (h : CtrlHub) (sl : entry_loc) (entry : StreamEntry) (now : Z)
    : CtrlHub * conn_loc * outgoing :=
  let connID := u32 (connSeq h + 1) in
  let l := length (hub_heap h) in
  let e := mkConnEntry connID (se_AssignID entry) (se_ClientProxyName entry) (se_StreamId entry)
             (se_Client entry) sl now [] false false 0 (NewWindow DefaultStreamWindow) in
  (mkCtrlHub (Streams h) (<[connID := l]> (conns h)) (<[connID := length (hub_chans h)]> (acks h))
     connID (hub_heap h ++ [e]) (hub_chans h ++ [None]),
   l, (se_Client entry, conn_open_frame (se_AssignID entry) connID)).
End open.

Definition removeConn (h : CtrlHub) (connID : Z) : CtrlHub :=
  let h' := with_conns h (delete connID (conns h)) in
  match conns h !! connID with
  | Some l => ConnEntry_close h' l
  | None => h'
  end.

(** How the wait of [OpenConn] ends. *)
Inductive open_event :=
  | OpenSendFailed
  | OpenAck (ack : ConnOpenAck)
  | OpenTimeout.

Inductive open_err := ErrOpenSend | ErrOpenRejected (msg : string) | ErrOpenTimeout.

Definition OpenConn_end (h : CtrlHub) (connID : Z) (l : conn_loc) (ev : open_event)
    : CtrlHub * result open_err conn_loc :=
  let fail err := (ConnEntry_close (removeConn h connID) l, Err err) in
  match ev with
  | OpenSendFailed => fail ErrOpenSend
  | OpenAck ack => if ca_OK ack then (h, Ok l) else fail (ErrOpenRejected (ca_Message ack))
  | OpenTimeout => fail ErrOpenTimeout
  end.

Definition DeliverConnAck (h : CtrlHub) (ack : ConnOpenAck) : CtrlHub :=
  let h' acks chans := mkCtrlHub (Streams h) (conns h) acks (connSeq h) (hub_heap h) chans in
  match acks h !! ca_ConnID ack with
  | Some ch => h' (delete (ca_ConnID ack) (acks h)) (<[ch := Some ack]> (hub_chans h))
  | None => h' (delete (ca_ConnID ack) (acks h)) (hub_chans h)
  end.

(** * Data and flow control *)

Definition WindowRelease (h : CtrlHub) (connID delta : Z) : CtrlHub :=
  match conns h !! connID with
  | Some l => upd_entry (λ e, set_win (Release (ce_SendWin e) delta).1 e) l h
  | None => h
  end.

Definition count_out (h : CtrlHub) (l : conn_loc) (n : nat) : CtrlHub :=
  match hub_entry h l with
  | Some e => mkCtrlHub (add_bytes (Streams h) (ce_Stream e) 0 (Z.of_nat n)) (conns h) (acks h)
                (connSeq h) (hub_heap h) (hub_chans h)
  | None => h
  end.

(** [Downlink]: [None] while the [select] blocks (queue full, connection open).
    When both its cases are ready Go picks either: [pick_done]. *)
Definition Downlink (pick_done : bool) (h : CtrlHub) (connID : Z) (payload : list byte)
    : option (CtrlHub * bool) :=
  match conns h !! connID ≫= λ l, (λ e, (l, e)) <$> hub_entry h l with
  | None => Some (h, false)
  | Some (l, e) =>
      let h := count_out h l (length payload) in
      let room := bool_decide (length (ce_Sink e) < downlinkQueue)%nat in
      if room && negb (ce_Done e && pick_done) then
        Some (upd_entry (set_sink (ce_Sink e ++ [payload])) l h, true)
      else if ce_Done e then Some (h, false)
      else None
  end.

(** * Closing *)

Definition ClientClosed (h : CtrlHub) (connID : Z) : CtrlHub * bool :=
  let h' := with_conns h (delete connID (conns h)) in
  match conns h !! connID with
  | Some l => (markRemoteClosed h' l, true)
  | None => (h', false)
  end.

Definition CloseConn (h : CtrlHub) (connID : Z) (notify : bool) : CtrlHub * bool * list outgoing :=
  let h' := with_conns h (delete connID (conns h)) in
  match conns h !! connID ≫= λ l, (λ e, (l, e)) <$> hub_entry h l with
  | Some (l, e) =>
      (ConnEntry_close h' l, true,
       if notify then [(ce_Client e, mkMessage MsgStreamClose x00 connID [])] else [])
  | None => (h', false, [])
  end.

Definition HasConn (h : CtrlHub) (connID : Z) : bool := bool_decide (is_Some (conns h !! connID)).

(** The connections [CloseConnsByClient] picks: those whose stream is still
    registered, by this session. *)
Definition closing (h : CtrlHub) (sess : session_id) (x : Z * conn_loc) : bool :=
  match hub_entry h x.2 ≫= λ e, Get (Streams h) (ce_StreamID e) with
  | Some entry => bool_decide (se_Client entry = sess)
  | None => false
  end.

Definition CloseConnsByClient (h : CtrlHub) (sess : session_id) : CtrlHub * nat :=
  let victims := filter (λ x, closing h sess x = true) (map_to_list (conns h)) in
  let h' := with_conns h (foldl (λ m x, delete x.1 m) (conns h) victims) in
  (foldl (λ h x, ConnEntry_close h x.2) h' victims, length victims).

Definition ConnCount (h : CtrlHub) : nat := size (conns h).

Record ConnStat := mkConnStat {
  cs_ConnID : Z; cs_StreamAssignID : Z; cs_ClientProxyName : string; cs_StreamId : string;
  cs_OpenedAt : Z }.

Definition conn_stat (e : ConnEntry) : ConnStat :=
  mkConnStat (ce_ConnID e) (ce_StreamID e) (ce_ClientProxyName e) (ce_StreamId e) (ce_OpenedAt e).

Definition by_conn_id (s1 s2 : ConnStat) : Prop := cs_ConnID s1 ≤ cs_ConnID s2.
#[export] Instance by_conn_id_dec : RelDecision by_conn_id.
Proof. intros s1 s2. unfold by_conn_id. apply _. Defined.

Definition SnapshotConns (h : CtrlHub) : list ConnStat :=
  merge_sort by_conn_id (omap (λ '(_, l), conn_stat <$> hub_entry h l) (map_to_list (conns h))).

(** The table's operations, on the hub's [Streams]. *)
Definition with_streams (h : CtrlHub) (t : StreamTable) : CtrlHub :=
  mkCtrlHub t (conns h) (acks h) (connSeq h) (hub_heap h) (hub_chans h).

(** * Lemmas on entries *)

Lemma hub_entry_upd f l h l' :
  hub_entry (upd_entry f l h) l' = if decide (l = l') then f <$> hub_entry h l' else hub_entry h l'.
Proof.
  unfold hub_entry, upd_entry. simpl. case_decide as Hl.
  - subst. by rewrite list_lookup_alter_eq.
  - by rewrite list_lookup_alter_ne.
Qed.

Lemma set_done_idem e : set_done (set_done e) = set_done e.
Proof. done. Qed.

Lemma hub_entry_close_all (vs : list (Z * conn_loc)) h l :
  hub_entry (foldl (λ h x, ConnEntry_close h x.2) h vs) l =
  if decide (l ∈ vs.*2) then set_done <$> hub_entry h l else hub_entry h l.
Proof.
  revert h. induction vs as [|v vs IH]; intros h; simpl.
  { by destruct (decide (l ∈ [])) as [?%elem_of_nil|]. }
  rewrite IH. unfold ConnEntry_close. rewrite hub_entry_upd. change (list_fmap _ _ snd vs) with (vs.*2).
  destruct (decide (l ∈ v.2 :: vs.*2)) as [H|H]; rewrite elem_of_cons in H.
  - destruct (decide (l ∈ vs.*2)), (decide (v.2 = l)); try done.
    + by destruct (hub_entry h l).
    + destruct H; congruence.
  - by rewrite !decide_False by naive_solver.
Qed.

(** Closing entries touches only the entries. *)
Lemma close_all_fields (vs : list (Z * conn_loc)) h :
  let h' := foldl (λ h x, ConnEntry_close h x.2) h vs in
  conns h' = conns h ∧ Streams h' = Streams h ∧ acks h' = acks h ∧ connSeq h' = connSeq h ∧
  hub_chans h' = hub_chans h.
Proof.
  revert h. induction vs as [|v vs IH]; intros h; simpl; [done|].
  by destruct (IH (ConnEntry_close h v.2)) as (->&->&->&->&->).
Qed.

Lemma lookup_foldl_delete (vs : list (Z * conn_loc)) (m : gmap Z conn_loc) i l :
  foldl (λ m x, delete x.1 m) m vs !! i = Some l ↔ m !! i = Some l ∧ i ∉ vs.*1.
Proof.
  revert m. induction vs as [|v vs IH]; intros m; simpl.
  - split; [|tauto]. intros ?. split; [done|]. by intros ?%elem_of_nil.
  - rewrite IH, lookup_delete_Some, elem_of_cons. naive_solver.
Qed.

(** * The invariant *)

Definition entry_open (e : ConnEntry) : Prop :=
  ce_Done e = false ∧ ce_RemoteClosed e = false ∧ closed (ce_SendWin e) = false.

Record hub_inv (h : CtrlHub) : Prop := {
  hi_seq : 0 ≤ connSeq h < 2 ^ 32;
  hi_conns id l : conns h !! id = Some l →
    ∃ e, hub_entry h l = Some e ∧ ce_ConnID e = id ∧ 1 ≤ id ≤ connSeq h ∧ entry_open e;
  hi_acks id c : acks h !! id = Some c → 1 ≤ id ≤ connSeq h ∧ hub_chans h !! c = Some None;
  hi_acks_inj i j c : acks h !! i = Some c → acks h !! j = Some c → i = j;
}.

Lemma hub_inv_new : hub_inv NewCtrlHub.
Proof. split; simpl; [lia|intros; simplify_map_eq..]. Qed.

(** Two mapped connections never share an entry. *)
Lemma hi_conns_inj h i j l :
  hub_inv h → conns h !! i = Some l → conns h !! j = Some l → i = j.
Proof.
  intros Hinv (e&He&<-&_)%(hi_conns _ Hinv) (e'&He'&<-&_)%(hi_conns _ Hinv). congruence.
Qed.

(** Updates that leave the maps alone and keep open entries open. *)
Lemma hub_inv_upd h f l :
  hub_inv h → (∀ e, ce_ConnID (f e) = ce_ConnID e ∧ (entry_open e → entry_open (f e))) →
  hub_inv (upd_entry f l h).
Proof.
  intros Hinv Hf. split; [apply Hinv| |apply Hinv|apply Hinv].
  intros id l' Hl. destruct (hi_conns _ Hinv _ _ Hl) as (e & He & Hid & Hr & Ho).
  rewrite hub_entry_upd. case_decide; [|by exists e].
  exists (f e). rewrite He. destruct (Hf e) as [Hfe Hfo]. split_and!; [done|congruence|simpl; lia|simpl; lia|by apply Hfo].
Qed.

(** Updates of an entry that is no longer mapped. *)
Lemma hub_inv_upd_unmapped h f l :
  hub_inv h → (∀ id, conns h !! id ≠ Some l) → hub_inv (upd_entry f l h).
Proof.
  intros Hinv Hl. split; [apply Hinv| |apply Hinv|apply Hinv].
  intros id l' Hl'. destruct (hi_conns _ Hinv _ _ Hl') as (e & He & Hid & Hr & Ho). exists e.
  rewrite hub_entry_upd, decide_False; [done|]. intros ->. by eapply Hl.
Qed.

Lemma hub_inv_sub h m :
  hub_inv h → (∀ id l, m !! id = Some l → conns h !! id = Some l) → hub_inv (with_conns h m).
Proof.
  intros Hinv Hm. split; [apply Hinv| |apply Hinv|apply Hinv].
  intros id l Hl. exact (hi_conns _ Hinv _ _ (Hm _ _ Hl)).
Qed.

Lemma delete_unmaps h id l :
  hub_inv h → conns h !! id = Some l → ∀ i, conns (with_conns h (delete id (conns h))) !! i ≠ Some l.
Proof.
  intros Hinv Hid i. simpl. intros [Hne Hi]%lookup_delete_Some. by apply Hne, (hi_conns_inj h _ _ l).
Qed.

Lemma hub_inv_delete h id : hub_inv h → hub_inv (with_conns h (delete id (conns h))).
Proof. intros Hinv. apply hub_inv_sub; [done|]. by intros i l [_ ?]%lookup_delete_Some. Qed.

Lemma hub_inv_delete_upd h id l f :
  hub_inv h → conns h !! id = Some l → hub_inv (upd_entry f l (with_conns h (delete id (conns h)))).
Proof.
  intros Hinv Hid. apply hub_inv_upd_unmapped; [by apply hub_inv_delete|by apply delete_unmaps].
Qed.

#[export] Hint Resolve hub_inv_delete hub_inv_delete_upd : rainnet.

Lemma hub_inv_removeConn h id : hub_inv h → hub_inv (removeConn h id).
Proof. intros Hinv. unfold removeConn, ConnEntry_close. case_match; auto with rainnet. Qed.

Lemma hub_inv_ClientClosed h id : hub_inv h → hub_inv (ClientClosed h id).1.
Proof. intros Hinv. unfold ClientClosed, markRemoteClosed. case_match; simpl; auto with rainnet. Qed.

Lemma hub_inv_CloseConn h id n : hub_inv h → hub_inv (CloseConn h id n).1.1.
Proof.
  intros Hinv. unfold CloseConn, ConnEntry_close.
  destruct (conns h !! id) as [l|] eqn:Hl; simpl; [|auto with rainnet].
  destruct (hub_entry h l); simpl; auto with rainnet.
Qed.

Lemma hub_inv_WindowRelease h id d : hub_inv h → hub_inv (WindowRelease h id d).
Proof. intros Hinv. unfold WindowRelease. case_match; [|done]. by apply hub_inv_upd. Qed.

Lemma hub_inv_ReleaseRecv h l n : hub_inv h → hub_inv (ReleaseRecv h l n).1.
Proof. intros Hinv. unfold ReleaseRecv. do 2 (case_match; simpl; try done); by apply hub_inv_upd. Qed.

Lemma hub_inv_count h l n : hub_inv h → hub_inv (count_out h l n).
Proof. intros []. unfold count_out. case_match; by split. Qed.

Lemma hub_inv_Downlink p h id payload h' b :
  hub_inv h → Downlink p h id payload = Some (h', b) → hub_inv h'.
Proof.
  intros Hinv. unfold Downlink. destruct (conns h !! id) as [l|]; simpl; [|by intros [= <- _]].
  destruct (hub_entry h l) as [e|]; simpl; [|by intros [= <- _]].
  case_match; [intros [= <- _]|case_match; [intros [= <- _]|done]].
  - by apply hub_inv_upd; [apply hub_inv_count|].
  - by apply hub_inv_count.
Qed.

Lemma hub_inv_DeliverConnAck h a : hub_inv h → hub_inv (DeliverConnAck h a).
Proof.
  intros Hinv. unfold DeliverConnAck. destruct (acks h !! ca_ConnID a) as [ch|] eqn:Hch; split; simpl; try apply Hinv.
  - intros id c [Hne Hc]%lookup_delete_Some. destruct (hi_acks _ Hinv _ _ Hc) as [Hr Hs]. split; [done|].
    rewrite list_lookup_insert_ne; [done|]. intros ->. by apply Hne, (hi_acks_inj _ Hinv _ _ c).
  - intros i j c [_ Hi]%lookup_delete_Some [_ Hj]%lookup_delete_Some. by eapply (hi_acks_inj _ Hinv).
  - intros id c [Hne Hc]%lookup_delete_Some. by apply (hi_acks _ Hinv).
  - intros i j c [_ Hi]%lookup_delete_Some [_ Hj]%lookup_delete_Some. by eapply (hi_acks_inj _ Hinv).
Qed.

Lemma hub_inv_CloseConnsByClient h sess : hub_inv h → hub_inv (CloseConnsByClient h sess).1.
Proof.
  intros Hinv. unfold CloseConnsByClient. simpl.
  set (vs := filter _ _). set (h' := with_conns _ _).
  destruct (close_all_fields vs h') as (Hc & _ & Ha & Hs & Hch).
  assert (∀ id l, conns h' !! id = Some l → conns h !! id = Some l ∧ l ∉ vs.*2) as Hsub.
  { intros id l [Hl Hni]%lookup_foldl_delete. split; [done|]. intros (x & -> & Hx)%list_elem_of_fmap.
    apply Hni, list_elem_of_fmap. exists x. split; [|done].
    apply list_elem_of_filter in Hx as [_ Hx]. destruct x as [i l].
    apply elem_of_map_to_list in Hx. by eapply hi_conns_inj. }
  split.
  - rewrite Hs. apply Hinv.
  - rewrite Hc, Hs. intros id l [Hl Hni]%Hsub. rewrite hub_entry_close_all, decide_False by done.
    exact (hi_conns _ Hinv _ _ Hl).
  - rewrite Ha, Hs, Hch. apply Hinv.
  - rewrite Ha. apply Hinv.
Qed.

Lemma hub_inv_streams h t : hub_inv h → hub_inv (with_streams h t).
Proof. by intros []. Qed.

Lemma hub_inv_OpenConn `{!JsonCodec ConnOpenReq} h sl entry now :
  hub_inv h → connSeq h + 1 < 2 ^ 32 → hub_inv (OpenConn_begin h sl entry now).1.1.
Proof.
  intros Hinv Hseq. pose proof (hi_seq _ Hinv). unfold OpenConn_begin. simpl.
  rewrite u32_small by lia. set (e := mkConnEntry _ _ _ _ _ _ _ _ _ _ _ _).
  split; simpl; [lia| | |].
  - intros id l [[<- <-]|[Hne Hl]]%lookup_insert_Some.
    + exists e. split_and!; [by apply list_lookup_middle|done|lia|lia|done].
    + destruct (hi_conns _ Hinv _ _ Hl) as (e' & He & Hid & Hr & Ho). exists e'.
      split_and!; [by apply lookup_app_l_Some|done|lia|lia|done].
  - intros id c [[<- <-]|[Hne Hc]]%lookup_insert_Some.
    + split; [lia|]. by apply list_lookup_middle.
    + destruct (hi_acks _ Hinv _ _ Hc) as [Hr Hs]. split; [lia|]. by apply lookup_app_l_Some.
  - assert (∀ i c, acks h !! i = Some c → c ≠ length (hub_chans h)) as Hold.
    { intros i c Hc ->. apply (hi_acks _ Hinv) in Hc as [_ Hc%lookup_lt_Some]. lia. }
    intros i j c [[<- <-]|[Hi Hic]]%lookup_insert_Some [[<- Hj]|[Hj Hjc]]%lookup_insert_Some.
    + done.
    + by apply Hold in Hjc.
    + subst. by apply Hold in Hic.
    + by eapply (hi_acks_inj _ Hinv).
Qed.

(** * Histories of the hub *)

(** The pump of the external connection takes the oldest queued payload. *)
Definition take_sink (e : ConnEntry) : ConnEntry := set_sink (tail (ce_Sink e)) e.

(** One call on the hub, by any goroutine: every operation's work on the shared
    state is one critical section. [OpenConn] finishes on the entry it made. *)
Inductive hub_step `{!JsonCodec ConnOpenReq} : CtrlHub → CtrlHub → Prop :=
  | hub_open h sl entry now :
      connSeq h + 1 < 2 ^ 32 → hub_step h (OpenConn_begin h sl entry now).1.1
  | hub_opened h id l e ev :
      hub_entry h l = Some e → ce_ConnID e = id → hub_step h (OpenConn_end h id l ev).1
  | hub_ack h ack : hub_step h (DeliverConnAck h ack)
  | hub_window h id d : hub_step h (WindowRelease h id d)
  | hub_acquire h l n ch e w n' :
      hub_entry h l = Some e → AcquireSend_turn e n ch = AcqTook w n' →
      hub_step h (upd_entry (set_win w) l h)
  | hub_wait h l n ch e w :
      hub_entry h l = Some e → AcquireSend_turn e n ch = AcqWait w →
      hub_step h (upd_entry (set_win w) l h)
  | hub_recv h l n : hub_step h (ReleaseRecv h l n).1
  | hub_down h pick id payload h' b :
      Downlink pick h id payload = Some (h', b) → hub_step h h'
  | hub_pump h l : hub_step h (upd_entry take_sink l h)
  | hub_client_closed h id : hub_step h (ClientClosed h id).1
  | hub_close h id notify : hub_step h (CloseConn h id notify).1.1
  | hub_close_client h sess : hub_step h (CloseConnsByClient h sess).1
  | hub_streams h t : hub_step h (with_streams h t).

Section hub_steps.
Context `{!JsonCodec ConnOpenReq}.

Lemma hub_inv_OpenConn_end h id l e ev :
  hub_inv h → hub_entry h l = Some e → ce_ConnID e = id → hub_inv (OpenConn_end h id l ev).1.
Proof.
  intros Hinv He Hid.
  assert (hub_inv (ConnEntry_close (removeConn h id) l)) as Hfail.
  { apply hub_inv_upd_unmapped; [by apply hub_inv_removeConn|]. intros i Hi.
    assert (conns h !! i = Some l ∧ i ≠ id) as [Hil Hne].
    { unfold removeConn in Hi. case_match; simpl in Hi; apply lookup_delete_Some in Hi; naive_solver. }
    destruct (hi_conns _ Hinv _ _ Hil) as (e' & He' & Hid' & _). congruence. }
  unfold OpenConn_end. destruct ev; simpl; [done| |done]. by case_match.
Qed.

Lemma hub_inv_win h l e w n ch n' :
  hub_inv h → hub_entry h l = Some e →
  AcquireSend_turn e n ch = AcqTook w n' ∨ AcquireSend_turn e n ch = AcqWait w →
  hub_inv (upd_entry (set_win w) l h).
Proof.
  intros Hinv He Hw. assert (closed w = closed (ce_SendWin e)) as Hc.
  { unfold AcquireSend_turn, Acquire_turn in Hw. repeat case_match; naive_solver. }
  split; [apply Hinv| |apply Hinv|apply Hinv].
  intros id l' Hl'. destruct (hi_conns _ Hinv _ _ Hl') as (e' & He' & Hid & Hr & Ho).
  rewrite hub_entry_upd. case_decide; [|by exists e']. subst l'. simplify_eq.
  exists (set_win w e). rewrite He. destruct Ho as (?&?&?).
  split_and!; simpl in *; try done; try lia. split_and!; simpl; congruence.
Qed.

Lemma hub_inv_step h h' : hub_inv h → hub_step h h' → hub_inv h'.
Proof.
  intros Hinv Hs. revert Hinv. destruct Hs; intros Hinv.
  - by apply hub_inv_OpenConn.
  - by eapply hub_inv_OpenConn_end.
  - by apply hub_inv_DeliverConnAck.
  - by apply hub_inv_WindowRelease.
  - eapply hub_inv_win; eauto.
  - eapply (hub_inv_win _ _ _ _ _ _ 0); eauto.
  - by apply hub_inv_ReleaseRecv.
  - by eapply hub_inv_Downlink.
  - by apply hub_inv_upd.
  - by apply hub_inv_ClientClosed.
  - by apply hub_inv_CloseConn.
  - by apply hub_inv_CloseConnsByClient.
  - by apply hub_inv_streams.
Qed.

Lemma hub_inv_reachable h : rtc hub_step NewCtrlHub h → hub_inv h.
Proof.
  intros Hr. remember NewCtrlHub as h0 eqn:E. assert (hub_inv h0) as Hinv.
  { subst. apply hub_inv_new. }
  clear E. induction Hr; [done|]. eauto using hub_inv_step.
Qed.

End hub_steps.

(** * Properties *)

(** C22: Over any history of the hub's operations (with fewer than 2^32 - 1
    opened connections), every mapped connection is open (neither closed nor
    marked remote-closed, its window usable) and is filed under its own id, and
    every channel [OpenConn] waits on is still empty, so the [ch <- ack] of
    [DeliverConnAck], outside the mutex on a one-slot channel, never blocks the
    read loop. *)
Theorem hub_conns_open `{!JsonCodec ConnOpenReq} h id :
  rtc hub_step NewCtrlHub h →
  (∀ l, conns h !! id = Some l → ∃ e, hub_entry h l = Some e ∧ ce_ConnID e = id ∧ entry_open e) ∧
  (∀ ack ch, acks h !! ca_ConnID ack = Some ch →
     hub_chans h !! ch = Some None ∧ hub_chans (DeliverConnAck h ack) !! ch = Some (Some ack) ∧
     acks (DeliverConnAck h ack) !! ca_ConnID ack = None).
Proof.
  intros Hinv%hub_inv_reachable. split.
  - intros l Hl. destruct (hi_conns _ Hinv _ _ Hl) as (e&?&?&?&?). by exists e.
  - intros ack ch Hch. destruct (hi_acks _ Hinv _ _ Hch) as [_ Hc].
    unfold DeliverConnAck. rewrite Hch. simpl. split_and!; [done| |by rewrite lookup_delete_eq].
    apply list_lookup_insert_eq. by eapply lookup_lt_Some.
Qed.

(** On a reachable hub, [Downlink] answers false for an unknown connection and
    changes nothing; on a known one it appends the payload at the end of that
    connection's queue and answers true while the queue has room, whichever
    ready case the [select] picks, touching no other entry and no map; with 256
    payloads queued it blocks. *)
Theorem Downlink_spec h id payload pick :
  hub_inv h →
  match conns h !! id with
  | None => Downlink pick h id payload = Some (h, false)
  | Some l => ∃ e, hub_entry h l = Some e ∧
      if Nat.ltb (length (ce_Sink e)) 256 then
        ∃ h', Downlink pick h id payload = Some (h', true) ∧
          hub_entry h' l = Some (set_sink (ce_Sink e ++ [payload]) e) ∧
          (∀ l', l' ≠ l → hub_entry h' l' = hub_entry h l') ∧
          conns h' = conns h ∧ acks h' = acks h ∧
          Streams h' = add_bytes (Streams h) (ce_Stream e) 0 (Z.of_nat (length payload))
      else Downlink pick h id payload = None
  end.
Proof.
  intros Hinv. unfold Downlink. destruct (conns h !! id) as [l|] eqn:Hl; [|done].
  destruct (hi_conns _ Hinv _ _ Hl) as (e & He & _ & _ & Hd & _). exists e. split; [done|].
  cbn [mbind option_bind]. rewrite He. cbn [fmap option_fmap option_map]. rewrite Hd.
  unfold downlinkQueue. destruct (Nat.ltb_spec (length (ce_Sink e)) 256) as [Hlt|Hge].
  - rewrite bool_decide_true by done. cbn [andb negb]. eexists. split; [done|].
    unfold count_out. rewrite He. split_and!; try done.
    + rewrite hub_entry_upd, decide_True by done. unfold hub_entry in *. simpl. by rewrite He.
    + intros l' Hne. by rewrite hub_entry_upd, decide_False.
  - by rewrite bool_decide_false by lia.
Qed.

(** Deleting a duplicate-free list of mapped keys. *)
Lemma size_foldl_delete (vs : list (Z * conn_loc)) (m : gmap Z conn_loc) :
  NoDup vs.*1 → (∀ x, x ∈ vs → m !! x.1 = Some x.2) →
  (length vs + size (foldl (λ m x, delete x.1 m) m vs))%nat = size m.
Proof.
  revert m. induction vs as [|v vs IH]; intros m Hnd Hin; [done|].
  rewrite fmap_cons in Hnd. apply NoDup_cons in Hnd as [Hv Hnd]. cbn [foldl length].
  assert (m !! v.1 = Some v.2) as Hm by (apply Hin; by left).
  rewrite <- (insert_delete_id m v.1 v.2) at 2 by done. rewrite map_size_insert_None by apply lookup_delete_eq.
  rewrite <- (IH (delete v.1 m)); [done..|]. intros x Hx. rewrite lookup_delete_ne.
  - apply Hin. by right.
  - intros Heq. apply Hv. rewrite Heq. by apply list_elem_of_fmap_2.
Qed.

(** What [CloseConnsByClient] does to one connection. *)
Lemma CloseConnsByClient_conn h sess :
  hub_inv h →
  ∀ id l, conns h !! id = Some l → ∃ e, hub_entry h l = Some e ∧
     let h' := (CloseConnsByClient h sess).1 in
     match Get (Streams h) (ce_StreamID e) with
     | Some entry =>
         if decide (se_Client entry = sess)
         then conns h' !! id = None ∧ hub_entry h' l = Some (set_done e)
         else conns h' !! id = Some l ∧ hub_entry h' l = Some e
     | None => conns h' !! id = Some l ∧ hub_entry h' l = Some e
     end.
Proof.
  intros Hinv. unfold CloseConnsByClient. cbn [fst snd]. set (vs := filter _ _). set (h0 := with_conns _ _).
  assert (∀ x, x ∈ vs ↔ closing h sess x = true ∧ conns h !! x.1 = Some x.2) as Hvs.
  { intros [i l]. unfold vs. by rewrite list_elem_of_filter, elem_of_map_to_list. }
  destruct (close_all_fields vs h0) as (Hc & _).
  intros id l Hl. destruct (hi_conns _ Hinv _ _ Hl) as (e & He & _). exists e. split; [done|]. cbn zeta.
  assert (closing h sess (id, l) = match Get (Streams h) (ce_StreamID e) with
    Some entry => bool_decide (se_Client entry = sess) | None => false end) as Hcl.
  { unfold closing. simpl. by rewrite He. }
  assert (l ∈ vs.*2 ↔ closing h sess (id, l) = true) as Hl2.
  { rewrite list_elem_of_fmap. split.
    - intros ([i l'] & -> & [Hcl' Hi]%Hvs). simpl in *. by rewrite (hi_conns_inj _ _ _ _ Hinv Hl Hi).
    - intros ?. exists (id, l). by rewrite Hvs. }
  assert (id ∈ vs.*1 ↔ closing h sess (id, l) = true) as Hl1.
  { rewrite list_elem_of_fmap. split.
    - intros ([i l'] & -> & [Hcl' Hi]%Hvs). simpl in *. congruence.
    - intros ?. exists (id, l). by rewrite Hvs. }
  rewrite Hcl in Hl1, Hl2. rewrite Hc, hub_entry_close_all.
  assert (conns h0 !! id = if decide (id ∈ vs.*1) then None else Some l) as ->.
  { unfold h0. simpl. destruct (foldl _ _ _ !! id) as [l'|] eqn:E.
    - apply lookup_foldl_delete in E as [? ?]. rewrite decide_False by done. congruence.
    - case_decide; [done|]. assert (foldl (λ m x, delete x.1 m) (conns h) vs !! id = Some l); [|congruence].
      by apply lookup_foldl_delete. }
  change (hub_entry h0 l) with (hub_entry h l). rewrite He.
  destruct (Get (Streams h) (ce_StreamID e)) as [entry|]; [|by rewrite !decide_False by naive_solver].
  rewrite bool_decide_eq_true in Hl1, Hl2. destruct (decide (se_Client entry = sess)).
  + by rewrite !decide_True by tauto.
  + by rewrite !decide_False by tauto.
Qed.

(** [CloseConnsByClient] closes exactly the connections whose stream is still
    registered, by the given session: those leave the map and their entry is
    closed; every other one stays mapped, untouched. The number it returns is
    the number of connections that left. *)
Theorem CloseConnsByClient_exact h sess :
  hub_inv h →
  (∀ id l, conns h !! id = Some l → ∃ e, hub_entry h l = Some e ∧
     let h' := (CloseConnsByClient h sess).1 in
     match Get (Streams h) (ce_StreamID e) with
     | Some entry =>
         if decide (se_Client entry = sess)
         then conns h' !! id = None ∧ hub_entry h' l = Some (set_done e)
         else conns h' !! id = Some l ∧ hub_entry h' l = Some e
     | None => conns h' !! id = Some l ∧ hub_entry h' l = Some e
     end) ∧
  ((CloseConnsByClient h sess).2 + ConnCount (CloseConnsByClient h sess).1)%nat = ConnCount h.
Proof.
  intros Hinv. split; [by apply CloseConnsByClient_conn|].
  unfold CloseConnsByClient. cbn [fst snd]. set (vs := filter _ _). set (h0 := with_conns _ _).
  destruct (close_all_fields vs h0) as (Hc & _). unfold ConnCount. rewrite Hc. apply size_foldl_delete.
  - unfold vs. apply (sublist_NoDup _ ((map_to_list (conns h)).*1)); [apply NoDup_fst_map_to_list|].
    apply fmap_sublist, sublist_filter.
  - intros [i l] Hx. unfold vs in Hx. apply list_elem_of_filter in Hx as [_ Hx]. by apply elem_of_map_to_list in Hx.
Qed.

(** When a connection cannot be opened because the client never answers (or
    the request cannot be sent), its entry is closed and leaves the map, but its
    ack channel stays registered: nothing but a late ack from the client ever
    removes it. *)
Theorem OpenConn_failure_keeps_ack `{!JsonCodec ConnOpenReq} h sl entry now ev :
  hub_inv h → connSeq h + 1 < 2 ^ 32 → (ev = OpenTimeout ∨ ev = OpenSendFailed) →
  let '(h1, l, (dst, m)) := OpenConn_begin h sl entry now in
  let id := connSeq h + 1 in
  let h2 := (OpenConn_end h1 id l ev).1 in
  dst = se_Client entry ∧ Type_ m = MsgConnOpen ∧ StreamID m = se_AssignID entry ∧
  (∃ e, hub_entry h1 l = Some e ∧ conns h1 !! id = Some l ∧ entry_open e) ∧
  (∃ e, hub_entry h2 l = Some e ∧ ce_Done e = true) ∧
  conns h2 !! id = None ∧ is_Some (acks h2 !! id) ∧ size (acks h2) = S (size (acks h)).
Proof.
  intros Hinv Hseq Hev. pose proof (hi_seq _ Hinv). unfold OpenConn_begin.
  rewrite u32_small by lia. cbn zeta. set (id := connSeq h + 1).
  set (e := mkConnEntry _ _ _ _ _ _ _ _ _ _ _ _). set (l := length (hub_heap h)).
  set (h1 := mkCtrlHub _ _ _ _ _ _).
  assert ((OpenConn_end h1 id l ev).1 = ConnEntry_close (removeConn h1 id) l) as -> by (by destruct Hev as [-> | ->]).
  assert (conns h1 !! id = Some l) as Hl by apply lookup_insert_eq.
  assert (hub_entry h1 l = Some e) as He by (by apply list_lookup_middle).
  assert (acks h !! id = None) as Hnone.
  { destruct (acks h !! id) eqn:E; [|done]. apply (hi_acks _ Hinv) in E as [? _]. unfold id in *. lia. }
  unfold removeConn. rewrite Hl. split_and!; try done.
  - exists e. done.
  - unfold ConnEntry_close. rewrite !hub_entry_upd, !decide_True by done.
    change (hub_entry (with_conns h1 _) l) with (hub_entry h1 l). rewrite He. by eexists.
  - unfold ConnEntry_close. simpl. by rewrite lookup_delete_eq.
  - unfold ConnEntry_close. simpl. by rewrite lookup_insert_eq.
  - unfold ConnEntry_close. simpl. by apply map_size_insert_None.
Qed.

(** The server returns credit to a client in batches: [ReleaseRecv] stays
    silent until 64 KB are pending, then sends one message and keeps the
    remainder, so the bytes counted are never lost; but the message it sends can
    never be decoded as a [WindowUpdate]: it has no payload, and [DecodeControl]
    rejects it whatever encoding/json does. The receiver is granted nothing. *)
Theorem ReleaseRecv_update_undecodable `{!JsonCodec WindowUpdate} h l n e :
  hub_entry h l = Some e → 0 ≤ ce_recvPending e < recvBatch → Z.of_nat n ≤ recvBatch →
  let '(h', out) := ReleaseRecv h l n in
  (∃ e', hub_entry h' l = Some e' ∧ 0 ≤ ce_recvPending e' < recvBatch ∧
     ce_recvPending e' + recvBatch * Z.of_nat (length out) = ce_recvPending e + Z.of_nat n) ∧
  (∀ dst m, (dst, m) ∈ out →
     dst = ce_Client e ∧ Type_ m = MsgWindowUpdate ∧ StreamID m = ce_ConnID e ∧
     @DecodeControl WindowUpdate _ m = Err (ErrEmptyPayload MsgWindowUpdate)).
Proof.
  unfold recvBatch. intros He Hp Hn. unfold ReleaseRecv, recvBatch. rewrite He.
  rewrite (i64_small (ce_recvPending e + _)) by lia. destruct (Z.ltb_spec (ce_recvPending e + Z.of_nat n) (64 * 2 ^ 10)).
  - split; [|by intros ?? ?%elem_of_nil]. eexists. rewrite hub_entry_upd, decide_True, He by done.
    split; [done|]. simpl. lia.
  - rewrite i64_small by lia. split.
    + eexists. rewrite hub_entry_upd, decide_True, He by done. split; [done|]. simpl. lia.
    + by intros dst m [= -> ->]%list_elem_of_singleton.
Qed.

(** * A concrete hub: one stream of session 7, one connection on it *)

Definition demo_table : StreamTable := (Assign NewStreamTable 7 (mkRegisterStreamReq "cp" "ssh") 0).1.
Definition demo_entry : StreamEntry := mkStreamEntry 1 "cp" "ssh" 7 0 0 0.
Definition demo_hub : CtrlHub :=
  (OpenConn_begin (with_streams NewCtrlHub demo_table) 0 demo_entry 0).1.1.

Lemma demo_hub_reachable : rtc hub_step NewCtrlHub demo_hub.
Proof.
  eapply rtc_l; [apply (hub_streams _ demo_table)|].
  apply rtc_once, hub_open. reflexivity.
Defined.

Lemma demo_hub_inv : hub_inv demo_hub.
Proof. apply hub_inv_reachable, demo_hub_reachable. Qed.

Lemma hub_conns_open_witness :
  (∃ e, hub_entry demo_hub 0 = Some e ∧ ce_ConnID e = 1 ∧ entry_open e) ∧
  hub_chans (DeliverConnAck demo_hub (mkConnOpenAck 1 true "")) !! 0%nat = Some (Some (mkConnOpenAck 1 true "")).
Proof.
  destruct (hub_conns_open demo_hub 1 demo_hub_reachable) as [H1 H2].
  split; [apply H1; reflexivity|]. destruct (H2 (mkConnOpenAck 1 true "") 0%nat) as (_ & H & _); [reflexivity|].
  exact H.
Defined.

Lemma Downlink_spec_witness :
  ∃ e, hub_entry demo_hub 0 = Some e ∧ ce_Sink e = [] ∧ ∃ h', Downlink true demo_hub 1 [x41] = Some (h', true) ∧
    hub_entry h' 0 = Some (set_sink [[x41]] e).
Proof.
  pose proof (Downlink_spec demo_hub 1 [x41] true demo_hub_inv) as H.
  change (conns demo_hub !! 1) with (Some 0%nat) in H. destruct H as (e & He & H).
  assert (ce_Sink e = []) as Hnil by (vm_compute in He; injection He as <-; reflexivity).
  rewrite Hnil in H. destruct H as (h' & Hd & Hs & _).
  exists e. split; [exact He|]. split; [exact Hnil|]. exists h'. split; [exact Hd|exact Hs].
Defined.

Lemma CloseConnsByClient_exact_witness :
  ConnCount demo_hub = 1%nat ∧ (CloseConnsByClient demo_hub 7).2 = 1%nat ∧
  ((CloseConnsByClient demo_hub 7).2 + ConnCount (CloseConnsByClient demo_hub 7).1)%nat = ConnCount demo_hub.
Proof.
  split; [reflexivity|]. split; [reflexivity|].
  apply (proj2 (CloseConnsByClient_exact demo_hub 7 demo_hub_inv)).
Defined.

Lemma OpenConn_failure_keeps_ack_witness :
  let '(h1, l, _) := OpenConn_begin demo_hub 0 demo_entry 5 in
  is_Some (acks (OpenConn_end h1 2 l OpenTimeout).1 !! 2).
Proof.
  destruct (OpenConn_failure_keeps_ack demo_hub 0 demo_entry 5 OpenTimeout demo_hub_inv) as
    (_ & _ & _ & _ & _ & _ & H & _); [reflexivity|left; reflexivity|exact H].
Defined.

Lemma ReleaseRecv_update_undecodable_witness :
  ∃ h', ReleaseRecv demo_hub 0 (Z.to_nat 65536) = (h', [(7%nat, window_update_frame 1)]) ∧
    @DecodeControl WindowUpdate _ (window_update_frame 1) = Err (ErrEmptyPayload MsgWindowUpdate).
Proof.
  destruct (hub_entry demo_hub 0) as [e|] eqn:He; [|discriminate].
  assert (ce_recvPending e = 0) as Hp by (vm_compute in He; injection He as <-; reflexivity).
  eexists. split; [vm_compute; reflexivity|].
  pose proof (ReleaseRecv_update_undecodable demo_hub 0 (Z.to_nat 65536) e He) as H.
  rewrite Hp in H. unfold recvBatch in H.
  destruct (ReleaseRecv demo_hub 0 (Z.to_nat 65536)) as [h' out] eqn:E.
  destruct H as [_ H]; [lia|lia|]. apply (H 7%nat).
  assert (out = [(7%nat, window_update_frame 1)]) as -> by (vm_compute in E; injection E as _ <-; reflexivity).
  apply list_elem_of_singleton. reflexivity.
Defined.
