(* ===== verification/Adapter.v ===== *)
(** Streams over a session (protocol/star/adapter.go): [StreamConn], the
    connection a star stream is presented as, and [StreamHub], the connections
    of one session. *)
From S2P Require Import Prelude Message TextCodec.
From Stdlib Require Import ZArith Lia.

(** * Stream connections *)

Definition streamFeedCap : nat := 32.
Definition writeChunk : nat := Z.to_nat (64 * 2 ^ 10).

Record feedItem := mkFeedItem { fi_data : list byte; fi_half : bool; fi_full : bool }.

(** [io.EOF] and [net.ErrClosed], the reasons a connection is closed for. *)
Inductive close_cause := CauseEOF | CauseClosed.

(** [sc_closed] is [Some err] once [closed] is closed, with [closedErr]; the
    session is an argument of the operations that send on it. *)
Record StreamConn := mkStreamConn {
  sc_connID : Z;
  sc_feed : list feedItem;
  sc_closed : option close_cause;
  sc_readEOF : bool;
  sc_writeHalf : bool;
  sc_pending : list byte;
}.

Definition newStreamConn (connID : Z) : StreamConn := mkStreamConn connID [] None false false [].

Definition isClosed (sc : StreamConn) : bool := bool_decide (is_Some (sc_closed sc)).

Definition markClosed (err : close_cause) (sc : StreamConn) : StreamConn :=
  match sc_closed sc with
  | Some _ => sc
  | None => mkStreamConn (sc_connID sc) (sc_feed sc) (Some err) (sc_readEOF sc) (sc_writeHalf sc) (sc_pending sc)
  end.

(** [recv]: an item, the end of a closed and drained queue, or it blocks. *)
Inductive recv_result := RecvItem (it : feedItem) (rest : list feedItem) | RecvClosed (err : close_cause) | RecvBlocks.

Definition recv (closed : option close_cause) (feed : list feedItem) : recv_result :=
  match feed with
  | it :: rest => RecvItem it rest
  | [] => match closed with Some err => RecvClosed err | None => RecvBlocks end
  end.

(** What a [Read] does: bytes, an error, or it blocks (after the empty frames it
    skipped). *)
Inductive read_result := ReadData (bs : list byte) | ReadEnd (err : close_cause) | ReadBlocks.

(** [sc] with what [Read] changes. *)
Definition set_read (sc : StreamConn) (feed : list feedItem) (eof : bool) (pending : list byte) : StreamConn :=
  mkStreamConn (sc_connID sc) feed (sc_closed sc) eof (sc_writeHalf sc) pending.

(** The turns of [Read]'s loop with nothing pending and no end seen. *)
Fixpoint read_loop (sc : StreamConn) (n : nat) (feed : list feedItem) : StreamConn * read_result :=
  match recv (sc_closed sc) feed with
  | RecvClosed err => (set_read sc feed false [], ReadEnd err)
  | RecvBlocks => (set_read sc feed false [], ReadBlocks)
  | RecvItem _ _ =>
      match feed with
      | [] => (set_read sc feed false [], ReadBlocks)
      | it :: feed =>
          if fi_full it then (set_read sc feed true [], ReadEnd CauseEOF)
          else if fi_half it then (set_read sc feed true [], ReadEnd CauseEOF)
          else match fi_data it with
               | [] => read_loop sc n feed
               | d => (set_read sc feed false (drop n d), ReadData (take n d))
               end
      end
  end.

(** [Read] into a buffer of [n] bytes. *)
Definition Read (sc : StreamConn) (n : nat) : StreamConn * read_result :=
  if sc_readEOF sc then (sc, ReadEnd CauseEOF)
  else match sc_pending sc with
       | [] => read_loop sc n (sc_feed sc)
       | d => (set_read sc (sc_feed sc) false (drop n d), ReadData (take n d))
       end.

(** [deliver]: a blocked send on a full queue ([None]) is given up when the
    connection closes; with both cases of the [select] ready, [pick_closed]. *)
Definition deliver (pick_closed : bool) (sc : StreamConn) (it : feedItem) : option StreamConn :=
  let room := bool_decide (length (sc_feed sc) < streamFeedCap)%nat in
  if room && negb (isClosed sc && pick_closed) then
    Some (mkStreamConn (sc_connID sc) (sc_feed sc ++ [it]) (sc_closed sc) (sc_readEOF sc)
            (sc_writeHalf sc) (sc_pending sc))
  else if isClosed sc then Some sc
  else None.

(** ** The sending side *)

Definition data_frame (connID : Z) (p : list byte) : Message := mkMessage MsgData x00 connID p.

Inductive write_err := ErrNetClosed | ErrSend (e : star_err).

(** The loop of [Write] from offset [off]; each turn sends at least one byte, so
    the length of [p] is fuel enough. *)
Fixpoint write_loop (fuel : nat) (s : Session) (connID : Z) (off : nat) (p : list byte)
    : Session * nat * option write_err :=
  match p, fuel with
  | [], _ | _, O => (s, off, None)
  | _, S fuel =>
      match Send s (data_frame connID (take writeChunk p)) with
      | Ok s => write_loop fuel s connID (off + length (take writeChunk p)) (drop writeChunk p)
      | Err e => (s, off, Some (ErrSend e))
      end
  end.

Definition Write (sc : StreamConn) (s : Session) (p : list byte) : Session * nat * option write_err :=
  if isClosed sc then (s, 0%nat, Some ErrNetClosed)
  else write_loop (length p) s (sc_connID sc) 0 p.

(** A send whose failure leaves the session as it was. *)
Definition send_frame (s : Session) (m : Message) : Session * option star_err :=
  match Send s m with Ok s => (s, None) | Err e => (s, Some e) end.

Definition CloseWrite (sc : StreamConn) (s : Session) : StreamConn * Session * option star_err :=
  if sc_writeHalf sc then (sc, s, None)
  else
    let '(s, err) := send_frame s (HalfClose (sc_connID sc)) in
    (mkStreamConn (sc_connID sc) (sc_feed sc) (sc_closed sc) (sc_readEOF sc) true (sc_pending sc), s, err).

Definition StreamConn_Close (sc : StreamConn) (s : Session) : StreamConn * Session * option star_err :=
  let '(s, err) := send_frame s (mkMessage MsgStreamClose x00 (sc_connID sc) []) in
  (markClosed CauseClosed sc, s, err).

Inductive stream_addr := mkStreamAddr (net : string) (id : Z) (local : bool).
Definition LocalAddr (sc : StreamConn) : stream_addr := mkStreamAddr "star" (sc_connID sc) true.
Definition RemoteAddr (sc : StreamConn) : stream_addr := mkStreamAddr "star" (sc_connID sc) false.
Definition addr_Network (a : stream_addr) : string := let 'mkStreamAddr net _ _ := a in net.
Definition addr_String (a : stream_addr) : string :=
  let 'mkStreamAddr _ id local := a in
  if local then "star:local-" +:+ pretty id else "star:conn-" +:+ pretty id.

(** * The hub of a session *)

Abbreviation stream_loc := nat.

(** Connections are shared between the hub's map and their users: [h_heap].
    [h_chans] are the one-slot ack channels; [h_removed] the calls of the
    [onRemove] callback, when one is set. *)
Record StreamHub := mkStreamHub {
  h_conns : gmap Z stream_loc;
  h_acks : gmap Z nat;
  h_connSeq : Z;
  h_onRemove : bool;
  h_dead : bool;
  h_heap : list StreamConn;
  h_chans : list (option ConnOpenAck);
  h_removed : list Z;
}.

Definition NewStreamHub : StreamHub := mkStreamHub ∅ ∅ 0 false false [] [] [].

Definition OnRemove (h : StreamHub) : StreamHub :=
  mkStreamHub (h_conns h) (h_acks h) (h_connSeq h) true (h_dead h) (h_heap h) (h_chans h) (h_removed h).

Definition hub_conn (h : StreamHub) (l : stream_loc) : option StreamConn := h_heap h !! l.

Definition upd_conn (f : StreamConn → StreamConn) (l : stream_loc) (h : StreamHub) : StreamHub :=
  mkStreamHub (h_conns h) (h_acks h) (h_connSeq h) (h_onRemove h) (h_dead h)
    (alter f l (h_heap h)) (h_chans h) (h_removed h).

Definition NewHubConn (h : StreamHub) (connID : Z) : StreamHub * option stream_loc :=
  if h_dead h then (h, None)
  else
    let l := length (h_heap h) in
    (mkStreamHub (<[connID := l]> (h_conns h)) (h_acks h) (h_connSeq h) (h_onRemove h) (h_dead h)
       (h_heap h ++ [newStreamConn connID]) (h_chans h) (h_removed h), Some l).

(** [h.get] *)
Definition hub_get (h : StreamHub) (connID : Z) : option stream_loc := h_conns h !! connID.

(** [h.remove] *)
Definition hub_remove (h : StreamHub) (connID : Z) : StreamHub :=
  mkStreamHub (delete connID (h_conns h)) (delete connID (h_acks h)) (h_connSeq h) (h_onRemove h)
    (h_dead h) (h_heap h) (h_chans h)
    (if bool_decide (is_Some (h_conns h !! connID)) && h_onRemove h
     then h_removed h ++ [connID] else h_removed h).

Definition hub_Remove (h : StreamHub) (connID : Z) : StreamHub :=
  match hub_get h connID with
  | Some l => upd_conn (markClosed CauseClosed) l (hub_remove h connID)
  | None => h
  end.

(** [OpenStream] up to its wait: the connection and its ack channel are
    registered before the request is sent. *)
Definition OpenStream_begin (h : StreamHub) : StreamHub * option (Z * stream_loc) :=
  if h_dead h then (h, None)
  else
    let connID := u32 (h_connSeq h + 1) in
    let l := length (h_heap h) in
    (mkStreamHub (<[connID := l]> (h_conns h)) (<[connID := length (h_chans h)]> (h_acks h)) connID
       (h_onRemove h) (h_dead h) (h_heap h ++ [newStreamConn connID]) (h_chans h ++ [None]) (h_removed h),
     Some (connID, l)).

Definition open_request `{!JsonCodec ConnOpenReq} (streamID connID : Z) : Message :=
  control_message MsgConnOpen (mkConnOpenReq streamID connID).

Inductive open_wait := WaitSendFailed | WaitAck (ack : ConnOpenAck) | WaitDone.
Inductive hub_open_err := OpenSend | OpenRejected (msg : string) | OpenDone.

Definition OpenStream_end (h : StreamHub) (connID : Z) (l : stream_loc) (w : open_wait)
    : StreamHub * result hub_open_err stream_loc :=
  match w with
  | WaitSendFailed => (hub_remove h connID, Err OpenSend)
  | WaitAck ack => if ca_OK ack then (h, Ok l) else (hub_remove h connID, Err (OpenRejected (ca_Message ack)))
  | WaitDone => (hub_remove h connID, Err OpenDone)
  end.

(** A delivery through the shared connection. *)
Definition hub_deliver (pick : bool) (h : StreamHub) (l : stream_loc) (it : feedItem) : option StreamHub :=
  match hub_conn h l with
  | Some sc => (λ sc', upd_conn (λ _, sc') l h) <$> deliver pick sc it
  | None => Some h
  end.

(** [Feed]: [None] while the delivery blocks the session's read loop. *)
Definition Feed `{!JsonCodec ConnOpenAck} (pick : bool) (h : StreamHub) (m : Message)
    : option (StreamHub * bool) :=
  if bool_decide (Type_ m = MsgData) then
    match hub_get h (StreamID m) with
    | Some l => (λ h', (h', true)) <$> hub_deliver pick h l (mkFeedItem (Payload m) false false)
    | None => Some (h, false)
    end
  else if bool_decide (Type_ m = MsgStreamClose) then
    match hub_get h (StreamID m) with
    | Some l =>
        (λ h', (h', true)) <$> hub_deliver pick (hub_remove h (StreamID m)) l
                                 (mkFeedItem [] (IsHalfClose m) (negb (IsHalfClose m)))
    | None => Some (h, false)
    end
  else if bool_decide (Type_ m = MsgConnOpenAck) then
    match DecodeControl m with
    | Err _ => Some (h, true)
    | Ok ack =>
        let h' chans := mkStreamHub (h_conns h) (delete (ca_ConnID ack) (h_acks h)) (h_connSeq h)
                    (h_onRemove h) (h_dead h) (h_heap h) chans (h_removed h) in
        match h_acks h !! ca_ConnID ack with
        | Some ch => Some (h' (<[ch := Some ack]> (h_chans h)), true)
        | None => Some (h' (h_chans h), false)
        end
    end
  else Some (h, false).

Definition session_closed_ack : ConnOpenAck := mkConnOpenAck 0 false "session closed".

Definition SessionClosed (h : StreamHub) : StreamHub :=
  if h_dead h then h
  else
    let heap := foldl (λ hp x, alter (markClosed CauseEOF) x.2 hp) (h_heap h) (map_to_list (h_conns h)) in
    let chans := foldl (λ c x, <[x.2 := Some session_closed_ack]> c) (h_chans h) (map_to_list (h_acks h)) in
    mkStreamHub ∅ ∅ (h_connSeq h) (h_onRemove h) true heap chans (h_removed h).

(** * What a connection still has to give *)

(** The bytes queued before the first closing frame, and whether there is one. *)
Fixpoint feed_content (feed : list feedItem) : list byte * bool :=
  match feed with
  | [] => ([], false)
  | it :: feed =>
      if fi_full it || fi_half it then ([], true)
      else let '(bs, e) := feed_content feed in (fi_data it ++ bs, e)
  end.

Definition content (sc : StreamConn) : list byte * bool :=
  if sc_readEOF sc then ([], true)
  else let '(bs, e) := feed_content (sc_feed sc) in (sc_pending sc ++ bs, e).

#[global] Arguments content : simpl never.

(** The reader's contract, for every result of [Read]. *)
Definition read_ok (sc : StreamConn) (n : nat) (sc' : StreamConn) (r : read_result) : Prop :=
  sc_connID sc' = sc_connID sc ∧ sc_closed sc' = sc_closed sc ∧ sc_writeHalf sc' = sc_writeHalf sc ∧
  match r with
  | ReadData bs => bs ≠ [] ∧ (length bs ≤ n)%nat ∧ sc_readEOF sc' = false ∧
      content sc = (bs ++ (content sc').1, (content sc').2)
  | ReadEnd err => content sc' = content sc ∧ (content sc).1 = [] ∧
      if (content sc).2 then err = CauseEOF ∧ sc_readEOF sc' = true else sc_closed sc = Some err
  | ReadBlocks => content sc = ([], false) ∧ content sc' = ([], false) ∧ sc_closed sc = None
  end.

Lemma read_loop_ok sc n feed :
  (0 < n)%nat →
  read_ok (set_read sc feed false []) n (read_loop sc n feed).1 (read_loop sc n feed).2.
Proof.
  intros Hn. induction feed as [|it feed IH].
  { unfold read_ok, read_loop, recv. simpl. by destruct (sc_closed sc) eqn:Hc; simpl. }
  cbn [read_loop recv]. destruct (fi_full it) eqn:Hf; [unfold read_ok, content; simpl; by rewrite Hf|].
  destruct (fi_half it) eqn:Hh; [unfold read_ok, content; simpl; by rewrite Hf, Hh|].
  destruct (fi_data it) as [|b d] eqn:Hd.
  - destruct IH as (?&?&?&IH). split_and!; try done.
    assert (content (set_read sc (it :: feed) false []) = content (set_read sc feed false [])) as ->; [|done].
    unfold content. simpl. rewrite Hf, Hh, Hd. simpl. by destruct (feed_content feed).
  - unfold read_ok, content. simpl. rewrite Hf, Hh. simpl. split_and!; try done.
    + destruct n; [lia|]. done.
    + rewrite length_take. lia.
    + destruct (feed_content feed). simpl. by rewrite app_assoc, Hd, take_drop.
Qed.

Lemma Read_ok sc n : (0 < n)%nat → read_ok sc n (Read sc n).1 (Read sc n).2.
Proof.
  intros Hn. unfold Read. destruct (sc_readEOF sc) eqn:He.
  { unfold read_ok, content. simpl. by rewrite He. }
  destruct (sc_pending sc) as [|b d] eqn:Hp.
  - assert (sc = set_read sc (sc_feed sc) false []) as Hsc by (destruct sc; simpl in *; by subst).
    rewrite Hsc at 1. by apply read_loop_ok.
  - unfold read_ok, content. simpl. rewrite He, Hp. destruct n; [lia|]. simpl. split_and!; try done.
    + rewrite length_take. lia.
    + destruct (feed_content (sc_feed sc)). simpl. by rewrite app_assoc, take_drop.
Qed.

(** ** What [Write] sends *)

Fixpoint chunks (fuel : nat) (p : list byte) : list (list byte) :=
  match p, fuel with
  | [], _ | _, O => []
  | _, S fuel => take writeChunk p :: chunks fuel (drop writeChunk p)
  end.

Lemma writeChunk_val : Z.of_nat writeChunk = 65536.
Proof. reflexivity. Qed.

Opaque writeChunk.

Lemma length_drop_chunk (p : list byte) fuel :
  (length p ≤ S fuel)%nat → (length (drop writeChunk p) ≤ fuel)%nat.
Proof. pose proof writeChunk_val. rewrite length_drop. lia. Qed.

(** The chunks of [p] are [p], none is empty and each fits in a frame. *)
Lemma chunks_spec fuel p :
  (length p ≤ fuel)%nat →
  concat (chunks fuel p) = p ∧
  Forall (λ c, c ≠ [] ∧ Z.of_nat (length c) ≤ 65536) (chunks fuel p).
Proof.
  revert p. induction fuel as [|fuel IH]; intros [|b p] Hp; simpl in Hp; try lia; try done.
  destruct (IH (drop writeChunk (b :: p))) as [H1 H2]; [by apply length_drop_chunk|].
  pose proof writeChunk_val. cbn [chunks concat]. split.
  - by rewrite H1, take_drop.
  - constructor; [|done]. rewrite length_take. split; [|lia].
    destruct writeChunk; [lia|done].
Qed.

(** Sending a list of messages on a working session. *)
Definition send_log (s : Session) (ms : list Message) : Session :=
  mkSession (s_in s) (mkWriter (w_log (s_out s) ++ (frame <$> ms)) false).

Lemma Send_log s m :
  w_broken (s_out s) = false → Z.of_nat (length (Payload m)) ≤ MaxPayloadSize →
  Send s m = Ok (send_log s [m]).
Proof. intros Hb Hp. unfold Send. by rewrite WriteMessage_ok. Qed.

Lemma send_log_app s ms1 ms2 : send_log (send_log s ms1) ms2 = send_log s (ms1 ++ ms2).
Proof. unfold send_log. simpl. by rewrite fmap_app, app_assoc. Qed.

Lemma write_loop_log fuel s id off p :
  w_broken (s_out s) = false → (length p ≤ fuel)%nat →
  write_loop fuel s id off p = (send_log s (data_frame id <$> chunks fuel p), (off + length p)%nat, None).
Proof.
  revert s off p. induction fuel as [|fuel IH]; intros s off p Hb Hp.
  all: destruct p as [|b p]; simpl in Hp; try lia.
  1-2: unfold send_log; simpl; rewrite app_nil_r, Nat.add_0_r; destruct s as [i [lg br]]; simpl in *; by subst.
  pose proof writeChunk_val. cbn [write_loop chunks]. rewrite Send_log; [|done|].
  - rewrite IH; [|done|by apply length_drop_chunk]. rewrite send_log_app. f_equal. f_equal.
    rewrite length_take, length_drop. lia.
  - unfold MaxPayloadSize. simpl Payload. rewrite length_take. lia.
Qed.

Lemma Write_log sc s p :
  isClosed sc = false → w_broken (s_out s) = false →
  Write sc s p = (send_log s (data_frame (sc_connID sc) <$> chunks (length p) p), length p, None).
Proof. intros Hc Hb. unfold Write. rewrite Hc. by rewrite write_loop_log. Qed.

(** * A stream from one end to the other *)

(** The caller's writes, then its half close. *)
Fixpoint write_all (sc : StreamConn) (s : Session) (ps : list (list byte)) : StreamConn * Session :=
  match ps with
  | [] => let '(sc, s, _) := CloseWrite sc s in (sc, s)
  | p :: ps => let '(s, _, _) := Write sc s p in write_all sc s ps
  end.

Definition sent_frames (id : Z) (ps : list (list byte)) : list Message :=
  (data_frame id <$> concat ((λ p, chunks (length p) p) <$> ps)) ++ [HalfClose id].

Lemma write_all_log sc s ps :
  isClosed sc = false → sc_writeHalf sc = false → w_broken (s_out s) = false →
  (write_all sc s ps).2 = send_log s (sent_frames (sc_connID sc) ps).
Proof.
  intros Hc Hh. revert s. induction ps as [|p ps IH]; intros s Hb; cbn [write_all].
  - unfold CloseWrite, send_frame. rewrite Hh, Send_log; [done|done|unfold MaxPayloadSize; simpl; lia].
  - rewrite Write_log by done. rewrite IH by done. rewrite send_log_app. unfold sent_frames.
    f_equal. cbn [fmap list_fmap concat]. by rewrite fmap_app, <- app_assoc.
Qed.

Lemma sent_frames_wf id ps : 0 ≤ id < 2 ^ 32 → Forall Message_wf (sent_frames id ps).
Proof.
  intros Hid. unfold sent_frames. apply Forall_app. split; [|constructor; [|constructor]].
  2: { split; [done|]. unfold MaxPayloadSize. simpl. lia. }
  apply Forall_fmap. apply Forall_concat, Forall_fmap, Forall_true. intros p. simpl.
  eapply Forall_impl; [apply chunks_spec; reflexivity|]. intros c [_ Hc].
  split; [done|]. unfold MaxPayloadSize. simpl. lia.
Qed.

(** Frames on their way ([p_wire]), the receiving hub, what the reader of
    connection [l] got so far and whether it has seen the end of file. *)
Record pipe := mkPipe {
  p_wire : list Message; p_hub : StreamHub; p_got : list byte; p_end : bool }.

Section pipe.
Context `{!JsonCodec ConnOpenAck} (l : stream_loc).

(** The session's read loop feeds the next frame, or the reader's [Read]
    returns; a [Read] that skipped empty frames goes on waiting. *)
Inductive pipe_step : pipe → pipe → Prop :=
  | pipe_feed m w h h' got pick :
      Feed pick h m = Some (h', true) →
      pipe_step (mkPipe (m :: w) h got false) (mkPipe w h' got false)
  | pipe_read w h got sc n sc' bs :
      hub_conn h l = Some sc → (0 < n)%nat → Read sc n = (sc', ReadData bs) →
      pipe_step (mkPipe w h got false) (mkPipe w (upd_conn (λ _, sc') l h) (got ++ bs) false)
  | pipe_skip w h got sc n sc' :
      hub_conn h l = Some sc → (0 < n)%nat → sc_feed sc ≠ [] → Read sc n = (sc', ReadBlocks) →
      pipe_step (mkPipe w h got false) (mkPipe w (upd_conn (λ _, sc') l h) got false)
  | pipe_eof w h got sc n sc' :
      hub_conn h l = Some sc → (0 < n)%nat → Read sc n = (sc', ReadEnd CauseEOF) →
      pipe_step (mkPipe w h got false) (mkPipe w (upd_conn (λ _, sc') l h) got true).

Lemma hub_conn_upd f h l' :
  hub_conn (upd_conn f l h) l' = if decide (l = l') then f <$> hub_conn h l' else hub_conn h l'.
Proof.
  unfold hub_conn, upd_conn. simpl. case_decide as Hl.
  - subst. by rewrite list_lookup_alter_eq.
  - by rewrite list_lookup_alter_ne.
Qed.

(** [wire_data]: the bytes still on the wire, before its half close. *)
Record pipe_inv (id : Z) (sent : list byte) (st : pipe) (sc : StreamConn) : Prop := {
  pi_conn : hub_conn (p_hub st) l = Some sc;
  pi_open : sc_closed sc = None;
  pi_wire : p_wire st = [] ∧ (content sc).2 = true ∧ p_got st ++ (content sc).1 = sent ∨
    ∃ ds, p_wire st = (data_frame id <$> ds) ++ [HalfClose id] ∧ h_conns (p_hub st) !! id = Some l ∧
      (content sc).2 = false ∧ p_got st ++ (content sc).1 ++ concat ds = sent;
  pi_end : p_end st = true → p_wire st = [] ∧ p_got st = sent;
}.

Lemma feed_content_snoc feed it :
  (feed_content feed).2 = false →
  feed_content (feed ++ [it]) =
    if fi_full it || fi_half it then ((feed_content feed).1, true)
    else ((feed_content feed).1 ++ fi_data it, false).
Proof.
  induction feed as [|i feed IH]; simpl; intros He.
  { case_match; [done|]. by rewrite app_nil_r. }
  destruct (fi_full i || fi_half i); [done|]. destruct (feed_content feed) as [bs e]; simpl in *.
  rewrite IH by done. case_match; [done|]. by rewrite app_assoc.
Qed.

Definition push (sc : StreamConn) (it : feedItem) : StreamConn :=
  mkStreamConn (sc_connID sc) (sc_feed sc ++ [it]) (sc_closed sc) (sc_readEOF sc) (sc_writeHalf sc) (sc_pending sc).

Lemma content_push sc it :
  (content sc).2 = false →
  content (push sc it) =
    if fi_full it || fi_half it then ((content sc).1, true)
    else ((content sc).1 ++ fi_data it, false).
Proof.
  unfold content, push. simpl. destruct (sc_readEOF sc); [done|].
  destruct (feed_content (sc_feed sc)) as [bs e] eqn:E. simpl. intros ->.
  rewrite feed_content_snoc by (by rewrite E). rewrite E. destruct (fi_full it || fi_half it); simpl; by rewrite ?app_assoc.
Qed.

Lemma deliver_open pick sc it :
  sc_closed sc = None →
  deliver pick sc it = if bool_decide (length (sc_feed sc) < streamFeedCap)%nat then Some (push sc it) else None.
Proof.
  intros Hc. unfold deliver, isClosed. rewrite Hc. rewrite (bool_decide_false (is_Some None)) by (by intros [? ?]).
  cbn [andb negb]. rewrite andb_true_r. unfold push; rewrite Hc; by case_bool_decide.
Qed.

(** [Feed] on a data or half-close frame of an open connection. *)
Lemma Feed_open pick h sc id m :
  h_conns h !! id = Some l → hub_conn h l = Some sc → sc_closed sc = None → StreamID m = id →
  Type_ m = MsgData ∨ Type_ m = MsgStreamClose →
  Feed pick h m =
    if bool_decide (length (sc_feed sc) < streamFeedCap)%nat then
      Some (upd_conn (λ _, push sc (if bool_decide (Type_ m = MsgData) then mkFeedItem (Payload m) false false
                                    else mkFeedItem [] (IsHalfClose m) (negb (IsHalfClose m)))) l
              (if bool_decide (Type_ m = MsgData) then h else hub_remove h id), true)
    else None.
Proof.
  intros Hl Hsc Hc Hid Ht. unfold Feed, hub_get. rewrite Hid, Hl.
  destruct Ht as [Ht|Ht]; rewrite Ht.
  - rewrite !bool_decide_true by done. unfold hub_deliver. rewrite Hsc, deliver_open by done. by case_bool_decide.
  - rewrite !(bool_decide_false (MsgStreamClose = MsgData)) by done. rewrite bool_decide_true by done.
    unfold hub_deliver. change (hub_conn (hub_remove h id) l) with (hub_conn h l).
    rewrite Hsc, deliver_open by done. by case_bool_decide.
Qed.

Lemma pipe_inv_step id sent st st' sc :
  pipe_inv id sent st sc → pipe_step st st' → ∃ sc', pipe_inv id sent st' sc'.
Proof.
  intros Hinv Hs. revert Hinv. destruct Hs as [m w h h' got pick Hf|w h got sc0 n sc' bs Hsc Hn Hr
    |w h got sc0 n sc' Hsc Hn Hne Hr|w h got sc0 n sc' Hsc Hn Hr]; intros [Hconn Hopen Hwire Hend]; simpl in *.
  - destruct Hwire as [[? _]|(ds & Hw & Hl & He & Hsent)]; [done|].
    destruct ds as [|d ds]; simplify_eq/=.
    + rewrite (Feed_open _ _ sc id) in Hf by (done || by right). case_bool_decide; simplify_eq/=.
      exists (push sc (mkFeedItem [] true false)). split; simpl; [|done| |done].
      { rewrite hub_conn_upd, decide_True by done. change (hub_conn (hub_remove h id) l) with (hub_conn h l). by rewrite Hconn. }
      left. rewrite content_push by done. simpl. split_and!; [done..|]. by rewrite app_nil_r.
    + rewrite (Feed_open _ _ sc id) in Hf by (done || by left). case_bool_decide; simplify_eq/=.
      exists (push sc (mkFeedItem d false false)). split; simpl; [|done| |done].
      { rewrite hub_conn_upd, decide_True by done. by rewrite Hconn. }
      right. exists ds. rewrite content_push by done. simpl. split_and!; try done. by rewrite <- app_assoc.
  - pose proof (Read_ok sc n Hn) as Hok. simplify_eq. rewrite Hr in Hok. simpl in Hok.
    destruct Hok as (_ & Hcl & _ & _ & _ & _ & Hct). exists sc'. rewrite Hct in Hwire. simpl in Hwire.
    split; simpl; [by rewrite hub_conn_upd, decide_True, Hsc|congruence| |done].
    destruct Hwire as [(?&?&<-)|(ds&?&?&?&<-)]; [left|right; exists ds]; split_and!; try done; by rewrite <- !app_assoc.
  - pose proof (Read_ok sc n Hn) as Hok. simplify_eq. rewrite Hr in Hok. simpl in Hok.
    destruct Hok as (_ & Hcl & _ & Hct & Hct' & _). exists sc'. rewrite Hct in Hwire.
    split; simpl; [by rewrite hub_conn_upd, decide_True, Hsc|congruence| |done]. by rewrite Hct'.
  - pose proof (Read_ok sc n Hn) as Hok. simplify_eq. rewrite Hr in Hok. simpl in Hok.
    destruct Hok as (_ & Hcl & _ & Hct & Hnil & Hc). exists sc'.
    destruct (content sc0).2 eqn:He; [|congruence].
    destruct Hwire as [(->&_&Hg)|(ds&?&?&?&_)]; [|done]. rewrite Hnil, app_nil_r in Hg.
    split; simpl; [by rewrite hub_conn_upd, decide_True, Hsc|congruence| |done].
    left. rewrite Hct, He, Hnil, app_nil_r. done.
Qed.

(** Reads never add to the queue, and a reader that waits has emptied it. *)
Lemma read_loop_feed sc n feed :
  (length (sc_feed (read_loop sc n feed).1) ≤ length feed)%nat ∧
  ((read_loop sc n feed).2 = ReadBlocks → sc_feed (read_loop sc n feed).1 = []).
Proof.
  induction feed as [|it feed IH]; cbn [read_loop recv].
  { by destruct (sc_closed sc). }
  destruct (fi_full it); [simpl; split; [lia|done]|]. destruct (fi_half it); [simpl; split; [lia|done]|].
  destruct (fi_data it); [|simpl; split; [lia|done]]. destruct IH. split; [simpl; lia|done].
Qed.

Lemma Read_feed sc n :
  (length (sc_feed (Read sc n).1) ≤ length (sc_feed sc))%nat ∧
  ((Read sc n).2 = ReadBlocks → sc_feed (Read sc n).1 = []).
Proof.
  unfold Read. destruct (sc_readEOF sc); [done|]. destruct (sc_pending sc); [apply read_loop_feed|done].
Qed.

Definition pipe_ok (id : Z) (sent : list byte) (st : pipe) : Prop := ∃ sc, pipe_inv id sent st sc.

Definition pipe_measure (sent : list byte) (st : pipe) : nat :=
  (2 * length (p_wire st) + (length sent - length (p_got st)) + (if p_end st then 0 else 1) +
   match hub_conn (p_hub st) l with Some sc => length (sc_feed sc) | None => 0 end)%nat.

Lemma pipe_got_le id sent st : pipe_ok id sent st → (length (p_got st) ≤ length sent)%nat.
Proof.
  intros (sc & [_ _ [(_ & _ & <-)|(ds & _ & _ & _ & <-)] _]); rewrite !length_app; lia.
Qed.

Lemma pipe_measure_step id sent st st' :
  pipe_ok id sent st → pipe_step st st' → (pipe_measure sent st' < pipe_measure sent st)%nat.
Proof.
  intros Hok Hs. assert (pipe_ok id sent st') as Hok' by (destruct Hok; by eapply pipe_inv_step).
  pose proof (pipe_got_le _ _ _ Hok) as Hle. pose proof (pipe_got_le _ _ _ Hok') as Hle'.
  destruct Hok as (sc & [Hconn Hopen Hwire _]). unfold pipe_measure.
  destruct Hs as [m w h h' got pick Hf|w h got sc0 n sc' bs Hsc Hn Hr|w h got sc0 n sc' Hsc Hn Hne Hr
    |w h got sc0 n sc' Hsc Hn Hr]; simpl in *; simplify_eq.
  - assert ((Type_ m = MsgData ∨ Type_ m = MsgStreamClose) ∧ StreamID m = id ∧ h_conns h !! id = Some l)
      as (Ht & Hid & Hl).
    { destruct Hwire as [[? _]|([|d ds] & ? & ? & _)]; simplify_eq/=; eauto. }
    rewrite (Feed_open _ _ sc id) in Hf by done. case_bool_decide; simplify_eq/=.
    rewrite hub_conn_upd, decide_True by done.
    assert (hub_conn (if bool_decide (Type_ m = MsgData) then h else hub_remove h (StreamID m)) l = Some sc)
      as Hc by (by case_match).
    rewrite Hc, Hconn. simpl. rewrite length_app. simpl. lia.
  - pose proof (Read_ok sc n Hn) as Hrd. pose proof (Read_feed sc n) as [Hfd _]. rewrite Hr in *. simpl in *.
    destruct Hrd as (_ & _ & _ & Hbs & _). rewrite hub_conn_upd, decide_True, Hconn by done. simpl.
    rewrite length_app in *. destruct bs; [done|]. simpl in *. lia.
  - pose proof (Read_feed sc n) as [_ Hfd]. rewrite Hr in *. simpl in *.
    rewrite hub_conn_upd, decide_True, Hconn by done. simpl. rewrite Hfd by done.
    destruct (sc_feed sc); [done|]. simpl. lia.
  - pose proof (Read_feed sc n) as [Hfd _]. rewrite Hr in *. simpl in *.
    rewrite hub_conn_upd, decide_True, Hconn by done. simpl. lia.
Qed.

(** An open connection with something queued, or with its end in sight, lets
    its reader go on. *)
Lemma reader_steps sc w h got :
  hub_conn h l = Some sc → sc_closed sc = None → sc_feed sc ≠ [] ∨ (content sc).2 = true →
  ∃ st', pipe_step (mkPipe w h got false) st'.
Proof.
  intros Hsc Hc Hor. pose proof (Read_ok sc 1 ltac:(lia)) as Hok.
  destruct (Read sc 1) as [sc' [bs|err|]] eqn:Hr; simpl in Hok.
  - eexists. eapply pipe_read; [done| |done]. lia.
  - assert (err = CauseEOF) as -> by (destruct Hok as (_&_&_&_&_&Hif); case_match; naive_solver).
    eexists. eapply pipe_eof; [done| |done]. lia.
  - destruct Hok as (_&_&_&Hct&_). rewrite Hct in Hor. destruct Hor as [Hne|?]; [|done].
    eexists. eapply pipe_skip; [done| |done..]. lia.
Qed.

Lemma pipe_progress id sent st :
  pipe_ok id sent st → p_end st = true ∨ ∃ st', pipe_step st st'.
Proof.
  intros (sc & [Hconn Hopen Hwire _]). destruct st as [w h got [|]]; [by left|]. right. simpl in *.
  destruct Hwire as [(_ & He & _)|(ds & Hw & Hl & _)].
  { eapply reader_steps; eauto. }
  assert (∃ m w', w = m :: w' ∧ (Type_ m = MsgData ∨ Type_ m = MsgStreamClose) ∧ StreamID m = id)
    as (m & w' & -> & Ht & Hid).
  { destruct ds as [|d ds]; simplify_eq/=; eauto 6. }
  destruct (Nat.ltb_spec (length (sc_feed sc)) streamFeedCap) as [Hlt|Hge].
  - eexists. eapply (pipe_feed m w' h _ got false). by rewrite (Feed_open _ _ sc id), bool_decide_true by done.
  - eapply reader_steps; [done..|]. left. intros Hnil. rewrite Hnil in Hge. unfold streamFeedCap in Hge. simpl in Hge. lia.
Qed.

Lemma pipe_ok_reachable id sent st st' : pipe_ok id sent st → rtc pipe_step st st' → pipe_ok id sent st'.
Proof. intros Hok Hr. induction Hr as [|? ? ? Hs ? IH]; [done|]. apply IH. destruct Hok. by eapply pipe_inv_step. Qed.

Lemma pipe_sn id sent st : pipe_ok id sent st → sn pipe_step st.
Proof.
  remember (pipe_measure sent st) as k eqn:Hk. revert st Hk.
  induction k as [k IH] using lt_wf_ind. intros st -> Hok. constructor. intros st' Hs. simpl in Hs.
  eapply IH; [by eapply pipe_measure_step|done|]. destruct Hok. by eapply pipe_inv_step.
Qed.

End pipe.

(** * Histories of a session's hub *)

Record sh_inv (h : StreamHub) : Prop := {
  shi_conns id l : h_conns h !! id = Some l → ∃ sc, hub_conn h l = Some sc ∧ sc_connID sc = id;
  shi_acks id c : h_acks h !! id = Some c → h_chans h !! c = Some None;
  shi_inj i j c : h_acks h !! i = Some c → h_acks h !! j = Some c → i = j;
}.

(** The hub's operations, and those of a connection's users on it: reads, and
    closing from this side. *)
Inductive sh_step `{!JsonCodec ConnOpenAck} : StreamHub → StreamHub → Prop :=
  | sh_onremove h : sh_step h (OnRemove h)
  | sh_new h id : sh_step h (NewHubConn h id).1
  | sh_open h : sh_step h (OpenStream_begin h).1
  | sh_opened h id l w : sh_step h (OpenStream_end h id l w).1
  | sh_feed h pick m h' b : Feed pick h m = Some (h', b) → sh_step h h'
  | sh_remove h id : sh_step h (hub_Remove h id)
  | sh_read h l n : sh_step h (upd_conn (λ sc, (Read sc n).1) l h)
  | sh_close_write h l s : sh_step h (upd_conn (λ sc, (CloseWrite sc s).1.1) l h)
  | sh_close_conn h l s : sh_step h (upd_conn (λ sc, (StreamConn_Close sc s).1.1) l h)
  | sh_session_closed h : sh_step h (SessionClosed h).

Section sh.
Context `{!JsonCodec ConnOpenAck}.

Lemma sh_inv_new : sh_inv NewStreamHub.
Proof. split; simpl; intros; simplify_map_eq. Qed.

Lemma sh_inv_upd f l h :
  (∀ sc, sc_connID (f sc) = sc_connID sc) → sh_inv h → sh_inv (upd_conn f l h).
Proof.
  intros Hf [Hc Ha Hi]. split; [|done..]. intros id l' Hl'.
  destruct (Hc _ _ Hl') as (sc & Hsc & Hid). rewrite hub_conn_upd. case_decide; [|by eauto].
  exists (f sc). rewrite Hsc, Hf. done.
Qed.

Lemma sh_inv_alloc h id (fresh : bool) seq :
  sh_inv h →
  sh_inv (mkStreamHub (<[id := length (h_heap h)]> (h_conns h))
     (if fresh then <[id := length (h_chans h)]> (h_acks h) else h_acks h) seq (h_onRemove h) (h_dead h)
     (h_heap h ++ [newStreamConn id]) (if fresh then h_chans h ++ [None] else h_chans h) (h_removed h)).
Proof.
  intros [Hc Ha Hi]. split; simpl.
  - intros i l [[<- <-]|[Hne Hl]]%lookup_insert_Some.
    + exists (newStreamConn id). split; [by apply list_lookup_middle|done].
    + destruct (Hc _ _ Hl) as (sc & Hsc & Hid). exists sc. split; [|done]. by apply lookup_app_l_Some.
  - intros i c. destruct fresh; [|by apply Ha].
    intros [[<- <-]|[Hne Hl]]%lookup_insert_Some; [by apply list_lookup_middle|].
    apply lookup_app_l_Some. by eapply Ha.
  - destruct fresh; [|done]. assert (∀ i, h_acks h !! i ≠ Some (length (h_chans h))) as Hf.
    { intros i Hl%Ha%lookup_lt_Some. lia. }
    intros i j c [[<- <-]|[Hne Hl]]%lookup_insert_Some [[<- Hj]|[Hne' Hl']]%lookup_insert_Some; try done.
    + by apply Hf in Hl'.
    + subst. by apply Hf in Hl.
    + by eapply Hi.
Qed.

Lemma sh_inv_remove h id : sh_inv h → sh_inv (hub_remove h id).
Proof.
  intros [Hc Ha Hi]. split; simpl.
  - intros i l [_ Hl]%lookup_delete_Some. by apply Hc.
  - intros i c [_ Hl]%lookup_delete_Some. by eapply Ha.
  - intros i j c [_ ?]%lookup_delete_Some [_ ?]%lookup_delete_Some. by eapply Hi.
Qed.

Lemma deliver_connID pick sc it sc' : deliver pick sc it = Some sc' → sc_connID sc' = sc_connID sc.
Proof. unfold deliver. intros H. repeat case_match; by simplify_eq. Qed.

Lemma sh_inv_deliver pick h l it h' : sh_inv h → hub_deliver pick h l it = Some h' → sh_inv h'.
Proof.
  intros Hinv. unfold hub_deliver. destruct (hub_conn h l) as [sc|] eqn:Hsc; [|by intros [= <-]].
  destruct (deliver pick sc it) as [sc'|] eqn:Hd; simpl; [|done]. intros [= <-].
  destruct Hinv as [Hc Ha Hi]. split; [|done..]. intros id l' Hl'.
  destruct (Hc _ _ Hl') as (sc0 & Hsc0 & Hid). rewrite hub_conn_upd. case_decide; [|by eauto]. subst.
  rewrite Hsc0. exists sc'. split; [done|]. simplify_eq. by eapply deliver_connID.
Qed.

Lemma sh_inv_Feed pick h m h' b : sh_inv h → Feed pick h m = Some (h', b) → sh_inv h'.
Proof.
  intros Hinv. unfold Feed. case_bool_decide; [|case_bool_decide; [|case_bool_decide]].
  - destruct (hub_get h (StreamID m)); [|by intros [= <- _]].
    destruct (hub_deliver _ _ _ _) eqn:Hd; simpl; [|done]. intros [= <- _]. by eapply sh_inv_deliver.
  - destruct (hub_get h (StreamID m)); [|by intros [= <- _]].
    destruct (hub_deliver _ _ _ _) eqn:Hd; simpl; [|done]. intros [= <- _].
    eapply sh_inv_deliver; [|done]. by apply sh_inv_remove.
  - destruct (DecodeControl m) as [ack|]; [|by intros [= <- _]].
    destruct Hinv as [Hc Ha Hi]. destruct (h_acks h !! ca_ConnID ack) as [ch|] eqn:Hch; intros [= <- _]; split; simpl; try done.
    + intros i c [Hne Hl]%lookup_delete_Some. rewrite list_lookup_insert_ne; [by eapply Ha|].
      intros ->. by apply Hne, (Hi _ _ c).
    + intros i j c [_ ?]%lookup_delete_Some [_ ?]%lookup_delete_Some. by eapply Hi.
    + intros i c [_ Hl]%lookup_delete_Some. by eapply Ha.
    + intros i j c [_ ?]%lookup_delete_Some [_ ?]%lookup_delete_Some. by eapply Hi.
  - by intros [= <- _].
Qed.

Lemma markClosed_connID e sc : sc_connID (markClosed e sc) = sc_connID sc.
Proof. unfold markClosed. by case_match. Qed.

Lemma sh_inv_step h h' : sh_inv h → sh_step h h' → sh_inv h'.
Proof.
  intros Hinv Hs. revert Hinv. destruct Hs; intros Hinv.
  - by destruct Hinv.
  - unfold NewHubConn. destruct (h_dead h) eqn:Hd; [done|]. rewrite <- Hd. by apply (sh_inv_alloc h id false).
  - unfold OpenStream_begin. destruct (h_dead h) eqn:Hd; [done|]. rewrite <- Hd. by apply (sh_inv_alloc h _ true).
  - unfold OpenStream_end. repeat case_match; by try apply sh_inv_remove.
  - by eapply sh_inv_Feed.
  - unfold hub_Remove. case_match; [|done]. apply sh_inv_upd; [apply markClosed_connID|by apply sh_inv_remove].
  - apply sh_inv_upd; [|done]. intros sc. unfold Read. destruct (sc_readEOF sc); [done|].
    destruct (sc_pending sc); [|done]. induction (sc_feed sc) as [|it feed IH]; cbn [read_loop recv]; repeat case_match; done.
  - apply sh_inv_upd; [|done]. intros sc. unfold CloseWrite. by repeat case_match.
  - apply sh_inv_upd; [|done]. intros sc. unfold StreamConn_Close. case_match. apply markClosed_connID.
  - unfold SessionClosed. case_match; [done|]. split; simpl; intros; simplify_map_eq.
Qed.

Lemma sh_inv_reachable h : rtc sh_step NewStreamHub h → sh_inv h.
Proof.
  intros Hr. assert (∀ h0, rtc sh_step h0 h → sh_inv h0 → sh_inv h) as Hgen.
  { intros h0 Hr0. induction Hr0; [done|]. intros. eauto using sh_inv_step. }
  by eapply Hgen, sh_inv_new.
Qed.

End sh.

(** * Properties *)

(** C5: A stream carries its writer's bytes to its reader, intact and in order.
    Whatever the writes, the frames they put on the wire (in chunks of at most
    64 KB) and the half close after them are read back from the wire as sent;
    fed to the other side's hub while its reader calls [Read] with buffers of
    any size, they yield at every moment a prefix of the bytes written, the
    whole of them once [Read] returns EOF; the exchange never gets stuck on the
    32-frame queue, and always ends. *)
Theorem stream_end_to_end `{!JsonCodec ConnOpenAck} sc s h l ps :
  isClosed sc = false → sc_writeHalf sc = false → w_broken (s_out s) = false →
  0 ≤ sc_connID sc < 2 ^ 32 →
  h_conns h !! sc_connID sc = Some l → hub_conn h l = Some (newStreamConn (sc_connID sc)) →
  ∃ ms, w_log (s_out (write_all sc s ps).2) = w_log (s_out s) ++ (frame <$> ms) ∧
    read_all (length ms) (concat (frame <$> ms)) = (ms, ErrIO EOF) ∧
    sn (pipe_step l) (mkPipe ms h [] false) ∧
    ∀ st, rtc (pipe_step l) (mkPipe ms h [] false) st →
      p_got st `prefix_of` concat ps ∧
      (p_end st = true → p_wire st = [] ∧ p_got st = concat ps) ∧
      (p_end st = true ∨ ∃ st', pipe_step l st st').
Proof.
  intros Hc Hh Hb Hid Hl Hsc. set (id := sc_connID sc) in *. exists (sent_frames id ps).
  assert (pipe_ok l id (concat ps) (mkPipe (sent_frames id ps) h [] false)) as Hok.
  { exists (newStreamConn id). split; simpl; [done|done| |done]. right. eexists. split; [done|].
    split; [done|]. split; [done|]. unfold content. simpl. clear. induction ps as [|p ps IH]; [done|].
    cbn [fmap list_fmap concat]. rewrite concat_app, IH. by rewrite (proj1 (chunks_spec (length p) p (le_n _))). }
  split_and!.
  - by rewrite write_all_log.
  - apply read_all_sent; [by apply sent_frames_wf|done].
  - by eapply pipe_sn.
  - intros st Hr. assert (pipe_ok l id (concat ps) st) as Hok' by (by eapply pipe_ok_reachable).
    split_and!; [| |by eapply pipe_progress].
    + destruct Hok' as (sc' & [_ _ [(_&_&<-)|(ds&_&_&_&<-)] _]); by eexists.
    + destruct Hok' as (sc' & [_ _ _ He]). done.
Qed.

(** The end of a session releases everyone: on any hub that the operations
    can reach, [SessionClosed] closes every connection still mapped, keeping
    the bytes already queued readable, so that no [Read] on it blocks any more;
    it fills the ack channel of every [OpenStream] still waiting, which was
    empty (the send cannot block); and no connection can be made or opened
    afterwards. *)
Theorem SessionClosed_releases `{!JsonCodec ConnOpenAck} h :
  rtc sh_step NewStreamHub h → h_dead h = false →
  let h' := SessionClosed h in
  (∀ id l n, h_conns h !! id = Some l → (0 < n)%nat → ∃ sc sc', hub_conn h l = Some sc ∧
     hub_conn h' l = Some sc' ∧ content sc' = content sc ∧ (Read sc' n).2 ≠ ReadBlocks) ∧
  (∀ id c, h_acks h !! id = Some c → h_chans h !! c = Some None ∧
     h_chans h' !! c = Some (Some session_closed_ack)) ∧
  (∀ id, (NewHubConn h' id).2 = None) ∧ (OpenStream_begin h').2 = None ∧ SessionClosed h' = h'.
Proof.
  intros Hinv%sh_inv_reachable Hd. unfold SessionClosed. rewrite Hd. cbn zeta. split_and!; [| |done..].
  - intros id l n Hl Hn. destruct (shi_conns _ Hinv _ _ Hl) as (sc & Hsc & _).
    exists sc, (markClosed CauseEOF sc). split; [done|]. split_and!.
    + unfold hub_conn in *. simpl. rewrite lookup_foldl_alter.
      * rewrite bool_decide_true by (by eapply elem_of_values). by rewrite Hsc.
      * intros a. unfold markClosed. by destruct (sc_closed a) eqn:E; simpl; rewrite ?E.
    + unfold markClosed. by case_match.
    + intros Hbl. pose proof (Read_ok (markClosed CauseEOF sc) n Hn) as (_&_&_&Hok).
      rewrite Hbl in Hok. destruct Hok as (_&_&Hcl). unfold markClosed in Hcl. by case_match; simplify_eq/=.
  - intros id c Hc. pose proof (shi_acks _ Hinv _ _ Hc) as Hch. split; [done|]. simpl.
    assert (∀ (vs : list (Z * nat)) chans, foldl (λ c x, <[x.2 := Some session_closed_ack]> c) chans vs =
      foldl (λ c x, alter (λ _, Some session_closed_ack) x.2 c) chans vs) as ->.
    { intros vs. induction vs as [|[i v] vs IH]; intros chans; [done|]. cbn [foldl]. rewrite IH. f_equal.
      apply list_eq. intros k. destruct (decide (v = k)) as [<-|Hne]; simpl.
      - rewrite list_lookup_alter_eq. destruct (chans !! v) eqn:E; simpl.
        + apply list_lookup_insert_eq. by eapply lookup_lt_Some.
        + apply lookup_ge_None in E. apply lookup_ge_None. by rewrite length_insert.
      - by rewrite list_lookup_insert_ne, list_lookup_alter_ne. }
    rewrite lookup_foldl_alter by done. rewrite bool_decide_true by (by eapply elem_of_values). by rewrite Hch.
Qed.

(** [Feed] routes by frame type. A data or close frame of a connection the hub
    does not know, and any frame of another type, is handed back to the read
    loop with the hub unchanged; a data frame of a known open connection is
    appended to its queue, or blocks while 32 frames are queued; a close frame
    takes the connection out of the hub and queues its end, after which the
    reader gets what was queued and then EOF, for a half and for a full close
    alike. *)
Theorem Feed_spec `{!JsonCodec ConnOpenAck} pick h m :
  (h_conns h !! StreamID m = None → Type_ m ≠ MsgConnOpenAck → Feed pick h m = Some (h, false)) ∧
  (Type_ m ≠ MsgData → Type_ m ≠ MsgStreamClose → Type_ m ≠ MsgConnOpenAck → Feed pick h m = Some (h, false)) ∧
  (∀ l sc, h_conns h !! StreamID m = Some l → hub_conn h l = Some sc → sc_closed sc = None →
     Type_ m = MsgData ∨ Type_ m = MsgStreamClose →
     if Nat.ltb (length (sc_feed sc)) 32 then
       ∃ h' sc', Feed pick h m = Some (h', true) ∧ hub_conn h' l = Some sc' ∧ sc_closed sc' = None ∧
         (∀ i, h_conns h' !! i = if bool_decide (Type_ m = MsgStreamClose ∧ i = StreamID m) then None
                                 else h_conns h !! i) ∧
         ((content sc).2 = false →
          content sc' = if bool_decide (Type_ m = MsgData) then ((content sc).1 ++ Payload m, false)
                        else ((content sc).1, true))
     else Feed pick h m = None).
Proof.
  split_and!.
  - intros Hn Ht. unfold Feed, hub_get. rewrite Hn. repeat case_bool_decide; done.
  - intros. unfold Feed. by rewrite !bool_decide_false.
  - intros l sc Hl Hsc Hc Ht. rewrite (Feed_open l pick h sc (StreamID m) m) by done. unfold streamFeedCap.
    destruct (Nat.ltb_spec (length (sc_feed sc)) 32).
    + rewrite bool_decide_true by lia. destruct Ht as [Ht|Ht]; rewrite Ht.
      * rewrite !bool_decide_true by done. eexists _, _. split; [reflexivity|].
        rewrite hub_conn_upd, decide_True, Hsc by done. split; [reflexivity|]. split_and!; [done| |].
        -- intros i. rewrite bool_decide_false by (by intros [? _]). done.
        -- intros He. by rewrite content_push.
      * rewrite !(bool_decide_false (MsgStreamClose = MsgData)) by done. eexists _, _. split; [reflexivity|].
        rewrite hub_conn_upd, decide_True by done. change (hub_conn (hub_remove h _) l) with (hub_conn h l).
        rewrite Hsc. split; [reflexivity|]. split_and!; [done| |].
        -- intros i. simpl. case_bool_decide as Hi; [destruct Hi as [_ ->]; apply lookup_delete_eq|].
           apply lookup_delete_ne. naive_solver.
        -- intros He. rewrite content_push by done. simpl. by destruct (IsHalfClose m).
    + by rewrite bool_decide_false by lia.
Qed.

(** * A concrete stream *)

Definition demo_stream_hub : StreamHub := (OpenStream_begin (NewHubConn NewStreamHub 9).1).1.

Lemma demo_stream_hub_reachable : rtc sh_step NewStreamHub demo_stream_hub.
Proof.
  eapply rtc_l; [apply (sh_new _ 9)|]. apply rtc_once, sh_open.
Defined.

Lemma stream_end_to_end_witness :
  ∃ ms, w_log (s_out (write_all (newStreamConn 9) (NewSession []) [[x61]; []; [x62; x63]]).2) = frame <$> ms ∧
    length ms = 3%nat ∧
    ∀ st, rtc (pipe_step 0) (mkPipe ms demo_stream_hub [] false) st → p_end st = true → p_got st = [x61; x62; x63].
Proof.
  destruct (stream_end_to_end (newStreamConn 9) (NewSession []) demo_stream_hub 0 [[x61]; []; [x62; x63]])
    as (ms & Hlog & _ & _ & Hrun); [reflexivity..|split; [discriminate|reflexivity]|reflexivity|reflexivity|].
  exists ms. split; [exact Hlog|]. split.
  - apply (f_equal length) in Hlog. rewrite length_app, length_fmap in Hlog. symmetry.
    exact Hlog.
  - intros st Hr He. destruct (Hrun st Hr) as (_ & H & _). apply (proj2 (H He)).
Defined.

Lemma SessionClosed_releases_witness :
  h_acks demo_stream_hub !! 1 = Some 0%nat ∧
  h_chans (SessionClosed demo_stream_hub) !! 0%nat = Some (Some session_closed_ack) ∧
  (OpenStream_begin (SessionClosed demo_stream_hub)).2 = None.
Proof.
  destruct (SessionClosed_releases demo_stream_hub demo_stream_hub_reachable eq_refl) as (_ & Ha & _ & Ho & _).
  split; [reflexivity|]. split; [apply (Ha 1 0%nat); reflexivity|exact Ho].
Defined.

Lemma Feed_spec_witness :
  ∃ h' sc', Feed false demo_stream_hub (HalfClose 9) = Some (h', true) ∧ hub_conn h' 0 = Some sc' ∧
    content sc' = ([], true) ∧ h_conns h' !! 9 = None.
Proof.
  destruct (Feed_spec false demo_stream_hub (HalfClose 9)) as (_ & _ & H).
  destruct (H 0%nat (newStreamConn 9)) as (h' & sc' & Hf & Hc & _ & Hm & Hct); [reflexivity..|right; reflexivity|].
  exists h', sc'. split; [exact Hf|]. split; [exact Hc|]. split; [apply Hct; reflexivity|]. apply (Hm 9).
Defined.
