(* ===== verification/Handshake.v ===== *)
(** The request/reply exchanges of a session (protocol/star/handshake.go): the
    authentication handshake and the registration of a stream, on both sides. *)
From S2P Require Import Prelude Message TextCodec.
From Stdlib Require Import ZArith Lia.

(** Every function returns the session with its result: an error may come after
    a reply has been sent. Timeouts are not modelled. A failed [Receive] leaves
    the session as it was; its callers drop the connection. *)

(** Sends [v], waits for one message of type [want] and decodes it. *)
Definition exchange {A B} `{JsonCodec A, JsonCodec B} (s : Session) (t : byte) (v : A) (want : byte)
    : Session * result star_err B :=
  match SendControl s t v with
  | Err e => (s, Err e)
  | Ok s =>
      match Receive s with
      | Err e => (s, Err e)
      | Ok (m, s) =>
          if bool_decide (Type_ m = want) then (s, DecodeControl m) else (s, Err (ErrUnexpected (Type_ m)))
      end
  end.

Section handshake.
Context `{!JsonCodec HandshakeReq, !JsonCodec HandshakeAck}.

(** The request [ClientHandshake] sends: version 0 stands for the current one. *)
Definition versioned (req : HandshakeReq) : HandshakeReq :=
  if hr_Version req =? 0 then mkHandshakeReq (b2z ProtocolVersion) (hr_ClientName req) (hr_KeyPassword req)
  else req.

Definition ClientHandshake (s : Session) (req : HandshakeReq) : Session * result star_err HandshakeAck :=
  exchange s MsgHandshake (versioned req) MsgHandshakeAck.

Definition handshake_reply (ok : bool) : HandshakeAck :=
  if ok then mkHandshakeAck true "" else mkHandshakeAck false "invalid key password".

(** [verify] is [None] for a nil function. *)
Definition ServerHandshakeVerify (s : Session) (verify : option (HandshakeReq → bool))
    : Session * result star_err HandshakeReq :=
  match Receive s with
  | Err e => (s, Err e)
  | Ok (m, s) =>
      if negb (bool_decide (Type_ m = MsgHandshake)) then (s, Err (ErrUnexpected (Type_ m)))
      else
        match DecodeControl m with
        | Err e => (s, Err e)
        | Ok req =>
            let ok := match verify with Some f => f req | None => false end in
            match SendControl s MsgHandshakeAck (handshake_reply ok) with
            | Err e => (s, Err e)
            | Ok s => (s, if ok then Ok req else Err ErrRejected)
            end
        end
  end.

Definition ServerHandshake (s : Session) (keyPassword : string) : Session * result star_err HandshakeReq :=
  ServerHandshakeVerify s (Some (λ req, String.eqb (hr_KeyPassword req) keyPassword)).
End handshake.

Section register.
Context `{!JsonCodec RegisterStreamReq, !JsonCodec RegisterStreamAck}.

Definition ClientRegisterStream (s : Session) (req : RegisterStreamReq)
    : Session * result star_err RegisterStreamAck :=
  exchange s MsgRegisterStream req MsgRegisterStreamAck.

(** [assignID] works on some state [St] of the caller; [None] is a nil function,
    an error is its text. *)
Definition ServerRegisterStream {St} (st : St) (s : Session) (m : Message)
    (assignID : option (St → RegisterStreamReq → St * result string Z))
    : St * Session * result star_err RegisterStreamAck :=
  if negb (bool_decide (Type_ m = MsgRegisterStream)) then (st, s, Err (ErrUnexpected (Type_ m)))
  else
    match DecodeControl m with
    | Err e => (st, s, Err e)
    | Ok req =>
        let '(st, ack) :=
          match assignID with
          | None => (st, mkRegisterStreamAck true (rr_StreamId req) 0 "")
          | Some f =>
              match f st req with
              | (st, Ok id) => (st, mkRegisterStreamAck true (rr_StreamId req) id "")
              | (st, Err msg) => (st, mkRegisterStreamAck false (rr_StreamId req) 0 msg)
              end
          end in
        match SendControl s MsgRegisterStreamAck ack with
        | Err e => (st, s, Err e)
        | Ok s => (st, s, if ra_OK ack then Ok ack else Err ErrRejected)
        end
    end.
End register.

(** * Exchanges over the wire *)

(** A value small enough for a frame, with valid strings. *)
Definition sendable {A} `{JsonLaws A} (v : A) : Prop :=
  json_valid v ∧ Z.of_nat (length (json_marshal v)) ≤ MaxPayloadSize.

Section exchange.
Context {A : Type} `{JsonLaws A}.

Lemma control_message_wf (t : byte) (v : A) : sendable v → Message_wf (control_message t v).
Proof. intros [_ Hl]. split; [simpl; unfold CtrlStreamID; lia|done]. Qed.

Lemma SendControl_sent s t (v : A) :
  w_broken (s_out s) = false → sendable v →
  SendControl s t v =
    Ok (mkSession (s_in s) (mkWriter (w_log (s_out s) ++ [frame (control_message t v)]) false)).
Proof. intros Hb [_ Hl]. unfold SendControl, Send. by rewrite WriteMessage_ok. Qed.

Lemma Receive_frame r w (m : Message) :
  Message_wf m → Receive (mkSession (frame m ++ r) w) = Ok (m, mkSession r w).
Proof. intros Hm. unfold Receive. cbn [s_in]. by rewrite ReadMessage_frame. Qed.

Lemma DecodeControl_control t (v : A) : sendable v → DecodeControl (control_message t v) = Ok v.
Proof.
  intros [Hv _]. unfold DecodeControl, control_message. simpl.
  pose proof (json_roundtrip v Hv) as Hr. pose proof (json_nonempty v).
  destruct (json_marshal v); [done|]. by rewrite Hr.
Qed.
End exchange.

Lemma exchange_reply {A B} `{JsonLaws A, JsonLaws B} s t (v : A) want (r : B) rest :
  w_broken (s_out s) = false → sendable v → sendable r →
  s_in s = frame (control_message want r) ++ rest →
  exchange s t v want =
    (mkSession rest (mkWriter (w_log (s_out s) ++ [frame (control_message t v)]) false), Ok r).
Proof.
  intros Hb Hv Hr Hin. unfold exchange. rewrite SendControl_sent by done. rewrite Hin.
  rewrite Receive_frame by (by apply control_message_wf). by rewrite bool_decide_true, DecodeControl_control.
Qed.

(** * Properties *)

(** C16: The handshake gives both sides the same verdict. The request the client
    puts on the wire (with the current version for version 0) reaches the
    server's [verify] unchanged; the server answers once, the client reads that
    answer, and its [OK] is what [verify] said: the server returns the request
    when it accepted it and [ErrRejected] when it did not. Neither side touches
    what follows on its stream. *)
Theorem handshake_agreement `{!JsonCodec HandshakeReq, !JsonCodec HandshakeAck,
    !JsonLaws HandshakeReq, !JsonLaws HandshakeAck} c s req verify rest rest' :
  w_broken (s_out c) = false → w_broken (s_out s) = false →
  sendable (versioned req) → (∀ ok, sendable (handshake_reply ok)) →
  let request := frame (control_message MsgHandshake (versioned req)) in
  let reply := frame (control_message MsgHandshakeAck (handshake_reply (verify (versioned req)))) in
  s_in s = request ++ rest → s_in c = reply ++ rest' →
  ServerHandshakeVerify s (Some verify) =
    (mkSession rest (mkWriter (w_log (s_out s) ++ [reply]) false),
     if verify (versioned req) then Ok (versioned req) else Err ErrRejected) ∧
  ClientHandshake c req =
    (mkSession rest' (mkWriter (w_log (s_out c) ++ [request]) false),
     Ok (handshake_reply (verify (versioned req)))) ∧
  ha_OK (handshake_reply (verify (versioned req))) = verify (versioned req).
Proof.
  intros Hc Hs Hreq Hrep request reply Hin Hin'. split_and!.
  - unfold ServerHandshakeVerify. destruct s as [i w]. cbn [s_in s_out] in *. subst i. unfold request.
    rewrite Receive_frame by (by apply control_message_wf). rewrite bool_decide_true by done. cbn [negb].
    rewrite DecodeControl_control by done. by rewrite SendControl_sent.
  - unfold ClientHandshake. by rewrite (exchange_reply _ _ _ _ (handshake_reply (verify (versioned req))) rest').
  - by destruct (verify (versioned req)).
Qed.

(** Every outcome of the server's side. *)
Lemma ServerHandshakeVerify_cases `{!JsonCodec HandshakeReq, !JsonCodec HandshakeAck} s verify s' r :
  ServerHandshakeVerify s verify = (s', r) →
  match r with
  | Ok req => ∃ m rest f, ReadMessage (s_in s) = Ok (m, rest) ∧ Type_ m = MsgHandshake ∧
      DecodeControl m = Ok req ∧ verify = Some f ∧ f req = true ∧
      written s' = written s ++ frame (control_message MsgHandshakeAck (handshake_reply true))
  | Err ErrRejected => ∃ m rest (req : HandshakeReq), ReadMessage (s_in s) = Ok (m, rest) ∧
      DecodeControl m = Ok req ∧ match verify with Some f => f req = false | None => True end ∧
      written s' = written s ++ frame (control_message MsgHandshakeAck (handshake_reply false))
  | Err _ => written s' = written s
  end.
Proof.
  unfold ServerHandshakeVerify, Receive. destruct (ReadMessage (s_in s)) as [[m rest]|e] eqn:Hrd; cbn [mbind result_bind mret result_ret].
  2: { intros [= <- <-]. destruct e; try done. exfalso. unfold ReadMessage in Hrd.
       destruct (read_full HeaderSize (s_in s)) as [[head r1]|]; simpl in Hrd; [|done].
       repeat case_match; simplify_eq/=. destruct (read_full _ r1) as [[]|]; simplify_eq/=. }
  case_bool_decide as Ht; cbn [negb]; [|by intros [= <- <-]].
  destruct (DecodeControl m) as [req|e] eqn:Hd.
  2: { intros [= <- <-]. unfold DecodeControl in Hd.
       destruct (Payload m); [by simplify_eq|].
       destruct (@json_unmarshal HandshakeReq _ _); simplify_eq; reflexivity. }
  unfold SendControl, Send. cbn [s_out]. set (ok := match verify with Some f => f req | None => false end).
  unfold WriteMessage, w_write. destruct (Z.ltb MaxPayloadSize _); [by intros [= <- <-]|].
  destruct (w_broken (s_out s)); [by intros [= <- <-]|].
  intros [= <- <-]. unfold written. cbn [mbind result_bind mret result_ret s_out w_log].
  rewrite concat_app. simpl. rewrite app_nil_r. unfold ok. destruct verify as [f|]; [destruct (f req) eqn:Hf|].
  - by exists m, rest, f.
  - by exists m, rest, req.
  - by exists m, rest, req.
Qed.

(** A server accepts a handshake only from a peer that passes [verify], and
    only as its first message: whatever bytes arrive, [ServerHandshakeVerify]
    returns a request only if the stream begins with a handshake frame that
    decodes to that request and [verify] accepts it. On every failure before the
    decision nothing has been sent; a nil [verify] accepts nobody. *)
Theorem handshake_safe `{!JsonCodec HandshakeReq, !JsonCodec HandshakeAck} s verify s' r :
  ServerHandshakeVerify s verify = (s', r) →
  match r with
  | Ok req => ∃ m rest f, ReadMessage (s_in s) = Ok (m, rest) ∧ Type_ m = MsgHandshake ∧
      DecodeControl m = Ok req ∧ verify = Some f ∧ f req = true ∧
      written s' = written s ++ frame (control_message MsgHandshakeAck (handshake_reply true))
  | Err ErrRejected => ∃ m rest (req : HandshakeReq), ReadMessage (s_in s) = Ok (m, rest) ∧
      DecodeControl m = Ok req ∧ match verify with Some f => f req = false | None => True end ∧
      written s' = written s ++ frame (control_message MsgHandshakeAck (handshake_reply false))
  | Err _ => written s' = written s
  end.
Proof. apply ServerHandshakeVerify_cases. Qed.

(** Registering a stream runs the server's [assignID] exactly once, on the
    request the client sent, and both sides end with the same answer: the id it
    assigned, or its refusal with the reason, in which case the server also
    reports an error; with a nil [assignID] the id is 0. A message of another
    type, or one that does not decode, is refused without running it and without
    an answer. *)
Theorem register_agreement `{!JsonCodec RegisterStreamReq, !JsonCodec RegisterStreamAck,
    !JsonLaws RegisterStreamReq, !JsonLaws RegisterStreamAck} {St} (st : St) c s req assignID rest' m :
  w_broken (s_out c) = false → w_broken (s_out s) = false → sendable req →
  let result := match assignID with Some f => f st req | None => (st, Ok 0) end in
  let ack := match result.2 with
             | Ok id => mkRegisterStreamAck true (rr_StreamId req) id ""
             | Err msg => mkRegisterStreamAck false (rr_StreamId req) 0 msg
             end in
  sendable ack → s_in c = frame (control_message MsgRegisterStreamAck ack) ++ rest' →
  (ServerRegisterStream st s (control_message MsgRegisterStream req) assignID =
     (result.1, mkSession (s_in s) (mkWriter (w_log (s_out s) ++ [frame (control_message MsgRegisterStreamAck ack)]) false),
      if ra_OK ack then Ok ack else Err ErrRejected) ∧
   ClientRegisterStream c req =
     (mkSession rest' (mkWriter (w_log (s_out c) ++ [frame (control_message MsgRegisterStream req)]) false), Ok ack)) ∧
  (Type_ m ≠ MsgRegisterStream ∨ @DecodeControl RegisterStreamReq _ m = Err ErrJson →
   ∃ e, ServerRegisterStream st s m assignID = (st, s, Err e)).
Proof.
  intros Hc Hs Hreq result ack Hack Hin. split; [split|].
  - unfold ServerRegisterStream. rewrite bool_decide_true by done. cbn [negb].
    rewrite DecodeControl_control by done.
    assert (match assignID with
      | None => (st, mkRegisterStreamAck true (rr_StreamId req) 0 "")
      | Some f => match f st req with
        | (st, Ok id) => (st, mkRegisterStreamAck true (rr_StreamId req) id "")
        | (st, Err msg) => (st, mkRegisterStreamAck false (rr_StreamId req) 0 msg)
        end
      end = (result.1, ack)) as ->.
    { unfold ack, result. destruct assignID as [f|]; [|done]. by destruct (f st req) as [? []]. }
    by rewrite SendControl_sent.
  - by apply exchange_reply.
  - intros Hbad. unfold ServerRegisterStream. case_bool_decide as Ht; cbn [negb]; [|by eexists].
    destruct Hbad as [?|Hbad]; [done|]. rewrite Hbad. by eexists.
Qed.

(** * Witnesses *)

Definition demo_request : HandshakeReq := mkHandshakeReq 0 "dialer" "secret".
Definition demo_stream : RegisterStreamReq := mkRegisterStreamReq "cp" "ssh".

Lemma text_sendable {A} `{Countable A} (v : A) :
  Z.of_nat (length (pos_text (encode v))) ≤ MaxPayloadSize → @sendable A (text_codec A) (text_laws A) v.
Proof. intros Hl. split; [exact I|exact Hl]. Qed.

Lemma handshake_agreement_witness :
  let request := frame (control_message MsgHandshake (versioned demo_request)) in
  let reply := frame (control_message MsgHandshakeAck (handshake_reply true)) in
  (ServerHandshake (NewSession request) "secret").2 = Ok (versioned demo_request) ∧
  (ClientHandshake (NewSession reply) demo_request).2 = Ok (mkHandshakeAck true "").
Proof.
  intros request reply.
  assert (∀ ok, @sendable HandshakeAck _ _ (handshake_reply ok)) as Hrep.
  { intros []; apply text_sendable; vm_compute; congruence. }
  assert (@sendable HandshakeReq _ _ (versioned demo_request)) as Hreq.
  { apply text_sendable. vm_compute. congruence. }
  destruct (handshake_agreement (NewSession reply) (NewSession request) demo_request
    (λ r, String.eqb (hr_KeyPassword r) "secret") [] [] eq_refl eq_refl Hreq Hrep) as (Hs & Hc & _).
  - cbn [s_in NewSession]. rewrite app_nil_r. reflexivity.
  - cbn [s_in NewSession]. rewrite app_nil_r. reflexivity.
  - split; [exact (f_equal snd Hs)|exact (f_equal snd Hc)].
Defined.

Lemma handshake_safe_witness :
  (ServerHandshake (NewSession (frame (mkMessage MsgPing x00 0 []))) "secret").2 = Err (ErrUnexpected MsgPing) ∧
  written (ServerHandshake (NewSession (frame (mkMessage MsgPing x00 0 []))) "secret").1 = [].
Proof.
  split; [vm_compute; reflexivity|].
  set (s := NewSession (frame (mkMessage MsgPing x00 0 []))).
  pose proof (handshake_safe s (Some (λ req, String.eqb (hr_KeyPassword req) "secret"))
    (ServerHandshake s "secret").1 (Err (ErrUnexpected MsgPing))) as H. apply H. vm_compute. reflexivity.
Defined.

Lemma register_agreement_witness :
  let ack := mkRegisterStreamAck true "ssh" 1 "" in
  (ServerRegisterStream 0 (NewSession []) (control_message MsgRegisterStream demo_stream)
     (Some (λ n _, (n + 1, Ok (n + 1))))).1.1 = 1 ∧
  (ClientRegisterStream (NewSession (frame (control_message MsgRegisterStreamAck ack))) demo_stream).2 = Ok ack.
Proof.
  intros ack.
  destruct (register_agreement 0 (NewSession (frame (control_message MsgRegisterStreamAck ack))) (NewSession [])
    demo_stream (Some (λ n _, (n + 1, Ok (n + 1)))) [] (mkMessage MsgPing x00 0 [])) as ((Hs & Hc) & _).
  - reflexivity.
  - reflexivity.
  - apply text_sendable. vm_compute. congruence.
  - apply text_sendable. vm_compute. congruence.
  - cbn [s_in NewSession]. rewrite app_nil_r. reflexivity.
  - split; [exact (f_equal (fst ∘ fst) Hs)|exact (f_equal snd Hc)].
Defined.
