(* ===== verification/Config.v ===== *)
(** The configuration schema (config/schema.go, config/star.go): its records, the
    loading of a file and the checks it must pass. The YAML decoder is the
    parameter [unmarshal] of [Load]. *)
From S2P Require Import Prelude.
From Stdlib Require Import ZArith Lia.

(** * The schema *)

Record Credential := mkCredential {
  cred_Name : string; cred_KeyPassword : string; cred_Streams : list string }.

Record IngressExtra := mkIngressExtra {
  ix_AdminPassword : string;
  ix_KeyPassword : string;
  ix_Credentials : list Credential;
  ix_Target : string;
  ix_InCodec : string;
  ix_CertFile : string;
  ix_KeyFile : string;
  ix_DNSZones : gmap string (gmap string string);
  ix_DNSUpstreams : list string;
}.

Record IngressSpec := mkIngressSpec {
  ing_Name : string; ing_Transport : string; ing_Addr : string; ing_Handler : string;
  ing_Settings : IngressExtra }.

Record ServiceSpec := mkServiceSpec {
  sv_Name : string; sv_Ingress : list IngressSpec; sv_Dialers : list string }.

Record HandlerSpec := mkHandlerSpec { hs_Name : string; hs_Plugins : list string }.

Record LocalSpec := mkLocalSpec { ls_Stream : string; ls_Addr : string }.

Record DialerSpec := mkDialerSpec {
  dl_Name : string; dl_Type : string; dl_Role : string; dl_Transport : string; dl_Addr : string;
  dl_Identity : string; dl_KeyPassword : string; dl_Locals : list LocalSpec }.

Record RouteSpec := mkRouteSpec {
  rt_Ingress : string; rt_Identity : string; rt_Target : string; rt_To : string; rt_Streams : list string }.

Record Root := mkRoot {
  Services : list ServiceSpec; Handlers : list HandlerSpec; Dialers : list DialerSpec;
  Routes : list RouteSpec }.

(** The runtime parameters (config/star.go). *)
Record ConnectItem := mkConnectItem {
  ci_ProxyName : string; ci_BridgeName : string; ci_ClientProxyName : string; ci_StreamId : string }.

Record ClientProxy := mkClientProxy {
  cp_ClientProxyName : string; cp_StreamId : string; cp_Addr : string; cp_Transport : string;
  cp_KeyPassword : string }.

Record Settings := mkSettings {
  CtrlProxyName : string; ProxyName : string; KeyPassword : string; AdminPassword : string;
  TLS : bool; CertFile : string; KeyFile : string; Target : string; InCodec : string;
  Connect : list ConnectItem; ClientProxies : list ClientProxy;
  DNSZones : gmap string (gmap string string); DNSUpstreams : list string }.

Record ListenerList := mkListenerList {
  ll_Name : string; ll_Type : string; ll_Transport : string; ll_Addr : string; ll_Settings : Settings }.

Record HandlerList := mkHandlerList { hl_Name : string; hl_Plugins : list string }.

Record Listeners := mkListeners { ln_ListenerName : string; ln_HandlerName : string }.

Record Service := mkService {
  svc_Name : string; svc_Type : string; svc_Listeners : list Listeners; svc_Dailers : list string }.

(** * Sorting the migration hints *)

(** Swapping [s[j]] and [s[j-1]]. *)
Definition swap_down (s : list string) (j : nat) : list string :=
  match s !! j, s !! (j - 1)%nat with
  | Some x, Some y => <[(j - 1)%nat := x]> (<[j := y]> s)
  | _, _ => s
  end.

(** The inner loop, from index [j] down. *)
Fixpoint sink (j : nat) (s : list string) : list string :=
  match j with
  | O => s
  | S j' =>
      match s !! j, s !! j' with
      | Some x, Some y => if String.ltb x y then sink j' (swap_down s j) else s
      | _, _ => s
      end
  end.

Definition sortStrings (s : list string) : list string :=
  foldl (λ s i, sink i s) s (seq 1 (length s - 1)).

(** * Loading *)

Inductive config_err :=
  | ErrYaml
  | ErrLegacySchema (lines : list string)
  | ErrDecode
  | ErrServiceName
  | ErrIngressRequired (svc : string)
  | ErrDuplicate (kind name : string)
  | ErrDialerType (name : string)
  | ErrDialerRole (name : string)
  | ErrDialerStar (name : string)
  | ErrRouteDialer (to : string).

Definition legacyKeys : list (string * string) :=
  [("listenerList", "service[].ingress(listenerList → service[].ingress)");
   ("handlerList", "handlers(handlerList → handlers)");
   ("dailerList", "dialers(dailerList → dialers,注意拼写修正)");
   ("bridgerList", "bridges(bridgerList → bridges,M5)")]%string.

Definition str_empty (s : string) : bool := String.eqb s "".

(** A loop that may return an error. *)
Fixpoint loop {E A B} (f : A → B → result E A) (acc : A) (l : list B) : result E A :=
  match l with
  | [] => Ok acc
  | x :: l => acc ← f acc x; loop f acc l
  end.

Definition add_name (kind : string) (names : gset string) (name : string) : result config_err (gset string) :=
  if bool_decide (kind +:+ ":" +:+ name ∈ names) then Err (ErrDuplicate kind name)
  else Ok ({[kind +:+ ":" +:+ name]} ∪ names).

Definition validate_ingress (svc : string) (names : gset string) (ing : IngressSpec)
    : result config_err (gset string) :=
  if str_empty (ing_Name ing) || str_empty (ing_Addr ing) then Err (ErrIngressRequired svc)
  else add_name "ingress" names (ing_Name ing).

Definition validate_service (names : gset string) (svc : ServiceSpec) : result config_err (gset string) :=
  if str_empty (sv_Name svc) then Err ErrServiceName
  else loop (validate_ingress (sv_Name svc)) names (sv_Ingress svc).

Definition validate_handler (names : gset string) (h : HandlerSpec) : result config_err (gset string) :=
  add_name "handler" names (hs_Name h).

(** [d.Role = "inbound"] assigns to the loop's copy of the dialer. *)
Definition validate_dialer (names : gset string) (d : DialerSpec) : result config_err (gset string) :=
  if negb (String.eqb (dl_Type d) "direct") && negb (String.eqb (dl_Type d) "star") then Err (ErrDialerType (dl_Name d))
  else
    _ ← (if String.eqb (dl_Type d) "star" then
           let role := if str_empty (dl_Role d) then "inbound"%string else dl_Role d in
           if negb (String.eqb role "inbound") && negb (String.eqb role "outbound") then Err (ErrDialerRole (dl_Name d))
           else if str_empty (dl_Addr d) || str_empty (dl_Identity d) || str_empty (dl_KeyPassword d)
           then Err (ErrDialerStar (dl_Name d))
           else Ok tt
         else Ok tt);
    add_name "dialer" names (dl_Name d).

(** [dialerByName]: the last dialer of a name. *)
Definition dialer_by_name (ds : list DialerSpec) : gmap string DialerSpec :=
  foldl (λ m d, <[dl_Name d := d]> m) ∅ ds.

Definition validate_route (ds : gmap string DialerSpec) (_ : unit) (rt : RouteSpec) : result config_err unit :=
  match ds !! rt_To rt with
  | Some _ => Ok tt
  | None => Err (ErrRouteDialer (rt_To rt))
  end.

Definition validate (r : Root) : result config_err unit :=
  names ← loop validate_service ∅ (Services r);
  names ← loop validate_handler names (Handlers r);
  _ ← loop validate_dialer names (Dialers r);
  loop (validate_route (dialer_by_name (Dialers r))) tt (Routes r).

(** The two decodings of the file: the top-level keys, then the schema. *)
Definition Load (unmarshal_probe : list byte → option (gset string))
    (unmarshal : list byte → option Root) (data : list byte) : result config_err Root :=
  match unmarshal_probe data with
  | None => Err ErrYaml
  | Some probe =>
      let legacy := omap (λ '(key, hint),
        if bool_decide (key ∈ probe) then Some ("  " +:+ key +:+ " → " +:+ hint) else None) legacyKeys in
      match legacy with
      | [] =>
          match unmarshal data with
          | None => Err ErrDecode
          | Some root => _ ← validate root; Ok root
          end
      | _ => Err (ErrLegacySchema (sortStrings legacy))
      end
  end.

(** * Lemmas on the checks *)

Lemma str_empty_false s : str_empty s = false ↔ s ≠ "".
Proof. unfold str_empty. apply String.eqb_neq. Qed.

Lemma loop_app {E A B} (f : A → B → result E A) acc l1 l2 :
  loop f acc (l1 ++ l2) = (loop f acc l1 ≫= λ a, loop f a l2).
Proof.
  revert acc. induction l1 as [|x l1 IH]; intros acc; [done|]. cbn [app loop].
  destruct (f acc x); simpl; [apply IH|done].
Qed.

Lemma result_bind_Ok {E A B} (r : result E A) (k : A → result E B) b :
  (r ≫= k) = Ok b ↔ ∃ a, r = Ok a ∧ k a = Ok b.
Proof. destruct r; simpl; naive_solver. Qed.

Definition key (kind name : string) : string := kind +:+ ":" +:+ name.

#[export] Instance key_inj kind : Inj (=) (=) (key kind).
Proof.
  intros a b. unfold key. induction kind as [|c kind IH]; simpl; intros H; [by injection H|].
  injection H as H. by apply IH.
Qed.

(** A loop whose body checks [P] and records some names. *)
Lemma loop_names {B} (f : gset string → B → result config_err (gset string)) kind (P : B → Prop)
    (g : B → list string) ns l ns' :
  (∀ ns x ns', f ns x = Ok ns' ↔ P x ∧ loop (add_name kind) ns (g x) = Ok ns') →
  loop f ns l = Ok ns' ↔ Forall P l ∧ loop (add_name kind) ns (concat (g <$> l)) = Ok ns'.
Proof.
  intros Hf. revert ns. induction l as [|x l IH]; intros ns; cbn [loop fmap list_fmap concat].
  { split; [|by intros [_ H]]. intros H. by split; [constructor|]. }
  rewrite loop_app, !result_bind_Ok, Forall_cons. setoid_rewrite Hf. setoid_rewrite IH. naive_solver.
Qed.

Lemma add_name_Ok kind ns x ns' :
  add_name kind ns x = Ok ns' ↔ (key kind x ∉ ns) ∧ ns' = {[key kind x]} ∪ ns.
Proof. unfold add_name. fold (key kind x). case_bool_decide; naive_solver. Qed.

Lemma add_names kind ns l ns' :
  loop (add_name kind) ns l = Ok ns' ↔
    NoDup l ∧ (∀ x, x ∈ l → key kind x ∉ ns) ∧ ns' = list_to_set (key kind <$> l) ∪ ns.
Proof.
  revert ns. induction l as [|x l IH]; intros ns; cbn [loop].
  { rewrite NoDup_nil. simpl. split; [|intros (_&_&->); f_equal; set_solver].
    intros [= ->]. split_and!; [done|by intros ? ?%elem_of_nil|set_solver]. }
  rewrite result_bind_Ok, NoDup_cons. setoid_rewrite add_name_Ok. setoid_rewrite IH.
  rewrite fmap_cons. cbn [list_to_set]. split.
  - intros (a & [Hx ->] & Hnd & Hl & ->). split_and!; [|done| |set_solver].
    + intros Hin. apply (Hl _ Hin). set_solver.
    + intros y [->|Hy]%elem_of_cons; [done|]. specialize (Hl _ Hy). set_solver.
  - intros ([Hx Hnd] & Hl & ->). eexists. split; [split; [apply Hl; set_solver|done]|].
    split_and!; [done| |set_solver]. intros y Hy Hin. apply elem_of_union in Hin as [Hin|Hin].
    + apply elem_of_singleton in Hin. apply (inj _) in Hin. by subst.
    + apply (Hl y); set_solver.
Qed.

(** ** What each check means *)

Definition ingress_ok (ing : IngressSpec) : Prop := ing_Name ing ≠ ""%string ∧ ing_Addr ing ≠ ""%string.
Definition service_ok (svc : ServiceSpec) : Prop := sv_Name svc ≠ ""%string ∧ Forall ingress_ok (sv_Ingress svc).
Definition dialer_ok (d : DialerSpec) : Prop :=
  dl_Type d = "direct"%string ∨
  dl_Type d = "star"%string ∧ (dl_Role d = "" ∨ dl_Role d = "inbound" ∨ dl_Role d = "outbound")%string ∧
  dl_Addr d ≠ ""%string ∧ dl_Identity d ≠ ""%string ∧ dl_KeyPassword d ≠ ""%string.

Definition ingress_names (r : Root) : list string :=
  concat ((λ svc, ing_Name <$> sv_Ingress svc) <$> Services r).

Lemma concat_single {A B} (g : A → B) (l : list A) : concat ((λ x, [g x]) <$> l) = g <$> l.
Proof. induction l as [|x l IH]; [done|]. cbn. by rewrite IH. Qed.

Lemma validate_ingress_Ok svc ns ing ns' :
  validate_ingress svc ns ing = Ok ns' ↔ ingress_ok ing ∧ loop (add_name "ingress") ns [ing_Name ing] = Ok ns'.
Proof.
  unfold validate_ingress, ingress_ok. rewrite <- !str_empty_false. cbn [loop].
  destruct (str_empty (ing_Name ing)), (str_empty (ing_Addr ing)); simpl; try naive_solver.
  rewrite result_bind_Ok. naive_solver.
Qed.

Lemma validate_service_Ok ns svc ns' :
  validate_service ns svc = Ok ns' ↔
    service_ok svc ∧ loop (add_name "ingress") ns (ing_Name <$> sv_Ingress svc) = Ok ns'.
Proof.
  unfold validate_service, service_ok. rewrite <- str_empty_false.
  destruct (str_empty (sv_Name svc)); [naive_solver|].
  rewrite (loop_names _ "ingress" ingress_ok (λ x, [ing_Name x])) by apply validate_ingress_Ok.
  rewrite concat_single. naive_solver.
Qed.

Lemma validate_dialer_Ok ns d ns' :
  validate_dialer ns d = Ok ns' ↔ dialer_ok d ∧ loop (add_name "dialer") ns [dl_Name d] = Ok ns'.
Proof.
  unfold validate_dialer, dialer_ok. rewrite <- !str_empty_false. cbn [loop].
  assert (∀ r : result config_err (gset string), r = Ok ns' ↔ (r ≫= (λ a, Ok a)) = Ok ns') as Hb by (by intros []).
  rewrite <- Hb. destruct (String.eqb_spec (dl_Type d) "direct") as [Hd|Hd].
  { rewrite Hd. cbn [negb andb]. simpl. naive_solver. }
  destruct (String.eqb_spec (dl_Type d) "star") as [Hs|Hs]; cbn [negb andb]; [|naive_solver].
  unfold str_empty. destruct (String.eqb_spec (dl_Role d) "") as [Hr|Hr].
  - cbn [String.eqb]. simpl. destruct (String.eqb (dl_Addr d) ""), (String.eqb (dl_Identity d) ""),
      (String.eqb (dl_KeyPassword d) ""); simpl; naive_solver.
  - destruct (String.eqb_spec (dl_Role d) "inbound"), (String.eqb_spec (dl_Role d) "outbound"); cbn [negb andb];
      try (destruct (String.eqb (dl_Addr d) ""), (String.eqb (dl_Identity d) ""),
      (String.eqb (dl_KeyPassword d) ""); simpl; naive_solver); naive_solver.
Qed.

Lemma validate_handler_Ok ns h ns' :
  validate_handler ns h = Ok ns' ↔ True ∧ loop (add_name "handler") ns [hs_Name h] = Ok ns'.
Proof. unfold validate_handler. cbn [loop]. rewrite result_bind_Ok. naive_solver. Qed.

Lemma dialer_by_name_lookup ds n : is_Some (dialer_by_name ds !! n) ↔ n ∈ dl_Name <$> ds.
Proof.
  unfold dialer_by_name. assert (∀ m : gmap string DialerSpec, is_Some (foldl (λ m d, <[dl_Name d := d]> m) m ds !! n) ↔
    is_Some (m !! n) ∨ n ∈ dl_Name <$> ds) as Hg.
  { induction ds as [|d ds IH]; intros m; cbn [foldl].
    - split; [by left|]. by intros [?|?%elem_of_nil].
    - rewrite IH, lookup_insert_is_Some, fmap_cons, elem_of_cons. destruct (decide (dl_Name d = n)); naive_solver. }
  rewrite Hg, lookup_empty. split; [|by right]. by intros [[? ?]|?].
Qed.

Lemma validate_routes_Ok ds rts :
  loop (validate_route (dialer_by_name ds)) tt rts = Ok tt ↔
    Forall (λ rt, rt_To rt ∈ dl_Name <$> ds) rts.
Proof.
  induction rts as [|rt rts IH]; cbn [loop]; [by split|]. rewrite Forall_cons, <- IH, <- dialer_by_name_lookup.
  rewrite result_bind_Ok. assert (∀ u, validate_route (dialer_by_name ds) tt rt = Ok u ↔
    is_Some (dialer_by_name ds !! rt_To rt)) as Hrt.
  { intros []. unfold validate_route. destruct (dialer_by_name ds !! rt_To rt) eqn:E; rewrite <- ?not_eq_None_Some; naive_solver. }
  setoid_rewrite Hrt. split; [intros ([] & ? & ?)|intros [? ?]; exists tt]; done.
Qed.

(** ** Sorting *)

Lemma string_ltb_leb x y : String.ltb x y = negb (String.leb y x).
Proof.
  unfold String.ltb, String.leb. rewrite (String.compare_antisym y x).
  by destruct (String.compare x y).
Qed.

Lemma sink_insert p x r :
  StronglySorted String.le p →
  ∃ q, sink (length p) (p ++ x :: r) = q ++ r ∧ q ≡ₚ p ++ [x] ∧ StronglySorted String.le q.
Proof.
  revert x r. induction p as [|y p IH] using rev_ind; intros x r Hp.
  { exists [x]. split_and!; [done..|repeat constructor]. }
  rewrite length_app, Nat.add_1_r. cbn [sink]. rewrite <- app_assoc. cbn [app].
  assert ((p ++ y :: x :: r) !! S (length p) = Some x) as Hx.
  { rewrite lookup_app_r by lia. by replace (S (length p) - length p)%nat with 1%nat by lia. }
  assert ((p ++ y :: x :: r) !! length p = Some y) as Hy by (by apply list_lookup_middle).
  rewrite Hx, Hy, string_ltb_leb. apply StronglySorted_app in Hp as (Hpy & Hp & _).
  destruct (String.leb y x) eqn:Hle; cbn [negb].
  - exists (p ++ [y; x]). split_and!; [by rewrite <- app_assoc|by rewrite <- app_assoc|].
    apply StronglySorted_app. assert (String.le y x) as Hyx by (unfold String.le; by rewrite Hle).
    split_and!; [|done|repeat constructor; done].
    intros a b Ha [->|[->|?%elem_of_nil]%elem_of_cons]%elem_of_cons; [apply Hpy; set_solver| |done].
    transitivity y; [apply Hpy; set_solver|done].
  - unfold swap_down. replace (S (length p) - 1)%nat with (length p) by lia. rewrite Hx, Hy.
    assert (<[length p:=x]> (<[S (length p):=y]> (p ++ y :: x :: r)) = p ++ x :: y :: r) as ->.
    { replace (S (length p)) with (length p + 1)%nat by lia. rewrite insert_app_r. simpl.
      rewrite <- (Nat.add_0_r (length p)) at 1. by rewrite insert_app_r. }
    destruct (IH x (y :: r) Hp) as (q & -> & Hperm & Hq). exists (q ++ [y]).
    assert (String.le x y) as Hxy.
    { destruct (String.le_total x y) as [?|Hyx]; [done|]. unfold String.le in Hyx. by rewrite Hle in Hyx. }
    split_and!; [by rewrite <- app_assoc| |].
    + rewrite Hperm, <- !app_assoc. cbn [app]. apply Permutation_app_head. constructor.
    + apply StronglySorted_app. split_and!; [|done|repeat constructor].
      intros a b Ha ->%list_elem_of_singleton. rewrite Hperm in Ha.
      apply elem_of_app in Ha as [Ha| ->%list_elem_of_singleton]; [apply Hpy; set_solver|done].
Qed.

Lemma sort_from p r :
  StronglySorted String.le p →
  let s := foldl (λ s i, sink i s) (p ++ r) (seq (length p) (length r)) in
  s ≡ₚ p ++ r ∧ StronglySorted String.le s.
Proof.
  revert p. induction r as [|x r IH]; intros p Hp; cbn [length seq foldl].
  { by rewrite app_nil_r. }
  destruct (sink_insert p x r Hp) as (q & -> & Hperm & Hq).
  assert (length q = S (length p)) as Hl by (rewrite Hperm, length_app; simpl; lia). rewrite <- Hl.
  destruct (IH q Hq) as [H1 H2]. split; [|done]. rewrite H1, Hperm, <- app_assoc. done.
Qed.

(** * Properties *)

(** What validation accepts. *)
Lemma validate_spec r :
  validate r = Ok tt ↔
    Forall service_ok (Services r) ∧ NoDup (ingress_names r) ∧
    NoDup (hs_Name <$> Handlers r) ∧
    Forall dialer_ok (Dialers r) ∧ NoDup (dl_Name <$> Dialers r) ∧
    Forall (λ rt, rt_To rt ∈ dl_Name <$> Dialers r) (Routes r).
Proof.
  unfold validate. rewrite result_bind_Ok. setoid_rewrite result_bind_Ok. setoid_rewrite result_bind_Ok.
  setoid_rewrite (loop_names _ "ingress" service_ok (λ svc, ing_Name <$> sv_Ingress svc)); [|apply validate_service_Ok].
  setoid_rewrite (loop_names _ "handler" (λ _, True) (λ h, [hs_Name h])); [|apply validate_handler_Ok].
  setoid_rewrite (loop_names _ "dialer" dialer_ok (λ d, [dl_Name d])); [|apply validate_dialer_Ok].
  setoid_rewrite validate_routes_Ok. setoid_rewrite add_names. rewrite !concat_single. fold (ingress_names r).
  split.
  - intros (? & (Hs & Hni & _ & ->) & ? & (_ & Hnh & _ & ->) & ? & (Hd & Hnd & _ & ->) & Hr). done.
  - intros (Hs & Hni & Hnh & Hd & Hnd & Hr). eexists. split; [split_and!; [done..|reflexivity]|].
    eexists. split; [split_and!; [by apply Forall_true|done| |reflexivity]|].
    2: { eexists. split; [split_and!; [done..| |reflexivity]|done].
         intros x _ Hin. apply elem_of_union in Hin as [Hin|Hin]; [|apply elem_of_union in Hin as [Hin|Hin]; [|set_solver]];
         apply elem_of_list_to_set, list_elem_of_fmap in Hin as (y & Hy & _); unfold key in Hy; discriminate Hy. }
    intros x _ Hin. apply elem_of_union in Hin as [Hin|Hin]; [|set_solver].
    apply elem_of_list_to_set, list_elem_of_fmap in Hin as (y & Hy & _). unfold key in Hy. discriminate Hy.
Qed.

(** C38: [validate] accepts exactly the configurations that are complete and
    unambiguous: every service and ingress is named and every ingress has an
    address; ingress names are unique across services, handler names and dialer
    names are unique; every dialer is direct, or a star dialer with an address,
    an identity, a password and a role that is inbound, outbound or left out; and
    every route leads to a declared dialer. *)
Theorem validate_exact r :
  validate r = Ok tt ↔
    Forall service_ok (Services r) ∧ NoDup (ingress_names r) ∧
    NoDup (hs_Name <$> Handlers r) ∧
    Forall dialer_ok (Dialers r) ∧ NoDup (dl_Name <$> Dialers r) ∧
    Forall (λ rt, rt_To rt ∈ dl_Name <$> Dialers r) (Routes r).
Proof. exact (validate_spec r). Qed.

(** [Load] never accepts a file of the old schema: any top-level legacy key
    makes it fail, with one line per key found, in ascending order ([sortStrings]
    is a correct in-place sort); and what it returns was decoded from the file
    and passed [validate]. *)
Theorem Load_spec probe unmarshal data keys :
  probe data = Some keys →
  let legacy := filter (λ kh, kh.1 ∈ keys) legacyKeys in
  (legacy = [] → ∀ r, Load probe unmarshal data = Ok r ↔ unmarshal data = Some r ∧ validate r = Ok tt) ∧
  (legacy ≠ [] → ∃ lines, Load probe unmarshal data = Err (ErrLegacySchema lines) ∧
     lines ≡ₚ (λ kh, "  " +:+ kh.1 +:+ " → " +:+ kh.2) <$> legacy ∧ StronglySorted String.le lines).
Proof.
  intros Hp legacy. unfold Load. rewrite Hp.
  assert (omap (λ '(key, hint), if bool_decide (key ∈ keys) then Some ("  " +:+ key +:+ " → " +:+ hint) else None)
            legacyKeys = (λ kh, "  " +:+ kh.1 +:+ " → " +:+ kh.2) <$> legacy) as ->.
  { unfold legacy. induction legacyKeys as [|[k hint] l IH]; [done|]. cbn [omap list_omap]. rewrite filter_cons.
    cbn [fst]. case_bool_decide; [rewrite decide_True by done|rewrite decide_False by done; exact IH].
    rewrite fmap_cons, <- IH. done. }
  split.
  - intros ->. cbn [fmap list_fmap]. intros r. destruct (unmarshal data) as [root|]; [|naive_solver].
    rewrite result_bind_Ok. split; [intros ([] & ? & [= ->]); done|]. intros ([= ->] & ?). by exists tt.
  - intros Hne. destruct legacy as [|kh l]; [done|]. eexists. split; [reflexivity|].
    unfold sortStrings. rewrite !fmap_cons.
    set (x := "  " +:+ kh.1 +:+ " → " +:+ kh.2). set (r := (λ kh, _) <$> l).
    replace (length (x :: r) - 1)%nat with (length r) by (simpl; lia).
    apply (sort_from [x] r). repeat constructor.
Qed.

Lemma Load_spec_witness :
  ∃ lines, Load (λ _, Some {["service"; "listenerList"; "dailerList"]}%string) (λ _, None) [] =
      Err (ErrLegacySchema lines) ∧ length lines = 2%nat ∧ StronglySorted String.le lines.
Proof.
  destruct (Load_spec (λ _, Some {["service"; "listenerList"; "dailerList"]}%string) (λ _, None) []
    {["service"; "listenerList"; "dailerList"]}%string eq_refl) as [_ H].
  destruct H as (lines & Hl & Hp & Hs); [vm_compute; discriminate|].
  exists lines. split; [exact Hl|]. split; [|exact Hs]. apply Permutation_length in Hp. exact Hp.
Defined.
