(* ===== verification/Register.v ===== *)
(** The assembly of the star server (internal/star/starserver/register.go,
    config.go): from the configuration schema to the runtime parameters, and
    from those to the servers of the process. *)
From S2P Require Import Prelude Config.
From Stdlib Require Import ZArith Lia.

(** * Runtime parameters *)

Record ChainRoute := mkChainRoute {
  cr_ProxyName : string; cr_Dialer : string; cr_Identity : string; cr_StreamId : string }.

(** [ListenerMap] holds pointers to the elements of [ListenerLists]; nothing
    changes them while the map is built, so it is a map to their values. *)
Record Config := mkConfig {
  cfg_Service : list Service;
  ListenerLists : list ListenerList;
  HandlerLists : list HandlerList;
  ListenerMap : gmap string ListenerList;
  HandlerMap : gmap string HandlerList;
  cfg_Routes : list ConnectItem;
  ChainRoutes : list ChainRoute;
  DialerSpecs : gmap string DialerSpec;
}.

Definition serverType : string := "star".

Definition credential_proxies (creds : list Credential) : list ClientProxy :=
  concat ((λ cred, (λ stream, mkClientProxy (cred_Name cred) stream "" "" (cred_KeyPassword cred))
                     <$> cred_Streams cred) <$> creds).

(** The listener of an ingress: [Settings] copies seven fields of the ingress
    settings and leaves the others at their zero values. *)
Definition ingress_listener (ing : IngressSpec) : ListenerList :=
  let x := ing_Settings ing in
  let tr := if str_empty (ing_Transport ing) then "tcp"%string else ing_Transport ing in
  let settings proxyName cps :=
    mkSettings "" proxyName (ix_KeyPassword x) (ix_AdminPassword x) false (ix_CertFile x) (ix_KeyFile x)
      (ix_Target x) (ix_InCodec x) [] cps (ix_DNSZones x) (ix_DNSUpstreams x) in
  let h := ing_Handler ing in
  let mk typ proxyName cps := mkListenerList (ing_Name ing) typ tr (ing_Addr ing) (settings proxyName cps) in
  if String.eqb h "star" then mk "ctrlproxy"%string ""%string (credential_proxies (ix_Credentials x))
  else if String.eqb h "admin" then mk "admin"%string ""%string []
  else if String.eqb h "dns" then mk "dns"%string ""%string []
  else if str_empty h then mk "proxy"%string (ing_Name ing) []
  else mk "tcp"%string ""%string [].

(** What one route adds: chain routes for an outbound star dialer, connect
    rules otherwise. *)
Definition route_rules (ds : gmap string DialerSpec) (rt : RouteSpec) : list ConnectItem * list ChainRoute :=
  match ds !! rt_To rt with
  | None => ([], [])
  | Some d =>
      if String.eqb (dl_Type d) "star" && String.eqb (dl_Role d) "outbound" then
        let streams := match rt_Streams rt with [] => [""%string] | ss => ss end in
        ([], (λ stream, mkChainRoute (rt_Ingress rt) (dl_Name d) (dl_Identity d) stream) <$> streams)
      else
        match rt_Streams rt with
        | [] => ([mkConnectItem (rt_Ingress rt) "" (dl_Identity d) ""], [])
        | ss => ((λ stream, mkConnectItem (rt_Ingress rt) "" (dl_Identity d) stream) <$> ss, [])
        end
  end.

Definition build_service (svc : ServiceSpec) : Service :=
  mkService (sv_Name svc) serverType
    ((λ ing, mkListeners (ing_Name ing) (ing_Handler ing)) <$> sv_Ingress svc) [].

Definition buildRuntimeConfig (root : Root) : Config :=
  let lls := concat ((λ svc, ingress_listener <$> sv_Ingress svc) <$> Services root) in
  let hls := (λ h, mkHandlerList (hs_Name h) (hs_Plugins h)) <$> Handlers root in
  let ds := dialer_by_name (Dialers root) in
  let rules := route_rules ds <$> Routes root in
  mkConfig (build_service <$> Services root) lls hls
    (foldl (λ m l, <[ll_Name l := l]> m) ∅ lls) (foldl (λ m h, <[hl_Name h := h]> m) ∅ hls)
    (concat rules.*1) (concat rules.*2) ds.

(** * Servers *)

(** What [makeServersForGroup] makes of a listener; [SrvNil] is the nil [*Server]
    that [NewServer] returns, without an error, when the listener has no zone
    configuration. *)
Inductive server :=
  | SrvCtrl (l : ListenerList)
  | SrvProxy (l : ListenerList) (chain : list ChainRoute)
  | SrvAdmin (l : ListenerList)
  | SrvDns (l : ListenerList)
  | SrvChain (l : ListenerList)
  | SrvNil.

Inductive make_err := ErrServiceEmpty | ErrTransport (name : string) | ErrNilListener (name : string).

Section make.
(** The transports and codecs registered by the packages of the binary, and the
    zones for which some plugin was set up. *)
Variable has_transport has_codec : string → bool.
Variable has_zone : string → bool.

Definition zone_key (l : ListenerList) : string := ll_Transport l +:+ "://" +:+ ll_Addr l.

(** The servers of one listener; admin listeners are set aside. *)
Definition make_server (cfg : Config) (l : ListenerList) : result make_err (list server * list ListenerList) :=
  let typ := ll_Type l in
  if String.eqb typ "ctrlproxy" then Ok ([SrvCtrl l], [])
  else if String.eqb typ "proxy" then
    let chain := filter (λ cr, cr_ProxyName cr = ll_Name l) (ChainRoutes cfg) in
    let codec := InCodec (ll_Settings l) in
    if str_empty codec || has_codec codec then Ok ([SrvProxy l chain], []) else Ok ([], [])
  else if String.eqb typ "admin" then Ok ([], [l])
  else if String.eqb typ "dns" then Ok ([SrvDns l], [])
  else if negb (String.eqb (ll_Transport l) "udp") && negb (has_transport (ll_Transport l))
  then Err (ErrTransport (ll_Transport l))
  else Ok ([if has_zone (zone_key l) then SrvChain l else SrvNil], []).

(** A listener name that is not in the map is a nil pointer, which panics. *)
Definition make_listener (cfg : Config) (acc : list server * list ListenerList) (ls : Listeners)
    : result make_err (list server * list ListenerList) :=
  match ListenerMap cfg !! ln_ListenerName ls with
  | None => Err (ErrNilListener (ln_ListenerName ls))
  | Some l => '(ss, admins) ← make_server cfg l; Ok (acc.1 ++ ss, acc.2 ++ admins)
  end.

Definition make_service (cfg : Config) (acc : list server * list ListenerList) (srv : Service)
    : result make_err (list server * list ListenerList) :=
  if String.eqb (svc_Type srv) serverType then loop (make_listener cfg) acc (svc_Listeners srv) else Ok acc.

Definition makeServersForGroup (cfg : Config) (srvList : list Service) : result make_err (list server) :=
  '(servers, admins) ← loop (make_service cfg) ([], []) srvList;
  Ok (servers ++ (SrvAdmin <$> admins)).

Definition MakeServers (cfg : Config) : result make_err (list server) :=
  match cfg_Service cfg with
  | [] => Err ErrServiceEmpty
  | ss => makeServersForGroup cfg ss
  end.
End make.

(** [listenTCP]: whether a listener wraps its connections in TLS (the star and
    admin listeners ask it; it fails without a loadable key pair). *)
Definition listenTCP_tls (s : Settings) : bool := TLS s.

(** [findListenerSettings] *)
Definition empty_settings : Settings := mkSettings "" "" "" "" false "" "" "" "" [] [] ∅ [].

Definition findListenerSettings (cfg : Config) (network addr : string) : Settings :=
  default empty_settings (ll_Settings <$>
    list_find (λ l, ll_Addr l = addr ∧ (ll_Transport l = network ∨ ll_Type l = network)) (ListenerLists cfg)
      ≫= λ x, ListenerLists cfg !! x.1).

(** * Lemmas *)

Lemma lookup_by_name {A} (name : A → string) (l : list A) (m : gmap string A) x :
  NoDup (name <$> l) → x ∈ l → foldl (λ m a, <[name a := a]> m) m l !! name x = Some x.
Proof.
  revert m. induction l as [|a l IH]; intros m Hnd Hx; [by apply elem_of_nil in Hx|].
  rewrite fmap_cons in Hnd. apply NoDup_cons in Hnd as [Ha Hnd]. cbn [foldl].
  apply elem_of_cons in Hx as [->|Hx]; [|by apply IH]. clear IH.
  assert (∀ m' : gmap string A, m' !! name a = Some a → foldl (λ m b, <[name b := b]> m) m' l !! name a = Some a) as Hg.
  { clear m Hnd. induction l as [|b l IH]; intros m' Hm; [done|]. cbn [foldl].
    rewrite fmap_cons, not_elem_of_cons in Ha. apply IH; [tauto|]. rewrite lookup_insert_ne; [done|]. by intros ?; destruct Ha. }
  apply Hg. apply lookup_insert_eq.
Qed.

(** The ingresses of a configuration, in order. *)
Definition ingresses (root : Root) : list IngressSpec := concat (sv_Ingress <$> Services root).

Lemma concat_fmap_fmap {A B C} (g : A → list B) (f : B → C) (l : list A) :
  concat ((λ x, f <$> g x) <$> l) = f <$> concat (g <$> l).
Proof. induction l as [|x l IH]; [done|]. cbn. by rewrite IH, fmap_app. Qed.

Lemma listener_lists root : ListenerLists (buildRuntimeConfig root) = ingress_listener <$> ingresses root.
Proof. apply concat_fmap_fmap. Qed.

Lemma ingress_listener_name ing : ll_Name (ingress_listener ing) = ing_Name ing.
Proof. unfold ingress_listener. by repeat case_match. Qed.

Lemma listener_map root ing :
  NoDup (ingress_names root) → ing ∈ ingresses root →
  ListenerMap (buildRuntimeConfig root) !! ing_Name ing = Some (ingress_listener ing).
Proof.
  intros Hnd Hin. unfold buildRuntimeConfig. cbn [ListenerMap].
  change (concat ((λ svc, ingress_listener <$> sv_Ingress svc) <$> Services root))
    with (ListenerLists (buildRuntimeConfig root)). rewrite listener_lists, <- ingress_listener_name.
  apply lookup_by_name; [|by apply list_elem_of_fmap_2]. rewrite <- list_fmap_compose.
  assert (ll_Name ∘ ingress_listener <$> ingresses root = ingress_names root) as ->; [|done].
  unfold ingress_names. rewrite concat_fmap_fmap. apply list_fmap_ext. intros. apply ingress_listener_name.
Qed.

Section servers.
Variable has_transport has_codec has_zone : string → bool.

(** The server an ingress asks for, and whether it is an admin one. *)
Definition ingress_server (cfg : Config) (ing : IngressSpec) : list server * list ListenerList :=
  match make_server has_transport has_codec has_zone cfg (ingress_listener ing) with
  | Ok r => r
  | Err _ => ([], [])
  end.

Definition transport_ok (ing : IngressSpec) : Prop :=
  ing_Handler ing ∈ ["star"; "admin"; "dns"; ""]%string ∨
  ll_Transport (ingress_listener ing) = "udp"%string ∨
  has_transport (ll_Transport (ingress_listener ing)) = true.

Lemma make_server_ok cfg ing :
  transport_ok ing →
  make_server has_transport has_codec has_zone cfg (ingress_listener ing) = Ok (ingress_server cfg ing).
Proof.
  intros Hok. unfold ingress_server.
  destruct (make_server _ _ _ _ _) as [|e] eqn:E; [done|]. exfalso. revert E Hok.
  unfold transport_ok, ingress_listener, make_server.
  destruct (String.eqb_spec (ing_Handler ing) "star"); [done|].
  destruct (String.eqb_spec (ing_Handler ing) "admin"); [done|].
  destruct (String.eqb_spec (ing_Handler ing) "dns"); [done|].
  destruct (str_empty (ing_Handler ing)) eqn:He; cbn [ll_Type ll_Settings ll_Transport String.eqb Ascii.eqb Bool.eqb].
  { by repeat case_match. }
  apply str_empty_false in He.
  set (tr := if str_empty (ing_Transport ing) then _ else _).
  destruct (String.eqb_spec tr "udp"); simpl; [done|].
  destruct (has_transport tr) eqn:Ht; simpl; [done|]. intros _ [Hin|[?|?]]; [|done..].
  repeat (apply elem_of_cons in Hin as [?|Hin]; [done|]). by apply elem_of_nil in Hin.
Qed.

Lemma make_listeners cfg acc ings :
  (∀ ing, ing ∈ ings → ListenerMap cfg !! ing_Name ing = Some (ingress_listener ing)) →
  Forall transport_ok ings →
  loop (make_listener has_transport has_codec has_zone cfg) acc
    ((λ ing, mkListeners (ing_Name ing) (ing_Handler ing)) <$> ings) =
  Ok (acc.1 ++ concat (ingress_server cfg <$> ings).*1, acc.2 ++ concat (ingress_server cfg <$> ings).*2).
Proof.
  revert acc. induction ings as [|ing ings IH]; intros acc Hm Hok; cbn [fmap list_fmap loop concat].
  { rewrite !app_nil_r. by destruct acc. }
  apply Forall_cons in Hok as [Hi Hok]. 
  assert (make_listener has_transport has_codec has_zone cfg acc (mkListeners (ing_Name ing) (ing_Handler ing)) =
    Ok (acc.1 ++ (ingress_server cfg ing).1, acc.2 ++ (ingress_server cfg ing).2)) as ->.
  { unfold make_listener. cbn [ln_ListenerName]. rewrite Hm by (by left). rewrite make_server_ok by done.
    by destruct (ingress_server cfg ing). }
  cbn [mbind result_bind mret result_ret]. rewrite IH; [|intros; apply Hm; by right|done]. cbn [fst snd].
  by rewrite !app_assoc.
Qed.

(** The servers of a valid configuration. *)
Lemma MakeServers_ingresses root :
  validate root = Ok tt → Services root ≠ [] → Forall transport_ok (ingresses root) →
  let cfg := buildRuntimeConfig root in
  let rs := ingress_server cfg <$> ingresses root in
  MakeServers has_transport has_codec has_zone cfg = Ok (concat rs.*1 ++ (SrvAdmin <$> concat rs.*2)).
Proof.
  intros (_ & Hnd & _)%validate_spec Hne Hok cfg rs.
  assert (∀ svcs acc, (∀ ing, ing ∈ concat (sv_Ingress <$> svcs) → ing ∈ ingresses root) →
    loop (make_service has_transport has_codec has_zone cfg) acc (build_service <$> svcs) =
    let rs := ingress_server cfg <$> concat (sv_Ingress <$> svcs) in
    Ok (acc.1 ++ concat rs.*1, acc.2 ++ concat rs.*2)) as Hloop.
  { induction svcs as [|svc svcs IH]; intros acc Hin; cbn [fmap list_fmap loop concat].
    { simpl. rewrite !app_nil_r. by destruct acc. }
    assert (∀ acc, make_service has_transport has_codec has_zone cfg acc (build_service svc) =
      loop (make_listener has_transport has_codec has_zone cfg) acc
        ((λ ing, mkListeners (ing_Name ing) (ing_Handler ing)) <$> sv_Ingress svc)) as -> by done.
    rewrite make_listeners.
    - cbn [mbind result_bind]. rewrite IH; [|intros ing Hing; apply Hin; set_solver]. cbn [fst snd].
      by rewrite !fmap_app, !concat_app, !app_assoc.
    - intros ing Hing. apply listener_map; [done|]. apply Hin. set_solver.
    - rewrite Forall_forall in Hok |- *. intros ing Hing. apply Hok, Hin. set_solver. }
  unfold MakeServers. change (cfg_Service cfg) with (build_service <$> Services root).
  assert (build_service <$> Services root ≠ []) as Hne' by (by destruct (Services root)).
  destruct (build_service <$> Services root) as [|s ss] eqn:E; [done|]. rewrite <- E.
  unfold makeServersForGroup. by rewrite Hloop.
Qed.


End servers.

(** The credentials of a star ingress become one client entry per stream, and
    nothing else: an entry carries the credential's name and password and never
    a target address, and a credential that lists no stream contributes no entry
    at all, so its password is unknown to the server. *)
Theorem credentials_expanded creds cp :
  cp ∈ credential_proxies creds ↔
    ∃ cred stream, cred ∈ creds ∧ stream ∈ cred_Streams cred ∧
      cp = mkClientProxy (cred_Name cred) stream "" "" (cred_KeyPassword cred).
Proof.
  unfold credential_proxies. induction creds as [|c creds IH]; cbn [fmap list_fmap concat].
  - split; [by intros ?%elem_of_nil|]. by intros (?&?&?%elem_of_nil&_).
  - rewrite elem_of_app, IH, list_elem_of_fmap. setoid_rewrite elem_of_cons. naive_solver.
Qed.

(** The transport of a star or admin ingress is ignored: whatever the ingress
    declares, tls included, the settings its listener gets say [TLS = false], so
    [listenTCP] opens a plain TCP listener even when a certificate and a key are
    configured; the certificate and key themselves are copied. *)
Theorem ingress_never_tls ing :
  listenTCP_tls (ll_Settings (ingress_listener ing)) = false ∧
  (ing_Transport ing ≠ "" → ll_Transport (ingress_listener ing) = ing_Transport ing)%string ∧
  CertFile (ll_Settings (ingress_listener ing)) = ix_CertFile (ing_Settings ing) ∧
  KeyFile (ll_Settings (ingress_listener ing)) = ix_KeyFile (ing_Settings ing).
Proof.
  unfold listenTCP_tls, ingress_listener. cbn zeta.
  destruct (String.eqb (ing_Handler ing) "star"), (String.eqb (ing_Handler ing) "admin"),
    (String.eqb (ing_Handler ing) "dns"), (str_empty (ing_Handler ing));
    simpl; split_and!; try done; intros ?%str_empty_false; by case_match.
Qed.

(** Routes are expanded faithfully: on a valid configuration, a connect rule
    or a chain route exists exactly when some declared route leads there. Routes
    to an outbound star dialer give chain routes (one with an empty stream when
    none is listed) and no connect rule; all others give connect rules with the
    dialer's identity, one per stream, or one that matches any stream. *)
Theorem routes_expanded root :
  validate root = Ok tt →
  let cfg := buildRuntimeConfig root in
  (∀ c, c ∈ cfg_Routes cfg ↔ ∃ rt d, rt ∈ Routes root ∧ d ∈ Dialers root ∧ rt_To rt = dl_Name d ∧
     ¬ (dl_Type d = "star" ∧ dl_Role d = "outbound")%string ∧
     ∃ s, c = mkConnectItem (rt_Ingress rt) "" (dl_Identity d) s ∧
       match rt_Streams rt with [] => s = ""%string | ss => s ∈ ss end) ∧
  (∀ c, c ∈ ChainRoutes cfg ↔ ∃ rt d, rt ∈ Routes root ∧ d ∈ Dialers root ∧ rt_To rt = dl_Name d ∧
     (dl_Type d = "star" ∧ dl_Role d = "outbound")%string ∧
     ∃ s, c = mkChainRoute (rt_Ingress rt) (dl_Name d) (dl_Identity d) s ∧
       match rt_Streams rt with [] => s = ""%string | ss => s ∈ ss end).
Proof.
  intros (_ & _ & _ & _ & Hnd & Hr)%validate_spec. cbn zeta. unfold buildRuntimeConfig. cbn [cfg_Routes ChainRoutes].
  rewrite Forall_forall in Hr.
  assert (∀ rt, rt ∈ Routes root → ∃ d, dialer_by_name (Dialers root) !! rt_To rt = Some d ∧ d ∈ Dialers root ∧ rt_To rt = dl_Name d) as Hd.
  { intros rt Hrt. pose proof (Hr _ Hrt) as (d & Hto & Hin)%list_elem_of_fmap. exists d. split; [|done].
    rewrite Hto. by apply (lookup_by_name dl_Name). }
  assert (∀ d d', d ∈ Dialers root → d' ∈ Dialers root → dl_Name d = dl_Name d' → d = d') as Hinj.
  { intros d d' H1 H2 He. pose proof (lookup_by_name dl_Name _ ∅ d Hnd H1) as E1.
    pose proof (lookup_by_name dl_Name _ ∅ d' Hnd H2) as E2. rewrite He in E1. congruence. }
  assert (∀ (s : string) rt, s ∈ match rt_Streams rt with [] => [""%string] | ss => ss end ↔
    match rt_Streams rt with [] => s = ""%string | ss => s ∈ ss end) as Hst.
  { intros s rt. destruct (rt_Streams rt); [|done]. apply list_elem_of_singleton. }
  assert (∀ d, String.eqb (dl_Type d) "star" && String.eqb (dl_Role d) "outbound" = true ↔
    (dl_Type d = "star" ∧ dl_Role d = "outbound")%string) as Hout.
  { intros d. by rewrite andb_true_iff, !String.eqb_eq. }
  assert (∀ rt d, rt ∈ Routes root → d ∈ Dialers root → rt_To rt = dl_Name d →
    dialer_by_name (Dialers root) !! rt_To rt = Some d) as Hlk.
  { intros rt d Hrt Hin Hto. destruct (Hd _ Hrt) as (d' & Hd' & Hin' & Hto').
    rewrite Hd'. f_equal. apply Hinj; congruence. }
  assert (∀ rt d, dialer_by_name (Dialers root) !! rt_To rt = Some d →
    route_rules (dialer_by_name (Dialers root)) rt =
    let streams := match rt_Streams rt with [] => [""%string] | ss => ss end in
    if String.eqb (dl_Type d) "star" && String.eqb (dl_Role d) "outbound"
    then ([], (λ s, mkChainRoute (rt_Ingress rt) (dl_Name d) (dl_Identity d) s) <$> streams)
    else ((λ s, mkConnectItem (rt_Ingress rt) "" (dl_Identity d) s) <$> streams, [])) as Hrr.
  { intros rt d Hl. unfold route_rules. rewrite Hl. destruct (_ && _); [done|]. by destruct (rt_Streams rt). }
  split; intros c; rewrite <- list_fmap_compose, list_elem_of_concat; split.
  - intros (l & Hc & (rt & -> & Hrt)%list_elem_of_fmap). destruct (Hd _ Hrt) as (d & Hl & Hin & Hto).
    simpl in Hc. rewrite (Hrr _ _ Hl) in Hc. cbn zeta in Hc.
    destruct (_ && _) eqn:Eo in Hc; [by apply elem_of_nil in Hc|].
    exists rt, d. split_and!; try done; [rewrite <- Hout; congruence|].
    apply list_elem_of_fmap in Hc as (s & -> & Hs). exists s. split; [done|]. by apply Hst.
  - intros (rt & d & Hrt & Hin & Hto & Hno & s & -> & Hs). eexists. split; [|by apply list_elem_of_fmap_2].
    simpl. rewrite (Hrr _ _ (Hlk _ _ Hrt Hin Hto)). cbn zeta. destruct (_ && _) eqn:Eo; [by apply Hout in Eo|].
    cbn [fst]. apply list_elem_of_fmap. exists s. split; [done|]. by apply Hst.
  - intros (l & Hc & (rt & -> & Hrt)%list_elem_of_fmap). destruct (Hd _ Hrt) as (d & Hl & Hin & Hto).
    simpl in Hc. rewrite (Hrr _ _ Hl) in Hc. cbn zeta in Hc.
    destruct (_ && _) eqn:Eo in Hc; [|by apply elem_of_nil in Hc].
    apply Hout in Eo as [Hty Hro]. exists rt, d. split_and!; try done.
    apply list_elem_of_fmap in Hc as (s & -> & Hs). exists s. split; [done|]. by apply Hst.
  - intros (rt & d & Hrt & Hin & Hto & Ho & s & -> & Hs). eexists. split; [|by apply list_elem_of_fmap_2].
    simpl. rewrite (Hrr _ _ (Hlk _ _ Hrt Hin Hto)). cbn zeta. rewrite (proj2 (Hout d) Ho).
    cbn [snd]. apply list_elem_of_fmap. exists s. split; [done|]. by apply Hst.
Qed.

(** * A concrete configuration *)

Definition demo_extra (creds : list Credential) : IngressExtra :=
  mkIngressExtra "admin" "root" creds "" "" "cert.pem" "key.pem" ∅ [].

Definition demo_root : Root := mkRoot
  [mkServiceSpec "edge"
     [mkIngressSpec "tunnel" "tls" ":7000" "star" (demo_extra [mkCredential "home" "pw" ["ssh"; "web"]]);
      mkIngressSpec "api" "" ":9000" "admin" (demo_extra []);
      mkIngressSpec "in" "" ":2222" "" (demo_extra [])] []]
  [] [mkDialerSpec "home" "star" "" "" "edge:7000" "home" "pw" []]
  [mkRouteSpec "in" "" "" "home" ["ssh"]].

Lemma demo_root_valid : validate demo_root = Ok tt.
Proof. vm_compute. reflexivity. Qed.


Lemma routes_expanded_witness :
  cfg_Routes (buildRuntimeConfig demo_root) = [mkConnectItem "in" "" "home" "ssh"] ∧
  ∃ rt d, rt ∈ Routes demo_root ∧ d ∈ Dialers demo_root ∧ rt_To rt = dl_Name d.
Proof.
  split; [vm_compute; reflexivity|].
  destruct (proj1 (proj1 (routes_expanded demo_root demo_root_valid) (mkConnectItem "in" "" "home" "ssh")))
    as (rt & d & H1 & H2 & H3 & _).
  - vm_compute. left.
  - exists rt, d. split; [exact H1|]. split; [exact H2|exact H3].
Defined.
