(* ===== verification/CtrlProxy.v ===== *)
(** The tunnel server's control listener (internal/handler/star/ctrlproxy.go):
    credentials, connected clients, the dispatch of every message a client
    sends, chained connections, and what happens when a session ends. *)
From S2P Require Import Prelude Message TextCodec Window StreamTable CtrlHub Adapter Handshake Config Register.
From Stdlib Require Import ZArith Lia.

(** * State *)

Record clientInfo := mkClientInfo {
  cl_Name : string; cl_Identity : string; cl_Remote : string; cl_Since : Z }.

Record ClientInfo := mkClientInfoSnapshot {
  cis_Name : string; cis_Identity : string; cis_Remote : string; cis_Since : Z; cis_Streams : nat }.

(** Of [CtrlProxyServer]: the shared settings and hub and the connected clients,
    with the session and the chained-connection hub ([feed]) that each
    [handleConn] holds. *)
Record CtrlProxyServer := mkServer {
  settings : Settings;
  hub : CtrlHub;
  clients : gmap session_id clientInfo;
  sessions : gmap session_id Session;
  feeds : gmap session_id StreamHub;
}.

Definition NewCtrlProxyServer (s : Settings) (h : CtrlHub) : CtrlProxyServer := mkServer s h ∅ ∅ ∅.

Definition with_hub (sv : CtrlProxyServer) (h : CtrlHub) : CtrlProxyServer :=
  mkServer (settings sv) h (clients sv) (sessions sv) (feeds sv).
Definition with_sessions (sv : CtrlProxyServer) (m : gmap session_id Session) : CtrlProxyServer :=
  mkServer (settings sv) (hub sv) (clients sv) m (feeds sv).
Definition with_feeds (sv : CtrlProxyServer) (m : gmap session_id StreamHub) : CtrlProxyServer :=
  mkServer (settings sv) (hub sv) (clients sv) (sessions sv) m.

Definition set_proxies (s : Settings) (cps : list ClientProxy) : Settings :=
  mkSettings (CtrlProxyName s) (ProxyName s) (KeyPassword s) (AdminPassword s) (TLS s) (CertFile s)
    (KeyFile s) (Target s) (InCodec s) (Connect s) cps (DNSZones s) (DNSUpstreams s).

Definition with_proxies (sv : CtrlProxyServer) (cps : list ClientProxy) : CtrlProxyServer :=
  mkServer (set_proxies (settings sv) cps) (hub sv) (clients sv) (sessions sv) (feeds sv).

(** * Credentials *)

(** [creds]: password to identity; the administrator's password maps to "". *)
Definition creds (sv : CtrlProxyServer) : gmap string string :=
  let m := foldl (λ m cp, if str_empty (cp_KeyPassword cp) then m
                          else <[cp_KeyPassword cp := cp_ClientProxyName cp]> m)
             ∅ (ClientProxies (settings sv)) in
  if str_empty (KeyPassword (settings sv)) then m else <[KeyPassword (settings sv) := ""%string]> m.

Definition same_proxy (name streamId : string) (cp : ClientProxy) : bool :=
  String.eqb (cp_ClientProxyName cp) name && String.eqb (cp_StreamId cp) streamId.

Definition AddClientProxy (sv : CtrlProxyServer) (cp : ClientProxy) : CtrlProxyServer * bool :=
  if existsb (same_proxy (cp_ClientProxyName cp) (cp_StreamId cp)) (ClientProxies (settings sv)) then (sv, false)
  else (with_proxies sv (ClientProxies (settings sv) ++ [cp]), true).

(** Removes the first element that satisfies a predicate. *)
Fixpoint remove_first {A} (f : A → bool) (l : list A) : option (list A) :=
  match l with
  | [] => None
  | x :: l => if f x then Some l else cons x <$> remove_first f l
  end.

Definition RemoveClientProxy (sv : CtrlProxyServer) (name streamId : string) : CtrlProxyServer * bool :=
  match remove_first (same_proxy name streamId) (ClientProxies (settings sv)) with
  | Some cps => (with_proxies sv cps, true)
  | None => (sv, false)
  end.

Definition Clients (sv : CtrlProxyServer) : list ClientInfo :=
  (λ '(_, i), mkClientInfoSnapshot (cl_Name i) (cl_Identity i) (cl_Remote i) (cl_Since i)
     (length (FindByClientProxy (Streams (hub sv)) (cl_Identity i)))) <$> map_to_list (clients sv).

(** [Kick] closes these sessions; each then ends on its own. *)
Definition Kick (sv : CtrlProxyServer) (name : string) : list session_id :=
  (filter (λ x, cl_Identity x.2 = name) (map_to_list (clients sv))).*1.

Definition identityOrAny (identity : string) : string := if str_empty identity then "*"%string else identity.

Section server.
Context `{!ControlJson}.
(** fmt's [%q]. *)
Variable quote : string → string.

(** Sending on a client's session; errors are ignored or logged. *)
Definition send_to (sv : CtrlProxyServer) (sid : session_id) (m : Message) : CtrlProxyServer :=
  match sessions sv !! sid with
  | Some s => match Send s m with
              | Ok s' => with_sessions sv (<[sid := s']> (sessions sv))
              | Err _ => sv
              end
  | None => sv
  end.

(** * A new connection *)

(** [handleConn] up to its loop: the identity is the one of the password that
    [verify] accepted. *)
Definition connect (sv : CtrlProxyServer) (sid : session_id) (conn : Session) (remote : string) (now : Z)
    : CtrlProxyServer * bool :=
  let cs := creds sv in
  match ServerHandshakeVerify conn (Some (λ req, bool_decide (is_Some (cs !! hr_KeyPassword req)))) with
  | (_, Err _) => (sv, false)
  | (s, Ok req) =>
      let identity := default ""%string (cs !! hr_KeyPassword req) in
      (mkServer (settings sv) (hub sv)
         (<[sid := mkClientInfo (hr_ClientName req) identity remote now]> (clients sv))
         (<[sid := s]> (sessions sv)) (<[sid := NewStreamHub]> (feeds sv)), true)
  end.

(** * Messages *)

Definition not_allowed (name : string) : string :=
  "clientProxyName " +:+ quote name +:+ " not allowed for this credential".

Definition forbidden (identity name : string) : bool :=
  negb (str_empty identity) && negb (String.eqb name identity).

(** The callback [handleConn] gives to [ServerRegisterStream]. *)
Definition assign_stream (identity : string) (sid : session_id) (now : Z) (t : StreamTable)
    (r : RegisterStreamReq) : StreamTable * result string Z :=
  if forbidden identity (rr_ClientProxyName r) then (t, Err (not_allowed (rr_ClientProxyName r)))
  else
    match Assign t sid r now with
    | (t, Ok id) => (t, Ok id)
    | (t, Err (ErrDuplicateStream key)) => (t, Err ("stream " +:+ key +:+ " already registered"))
    end.

(** A chained connection to dial: the session, the connection and the target. *)
Record dial := mkDial { d_session : session_id; d_loc : stream_loc; d_connID : Z; d_target : string }.

Definition chain_target (sv : CtrlProxyServer) (name streamId : string) : string :=
  match filter (λ cp, same_proxy name streamId cp = true) (ClientProxies (settings sv)) with
  | cp :: _ => cp_Addr cp
  | [] => ""%string
  end.

Definition handleClientConnReq (sv : CtrlProxyServer) (sid : session_id) (identity : string) (m : Message)
    : CtrlProxyServer * list dial :=
  match DecodeControl m with
  | Err _ => (sv, [])
  | Ok creq =>
      let fail reason :=
        (send_to sv sid (control_message MsgClientConnAck (mkClientConnAck (cc_ConnID creq) false reason)), []) in
      if forbidden identity (cc_ClientProxyName creq) then fail (not_allowed (cc_ClientProxyName creq))
      else
        match GetByName (Streams (hub sv)) (cc_ClientProxyName creq) (cc_StreamId creq) with
        | None => fail ("unknown stream " +:+ cc_ClientProxyName creq +:+ "/" +:+ cc_StreamId creq)
        | Some _ =>
            let target := chain_target sv (cc_ClientProxyName creq) (cc_StreamId creq) in
            if str_empty target then fail "stream has no target address"%string
            else
              match feeds sv !! sid with
              | None => (sv, [])
              | Some feed =>
                  match NewHubConn feed (cc_ConnID creq) with
                  | (_, None) => fail "session closing"%string
                  | (feed, Some l) =>
                      (send_to (with_feeds sv (<[sid := feed]> (feeds sv))) sid
                         (control_message MsgClientConnAck (mkClientConnAck (cc_ConnID creq) true "")),
                       [mkDial sid l (cc_ConnID creq) target])
                  end
              end
        end
  end.

(** The [switch] of the read loop; [None] while it blocks. *)
Definition dispatch (pick : bool) (now : Z) (sv : CtrlProxyServer) (sid : session_id) (identity : string)
    (m : Message) : option (CtrlProxyServer * list dial) :=
  let t := Type_ m in
  if bool_decide (t = MsgRegisterStream) then
    match sessions sv !! sid with
    | None => Some (sv, [])
    | Some s =>
        let '(tbl, s, _) := ServerRegisterStream (Streams (hub sv)) s m (Some (assign_stream identity sid now)) in
        Some (with_sessions (with_hub sv (with_streams (hub sv) tbl)) (<[sid := s]> (sessions sv)), [])
    end
  else if bool_decide (t = MsgConnOpenAck) then
    match DecodeControl m with
    | Err _ => Some (sv, [])
    | Ok ack => Some (with_hub sv (DeliverConnAck (hub sv) ack), [])
    end
  else if bool_decide (t = MsgPing) then
    Some (send_to sv sid (mkMessage MsgPong x00 (StreamID m) (Payload m)), [])
  else if bool_decide (t = MsgData) then
    match Downlink pick (hub sv) (StreamID m) (Payload m) with
    | None => None
    | Some (h, _) => Some (with_hub sv h, [])
    end
  else if bool_decide (t = MsgStreamClose) then
    if negb (IsHalfClose m) then
      if HasConn (hub sv) (StreamID m) then Some (with_hub sv (CloseConn (hub sv) (StreamID m) false).1.1, [])
      else Some (with_hub sv (with_streams (hub sv) (Remove (Streams (hub sv)) (StreamID m))), [])
    else Some (with_hub sv (ClientClosed (hub sv) (StreamID m)).1, [])
  else if bool_decide (t = MsgWindowUpdate) then
    match DecodeControl m with
    | Err _ => Some (sv, [])
    | Ok wu => Some (with_hub sv (WindowRelease (hub sv) (wu_ConnID wu) (wu_Delta wu)), [])
    end
  else if bool_decide (t = MsgClientConnReq) then Some (handleClientConnReq sv sid identity m)
  else Some (sv, []).

(** One iteration of the loop on a received message: data and close frames go
    to the feed of chained connections first. *)
Definition handle (pick : bool) (now : Z) (sv : CtrlProxyServer) (sid : session_id) (m : Message)
    : option (CtrlProxyServer * list dial) :=
  match clients sv !! sid, feeds sv !! sid with
  | Some info, Some feed =>
      if bool_decide (Type_ m = MsgData) || bool_decide (Type_ m = MsgStreamClose) then
        match Feed pick feed m with
        | None => None
        | Some (feed, true) => Some (with_feeds sv (<[sid := feed]> (feeds sv)), [])
        | Some (_, false) => dispatch pick now sv sid (cl_Identity info) m
        end
      else dispatch pick now sv sid (cl_Identity info) m
  | _, _ => Some (sv, [])
  end.

(** * The end of a session *)

Definition disconnect (sv : CtrlProxyServer) (sid : session_id) : CtrlProxyServer :=
  let h := (CloseConnsByClient (hub sv) sid).1 in
  let h := with_streams h (RemoveByClient (Streams h) sid).1 in
  mkServer (settings sv) h (delete sid (clients sv)) (delete sid (sessions sv))
    (alter SessionClosed sid (feeds sv)).
End server.

(** * What the table's operations do to lookups *)

Lemma Get_Assign t client req now id e :
  table_inv t → Get (Assign t client req now).1 id = Some e →
  Get t id = Some e ∨
    se_Client e = client ∧ se_ClientProxyName e = rr_ClientProxyName req ∧ se_StreamId e = rr_StreamId req.
Proof.
  intros Hinv. unfold Assign. case_match; [by left|]. unfold Get. simpl.
  intros (l & [[_ <-]|[_ Hl]]%lookup_insert_Some & He)%bind_Some.
  - right. unfold entry_at in He. simpl in He. rewrite list_lookup_middle in He by done. by simplify_eq.
  - left. apply bind_Some. exists l. split; [done|]. destruct (ti_byID _ Hinv _ _ Hl) as (e' & He' & _).
    unfold entry_at in *. simpl in He. rewrite (lookup_app_l_Some _ _ _ _ He') in He. congruence.
Qed.

Lemma Get_Remove t id' id e : Get (Remove t id') id = Some e → Get t id = Some e.
Proof.
  unfold Remove. case_match; [|done]. unfold Get. simpl. intros (l & [_ Hl]%lookup_delete_Some & He)%bind_Some.
  apply bind_Some. by exists l.
Qed.

Lemma Get_add_bytes t l i o id e :
  Get (add_bytes t l i o) id = Some e →
  ∃ e', Get t id = Some e' ∧ se_Client e = se_Client e' ∧ se_ClientProxyName e = se_ClientProxyName e'.
Proof.
  intros (lo & Hl & He)%bind_Some. apply entry_at_add_bytes in He as (e' & He' & _ & Hn & _ & Hc).
  exists e'. split; [|done]. apply bind_Some. by exists lo.
Qed.

(** * The invariant *)

(** Every registered stream belongs to a connected client whose identity may
    register it. *)
Definition owned (cl : gmap session_id clientInfo) (t : StreamTable) : Prop :=
  ∀ id e, Get t id = Some e → ∃ info, cl !! se_Client e = Some info ∧
    (cl_Identity info = ""%string ∨ cl_Identity info = se_ClientProxyName e).

Record hub_ok (cl : gmap session_id clientInfo) (h : CtrlHub) : Prop := {
  ho_inv : hub_inv h;
  ho_table : table_inv (Streams h);
  ho_owned : owned cl (Streams h);
}.

Definition sv_inv (sv : CtrlProxyServer) : Prop := hub_ok (clients sv) (hub sv).

Section inv.
Context `{!ControlJson} (quote : string → string).

Lemma forbidden_false identity name :
  forbidden identity name = false ↔ identity = ""%string ∨ name = identity.
Proof.
  unfold forbidden. rewrite andb_false_iff, !negb_false_iff. unfold str_empty. by rewrite !String.eqb_eq.
Qed.

Lemma send_to_hub sv sid m : hub (send_to sv sid m) = hub sv ∧ clients (send_to sv sid m) = clients sv.
Proof. unfold send_to. repeat case_match; done. Qed.

(** A hub operation that leaves the table alone. *)
Lemma hub_ok_same cl h h' : hub_ok cl h → hub_inv h' → Streams h' = Streams h → hub_ok cl h'.
Proof. intros [? ? ?] ? Hs. split; [done|by rewrite Hs..]. Qed.

Lemma hub_ok_count cl h l i o : hub_ok cl h → hub_ok cl (with_streams h (add_bytes (Streams h) l i o)).
Proof.
  intros [Hh Ht Ho]. split; simpl; [by apply hub_inv_streams|by apply table_inv_add_bytes|].
  intros id e (e' & He' & -> & ->)%Get_add_bytes. by eapply Ho.
Qed.

Lemma assign_stream_ok cl h sid info now r :
  hub_ok cl h → cl !! sid = Some info → st_seq (Streams h) + 1 < 2 ^ 32 →
  hub_ok cl (with_streams h (assign_stream quote (cl_Identity info) sid now (Streams h) r).1).
Proof.
  intros [Hh Ht Ho] Hcl Hseq. unfold assign_stream.
  destruct (forbidden _ _) eqn:Hf; [by split; [apply hub_inv_streams|..]|]. apply forbidden_false in Hf.
  assert ((match Assign (Streams h) sid r now with
    | (t, Ok id) => (t, Ok id)
    | (t, Err (ErrDuplicateStream key)) => (t, Err ("stream " +:+ key +:+ " already registered"))
    end).1 = (Assign (Streams h) sid r now).1) as ->.
  { destruct (Assign _ _ _ _) as [t [id|[k]]]; done. }
  split; simpl; [by apply hub_inv_streams|by apply table_inv_Assign|].
  intros id e [He|(Hc & Hn & _)]%Get_Assign; [by eapply Ho| |done].
  rewrite Hc, Hn. exists info. split; [done|]. naive_solver.
Qed.

Lemma ServerRegisterStream_state {St} (st : St) s m f :
  (ServerRegisterStream st s m (Some f)).1.1 = st ∨ ∃ r, (ServerRegisterStream st s m (Some f)).1.1 = (f st r).1.
Proof.
  unfold ServerRegisterStream. case_match; [by left|]. destruct (DecodeControl m) as [r|]; [|by left]. right. exists r.
  destruct (f st r) as [st' [id|msg]]; by destruct (SendControl _ _ _).
Qed.

Lemma hub_ok_stream_steps cl h :
  hub_ok cl h → ∀ id ack d, hub_ok cl (CloseConn h id d).1.1 ∧ hub_ok cl (ClientClosed h id).1 ∧
    hub_ok cl (DeliverConnAck h ack) ∧ hub_ok cl (with_streams h (Remove (Streams h) id)) ∧
    ∀ delta, hub_ok cl (WindowRelease h id delta).
Proof.
  intros Hok id ack d. pose proof (ho_inv _ _ Hok) as Hinv. split_and!.
  - eapply hub_ok_same; [done|by apply hub_inv_CloseConn|]. unfold CloseConn. by repeat case_match.
  - eapply hub_ok_same; [done|by apply hub_inv_ClientClosed|]. unfold ClientClosed. by case_match.
  - eapply hub_ok_same; [done|by apply hub_inv_DeliverConnAck|]. unfold DeliverConnAck. by case_match.
  - destruct Hok as [? ? Ho]. split; simpl; [by apply hub_inv_streams|by apply table_inv_Remove|].
    intros i e He%Get_Remove. by eapply Ho.
  - intros delta. eapply hub_ok_same; [done|by apply hub_inv_WindowRelease|]. unfold WindowRelease. by case_match.
Qed.

Lemma hub_ok_Downlink cl p h id payload h' b :
  hub_ok cl h → Downlink p h id payload = Some (h', b) → hub_ok cl h'.
Proof.
  intros Hok Hd. pose proof (hub_inv_Downlink _ _ _ _ _ _ (ho_inv _ _ Hok) Hd) as Hinv'.
  assert (Streams h' = Streams h ∨ ∃ l o, Streams h' = add_bytes (Streams h) l 0 o) as Hs.
  { revert Hd. unfold Downlink. destruct (_ ≫= _) as [[l e]|]; [|intros [= <- _]; by left].
    destruct (_ && _); [|destruct (ce_Done e); [|done]]; intros [= <- _]; simpl; unfold count_out; case_match; eauto. }
  destruct Hs as [Hs|(l & o & Hs)]; [by eapply hub_ok_same|].
  pose proof (hub_ok_count _ _ l 0 o Hok) as [_ Ht Ho]. simpl in *. split; [done|by rewrite Hs..].
Qed.

Lemma handleClientConnReq_hub sv sid identity m :
  hub (handleClientConnReq quote sv sid identity m).1 = hub sv ∧
  clients (handleClientConnReq quote sv sid identity m).1 = clients sv.
Proof.
  unfold handleClientConnReq. repeat case_match; simpl; try done;
    match goal with |- context [send_to ?a ?b ?c] => by destruct (send_to_hub a b c) as [-> ->] end.
Qed.

Lemma sv_inv_dispatch pick now sv sid info m sv' ds :
  sv_inv sv → clients sv !! sid = Some info → st_seq (Streams (hub sv)) + 1 < 2 ^ 32 →
  dispatch quote pick now sv sid (cl_Identity info) m = Some (sv', ds) → sv_inv sv' ∧ clients sv' = clients sv.
Proof.
  unfold sv_inv. intros Hinv Hcl Hseq. unfold dispatch.
  pose proof (hub_ok_stream_steps _ _ Hinv) as Hst.
  case_bool_decide; [|case_bool_decide; [|case_bool_decide; [|case_bool_decide; [|case_bool_decide;
    [|case_bool_decide; [|case_bool_decide]]]]]].
  - destruct (sessions sv !! sid) as [s|]; [|by intros [= <- _]].
    pose proof (ServerRegisterStream_state (Streams (hub sv)) s m (assign_stream quote (cl_Identity info) sid now)) as Hr.
    destruct (ServerRegisterStream _ _ _ _) as [[tbl s'] r]. intros [= <- _]. simpl in *. split; [|done].
    destruct Hr as [->|[rr ->]]; [|by apply assign_stream_ok]. destruct Hinv. split; [by apply hub_inv_streams|done..].
  - destruct (DecodeControl m) as [ack|]; intros [= <- _]; [|done]. split; [|done]. apply (Hst 0 ack false).
  - intros [= <- _]. by destruct (send_to_hub sv sid (mkMessage MsgPong x00 (StreamID m) (Payload m))) as [-> ->].
  - destruct (Downlink _ _ _ _) as [[h b]|] eqn:Hd; [|done]. intros [= <- _]. split; [|done]. by eapply hub_ok_Downlink.
  - case_match; [case_match|]; intros [= <- _]; (split; [|done]); eapply (Hst (StreamID m) (mkConnOpenAck 0 false "") false).
  - destruct (DecodeControl m) as [wu|]; intros [= <- _]; [|done]. split; [|done].
    apply (Hst (wu_ConnID wu) (mkConnOpenAck 0 false "") false).
  - pose proof (handleClientConnReq_hub sv sid (cl_Identity info) m) as [Hh Hc].
    destruct (handleClientConnReq _ _ _ _ _) as [sv1 ds1]. simpl in *. intros [= <- _]. by rewrite Hh, Hc.
  - by intros [= <- _].
Qed.

Lemma sv_inv_handle pick now sv sid m sv' ds :
  sv_inv sv → st_seq (Streams (hub sv)) + 1 < 2 ^ 32 →
  handle quote pick now sv sid m = Some (sv', ds) → sv_inv sv' ∧ clients sv' = clients sv.
Proof.
  intros Hinv Hseq. unfold handle. destruct (clients sv !! sid) as [info|] eqn:Hcl; [|by intros [= <- _]].
  destruct (feeds sv !! sid) as [feed|]; [|by intros [= <- _]]. case_match; [|by eapply sv_inv_dispatch].
  destruct (Feed pick feed m) as [[feed' []]|]; [by intros [= <- _]|by eapply sv_inv_dispatch|done].
Qed.

Lemma CloseConnsByClient_streams h sid : Streams (CloseConnsByClient h sid).1 = Streams h.
Proof. unfold CloseConnsByClient. simpl. by destruct (close_all_fields (filter (λ x, closing h sid x = true)
  (map_to_list (conns h))) (with_conns h (foldl (λ m x, delete x.1 m) (conns h)
    (filter (λ x, closing h sid x = true) (map_to_list (conns h)))))) as (_ & -> & _). Qed.

Lemma sv_inv_disconnect sv sid : sv_inv sv → sv_inv (disconnect sv sid).
Proof.
  unfold sv_inv, disconnect. intros [Hh Ht Ho].
  pose proof (CloseConnsByClient_streams (hub sv) sid) as Hs.
  pose proof (hub_inv_CloseConnsByClient (hub sv) sid Hh) as Hh'.
  set (h1 := (CloseConnsByClient (hub sv) sid).1) in *. clearbody h1. rewrite Hs. split; simpl.
  - by apply hub_inv_streams.
  - by apply RemoveByClient_spec.
  - intros id e [He Hne]%RemoveByClient_Get; [|done].
    destruct (Ho _ _ He) as (info & Hi & Hid). exists info. split; [|done]. by rewrite lookup_delete_ne.
Qed.

Lemma sv_inv_connect sv sid conn remote now :
  sv_inv sv → clients sv !! sid = None → sv_inv (connect sv sid conn remote now).1.
Proof.
  unfold sv_inv, connect. intros [Hh Ht Ho] Hn. destruct (ServerHandshakeVerify _ _) as [s [req|]]; [|done].
  split; simpl; [done..|]. intros id e He. destruct (Ho _ _ He) as (info & Hi & Hid). exists info.
  split; [|done]. rewrite lookup_insert_ne; [done|]. intros ->. congruence.
Qed.

End inv.

(** * Histories of the server *)

(** One event: a connection is accepted, a client's message is handled, a session
    ends; an administrator edits the credentials; another component uses the
    hub without touching the table, or counts traffic; the users of a chained
    connection work on its hub. *)
Inductive sv_step `{!ControlJson} (quote : string → string) : CtrlProxyServer → CtrlProxyServer → Prop :=
  | sv_connect sv sid conn remote now :
      clients sv !! sid = None → sv_step quote sv (connect sv sid conn remote now).1
  | sv_message pick now sv sid m sv' ds :
      st_seq (Streams (hub sv)) + 1 < 2 ^ 32 →
      handle quote pick now sv sid m = Some (sv', ds) → sv_step quote sv sv'
  | sv_disconnect sv sid : sv_step quote sv (disconnect sv sid)
  | sv_add sv cp : sv_step quote sv (AddClientProxy sv cp).1
  | sv_remove sv n s : sv_step quote sv (RemoveClientProxy sv n s).1
  | sv_hub sv h' :
      hub_step (hub sv) h' → Streams h' = Streams (hub sv) → sv_step quote sv (with_hub sv h')
  | sv_count sv l i o :
      sv_step quote sv (with_hub sv (with_streams (hub sv) (add_bytes (Streams (hub sv)) l i o)))
  | sv_feed sv sid f f' :
      feeds sv !! sid = Some f → sh_step f f' → sv_step quote sv (with_feeds sv (<[sid := f']> (feeds sv))).

Section history.
Context `{!ControlJson} (quote : string → string).

Lemma sv_inv_step sv sv' : sv_inv sv → sv_step quote sv sv' → sv_inv sv'.
Proof.
  intros Hinv Hs. revert Hinv. destruct Hs as [| | | | |sv h' Hstep Heq| |]; intros Hinv.
  - by apply sv_inv_connect.
  - by eapply sv_inv_handle.
  - by apply sv_inv_disconnect.
  - unfold AddClientProxy. by case_match.
  - unfold RemoveClientProxy. by case_match.
  - destruct Hinv as [Hh Ht Ho]. split; simpl; [by eapply hub_inv_step|by rewrite Heq..].
  - by apply hub_ok_count.
  - done.
Qed.

Lemma sv_inv_new s : sv_inv (NewCtrlProxyServer s NewCtrlHub).
Proof.
  split; [apply hub_inv_new|apply table_inv_new|]. intros id e He. unfold Get in He. simpl in He. by simplify_map_eq.
Qed.

Lemma sv_inv_reachable s sv : rtc (sv_step quote) (NewCtrlProxyServer s NewCtrlHub) sv → sv_inv sv.
Proof.
  intros Hr. assert (∀ sv0, rtc (sv_step quote) sv0 sv → sv_inv sv0 → sv_inv sv) as Hg.
  { intros sv0 Hr0. induction Hr0; [done|]. intros. eauto using sv_inv_step. }
  by eapply Hg, sv_inv_new.
Qed.
End history.

(** * Lemmas for the properties *)

(** The password table: the last entry with a password gives its identity. *)
Lemma creds_fold cps pw (m : gmap string string) :
  foldl (λ m cp, if str_empty (cp_KeyPassword cp) then m
                 else <[cp_KeyPassword cp := cp_ClientProxyName cp]> m) m cps !! pw =
  match last (filter (λ cp, cp_KeyPassword cp = pw ∧ pw ≠ ""%string) cps) with
  | Some cp => Some (cp_ClientProxyName cp)
  | None => m !! pw
  end.
Proof.
  induction cps as [|cp cps IH] using rev_ind; [done|]. rewrite foldl_app, filter_app. cbn [foldl].
  rewrite filter_cons, filter_nil. destruct (str_empty (cp_KeyPassword cp)) eqn:He.
  - unfold str_empty in He. apply String.eqb_eq in He. rewrite decide_False by (intros [? ?]; congruence).
    by rewrite app_nil_r.
  - apply str_empty_false in He. destruct (decide (cp_KeyPassword cp = pw)) as [Hp|Hp].
    + rewrite decide_True by (split; congruence). rewrite last_snoc. subst. by rewrite lookup_insert_eq.
    + rewrite decide_False by (intros [? ?]; congruence). rewrite app_nil_r, lookup_insert_ne by done. done.
Qed.

(** * Properties *)




(** What a close frame does, on every branch. A frame of a chained connection
    of the session ends it in the feed and reaches nothing else. Otherwise a
    half close marks the tunnelled connection of that number and unmaps it; a
    full close closes the connection of that number if there is one, and only
    if there is none unregisters the stream of that number: connections and
    streams share one number space, and nobody checks who sent the frame. *)
Theorem close_frame_dispatch `{!ControlJson} quote pick now sv sid info feed m :
  clients sv !! sid = Some info → feeds sv !! sid = Some feed → Type_ m = MsgStreamClose →
  handle quote pick now sv sid m =
    match h_conns feed !! StreamID m with
    | Some _ => (λ r, (with_feeds sv (<[sid := r.1]> (feeds sv)), [])) <$> Feed pick feed m
    | None =>
        Some (with_hub sv
          (if IsHalfClose m then (ClientClosed (hub sv) (StreamID m)).1
           else match conns (hub sv) !! StreamID m with
                | Some _ => (CloseConn (hub sv) (StreamID m) false).1.1
                | None => with_streams (hub sv) (Remove (Streams (hub sv)) (StreamID m))
                end), [])
    end.
Proof.
  intros Hc Hf Ht. unfold handle. rewrite Hc, Hf, Ht. rewrite (bool_decide_true (MsgStreamClose = MsgStreamClose)) by done.
  rewrite orb_true_r. unfold Feed at 1 2, hub_get. rewrite Ht. rewrite !(bool_decide_false (MsgStreamClose = MsgData)) by done.
  rewrite !(bool_decide_true (MsgStreamClose = MsgStreamClose)) by done.
  destruct (h_conns feed !! StreamID m) as [l|].
  - by destruct (hub_deliver _ _ _ _).
  - unfold dispatch. rewrite Ht, (bool_decide_false (MsgStreamClose = MsgRegisterStream)),
      (bool_decide_false (MsgStreamClose = MsgConnOpenAck)), (bool_decide_false (MsgStreamClose = MsgPing)),
      (bool_decide_false (MsgStreamClose = MsgData)), (bool_decide_true (MsgStreamClose = MsgStreamClose)) by done.
    unfold HasConn. destruct (IsHalfClose m); cbn [negb]; [done|]. destruct (conns (hub sv) !! StreamID m) as [l|] eqn:Hl.
    + by rewrite bool_decide_true by (by eexists).
    + by rewrite bool_decide_false by (by intros [? ?]).
Qed.

(** The ack a session is sent, on a working connection. *)
Definition acked `{!ControlJson} (sv : CtrlProxyServer) (sid : session_id) (ack : ClientConnAck) : Prop :=
  ∃ s, sessions sv !! sid = Some s ∧
    last (w_log (s_out s)) = Some (frame (control_message MsgClientConnAck ack)).

Lemma send_to_acked `{!ControlJson} sv sid s ack :
  sessions sv !! sid = Some s → w_broken (s_out s) = false →
  Z.of_nat (length (json_marshal ack)) ≤ MaxPayloadSize →
  acked (send_to sv sid (control_message MsgClientConnAck ack)) sid ack.
Proof.
  intros Hs Hb Hl. unfold send_to. rewrite Hs. rewrite Send_log by done. eexists. split; [apply lookup_insert_eq|].
  unfold send_log. simpl. by rewrite last_snoc.
Qed.

(** Why a request for a chained connection is refused, if it is. *)
Definition refusal (quote : string → string) (sv : CtrlProxyServer) (identity : string) (creq : ClientConnReq)
    (closing : bool) : option string :=
  if forbidden identity (cc_ClientProxyName creq) then Some (not_allowed quote (cc_ClientProxyName creq))
  else if bool_decide (GetByName (Streams (hub sv)) (cc_ClientProxyName creq) (cc_StreamId creq) = None)
  then Some ("unknown stream " +:+ cc_ClientProxyName creq +:+ "/" +:+ cc_StreamId creq)
  else if str_empty (chain_target sv (cc_ClientProxyName creq) (cc_StreamId creq))
  then Some "stream has no target address"%string
  else if closing then Some "session closing"%string
  else None.

(** A chained connection is dialled exactly when the client asks for a stream
    it may use (its own identity's, or any for the administrator), some client
    has registered a stream of that name, the credentials give it a target
    address, and the session is not closing. The dial goes to that address, and
    the connection is registered under the number the client chose; otherwise
    nothing is dialled and no connection is registered. Either way the client is
    sent one answer with its number, the refusal with its reason. Which client
    registered the stream plays no part. *)
Theorem client_conn_request `{!ControlJson} quote sv sid identity m creq s feed :
  DecodeControl m = Ok creq → sessions sv !! sid = Some s → w_broken (s_out s) = false →
  feeds sv !! sid = Some feed →
  let reason := refusal quote sv identity creq (h_dead feed) in
  let ack := mkClientConnAck (cc_ConnID creq) (bool_decide (reason = None)) (default ""%string reason) in
  Z.of_nat (length (json_marshal ack)) ≤ MaxPayloadSize →
  let '(sv', dials) := handleClientConnReq quote sv sid identity m in
  acked sv' sid ack ∧
  match reason with
  | None => ∃ l feed',
      dials = [mkDial sid l (cc_ConnID creq) (chain_target sv (cc_ClientProxyName creq) (cc_StreamId creq))] ∧
      feeds sv' !! sid = Some feed' ∧ h_conns feed' !! cc_ConnID creq = Some l ∧
      hub_conn feed' l = Some (newStreamConn (cc_ConnID creq))
  | Some _ => dials = [] ∧ feeds sv' = feeds sv
  end.
Proof.
  intros Hd Hs Hb Hf. cbn zeta. remember (refusal quote sv identity creq (h_dead feed)) as reason eqn:Hr.
  unfold refusal in Hr. intros Hlen. unfold handleClientConnReq. rewrite Hd.
  assert (∀ sv0 (a : ClientConnAck), feeds (send_to sv0 sid (control_message MsgClientConnAck a)) = feeds sv0) as Hfe.
  { intros. unfold send_to. repeat case_match; done. }
  destruct (forbidden _ _); [subst reason; split; [by eapply send_to_acked|split; [done|apply Hfe]]|].
  destruct (GetByName _ _ _) as [e|]; [|subst reason; split; [by eapply send_to_acked|split; [done|apply Hfe]]].
  rewrite bool_decide_false in Hr by done.
  destruct (str_empty _); [subst reason; split; [by eapply send_to_acked|split; [done|apply Hfe]]|].
  rewrite Hf. unfold NewHubConn. destruct (h_dead feed); subst reason; [split; [by eapply send_to_acked|split; [done|apply Hfe]]|].
  split; [by eapply send_to_acked|]. eexists _, _. split; [reflexivity|]. rewrite Hfe. split_and!.
  - apply lookup_insert_eq.
  - apply lookup_insert_eq.
  - by apply list_lookup_middle.
Qed.

(** Chained connections cannot be served from a configuration file: the client
    entries a star ingress is given never have a target address, so as long as
    the administrator adds none, every such request is refused and nothing is
    dialled, whoever asks for whatever. *)
Theorem configured_chain_refused `{!ControlJson} quote h ing sv sid identity m :
  sv = NewCtrlProxyServer (ll_Settings (ingress_listener ing)) h ∨
    settings sv = ll_Settings (ingress_listener ing) →
  (handleClientConnReq quote sv sid identity m).2 = [].
Proof.
  intros Hsv. assert (settings sv = ll_Settings (ingress_listener ing)) as Hset by (destruct Hsv; [by subst|done]).
  unfold handleClientConnReq. destruct (DecodeControl m) as [creq|]; [|done]. case_match; [done|].
  case_match; [|done]. assert (chain_target sv (cc_ClientProxyName creq) (cc_StreamId creq) = ""%string) as ->; [|done].
  unfold chain_target. rewrite Hset. destruct (filter _ _) as [|cp l] eqn:E; [done|].
  assert (cp ∈ ClientProxies (ll_Settings (ingress_listener ing))) as Hin.
  { assert (cp ∈ cp :: l) as Hcp by (by left). rewrite <- E in Hcp. by apply list_elem_of_filter in Hcp as [_ ?]. }
  clear E Hset. unfold ingress_listener in Hin.
  destruct (String.eqb (ing_Handler ing) "star"), (String.eqb (ing_Handler ing) "admin"),
    (String.eqb (ing_Handler ing) "dns"), (str_empty (ing_Handler ing)); simpl in Hin; try by apply elem_of_nil in Hin.
  all: apply list_elem_of_concat in Hin as (x & Hx & (c & -> & _)%list_elem_of_fmap);
    by apply list_elem_of_fmap in Hx as (? & -> & _).
Qed.

(** * A concrete server: two clients, the first with a registered stream *)

Definition demo_settings : Settings :=
  mkSettings "" "" "root" "" false "" "" "" "" []
    [mkClientProxy "a" "ssh" "10.0.0.1:22" "" "pw-a"; mkClientProxy "b" "web" "" "" "pw-b"] ∅ [].

Definition demo_quote (s : string) : string := "'" +:+ s +:+ "'".

Definition demo_hello (pw : string) : Session :=
  NewSession (frame (control_message MsgHandshake (mkHandshakeReq 1 "host" pw))).

Definition demo_sv0 : CtrlProxyServer := NewCtrlProxyServer demo_settings NewCtrlHub.
Definition demo_sv2 : CtrlProxyServer :=
  (connect (connect demo_sv0 1 (demo_hello "pw-a") "c1" 0).1 2 (demo_hello "pw-b") "c2" 0).1.
Definition demo_sv3 : CtrlProxyServer :=
  match handle demo_quote false 5 demo_sv2 1 (control_message MsgRegisterStream (mkRegisterStreamReq "a" "ssh")) with
  | Some (sv, _) => sv
  | None => demo_sv2
  end.

Lemma demo_sv2_reachable : rtc (sv_step demo_quote) demo_sv0 demo_sv2.
Proof.
  eapply rtc_l; [apply (sv_connect _ _ 1 (demo_hello "pw-a") "c1" 0); reflexivity|].
  apply rtc_once. apply sv_connect. vm_compute. reflexivity.
Defined.

Lemma demo_sv3_reachable : rtc (sv_step demo_quote) demo_sv0 demo_sv3.
Proof.
  eapply rtc_r; [apply demo_sv2_reachable|].
  eapply (sv_message _ false 5 demo_sv2 1 (control_message MsgRegisterStream (mkRegisterStreamReq "a" "ssh")) demo_sv3 []).
  - vm_compute. reflexivity.
  - vm_compute. reflexivity.
Defined.

(** Clients are not isolated from one another: a client authenticated as [b]
    unregisters the stream that the connected client [a] registered, with one
    frame, in a state of the server that is reached by two logins and one
    registration. *)
Theorem foreign_stream_removed :
  ∃ info e sv', rtc (sv_step demo_quote) demo_sv0 demo_sv3 ∧
    clients demo_sv3 !! 2%nat = Some info ∧ cl_Identity info = "b"%string ∧
    GetByName (Streams (hub demo_sv3)) "a" "ssh" = Some e ∧ se_Client e = 1%nat ∧
    handle demo_quote false 6 demo_sv3 2 (mkMessage MsgStreamClose x00 (se_AssignID e) []) = Some (sv', []) ∧
    GetByName (Streams (hub sv')) "a" "ssh" = None ∧ is_Some (clients sv' !! 1%nat).
Proof.
  eexists _, _, _. split; [apply demo_sv3_reachable|].
  split; [vm_compute; reflexivity|]. split; [reflexivity|]. split; [vm_compute; reflexivity|].
  split; [reflexivity|]. split; [vm_compute; reflexivity|]. split; [vm_compute; reflexivity|].
  vm_compute. eexists. reflexivity.
Qed.

Lemma demo_sv3_inv : sv_inv demo_sv3.
Proof. apply (sv_inv_reachable demo_quote demo_settings), demo_sv3_reachable. Qed.




Lemma close_frame_dispatch_witness :
  ∃ sv', handle demo_quote false 0 demo_sv3 1 (mkMessage MsgStreamClose x00 1 []) = Some (sv', []) ∧
    Get (Streams (hub sv')) 1 = None.
Proof.
  destruct (clients demo_sv3 !! 1%nat) as [info|] eqn:Hc; [|vm_compute in Hc; discriminate].
  destruct (feeds demo_sv3 !! 1%nat) as [feed|] eqn:Hf; [|vm_compute in Hf; discriminate].
  pose proof (close_frame_dispatch demo_quote false 0 demo_sv3 1 info feed
    (mkMessage MsgStreamClose x00 1 []) Hc Hf eq_refl) as H.
  vm_compute in Hf. injection Hf as <-. eexists. split; [exact H|]. vm_compute. reflexivity.
Defined.

Definition demo_conn_req : Message := control_message MsgClientConnReq (mkClientConnReq 2147483649 "a" "ssh").

Lemma client_conn_request_witness :
  ∃ l feed', (handleClientConnReq demo_quote demo_sv3 1 "a" demo_conn_req).2 = [mkDial 1 l 2147483649 "10.0.0.1:22"] ∧
  feeds (handleClientConnReq demo_quote demo_sv3 1 "a" demo_conn_req).1 !! 1%nat = Some feed' ∧
  h_conns feed' !! 2147483649 = Some l.
Proof.
  destruct (sessions demo_sv3 !! 1%nat) as [s|] eqn:Hs; [|vm_compute in Hs; discriminate].
  destruct (feeds demo_sv3 !! 1%nat) as [feed|] eqn:Hf; [|vm_compute in Hf; discriminate].
  pose proof (client_conn_request demo_quote demo_sv3 1 "a" demo_conn_req (mkClientConnReq 2147483649 "a" "ssh") s feed) as H.
  assert (refusal demo_quote demo_sv3 "a" (mkClientConnReq 2147483649 "a" "ssh") (h_dead feed) = None) as Hr.
  { vm_compute in Hf. injection Hf as <-. vm_compute. reflexivity. }
  rewrite Hr in H. destruct (handleClientConnReq demo_quote demo_sv3 1 "a" demo_conn_req) as [sv' dials].
  destruct H as (_ & l & feed' & Hd & Hfe & Hl & _).
  - vm_compute. reflexivity.
  - exact Hs.
  - vm_compute in Hs. injection Hs as <-. reflexivity.
  - exact Hf.
  - vm_compute. discriminate.
  - exists l, feed'. split; [exact Hd|]. split; [exact Hfe|exact Hl].
Defined.

Lemma configured_chain_refused_witness :
  (handleClientConnReq demo_quote
     (NewCtrlProxyServer (ll_Settings (ingress_listener (mkIngressSpec "t" "" ":1" "star" (demo_extra [])))) NewCtrlHub)
     1 "a" demo_conn_req).2 = [].
Proof. eapply configured_chain_refused. left. reflexivity. Defined.
