(* ===== verification/Proxy.v ===== *)
(** The data plane of the star server: the routing rules
    (internal/star/starserver/connecttable.go), the choice of a stream and the
    life of one proxied connection (proxy_server.go). *)
From S2P Require Import Prelude Message TextCodec Window StreamTable CtrlHub Config Register.
From Stdlib Require Import ZArith Lia.

(** * Routing rules *)

Record ConnectTable := mkConnectTable { rules : gmap string (list ConnectItem) }.

Definition NewConnectTable : ConnectTable := mkConnectTable ∅.

Definition sameConnectRule (a b : ConnectItem) : bool :=
  String.eqb (ci_ProxyName a) (ci_ProxyName b) && String.eqb (ci_ClientProxyName a) (ci_ClientProxyName b)
  && String.eqb (ci_StreamId a) (ci_StreamId b).

(** A missing key is a nil slice. *)
Definition rules_of (t : ConnectTable) (proxyName : string) : list ConnectItem :=
  default [] (rules t !! proxyName).

Definition Add (t : ConnectTable) (rule : ConnectItem) : ConnectTable * bool :=
  let list := rules_of t (ci_ProxyName rule) in
  if existsb (λ other, sameConnectRule other rule) list then (t, false)
  else (mkConnectTable (<[ci_ProxyName rule := list ++ [rule]]> (rules t)), true).

Definition Seed (t : ConnectTable) (rs : list ConnectItem) : ConnectTable :=
  foldl (λ t r, (Add t r).1) t rs.

Fixpoint remove_rule (clientProxyName streamId : string) (l : list ConnectItem) : option (list ConnectItem) :=
  match l with
  | [] => None
  | other :: l =>
      if String.eqb (ci_ClientProxyName other) clientProxyName && String.eqb (ci_StreamId other) streamId
      then Some l
      else cons other <$> remove_rule clientProxyName streamId l
  end.

Definition RemoveRule (t : ConnectTable) (proxyName clientProxyName streamId : string) : ConnectTable * bool :=
  match remove_rule clientProxyName streamId (rules_of t proxyName) with
  | Some l => (mkConnectTable (<[proxyName := l]> (rules t)), true)
  | None => (t, false)
  end.

Definition For (t : ConnectTable) (proxyName : string) : list ConnectItem := rules_of t proxyName.

Definition All (t : ConnectTable) : gmap string (list ConnectItem) := rules t.

(** * Choosing a stream *)

(** The stream of one rule: the named one, or the first of the client's. *)
Definition rule_entry (tbl : StreamTable) (t : ConnectItem) : option StreamEntry :=
  if str_empty (ci_StreamId t) then head (FindByClientProxy tbl (ci_ClientProxyName t))
  else GetByName tbl (ci_ClientProxyName t) (ci_StreamId t).

(** The loop of [pickEntry], from turn [i] with [k] turns left. *)
Fixpoint pick_from (tbl : StreamTable) (targets : list ConnectItem) (start : Z) (i : Z) (k : nat)
    : option StreamEntry :=
  match k with
  | O => None
  | S k =>
      match targets !! Z.to_nat ((start + i) mod Z.of_nat (length targets)) ≫= rule_entry tbl with
      | Some e => Some e
      | None => pick_from tbl targets start (i + 1) k
      end
  end.

(** [pickEntry]: the atomic counter moves only when there is a rule. *)
Definition pickEntry (tbl : StreamTable) (ct : ConnectTable) (proxyName : string) (rr : Z)
    : Z * option StreamEntry :=
  match For ct proxyName with
  | [] => (rr, None)
  | targets =>
      let start := u32 (rr + 1) in
      (start, pick_from tbl targets start 0 (length targets))
  end.

(** [pickChain] *)
Definition pickChain (routes : list ChainRoute) (rr : Z) : Z * option ChainRoute :=
  match routes with
  | [] => (rr, None)
  | _ => let rr := u32 (rr + 1) in (rr, routes !! Z.to_nat (rr mod Z.of_nat (length routes)))
  end.

(** * One proxied connection *)

(** The two goroutines of [handleConn]: the downlink pump is in its outer loop,
    in the drain loop it enters once [RemoteClosed] is seen and never leaves, or
    gone; the uplink reads, waits for [done] after an end of file, or is gone. *)
Inductive down_phase := DPump | DDrain (quiet : bool) | DExit.
Inductive up_phase := UReading | UWaiting | UExit.

(** What the external connection sees. *)
Inductive ext_event := XWrite (p : list byte) | XCloseWrite | XClose.

Record pconn := mkPconn {
  px_hub : CtrlHub;
  px_loc : conn_loc;
  px_connID : Z;
  px_down : down_phase;
  px_up : up_phase;
  px_upDone : bool;
  px_downDone : bool;
  px_stopped : bool;
  px_torn : bool;
  px_canCloseWrite : bool;
  px_ext : list ext_event;
  px_sent : list Message;
}.

Definition start_conn (h : CtrlHub) (l : conn_loc) (connID : Z) (cw : bool) : pconn :=
  mkPconn h l connID DPump UReading false false false false cw [] [].

Definition set_hub (h : CtrlHub) (p : pconn) : pconn :=
  mkPconn h (px_loc p) (px_connID p) (px_down p) (px_up p) (px_upDone p) (px_downDone p) (px_stopped p)
    (px_torn p) (px_canCloseWrite p) (px_ext p) (px_sent p).
Definition set_down (d : down_phase) (p : pconn) : pconn :=
  mkPconn (px_hub p) (px_loc p) (px_connID p) d (px_up p) (px_upDone p) (px_downDone p) (px_stopped p)
    (px_torn p) (px_canCloseWrite p) (px_ext p) (px_sent p).
Definition set_up (u : up_phase) (p : pconn) : pconn :=
  mkPconn (px_hub p) (px_loc p) (px_connID p) (px_down p) u (px_upDone p) (px_downDone p) (px_stopped p)
    (px_torn p) (px_canCloseWrite p) (px_ext p) (px_sent p).
Definition set_finished (up down : bool) (p : pconn) : pconn :=
  mkPconn (px_hub p) (px_loc p) (px_connID p) (px_down p) (px_up p) up down (px_stopped p)
    (px_torn p) (px_canCloseWrite p) (px_ext p) (px_sent p).
Definition set_stopped (p : pconn) : pconn :=
  mkPconn (px_hub p) (px_loc p) (px_connID p) (px_down p) (px_up p) (px_upDone p) (px_downDone p) true
    (px_torn p) (px_canCloseWrite p) (px_ext p) (px_sent p).
Definition add_ext (x : ext_event) (p : pconn) : pconn :=
  mkPconn (px_hub p) (px_loc p) (px_connID p) (px_down p) (px_up p) (px_upDone p) (px_downDone p) (px_stopped p)
    (px_torn p) (px_canCloseWrite p) (px_ext p ++ [x]) (px_sent p).
Definition add_sent (ms : list Message) (p : pconn) : pconn :=
  mkPconn (px_hub p) (px_loc p) (px_connID p) (px_down p) (px_up p) (px_upDone p) (px_downDone p) (px_stopped p)
    (px_torn p) (px_canCloseWrite p) (px_ext p) (px_sent p ++ ms).
Definition set_torn (p : pconn) : pconn :=
  mkPconn (px_hub p) (px_loc p) (px_connID p) (px_down p) (px_up p) (px_upDone p) (px_downDone p) true
    true (px_canCloseWrite p) (px_ext p) (px_sent p).

(** [teardown], once: stops both directions, closes the mapping with a notice to
    the client, closes the external connection. *)
Definition teardown (p : pconn) : pconn :=
  if px_torn p then p
  else
    let '(h, _, out) := CloseConn (px_hub p) (px_connID p) true in
    add_ext XClose (add_sent out.*2 (set_torn (set_hub h p))).

Definition bothFinished (p : pconn) : pconn := if px_upDone p && px_downDone p then teardown p else p.

(** The pump returns: its [defer stop()]. *)
Definition pump_exit (p : pconn) : pconn := set_stopped (set_down DExit p).

(** [handleConn] returns: its [defer teardown]. *)
Definition up_exit (p : pconn) : pconn := teardown (set_up UExit p).

Definition px_entry (p : pconn) : option ConnEntry := hub_entry (px_hub p) (px_loc p).

(** A payload taken from the queue and written out, with its credit returned. *)
Definition pump_payload (p : pconn) (d : down_phase) (payload : list byte) (rest : list (list byte)) (write_ok : bool)
    : pconn :=
  let p := set_hub (upd_entry (set_sink rest) (px_loc p) (px_hub p)) p in
  if write_ok then
    let '(h, out) := ReleaseRecv (px_hub p) (px_loc p) (length payload) in
    set_down d (add_sent out.*2 (set_hub h (add_ext (XWrite payload) p)))
  else pump_exit (teardown p).

(** What can happen to the connection next: a case of the pump's [select], the
    outcome of the uplink's read, or an operation of the hub by another
    goroutine. [EvTick] is the 50 ms timer: it fires when the queue has stayed
    empty. *)
Inductive pevent :=
  | EvSink (write_ok : bool)
  | EvRemoteClosed
  | EvTick
  | EvDone
  | EvStop
  | EvRead (payload : list byte) (send_ok : bool)
  | EvEOF
  | EvReadErr
  | EvUpStop
  | EvDownlink (payload : list byte)
  | EvClientHalf
  | EvClientFull.

(** [None] when the event cannot happen in this state. *)
Definition papply (p : pconn) (ev : pevent) : option pconn :=
  match ev, px_entry p with
  | EvSink ok, Some e =>
      match ce_Sink e, px_down p with
      | payload :: rest, DPump => Some (pump_payload p DPump payload rest ok)
      | payload :: rest, DDrain _ => Some (pump_payload p (DDrain false) payload rest ok)
      | _, _ => None
      end
  | EvRemoteClosed, Some e =>
      match px_down p with
      | DPump => if ce_RemoteClosed e then Some (set_down (DDrain false) p) else None
      | _ => None
      end
  | EvTick, Some e =>
      match px_down p, ce_Sink e with
      | DDrain true, [] =>
          let p := set_finished (px_upDone p) true p in
          let p := if px_canCloseWrite p then add_ext XCloseWrite p else p in
          Some (bothFinished p)
      | DDrain false, [] => Some (set_down (DDrain true) p)
      | _, _ => None
      end
  | EvDone, Some e =>
      match px_down p with
      | DExit => None
      | _ => if ce_Done e then Some (pump_exit (teardown p)) else None
      end
  | EvStop, _ =>
      match px_down p with
      | DExit => None
      | _ => if px_stopped p then Some (pump_exit p) else None
      end
  | EvRead payload ok, Some e =>
      match px_up p with
      | UReading =>
          if closed (ce_SendWin e) then Some (up_exit p)
          else
            match acquire_now (S (length payload)) (ce_SendWin e) (Z.of_nat (length payload)) with
            | None => None
            | Some w =>
                let p := set_hub (upd_entry (set_win w) (px_loc p) (px_hub p)) p in
                if ok then
                  let t := add_bytes (Streams (px_hub p)) (ce_Stream e) (Z.of_nat (length payload)) 0 in
                  Some (add_sent [mkMessage MsgData x00 (px_connID p) payload] (set_hub (with_streams (px_hub p) t) p))
                else Some (up_exit p)
            end
      | _ => None
      end
  | EvEOF, _ =>
      match px_up p with
      | UReading =>
          Some (set_up UWaiting (bothFinished
            (add_sent [HalfClose (px_connID p)] (set_finished true (px_downDone p) p))))
      | _ => None
      end
  | EvReadErr, _ => match px_up p with UReading => Some (up_exit p) | _ => None end
  | EvUpStop, _ => match px_up p with UWaiting => if px_stopped p then Some (up_exit p) else None | _ => None end
  | EvDownlink payload, _ => (λ r, set_hub r.1 p) <$> Downlink false (px_hub p) (px_connID p) payload
  | EvClientHalf, _ => Some (set_hub (ClientClosed (px_hub p) (px_connID p)).1 p)
  | EvClientFull, _ => Some (set_hub (CloseConn (px_hub p) (px_connID p) false).1.1 p)
  | _, None => None
  end.

(** A history of the connection; [None] if some event was not possible. *)
Fixpoint prun (p : pconn) (evs : list pevent) : option pconn :=
  match evs with
  | [] => Some p
  | ev :: evs => papply p ev ≫= λ p, prun p evs
  end.

(** * Lemmas on one connection *)

(** The payloads the external connection was sent, and those the hub accepted
    during a history. *)
Definition ext_payload (x : ext_event) : option (list byte) := match x with XWrite p => Some p | _ => None end.
Definition px_written (p : pconn) : list (list byte) := omap ext_payload (px_ext p).

Definition accepted (p : pconn) (ev : pevent) : list (list byte) :=
  match ev with
  | EvDownlink payload =>
      match Downlink false (px_hub p) (px_connID p) payload with Some (_, true) => [payload] | _ => [] end
  | _ => []
  end.

Fixpoint delivered (p : pconn) (evs : list pevent) : list (list byte) :=
  match evs with
  | [] => []
  | ev :: evs => accepted p ev ++ match papply p ev with Some p' => delivered p' evs | None => [] end
  end.

(** What the downlink invariant reads of a state, kept by most steps. *)
Record view (p p' : pconn) : Prop := {
  v_loc : px_loc p' = px_loc p;
  v_id : px_connID p' = px_connID p;
  v_written : px_written p' = px_written p;
  v_cw : XCloseWrite ∈ px_ext p' → XCloseWrite ∈ px_ext p;
  v_conns l : conns (px_hub p') !! px_connID p = Some l → conns (px_hub p) !! px_connID p = Some l;
  v_entry e : px_entry p = Some e →
    ∃ e', px_entry p' = Some e' ∧ ce_Sink e' = ce_Sink e ∧ ce_RemoteClosed e' = ce_RemoteClosed e;
}.

#[export] Instance view_refl : Reflexive view.
Proof. intros p. split; eauto. Qed.

#[export] Instance view_trans : Transitive view.
Proof.
  intros p1 p2 p3 [? Hid ? ? Hc He] [? Hid' ? ? Hc' He']. split; try congruence; [tauto| |].
  - intros l Hl. apply Hc. rewrite <- Hid. apply Hc'. by rewrite Hid.
  - intros e H1. destruct (He _ H1) as (e1 & H2 & ? & ?). destruct (He' _ H2) as (e2 & ? & ? & ?).
    exists e2. split_and!; congruence.
Qed.

Ltac trivial_view := split; simpl; try done; try (by intros; eexists).

Lemma view_set_down d p : view p (set_down d p).
Proof. trivial_view. Qed.
Lemma view_set_up u p : view p (set_up u p).
Proof. trivial_view. Qed.
Lemma view_set_finished u d p : view p (set_finished u d p).
Proof. trivial_view. Qed.
Lemma view_set_stopped p : view p (set_stopped p).
Proof. trivial_view. Qed.
Lemma view_add_sent ms p : view p (add_sent ms p).
Proof. trivial_view. Qed.

Lemma view_add_ext x p : ext_payload x = None → x ≠ XCloseWrite → view p (add_ext x p).
Proof.
  intros Hx Hc. split; simpl; try done; try (by intros; eexists).
  - unfold px_written. simpl. rewrite omap_app. simpl. by rewrite Hx, app_nil_r.
  - intros [?|?%list_elem_of_singleton]%elem_of_app; [done|congruence].
Qed.

(** A hub operation that removes mappings and keeps the queue. *)
Lemma view_set_hub h p :
  (∀ l, conns h !! px_connID p = Some l → conns (px_hub p) !! px_connID p = Some l) →
  (∀ e, px_entry p = Some e → ∃ e', hub_entry h (px_loc p) = Some e' ∧ ce_Sink e' = ce_Sink e ∧
     ce_RemoteClosed e' = ce_RemoteClosed e) →
  view p (set_hub h p).
Proof. intros Hc He. split; simpl; try done. Qed.

Lemma view_upd f p :
  (∀ e, ce_Sink (f e) = ce_Sink e ∧ ce_RemoteClosed (f e) = ce_RemoteClosed e) →
  view p (set_hub (upd_entry f (px_loc p) (px_hub p)) p).
Proof.
  intros Hf. apply view_set_hub; [done|]. unfold px_entry. intros e He.
  exists (f e). rewrite hub_entry_upd, decide_True by done. rewrite He. split; [done|apply Hf].
Qed.

Lemma CloseConn_effect h id n l e :
  hub_entry h l = Some e →
  (∀ i, conns (CloseConn h id n).1.1 !! i = delete id (conns h) !! i) ∧
  ∃ e', hub_entry (CloseConn h id n).1.1 l = Some e' ∧ ce_Sink e' = ce_Sink e ∧ ce_RemoteClosed e' = ce_RemoteClosed e.
Proof.
  intros He. unfold CloseConn. destruct (_ ≫= _) as [[l0 e0]|]; simpl; [|split; [done|by exists e]].
  split; [done|]. unfold ConnEntry_close. rewrite hub_entry_upd.
  change (hub_entry (with_conns h _) l) with (hub_entry h l). rewrite He. case_decide; eexists; by split_and!.
Qed.

Lemma view_CloseConn p n : view p (set_hub (CloseConn (px_hub p) (px_connID p) n).1.1 p).
Proof.
  apply view_set_hub.
  - intros l. assert (∀ i, conns (CloseConn (px_hub p) (px_connID p) n).1.1 !! i =
      delete (px_connID p) (conns (px_hub p)) !! i) as ->.
    { unfold CloseConn. by destruct (_ ≫= _) as [[? ?]|]. }
    by rewrite lookup_delete_eq.
  - intros e He. by apply (CloseConn_effect _ _ _ _ _ He).
Qed.

Lemma view_teardown p : view p (teardown p).
Proof.
  unfold teardown. destruct (px_torn p); [done|]. pose proof (view_CloseConn p true) as Hv.
  destruct (CloseConn _ _ _) as [[h b] out]. simpl in Hv.
  etransitivity; [exact Hv|]. etransitivity; [|apply view_add_ext; done].
  etransitivity; [|apply view_add_sent]. trivial_view.
Qed.

Lemma view_bothFinished p : view p (bothFinished p).
Proof. unfold bothFinished. case_match; [apply view_teardown|done]. Qed.
Lemma view_pump_exit p : view p (pump_exit p).
Proof. unfold pump_exit. etransitivity; [apply view_set_down|apply view_set_stopped]. Qed.
Lemma view_up_exit p : view p (up_exit p).
Proof. unfold up_exit. etransitivity; [apply view_set_up|apply view_teardown]. Qed.

Lemma teardown_down p : px_down (teardown p) = px_down p.
Proof. unfold teardown. case_match; [done|]. by destruct (CloseConn _ _ _) as [[? ?] ?]. Qed.
Lemma bothFinished_down p : px_down (bothFinished p) = px_down p.
Proof. unfold bothFinished. case_match; [apply teardown_down|done]. Qed.

#[export] Hint Resolve view_set_down view_set_up view_set_finished view_set_stopped view_add_sent view_teardown
  view_bothFinished view_pump_exit view_up_exit view_CloseConn : rainnet.

(** ** The downlink invariant *)

Record pinv (D : list (list byte)) (p : pconn) : Prop := {
  pv_entry : ∃ e lost, px_entry p = Some e ∧
    D = px_written p ++ lost ++ ce_Sink e ∧ (px_down p ≠ DExit → lost = []) ∧
    (ce_RemoteClosed e = true → conns (px_hub p) !! px_connID p = None) ∧
    (∀ q, px_down p = DDrain q → ce_RemoteClosed e = true) ∧
    (XCloseWrite ∈ px_ext p → D = px_written p ∧ ce_RemoteClosed e = true);
  pv_loc l : conns (px_hub p) !! px_connID p = Some l → l = px_loc p;
}.

Lemma pinv_view D p p' :
  pinv D p → view p p' → (px_down p' = px_down p ∨ px_down p' = DExit) → pinv D p'.
Proof.
  intros [(e & lost & He & HD & Hl & Hr & Hd & Hc) Hloc] [Vl Vi Vw Vc Vm Ve] Hdown.
  destruct (Ve _ He) as (e' & He' & Hs & Hrc). split.
  - exists e', lost. rewrite Vw, Hs, Hrc, Vi. split_and!; try done.
    + intros Hne. apply Hl. destruct Hdown; congruence.
    + intros Hcl. destruct (conns (px_hub p') !! px_connID p); [|done].
      specialize (Vm _ eq_refl). rewrite Hr in Vm; done.
    + intros q Hq. destruct Hdown as [Hdn|Hdn]; [apply (Hd q); congruence|congruence].
    + intros Hx. by apply Hc, Vc.
  - rewrite Vi, Vl. intros l Hl'. by apply Hloc, Vm.
Qed.

Lemma Downlink_false h id payload h' b :
  Downlink false h id payload = Some (h', b) → conns h !! id = None → b = false ∧ h' = h.
Proof. unfold Downlink. intros Hd Hn. rewrite Hn in Hd. simpl in Hd. by simplify_eq. Qed.

Lemma Downlink_effect h id payload h' b l e :
  Downlink false h id payload = Some (h', b) → hub_entry h l = Some e →
  (∀ l', conns h !! id = Some l' → l' = l) →
  conns h' = conns h ∧ ∃ e', hub_entry h' l = Some e' ∧ ce_RemoteClosed e' = ce_RemoteClosed e ∧
    ce_Sink e' = ce_Sink e ++ (if b then [payload] else []).
Proof.
  unfold Downlink. intros Hd He Hl.
  destruct (conns h !! id) as [l0|] eqn:Hc; simpl in Hd; [|simplify_eq; split; [done|]; exists e; by rewrite app_nil_r].
  rewrite (Hl _ eq_refl), He in Hd. simpl in Hd. rewrite (Hl _ eq_refl) in Hc.
  assert (∀ h, conns (count_out h l (length payload)) = conns h ∧
    hub_entry (count_out h l (length payload)) l = hub_entry h l) as Hco.
  { intros h0. unfold count_out. destruct (hub_entry h0 l) eqn:E; (split; [done|exact E]). }
  destruct (Hco h) as [Hc1 Hc2]. case_match.
  - simplify_eq. split; [exact Hc1|]. rewrite hub_entry_upd, decide_True, Hc2, He by done. by eexists.
  - destruct (ce_Done e); simplify_eq. split; [done|]. exists e. rewrite Hc2, app_nil_r. done.
Qed.

Lemma pinv_sink D p e payload rest d ok :
  pinv D p → px_entry p = Some e → ce_Sink e = payload :: rest → px_down p ≠ DExit →
  (∀ q, d = DDrain q → ∃ q', px_down p = DDrain q') → d ≠ DExit →
  pinv D (pump_payload p d payload rest ok).
Proof.
  intros [(e0 & lost & He0 & HD & Hl & Hr & Hd & Hc) Hloc] He Hs Hne Hq Hde.
  assert (e0 = e) as -> by congruence. rewrite (Hl Hne), Hs in HD.
  assert (px_entry (set_hub (upd_entry (set_sink rest) (px_loc p) (px_hub p)) p) = Some (set_sink rest e)) as He1.
  { unfold px_entry. simpl. rewrite hub_entry_upd, decide_True by done. unfold px_entry in He. by rewrite He. }
  unfold pump_payload. set (p1 := set_hub _ p) in *. assert (XCloseWrite ∉ px_ext p) as Hncw.
  { intros [HD' _]%Hc. rewrite HD' in HD. apply (f_equal length) in HD. rewrite length_app in HD. simpl in HD. lia. }
  destruct ok.
  - change (px_loc p1) with (px_loc p).
    destruct (ReleaseRecv (px_hub p1) (px_loc p) (length payload)) as [h out] eqn:E.
    assert (conns h = conns (px_hub p) ∧ ∃ e', hub_entry h (px_loc p) = Some e' ∧ ce_Sink e' = rest ∧
      ce_RemoteClosed e' = ce_RemoteClosed e) as (Hcn & e' & He' & Hs' & Hrc').
    { unfold ReleaseRecv in E. change (hub_entry (px_hub p1) (px_loc p)) with (px_entry p1) in E. rewrite He1 in E.
      case_match; simplify_eq; (split; [done|]); rewrite hub_entry_upd, decide_True by done;
        change (hub_entry (px_hub p1) (px_loc p)) with (px_entry p1); rewrite He1; by eexists. }
    split; simpl; [|by rewrite Hcn]. exists e', []. split_and!; try done.
    + rewrite Hs'. unfold px_written. simpl. rewrite omap_app, <- app_assoc. done.
    + rewrite Hcn, Hrc'. done.
    + intros q Hd'. destruct (Hq _ Hd') as [q' Hq']. rewrite Hrc'. by eapply Hd.
    + intros [?|Hx]%elem_of_app; [done|]. by apply list_elem_of_singleton in Hx.
  - assert (pinv D (set_down DExit p1)) as Hp1.
    { split; simpl; [|done]. exists (set_sink rest e), [payload]. split_and!; try done. }
    assert (pump_exit (teardown p1) = set_stopped (set_down DExit (teardown p1))) as -> by done.
    eapply (pinv_view D (set_down DExit p1)); [done| |by right].
    assert (view p1 (set_stopped (set_down DExit (teardown p1)))) as Hv.
    { etransitivity; [apply view_teardown|]. etransitivity; [apply view_set_down|apply view_set_stopped]. }
    destruct Hv. by split.
Qed.

(** The state an enabled event leads to. *)
Ltac step_eq :=
  try match goal with
  | H : Some _ = Some _ |- _ => injection H as <-
  | H : None = Some _ |- _ => discriminate H
  end.

Lemma pinv_step D p ev p' :
  pinv D p → papply p ev = Some p' → pinv (D ++ accepted p ev) p'.
Proof.
  intros Hinv Hap. destruct (pv_entry _ _ Hinv) as (e & lost & He & HD & Hl & Hr & Hd & Hc).
  unfold papply in Hap. rewrite He in Hap.
  destruct ev; cbn [accepted]; rewrite ?app_nil_r.
  - (* EvSink *) destruct (ce_Sink e) as [|payload rest] eqn:Hs; [done|].
    destruct (px_down p) as [|q|] eqn:Hdn; step_eq.
    + eapply pinv_sink; eauto; congruence.
    + eapply pinv_sink; eauto; congruence.
  - (* EvRemoteClosed *) destruct (px_down p) eqn:Hdn; try done. destruct (ce_RemoteClosed e) eqn:Hrc; step_eq.
    split; simpl; [|apply Hinv]. exists e, lost. rewrite Hrc. split_and!; try done. intros _. by apply Hl.
  - (* EvTick *) destruct (px_down p) as [|[|]|] eqn:Hdn; try done; destruct (ce_Sink e) eqn:Hs; step_eq.
    + assert (pinv D (set_finished (px_upDone p) true p)) as H1.
      { eapply pinv_view; [done|apply view_set_finished|by left]. }
      eapply pinv_view; [|apply view_bothFinished|left; apply bothFinished_down].
      case_match; [|done]. split; simpl; [|apply Hinv]. exists e, []. rewrite (Hl ltac:(congruence)) in HD.
      assert (px_written (add_ext XCloseWrite (set_finished (px_upDone p) true p)) = px_written p) as Hw.
      { unfold px_written. simpl. rewrite omap_app. simpl. by rewrite app_nil_r. }
      rewrite Hw. split_and!; try done; [by rewrite Hs|intros q _; by eapply Hd|].
      intros _. split; [by rewrite HD, app_nil_r|by eapply Hd].
    + split; simpl; [|apply Hinv]. exists e, lost. split_and!; try done; [by rewrite Hs|intros; apply Hl; congruence|].
      intros q _. by eapply Hd.
  - (* EvDone *) destruct (px_down p) eqn:Hdn; destruct (ce_Done e); step_eq;
      (eapply pinv_view; [done|etransitivity; [apply view_teardown|apply view_pump_exit]|by right]).
  - (* EvStop *) destruct (px_down p) eqn:Hdn; destruct (px_stopped p); step_eq;
      (eapply pinv_view; [done|apply view_pump_exit|by right]).
  - (* EvRead *) destruct (px_up p); try done. destruct (closed (ce_SendWin e)).
    { step_eq. eapply pinv_view; [done|apply view_up_exit|]. left. unfold up_exit. by rewrite teardown_down. }
    destruct (acquire_now _ _ _) as [w|]; [|done].
    set (p1 := set_hub (upd_entry (set_win w) (px_loc p) (px_hub p)) p) in *.
    assert (view p p1) as H1 by (by apply view_upd). destruct send_ok; step_eq.
    + eapply pinv_view; [done| |by left]. etransitivity; [exact H1|]. etransitivity; [|apply view_add_sent].
      apply view_set_hub; [done|]. intros e1 He1. by exists e1.
    + eapply pinv_view; [done|etransitivity; [exact H1|apply view_up_exit]|]. left. unfold up_exit. by rewrite teardown_down.
  - (* EvEOF *) destruct (px_up p); step_eq. eapply pinv_view; [done| |left; simpl; by rewrite bothFinished_down].
    etransitivity; [|apply view_set_up]. etransitivity; [|apply view_bothFinished]. etransitivity; [|apply view_add_sent].
    apply view_set_finished.
  - (* EvReadErr *) destruct (px_up p); step_eq. eapply pinv_view; [done|apply view_up_exit|].
    left. unfold up_exit. by rewrite teardown_down.
  - (* EvUpStop *) destruct (px_up p), (px_stopped p); step_eq. eapply pinv_view; [done|apply view_up_exit|].
    left. unfold up_exit. by rewrite teardown_down.
  - (* EvDownlink *) destruct (Downlink _ _ _ _) as [[h b]|] eqn:Hdl; simpl in Hap; step_eq.
    destruct (Downlink_effect _ _ _ _ _ (px_loc p) e Hdl He) as (Hcn & e' & He' & Hrc & Hs); [apply Hinv|].
    split; simpl; [|rewrite Hcn; apply Hinv]. exists e', lost. split_and!; try done.
    + change (px_written (set_hub h p)) with (px_written p). rewrite Hs, HD, <- !app_assoc. by destruct b.
    + by rewrite Hcn, Hrc.
    + by rewrite Hrc.
    + intros [HD' Hrc']%Hc. destruct (Downlink_false _ _ _ _ _ Hdl (Hr Hrc')) as [-> _]. rewrite app_nil_r, Hrc. done.
  - (* EvClientHalf *) step_eq. unfold ClientClosed. destruct (conns (px_hub p) !! px_connID p) as [l|] eqn:Hcl.
    + pose proof (pv_loc _ _ Hinv _ Hcl) as ->. split; simpl; [|intros l; by rewrite lookup_delete_eq].
      exists (set_remote_closed e), lost. unfold px_entry. simpl. unfold markRemoteClosed. rewrite hub_entry_upd, decide_True by done.
      change (hub_entry (with_conns _ _) (px_loc p)) with (px_entry p). rewrite He, lookup_delete_eq.
      split_and!; try done. intros Hx. apply Hc in Hx as [? ?]. done.
    + simpl. eapply pinv_view; [done| |by left]. apply view_set_hub; [|intros e1 He1; by exists e1].
      intros l. simpl. by rewrite lookup_delete_eq.
  - (* EvClientFull *) step_eq. eapply pinv_view; [done|apply view_CloseConn|by left].
Qed.

Lemma pinv_run p evs D p' :
  pinv D p → prun p evs = Some p' → pinv (D ++ delivered p evs) p'.
Proof.
  revert p D. induction evs as [|ev evs IH]; intros p D Hinv Hr; cbn [prun delivered] in *.
  { simplify_eq. by rewrite app_nil_r. }
  destruct (papply p ev) as [p1|] eqn:Hap; [|done]. simpl in Hr. rewrite app_assoc.
  eapply IH; [by eapply pinv_step|done].
Qed.

(** ** Teardown *)

#[export] Instance ext_event_eq_dec : EqDecision ext_event.
Proof. solve_decision. Defined.

Definition is_full_close (m : Message) : Prop := Type_ m = MsgStreamClose ∧ IsHalfClose m = false.
#[export] Instance is_full_close_dec m : Decision (is_full_close m).
Proof. unfold is_full_close. apply _. Defined.

(** How often the external connection was closed, and how many full closes the
    client was sent. *)
Definition closes (p : pconn) : nat := length (filter (λ x, x = XClose) (px_ext p)).
Definition notices (p : pconn) : nat := length (filter is_full_close (px_sent p)).

Record tinv (p : pconn) : Prop := {
  ti_closes : closes p = if px_torn p then 1%nat else 0%nat;
  ti_torn : px_torn p = true → conns (px_hub p) !! px_connID p = None ∧ px_stopped p = true;
  ti_notices : (notices p ≤ if px_torn p then 1 else 0)%nat;
}.

Record tsame (p p' : pconn) : Prop := {
  ts_torn : px_torn p' = px_torn p;
  ts_closes : closes p' = closes p;
  ts_notices : notices p' = notices p;
  ts_stopped : px_stopped p = true → px_stopped p' = true;
  ts_id : px_connID p' = px_connID p;
  ts_conns : conns (px_hub p) !! px_connID p = None → conns (px_hub p') !! px_connID p = None;
}.

#[export] Instance tsame_refl : Reflexive tsame.
Proof. intros p. by split. Qed.
#[export] Instance tsame_trans : Transitive tsame.
Proof.
  intros p1 p2 p3 [? ? ? ? Hid Hc] [? ? ? ? Hid' Hc']. split; try congruence; [tauto|].
  intros H. rewrite <- Hid. apply Hc'. rewrite Hid. by apply Hc.
Qed.

Lemma tinv_same p p' : tinv p → tsame p p' → tinv p'.
Proof.
  intros [Hc Ht Hn] [Et Ec En Es Ei Em]. split.
  - by rewrite Ec, Et.
  - rewrite Et, Ei. intros H. destruct (Ht H). auto.
  - by rewrite En, Et.
Qed.

Lemma tsame_add_ext x p : x ≠ XClose → tsame p (add_ext x p).
Proof.
  intros Hx. split; try done. unfold closes. simpl. rewrite filter_app, filter_cons_False, filter_nil by done.
  by rewrite app_nil_r.
Qed.

Lemma tsame_add_sent ms p : Forall (λ m, ¬ is_full_close m) ms → tsame p (add_sent ms p).
Proof.
  intros Hm. split; try done. unfold notices. simpl. rewrite filter_app, length_app.
  enough (filter is_full_close ms = []) as -> by (simpl; lia).
  induction Hm as [|m ms Hm _ IH]; [done|]. by rewrite filter_cons_False.
Qed.

Lemma tsame_set_hub h p :
  (conns (px_hub p) !! px_connID p = None → conns h !! px_connID p = None) → tsame p (set_hub h p).
Proof. intros Hc. by split. Qed.

Lemma CloseConn_conns h id n : conns (CloseConn h id n).1.1 = delete id (conns h).
Proof. unfold CloseConn. by destruct (_ ≫= _) as [[? ?]|]. Qed.

Lemma tinv_teardown p : tinv p → tinv (teardown p) ∧ px_torn (teardown p) = true.
Proof.
  intros [Hc Ht Hn]. unfold teardown. destruct (px_torn p) eqn:E; [split; [by split; rewrite ?E|done]|].
  pose proof (CloseConn_conns (px_hub p) (px_connID p) true) as Hcn.
  assert (length (CloseConn (px_hub p) (px_connID p) true).2 ≤ 1)%nat as Hout.
  { unfold CloseConn. destruct (_ ≫= _) as [[? ?]|]; simpl; lia. }
  destruct (CloseConn _ _ _) as [[h b] out]. simpl in *. split; [|done]. split; simpl.
  - unfold closes in *. simpl. rewrite filter_app, length_app, filter_cons_True, filter_nil by done. simpl. lia.
  - intros _. by rewrite Hcn, lookup_delete_eq.
  - unfold notices in *. simpl. rewrite filter_app, length_app.
    pose proof (length_filter is_full_close out.*2). rewrite length_fmap in *. lia.
Qed.

Lemma tinv_bothFinished p : tinv p → tinv (bothFinished p) ∧
  (px_upDone p && px_downDone p = true → px_torn (bothFinished p) = true) ∧
  (px_torn p = true → px_torn (bothFinished p) = true).
Proof.
  intros H. unfold bothFinished. destruct (px_upDone p && px_downDone p); [|by split_and!].
  destruct (tinv_teardown p H) as [? ?]. by split_and!.
Qed.

Lemma ReleaseRecv_out h l n : Forall (λ m, ¬ is_full_close m) (ReleaseRecv h l n).2.*2 ∧
  conns (ReleaseRecv h l n).1 = conns h.
Proof.
  unfold ReleaseRecv. destruct (hub_entry h l); [|by split; [constructor|]].
  case_match; simpl; (split; [|done]); [constructor|]. constructor; [|constructor]. by intros [? _].
Qed.

(** Both directions finished implies torn down. *)
Definition fin (p : pconn) : Prop := px_upDone p && px_downDone p = true → px_torn p = true.

Lemma tsame_fin p p' :
  tsame p p' → px_upDone p' = px_upDone p → px_downDone p' = px_downDone p → fin p → fin p'.
Proof. intros [Et _ _ _ _ _] Hu Hd Hf. unfold fin. by rewrite Et, Hu, Hd. Qed.

Lemma teardown_flags p : px_upDone (teardown p) = px_upDone p ∧ px_downDone (teardown p) = px_downDone p.
Proof. unfold teardown. case_match; [done|]. by destruct (CloseConn _ _ _) as [[? ?] ?]. Qed.

Lemma tfin_pump_exit p : tinv p ∧ fin p → tinv (pump_exit (teardown p)) ∧ fin (pump_exit (teardown p)).
Proof.
  intros [H _]. destruct (tinv_teardown p H) as [H1 H2]. split; [|by intros _].
  eapply tinv_same; [exact H1|]. by split.
Qed.

Lemma tfin_up_exit p : tinv p ∧ fin p → tinv (up_exit p) ∧ fin (up_exit p).
Proof.
  intros [H _]. assert (tinv (set_up UExit p)) as H' by (eapply tinv_same; [exact H|by split]).
  destruct (tinv_teardown _ H') as [H1 H2]. split; [done|by intros _].
Qed.

Lemma tfin_same p p' :
  tinv p ∧ fin p → tsame p p' → px_upDone p' = px_upDone p → px_downDone p' = px_downDone p → tinv p' ∧ fin p'.
Proof. intros [H1 H2] Hs Hu Hd. split; [by eapply tinv_same|by eapply tsame_fin]. Qed.

Lemma tfin_pump p d payload rest ok :
  tinv p ∧ fin p → tinv (pump_payload p d payload rest ok) ∧ fin (pump_payload p d payload rest ok).
Proof.
  intros H. unfold pump_payload. set (p1 := set_hub _ p).
  assert (tinv p1 ∧ fin p1) as Hp1 by (eapply tfin_same; [exact H|by apply tsame_set_hub|done..]).
  destruct ok; [|by apply tfin_pump_exit]. pose proof (ReleaseRecv_out (px_hub p1) (px_loc p1) (length payload)) as [Ho Hc].
  destruct (ReleaseRecv _ _ _) as [h out]. simpl in *. eapply tfin_same; [exact Hp1| |done..].
  transitivity (add_ext (XWrite payload) p1); [by apply tsame_add_ext|].
  transitivity (set_hub h (add_ext (XWrite payload) p1)); [apply tsame_set_hub; by rewrite Hc|].
  transitivity (add_sent out.*2 (set_hub h (add_ext (XWrite payload) p1))); [by apply tsame_add_sent|]. by split.
Qed.

Lemma Downlink_conns pick h id payload h' b : Downlink pick h id payload = Some (h', b) → conns h' = conns h.
Proof.
  unfold Downlink. destruct (_ ≫= _) as [[l e]|]; [|by intros [= <- _]].
  assert (conns (count_out h l (length payload)) = conns h) by (unfold count_out; by case_match).
  repeat case_match; intros; by simplify_eq.
Qed.

Lemma tfin_step p ev p' : tinv p ∧ fin p → papply p ev = Some p' → tinv p' ∧ fin p'.
Proof.
  intros H Hap. unfold papply in Hap.
  destruct ev; try (destruct (px_entry p) as [e|] eqn:He; [|done]).
  - destruct (ce_Sink e); [done|]. destruct (px_down p); step_eq; by apply tfin_pump.
  - destruct (px_down p), (ce_RemoteClosed e); step_eq; eapply tfin_same; try exact H; by split.
  - destruct (px_down p) as [|[|]|], (ce_Sink e); step_eq; [|eapply tfin_same; try exact H; by split].
    set (p1 := set_finished (px_upDone p) true p). assert (tinv p1) as H1 by (eapply tinv_same; [apply H|by split]).
    assert (tinv (if px_canCloseWrite p1 then add_ext XCloseWrite p1 else p1)) as H2.
    { case_match; [|done]. eapply tinv_same; [exact H1|by apply tsame_add_ext]. }
    destruct (tinv_bothFinished _ H2) as (H3 & H4 & _). split; [exact H3|].
    intros Hud. apply H4. unfold bothFinished in Hud. case_match; [done|]. done.
  - destruct (px_down p), (ce_Done e); step_eq; by apply tfin_pump_exit.
  - destruct (px_down p), (px_stopped p); step_eq; eapply tfin_same; try exact H; by split.
  - destruct (px_up p); try done. destruct (closed _); [step_eq; by apply tfin_up_exit|].
    destruct (acquire_now _ _ _) as [w|]; [|done]. set (p1 := set_hub _ p) in *.
    assert (tinv p1 ∧ fin p1) as Hp1 by (eapply tfin_same; [exact H|by apply tsame_set_hub|done..]).
    destruct send_ok; step_eq; [|by apply tfin_up_exit]. eapply tfin_same; [exact Hp1| |done..].
    etransitivity; [|apply tsame_add_sent]; [by apply tsame_set_hub|]. constructor; [|constructor]. by intros [? _].
  - destruct (px_up p); step_eq. set (p1 := add_sent _ _).
    assert (tinv p1) as H1.
    { eapply tinv_same; [apply H|]. etransitivity; [|apply tsame_add_sent]; [by split|].
      constructor; [|constructor]. by intros [_ ?]. }
    destruct (tinv_bothFinished _ H1) as (H3 & H4 & _). split; [eapply tinv_same; [exact H3|by split]|].
    intros Hud. simpl in *. apply H4. unfold bothFinished in Hud. case_match; [done|]. done.
  - destruct (px_up p); step_eq. by apply tfin_up_exit.
  - destruct (px_up p), (px_stopped p); step_eq. by apply tfin_up_exit.
  - destruct (Downlink _ _ _ _) as [[h b]|] eqn:Hd; simpl in Hap; step_eq.
    eapply tfin_same; [exact H|apply tsame_set_hub; by rewrite (Downlink_conns _ _ _ _ _ _ Hd)|done..].
  - step_eq. eapply tfin_same; [exact H|apply tsame_set_hub|done..]. unfold ClientClosed.
    intros _. case_match; simpl; by rewrite lookup_delete_eq.
  - step_eq. eapply tfin_same; [exact H|apply tsame_set_hub|done..]. intros _. by rewrite CloseConn_conns, lookup_delete_eq.
Qed.

Lemma tfin_run p evs p' : tinv p ∧ fin p → prun p evs = Some p' → tinv p' ∧ fin p'.
Proof.
  revert p. induction evs as [|ev evs IH]; intros p H Hr; cbn [prun] in Hr; [by simplify_eq|].
  destruct (papply p ev) as [p1|] eqn:Hap; [|done]. eapply IH; [by eapply tfin_step|done].
Qed.

(** * Lemmas on the table and the choice *)

Definition rule_key (r : ConnectItem) : string * string := (ci_ClientProxyName r, ci_StreamId r).

(** Every rule is filed under its own proxy, once. *)
Definition ct_inv (t : ConnectTable) : Prop :=
  ∀ n, Forall (λ r, ci_ProxyName r = n) (For t n) ∧ NoDup (rule_key <$> For t n).

Lemma sameConnectRule_key a b :
  sameConnectRule a b = true ↔ ci_ProxyName a = ci_ProxyName b ∧ rule_key a = rule_key b.
Proof.
  unfold sameConnectRule, rule_key. rewrite !andb_true_iff, !String.eqb_eq. split; [intros [[-> ->] ->]; done|].
  by intros [-> [= -> ->]].
Qed.

Lemma rules_of_insert t n l n' :
  rules_of (mkConnectTable (<[n := l]> (rules t))) n' = if decide (n = n') then l else rules_of t n'.
Proof.
  unfold rules_of. simpl. case_decide as Hn; [subst; by rewrite lookup_insert_eq|by rewrite lookup_insert_ne].
Qed.

Lemma Add_cases t r :
  ct_inv t →
  if bool_decide (rule_key r ∈ rule_key <$> For t (ci_ProxyName r)) then Add t r = (t, false)
  else (Add t r).2 = true ∧
       ∀ n, For (Add t r).1 n = if decide (ci_ProxyName r = n) then For t n ++ [r] else For t n.
Proof.
  intros Hinv. unfold Add, For. destruct (existsb _ _) eqn:E.
  - apply existsb_exists in E as (r' & Hin%list_elem_of_In & Hs%sameConnectRule_key).
    rewrite bool_decide_true; [done|]. apply list_elem_of_fmap. exists r'. by destruct Hs.
  - rewrite bool_decide_false.
    + split; [done|]. intros n. simpl. rewrite rules_of_insert. case_decide; by subst.
    + intros (r' & Hk & Hin)%list_elem_of_fmap. apply not_true_iff_false in E. apply E. apply existsb_exists.
      exists r'. split; [by apply list_elem_of_In|]. apply sameConnectRule_key. split; [|done].
      destruct (Hinv (ci_ProxyName r)) as [Hf _]. rewrite Forall_forall in Hf. by apply Hf.
Qed.

Lemma ct_inv_Add t r : ct_inv t → ct_inv (Add t r).1.
Proof.
  intros Hinv. pose proof (Add_cases t r Hinv) as H. case_bool_decide as Hk; [by rewrite H|].
  destruct H as [_ H]. intros n. rewrite H. case_decide as Hn; [|apply Hinv]. subst n.
  destruct (Hinv (ci_ProxyName r)) as [Hf Hnd]. split.
  - apply Forall_app. split; [done|]. by constructor.
  - rewrite fmap_app. apply NoDup_app. split_and!; [done| |apply NoDup_singleton].
    intros x Hx ->%list_elem_of_singleton. by apply Hk.
Qed.

(** Removing a key from a list where keys are unique. *)
Lemma remove_rule_spec c s l :
  NoDup (rule_key <$> l) →
  remove_rule c s l =
    if bool_decide ((c, s) ∈ rule_key <$> l) then Some (filter (λ r, rule_key r ≠ (c, s)) l) else None.
Proof.
  induction l as [|r l IH]; intros Hnd; cbn [remove_rule].
  { by rewrite bool_decide_false by (by intros ?%elem_of_nil). }
  rewrite fmap_cons in Hnd. apply NoDup_cons in Hnd as [Hr Hnd].
  destruct (String.eqb (ci_ClientProxyName r) c && String.eqb (ci_StreamId r) s) eqn:E.
  - apply andb_true_iff in E as [<-%String.eqb_eq <-%String.eqb_eq].
    rewrite bool_decide_true by (rewrite fmap_cons; by left). f_equal. rewrite filter_cons_False by (by intros []).
    symmetry. apply filter_all. intros r' Hin Heq. apply Hr. change (rule_key r) with (ci_ClientProxyName r, ci_StreamId r). rewrite <- Heq. by apply list_elem_of_fmap_2.
  - assert (rule_key r ≠ (c, s)) as Hne.
    { intros [= <- <-]. by rewrite !String.eqb_refl in E. }
    rewrite IH by done. rewrite filter_cons_True by done. rewrite fmap_cons. 
    rewrite (bool_decide_ext ((c, s) ∈ rule_key r :: (rule_key <$> l)) ((c, s) ∈ rule_key <$> l)).
    { by case_bool_decide. }
    rewrite elem_of_cons. naive_solver.
Qed.

(** The loop of [pickEntry] finds the first available rule of the rotation. *)
Lemma pick_from_rotation tbl targets start i k :
  targets ≠ [] → (k ≤ length targets)%nat → 0 ≤ start → 0 ≤ i →
  pick_from tbl targets start i k =
    head (omap (rule_entry tbl)
      (take k (rotate (Z.to_nat ((start + i) mod Z.of_nat (length targets))) targets))).
Proof.
  intros Hne Hk Hs. revert i Hk. induction k as [|k IH]; intros i Hk Hi; [done|]. cbn [pick_from].
  set (n := length targets) in *. assert (0 < n)%nat as Hn by (unfold n; destruct targets; simpl; [done|lia]).
  set (j := Z.to_nat ((start + i) mod Z.of_nat n)).
  assert (j < n)%nat as Hj by (pose proof (Z.mod_pos_bound (start + i) (Z.of_nat n)); lia).
  destruct (lookup_lt_is_Some_2 targets j Hj) as [t Ht]. rewrite Ht. cbn [mbind option_bind].
  assert (rotate j targets = t :: (drop (S j) targets ++ take j targets)) as Hrot.
  { unfold rotate. fold n. rewrite Nat.mod_small by done. by rewrite (drop_S _ t). }
  rewrite Hrot. cbn [take omap list_omap]. destruct (rule_entry tbl t) as [e|]; [done|].
  rewrite IH by lia. f_equal. f_equal.
  pose proof (Z.mod_pos_bound (start + i) (Z.of_nat n) ltac:(lia)) as Hm.
  assert (Z.to_nat ((start + (i + 1)) mod Z.of_nat n) = if decide (S j = n) then 0%nat else S j) as ->.
  { rewrite Z.add_assoc, <- Z.add_mod_idemp_l by lia. case_decide as Hd.
    - replace ((start + i) mod Z.of_nat n) with (Z.of_nat n - 1) by lia. replace (Z.of_nat n - 1 + 1) with (Z.of_nat n) by lia.
      rewrite Z.mod_same by lia. done.
    - rewrite Z.mod_small; lia. }
  case_decide as Hd.
  - rewrite drop_ge by lia. cbn [app]. unfold rotate. rewrite Nat.Div0.mod_0_l. rewrite drop_0, take_0, app_nil_r.
    rewrite take_take. f_equal. lia.
  - unfold rotate. fold n. rewrite Nat.mod_small by lia.
    rewrite (take_S_r _ _ t) by done. rewrite app_assoc. rewrite take_app_le; [done|].
    rewrite length_app, length_drop, length_take. clearbody j. fold n. lia.
Qed.

(** * Properties *)

(** [pickEntry] is a round robin over the rules of its proxy: it advances the
    counter and returns the stream of the first available rule, starting from
    the counter's position and going once around; nothing is returned only when
    no rule has an available stream, and without rules the counter stays. *)
Theorem pickEntry_round_robin tbl ct proxyName rr :
  let targets := For ct proxyName in
  pickEntry tbl ct proxyName rr =
    match targets with
    | [] => (rr, None)
    | _ => (u32 (rr + 1),
            head (omap (rule_entry tbl) (rotate (Z.to_nat (u32 (rr + 1) mod Z.of_nat (length targets))) targets)))
    end ∧
  ((pickEntry tbl ct proxyName rr).2 = None ↔ Forall (λ r, rule_entry tbl r = None) targets).
Proof.
  intros targets. assert (pickEntry tbl ct proxyName rr =
    match targets with
    | [] => (rr, None)
    | _ => (u32 (rr + 1),
            head (omap (rule_entry tbl) (rotate (Z.to_nat (u32 (rr + 1) mod Z.of_nat (length targets))) targets)))
    end) as Heq.
  { unfold pickEntry. fold targets. destruct targets as [|t0 ts]; [done|]. f_equal.
    pose proof (u32_range (rr + 1)). rewrite pick_from_rotation by (done || lia). rewrite Z.add_0_r.
    rewrite take_ge; [done|]. by rewrite length_rotate. }
  split; [exact Heq|]. rewrite Heq. destruct targets as [|t0 ts]; [by split|]. cbn [snd].
  set (k := Z.to_nat _). set (l := t0 :: ts).
  assert (Forall (λ r, rule_entry tbl r = None) l ↔ Forall (λ r, rule_entry tbl r = None) (rotate k l)) as ->.
  { unfold rotate. rewrite <- (take_drop (k mod length l) l) at 1. rewrite !Forall_app. tauto. }
  generalize (rotate k l). clear. intros l. induction l as [|r l IH]; [by split|]. cbn [omap list_omap].
  rewrite Forall_cons. destruct (rule_entry tbl r) as [e|] eqn:E; [naive_solver|]. rewrite IH. tauto.
Qed.

(** The routing table behaves as a list of distinct rules per proxy: after any
    sequence of additions and removals every rule is filed under its own proxy
    and no rule is held twice; adding answers false exactly for a rule already
    there, and otherwise appends it; removing takes out exactly the rule of that
    proxy, client and stream, and answers whether there was one; no operation
    touches another proxy's rules. *)
Theorem connect_table_spec t r proxyName c s :
  ct_inv t →
  ct_inv (Add t r).1 ∧ ct_inv (RemoveRule t proxyName c s).1 ∧ ct_inv NewConnectTable ∧
  ((Add t r).2 = false ↔ r ∈ For t (ci_ProxyName r) ∨ rule_key r ∈ rule_key <$> For t (ci_ProxyName r)) ∧
  (∀ n, For (Add t r).1 n =
     if (Add t r).2 && bool_decide (n = ci_ProxyName r) then For t n ++ [r] else For t n) ∧
  ((RemoveRule t proxyName c s).2 = true ↔ (c, s) ∈ rule_key <$> For t proxyName) ∧
  (∀ n, For (RemoveRule t proxyName c s).1 n =
     if bool_decide (n = proxyName) then filter (λ r, rule_key r ≠ (c, s)) (For t n) else For t n).
Proof.
  intros Hinv. pose proof (Add_cases t r Hinv) as Ha.
  assert (∀ n, For (RemoveRule t proxyName c s).1 n =
     if bool_decide (n = proxyName) then filter (λ r, rule_key r ≠ (c, s)) (For t n) else For t n) as Hrem.
  { intros n. unfold RemoveRule. rewrite remove_rule_spec by apply Hinv.
    destruct (bool_decide_reflect ((c, s) ∈ rule_key <$> rules_of t proxyName)) as [Hin|Hin]; cbn [fst].
    - unfold For. rewrite rules_of_insert.
      destruct (decide (proxyName = n)) as [->|Hn]; [by rewrite bool_decide_true|by rewrite bool_decide_false by congruence].
    - destruct (bool_decide_reflect (n = proxyName)) as [->|]; [|done]. symmetry. apply filter_all. intros x Hx Hk. apply Hin.
      rewrite <- Hk. by apply list_elem_of_fmap_2. }
  split_and!.
  - by apply ct_inv_Add.
  - intros n. rewrite Hrem. destruct (Hinv n) as [Hf Hnd].
    destruct (bool_decide_reflect (n = proxyName)) as [->|]; [|done]. split.
    + apply Forall_forall. intros x [_ Hx]%list_elem_of_filter. rewrite Forall_forall in Hf. by apply Hf.
    + eapply sublist_NoDup; [exact Hnd|]. apply fmap_sublist, sublist_filter.
  - intros n. unfold For, rules_of, NewConnectTable. simpl. rewrite lookup_empty. by split; constructor.
  - case_bool_decide as Hk.
    + rewrite Ha. split; [by right|done].
    + destruct Ha as [-> _]. split; [done|]. intros [Hin|?]; [|done]. exfalso. apply Hk. by apply list_elem_of_fmap_2.
  - intros n. destruct (bool_decide_reflect (rule_key r ∈ rule_key <$> For t (ci_ProxyName r))) as [Hk|Hk].
    + rewrite Ha. done.
    + destruct Ha as [Ht Hf]. rewrite Ht, Hf. cbn [andb].
      destruct (decide (ci_ProxyName r = n)) as [->|Hn]; [by rewrite bool_decide_true|by rewrite bool_decide_false by congruence].
  - unfold RemoveRule. rewrite remove_rule_spec by apply Hinv. unfold For.
    destruct (bool_decide_reflect ((c, s) ∈ rule_key <$> rules_of t proxyName)); simpl; split; done.
  - exact Hrem.
Qed.

(** C19: The downlink of a proxied connection keeps every byte in order: in any
    history (the client's data and close frames, the pump, the 50 ms timers, the
    external side's reads, failures and flow control, interleaved in any way),
    what the external connection was sent is always a prefix of what the hub
    accepted for it, complete up to what is still queued while the pump runs; and
    the end of file is passed on to it only after everything was sent. *)
Theorem downlink_ordered h l connID cw e evs p :
  hub_entry h l = Some e → conns h !! connID = Some l → ce_Sink e = [] → ce_RemoteClosed e = false →
  prun (start_conn h l connID cw) evs = Some p →
  let D := delivered (start_conn h l connID cw) evs in
  px_written p `prefix_of` D ∧
  (px_down p ≠ DExit → ∃ e', px_entry p = Some e' ∧ D = px_written p ++ ce_Sink e') ∧
  (XCloseWrite ∈ px_ext p → px_written p = D).
Proof.
  intros He Hl Hs Hrc Hr D. assert (pinv [] (start_conn h l connID cw)) as H0.
  { split; simpl; [|intros l' Hl'; congruence]. exists e, []. unfold px_entry. simpl. rewrite Hs, Hrc.
    split_and!; try done. by intros ?%elem_of_nil. }
  destruct (pinv_run _ _ _ _ H0 Hr) as [(e' & lost & He' & HD & Hlost & _ & _ & Hcw) _].
  simpl in HD, Hcw. fold D in HD, Hcw. split_and!.
  - rewrite HD. by eexists.
  - intros Hne. exists e'. split; [done|]. rewrite HD. by rewrite (Hlost Hne).
  - intros Hx. by destruct (Hcw Hx).
Qed.

(** A proxied connection is torn down at most once, whatever the history: the
    external connection is closed at most once and the client is sent at most
    one full close; once it is torn down the connection has left the hub and both
    goroutines are told to stop; and when both directions have finished, it is
    torn down. *)
Theorem teardown_once h l connID cw evs p :
  prun (start_conn h l connID cw) evs = Some p →
  closes p = (if px_torn p then 1%nat else 0%nat) ∧ (notices p ≤ if px_torn p then 1 else 0)%nat ∧
  (px_torn p = true → conns (px_hub p) !! connID = None ∧ px_stopped p = true) ∧
  (px_upDone p = true → px_downDone p = true → px_torn p = true).
Proof.
  intros Hr. assert (tinv (start_conn h l connID cw) ∧ fin (start_conn h l connID cw)) as H0.
  { split; [by split|done]. }
  destruct (tfin_run _ _ _ H0 Hr) as [[Hc Ht Hn] Hf].
  assert (px_connID p = connID) as Hid.
  { clear -Hr. assert (∀ evs p0 p, prun p0 evs = Some p → px_connID p = px_connID p0) as Hg.
    { clear. induction evs as [|ev evs IH]; intros p0 p Hr; cbn [prun] in Hr; [by simplify_eq|].
      destruct (papply p0 ev) as [p1|] eqn:Hap; [|done]. apply IH in Hr as ->.
      assert (∀ p, px_connID (teardown p) = px_connID p) as Htd.
      { intros q. unfold teardown. case_match; [done|]. by destruct (CloseConn _ _ _) as [[? ?] ?]. }
      unfold papply in Hap. destruct ev, (px_entry p0); try done;
        repeat (case_match; simplify_eq/=; try done); unfold pump_payload, up_exit, pump_exit, bothFinished in *;
        repeat (case_match; simplify_eq/=; try done); rewrite ?Htd; try done.
      all: match goal with
           | H : context [Downlink ?a ?b ?c ?d] |- _ => destruct (Downlink a b c d); by simplify_eq/=
           | H : Some _ = Some _ |- _ => by injection H as <-
           end. }
    by apply Hg in Hr. }
  split_and!; [done|done|by rewrite Hid in Ht|]. intros Hu Hd. apply Hf. by rewrite Hu, Hd.
Qed.

(** After the client has half-closed a connection the server can no longer
    tell it anything about it: the half close removed the mapping, so when the
    external side then fails, the connection is torn down and closed outside but
    no frame is sent to the client, whose backend connection stays; and the hub
    entry itself is never closed. *)
Theorem half_closed_unnotified h l connID e cw :
  conns h !! connID = Some l → hub_entry h l = Some e →
  ∃ p e', prun (start_conn h l connID cw) [EvClientHalf; EvReadErr] = Some p ∧
    px_torn p = true ∧ px_ext p = [XClose] ∧ px_sent p = [] ∧
    px_entry p = Some e' ∧ ce_Done e' = ce_Done e ∧ closed (ce_SendWin e') = closed (ce_SendWin e).
Proof.
  intros Hc He. set (h1 := (ClientClosed h connID).1).
  assert (conns h1 !! connID = None ∧ hub_entry h1 l = Some (set_remote_closed e)) as [Hc1 He1].
  { unfold h1, ClientClosed. rewrite Hc. simpl. rewrite lookup_delete_eq. split; [done|].
    unfold markRemoteClosed. rewrite hub_entry_upd, decide_True by done.
    change (hub_entry (with_conns h _) l) with (hub_entry h l). by rewrite He. }
  exists (up_exit (set_hub h1 (start_conn h l connID cw))), (set_remote_closed e). split; [reflexivity|].
  unfold up_exit, teardown. cbn [px_torn set_up set_hub start_conn px_hub px_connID].
  assert (CloseConn h1 connID true = (with_conns h1 (delete connID (conns h1)), false, [])) as ->.
  { unfold CloseConn. by rewrite Hc1. }
  by split_and!.
Qed.

(** The drain loop never ends on its own: once the client has half-closed and
    the queue has stayed empty, every further 50 ms the pump signals the end of
    file to the external connection again, for as long as the uplink is open. *)
Theorem drain_repeats_close_write h l connID e k :
  conns h !! connID = Some l → hub_entry h l = Some e → ce_Sink e = [] →
  ∃ p, prun (start_conn h l connID true) ([EvClientHalf; EvRemoteClosed; EvTick] ++ replicate k EvTick) = Some p ∧
    px_ext p = replicate k XCloseWrite ∧ px_down p = DDrain true ∧ px_torn p = false.
Proof.
  intros Hc He Hs. set (h1 := (ClientClosed h connID).1).
  assert (hub_entry h1 l = Some (set_remote_closed e)) as He1.
  { unfold h1, ClientClosed. rewrite Hc. simpl. unfold markRemoteClosed. rewrite hub_entry_upd, decide_True by done.
    change (hub_entry (with_conns h _) l) with (hub_entry h l). by rewrite He. }
  assert (∀ j d ext, ∃ p, prun (mkPconn h1 l connID (DDrain true) UReading false d false false true ext [])
      (replicate j EvTick) = Some p ∧ px_ext p = ext ++ replicate j XCloseWrite ∧
      px_down p = DDrain true ∧ px_torn p = false) as Hticks.
  { induction j as [|j IH]; intros d ext; cbn [replicate prun].
    - eexists. split; [done|]. simpl. by rewrite app_nil_r.
    - unfold papply, px_entry. simpl. rewrite He1. simpl. rewrite Hs. simpl. unfold bothFinished. simpl.
      destruct (IH true (ext ++ [XCloseWrite])) as (p & Hp & Hx & Hd). exists p. split; [exact Hp|].
      split; [|exact Hd]. by rewrite Hx, <- app_assoc. }
  destruct (Hticks k false []) as (p & Hp & Hx). exists p. split; [|exact Hx].
  set (p1 := set_hub h1 (start_conn h l connID true)).
  assert (papply p1 EvRemoteClosed = Some (set_down (DDrain false) p1)) as H2.
  { unfold papply. change (px_entry p1) with (hub_entry h1 l). by rewrite He1. }
  assert (papply (set_down (DDrain false) p1) EvTick = Some (set_down (DDrain true) p1)) as H3.
  { unfold papply. change (px_entry (set_down (DDrain false) p1)) with (hub_entry h1 l). rewrite He1.
    cbn [px_down set_down ce_Sink set_remote_closed]. by rewrite Hs. }
  change (papply (start_conn h l connID true) EvClientHalf) with (Some p1).
  cbn [app prun]. change (papply (start_conn h l connID true) EvClientHalf) with (Some p1).
  cbn [mbind option_bind]. rewrite H2. cbn [mbind option_bind]. rewrite H3. exact Hp.
Qed.

(** * A concrete connection *)

Definition demo_evs : list pevent :=
  [EvDownlink [x61]; EvSink true; EvDownlink [x62]; EvRead [x78; x79] true; EvClientHalf; EvRemoteClosed;
   EvSink true; EvTick; EvTick; EvEOF; EvUpStop].

Lemma downlink_ordered_witness :
  ∃ p, prun (start_conn demo_hub 0 1 true) demo_evs = Some p ∧ px_written p = [[x61]; [x62]] ∧
    px_written p = delivered (start_conn demo_hub 0 1 true) demo_evs.
Proof.
  destruct (prun (start_conn demo_hub 0 1 true) demo_evs) as [p|] eqn:Hp; [|vm_compute in Hp; discriminate].
  exists p. split; [reflexivity|].
  assert (px_written p = [[x61]; [x62]] ∧ XCloseWrite ∈ px_ext p) as [Hw Hx].
  { vm_compute in Hp. injection Hp as <-. split; [reflexivity|]. vm_compute. right. right. left. }
  split; [exact Hw|].
  destruct (hub_entry demo_hub 0) as [e|] eqn:He; [|vm_compute in He; discriminate].
  destruct (downlink_ordered demo_hub 0 1 true e demo_evs p He) as (_ & _ & H).
  - reflexivity.
  - vm_compute in He. injection He as <-. reflexivity.
  - vm_compute in He. injection He as <-. reflexivity.
  - exact Hp.
  - exact (H Hx).
Defined.

Lemma teardown_once_witness :
  ∃ p, prun (start_conn demo_hub 0 1 true) demo_evs = Some p ∧ closes p = 1%nat ∧ px_torn p = true.
Proof.
  destruct (prun (start_conn demo_hub 0 1 true) demo_evs) as [p|] eqn:Hp; [|vm_compute in Hp; discriminate].
  exists p. split; [reflexivity|]. destruct (teardown_once demo_hub 0 1 true demo_evs p Hp) as (Hc & _).
  assert (px_torn p = true) as Ht by (vm_compute in Hp; injection Hp as <-; reflexivity).
  rewrite Ht in Hc. split; [exact Hc|exact Ht].
Defined.

Lemma demo_entry_at : ∃ e, hub_entry demo_hub 0 = Some e ∧ ce_Sink e = [].
Proof. eexists. split; reflexivity. Defined.

Lemma half_closed_unnotified_witness :
  ∃ p, prun (start_conn demo_hub 0 1 false) [EvClientHalf; EvReadErr] = Some p ∧ px_sent p = [].
Proof.
  destruct demo_entry_at as (e & He & _).
  destruct (half_closed_unnotified demo_hub 0 1 e false eq_refl He) as (p & _ & Hp & _ & _ & Hs & _).
  exists p. split; [exact Hp|exact Hs].
Defined.

Lemma drain_repeats_close_write_witness :
  ∃ p, prun (start_conn demo_hub 0 1 true) ([EvClientHalf; EvRemoteClosed; EvTick] ++ replicate 3 EvTick) = Some p ∧
    px_ext p = [XCloseWrite; XCloseWrite; XCloseWrite].
Proof.
  destruct demo_entry_at as (e & He & Hs).
  destruct (drain_repeats_close_write demo_hub 0 1 e 3 eq_refl He Hs) as (p & Hp & Hx & _).
  exists p. split; [exact Hp|exact Hx].
Defined.

Lemma connect_table_spec_witness :
  ct_inv NewConnectTable ∧
  (Add (Seed NewConnectTable [mkConnectItem "in" "" "home" "ssh"]) (mkConnectItem "in" "x" "home" "ssh")).2 = false.
Proof.
  assert (ct_inv NewConnectTable) as H0.
  { intros n. unfold For, rules_of, NewConnectTable. simpl. rewrite lookup_empty. split; constructor. }
  split; [exact H0|].
  assert (ct_inv (Seed NewConnectTable [mkConnectItem "in" "" "home" "ssh"])) as H1.
  { apply (connect_table_spec NewConnectTable (mkConnectItem "in" "" "home" "ssh") "" "" "" H0). }
  destruct (connect_table_spec _ (mkConnectItem "in" "x" "home" "ssh") "" "" "" H1) as (_ & _ & _ & Hdup & _).
  apply Hdup. right. vm_compute. left.
Defined.
