(* ===== verification/Ws.v ===== *)
(** The WebSocket layer (protocol/ws/ws.go): frames and their masking, reading
    and reassembling messages, writing, closing, and the decisions of the
    upgrade handshake. *)
From S2P Require Import Prelude.
From Stdlib Require Import ZArith Lia.

(** * Frames *)

Definition OpContinuation : Z := 0.
Definition OpText : Z := 1.
Definition OpBinary : Z := 2.
Definition OpClose : Z := 8.
Definition OpPing : Z := 9.
Definition OpPong : Z := 10.

Definition MaxMessageSize : Z := 2 ^ 20.

(** [payload[i] ^= maskKey[i%4]] *)
Definition mask (key : list byte) (payload : list byte) : list byte :=
  imap (λ i b, bxor b (nth (i mod 4) key x00)) payload.

(** The length of a payload: the low 7 bits of the second byte, and its
    extension. *)
Definition length_field (n : nat) : Z * list byte :=
  if Nat.ltb n 126 then (Z.of_nat n, [])
  else if Z.of_nat n <=? 65535 then (126, be_put 2 (u16 (Z.of_nat n)))
  else (127, be_put 8 (u64 (Z.of_nat n))).

(** The frame [writeFrame] builds; [key] is the masking key of a client. *)
Definition encode_frame (key : option (list byte)) (fin : bool) (opcode : Z) (payload : list byte) : list byte :=
  let '(len, ext) := length_field (length payload) in
  let b0 := if fin then Z.lor opcode 128 else opcode in
  match key with
  | Some k => [z2b b0; z2b (Z.lor 128 len)] ++ ext ++ k ++ mask k payload
  | None => [z2b b0; z2b len] ++ ext ++ payload
  end.

Inductive ws_err :=
  | WsIO (e : io_err)
  | WsReserved
  | WsTooLarge (n : Z)
  | WsContinuation
  | WsOpcode (op : Z)
  | WsClosed
  | WsWrite.

Record ws_frame := mkWsFrame { fr_fin : bool; fr_op : Z; fr_payload : list byte }.

Definition read_length (b1 : Z) (r : list byte) : result ws_err (Z * list byte) :=
  let length := Z.land b1 127 in
  if length =? 126 then '(ext, r) ← map_err WsIO (read_full 2 r); Ok (be_get ext, r)
  else if length =? 127 then '(ext, r) ← map_err WsIO (read_full 8 r); Ok (be_get ext, r)
  else Ok (length, r).

Definition readFrame (r : list byte) : result ws_err (ws_frame * list byte) :=
  '(head, r) ← map_err WsIO (read_full 2 r);
  let b0 := b2z (nth 0 head x00) in
  let b1 := b2z (nth 1 head x00) in
  if negb (Z.land b0 112 =? 0) then Err WsReserved
  else
    '(len, r) ← read_length b1 r;
    if MaxMessageSize <? len then Err (WsTooLarge len)
    else
      let masked := negb (Z.land b1 128 =? 0) in
      '(key, r) ← (if masked then map_err WsIO (read_full 4 r) else Ok ([], r));
      '(payload, r) ← map_err WsIO (read_full (Z.to_nat len) r);
      Ok (mkWsFrame (negb (Z.land b0 128 =? 0)) (Z.land b0 15) (if masked then mask key payload else payload), r).

(** * Connections *)

(** [ws_in] is what is left to read; [ws_out] the frames written, in order;
    [ws_nonce] counts the masking keys drawn from the random source. *)
Record Conn := mkConn {
  ws_in : list byte;
  ws_client : bool;
  ws_closed : bool;
  ws_out : list (list byte);
  ws_broken : bool;
  ws_nonce : nat;
}.

Section conn.
(** crypto/rand: the [i]-th 4-byte key. *)
Variable rand : nat → list byte.

Definition writeFrame (c : Conn) (fin : bool) (opcode : Z) (payload : list byte) : Conn * option ws_err :=
  if ws_closed c then (c, Some WsClosed)
  else
    let key := if ws_client c then Some (rand (ws_nonce c)) else None in
    let nonce := if ws_client c then S (ws_nonce c) else ws_nonce c in
    if ws_broken c then (mkConn (ws_in c) (ws_client c) (ws_closed c) (ws_out c) (ws_broken c) nonce, Some WsWrite)
    else (mkConn (ws_in c) (ws_client c) (ws_closed c) (ws_out c ++ [encode_frame key fin opcode payload])
            (ws_broken c) nonce, None).

Definition writeControl (c : Conn) (opcode : Z) (payload : list byte) : Conn * option ws_err :=
  writeFrame c true opcode payload.

Definition WriteMessage (c : Conn) (payload : list byte) : Conn * option ws_err :=
  writeFrame c true OpBinary payload.

(** [Close]: the flag is set before the close frame is written. *)
Definition Close (c : Conn) : Conn :=
  let closed := ws_closed c in
  let c := mkConn (ws_in c) (ws_client c) true (ws_out c) (ws_broken c) (ws_nonce c) in
  if closed then c else (writeFrame c true OpClose []).1.

Definition set_in (r : list byte) (c : Conn) : Conn :=
  mkConn r (ws_client c) (ws_closed c) (ws_out c) (ws_broken c) (ws_nonce c).

(** The loop of [ReadMessage] with what has been assembled so far; every frame
    takes at least two bytes, so the length of the input is fuel enough. *)
Fixpoint read_loop (fuel : nat) (c : Conn) (assembling : option (list byte)) : Conn * result ws_err (list byte) :=
  match fuel with
  | O => (c, Err (WsIO EOF))
  | S fuel =>
      match readFrame (ws_in c) with
      | Err e => (c, Err e)
      | Ok (f, r) =>
          let c := set_in r c in
          let op := fr_op f in
          if (op =? OpText) || (op =? OpBinary) then
            if fr_fin f then (c, Ok (fr_payload f)) else read_loop fuel c (Some (fr_payload f))
          else if op =? OpContinuation then
            match assembling with
            | None => (c, Err WsContinuation)
            | Some msg =>
                if fr_fin f then (c, Ok (msg ++ fr_payload f)) else read_loop fuel c (Some (msg ++ fr_payload f))
            end
          else if op =? OpPing then
            match writeControl c OpPong (fr_payload f) with
            | (c, Some e) => (c, Err e)
            | (c, None) => read_loop fuel c assembling
            end
          else if op =? OpPong then read_loop fuel c assembling
          else if op =? OpClose then ((writeControl c OpClose []).1, Err (WsIO EOF))
          else (c, Err (WsOpcode op))
      end
  end.

Definition ReadMessage (c : Conn) : Conn * result ws_err (list byte) := read_loop (S (length (ws_in c))) c None.
End conn.

(** * The upgrade handshake *)

Section handshake.
(** net/http's parsed headers, strings.EqualFold and ToLower, and
    base64(sha1(s)). *)
Variable equalFold : string → string → bool.
Variable toLower : string → string.
Variable sha1_base64 : string → string.

Fixpoint contains (sub s : string) : bool :=
  String.prefix sub s || match s with EmptyString => false | String _ s => contains sub s end.

Definition websocketGUID : string := "258EAFA5-E914-47DA-95CA-C5AB0DC85B11".

Definition acceptKey (key : string) : string := sha1_base64 (key +:+ websocketGUID).

Inductive accept_err := NotUpgrade | MissingKey.

(** The checks of [Accept] on a request's headers, and the [Sec-WebSocket-Accept]
    of its answer. *)
Definition accept_response (upgrade connection key : string) : result accept_err string :=
  if negb (equalFold upgrade "websocket") || negb (contains "upgrade" (toLower connection)) then Err NotUpgrade
  else if String.eqb key "" then Err MissingKey
  else Ok (acceptKey key).

Inductive dial_err := BadStatus (code : Z) | AcceptMismatch.

(** The checks of [Dial] on the response to a request with this key. *)
Definition dial_check (key : string) (status : Z) (accept : string) : result dial_err unit :=
  if negb (status =? 101) then Err (BadStatus status)
  else if negb (String.eqb accept (acceptKey key)) then Err AcceptMismatch
  else Ok tt.
End handshake.

(** Splits at the first slash. *)
Fixpoint split_slash (s : string) : option (string * string) :=
  match s with
  | EmptyString => None
  | String "/" s' => Some (EmptyString, s)
  | String a s' => (λ '(x, y), (String a x, y)) <$> split_slash s'
  end.

Fixpoint drop_str (n : nat) (s : string) : string :=
  match n, s with
  | S n, String _ s => drop_str n s
  | _, _ => s
  end.

(** The host and the path [Dial] uses for an address. *)
Definition dial_target (addr : string) : string * string :=
  if String.prefix "ws://" addr then
    let rest := drop_str 5 addr in
    match split_slash rest with
    | Some (host, path) => (host, path)
    | None => (rest, "/"%string)
    end
  else (addr, "/"%string).

(** * Lemmas on frames *)

Lemma length_mask key p : length (mask key p) = length p.
Proof. apply length_imap. Qed.

Lemma mask_involutive key p : mask key (mask key p) = p.
Proof.
  apply list_eq. intros i. unfold mask. rewrite !list_lookup_imap. destruct (p !! i) as [b|]; [|done]. simpl.
  by rewrite bxor_involutive.
Qed.

Definition first_byte_ok (op : Z) : bool :=
  let t := Z.lor op 128 in
  (u8 t =? t) && (u8 op =? op) && (Z.land t 112 =? 0) && (Z.land op 112 =? 0) && negb (Z.land t 128 =? 0)
  && (Z.land op 128 =? 0) && (Z.land t 15 =? op) && (Z.land op 15 =? op).

Lemma first_byte op : 0 ≤ op < 16 → first_byte_ok op = true.
Proof. apply (small_check first_byte_ok 16). vm_compute. reflexivity. Qed.

Definition second_byte_ok (len : Z) : bool :=
  let t := Z.lor 128 len in
  (u8 t =? t) && (u8 len =? len) && (Z.land t 127 =? len) && (Z.land len 127 =? len) && negb (Z.land t 128 =? 0)
  && (Z.land len 128 =? 0).

Lemma second_byte len : 0 ≤ len < 128 → second_byte_ok len = true.
Proof. apply (small_check second_byte_ok 128). vm_compute. reflexivity. Qed.

Lemma length_field_range n : 0 ≤ (length_field n).1 < 128.
Proof.
  unfold length_field. destruct (Nat.ltb_spec n 126); simpl; [lia|]. destruct (Z.of_nat n <=? 65535); simpl; lia.
Qed.

(** Reading a length field back; [b1] is the second byte, mask bit or not. *)
Lemma read_length_field n b1 rest :
  Z.of_nat n < 2 ^ 63 → Z.land b1 127 = (length_field n).1 →
  read_length b1 ((length_field n).2 ++ rest) = Ok (Z.of_nat n, rest).
Proof.
  intros Hn. unfold length_field, read_length. destruct (Nat.ltb_spec n 126) as [Hlt|Hge]; cbn [fst snd app].
  { intros ->. destruct (Z.eqb_spec (Z.of_nat n) 126); [lia|]. destruct (Z.eqb_spec (Z.of_nat n) 127); [lia|]. done. }
  destruct (Z.leb_spec (Z.of_nat n) 65535); cbn [fst snd]; intros ->; cbn [Z.eqb Pos.eqb].
  - rewrite (read_full_app' 2) by apply length_be_put. cbn [map_err mbind result_bind].
    rewrite be_get_put; [|unfold u16; apply (Z.mod_pos_bound (Z.of_nat n) (2 ^ 16)); lia].
    unfold u16. by rewrite Z.mod_small by lia.
  - rewrite (read_full_app' 8) by apply length_be_put. cbn [map_err mbind result_bind].
    rewrite be_get_put; [|unfold u64; apply (Z.mod_pos_bound (Z.of_nat n) (2 ^ 64)); lia].
    unfold u64. by rewrite Z.mod_small by lia.
Qed.

Definition key_ok (key : option (list byte)) : Prop := match key with Some k => length k = 4%nat | None => True end.

Lemma readFrame_encode key fin op payload rest :
  key_ok key → 0 ≤ op < 16 → Z.of_nat (length payload) < 2 ^ 63 →
  readFrame (encode_frame key fin op payload ++ rest) =
    if MaxMessageSize <? Z.of_nat (length payload) then Err (WsTooLarge (Z.of_nat (length payload)))
    else Ok (mkWsFrame fin op payload, rest).
Proof.
  intros Hk Hop Hlen. unfold encode_frame, readFrame.
  pose proof (first_byte op Hop) as H1. unfold first_byte_ok in H1. rewrite !andb_true_iff, !negb_true_iff in H1.
  destruct H1 as [[[[[[[H1 H2] H3] H4] H5] H6] H7] H8]. bool_to_prop.
  pose proof (length_field_range (length payload)) as Hr.
  pose proof (read_length_field (length payload)) as Hrl. specialize (λ b1 r, Hrl b1 r Hlen).
  destruct (length_field (length payload)) as [len ext]. cbn [fst snd] in *.
  pose proof (second_byte len Hr) as G. unfold second_byte_ok in G. rewrite !andb_true_iff, !negb_true_iff in G.
  destruct G as [[[[[G1 G2] G3] G4] G5] G6]. bool_to_prop.
  set (b0 := if fin then Z.lor op 128 else op).
  assert (u8 b0 = b0 ∧ Z.land b0 112 = 0 ∧ negb (Z.land b0 128 =? 0) = fin ∧ Z.land b0 15 = op) as (B0 & B1 & B2 & B3).
  { unfold b0. destruct fin; split_and!; try done; [|by rewrite H6]. by apply negb_true_iff, Z.eqb_neq. }
  clearbody b0.
  destruct key as [k|]; cbn [app] in *.
  - match goal with |- context [read_full 2 (?a :: ?b :: ?r)] => change (a :: b :: r) with ([a; b] ++ r) end.
    rewrite (read_full_app' 2) by done. cbn [map_err mbind result_bind nth].
    rewrite !b2z_z2b, B0, G1, B1. cbn [Z.eqb negb].
    rewrite <- app_assoc, Hrl by done. cbn [mbind result_bind].
    destruct (MaxMessageSize <? Z.of_nat (length payload)); [done|].
    destruct (Z.eqb_spec (Z.land (Z.lor 128 len) 128) 0); [done|]. cbn [negb].
    rewrite <- app_assoc, (read_full_app' 4) by done. cbn [map_err mbind result_bind].
    rewrite (read_full_app' (Z.to_nat (Z.of_nat (length payload)))) by (rewrite length_mask; lia).
    cbn [map_err mbind result_bind]. by rewrite mask_involutive, B2, B3.
  - match goal with |- context [read_full 2 (?a :: ?b :: ?r)] => change (a :: b :: r) with ([a; b] ++ r) end.
    rewrite (read_full_app' 2) by done. cbn [map_err mbind result_bind nth].
    rewrite !b2z_z2b, B0, G2, B1. cbn [Z.eqb negb].
    rewrite <- app_assoc, Hrl by done. cbn [mbind result_bind].
    destruct (MaxMessageSize <? Z.of_nat (length payload)); [done|].
    rewrite G6. cbn [Z.eqb negb mbind result_bind].
    rewrite (read_full_app' (Z.to_nat (Z.of_nat (length payload)))) by lia.
    cbn [map_err mbind result_bind]. by rewrite B2, B3.
Qed.

(** * Messages on the wire *)

(** Frames with the masking keys they were sent with. *)
Definition encode_all (fs : list (option (list byte) * ws_frame)) : list byte :=
  concat ((λ '(k, f), encode_frame k (fr_fin f) (fr_op f) (fr_payload f)) <$> fs).

(** Control frames that a peer may interleave with the fragments of a message. *)
Definition control_ok (f : ws_frame) : Prop := fr_op f = OpPing ∨ fr_op f = OpPong.

(** The frames after the first of a fragmented message, with their controls, and
    its pieces: continuations, the last of which is final. *)
Inductive continues : list ws_frame → list (list byte) → Prop :=
  | continues_last p : continues [mkWsFrame true OpContinuation p] [p]
  | continues_more p fs ps : continues fs ps → continues (mkWsFrame false OpContinuation p :: fs) (p :: ps)
  | continues_control f fs ps : control_ok f → continues fs ps → continues (f :: fs) ps.

(** The frames of one message, from the first control before it. *)
Inductive message_frames : list ws_frame → list (list byte) → Prop :=
  | message_whole op p : op = OpText ∨ op = OpBinary → message_frames [mkWsFrame true op p] [p]
  | message_first op p fs ps : op = OpText ∨ op = OpBinary → continues fs ps →
      message_frames (mkWsFrame false op p :: fs) (p :: ps)
  | message_control f fs ps : control_ok f → message_frames fs ps → message_frames (f :: fs) ps.

Definition frame_ok (x : option (list byte) * ws_frame) : Prop :=
  key_ok x.1 ∧ Z.of_nat (length (fr_payload x.2)) ≤ MaxMessageSize.

(** The pings among some frames. *)
Definition pings (fs : list ws_frame) : list (list byte) :=
  omap (λ f, if fr_op f =? OpPing then Some (fr_payload f) else None) fs.

Section messages.
Variable rand : nat → list byte.

(** Answering pings, in order. *)
Definition pong_all (c : Conn) (ps : list (list byte)) : Conn :=
  foldl (λ c p, (writeControl rand c OpPong p).1) c ps.

Lemma readFrame_next k f rest :
  frame_ok (k, f) → 0 ≤ fr_op f < 16 →
  readFrame (encode_frame k (fr_fin f) (fr_op f) (fr_payload f) ++ rest) = Ok (f, rest).
Proof.
  intros [Hk Hl] Hop. unfold MaxMessageSize in Hl. simpl in Hl. rewrite readFrame_encode by (done || lia).
  unfold MaxMessageSize. destruct (Z.ltb_spec (2 ^ 20) (Z.of_nat (length (fr_payload f)))); [lia|]. by destruct f.
Qed.

Lemma write_open c op p : ws_closed c = false → ws_broken c = false →
  (writeControl rand c op p).2 = None ∧ ws_closed (writeControl rand c op p).1 = false ∧
  ws_broken (writeControl rand c op p).1 = false ∧
  (∀ r, writeControl rand (set_in r c) op p = (set_in r (writeControl rand c op p).1, None)).
Proof.
  intros Hc Hb. unfold writeControl, writeFrame. simpl. rewrite Hc, Hb. simpl. done.
Qed.

(** One control frame, in the middle of a read loop. *)
Lemma read_loop_control fuel c k f rest msg :
  ws_closed c = false → ws_broken c = false → frame_ok (k, f) → control_ok f →
  ws_in c = encode_frame k (fr_fin f) (fr_op f) (fr_payload f) ++ rest →
  read_loop rand (S fuel) c msg = read_loop rand fuel (set_in rest (pong_all c (pings [f]))) msg.
Proof.
  intros Hc Hb Hf Hop Hin. assert (0 ≤ fr_op f < 16) as Hr by (destruct Hop as [-> | ->]; unfold OpPing, OpPong; lia).
  cbn [read_loop]. rewrite Hin, readFrame_next by done. destruct Hop as [Hop|Hop]; rewrite Hop.
  - cbn [OpPing OpText OpBinary OpContinuation Z.eqb Pos.eqb orb].
    assert (pings [f] = [fr_payload f]) as -> by (unfold pings; simpl; by rewrite Hop). cbn [pong_all foldl].
    by rewrite (proj2 (proj2 (proj2 (write_open c OpPong (fr_payload f) Hc Hb)))).
  - cbn [OpPong OpText OpBinary OpContinuation OpPing Z.eqb Pos.eqb orb].
    assert (pings [f] = []) as -> by (unfold pings; simpl; by rewrite Hop). done.
Qed.

Lemma pong_all_open c ps : ws_closed c = false → ws_broken c = false →
  ws_closed (pong_all c ps) = false ∧ ws_broken (pong_all c ps) = false.
Proof.
  revert c. induction ps as [|p ps IH]; intros c Hc Hb; [done|]. cbn [pong_all foldl].
  destruct (write_open c OpPong p Hc Hb) as (_ & ? & ? & _). by apply IH.
Qed.

Lemma pong_all_set_in r c ps : ws_closed c = false → ws_broken c = false →
  pong_all (set_in r c) ps = set_in r (pong_all c ps).
Proof.
  revert c. induction ps as [|p ps IH]; intros c Hc Hb; [done|]. cbn [pong_all foldl].
  destruct (write_open c OpPong p Hc Hb) as (_ & ? & ? & ->). cbn [fst]. by apply IH.
Qed.

Lemma pings_cons f fs : pings (f :: fs) = pings [f] ++ pings fs.
Proof. unfold pings. simpl. by case_match. Qed.

Lemma pong_all_app c ps1 ps2 : pong_all c (ps1 ++ ps2) = pong_all (pong_all c ps1) ps2.
Proof. apply foldl_app. Qed.

(** The rest of a message, from any point between two frames. *)
Lemma read_loop_continues fs ps fuel c kfs msg rest :
  continues fs ps → kfs.*2 = fs → Forall frame_ok kfs → (length fs ≤ fuel)%nat →
  ws_closed c = false → ws_broken c = false → ws_in c = encode_all kfs ++ rest →
  read_loop rand fuel c (Some msg) = (set_in rest (pong_all c (pings fs)), Ok (msg ++ concat ps)).
Proof.
  intros Hcont. revert fuel c kfs msg. induction Hcont as [p|p fs ps _ IH|f fs ps Hf _ IH];
    intros fuel c kfs msg Hkfs Hok Hfuel Hc Hb Hin; destruct kfs as [|[k f'] kfs]; try discriminate Hkfs;
    cbn [fmap list_fmap snd] in Hkfs; injection Hkfs as -> Hkfs; apply Forall_cons in Hok as [Hk Hok];
    unfold encode_all in Hin; cbn [fmap list_fmap concat] in Hin; rewrite <- app_assoc in Hin;
    (destruct fuel as [|fuel]; [simpl in Hfuel; lia|]).
  - destruct kfs; [|done]. cbn [read_loop]. rewrite Hin, readFrame_next by (done || (simpl; unfold OpContinuation; lia)).
    cbn. by rewrite app_nil_r.
  - cbn [read_loop]. rewrite Hin, readFrame_next by (done || (simpl; unfold OpContinuation; lia)).
    cbn [fr_op fr_fin fr_payload OpContinuation OpText OpBinary Z.eqb orb].
    rewrite (IH fuel _ kfs) by (done || (simpl in Hfuel; lia)). cbn [concat]. rewrite <- app_assoc. f_equal.
    rewrite pings_cons, pong_all_set_in by done. reflexivity.
  - rewrite (read_loop_control _ _ _ _ _ _ Hc Hb Hk Hf Hin).
    destruct (pong_all_open c (pings [f]) Hc Hb) as [Hc' Hb'].
    rewrite (IH fuel _ kfs) by (done || (simpl in Hfuel; lia)).
    rewrite (pings_cons f fs), pong_all_app, pong_all_set_in by done. reflexivity.
Qed.

Lemma read_loop_message fs ps fuel c kfs rest :
  message_frames fs ps → kfs.*2 = fs → Forall frame_ok kfs → (length fs ≤ fuel)%nat →
  ws_closed c = false → ws_broken c = false → ws_in c = encode_all kfs ++ rest →
  read_loop rand fuel c None = (set_in rest (pong_all c (pings fs)), Ok (concat ps)).
Proof.
  intros Hmsg. revert fuel c kfs. induction Hmsg as [op p Hop|op p fs ps Hop Hcont|f fs ps Hf _ IH];
    intros fuel c kfs Hkfs Hok Hfuel Hc Hb Hin; destruct kfs as [|[k f'] kfs]; try discriminate Hkfs;
    cbn [fmap list_fmap snd] in Hkfs; injection Hkfs as -> Hkfs; apply Forall_cons in Hok as [Hk Hok];
    unfold encode_all in Hin; cbn [fmap list_fmap concat] in Hin; rewrite <- app_assoc in Hin;
    (destruct fuel as [|fuel]; [simpl in Hfuel; lia|]).
  - destruct kfs; [|done]. cbn [read_loop].
    rewrite Hin, readFrame_next by (done || (destruct Hop as [-> | ->]; simpl; unfold OpText, OpBinary; lia)).
    destruct Hop as [-> | ->]; cbn; by rewrite app_nil_r.
  - cbn [read_loop].
    rewrite Hin, readFrame_next by (done || (destruct Hop as [-> | ->]; simpl; unfold OpText, OpBinary; lia)).
    assert (((op =? OpText) || (op =? OpBinary)) = true) as Ht by (by destruct Hop as [-> | ->]).
    cbn [fr_op fr_fin fr_payload]. rewrite Ht.
    rewrite (read_loop_continues fs ps fuel _ kfs p rest) by (done || (simpl in Hfuel; lia)). cbn [concat].
    f_equal. rewrite (pings_cons (mkWsFrame false op p) fs), pong_all_app, pong_all_set_in by done.
    assert (pings [mkWsFrame false op p] = []) as -> by (by destruct Hop as [-> | ->]). reflexivity.
  - rewrite (read_loop_control _ _ _ _ _ _ Hc Hb Hk Hf Hin).
    destruct (pong_all_open c (pings [f]) Hc Hb) as [Hc' Hb'].
    rewrite (IH fuel _ kfs) by (done || (simpl in Hfuel; lia)).
    rewrite (pings_cons f fs), pong_all_app, pong_all_set_in by done. reflexivity.
Qed.

Lemma encode_frame_length k fin op p : (2 + length p ≤ length (encode_frame k fin op p))%nat.
Proof.
  unfold encode_frame. destruct (length_field _) as [len ext]. destruct k; rewrite !length_app, ?length_mask; simpl; lia.
Qed.

Lemma encode_all_length kfs : (length kfs ≤ length (encode_all kfs))%nat.
Proof.
  induction kfs as [|[k f] kfs IH]; [done|]. unfold encode_all in *. cbn [fmap list_fmap concat length].
  rewrite length_app. pose proof (encode_frame_length k (fr_fin f) (fr_op f) (fr_payload f)). lia.
Qed.
End messages.

(** * Properties *)

(** The frame codec round trips: any frame of at most 1 MB, masked with any
    4-byte key or not masked, with a payload length in any of the three encodings,
    is read back exactly, and what follows it on the stream is left; a longer one
    is written all the same, and refused by every reader. *)
Theorem frame_roundtrip key fin op payload rest :
  key_ok key → 0 ≤ op < 16 → Z.of_nat (length payload) < 2 ^ 63 →
  readFrame (encode_frame key fin op payload ++ rest) =
    if MaxMessageSize <? Z.of_nat (length payload) then Err (WsTooLarge (Z.of_nat (length payload)))
    else Ok (mkWsFrame fin op payload, rest).
Proof. apply readFrame_encode. Qed.

Lemma frame_roundtrip_witness :
  readFrame (encode_frame (Some [x01; x02; x03; x04]) true OpBinary (replicate 200 x61) ++ [x7a]) =
    Ok (mkWsFrame true OpBinary (replicate 200 x61), [x7a]).
Proof.
  exact (frame_roundtrip (Some [x01; x02; x03; x04]) true OpBinary (replicate 200 x61) [x7a]
    eq_refl (conj (Zle_bool_imp_le 0 2 eq_refl) eq_refl) eq_refl).
Defined.

(** A message in fragments is read whole. *)
Lemma ReadMessage_fragments rand c kfs fs ps rest :
  message_frames fs ps → kfs.*2 = fs → Forall frame_ok kfs →
  ws_closed c = false → ws_broken c = false → ws_in c = encode_all kfs ++ rest →
  ReadMessage rand c = (set_in rest (pong_all rand c (pings fs)), Ok (concat ps)).
Proof.
  intros Hm Hk Hf Hc Hb Hin. unfold ReadMessage. eapply read_loop_message; try done.
  rewrite Hin, length_app, <- Hk, length_fmap. pose proof (encode_all_length kfs). lia.
Qed.

(** [ReadMessage] delivers exactly the messages the peer sent: a message in one
    frame or in fragments, each frame with its own mask, with pings and pongs
    anywhere between them, comes out as the concatenation of its fragments;
    every ping is answered by a pong with its payload, in order, and the next
    message is left unread. It always returns: the fuel covers every input. *)
Theorem ReadMessage_reassembles rand c kfs fs ps rest :
  message_frames fs ps → kfs.*2 = fs → Forall frame_ok kfs →
  ws_closed c = false → ws_broken c = false → ws_in c = encode_all kfs ++ rest →
  ReadMessage rand c = (set_in rest (pong_all rand c (pings fs)), Ok (concat ps)).
Proof. exact (ReadMessage_fragments rand c kfs fs ps rest). Qed.

Definition demo_kfs : list (option (list byte) * ws_frame) :=
  [(Some [x01; x02; x03; x04], mkWsFrame false OpText [x61; x62]); (None, mkWsFrame true OpPing [x70]);
   (None, mkWsFrame true OpContinuation [x63])].

Lemma ReadMessage_reassembles_witness :
  ReadMessage (λ _, [x00; x00; x00; x00]) (mkConn (encode_all demo_kfs) false false [] false 0) =
  (mkConn [] false false [encode_frame None true OpPong [x70]] false 0, Ok [x61; x62; x63]).
Proof.
  etransitivity; [apply (ReadMessage_reassembles (λ _, [x00; x00; x00; x00])
    (mkConn (encode_all demo_kfs) false false [] false 0) demo_kfs (demo_kfs.*2) [[x61; x62]; [x63]] [])|].
  - apply message_first; [left; reflexivity|]. apply continues_control; [left; reflexivity|]. apply continues_last.
  - reflexivity.
  - repeat constructor; vm_compute; congruence.
  - reflexivity.
  - reflexivity.
  - rewrite app_nil_r. reflexivity.
  - vm_compute. reflexivity.
Defined.

(** The 1 MB limit bounds frames, not messages: for every number there is a
    stream, of frames that are all within the limit, from which [ReadMessage]
    returns a message longer than it. *)
Theorem message_size_unbounded rand (k : nat) :
  ∃ c c' m, ReadMessage rand c = (c', Ok m) ∧ Z.of_nat (length m) = Z.of_nat (S k) * MaxMessageSize.
Proof.
  set (big := replicate (Z.to_nat MaxMessageSize) x61).
  assert (Z.of_nat (length big) = MaxMessageSize) as Hbig.
  { unfold big. rewrite length_replicate. unfold MaxMessageSize. lia. }
  clearbody big.
  assert (∃ fs ps, message_frames fs ps ∧ Forall (λ f, fr_payload f = big) fs ∧ Forall (λ p, p = big) ps ∧ length ps = S k)
    as (fs & ps & Hm & Hf & Hp & Hl).
  { destruct k as [|k].
    - exists [mkWsFrame true OpBinary big], [big]. split_and!; [apply message_whole; by right|by repeat constructor..|done].
    - assert (∃ fs ps, continues fs ps ∧ Forall (λ f, fr_payload f = big) fs ∧ Forall (λ p, p = big) ps ∧ length ps = S k)
        as (fs & ps & Hc & Hf & Hp & Hl).
      { induction k as [|k (fs & ps & Hc & Hf & Hp & Hl)].
        - exists [mkWsFrame true OpContinuation big], [big]. split_and!; [apply continues_last|by repeat constructor..|done].
        - exists (mkWsFrame false OpContinuation big :: fs), (big :: ps).
          split_and!; [by apply continues_more|by constructor..|simpl; by rewrite Hl]. }
      exists (mkWsFrame false OpBinary big :: fs), (big :: ps).
      split_and!; [apply message_first; [by right|done]|by constructor..|simpl; by rewrite Hl]. }
  set (kfs := (λ f, (None : option (list byte), f)) <$> fs).
  exists (mkConn (encode_all kfs) false false [] false 0). eexists _, _. split.
  - eapply (ReadMessage_fragments rand _ kfs fs ps []); try done.
    + unfold kfs. rewrite <- list_fmap_compose. apply list_fmap_id.
    + unfold kfs. apply Forall_fmap. eapply Forall_impl; [exact Hf|]. intros f Hb. split; [done|]. simpl. rewrite Hb. lia.
    + by rewrite app_nil_r.
  - clear Hm. revert k Hl. induction Hp as [|p ps -> _ IH]; intros k Hl; [done|]. cbn [concat length] in *.
    rewrite length_app, Nat2Z.inj_add, Hbig. destruct ps as [|p ps]; simpl in Hl.
    + assert (k = 0)%nat as -> by lia. simpl. lia.
    + destruct k as [|k]; [lia|]. rewrite (IH k) by (simpl; lia). lia.
Qed.

(** [Close] never tells the peer: it marks the connection closed before it
    writes the close frame, which is therefore refused; nothing is written,
    neither by [Close] nor by anything after it. *)
Theorem Close_sends_nothing rand c op fin payload :
  ws_out (Close rand c) = ws_out c ∧ ws_closed (Close rand c) = true ∧
  writeFrame rand (Close rand c) fin op payload = (Close rand c, Some WsClosed).
Proof. unfold Close. by destruct (ws_closed c). Qed.
