(* ===== verification/Router.v ===== *)
(** The forwarding decision (internal/router/router.go): rules matched in
    declaration order, first hit wins, with a round robin over the streams of
    the rule hit. *)
From S2P Require Import Prelude.
From Stdlib Require Import ZArith Lia.

Record Rule := mkRule {
  r_Ingress : string; r_Identity : string; r_Target : string; r_Dialer : string; r_Streams : list string }.

#[export] Instance Rule_eq_dec : EqDecision Rule.
Proof. solve_decision. Defined.

(** The fields of [rainnet.Meta] that routing reads. *)
Record Meta := mkMeta { m_Listener : string; m_Identity : string; m_Target : string }.

Record Decision := mkDecision { d_Dialer : string; d_Stream : string; d_Rule : Rule }.

(** A missing cursor is 0. *)
Record Router := mkRouter { rt_rules : list Rule; cursors : gmap nat nat }.

Definition New : Router := mkRouter [] ∅.

Definition cursor (r : Router) (i : nat) : nat := default 0%nat (cursors r !! i).

(** The loop of [sameRule] compares the streams one by one. *)
Fixpoint same_streams (a b : list string) : bool :=
  match a, b with
  | [], [] => true
  | x :: a, y :: b => String.eqb x y && same_streams a b
  | _, _ => false
  end.

Definition sameRule (a b : Rule) : bool :=
  String.eqb (r_Ingress a) (r_Ingress b) && String.eqb (r_Identity a) (r_Identity b)
  && String.eqb (r_Target a) (r_Target b) && String.eqb (r_Dialer a) (r_Dialer b)
  && same_streams (r_Streams a) (r_Streams b).

Definition Add (r : Router) (rule : Rule) : Router * bool :=
  if existsb (λ other, sameRule other rule) (rt_rules r) then (r, false)
  else (mkRouter (rt_rules r ++ [rule]) (cursors r), true).

Definition Seed (r : Router) (rules : list Rule) : Router := foldl (λ r rule, (Add r rule).1) r rules.

(** The loop of [Remove] from index [i] on. *)
Fixpoint find_rule (rule : Rule) (l : list Rule) (i : nat) : option nat :=
  match l with
  | [] => None
  | other :: l => if sameRule other rule then Some i else find_rule rule l (S i)
  end.

(** [Remove] deletes the cursor of the rule's index; those of the rules after it
    keep the indexes they had. *)
Definition Remove (r : Router) (rule : Rule) : Router * bool :=
  match find_rule rule (rt_rules r) 0 with
  | Some i => (mkRouter (take i (rt_rules r) ++ drop (S i) (rt_rules r)) (delete i (cursors r)), true)
  | None => (r, false)
  end.

Definition Rules (r : Router) : list Rule := rt_rules r.

Definition field_matches (pat v : string) : bool := String.eqb pat "" || String.eqb pat v.

Definition ruleMatches (rule : Rule) (m : Meta) : bool :=
  field_matches (r_Ingress rule) (m_Listener m) && field_matches (r_Identity rule) (m_Identity m)
  && field_matches (r_Target rule) (m_Target m).

(** The loop of [Match] from index [i] on. An index out of range would panic. *)
Fixpoint match_from (r : Router) (m : Meta) (l : list Rule) (i : nat) : Router * option Decision :=
  match l with
  | [] => (r, None)
  | rule :: l =>
      if negb (ruleMatches rule m) then match_from r m l (S i)
      else
        match r_Streams rule with
        | [] => (r, Some (mkDecision (r_Dialer rule) "" rule))
        | ss =>
            let n := length ss in
            let c := cursor r i in
            (mkRouter (rt_rules r) (<[i := ((c + 1) mod n)%nat]> (cursors r)),
             Some (mkDecision (r_Dialer rule) (nth (c mod n) ss "") rule))
        end
  end.

Definition Match (r : Router) (m : Meta) : Router * option Decision := match_from r m (rt_rules r) 0.

(** [k] matches in a row. *)
Fixpoint match_times (k : nat) (r : Router) (m : Meta) : Router * list (option Decision) :=
  match k with
  | O => (r, [])
  | S k => let '(r, d) := Match r m in let '(r, ds) := match_times k r m in (r, d :: ds)
  end.

(** * Lemmas *)

Lemma same_streams_eq a b : same_streams a b = true ↔ a = b.
Proof.
  revert b. induction a as [|x a IH]; intros [|y b]; simpl; try done.
  rewrite andb_true_iff, String.eqb_eq, IH. naive_solver.
Qed.

Lemma sameRule_eq a b : sameRule a b = true ↔ a = b.
Proof.
  unfold sameRule. rewrite !andb_true_iff, !String.eqb_eq, same_streams_eq. destruct a, b; simpl. naive_solver.
Qed.

Lemma match_from_spec r m l i :
  match list_find (λ rule, ruleMatches rule m = true) l with
  | None => match_from r m l i = (r, None)
  | Some (j, rule) =>
      let n := length (r_Streams rule) in
      let c := cursor r (i + j) in
      match_from r m l i =
        (if Nat.eqb n 0 then r else mkRouter (rt_rules r) (<[(i + j)%nat := ((c + 1) mod n)%nat]> (cursors r)),
         Some (mkDecision (r_Dialer rule) (nth (c mod n) (r_Streams rule) "") rule))
  end.
Proof.
  revert i. induction l as [|rule l IH]; intros i; [done|]. cbn [list_find match_from].
  destruct (ruleMatches rule m) eqn:E; cbn [negb].
  - rewrite decide_True by done. rewrite Nat.add_0_r. cbn zeta. destruct (r_Streams rule) as [|s ss] eqn:Es.
    + cbn [length Nat.eqb]. by destruct (cursor r i mod 0)%nat.
    + done.
  - rewrite decide_False by done. specialize (IH (S i)).
    destruct (list_find _ l) as [[j rule']|]; cbn [fmap option_fmap option_map prod_map fst snd]; [|exact IH].
    by rewrite Nat.add_succ_r.
Qed.

Lemma find_rule_spec rule l i :
  find_rule rule l i = (λ x, (i + x.1)%nat) <$> list_find (λ other, other = rule) l.
Proof.
  revert i. induction l as [|other l IH]; intros i; [done|]. cbn [find_rule list_find].
  destruct (sameRule other rule) eqn:E.
  - apply sameRule_eq in E. rewrite decide_True by done. simpl. by rewrite Nat.add_0_r.
  - rewrite decide_False by (intros ?%sameRule_eq; congruence). rewrite IH.
    destruct (list_find _ l) as [[j ?]|]; simpl; [|done]. by rewrite Nat.add_succ_r.
Qed.

(** * Properties *)

(** Routing is first match in declaration order, and fair among the streams of
    the rule hit: [k] matches of the same traffic all hit the first rule whose
    non-empty fields equal the traffic's, and hand out its streams cyclically
    from the rule's cursor; no index is ever out of range. Without a matching
    rule nothing is decided and nothing changes. *)
Theorem match_first_round_robin r m k :
  match list_find (λ rule, ruleMatches rule m = true) (rt_rules r) with
  | None => match_times k r m = (r, replicate k None)
  | Some (i, rule) =>
      let n := length (r_Streams rule) in
      rt_rules (match_times k r m).1 = rt_rules r ∧
      (∀ j, (j < k)%nat → (match_times k r m).2 !! j =
         Some (Some (mkDecision (r_Dialer rule) (nth ((cursor r i + j) mod n) (r_Streams rule) "") rule))) ∧
      (n ≠ 0 → (cursor r i + 0) mod n < n)%nat
  end.
Proof.
  pose proof (match_from_spec r m (rt_rules r) 0) as Hm.
  destruct (list_find _ (rt_rules r)) as [[i rule]|] eqn:Hf.
  2: { clear Hf. induction k as [|k IH]; [done|]. cbn [match_times replicate].
       assert (Match r m = (r, None)) as -> by exact Hm. by rewrite IH. }
  cbn [Nat.add] in Hm. set (n := length (r_Streams rule)) in *. cbn zeta. split_and!.
  3: { intros ?. by apply Nat.mod_upper_bound. }
  all: clear Hm; revert r Hf; induction k as [|k IH]; intros r Hf; cbn [match_times]; try done; try (intros j Hj; lia).
  - pose proof (match_from_spec r m (rt_rules r) 0) as Hm. rewrite Hf in Hm. cbn [Nat.add] in Hm. cbn zeta in Hm.
    unfold Match. rewrite Hm. fold n.
    set (r' := if Nat.eqb n 0 then r else _).
    assert (rt_rules r' = rt_rules r) as Hr' by (unfold r'; by destruct (Nat.eqb n 0)).
    specialize (IH r'). rewrite Hr' in IH. specialize (IH Hf). destruct (match_times k r' m). done.
  - pose proof (match_from_spec r m (rt_rules r) 0) as Hm. rewrite Hf in Hm. cbn [Nat.add] in Hm. cbn zeta in Hm.
    unfold Match. rewrite Hm. fold n.
    set (r' := if Nat.eqb n 0 then r else _).
    assert (rt_rules r' = rt_rules r) as Hr' by (unfold r'; by destruct (Nat.eqb n 0)).
    specialize (IH r'). rewrite Hr' in IH. specialize (IH Hf). destruct (match_times k r' m) as [r2 ds]. simpl in *.
    intros [|j] Hj; simpl; [by rewrite Nat.add_0_r|]. rewrite IH by lia. do 3 f_equal.
    unfold r'. destruct (Nat.eqb_spec n 0) as [H0|H0].
    { assert (r_Streams rule = []) as -> by (by apply nil_length_inv). by rewrite !nth_overflow by (simpl; lia). }
    unfold cursor at 1. simpl. rewrite lookup_insert_eq. simpl.
    rewrite Nat.Div0.add_mod_idemp_l. f_equal. f_equal. lia.
Qed.

(** The rule table is a list without duplicates that keeps the declaration
    order: adding refuses exactly the rules already present and appends the
    others; removing takes out the one rule equal to the given one and answers
    whether there was one. *)
Theorem router_rules_spec r rule :
  NoDup (rt_rules r) →
  NoDup (rt_rules (Add r rule).1) ∧ NoDup (rt_rules (Remove r rule).1) ∧
  ((Add r rule).2 = true ↔ rule ∉ rt_rules r) ∧
  rt_rules (Add r rule).1 = (if (Add r rule).2 then rt_rules r ++ [rule] else rt_rules r) ∧
  ((Remove r rule).2 = true ↔ rule ∈ rt_rules r) ∧
  rt_rules (Remove r rule).1 = filter (λ x, x ≠ rule) (rt_rules r).
Proof.
  intros Hnd.
  assert (existsb (λ other, sameRule other rule) (rt_rules r) = true ↔ rule ∈ rt_rules r) as Hex.
  { rewrite existsb_exists. setoid_rewrite sameRule_eq. setoid_rewrite <- list_elem_of_In. naive_solver. }
  assert (rt_rules (Remove r rule).1 = filter (λ x, x ≠ rule) (rt_rules r) ∧
    ((Remove r rule).2 = true ↔ rule ∈ rt_rules r)) as [Hrem Hrem2].
  { unfold Remove. rewrite find_rule_spec. destruct (list_find _ (rt_rules r)) as [[i x]|] eqn:Hf; simpl.
    - apply list_find_Some in Hf as (Hi & -> & Hmin). pose proof (take_drop_middle _ _ _ Hi) as Hsplit.
      generalize dependent (take i (rt_rules r)). intros l1. generalize (drop (S i) (rt_rules r)). intros l2 Hsplit.
      rewrite <- Hsplit in Hnd |- *.
      apply NoDup_app in Hnd as (_ & H1 & [H2 _]%NoDup_cons). split.
      + rewrite filter_app, filter_cons_False by (intros H; by apply H). f_equal; symmetry; apply filter_all; intros x Hx ->; [|done].
        apply (H1 _ Hx). by left.
      + split; [|done]. intros _. apply elem_of_app. right. by left.
    - apply list_find_None in Hf. rewrite Forall_forall in Hf. split.
      + symmetry. apply filter_all. intros x Hx ->. by eapply Hf.
      + split; [done|]. intros Hin. exfalso. by eapply Hf. }
  unfold Add. destruct (existsb _ _) eqn:E; simpl; split_and!; try done.
  - rewrite Hrem. by apply NoDup_filter.
  - split; [done|]. intros Hn. exfalso. by apply Hn, Hex.
  - apply NoDup_app. split_and!; [done| |apply NoDup_singleton]. intros x Hx ->%list_elem_of_singleton.
    by apply Hex in Hx.
  - rewrite Hrem. by apply NoDup_filter.
  - split; [|done]. by intros _ Hin%Hex.
Qed.

Definition demo_rule (t : string) : Rule := mkRule "" "" t "d" ["s0"; "s1"].

(** Removing a rule disturbs the round robin of the rules declared after it:
    their cursors stay at the old indexes. Here the second rule has just handed
    out its first stream; once the first rule is removed, it hands out the same
    stream again instead of the second. *)
Theorem remove_breaks_round_robin :
  let r := Seed New [demo_rule "a"; demo_rule "b"] in
  let '(r1, d1) := Match r (mkMeta "" "" "b") in
  let '(_, d2) := Match r1 (mkMeta "" "" "b") in
  let '(_, d3) := Match (Remove r1 (demo_rule "a")).1 (mkMeta "" "" "b") in
  d_Stream <$> d1 = Some "s0"%string ∧ d_Stream <$> d2 = Some "s1"%string ∧ d_Stream <$> d3 = Some "s0"%string.
Proof. vm_compute. done. Qed.

Lemma router_rules_spec_witness :
  (Add (Seed New [demo_rule "a"]) (demo_rule "a")).2 = false ∧ NoDup (rt_rules (Seed New [demo_rule "a"])).
Proof.
  assert (NoDup (rt_rules New)) as H0 by constructor.
  pose proof (proj1 (router_rules_spec New (demo_rule "a") H0)) as H1.
  split; [reflexivity|exact H1].
Defined.
