(* ===== verification/CtrlClient.v ===== *)
(** The client of the control channel (protocol/star/ctrlclient.go): dialing and
    registration, the read loop, the tunnelled connections with their write
    pumps and uplinks, and the connections it dials through the tunnel. *)
From S2P Require Import Prelude Message TextCodec Window StreamTable CtrlHub Adapter Handshake.
From Stdlib Require Import ZArith Lia.

Definition uplinkChunk : Z := 32 * 1024.
Definition connQueue : nat := 32.

(** * Tunnelled connections *)

(** What a local connection sees. *)
Inductive local_event := LWrite (p : list byte) | LCloseWrite | LClose.

Definition is_close (x : local_event) : bool := match x with LClose => true | _ => false end.

(** An item of a write queue: [None] is the nil slice that stands for a half
    close. [ReadMessage] leaves the payload of an empty frame nil. *)
Abbreviation item := (option (list byte)).

Definition payload_item (p : list byte) : item := match p with [] => None | _ => Some p end.

(** The uplink goroutine: before it looks its window up, with the window it
    found (the location of the connection whose window it is), returned. *)
Inductive up_state := UpStart | UpRun (win : option nat) | UpEnd.

(** A connection made for a [ConnOpen]: its queue and whether it is closed, what
    was done to the local connection, its window and its two goroutines. *)
Record lconn := mkLconn {
  lc_id : Z;
  lc_q : list item;
  lc_qclosed : bool;
  lc_io : list local_event;
  lc_win : Window;
  lc_pump : bool;
  lc_up : up_state;
}.

Definition local_closed (k : lconn) : bool := existsb is_close (lc_io k).

Definition set_q (q : list item) (k : lconn) : lconn :=
  mkLconn (lc_id k) q (lc_qclosed k) (lc_io k) (lc_win k) (lc_pump k) (lc_up k).
Definition close_q (k : lconn) : lconn :=
  mkLconn (lc_id k) (lc_q k) true (lc_io k) (lc_win k) (lc_pump k) (lc_up k).
Definition add_io (x : local_event) (k : lconn) : lconn :=
  mkLconn (lc_id k) (lc_q k) (lc_qclosed k) (lc_io k ++ [x]) (lc_win k) (lc_pump k) (lc_up k).
Definition set_window (w : Window) (k : lconn) : lconn :=
  mkLconn (lc_id k) (lc_q k) (lc_qclosed k) (lc_io k) w (lc_pump k) (lc_up k).
Definition end_pump (k : lconn) : lconn :=
  mkLconn (lc_id k) (lc_q k) (lc_qclosed k) (lc_io k) (lc_win k) false (lc_up k).
Definition set_uplink (u : up_state) (k : lconn) : lconn :=
  mkLconn (lc_id k) (lc_q k) (lc_qclosed k) (lc_io k) (lc_win k) (lc_pump k) u.

(** * The client *)

(** The read loop: waiting for a message, in the middle of [q <- item], returned,
    or dead of a send on a closed channel (which ends the whole process). *)
Inductive loop_state := LoopIdle | LoopSend (l : nat) (it : item) | LoopEnd | LoopPanic.

(** [c_heap] holds the tunnelled connections, which [conns], [connsWin] and
    [connsQ] point to; [c_dheap] and [c_chans] the dialed connections and the
    one-slot channels of their acknowledgements. [c_link] tells whether the
    session's socket still takes writes, [c_out] what was sent. *)
Record CtrlClient := mkClient {
  streams : gmap string Z;
  streamIDs : gmap Z string;
  pairs : gset string;
  conns : gmap Z nat;
  connsWin : gmap Z nat;
  connsQ : gmap Z nat;
  dialConns : gmap Z nat;
  dialAcks : gmap Z nat;
  dialSeq : Z;
  c_dialer : bool;
  c_closed : bool;
  c_heap : list lconn;
  c_dheap : list StreamConn;
  c_chans : list (option ClientConnAck);
  c_loop : loop_state;
  c_link : bool;
  c_out : list Message;
}.

Definition empty_client (dialer : bool) : CtrlClient :=
  mkClient ∅ ∅ ∅ ∅ ∅ ∅ ∅ ∅ 0 dialer false [] [] [] LoopIdle true [].

(** Updates of a client, one per group of fields that change together. *)
Definition with_streams (c : CtrlClient) (s : gmap string Z) (i : gmap Z string) (p : gset string) : CtrlClient :=
  mkClient s i p (conns c) (connsWin c) (connsQ c) (dialConns c) (dialAcks c) (dialSeq c) (c_dialer c)
    (c_closed c) (c_heap c) (c_dheap c) (c_chans c) (c_loop c) (c_link c) (c_out c).
Definition with_conns (c : CtrlClient) (cs ws qs : gmap Z nat) : CtrlClient :=
  mkClient (streams c) (streamIDs c) (pairs c) cs ws qs (dialConns c) (dialAcks c) (dialSeq c) (c_dialer c)
    (c_closed c) (c_heap c) (c_dheap c) (c_chans c) (c_loop c) (c_link c) (c_out c).
Definition with_dials (c : CtrlClient) (ds acks : gmap Z nat) (seq : Z) : CtrlClient :=
  mkClient (streams c) (streamIDs c) (pairs c) (conns c) (connsWin c) (connsQ c) ds acks seq (c_dialer c)
    (c_closed c) (c_heap c) (c_dheap c) (c_chans c) (c_loop c) (c_link c) (c_out c).
Definition with_heap (c : CtrlClient) (h : list lconn) : CtrlClient :=
  mkClient (streams c) (streamIDs c) (pairs c) (conns c) (connsWin c) (connsQ c) (dialConns c) (dialAcks c)
    (dialSeq c) (c_dialer c) (c_closed c) h (c_dheap c) (c_chans c) (c_loop c) (c_link c) (c_out c).
Definition with_dheap (c : CtrlClient) (h : list StreamConn) (ch : list (option ClientConnAck)) : CtrlClient :=
  mkClient (streams c) (streamIDs c) (pairs c) (conns c) (connsWin c) (connsQ c) (dialConns c) (dialAcks c)
    (dialSeq c) (c_dialer c) (c_closed c) (c_heap c) h ch (c_loop c) (c_link c) (c_out c).
Definition set_loop (c : CtrlClient) (s : loop_state) : CtrlClient :=
  mkClient (streams c) (streamIDs c) (pairs c) (conns c) (connsWin c) (connsQ c) (dialConns c) (dialAcks c)
    (dialSeq c) (c_dialer c) (c_closed c) (c_heap c) (c_dheap c) (c_chans c) s (c_link c) (c_out c).
Definition with_link (c : CtrlClient) (link closed : bool) (out : list Message) : CtrlClient :=
  mkClient (streams c) (streamIDs c) (pairs c) (conns c) (connsWin c) (connsQ c) (dialConns c) (dialAcks c)
    (dialSeq c) (c_dialer c) closed (c_heap c) (c_dheap c) (c_chans c) (c_loop c) link out.

Definition upd (f : lconn → lconn) (l : nat) (c : CtrlClient) : CtrlClient := with_heap c (alter f l (c_heap c)).

(** [sess.Send]: whether the frame went out. *)
Definition send (c : CtrlClient) (m : Message) : CtrlClient * bool :=
  if c_link c && (Z.of_nat (length (Payload m)) <=? MaxPayloadSize)
  then (with_link c true (c_closed c) (c_out c ++ [m]), true) else (c, false).

Definition SendData (c : CtrlClient) (streamID : Z) (payload : list byte) : CtrlClient * bool :=
  send c (mkMessage MsgData x00 streamID payload).

Definition CloseStream (c : CtrlClient) (streamID : Z) : CtrlClient * bool :=
  send c (mkMessage MsgStreamClose x00 streamID []).

(** One tick of [StartKeepAlive]'s goroutine: whether it goes on. *)
Definition keepalive_tick (c : CtrlClient) : CtrlClient * bool :=
  if c_closed c then (c, false) else send c (mkMessage MsgPing x00 CtrlStreamID []).

Definition StreamID_of (c : CtrlClient) (streamId : string) : option Z := streams c !! streamId.
Definition Streams (c : CtrlClient) : gmap string Z := streams c.
Definition hasStream (c : CtrlClient) (streamID : Z) : bool := bool_decide (is_Some (streamIDs c !! streamID)).

(** * Closing *)

(** Applies [f] to the connection a lookup found, if it found one. *)
Definition upd_opt (f : lconn → lconn) (o : option nat) (c : CtrlClient) : CtrlClient :=
  match o with Some l => upd f l c | None => c end.

Definition close_window (k : lconn) : lconn := set_window (Close (lc_win k)).1 k.

Definition closeConn (c : CtrlClient) (connID : Z) (notify : bool) : CtrlClient :=
  let conn := conns c !! connID in
  let win := connsWin c !! connID in
  let q := connsQ c !! connID in
  let c := with_conns c (delete connID (conns c)) (delete connID (connsWin c)) (delete connID (connsQ c)) in
  match conn with
  | None => c
  | Some l =>
      let c := upd (add_io LClose) l (upd_opt close_q q (upd_opt close_window win c)) in
      if notify then (CloseStream c connID).1 else c
  end.

(** [closeAllConns], run when the read loop returns, after [closed] is closed:
    the connections, the dialed ones and the windows, but not the queues. *)
Definition closeAllConns (c : CtrlClient) : CtrlClient :=
  let heap := foldl (λ h x, alter (add_io LClose) x.2 h) (c_heap c) (map_to_list (conns c)) in
  let dheap := foldl (λ h x, alter (markClosed CauseEOF) x.2 h) (c_dheap c) (map_to_list (dialConns c)) in
  let heap := foldl (λ h x, alter close_window x.2 h) heap (map_to_list (connsWin c)) in
  let c := with_dheap (with_heap c heap) dheap (c_chans c) in
  with_dials (with_conns c ∅ ∅ (connsQ c)) ∅ (dialAcks c) (dialSeq c).

(** [Run]'s deferred function. *)
Definition run_end (c : CtrlClient) : CtrlClient :=
  closeAllConns (set_loop (with_link c (c_link c) true (c_out c)) LoopEnd).

(** * The read loop *)

Section run.
Context `{!ControlJson}.
(** The text of [%q]. *)
Variable quote : string → string.

(** [dialed] is what [LocalDialer] answers, if it is called. A connection that
    was dialed in vain, because the acknowledgement could not be sent, is closed. *)
Definition handleConnOpen (c : CtrlClient) (m : Message) (dialed : result string unit) : CtrlClient :=
  match DecodeControl m with
  | Err _ => c
  | Ok req =>
      let connID := cr_ConnID req in
      let '(ok, reason) :=
        match streamIDs c !! cr_StreamID req with
        | None => (false, "unknown stream " +:+ pretty (cr_StreamID req))
        | Some streamId =>
            if negb (c_dialer c) then (false, "local dialer not set"%string)
            else match dialed with
                 | Err e => (false, "dial " +:+ quote streamId +:+ ": " +:+ e)
                 | Ok _ => (true, ""%string)
                 end
        end in
      let '(c, sent) := send c (control_message MsgConnOpenAck (mkConnOpenAck connID ok reason)) in
      if negb ok then c
      else
        let l := length (c_heap c) in
        if negb sent then with_heap c (c_heap c ++ [mkLconn connID [] false [LClose] (NewWindow DefaultStreamWindow) false UpEnd])
        else
          with_conns (with_heap c (c_heap c ++ [mkLconn connID [] false [] (NewWindow DefaultStreamWindow) true UpStart]))
            (<[connID := l]> (conns c)) (<[connID := l]> (connsWin c)) (<[connID := l]> (connsQ c))
  end.

(** A delivery to a dialed connection; [None] while it blocks the read loop. *)
Definition dial_deliver (pick : bool) (c : CtrlClient) (l : nat) (it : feedItem) : option CtrlClient :=
  match c_dheap c !! l with
  | Some sc => (λ sc', with_dheap c (alter (λ _, sc') l (c_dheap c)) (c_chans c)) <$> deliver pick sc it
  | None => Some c
  end.

Definition removeDialConn (c : CtrlClient) (connID : Z) : CtrlClient :=
  with_dials c (delete connID (dialConns c)) (dialAcks c) (dialSeq c).

(** The half close of a tunnelled connection goes through its queue. *)
Definition halfCloseConn (c : CtrlClient) (connID : Z) : CtrlClient :=
  match connsQ c !! connID with Some l => set_loop c (LoopSend l None) | None => c end.

(** One message of [Run]'s loop. A queue send is only begun here. *)
Definition run_msg (pick : bool) (c : CtrlClient) (m : Message) (dialed : result string unit) : option CtrlClient :=
  let t := Type_ m in
  if bool_decide (t = MsgConnOpen) then Some (handleConnOpen c m dialed)
  else if bool_decide (t = MsgData) then
    match dialConns c !! StreamID m with
    | Some l => dial_deliver pick c l (mkFeedItem (Payload m) false false)
    | None =>
        match connsQ c !! StreamID m with
        | Some l => Some (set_loop c (LoopSend l (payload_item (Payload m))))
        | None => Some c
        end
    end
  else if bool_decide (t = MsgStreamClose) then
    match dialConns c !! StreamID m with
    | Some l =>
        (λ c, removeDialConn c (StreamID m)) <$>
          dial_deliver pick c l (mkFeedItem [] (IsHalfClose m) (negb (IsHalfClose m)))
    | None => Some (if IsHalfClose m then halfCloseConn c (StreamID m) else closeConn c (StreamID m) false)
    end
  else if bool_decide (t = MsgPing) then
    let '(c, sent) := send c (mkMessage MsgPong x00 (StreamID m) (Payload m)) in
    Some (if sent then c else run_end c)
  else if bool_decide (t = MsgWindowUpdate) then
    match DecodeControl m with
    | Err _ => Some c
    | Ok wu =>
        Some (upd_opt (λ k, set_window (Release (lc_win k) (wu_Delta wu)).1 k) (connsWin c !! wu_ConnID wu) c)
    end
  else if bool_decide (t = MsgClientConnAck) then
    match DecodeControl m with
    | Err _ => Some c
    | Ok ack =>
        let c' chans := with_dials (with_dheap c (c_dheap c) chans) (dialConns c) (delete (cca_ConnID ack) (dialAcks c)) (dialSeq c) in
        Some (match dialAcks c !! cca_ConnID ack with
              | Some ch => c' (<[ch := Some ack]> (c_chans c))
              | None => c' (c_chans c)
              end)
    end
  else Some c.

(** * Dialing through the tunnel *)

Inductive dial_err := ErrNotRegistered | ErrExhausted | ErrDialSend | ErrDialRejected (msg : string) | ErrDialDone.

Definition pair_key (clientProxyName streamId : string) : string :=
  clientProxyName +:+ String "000"%char streamId.

Definition cleanup (c : CtrlClient) (connID : Z) : CtrlClient :=
  with_dials c (delete connID (dialConns c)) (delete connID (dialAcks c)) (dialSeq c).

(** [DialIntranet] up to its wait. *)
Definition DialIntranet_begin (c : CtrlClient) (clientProxyName streamId : string)
    : CtrlClient * result dial_err (Z * nat) :=
  if negb (bool_decide (pair_key clientProxyName streamId ∈ pairs c)) then (c, Err ErrNotRegistered)
  else if 2147483647 <=? dialSeq c then (c, Err ErrExhausted)
  else
    let seq := u32 (dialSeq c + 1) in
    let connID := Z.lor 2147483648 seq in
    let l := length (c_dheap c) in
    let c := with_dials (with_dheap c (c_dheap c ++ [newStreamConn connID]) (c_chans c ++ [None]))
               (<[connID := l]> (dialConns c)) (<[connID := length (c_chans c)]> (dialAcks c)) seq in
    let '(c, sent) := send c (control_message MsgClientConnReq (mkClientConnReq connID clientProxyName streamId)) in
    if sent then (c, Ok (connID, l)) else (cleanup c connID, Err ErrDialSend).

(** The end of the wait: an acknowledgement, or the context is done. *)
Definition DialIntranet_end (c : CtrlClient) (connID : Z) (l : nat) (ack : option ClientConnAck)
    : CtrlClient * result dial_err nat :=
  match ack with
  | Some ack => if cca_OK ack then (c, Ok l) else (cleanup c connID, Err (ErrDialRejected (cca_Message ack)))
  | None => (cleanup c connID, Err ErrDialDone)
  end.

(** * The goroutines of the client *)

(** The write pump with the first item of its queue; [ok] is the outcome of the
    local write, which fails on a closed connection. *)
Definition pump (c : CtrlClient) (l : nat) (k : lconn) (ok : bool) : option CtrlClient :=
  if negb (lc_pump k) then None
  else
    match lc_q k with
    | [] => if lc_qclosed k then Some (upd end_pump l c) else None
    | None :: q => Some (upd (add_io LCloseWrite) l (upd (set_q q) l c))
    | Some p :: q =>
        let c := upd (set_q q) l c in
        if ok && negb (local_closed k) then
          Some (send (upd (add_io (LWrite p)) l c)
                  (control_message MsgWindowUpdate (mkWindowUpdate (lc_id k) (Z.of_nat (length p))))).1
        else Some (upd end_pump l (closeConn c (lc_id k) true))
    end.

(** The uplink with [n > 0] bytes read. [Acquire] may take, wait (which ends once
    the client is closed) or find the window closed. *)
Definition uplink_send (c : CtrlClient) (l : nat) (k : lconn) (p : list byte) : CtrlClient :=
  let '(c, sent) := SendData c (lc_id k) p in
  if sent then c else upd (set_uplink UpEnd) l (closeConn c (lc_id k) true).

Definition uplink_data (c : CtrlClient) (l : nat) (k : lconn) (win : option nat) (p : list byte) : option CtrlClient :=
  match win ≫= λ lw, (λ kw, (lw, lc_win kw)) <$> c_heap c !! lw with
  | None => Some (uplink_send c l k p)
  | Some (lw, w) =>
      if closed w then Some (upd (set_uplink UpEnd) l c)
      else
        match acquire_now (S (length p)) w (Z.of_nat (length p)) with
        | Some w => Some (uplink_send (upd (set_window w) lw c) l k p)
        | None => if c_closed c then Some (upd (set_uplink UpEnd) l c) else None
        end
  end.

(** What can happen next: a message for the read loop, the end of a send it had
    begun, the end of its input, the socket refusing writes from now on, a step
    of a pump, the start of an uplink and what its connection reads, the beginning
    of a [DialIntranet] and its end, by the acknowledgement in its channel [ch] or
    by its context. A local connection that was closed reads an error. *)
Inductive cevent :=
  | CRecv (pick : bool) (m : Message) (dialed : result string unit)
  | CEnqueue
  | CRecvErr
  | CLinkDown
  | CPump (l : nat) (ok : bool)
  | CUpStart (l : nat)
  | CUpRead (l : nat) (p : list byte)
  | CUpEOF (l : nat)
  | CUpErr (l : nat)
  | CDial (clientProxyName streamId : string)
  | CDialEnd (connID : Z) (l ch : nat) (timeout : bool).

Definition capply (c : CtrlClient) (ev : cevent) : option CtrlClient :=
  match ev with
  | CRecv pick m dialed => match c_loop c with LoopIdle => run_msg pick c m dialed | _ => None end
  | CEnqueue =>
      match c_loop c with
      | LoopSend l it =>
          match c_heap c !! l with
          | None => None
          | Some k =>
              if lc_qclosed k then Some (set_loop c LoopPanic)
              else if bool_decide (length (lc_q k) < connQueue)%nat
              then Some (set_loop (upd (set_q (lc_q k ++ [it])) l c) LoopIdle)
              else None
          end
      | _ => None
      end
  | CRecvErr => match c_loop c with LoopIdle => Some (run_end c) | _ => None end
  | CLinkDown => Some (with_link c false (c_closed c) (c_out c))
  | CPump l ok => c_heap c !! l ≫= λ k, pump c l k ok
  | CUpStart l =>
      c_heap c !! l ≫= λ k,
        match lc_up k with UpStart => Some (upd (set_uplink (UpRun (connsWin c !! lc_id k))) l c) | _ => None end
  | CUpRead l p =>
      c_heap c !! l ≫= λ k,
        match lc_up k with
        | UpRun win =>
            if local_closed k || bool_decide (p = []) || (uplinkChunk <? Z.of_nat (length p)) then None
            else uplink_data c l k win p
        | _ => None
        end
  | CUpEOF l =>
      c_heap c !! l ≫= λ k,
        match lc_up k with
        | UpRun _ => if local_closed k then None else Some (upd (set_uplink UpEnd) l (send c (HalfClose (lc_id k))).1)
        | _ => None
        end
  | CUpErr l =>
      c_heap c !! l ≫= λ k,
        match lc_up k with UpRun _ => Some (upd (set_uplink UpEnd) l (closeConn c (lc_id k) true)) | _ => None end
  | CDial name streamId => Some (DialIntranet_begin c name streamId).1
  | CDialEnd connID l ch timeout =>
      if timeout then Some (DialIntranet_end c connID l None).1
      else
        match c_chans c !! ch with
        | Some (Some ack) => Some (DialIntranet_end (with_dheap c (c_dheap c) (<[ch := None]> (c_chans c))) connID l (Some ack)).1
        | _ => None
        end
  end.

(** A history of the client; [None] if some event was not possible. *)
Fixpoint crun (c : CtrlClient) (evs : list cevent) : option CtrlClient :=
  match evs with
  | [] => Some c
  | ev :: evs => capply c ev ≫= λ c, crun c evs
  end.
End run.

(** * Dialing the server *)

Inductive dial_ctrl_err :=
  | CtrlHandshake (e : star_err)
  | CtrlHandshakeRejected (msg : string)
  | CtrlRegister (streamId : string) (e : star_err)
  | CtrlRegisterRejected (streamId : string) (msg : string).

Section dial.
Context `{!ControlJson}.

(** The loop over the streams to register. *)
Fixpoint register_streams (s : Session) (c : CtrlClient) (sts : list RegisterStreamReq)
    : Session * result dial_ctrl_err CtrlClient :=
  match sts with
  | [] => (s, Ok c)
  | st :: sts =>
      match ClientRegisterStream s st with
      | (s, Err e) => (s, Err (CtrlRegister (rr_StreamId st) e))
      | (s, Ok rack) =>
          if negb (ra_OK rack) then (s, Err (CtrlRegisterRejected (rr_StreamId st) (ra_Message rack)))
          else
            register_streams s
              (with_streams c (<[rr_StreamId st := ra_AssignID rack]> (streams c))
                 (<[ra_AssignID rack := rr_StreamId st]> (streamIDs c))
                 ({[pair_key (rr_ClientProxyName st) (rr_StreamId st)]} ∪ pairs c)) sts
      end
  end.

(** [DialCtrl] on the session of a new connection. *)
Definition DialCtrl (s : Session) (dialer : bool) (req : HandshakeReq) (sts : list RegisterStreamReq)
    : Session * result dial_ctrl_err CtrlClient :=
  match ClientHandshake s req with
  | (s, Err e) => (s, Err (CtrlHandshake e))
  | (s, Ok ack) =>
      if negb (ha_OK ack) then (s, Err (CtrlHandshakeRejected (ha_Message ack)))
      else register_streams s (empty_client dialer) sts
  end.
End dial.

(** * Reachable clients *)

(** The server never uses a connection number twice (its hub numbers them in
    sequence). *)
Definition fresh_open `{!ControlJson} (c : CtrlClient) (ev : cevent) : Prop :=
  match ev with
  | CRecv _ m _ =>
      Type_ m = MsgConnOpen → ∀ req : ConnOpenReq, DecodeControl m = Ok req → cr_ConnID req ∉ lc_id <$> c_heap c
  | _ => True
  end.

Inductive cstep `{!ControlJson} (quote : string → string) : CtrlClient → CtrlClient → Prop :=
  | cstep_intro c ev c' : fresh_open c ev → capply quote c ev = Some c' → cstep quote c c'.

Definition closes (k : lconn) : nat := length (filter (λ x, is_close x = true) (lc_io k)).

(** Until the read loop has returned, the three maps are one; every connection is
    registered under its number with its queue and window open, or unregistered
    and closed, exactly once, its pump told to return. *)
Record cinv (c : CtrlClient) : Prop := {
  ci_maps : connsWin c = conns c;
  ci_queues : c_closed c = false → connsQ c = conns c;
  ci_closed : c_closed c = true → conns c = ∅ ∧ c_loop c = LoopEnd;
  ci_loc id l : conns c !! id = Some l →
    ∃ k, c_heap c !! l = Some k ∧ lc_id k = id ∧ closes k = 0%nat ∧ lc_qclosed k = false ∧ closed (lc_win k) = false;
  ci_dead l k : c_heap c !! l = Some k →
    conns c !! lc_id k = Some l ∨
    closes k = 1%nat ∧ (c_closed c = false → lc_qclosed k = true ∨ lc_pump k = false);
}.

(** Steps that touch neither the maps nor what [cinv] says of a connection. *)
Definition same_conn (k k' : lconn) : Prop :=
  lc_id k' = lc_id k ∧ closes k' = closes k ∧ lc_qclosed k' = lc_qclosed k ∧
  closed (lc_win k') = closed (lc_win k) ∧ (lc_pump k = false → lc_pump k' = false).

Record view (c c' : CtrlClient) : Prop := {
  vw_conns : conns c' = conns c;
  vw_win : connsWin c' = connsWin c;
  vw_q : connsQ c' = connsQ c;
  vw_closed : c_closed c' = c_closed c;
  vw_loop : c_closed c = true → c_loop c' = c_loop c;
  vw_heap : Forall2 same_conn (c_heap c) (c_heap c');
}.

#[export] Instance same_conn_refl : Reflexive same_conn.
Proof. by intros k. Qed.
#[export] Instance same_conn_trans : Transitive same_conn.
Proof. intros a b c (?&?&?&?&?) (?&?&?&?&?). split_and!; try congruence. auto. Qed.
#[export] Instance view_refl : Reflexive view.
Proof. by intros c; split. Qed.
#[export] Instance view_trans : Transitive view.
Proof. intros a b c [] []. split; try congruence. - intros. rewrite vw_loop1; [auto|congruence]. - by etrans. Qed.

Lemma Forall2_alter_id {A} (R : A → A → Prop) `{!Reflexive R} f i (l : list A) :
  (∀ x, l !! i = Some x → R x (f x)) → Forall2 R l (alter f i l).
Proof.
  revert i. induction l as [|x l IH]; intros [|i] H; simpl; try done.
  - constructor; [by apply H|done].
  - constructor; [done|]. by apply IH.
Qed.

Lemma view_alter f l c : (∀ k, c_heap c !! l = Some k → same_conn k (f k)) → view c (upd f l c).
Proof. intros H. split; try done. by apply Forall2_alter_id; [apply _|]. Qed.

Lemma view_send c m : view c (send c m).1.
Proof. unfold send. destruct (_ && _) eqn:E; [|done]. by split. Qed.

Lemma acquire_now_closed f w n w' : acquire_now f w n = Some w' → closed w' = closed w.
Proof.
  revert w n. induction f as [|f IH]; intros w n; [done|]. cbn [acquire_now]. unfold Acquire_turn.
  destruct (closed w) eqn:E; [done|]. destruct (_ <=? limit w); [|done]. destruct (_ <=? 0).
  - intros [= <-]. done.
  - intros ->%IH. done.
Qed.

Lemma view_cinv c c' : view c c' → cinv c → cinv c'.
Proof.
  intros [Hc Hw Hq Hd Hl Hh] [Hm Hqs Hcl Hloc Hdead]. split.
  - congruence.
  - rewrite Hd, Hq, Hc. done.
  - rewrite Hd, Hc. intros H. destruct (Hcl H). split; [done|]. rewrite Hl; done.
  - rewrite Hc. intros id l (k & Hk & H)%Hloc. destruct (Forall2_lookup_l _ _ _ _ _ Hh Hk) as (k' & Hk' & H1 & H2 & H3 & H4 & _).
    exists k'. rewrite H1, H2, H3, H4. done.
  - rewrite Hc, Hd. intros l k' Hk'. destruct (Forall2_lookup_r _ _ _ _ _ Hh Hk') as (k & Hk & H1 & H2 & H3 & H4 & H5).
    rewrite H1, H2, H3. destruct (Hdead _ _ Hk) as [?|[? H]]; [by left|right]. split; [done|]. intros ?. destruct H; auto.
Qed.

(** [closeConn] on a client where the three maps agree. *)
Definition closed_lconn (k : lconn) : lconn := add_io LClose (close_q (close_window k)).

Lemma alter_alter {A} (f g : A → A) i (l : list A) : alter f i (alter g i l) = alter (f ∘ g) i l.
Proof. revert i. induction l as [|x l IH]; intros [|i]; simpl; try done. f_equal. apply IH. Qed.

Lemma closeConn_unknown c id notify :
  cinv c → conns c !! id = None → view (with_conns c (conns c) (connsWin c) (delete id (connsQ c))) (closeConn c id notify).
Proof.
  intros Hi H. unfold closeConn. rewrite H. split; simpl; try done.
  - by rewrite delete_id.
  - rewrite delete_id; [done|]. by rewrite (ci_maps _ Hi).
Qed.

Lemma closeConn_known c id l :
  cinv c → conns c !! id = Some l →
  ∃ c', view c' (closeConn c id true) ∧ view c' (closeConn c id false) ∧
    c_heap c' = alter closed_lconn l (c_heap c) ∧
    conns c' = delete id (conns c) ∧ connsWin c' = delete id (conns c) ∧ connsQ c' = delete id (conns c) ∧
    c_closed c' = false ∧ c_closed c = false ∧ c_heap (closeConn c id true) = c_heap c' ∧
    c_heap (closeConn c id false) = c_heap c'.
Proof.
  intros Hi H. assert (c_closed c = false) as Hcl.
  { destruct (c_closed c) eqn:E; [|done]. destruct (ci_closed _ Hi E) as [He _]. rewrite He in H. done. }
  pose proof (ci_maps _ Hi) as Hm. pose proof (ci_queues _ Hi Hcl) as Hq.
  exists (closeConn c id false). unfold closeConn. rewrite H, Hm, Hq, H.
  split_and!; try done; try (by apply view_send); simpl.
  - by rewrite !alter_alter.
  - unfold CloseStream, send. by destruct (_ && _).
Qed.

Lemma closes_add k x : closes (add_io x k) = (closes k + (if is_close x then 1 else 0))%nat.
Proof. unfold closes. simpl. rewrite filter_app, length_app. by destruct x. Qed.

Lemma closeConn_cinv c id notify : cinv c → cinv (closeConn c id notify).
Proof.
  intros Hi. destruct (conns c !! id) as [l|] eqn:E.
  - destruct (closeConn_known _ _ _ Hi E) as (c' & Ht & Hf & Hh & Hc & Hw & Hq & Hcl & Hcl' & _ & _).
    assert (cinv c') as Hi'; [|by destruct notify; eapply view_cinv].
    destruct (ci_loc _ Hi _ _ E) as (k & Hk & Hid & H0 & _).
    split.
    + congruence.
    + congruence.
    + congruence.
    + rewrite Hc, Hh. intros id' l' [Hne Hl']%lookup_delete_Some. destruct (ci_loc _ Hi _ _ Hl') as (k' & Hk' & Hid' & ?).
      exists k'. rewrite list_lookup_alter_ne; [done|]. intros ->. congruence.
    + rewrite Hc, Hh, Hcl. intros l' k'. destruct (decide (l' = l)) as [->|Hne].
      * rewrite list_lookup_alter_eq, Hk. intros [= <-]. right. split; [|by left].
        change (closes (closed_lconn k)) with (closes (add_io LClose (close_q (close_window k)))).
        rewrite closes_add. unfold closes in *. simpl. lia.
      * rewrite list_lookup_alter_ne by done. intros Hk'. destruct (ci_dead _ Hi _ _ Hk') as [Hr|Hr].
        -- left. rewrite lookup_delete_ne; [done|]. intros He. rewrite <- He in Hr. congruence.
        -- right. by rewrite Hcl' in Hr.
  - eapply view_cinv; [by apply closeConn_unknown|]. destruct Hi as [H1 H2 H3 H4 H5]. split; simpl; try done.
    intros Hcl. rewrite H2 by done. by apply delete_id.
Qed.

(** Applying a function to every connection of a map without repetitions. *)
Lemma foldl_alter_lookup {A} (f : A → A) (ls : list nat) (h : list A) l :
  NoDup ls → foldl (λ h x, alter f x h) h ls !! l = (if bool_decide (l ∈ ls) then f else id) <$> h !! l.
Proof.
  revert h. induction ls as [|x ls IH]; intros h Hnd; simpl.
  - by destruct (h !! l).
  - apply NoDup_cons in Hnd as [Hx Hnd]. rewrite IH by done. destruct (decide (l = x)) as [->|Hne].
    + rewrite list_lookup_alter_eq. rewrite bool_decide_false, bool_decide_true by (done || left). by destruct (h !! x).
    + rewrite list_lookup_alter_ne by done. f_equal. case_bool_decide; case_bool_decide; set_solver.
Qed.

Lemma foldl_snd {A B} (f : A → B → A) (h : A) {C} (l : list (C * B)) :
  foldl (λ h x, f h x.2) h l = foldl f h l.*2.
Proof. revert h. induction l as [|x l IH]; intros h; simpl; [done|apply IH]. Qed.

Lemma cinv_NoDup c : cinv c → NoDup (map_to_list (conns c)).*2.
Proof.
  intros Hi. apply NoDup_fmap_2_strong; [|apply NoDup_map_to_list].
  intros [i l] [j l'] H1%elem_of_map_to_list H2%elem_of_map_to_list Heq. simpl in Heq. subst l'.
  destruct (ci_loc _ Hi _ _ H1) as (k & Hk & <- & _), (ci_loc _ Hi _ _ H2) as (k' & Hk' & <- & _). congruence.
Qed.

Lemma run_end_heap c l :
  cinv c →
  c_heap (run_end c) !! l =
    (if bool_decide (l ∈ (map_to_list (conns c)).*2) then close_window ∘ add_io LClose else id) <$> c_heap c !! l.
Proof.
  intros Hi. unfold run_end, closeAllConns. simpl. rewrite (ci_maps _ Hi).
  rewrite (foldl_snd (λ h x, alter close_window x h)), (foldl_snd (λ h x, alter (add_io LClose) x h)).
  rewrite !foldl_alter_lookup by (by apply cinv_NoDup). case_bool_decide; by destruct (c_heap c !! l).
Qed.

Lemma run_end_cinv c : cinv c → cinv (run_end c).
Proof.
  intros Hi. split; try done.
  intros l k. rewrite run_end_heap by done. intros Hk. right. split; [|done].
  destruct (c_heap c !! l) as [k0|] eqn:E; [|done].
  case_bool_decide as Hin; simpl in Hk; injection Hk as <-.
  - apply list_elem_of_fmap in Hin as ([id l'] & -> & Hin). apply elem_of_map_to_list in Hin.
    destruct (ci_loc _ Hi _ _ Hin) as (k & Hk & _ & H0 & _). simpl in *. assert (k0 = k) as -> by congruence.
    change (closes (add_io LClose k) = 1%nat). rewrite closes_add. simpl. lia.
  - destruct (ci_dead _ Hi _ _ E) as [Hr|[? _]]; [|done]. exfalso. apply Hin. apply list_elem_of_fmap.
    exists (lc_id k0, l). split; [done|]. by apply elem_of_map_to_list.
Qed.

Lemma view_set_loop c s : c_closed c = false → view c (set_loop c s).
Proof. intros H. split; try done. congruence. Qed.

Lemma view_dials c ds acks seq dh ch : view c (with_dials (with_dheap c dh ch) ds acks seq).
Proof. by split. Qed.

Lemma cinv_open c : cinv c → c_loop c ≠ LoopEnd → c_closed c = false.
Proof. intros Hi Hl. destruct (c_closed c) eqn:E; [|done]. by destruct (ci_closed _ Hi E). Qed.

Lemma send_spec c m :
  send c m = (c, false) ∨ send c m = (with_link c true (c_closed c) (c_out c ++ [m]), true).
Proof. unfold send. destruct (_ && _); auto. Qed.

Lemma same_conn_window k w : closed w = closed (lc_win k) → same_conn k (set_window w k).
Proof. intros H. by split_and!. Qed.

Section reachable.
Context {CJ : ControlJson}.
Variable quote : string → string.

(** A new connection at the end of the heap, registered under a number no
    connection has. *)
Lemma new_conn_cinv c id :
  cinv c → c_closed c = false → id ∉ lc_id <$> c_heap c →
  cinv (with_conns (with_heap c (c_heap c ++ [mkLconn id [] false [] (NewWindow DefaultStreamWindow) true UpStart]))
    (<[id := length (c_heap c)]> (conns c)) (<[id := length (c_heap c)]> (connsWin c))
    (<[id := length (c_heap c)]> (connsQ c))).
Proof.
  intros Hi Hcl Hid. split; simpl.
  - by rewrite (ci_maps _ Hi).
  - intros _. by rewrite (ci_queues _ Hi).
  - congruence.
  - intros id' l [[<- <-]|[Hne Hl]]%lookup_insert_Some.
    + eexists. rewrite list_lookup_middle by done. done.
    + destruct (ci_loc _ Hi _ _ Hl) as (k & Hk & Hkk). exists k. split; [|done]. by apply lookup_app_l_Some.
  - intros l k [Hk|[Hge Hk]]%lookup_app_Some.
    + destruct (ci_dead _ Hi _ _ Hk) as [H|H]; [left|by right]. rewrite lookup_insert_ne; [done|].
      intros ->. apply Hid. apply list_elem_of_fmap. exists k. split; [done|]. by eapply list_elem_of_lookup_2.
    + apply list_lookup_singleton_Some in Hk as [Hl <-]. left. simpl. rewrite lookup_insert_eq. f_equal. lia.
Qed.

Lemma dead_conn_cinv c k :
  cinv c → closes k = 1%nat → lc_pump k = false → cinv (with_heap c (c_heap c ++ [k])).
Proof.
  intros [H1 H2 H3 H4 H5] Hk Hp. split; simpl; try done.
  - intros id l (k' & Hk' & H)%H4. exists k'. split; [|done]. by apply lookup_app_l_Some.
  - intros l k' [Hl|[_ Hl]]%lookup_app_Some; [by apply H5|].
    apply list_lookup_singleton_Some in Hl as [_ <-]. right. split; [done|]. by right.
Qed.

Lemma handleConnOpen_cinv c m dialed :
  cinv c → c_closed c = false →
  (∀ req : ConnOpenReq, DecodeControl m = Ok req → cr_ConnID req ∉ lc_id <$> c_heap c) →
  cinv (handleConnOpen quote c m dialed).
Proof.
  intros Hi Hcl Hf. unfold handleConnOpen. destruct (DecodeControl (A := ConnOpenReq) m) as [req|e] eqn:Ed; [|done].
  specialize (Hf _ eq_refl). set (reply := match streamIDs c !! _ with Some _ => _ | None => _ end).
  destruct reply as [ok reason].
  pose proof (view_send c (control_message MsgConnOpenAck (mkConnOpenAck (cr_ConnID req) ok reason))) as Hv.
  destruct (send_spec c (control_message MsgConnOpenAck (mkConnOpenAck (cr_ConnID req) ok reason))) as [E|E]; rewrite E in *.
  - destruct ok; [|done]. simpl. by apply dead_conn_cinv.
  - pose proof (view_cinv _ _ Hv Hi). destruct ok; [|done]. by apply new_conn_cinv.
Qed.

Lemma dial_deliver_view pick c l it c' : dial_deliver pick c l it = Some c' → view c c'.
Proof.
  unfold dial_deliver. destruct (c_dheap c !! l); [|by intros [= <-]].
  destruct (deliver _ _ _); [|done]. intros [= <-]. by split.
Qed.

Lemma run_msg_cinv pick c m dialed c' :
  cinv c → c_closed c = false → fresh_open c (CRecv pick m dialed) →
  run_msg quote pick c m dialed = Some c' → cinv c'.
Proof.
  intros Hi Hcl Hf. unfold run_msg. case_bool_decide.
  { intros [= <-]. apply handleConnOpen_cinv; [done..|]. by apply Hf. }
  case_bool_decide.
  { destruct (dialConns c !! _); [intros ?%dial_deliver_view; by eapply view_cinv|].
    destruct (connsQ c !! _); intros [= <-]; [|done]. eapply view_cinv; [by apply view_set_loop|done]. }
  case_bool_decide.
  { destruct (dialConns c !! _) as [l|].
    - destruct (dial_deliver pick c l _) as [c1|] eqn:E; [|done]. intros [= <-]. apply dial_deliver_view in E.
      eapply view_cinv; [|done]. etrans; [done|]. by split.
    - intros [= <-]. destruct (IsHalfClose m); [|by apply closeConn_cinv].
      unfold halfCloseConn. destruct (connsQ c !! _); [|done]. eapply view_cinv; [by apply view_set_loop|done]. }
  case_bool_decide.
  { pose proof (view_send c (mkMessage MsgPong x00 (StreamID m) (Payload m))) as Hv.
    destruct (send c _) as [c1 b]. simpl in Hv. intros [= <-]. assert (cinv c1) by by eapply view_cinv.
    destruct b; [done|]. by apply run_end_cinv. }
  case_bool_decide.
  { destruct (DecodeControl m); intros [= <-]; [|done]. eapply view_cinv; [|done].
    destruct (connsWin c !! _); [|done]. apply view_alter. intros k Hk. by apply same_conn_window. }
  case_bool_decide; [|by intros [= <-]].
  destruct (DecodeControl m); intros [= <-]; [|done]. destruct (dialAcks c !! _); (eapply view_cinv; [|done]); by split.
Qed.

Lemma same_add_io x k : is_close x = false → same_conn k (add_io x k).
Proof. intros H. split_and!; try done. rewrite closes_add, H. lia. Qed.

Lemma DialIntranet_begin_view c name streamId : view c (DialIntranet_begin c name streamId).1.
Proof.
  unfold DialIntranet_begin. destruct (negb _); [done|]. destruct (_ <=? _); [done|].
  match goal with |- context [send ?c1 ?m] => pose proof (view_send c1 m) as Hv; destruct (send c1 m) as [c2 b]; simpl in Hv end.
  assert (view c c2) by (etrans; [apply view_dials|exact Hv]).
  destruct b; [done|]. etrans; [done|]. by split.
Qed.

Lemma pump_cinv c l k ok c' : c_heap c !! l = Some k → cinv c → pump c l k ok = Some c' → cinv c'.
Proof.
  intros Hk Hi. unfold pump. destruct (lc_pump k); [|done]. simpl. destruct (lc_q k) as [|[p|] q].
  - destruct (lc_qclosed k); [|done]. intros [= <-]. eapply view_cinv; [|done]. by apply view_alter; intros.
  - destruct (ok && _); intros [= <-].
    + eapply view_cinv; [|done]. etrans; [|apply view_send]. etrans; [|apply view_alter; intros; by apply same_add_io].
      by apply view_alter; intros.
    + eapply view_cinv; [by apply view_alter; intros|]. apply closeConn_cinv. eapply view_cinv; [|done]. by apply view_alter; intros.
  - intros [= <-]. eapply view_cinv; [|done]. etrans; [|apply view_alter; intros; by apply same_add_io].
    by apply view_alter; intros.
Qed.

Lemma uplink_send_cinv c l k p : cinv c → cinv (uplink_send c l k p).
Proof.
  intros Hi. unfold uplink_send, SendData.
  pose proof (view_send c (mkMessage MsgData x00 (lc_id k) p)) as Hv.
  destruct (send c (mkMessage MsgData x00 (lc_id k) p)) as [c1 []]; simpl in Hv.
  - by eapply view_cinv.
  - eapply view_cinv; [by apply view_alter; intros|]. apply closeConn_cinv. by eapply view_cinv.
Qed.

Lemma uplink_data_cinv c l k win p c' : cinv c → uplink_data c l k win p = Some c' → cinv c'.
Proof.
  intros Hi. unfold uplink_data.
  assert (∀ u, cinv (upd (set_uplink u) l c)) by (intros; eapply view_cinv; [by apply view_alter; intros|done]).
  destruct (win ≫= _) as [[lw w]|] eqn:Ew; [|intros [= <-]; by apply uplink_send_cinv].
  destruct (closed w) eqn:Ecl; [by intros [= <-]|].
  destruct (acquire_now _ _ _) as [w'|] eqn:Ea; [|destruct (c_closed c); by intros [= <-]].
  intros [= <-]. apply uplink_send_cinv. eapply view_cinv; [|done]. apply view_alter. intros k' Hk'.
  apply bind_Some in Ew as (l' & -> & Ew). rewrite fmap_Some in Ew. destruct Ew as (kw & Hkw & [= -> ->]).
  assert (kw = k') as -> by congruence. apply same_conn_window. by eapply acquire_now_closed.
Qed.

Lemma capply_cinv c ev c' : cinv c → fresh_open c ev → capply quote c ev = Some c' → cinv c'.
Proof.
  intros Hi Hf. destruct ev; simpl.
  - destruct (c_loop c) eqn:El; try done. eapply run_msg_cinv; [done| |done]. apply cinv_open; congruence.
  - destruct (c_loop c) eqn:El; try done. destruct (c_heap c !! _) as [k|] eqn:Hk; [|done].
    assert (c_closed c = false) as Hcl by (apply cinv_open; congruence).
    destruct (lc_qclosed k); [intros [= <-]; eapply view_cinv; [by apply view_set_loop|done]|].
    case_bool_decide; intros [= <-]. eapply view_cinv; [|done]. etrans; [|by apply view_set_loop]. by apply view_alter; intros.
  - destruct (c_loop c); try done. intros [= <-]. by apply run_end_cinv.
  - intros [= <-]. eapply view_cinv; [|done]. by split.
  - intros (k & Hk & H)%bind_Some. by eapply pump_cinv.
  - intros (k & Hk & H)%bind_Some. destruct (lc_up k); simplify_eq. eapply view_cinv; [|done]. by apply view_alter; intros.
  - intros (k & Hk & H)%bind_Some. destruct (lc_up k); try done. destruct (_ || _); [done|]. by eapply uplink_data_cinv.
  - intros (k & Hk & H)%bind_Some. destruct (lc_up k); try done. destruct (local_closed k); simplify_eq.
    eapply view_cinv; [|done]. etrans; [apply view_send|]. by apply view_alter; intros.
  - intros (k & Hk & H)%bind_Some. destruct (lc_up k); simplify_eq.
    eapply view_cinv; [by apply view_alter; intros|]. by apply closeConn_cinv.
  - intros [= <-]. eapply view_cinv; [|done]. apply DialIntranet_begin_view.
  - destruct timeout; [intros [= <-]; eapply view_cinv; [|done]; by split|].
    destruct (c_chans c !! ch) as [[a|]|]; try done. intros [= <-]. eapply view_cinv; [|done].
    unfold DialIntranet_end. destruct (cca_OK a); by split.
Qed.

Lemma reach_cinv c c' : cinv c → rtc (cstep quote) c c' → cinv c'.
Proof. intros Hi Hr. revert Hi. induction Hr as [|c c1 c' [? ev ? Hf Ha] _ IH]; [done|]. intros Hi. apply IH. by eapply capply_cinv. Qed.
End reachable.

(** * The order of what reaches a local connection *)

Definition io_item (x : local_event) : option item :=
  match x with LWrite p => Some (Some p) | LCloseWrite => Some None | LClose => None end.
Definition io_items (k : lconn) : list item := omap io_item (lc_io k).

(** What the read loop has received for a connection but not yet queued. *)
Definition pending (l : nat) (c : CtrlClient) : list item :=
  match c_loop c with LoopSend l' it => if bool_decide (l' = l) then [it] else [] | _ => [] end.

(** The frames a message brings to a connection: data, and half closes. *)
Definition received1 (l : nat) (c : CtrlClient) (ev : cevent) : list item :=
  match ev, c_loop c with
  | CRecv _ m _, LoopIdle =>
      if bool_decide (dialConns c !! StreamID m = None ∧ connsQ c !! StreamID m = Some l) then
        if bool_decide (Type_ m = MsgData) then [payload_item (Payload m)]
        else if bool_decide (Type_ m = MsgStreamClose) && IsHalfClose m then [None] else []
      else []
  | _, _ => []
  end.

Fixpoint received `{!ControlJson} (quote : string → string) (l : nat) (c : CtrlClient) (evs : list cevent) : list item :=
  match evs with
  | [] => []
  | ev :: evs =>
      received1 l c ev ++ match capply quote c ev with Some c' => received quote l c' evs | None => [] end
  end.

(** [e] arrives between two moments of a connection: it is passed on in order; a
    pump whose write failed loses the item it was writing and all that follow. *)
Definition flow (l : nat) (e : list item) (c : CtrlClient) (k : lconn) (c' : CtrlClient) (k' : lconn) : Prop :=
  ∃ lost, io_items k' ++ lost ++ lc_q k' ++ pending l c' = io_items k ++ lc_q k ++ pending l c ++ e ∧
    (lc_pump k' = true → lost = [] ∧ lc_pump k = true) ∧
    (lc_pump k = false → io_items k' = io_items k ∧ lost = []).

Lemma flow_trans l e1 e2 c k c1 k1 c2 k2 :
  flow l e1 c k c1 k1 → flow l e2 c1 k1 c2 k2 → flow l (e1 ++ e2) c k c2 k2.
Proof.
  intros (lost1 & H1 & Hp1 & Hd1) (lost2 & H2 & Hp2 & Hd2). destruct (lc_pump k1) eqn:Ep.
  - destruct (Hp1 eq_refl) as [-> Hk]. exists lost2. split_and!.
    + rewrite H2. rewrite app_nil_l in H1.
      transitivity ((io_items k1 ++ lc_q k1 ++ pending l c1) ++ e2); [by rewrite <- !app_assoc|].
      by rewrite H1, <- !app_assoc.
    + intros H. by destruct (Hp2 H).
    + congruence.
  - destruct (Hd2 eq_refl) as [Hio ->]. exists lost1. split_and!.
    + rewrite Hio in H2 |- *. rewrite app_nil_l in H2. apply app_inv_head in H2. rewrite H2.
      transitivity ((io_items k1 ++ lost1 ++ lc_q k1 ++ pending l c1) ++ e2); [by rewrite <- !app_assoc|].
      by rewrite H1, <- !app_assoc.
    + intros H. destruct (Hp2 H) as [_ ?]. congruence.
    + intros H. destruct (Hd1 H) as [? ->]. split; [congruence|done].
Qed.

(** Relations on connections that closing a connection and ending its uplink
    respect, and the clients whose connections are all related. *)
Class Closable (R : lconn → lconn → Prop) := {
  #[global] cl_preorder :: PreOrder R;
  cl_q k : R k (close_q k);
  cl_window k : R k (close_window k);
  cl_io k : R k (add_io LClose k);
  cl_uplink k : R k (set_uplink UpEnd k);
}.

Definition keeps (R : lconn → lconn → Prop) (c c' : CtrlClient) : Prop :=
  ∀ l k, c_heap c !! l = Some k → ∃ k', c_heap c' !! l = Some k' ∧ R k k'.

Section keeps.
Context (R : lconn → lconn → Prop) `{!Closable R}.

#[export] Instance keeps_refl : Reflexive (keeps R).
Proof. intros c l k Hk. by exists k. Qed.
#[export] Instance keeps_trans : Transitive (keeps R).
Proof.
  intros c1 c2 c3 H1 H2 l k Hk. destruct (H1 _ _ Hk) as (k2 & Hk2 & ?). destruct (H2 _ _ Hk2) as (k3 & Hk3 & ?).
  exists k3. split; [done|]. by etrans.
Qed.

Lemma keeps_heap c c' : c_heap c' = c_heap c → keeps R c c'.
Proof. intros H l k Hk. exists k. by rewrite H. Qed.

Lemma keeps_grow c h c' : c_heap c' = c_heap c ++ h → keeps R c c'.
Proof. intros Hh l k Hk. exists k. rewrite Hh. split; [by apply lookup_app_l_Some|done]. Qed.

Lemma keeps_upd_at f l c : (∀ k, c_heap c !! l = Some k → R k (f k)) → keeps R c (upd f l c).
Proof.
  intros Hf l' k Hk. simpl. destruct (decide (l' = l)) as [->|Hne].
  - rewrite list_lookup_alter_eq, Hk. eexists. split; [done|]. by apply Hf.
  - rewrite list_lookup_alter_ne by done. by exists k.
Qed.

Lemma keeps_upd f l c : (∀ k, R k (f k)) → keeps R c (upd f l c).
Proof. intros Hf. apply keeps_upd_at. auto. Qed.

Lemma keeps_send c m : keeps R c (send c m).1.
Proof. apply keeps_heap. by destruct (send_spec c m) as [-> | ->]. Qed.

Lemma keeps_upd_opt f o c : (∀ k, R k (f k)) → keeps R c (upd_opt f o c).
Proof. destruct o; [by apply keeps_upd|done]. Qed.

Lemma keeps_closeConn c id notify : keeps R c (closeConn c id notify).
Proof.
  unfold closeConn. set (c1 := with_conns _ _ _ _). assert (keeps R c c1) as H by by apply keeps_heap.
  destruct (conns c !! id); [|done]. etrans; [exact H|]. set (c2 := upd (add_io LClose) _ _).
  assert (keeps R c1 c2) as H2.
  { etrans; [|apply keeps_upd, cl_io]. etrans; apply keeps_upd_opt; [apply cl_window|apply cl_q]. }
  etrans; [exact H2|]. destruct notify; [apply keeps_send|done].
Qed.

Lemma keeps_foldl f (ls : list nat) c c' :
  (∀ k, R k (f k)) → c_heap c' = foldl (λ h x, alter f x h) (c_heap c) ls → keeps R c c'.
Proof.
  intros Hf. revert c. induction ls as [|x ls IH]; intros c Hh; simpl in Hh; [by apply keeps_heap|].
  etrans; [by apply (keeps_upd f x)|]. by apply IH.
Qed.

Lemma keeps_run_end c : keeps R c (run_end c).
Proof.
  etrans; [apply (keeps_foldl (add_io LClose) (map_to_list (conns c)).*2 c
     (with_heap c (foldl (λ h x, alter (add_io LClose) x h) (c_heap c) (map_to_list (conns c)).*2))); [apply cl_io|done]|].
  apply (keeps_foldl close_window (map_to_list (connsWin c)).*2); [apply cl_window|].
  unfold run_end, closeAllConns. simpl. by rewrite (foldl_snd (λ h x, alter close_window x h)), (foldl_snd (λ h x, alter (add_io LClose) x h)).
Qed.
End keeps.

(** Steps that leave the queue, the output and the pump of every connection. *)
Definition same_flow (k k' : lconn) : Prop := lc_q k' = lc_q k ∧ io_items k' = io_items k ∧ lc_pump k' = lc_pump k.

#[export] Instance same_flow_closable : Closable same_flow.
Proof.
  split; try done.
  - split; [done|]. intros k1 k2 k3 (?&?&?) (?&?&?). split_and!; congruence.
  - intros k. split_and!; try done. unfold io_items. simpl. rewrite omap_app. simpl. by rewrite app_nil_r.
Qed.

Abbreviation still := (keeps same_flow).

Lemma still_flow l e c c' k :
  still c c' → c_heap c !! l = Some k → pending l c' = pending l c ++ e →
  ∃ k', c_heap c' !! l = Some k' ∧ flow l e c k c' k'.
Proof.
  intros H Hk Hp. destruct (H _ _ Hk) as (k' & Hk' & Hq & Hio & Hpu). exists k'. split; [done|]. exists [].
  rewrite Hq, Hio, Hp, Hpu. simpl. by split_and!.
Qed.

Lemma send_loop c m : c_loop (send c m).1 = c_loop c.
Proof. by destruct (send_spec c m) as [-> | ->]. Qed.

Lemma closeConn_loop c id notify : c_loop (closeConn c id notify) = c_loop c.
Proof.
  unfold closeConn. destruct (conns c !! id); [|done].
  assert (∀ f o d, c_loop (upd_opt f o d) = c_loop d) as Ho by by intros f [].
  destruct notify; [unfold CloseStream; rewrite send_loop|]; simpl; by rewrite !Ho.
Qed.

Lemma pending_idle l c : c_loop c = LoopIdle ∨ c_loop c = LoopEnd → pending l c = [].
Proof. unfold pending. by intros [-> | ->]. Qed.

Section flow.
Context {CJ : ControlJson}.
Variable quote : string → string.

Section generic.
Context (R : lconn → lconn → Prop) `{!Closable R}.

Lemma handleConnOpen_keeps c m dialed : keeps R c (handleConnOpen quote c m dialed) ∧ c_loop (handleConnOpen quote c m dialed) = c_loop c.
Proof.
  unfold handleConnOpen. destruct (DecodeControl (A := ConnOpenReq) m) as [req|e]; [|done].
  set (reply := match streamIDs c !! _ with Some _ => _ | None => _ end). destruct reply as [ok reason].
  destruct (send_spec c (control_message MsgConnOpenAck (mkConnOpenAck (cr_ConnID req) ok reason))) as [-> | ->];
    destruct ok; simpl; split; try done; first [by apply keeps_heap | by eapply keeps_grow].
Qed.

Lemma dial_deliver_keeps pick c l it c' : dial_deliver pick c l it = Some c' → keeps R c c' ∧ c_loop c' = c_loop c.
Proof.
  unfold dial_deliver. destruct (c_dheap c !! l); [|by intros [= <-]].
  destruct (deliver _ _ _); [|done]. intros [= <-]. split; [by apply keeps_heap|done].
Qed.

Ltac on_type t :=
  destruct (decide t) as [?|?]; [rewrite !(bool_decide_true t) by done|rewrite !(bool_decide_false t) by done].

Lemma run_msg_keeps pick c m dialed c' l :
  (Type_ m = MsgWindowUpdate → Payload m ≠ [] → ∀ k w, closed w = closed (lc_win k) → R k (set_window w k)) →
  c_loop c = LoopIdle → run_msg quote pick c m dialed = Some c' →
  keeps R c c' ∧ pending l c' = received1 l c (CRecv pick m dialed).
Proof.
  intros HW Hl. unfold run_msg, received1. rewrite Hl. on_type (Type_ m = MsgConnOpen).
  { intros [= <-]. destruct (handleConnOpen_keeps c m dialed) as [Hs Hlo]. split; [done|].
    rewrite pending_idle by (left; congruence).
    match goal with H : Type_ m = _ |- _ => rewrite H end. by case_bool_decide. }
  on_type (Type_ m = MsgData).
  {    destruct (dialConns c !! _) eqn:Ed.
    - intros [Hs Hlo]%dial_deliver_keeps. split; [done|]. rewrite pending_idle by (left; congruence).
      by rewrite bool_decide_false by naive_solver.
    - destruct (connsQ c !! _) as [l'|] eqn:Eq; intros [= <-].
      + split; [by apply keeps_heap|]. unfold pending. simpl.
        destruct (decide (l' = l)) as [->|Hne]; [by rewrite !bool_decide_true|].
        rewrite !bool_decide_false; [done|by intros [_ [= ?]]|done].
      + split; [done|]. rewrite pending_idle by by left. by rewrite bool_decide_false by naive_solver. }
  on_type (Type_ m = MsgStreamClose).
  { simpl. destruct (dialConns c !! _) as [ld|] eqn:Ed.
    - destruct (dial_deliver pick c ld _) as [c1|] eqn:E; [|done]. intros [= <-].
      apply dial_deliver_keeps in E as [Hs Hlo]. split; [etrans; [exact Hs|by apply keeps_heap]|].
      rewrite pending_idle by (left; simpl; congruence). by rewrite bool_decide_false by naive_solver.
    - intros [= <-]. destruct (IsHalfClose m).
      + unfold halfCloseConn. destruct (connsQ c !! _) as [l'|] eqn:Eq.
        * split; [by apply keeps_heap|]. unfold pending. simpl.
          destruct (decide (l' = l)) as [->|Hne]; [by rewrite !bool_decide_true|].
          rewrite !bool_decide_false; [done|by intros [_ [= ?]]|done].
        * split; [done|]. rewrite pending_idle by by left. by rewrite bool_decide_false by naive_solver.
      + split; [by apply keeps_closeConn|]. rewrite pending_idle by (left; by rewrite closeConn_loop). by case_bool_decide. }
  assert (∀ c1, keeps R c c1 → c_loop c1 = LoopIdle ∨ c_loop c1 = LoopEnd →
    keeps R c c1 ∧ pending l c1 = if bool_decide (dialConns c !! StreamID m = None ∧ connsQ c !! StreamID m = Some l)
                                 then if false && IsHalfClose m then [None] else [] else []) as Hno.
  { intros c1 Hs Hlo. split; [done|]. rewrite pending_idle by done. by case_bool_decide. }
  on_type (Type_ m = MsgPing).
  { pose proof (keeps_send R c (mkMessage MsgPong x00 (StreamID m) (Payload m))) as Hs.
    pose proof (send_loop c (mkMessage MsgPong x00 (StreamID m) (Payload m))) as Hlo.
    destruct (send c _) as [c1 b]. simpl in Hs, Hlo. intros [= <-]. apply Hno.
    - destruct b; [done|]. etrans; [exact Hs|by apply keeps_run_end].
    - destruct b; [left; congruence|by right]. }
  on_type (Type_ m = MsgWindowUpdate).
  { destruct (DecodeControl (A := WindowUpdate) m) as [wu|] eqn:Ed; intros [= <-]; apply Hno; try by left.
    - apply keeps_upd_opt; [done|]. intros k. apply HW; [done| |done]. intros Hpl. unfold DecodeControl in Ed. by rewrite Hpl in Ed.
    - left. by destruct (connsWin c !! _).
    - done. }
  on_type (Type_ m = MsgClientConnAck); [|intros [= <-]; apply Hno; [done|by left]].
  destruct (DecodeControl (A := ClientConnAck) m) as [ack|]; intros [= <-]; apply Hno; try done; try (by left);
    destruct (dialAcks c !! _); first [by apply keeps_heap | by left].
Qed.

End generic.

(** The flow of one connection when nothing is pending. *)
Definition kflow (k k' : lconn) : Prop :=
  ∃ lost, io_items k' ++ lost ++ lc_q k' = io_items k ++ lc_q k ∧
    (lc_pump k' = true → lost = [] ∧ lc_pump k = true) ∧ (lc_pump k = false → io_items k' = io_items k ∧ lost = []).

Lemma upd_flow f c l k c' l0 k0 :
  still (upd f l c) c' → c_loop c' = c_loop c → c_heap c !! l = Some k → kflow k (f k) → c_heap c !! l0 = Some k0 →
  ∃ k', c_heap c' !! l0 = Some k' ∧ flow l0 [] c k0 c' k'.
Proof.
  intros Hs Hlo Hk Hf Hk0. assert (pending l0 c' = pending l0 c) as Hpe by (unfold pending; by rewrite Hlo).
  destruct (decide (l0 = l)) as [->|Hne].
  - assert (k0 = k) as -> by congruence. destruct Hf as (lost & H1 & H2 & H3).
    destruct (Hs l (f k)) as (k' & Hk' & Hq' & Hio' & Hpu'); [simpl; by rewrite list_lookup_alter_eq, Hk|].
    exists k'. split; [done|]. exists lost. rewrite Hpe, Hq', Hio', Hpu', app_nil_r. split; [|done].
    transitivity ((io_items (f k) ++ lost ++ lc_q (f k)) ++ pending l c); [by rewrite <- !app_assoc|].
    by rewrite H1, <- app_assoc.
  - destruct (Hs l0 k0) as (k' & Hk' & Hq' & Hio' & Hpu'); [simpl; by rewrite list_lookup_alter_ne|].
    exists k'. split; [done|]. exists []. rewrite Hpe, Hq', Hio', Hpu', app_nil_r. by split_and!.
Qed.

Lemma still_upd_mono f l c c' :
  (∀ k k', same_flow k k' → same_flow (f k) (f k')) → still c c' → still (upd f l c) (upd f l c').
Proof.
  intros Hf Hs l' k. simpl. destruct (decide (l' = l)) as [->|Hne].
  - rewrite !list_lookup_alter_eq. intros (k1 & Hk & ->)%fmap_Some. destruct (Hs _ _ Hk) as (k2 & -> & ?).
    eexists. split; [done|]. by apply Hf.
  - rewrite !list_lookup_alter_ne by done. apply Hs.
Qed.

(** A step of the pump of [l]. *)
Lemma pump_flow c l k ok c' l0 k0 :
  pump c l k ok = Some c' → c_heap c !! l = Some k → c_heap c !! l0 = Some k0 →
  ∃ k', c_heap c' !! l0 = Some k' ∧ flow l0 [] c k0 c' k'.
Proof.
  intros Hp Hk Hk0. unfold pump in Hp. destruct (lc_pump k) eqn:Epu; [|done]. simpl in Hp.
  destruct (lc_q k) as [|[p|] q] eqn:Eq.
  - destruct (lc_qclosed k); [|done]. injection Hp as <-. eapply (upd_flow end_pump _ l k); [done..| |done].
    exists []. split; [done|]. simpl. split; congruence.
  - destruct (ok && _); injection Hp as <-.
    + eapply (upd_flow (add_io (LWrite p) ∘ set_q q) _ l k); [|by rewrite send_loop|done| |done].
      * etrans; [|by apply keeps_send; apply _]. apply keeps_heap; [apply _|]. simpl. by rewrite alter_alter.
      * exists []. unfold io_items. simpl. rewrite omap_app, Eq, Epu. simpl. rewrite <- app_assoc. by split_and!.
    + eapply (upd_flow (end_pump ∘ set_q q) _ l k); [|by simpl; rewrite closeConn_loop|done| |done].
      * etrans; [|apply still_upd_mono; [by intros ?? (?&?&?)|apply keeps_closeConn, _]]. apply keeps_heap; [apply _|]. simpl. by rewrite alter_alter.
      * exists [Some p]. simpl. rewrite Eq. split_and!; try done. congruence.
  - injection Hp as <-. eapply (upd_flow (add_io LCloseWrite ∘ set_q q) _ l k); [|done|done| |done].
    + apply keeps_heap; [apply _|]. simpl. by rewrite alter_alter.
    + exists []. unfold io_items. simpl. rewrite omap_app, Eq, Epu. simpl. rewrite <- app_assoc. by split_and!.
Qed.

Lemma uplink_data_keeps R `{!Closable R} c l k win p c' :
  (∀ lw kw w, win = Some lw → c_heap c !! lw = Some kw → closed (lc_win kw) = false →
     acquire_now (S (length p)) (lc_win kw) (Z.of_nat (length p)) = Some w → R kw (set_window w kw)) →
  uplink_data c l k win p = Some c' → keeps R c c' ∧ c_loop c' = c_loop c.
Proof.
  assert (∀ c1, keeps R c1 (uplink_send c1 l k p) ∧ c_loop (uplink_send c1 l k p) = c_loop c1) as Hs.
  { intros c1. unfold uplink_send, SendData. pose proof (keeps_send R c1 (mkMessage MsgData x00 (lc_id k) p)) as Hs.
    pose proof (send_loop c1 (mkMessage MsgData x00 (lc_id k) p)) as Hl. destruct (send c1 _) as [c2 []]; simpl in *; [done|].
    split; [|by rewrite closeConn_loop]. etrans; [|apply keeps_upd, cl_uplink]; [|done].
    etrans; [exact Hs|by apply keeps_closeConn]. }
  intros HR. unfold uplink_data. destruct (win ≫= _) as [[lw w]|] eqn:Ew; [|intros [= <-]; apply Hs].
  apply bind_Some in Ew as (l' & -> & Ew). rewrite fmap_Some in Ew. destruct Ew as (kw & Hkw & [= -> ->]).
  destruct (closed (lc_win kw)) eqn:Ecl; [intros [= <-]; split; [apply keeps_upd; [done|apply cl_uplink]|done]|].
  destruct (acquire_now _ _ _) as [w'|] eqn:Ea.
  - intros [= <-]. destruct (Hs (upd (set_window w') l' c)) as [H1 H2]. split; [|exact H2].
    etrans; [|exact H1]. apply keeps_upd_at; [done|]. intros k' Hk'. assert (k' = kw) as -> by congruence. by eapply HR.
  - destruct (c_closed c); intros [= <-]. split; [apply keeps_upd; [done|apply cl_uplink]|done].
Qed.

Lemma DialIntranet_begin_heap c name streamId :
  c_heap (DialIntranet_begin c name streamId).1 = c_heap c ∧ c_loop (DialIntranet_begin c name streamId).1 = c_loop c.
Proof.
  unfold DialIntranet_begin. destruct (negb _); [done|]. destruct (_ <=? _); [done|].
  match goal with |- context [send ?c1 ?m] => destruct (send_spec c1 m) as [-> | ->] end; done.
Qed.

Lemma capply_flow c ev c' l k :
  capply quote c ev = Some c' → c_loop c' ≠ LoopPanic → c_heap c !! l = Some k →
  ∃ k', c_heap c' !! l = Some k' ∧ flow l (received1 l c ev) c k c' k'.
Proof.
  intros Ha Hp Hk.
  assert (∀ c1, still c c1 → c_loop c1 = c_loop c → ∃ k', c_heap c1 !! l = Some k' ∧ flow l [] c k c1 k') as Hst.
  { intros c1 Hs Hl. apply still_flow; [done..|]. unfold pending. by rewrite Hl, app_nil_r. }
  destruct ev; simpl in Ha.
  - destruct (c_loop c) eqn:El; try done. destruct (run_msg_keeps same_flow _ _ _ _ _ l ltac:(done) El Ha) as [Hs Hr].
    apply still_flow; [done..|]. by rewrite (pending_idle l c), Hr by by left.
  - destruct (c_loop c) as [|l' it| |] eqn:El; try done. destruct (c_heap c !! l') as [k1|] eqn:Hk1; [|done].
    destruct (lc_qclosed k1); [by injection Ha as <-|]. case_bool_decide; [|done]. injection Ha as <-. simpl.
    destruct (decide (l' = l)) as [->|Hne].
    + assert (k1 = k) as -> by congruence. rewrite list_lookup_alter_eq, Hk. eexists. split; [done|]. exists [].
      unfold pending at 1. simpl. unfold pending. rewrite El, bool_decide_true by done. rewrite !app_nil_r. by split_and!.
    + rewrite list_lookup_alter_ne by done. exists k. split; [done|]. exists [].
      unfold pending at 1. simpl. unfold pending. rewrite El, bool_decide_false by done. by split_and!.
  - destruct (c_loop c) eqn:El; try done. injection Ha as <-. apply (still_flow l []); [apply keeps_run_end, _|done|].
    rewrite !pending_idle; [done|by left|by right].
  - injection Ha as <-. apply Hst; [by apply keeps_heap; [apply _|]|done].
  - apply bind_Some in Ha as (k1 & Hk1 & Ha). by eapply pump_flow.
  - apply bind_Some in Ha as (k1 & Hk1 & Ha). destruct (lc_up k1); simplify_eq. apply Hst; [by apply keeps_upd; [apply _|]|done].
  - apply bind_Some in Ha as (k1 & Hk1 & Ha). destruct (lc_up k1); try done. destruct (_ || _); [done|].
    apply (uplink_data_keeps same_flow) in Ha as []; [|done]. by apply Hst.
  - apply bind_Some in Ha as (k1 & Hk1 & Ha). destruct (lc_up k1); try done. destruct (local_closed k1); simplify_eq.
    apply Hst; [|simpl; by rewrite send_loop]. etrans; [by apply keeps_send; apply _|by apply keeps_upd; [apply _|]].
  - apply bind_Some in Ha as (k1 & Hk1 & Ha). destruct (lc_up k1); simplify_eq.
    apply Hst; [|simpl; by rewrite closeConn_loop]. etrans; [by apply keeps_closeConn; apply _|by apply keeps_upd; [apply _|]].
  - injection Ha as <-. destruct (DialIntranet_begin_heap c clientProxyName streamId). apply Hst; [by apply keeps_heap; [apply _|]|done].
  - destruct timeout; [injection Ha as <-; apply Hst; [by apply keeps_heap; [apply _|]|done]|].
    destruct (c_chans c !! _) as [[a|]|]; try done. injection Ha as <-. unfold DialIntranet_end.
    apply Hst; destruct (cca_OK a); try done; by apply keeps_heap; [apply _|].
Qed.

Lemma panic_stays c ev c' : capply quote c ev = Some c' → c_loop c = LoopPanic → c_loop c' = LoopPanic.
Proof.
  intros Ha Hl. destruct ev; simpl in Ha; rewrite ?Hl in Ha; try done.
  - by injection Ha as <-.
  - apply bind_Some in Ha as (k & _ & Ha). unfold pump in Ha. destruct (lc_pump k); [|done]. simpl in Ha.
    destruct (lc_q k) as [|[p|] q]; [destruct (lc_qclosed k); [|done]|destruct (ok && _)|]; injection Ha as <-;
      rewrite ?send_loop; simpl; rewrite ?closeConn_loop; done.
  - apply bind_Some in Ha as (k & _ & Ha). destruct (lc_up k); simplify_eq. done.
  - apply bind_Some in Ha as (k & _ & Ha). destruct (lc_up k); try done. destruct (_ || _); [done|].
    apply (uplink_data_keeps same_flow) in Ha as [_ ?]; [congruence|done].
  - apply bind_Some in Ha as (k & _ & Ha). destruct (lc_up k); try done. destruct (local_closed k); simplify_eq.
    simpl. by rewrite send_loop.
  - apply bind_Some in Ha as (k & _ & Ha). destruct (lc_up k); simplify_eq. simpl. by rewrite closeConn_loop.
  - injection Ha as <-. by destruct (DialIntranet_begin_heap c clientProxyName streamId) as [_ ->].
  - destruct timeout; [by injection Ha as <-|]. destruct (c_chans c !! _) as [[a|]|]; try done. injection Ha as <-.
    unfold DialIntranet_end. by destruct (cca_OK a).
Qed.

Lemma crun_flow evs c c' l k :
  crun quote c evs = Some c' → c_loop c' ≠ LoopPanic → c_heap c !! l = Some k →
  ∃ k', c_heap c' !! l = Some k' ∧ flow l (received quote l c evs) c k c' k'.
Proof.
  revert c k. induction evs as [|ev evs IH]; intros c k Hr Hp Hk; simpl in *.
  - injection Hr as <-. apply still_flow; [done..|]. by rewrite app_nil_r.
  - apply bind_Some in Hr as (c1 & Ha & Hr).
    assert (∀ evs c1, crun quote c1 evs = Some c' → c_loop c1 ≠ LoopPanic) as Hnp.
    { clear -Hp. induction evs as [|ev evs IH]; intros c1 Hr; simpl in Hr; [by injection Hr as ->|].
      apply bind_Some in Hr as (c2 & Ha & Hr). intros Hc. by apply (IH _ Hr), (panic_stays _ _ _ Ha). }
    destruct (capply_flow _ _ _ _ _ Ha (Hnp _ _ Hr) Hk) as (k1 & Hk1 & Hf1).
    destruct (IH _ _ Hr Hp Hk1) as (k' & Hk' & Hf2). exists k'. split; [done|]. rewrite Ha. by eapply flow_trans.
Qed.
End flow.

(** * A used-up send window *)

Definition no_credit (ev : cevent) : Prop :=
  match ev with CRecv _ m _ => Type_ m = MsgWindowUpdate → Payload m = [] | _ => True end.

(** The uplink of [l] runs on its own window, which is full. *)
Definition used_up (l : nat) (k : lconn) : Prop :=
  outstanding (lc_win k) = limit (lc_win k) ∧ 0 < limit (lc_win k) < 2 ^ 62 ∧
  (lc_up k = UpRun (Some l) ∨ lc_up k = UpEnd).

Definition keeps_used_up (l : nat) (k k' : lconn) : Prop := used_up l k → used_up l k'.

#[export] Instance keeps_used_up_closable l : Closable (keeps_used_up l).
Proof.
  split; try by intros k Hk.
  - split; [by intros ??|]. intros a b c Hab Hbc Ha. auto.
  - intros k (H1 & H2 & _). split; [exact H1|]. split; [exact H2|]. by right.
Qed.

Lemma full_acquire f w n : outstanding w = limit w → 0 < limit w < 2 ^ 62 → 0 < n < 2 ^ 62 → acquire_now f w n = None.
Proof.
  intros Ho Hl Hn. destruct f; [done|]. cbn [acquire_now]. unfold Acquire_turn. destruct (closed w); [done|].
  rewrite min64_min, i64_small by lia. destruct (Z.leb_spec (outstanding w + n `min` limit w) (limit w)); [lia|done].
Qed.

Section used_up.
Context {CJ : ControlJson}.
Variable quote : string → string.

Lemma capply_used_up c ev c' l :
  no_credit ev → capply quote c ev = Some c' → (∃ k, c_heap c !! l = Some k ∧ used_up l k) →
  ∃ k, c_heap c' !! l = Some k ∧ used_up l k.
Proof.
  intros Hn Ha (k & Hk & Hu).
  assert (∀ c1, keeps (keeps_used_up l) c c1 → ∃ k, c_heap c1 !! l = Some k ∧ used_up l k) as Hgo.
  { intros c1 Hs. destruct (Hs _ _ Hk) as (k' & ? & H). eauto. }
  assert (∀ f l', (∀ k, keeps_used_up l k (f k)) → keeps (keeps_used_up l) c (upd f l' c)) as Hupd
    by (intros; by apply keeps_upd; [apply _|]).
  destruct ev; simpl in Ha.
  - destruct (c_loop c) eqn:El; try done. apply Hgo. refine (proj1 (run_msg_keeps quote (keeps_used_up l) pick c m dialed c' l _ El Ha)).
    intros Ht Hp. by specialize (Hn Ht).
  - destruct (c_loop c) as [|l' it| |]; try done. destruct (c_heap c !! l'); [|done].
    destruct (lc_qclosed _); [injection Ha as <-; by exists k|]. case_bool_decide; [|done]. injection Ha as <-.
    destruct (Hgo _ (Hupd (set_q (lc_q l0 ++ [it])) l' (λ k H, H))) as (k' & ? & ?). by exists k'.
  - destruct (c_loop c); try done. injection Ha as <-. apply Hgo. apply keeps_run_end, _.
  - injection Ha as <-. by exists k.
  - apply bind_Some in Ha as (k1 & Hk1 & Ha). apply Hgo. unfold pump in Ha. destruct (lc_pump k1); [|done]. simpl in Ha.
    destruct (lc_q k1) as [|[p|] q]; [destruct (lc_qclosed k1); [|done]|destruct (ok && _)|]; injection Ha as <-.
    + apply Hupd. by intros ??.
    + etrans; [|by apply keeps_send; apply _]. etrans; [exact (Hupd (set_q q) l0 (λ k H, H))|]. apply keeps_upd; [apply _|by intros ??].
    + etrans; [|apply keeps_upd; [apply _|by intros ??]]. etrans; [exact (Hupd (set_q q) l0 (λ k H, H))|]. apply keeps_closeConn, _.
    + etrans; [exact (Hupd (set_q q) l0 (λ k H, H))|]. apply keeps_upd; [apply _|by intros ??].
  - apply bind_Some in Ha as (k1 & Hk1 & Ha). destruct (lc_up k1) eqn:Eu; simplify_eq. apply Hgo. apply keeps_upd_at; [apply _|].
    intros k2 Hk2 (_ & _ & [H|H]); assert (k1 = k2) as -> by congruence; congruence.
  - apply bind_Some in Ha as (k1 & Hk1 & Ha). destruct (lc_up k1); try done. destruct (_ || _) eqn:Eg; [done|].
    apply Hgo. refine (proj1 (uplink_data_keeps (keeps_used_up l) _ _ _ _ _ _ _ Ha)). intros lw kw w -> Hkw Hcl Hacq (Ho & Hl & Hup).
    rewrite full_acquire in Hacq; [done|done|done|]. apply orb_false_iff in Eg as [[_ Hp]%orb_false_iff Hc].
    apply bool_decide_eq_false in Hp. apply Z.ltb_ge in Hc. unfold uplinkChunk in Hc. destruct p; [done|]. simpl length in *. lia.
  - apply bind_Some in Ha as (k1 & Hk1 & Ha). destruct (lc_up k1); try done. destruct (local_closed k1); simplify_eq.
    apply Hgo. etrans; [by apply keeps_send; apply _|]. apply keeps_upd; [apply _|apply cl_uplink].
  - apply bind_Some in Ha as (k1 & Hk1 & Ha). destruct (lc_up k1); simplify_eq.
    apply Hgo. etrans; [by apply keeps_closeConn; apply _|]. apply keeps_upd; [apply _|apply cl_uplink].
  - injection Ha as <-. rewrite (proj1 (DialIntranet_begin_heap c clientProxyName streamId)). by exists k.
  - destruct timeout; [injection Ha as <-; by exists k|]. destruct (c_chans c !! _) as [[a|]|]; try done.
    injection Ha as <-. unfold DialIntranet_end. destruct (cca_OK a); by exists k.
Qed.

Lemma crun_used_up evs c c' l :
  Forall no_credit evs → crun quote c evs = Some c' → (∃ k, c_heap c !! l = Some k ∧ used_up l k) →
  ∃ k, c_heap c' !! l = Some k ∧ used_up l k.
Proof.
  revert c. induction evs as [|ev evs IH]; intros c Hn Hr Hu; simpl in Hr; [by injection Hr as <-|].
  apply bind_Some in Hr as (c1 & Ha & Hr). inversion Hn; subst. eapply IH; [done..|]. by eapply capply_used_up.
Qed.
End used_up.

(** * Queues that nobody closes *)

(** A pump blocked on an empty, open queue. *)
Definition idle_pump (k : lconn) : Prop := lc_q k = [] ∧ lc_qclosed k = false ∧ lc_pump k = true.

Definition leaked (l : nat) (c : CtrlClient) : Prop :=
  c_loop c = LoopEnd ∧ conns c = ∅ ∧ ∃ k, c_heap c !! l = Some k ∧ idle_pump k.

Lemma leaked_upd f l l' c :
  (∀ k, l' = l → c_heap c !! l' = Some k → idle_pump k → idle_pump (f k)) → leaked l c → leaked l (upd f l' c).
Proof.
  intros Hf (Hl & Hc & k & Hk & Hi). split_and!; [done..|]. simpl. destruct (decide (l' = l)) as [->|Hne].
  - rewrite list_lookup_alter_eq, Hk. eexists. split; [done|]. by apply Hf.
  - rewrite list_lookup_alter_ne by done. by exists k.
Qed.

Lemma leaked_send l c m : leaked l c → leaked l (send c m).1.
Proof. intros H. by destruct (send_spec c m) as [-> | ->]. Qed.

Lemma leaked_closeConn l c id notify : leaked l c → leaked l (closeConn c id notify).
Proof. intros (Hl & Hc & H). unfold closeConn. rewrite Hc, lookup_empty. split_and!; [done|simpl; by rewrite delete_empty|done]. Qed.

(** Updates that do not concern the queue and the pump of [l]. *)
Ltac leak := repeat first
  [ done | apply leaked_send | apply leaked_closeConn
  | apply leaked_upd; [first [by intros ??? (?&?&?) | by intros ? <-]|] ].

Lemma uplink_send_leaked l c l' k p : leaked l c → leaked l (uplink_send c l' k p).
Proof.
  intros H. unfold uplink_send, SendData. pose proof (leaked_send l c (mkMessage MsgData x00 (lc_id k) p) H) as Hs.
  destruct (send c _) as [c1 []]; simpl in Hs; leak.
Qed.

Lemma capply_leaked `{!ControlJson} quote c ev c' l : capply quote c ev = Some c' → leaked l c → leaked l c'.
Proof.
  intros Ha Hk. pose proof (proj1 Hk) as Hl.
  destruct ev; simpl in Ha; rewrite ?Hl in Ha; try done.
  - by injection Ha as <-.
  - apply bind_Some in Ha as (k & Hk1 & Ha). unfold pump in Ha. destruct (lc_pump k) eqn:Ep; [|done]. simpl in Ha.
    assert (l0 ≠ l) as Hne.
    { intros ->. destruct Hk as (_ & _ & k' & Hk' & Hq & Hc & _). assert (k' = k) as -> by congruence.
      by rewrite Hq, Hc in Ha. }
    assert (∀ f c1, leaked l c1 → leaked l (upd f l0 c1)) as Hu by (intros; by apply leaked_upd).
    destruct (lc_q k) as [|[p|] q] eqn:Eq; [destruct (lc_qclosed k) eqn:Ec; [|done]|destruct (ok && _)|]; injection Ha as <-;
      repeat first [done | apply leaked_send | apply Hu | apply leaked_closeConn].
  - apply bind_Some in Ha as (k & Hk1 & Ha). destruct (lc_up k); simplify_eq. leak.
  - apply bind_Some in Ha as (k & Hk1 & Ha). destruct (lc_up k) as [|win|]; try done. destruct (_ || _); [done|].
    unfold uplink_data in Ha. destruct (win ≫= _) as [[lw w]|]; [|injection Ha as <-; by apply uplink_send_leaked].
    destruct (closed w); [injection Ha as <-; leak|]. destruct (acquire_now _ _ _); [|destruct (c_closed c); simplify_eq; leak].
    injection Ha as <-. apply uplink_send_leaked. leak.
  - apply bind_Some in Ha as (k & Hk1 & Ha). destruct (lc_up k); try done. destruct (local_closed k); simplify_eq. leak.
  - apply bind_Some in Ha as (k & Hk1 & Ha). destruct (lc_up k); simplify_eq. leak.
  - injection Ha as <-. unfold DialIntranet_begin. destruct (negb _); [done|]. destruct (_ <=? _); [done|].
    match goal with |- context [send ?c1 ?m] => pose proof (leaked_send l c1 m Hk) as Hs; destruct (send c1 m) as [c2 []] end; done.
  - destruct timeout; [by injection Ha as <-|]. destruct (c_chans c !! _) as [[a|]|]; try done. injection Ha as <-.
    unfold DialIntranet_end. by destruct (cca_OK a).
Qed.

Lemma crun_leaked `{!ControlJson} quote evs c c' l : crun quote c evs = Some c' → leaked l c → leaked l c'.
Proof.
  revert c. induction evs as [|ev evs IH]; intros c Hr Hk; simpl in Hr; [by injection Hr as <-|].
  apply bind_Some in Hr as (c1 & Ha & Hr). eapply IH; [done|]. by eapply capply_leaked.
Qed.

(** * What registration leaves in the client *)

Section registration.
Context `{CJ : ControlJson, !JsonLaws HandshakeReq, !JsonLaws HandshakeAck, !JsonLaws RegisterStreamReq,
  !JsonLaws RegisterStreamAck}.

Definition register_one (c : CtrlClient) (x : RegisterStreamReq * RegisterStreamAck) : CtrlClient :=
  with_streams c (<[rr_StreamId x.1 := ra_AssignID x.2]> (streams c))
    (<[ra_AssignID x.2 := rr_StreamId x.1]> (streamIDs c))
    ({[pair_key (rr_ClientProxyName x.1) (rr_StreamId x.1)]} ∪ pairs c).

Definition register_frames (sts : list RegisterStreamReq) : list (list byte) :=
  (λ st, frame (control_message MsgRegisterStream st)) <$> sts.
Definition ack_frames (racks : list RegisterStreamAck) : list byte :=
  concat ((λ r, frame (control_message MsgRegisterStreamAck r)) <$> racks).

Lemma register_streams_ok sts racks s c rest :
  w_broken (s_out s) = false → Forall sendable sts → length racks = length sts →
  Forall (λ r, sendable r ∧ ra_OK r = true) racks → s_in s = ack_frames racks ++ rest →
  register_streams s c sts =
    (mkSession rest (mkWriter (w_log (s_out s) ++ register_frames sts) false), Ok (foldl register_one c (zip sts racks))).
Proof.
  revert racks s c. induction sts as [|st sts IH]; intros [|r racks] s c Hb Hs Hlen Hr Hin; simplify_eq.
  - simpl in *. rewrite app_nil_r. destruct s as [i [lg b]]. simpl in *. by subst.
  - inversion Hs; inversion Hr as [|?? [Hsr Hok]]; subst. cbn [register_streams].
    unfold ClientRegisterStream. erewrite (exchange_reply s MsgRegisterStream st MsgRegisterStreamAck r); [|done..|].
    2: { rewrite Hin. unfold ack_frames. cbn [fmap list_fmap concat]. by rewrite <- app_assoc. }
    rewrite Hok. cbn [negb]. erewrite (IH racks); [|done..]. cbn [s_out w_log]. by rewrite <- app_assoc.
Qed.

Lemma registered_acc l : ∀ c,
  NoDup (ra_AssignID <$> l.*2) →
  let c' := foldl register_one c l in
  (∀ id n, streamIDs c' !! id = Some n ↔
     (∃ x, x ∈ l ∧ ra_AssignID x.2 = id ∧ rr_StreamId x.1 = n) ∨
     (id ∉ (ra_AssignID <$> l.*2)) ∧ streamIDs c !! id = Some n) ∧
  (∀ key, key ∈ pairs c' ↔ (∃ x, x ∈ l ∧ pair_key (rr_ClientProxyName x.1) (rr_StreamId x.1) = key) ∨ key ∈ pairs c) ∧
  c_heap c' = c_heap c ∧ conns c' = conns c ∧ connsWin c' = connsWin c ∧ connsQ c' = connsQ c ∧
  c_closed c' = c_closed c ∧ c_loop c' = c_loop c ∧ dialSeq c' = dialSeq c ∧ dialConns c' = dialConns c ∧
  dialAcks c' = dialAcks c ∧ c_link c' = c_link c.
Proof.
  induction l as [|[st r] l IH]; intros c Hnd; cbn [foldl].
  { cbn zeta. split_and!; try done; intros; set_solver. }
  cbn [fmap list_fmap snd] in Hnd. apply NoDup_cons in Hnd as [Hni Hnd].
  destruct (IH (register_one c (st, r)) Hnd) as (H1 & H2 & H3). cbn zeta. split; [|split; [|exact H3]].
  - intros id n. rewrite H1. cbn [fmap list_fmap snd]. simpl (streamIDs _). rewrite lookup_insert_Some.
    setoid_rewrite elem_of_cons. split.
    + intros [(x & Hx & ? & ?)|(Hn & [[<- <-]|[Hne Hs]])]; [left; eauto|left; eexists; split; [by left|done]|right].
      split; [|done]. set_solver.
    + intros [(x & [->|Hx] & <- & <-)|[Hn Hs]].
      * right. split; [done|]. by left.
      * left. eauto.
      * right. split; [set_solver|]. right. split; [|done]. set_solver.
  - intros key. rewrite H2. simpl. setoid_rewrite elem_of_cons. split.
    + intros [(x & Hx & ?)|[->%elem_of_singleton|?]%elem_of_union]; [left; eauto|left; eexists; split; [by left|done]|by right].
    + intros [(x & [->|Hx] & <-)|?]; [right; set_solver|left; eauto|right; set_solver].
Qed.
End registration.

(** * The numbers of dialed connections *)

(** Every dialed connection has a number of the upper half, at most the last
    one handed out. *)
Definition dinv (c : CtrlClient) : Prop :=
  0 ≤ dialSeq c < 2 ^ 31 ∧
  ∀ id, is_Some (dialConns c !! id) ∨ is_Some (dialAcks c !! id) → 2 ^ 31 < id ≤ 2 ^ 31 + dialSeq c.

Definition dials_le (c c' : CtrlClient) : Prop :=
  dialSeq c' = dialSeq c ∧ dialConns c' ⊆ dialConns c ∧ dialAcks c' ⊆ dialAcks c.

#[export] Instance dials_le_refl : Reflexive dials_le.
Proof. by intros c. Qed.
#[export] Instance dials_le_trans : Transitive dials_le.
Proof. intros a b c (?&?&?) (?&?&?). split_and!; [congruence|by etrans..]. Qed.

Lemma dials_le_dinv c c' : dials_le c c' → dinv c → dinv c'.
Proof.
  intros (Hs & Hc & Ha) [Hr Hd]. split; [by rewrite Hs|]. rewrite Hs. intros id H. apply Hd.
  destruct H as [[x Hx]|[x Hx]]; [left|right]; exists x; by eapply lookup_weaken.
Qed.

Lemma dials_send c m : dials_le c (send c m).1.
Proof. by destruct (send_spec c m) as [-> | ->]. Qed.

Lemma dials_closeConn c id notify : dials_le c (closeConn c id notify).
Proof.
  unfold closeConn. destruct (conns c !! id); [|done].
  assert (∀ f o d, dials_le d (upd_opt f o d)) as Ho by by intros f [].
  set (c1 := with_conns _ _ _ _). set (c2 := upd _ _ _).
  assert (dials_le c1 c2) as H by (etrans; [|done]; etrans; apply Ho).
  etrans; [|etrans; [exact H|]]; [done|]. destruct notify; [apply dials_send|done].
Qed.

Lemma dials_run_end c : dials_le c (run_end c).
Proof. split_and!; try done. apply map_empty_subseteq. Qed.

Lemma dials_delete c id acks : acks ⊆ dialAcks c → dials_le c (with_dials c (delete id (dialConns c)) acks (dialSeq c)).
Proof. intros H. split_and!; [done|simpl; apply delete_subseteq|done]. Qed.

Section dials.
Context {CJ : ControlJson}.
Variable quote : string → string.

Lemma dial_deliver_dials pick c l it c' : dial_deliver pick c l it = Some c' → dials_le c c'.
Proof.
  unfold dial_deliver. destruct (c_dheap c !! l); [|by intros [= <-]]. destruct (deliver _ _ _); [|done]. by intros [= <-].
Qed.

Lemma handleConnOpen_dials c m dialed : dials_le c (handleConnOpen quote c m dialed).
Proof.
  unfold handleConnOpen. destruct (DecodeControl (A := ConnOpenReq) m) as [req|e]; [|done].
  set (reply := match streamIDs c !! _ with Some _ => _ | None => _ end). destruct reply as [ok reason].
  destruct (send_spec c (control_message MsgConnOpenAck (mkConnOpenAck (cr_ConnID req) ok reason))) as [-> | ->]; by destruct ok.
Qed.

Lemma run_msg_dials pick c m dialed c' : run_msg quote pick c m dialed = Some c' → dials_le c c'.
Proof.
  unfold run_msg. case_bool_decide; [intros [= <-]; apply handleConnOpen_dials|]. case_bool_decide.
  { destruct (dialConns c !! _); [apply dial_deliver_dials|]. destruct (connsQ c !! _); by intros [= <-]. }
  case_bool_decide.
  { destruct (dialConns c !! _) as [ld|].
    - destruct (dial_deliver pick c ld _) as [c1|] eqn:E; [|done]. intros [= <-]. apply dial_deliver_dials in E.
      etrans; [exact E|]. by apply dials_delete.
    - intros [= <-]. destruct (IsHalfClose m); [|apply dials_closeConn]. unfold halfCloseConn. by destruct (connsQ c !! _). }
  case_bool_decide.
  { pose proof (dials_send c (mkMessage MsgPong x00 (StreamID m) (Payload m))) as Hs.
    destruct (send c _) as [c1 []]; simpl in Hs; intros [= <-]; [done|]. etrans; [exact Hs|apply dials_run_end]. }
  case_bool_decide.
  { destruct (DecodeControl (A := WindowUpdate) m) as [wu|]; intros [= <-]; [|done]. by destruct (connsWin c !! _). }
  case_bool_decide; [|by intros [= <-]].
  destruct (DecodeControl (A := ClientConnAck) m) as [ack|]; intros [= <-]; [|done].
  destruct (dialAcks c !! _); split_and!; try done; simpl; apply delete_subseteq.
Qed.

Lemma capply_dials c ev c' :
  match ev with CDial _ _ => False | _ => True end → capply quote c ev = Some c' → dials_le c c'.
Proof.
  intros Hn Ha.
  assert (∀ l k p c1, dials_le c1 (uplink_send c1 l k p)) as Hup.
  { intros l k p c1. unfold uplink_send, SendData. pose proof (dials_send c1 (mkMessage MsgData x00 (lc_id k) p)) as Hs.
    destruct (send c1 _) as [c2 []]; simpl in Hs; [done|]. etrans; [exact Hs|]. apply dials_closeConn. }
  destruct ev; simpl in Ha.
  - destruct (c_loop c); try done. by eapply run_msg_dials.
  - destruct (c_loop c) as [|l it| |]; try done. destruct (c_heap c !! l); [|done].
    destruct (lc_qclosed _); [by injection Ha as <-|]. case_bool_decide; by simplify_eq.
  - destruct (c_loop c); try done. injection Ha as <-. apply dials_run_end.
  - by injection Ha as <-.
  - apply bind_Some in Ha as (k & _ & Ha). unfold pump in Ha. destruct (lc_pump k); [|done]. simpl in Ha.
    destruct (lc_q k) as [|[p|] q]; [destruct (lc_qclosed k); [|done]|destruct (ok && _)|]; injection Ha as <-; try done.
    + etrans; [|apply dials_send]. done.
    + etrans; [|done]. etrans; [|apply dials_closeConn]. done.
  - apply bind_Some in Ha as (k & _ & Ha). destruct (lc_up k); by simplify_eq.
  - apply bind_Some in Ha as (k & _ & Ha). destruct (lc_up k) as [|win|]; try done. destruct (_ || _); [done|].
    unfold uplink_data in Ha. destruct (win ≫= _) as [[lw w]|]; [|injection Ha as <-; apply Hup].
    destruct (closed w); [by injection Ha as <-|].
    destruct (acquire_now _ _ _); [|destruct (c_closed c); by simplify_eq]. injection Ha as <-. etrans; [|apply Hup]. done.
  - apply bind_Some in Ha as (k & _ & Ha). destruct (lc_up k); try done. destruct (local_closed k); simplify_eq.
    etrans; [apply dials_send|done].
  - apply bind_Some in Ha as (k & _ & Ha). destruct (lc_up k); simplify_eq. etrans; [apply dials_closeConn|done].
  - done.
  - assert (∀ c1, dials_le c1 (cleanup c1 connID)) as Hcl by (intros; apply dials_delete, delete_subseteq).
    destruct timeout; [injection Ha as <-; apply Hcl|]. destruct (c_chans c !! _) as [[a|]|]; try done. injection Ha as <-.
    unfold DialIntranet_end. destruct (cca_OK a); [done|]. etrans; [|apply Hcl]. done.
Qed.

Lemma high_number n : 0 ≤ n < 2 ^ 31 → Z.lor 2147483648 n = 2 ^ 31 + n.
Proof.
  intros Hn. change 2147483648 with (2 ^ 31). rewrite <- Z.add_lor_land.
  enough (Z.land (2 ^ 31) n = 0) as -> by lia.
  apply Z.bits_inj'. intros i Hi. rewrite Z.land_spec, Z.bits_0, Z.pow2_bits_eqb by lia.
  destruct (Z.eqb_spec 31 i) as [<-|]; [|done].
  destruct (Z.eq_dec n 0) as [->|]; [done|]. rewrite Z.bits_above_log2; [done|lia|].
  apply Z.log2_lt_pow2; lia.
Qed.

Lemma DialIntranet_begin_spec c name streamId c' r :
  dinv c → DialIntranet_begin c name streamId = (c', r) →
  dinv c' ∧ dialSeq c ≤ dialSeq c' ∧
  (∀ id l, r = Ok (id, l) →
     id = 2 ^ 31 + dialSeq c + 1 ∧ dialSeq c' = dialSeq c + 1 ∧ dialConns c !! id = None ∧
     dialConns c' = <[id := l]> (dialConns c) ∧ pair_key name streamId ∈ pairs c).
Proof.
  intros [Hs Hd]. unfold DialIntranet_begin. case_bool_decide as Hp; simpl; [|by intros [= <- <-]].
  destruct (Z.leb_spec 2147483647 (dialSeq c)) as [|Hlt]; [by intros [= <- <-]|].
  rewrite (u32_small (dialSeq c + 1)) by lia. rewrite high_number by lia.
  set (id := 2 ^ 31 + (dialSeq c + 1)). set (c1 := with_dials _ _ _ _).
  assert (dinv c1) as H1.
  { split; [simpl; lia|]. intros id'. simpl. rewrite !lookup_insert_is_Some. intros Hin.
    destruct (decide (id' = id)) as [->|Hne]; [unfold id; lia|].
    enough (2 ^ 31 < id' ≤ 2 ^ 31 + dialSeq c) by lia. apply Hd. naive_solver. }
  assert (dialConns c !! id = None) as Hid.
  { destruct (dialConns c !! id) eqn:E; [|done]. assert (2 ^ 31 < id ≤ 2 ^ 31 + dialSeq c) by (apply Hd; left; by eexists).
    unfold id in *. lia. }
  destruct (send_spec c1 (control_message MsgClientConnReq (mkClientConnReq id name streamId))) as [-> | ->]; intros [= <- <-].
  - split_and!; [|simpl; lia|done]. eapply dials_le_dinv; [|exact H1]. apply dials_delete, delete_subseteq.
  - split_and!; [by eapply dials_le_dinv; [|exact H1]|simpl; lia|]. intros ?? [= <- <-]. split_and!; try done. unfold id. lia.
Qed.

Lemma reach_dinv c c' : dinv c → rtc (cstep quote) c c' → dinv c' ∧ dialSeq c ≤ dialSeq c'.
Proof.
  intros Hi Hr. induction Hr as [c|c c1 c' Hst _ IH]; [split; [done|lia]|]. destruct Hst as [c ev c1 Hf Ha].
  assert (dinv c1 ∧ dialSeq c ≤ dialSeq c1) as [H1 H2]; [|destruct (IH H1); split; [done|lia]].
  destruct ev; try (apply capply_dials in Ha; [|done]; split; [by eapply dials_le_dinv|destruct Ha as [-> _]; lia]).
  simpl in Ha. injection Ha as <-. destruct (DialIntranet_begin c clientProxyName streamId) as [c1 r] eqn:E.
  by destruct (DialIntranet_begin_spec _ _ _ _ _ Hi E) as (? & ? & _).
Qed.
End dials.

Lemma register_streams_inv {CJ : ControlJson} sts s c s' c' :
  register_streams s c sts = (s', Ok c') → cinv c → dinv c → cinv c' ∧ dinv c'.
Proof.
  revert s c. induction sts as [|st sts IH]; intros s c; cbn [register_streams]; [by intros [= <- <-]|].
  destruct (ClientRegisterStream s st) as [s1 [rack|e]]; [|done]. destruct (negb _); [done|].
  intros H Hi Hd. eapply IH; [exact H|by destruct Hi|by destruct Hd].
Qed.

Lemma empty_client_inv d : cinv (empty_client d) ∧ dinv (empty_client d).
Proof.
  split; [split; try done|split; [simpl; lia|]]. intros id [[x Hx]|[x Hx]]; by simpl in Hx.
Qed.

(** A client as [DialCtrl] returns it. *)
Definition dialed_client {CJ : ControlJson} (c : CtrlClient) : Prop :=
  ∃ s d req sts s', DialCtrl s d req sts = (s', Ok c).

Lemma dialed_client_inv {CJ : ControlJson} c : dialed_client c → cinv c ∧ dinv c.
Proof.
  intros (s & d & req & sts & s' & H). unfold DialCtrl in H. destruct (ClientHandshake s req) as [s1 [ack|e]]; [|done].
  destruct (negb _); [done|]. destruct (empty_client_inv d). by eapply register_streams_inv.
Qed.

(** * Properties *)

(** Dialing registers exactly what the server accepted. When the server
    accepts the handshake and every registration (with distinct stream numbers),
    the client sends the handshake and then one registration per stream, in the
    configured order, consumes exactly the replies, and ends up knowing under
    each number the stream it was assigned to, and the registered pairs, and
    nothing else; a refused handshake ends the dial before any registration. *)
Theorem DialCtrl_registers `{CJ : ControlJson, !JsonLaws HandshakeReq, !JsonLaws HandshakeAck, !JsonLaws RegisterStreamReq,
    !JsonLaws RegisterStreamAck} s d req ack sts racks rest :
  w_broken (s_out s) = false → sendable (versioned req) → sendable ack → Forall sendable sts →
  length racks = length sts → Forall (λ r, sendable r ∧ ra_OK r = true) racks → NoDup (ra_AssignID <$> racks) →
  s_in s = frame (control_message MsgHandshakeAck ack) ++ ack_frames racks ++ rest →
  let hello := frame (control_message MsgHandshake (versioned req)) in
  if ha_OK ack then
    ∃ c, DialCtrl s d req sts =
        (mkSession rest (mkWriter (w_log (s_out s) ++ hello :: register_frames sts) false), Ok c) ∧
      (∀ id name, streamIDs c !! id = Some name ↔
         ∃ x, x ∈ zip sts racks ∧ ra_AssignID x.2 = id ∧ rr_StreamId x.1 = name) ∧
      (∀ key, key ∈ pairs c ↔ ∃ x, x ∈ zip sts racks ∧ pair_key (rr_ClientProxyName x.1) (rr_StreamId x.1) = key) ∧
      conns c = ∅ ∧ dialConns c = ∅
  else
    DialCtrl s d req sts =
      (mkSession (ack_frames racks ++ rest) (mkWriter (w_log (s_out s) ++ [hello]) false),
       Err (CtrlHandshakeRejected (ha_Message ack))).
Proof.
  intros Hb Hreq Hack Hsts Hlen Hr Hnd Hin hello. unfold DialCtrl, ClientHandshake.
  rewrite (exchange_reply s _ _ _ ack _ Hb Hreq Hack Hin). destruct (ha_OK ack); [|done]. cbn [negb].
  erewrite (register_streams_ok sts racks); [|done..]. cbn [s_out w_log].
  destruct (registered_acc (zip sts racks) (empty_client d)) as (H1 & H2 & _ & Hc & _ & _ & _ & _ & _ & Hdc & _).
  { by rewrite snd_zip by lia. }
  eexists. rewrite <- app_assoc. split_and!; [done| | |done|done].
  - intros id name. rewrite H1. simpl. rewrite lookup_empty. naive_solver.
  - intros key. rewrite H2. simpl. set_solver.
Qed.


(** C20: What reaches a local connection is what the server sent for it, in
    order. In any history of the client, for a connection just opened, the data
    written and the half closes made on the local connection, then what a failed
    write lost, then the queue, then the item the read loop is about to queue,
    are together the data frames and half closes received for it; nothing is
    lost while the pump runs. *)
Theorem local_order {CJ : ControlJson} quote c evs c' l k :
  crun quote c evs = Some c' → c_loop c' ≠ LoopPanic →
  c_heap c !! l = Some k → lc_io k = [] → lc_q k = [] → pending l c = [] →
  ∃ k' lost, c_heap c' !! l = Some k' ∧
    io_items k' ++ lost ++ lc_q k' ++ pending l c' = received quote l c evs ∧
    (lc_pump k' = true → lost = []).
Proof.
  intros Hr Hp Hk Hio Hq Hpe. destruct (crun_flow _ _ _ _ _ _ Hr Hp Hk) as (k' & Hk' & lost & H1 & H2 & _).
  exists k', lost. split; [done|]. split; [|intros H; by destruct (H2 H)].
  rewrite H1, Hq, Hpe. unfold io_items. by rewrite Hio.
Qed.

(** The numbers of dialed connections are never used twice. However the
    client got where it is, a dial that goes through gets the successor of the
    last number in the upper half of the numbers, which no dialed connection
    has, and only for a pair the client registered; the counter never goes back. *)
Theorem dial_numbers_fresh {CJ : ControlJson} quote c0 c name streamId c' id l :
  dialed_client c0 → rtc (cstep quote) c0 c → DialIntranet_begin c name streamId = (c', Ok (id, l)) →
  id = 2 ^ 31 + dialSeq c + 1 ∧ 2 ^ 31 < id < 2 ^ 32 ∧ dialConns c !! id = None ∧ dialConns c' !! id = Some l ∧
  pair_key name streamId ∈ pairs c ∧
  (∀ c2, rtc (cstep quote) c' c2 → dialSeq c < dialSeq c2).
Proof.
  intros Hd Hr Hb. apply dialed_client_inv in Hd as [_ Hi]. destruct (reach_dinv _ _ _ Hi Hr) as [Hc _].
  destruct (DialIntranet_begin_spec quote _ _ _ _ _ Hc Hb) as (Hc' & _ & H). destruct (H _ _ eq_refl) as (-> & Hs & Hn & -> & Hp).
  destruct Hc as [Hb1 _]. destruct Hc' as [Hb2 Hd2]. split_and!; try done; try lia.
  - by rewrite lookup_insert_eq.
  - intros c2 Hr2. destruct (reach_dinv quote c' c2 (conj Hb2 Hd2) Hr2). lia.
Qed.

(** A failed local write can kill the process. When the read loop is about
    to queue an item and the pump of that connection fails to write, the pump
    closes the connection and its queue, and the read loop then sends on a closed
    channel, which panics. *)
Theorem write_failure_panics {CJ : ControlJson} quote c l it k p q :
  c_loop c = LoopSend l it → c_heap c !! l = Some k → lc_pump k = true → lc_q k = Some p :: q →
  conns c !! lc_id k = Some l → connsQ c !! lc_id k = Some l →
  ∃ c', crun quote c [CPump l false; CEnqueue] = Some c' ∧ c_loop c' = LoopPanic.
Proof.
  intros Hl Hk Hp Hq Hc Hcq. cbn [crun capply]. rewrite Hk. cbn [mbind option_bind]. unfold pump. rewrite Hp, Hq. cbn [negb andb].
  cbn [mbind option_bind]. set (c1 := upd end_pump l _).
  assert (c_loop c1 = LoopSend l it) as Hl1 by (unfold c1; simpl; by rewrite closeConn_loop).
  assert (∃ k1, c_heap c1 !! l = Some k1 ∧ lc_qclosed k1 = true) as (k1 & Hk1 & Hcl).
  { unfold c1, closeConn. simpl. rewrite Hc, Hcq. unfold CloseStream.
    match goal with |- context [send ?c2 ?m] => destruct (send_spec c2 m) as [-> | ->] end; simpl;
      destruct (connsWin c !! lc_id k) as [lw|]; simpl; rewrite !alter_alter.
    all: try (rewrite list_lookup_alter_eq, Hk; by eexists).
    all: destruct (decide (lw = l)) as [->|Hne];
      [rewrite !alter_alter, list_lookup_alter_eq, Hk; by eexists|].
    all: rewrite list_lookup_alter_eq, list_lookup_alter_ne, list_lookup_alter_eq, Hk by done; by eexists. }
  rewrite Hl1, Hk1, Hcl. by eexists.
Qed.

(** The window updates of the hub: [ReleaseRecv] sends no others. *)
Definition from_hub (ev : cevent) : Prop :=
  match ev with
  | CRecv _ m _ => Type_ m = MsgWindowUpdate → ∃ connID, m = window_update_frame connID
  | _ => True
  end.

Lemma from_hub_no_credit ev : from_hub ev → no_credit ev.
Proof. destruct ev; try done. intros H Ht. by destruct (H Ht) as [id ->]. Qed.

(** An uplink that has used its window up never sends another byte. The
    window updates the server sends ([ReleaseRecv]) carry no payload and are
    dropped as malformed, so whatever else happens the credit never comes back:
    what the local connection still sends stays unread until the connection is
    closed. *)
Theorem uplink_starved {CJ : ControlJson} quote c evs c' l k :
  Forall from_hub evs → crun quote c evs = Some c' → c_heap c !! l = Some k → used_up l k →
  ∀ p c'', capply quote c' (CUpRead l p) = Some c'' → c_out c'' = c_out c'.
Proof.
  intros Hn Hr Hk Hu p c''. destruct (crun_used_up quote evs c c' l) as (k' & Hk' & Ho & Hw & Hup);
    [eapply Forall_impl; [exact Hn|apply from_hub_no_credit]|done|by exists k|].
  cbn [capply]. rewrite Hk'. simpl. destruct Hup as [-> | ->]; [|done].
  destruct (_ || _) eqn:Eg; [done|]. unfold uplink_data.
  cbn [mbind option_bind]. rewrite Hk'. cbn [fmap option_fmap option_map].
  destruct (closed (lc_win k')); [by intros [= <-]|].
  rewrite full_acquire; [|done..|].
  - destruct (c_closed c'); by intros [= <-].
  - apply orb_false_iff in Eg as [[_ Hp]%orb_false_iff Hc]. apply bool_decide_eq_false in Hp. apply Z.ltb_ge in Hc.
    unfold uplinkChunk in Hc. destruct p; [done|]. simpl length in *. lia.
Qed.

(** The end of the read loop leaks the write pumps. [closeAllConns] closes
    the connections and their windows but not their queues, and the connections
    are no longer registered, so no later [closeConn] closes a queue either: a
    pump that was waiting for work waits for ever. *)
Theorem closeAllConns_leaks_pumps {CJ : ControlJson} quote c0 c c1 l k :
  dialed_client c0 → rtc (cstep quote) c0 c → capply quote c CRecvErr = Some c1 →
  conns c !! lc_id k = Some l → c_heap c !! l = Some k → lc_pump k = true → lc_q k = [] →
  ∀ evs c', crun quote c1 evs = Some c' →
    (∃ k', c_heap c' !! l = Some k' ∧ lc_pump k' = true ∧ lc_qclosed k' = false) ∧
    ∀ ok, capply quote c' (CPump l ok) = None.
Proof.
  intros Hd Hr Ha Hc Hk Hp Hq evs c' Hrun. apply dialed_client_inv in Hd as [Hi _]. pose proof (reach_cinv _ _ _ Hi Hr) as Hic.
  assert (leaked l c1) as Hl1.
  { simpl in Ha. destruct (c_loop c); try done. injection Ha as <-. split_and!; try done.
    destruct (ci_loc _ Hic _ _ Hc) as (k' & Hk' & _ & _ & Hcl & _). assert (k' = k) as -> by congruence.
    pose proof (run_end_heap _ l Hic) as Hh. rewrite Hk in Hh. eexists. split; [exact Hh|].
    case_bool_decide; by split_and!. }
  destruct (crun_leaked _ _ _ _ _ Hrun Hl1) as (_ & _ & k' & Hk' & Hq' & Hcl' & Hp'). split; [by exists k'|].
  intros ok. simpl. rewrite Hk'. simpl. unfold pump. by rewrite Hp', Hq', Hcl'.
Qed.

Definition demo_client : CtrlClient :=
  with_streams (empty_client true) {["ssh"%string := 1]} {[1 := "ssh"%string]} {[pair_key "cp" "ssh"]}.
Definition demo_open : cevent := CRecv false (control_message MsgConnOpen (mkConnOpenReq 1 7)) (Ok tt).
Definition demo_data (p : list byte) : cevent := CRecv false (mkMessage MsgData x00 7 p) (Ok tt).

(** A history of the demonstration client. *)
Definition demo_run (evs : list cevent) : CtrlClient := default demo_client (crun id demo_client evs).

(** Small frames stall the whole session. The queue of a connection holds 32
    frames whatever their size; when its local service stops reading, 33 frames
    of one byte, far less than the window, block the read loop, and with it
    every other connection of the session, pings included. *)
Theorem small_frames_stall_session :
  let c := demo_run (demo_open :: concat (replicate 32 [demo_data [x61]; CEnqueue]) ++ [demo_data [x61]]) in
  length (lc_q <$> c_heap c) = 1%nat ∧
  ∀ pick m dialed, capply id c (CRecv pick m dialed) = None ∧ capply id c CEnqueue = None ∧ capply id c CRecvErr = None.
Proof.
  intros c. assert (∃ k, c_loop c = LoopSend 0 (Some [x61]) ∧ c_heap c = [k] ∧ lc_qclosed k = false ∧ length (lc_q k) = 32%nat)
    as (k & Hl & Hh & Hc & Hq) by (eexists; vm_compute; by split_and!).
  rewrite Hh. split; [done|]. intros pick m dialed. simpl. rewrite Hl, Hh. simpl. rewrite Hc, Hq. by split_and!.
Qed.

(** An empty data frame is taken for a half close. [ReadMessage] leaves the
    payload of an empty frame nil, and nil in the queue means [CloseWrite]: the
    local connection is closed for writing although the server goes on sending. *)
Theorem empty_frame_half_closes :
  lc_io <$> c_heap (demo_run [demo_open; demo_data []; CEnqueue; demo_data [x61]; CEnqueue; CPump 0 true; CPump 0 true])
  = [[LCloseWrite; LWrite [x61]]].
Proof. vm_compute. done. Qed.

(** * Witnesses *)

(** The replies of a server that accepts the handshake and one stream. *)
Definition demo_reg : RegisterStreamReq := mkRegisterStreamReq "cp" "ssh".
Definition demo_reg_ack : RegisterStreamAck := mkRegisterStreamAck true "ssh" 1 "".
Definition demo_dial_session : Session :=
  NewSession (frame (control_message MsgHandshakeAck (mkHandshakeAck true "")) ++ ack_frames [demo_reg_ack]).

Definition demo_dialed : CtrlClient :=
  match DialCtrl demo_dial_session true demo_request [demo_reg] with (_, Ok c) => c | _ => empty_client true end.

Lemma demo_dialed_client : dialed_client demo_dialed.
Proof.
  exists demo_dial_session, true, demo_request, [demo_reg], (DialCtrl demo_dial_session true demo_request [demo_reg]).1.
  vm_compute. done.
Qed.

(** A history step by step, with fresh connection numbers. *)
Lemma demo_open_step : rtc (cstep id) demo_dialed (default demo_dialed (crun id demo_dialed [demo_open])).
Proof.
  eapply rtc_l; [|apply rtc_refl]. apply (cstep_intro _ _ demo_open).
  - intros _ req _. apply not_elem_of_nil.
  - vm_compute. done.
Qed.

Definition demo_opened : CtrlClient := default demo_dialed (crun id demo_dialed [demo_open]).
Definition demo_conn : lconn := mkLconn 7 [] false [] (NewWindow DefaultStreamWindow) true UpStart.

Lemma DialCtrl_registers_witness :
  ∃ c, (DialCtrl demo_dial_session true demo_request [demo_reg]).2 = Ok c ∧ streamIDs c !! 1 = Some "ssh"%string.
Proof.
  destruct (DialCtrl_registers demo_dial_session true demo_request (mkHandshakeAck true "") [demo_reg] [demo_reg_ack] [])
    as (c & Hc & Hs & _).
  - reflexivity.
  - apply text_sendable. vm_compute. congruence.
  - apply text_sendable. vm_compute. congruence.
  - constructor; [apply text_sendable; vm_compute; congruence|constructor].
  - reflexivity.
  - constructor; [split; [apply text_sendable; vm_compute; congruence|reflexivity]|constructor].
  - apply NoDup_singleton.
  - cbn [s_in demo_dial_session NewSession]. rewrite app_nil_r. reflexivity.
  - exists c. split; [exact (f_equal snd Hc)|]. apply Hs. exists (demo_reg, demo_reg_ack). split_and!; [by left|done..].
Defined.


Lemma local_order_witness :
  let evs := [demo_data [x61]; CEnqueue; CPump 0 true; demo_data [x62]] in
  received id 0 demo_opened evs = [Some [x61]; Some [x62]] ∧
  ∃ k' lost, io_items k' ++ lost ++ lc_q k' ++ [Some [x62]] = [Some [x61]; Some [x62]] ∧ (lc_pump k' = true → lost = []).
Proof.
  intros evs. assert (received id 0 demo_opened evs = [Some [x61]; Some [x62]]) as Hr by (vm_compute; reflexivity).
  split; [exact Hr|].
  destruct (local_order id demo_opened evs (default demo_opened (crun id demo_opened evs)) 0 demo_conn) as (k' & lost & _ & H & Hl).
  - vm_compute. reflexivity.
  - vm_compute. discriminate.
  - vm_compute. reflexivity.
  - reflexivity.
  - reflexivity.
  - vm_compute. reflexivity.
  - exists k', lost. rewrite Hr in H. split; [exact H|exact Hl].
Defined.

Lemma dial_numbers_fresh_witness :
  ∃ c', DialIntranet_begin demo_opened "cp" "ssh" = (c', Ok (2147483649, 0%nat)) ∧ dialConns c' !! 2147483649 = Some 0%nat.
Proof.
  exists (DialIntranet_begin demo_opened "cp" "ssh").1.
  assert (DialIntranet_begin demo_opened "cp" "ssh" = ((DialIntranet_begin demo_opened "cp" "ssh").1, Ok (2147483649, 0%nat))) as Hb
    by (vm_compute; reflexivity).
  split; [exact Hb|].
  exact (proj1 (proj2 (proj2 (proj2 (dial_numbers_fresh id demo_dialed demo_opened "cp" "ssh" _ _ _ demo_dialed_client demo_open_step Hb))))).
Defined.

Lemma write_failure_panics_witness :
  let c := demo_run [demo_open; demo_data [x61]; CEnqueue; demo_data [x62]] in
  ∃ c', crun id c [CPump 0 false; CEnqueue] = Some c' ∧ c_loop c' = LoopPanic.
Proof.
  intros c.
  apply (write_failure_panics id c 0 (Some [x62]) (set_q [Some [x61]] demo_conn) [x61] []); vm_compute; reflexivity.
Defined.

Lemma uplink_starved_witness :
  let k := mkLconn 7 [] false [] (mkWindow DefaultStreamWindow DefaultStreamWindow false []) true (UpRun (Some 0%nat)) in
  let c := with_heap demo_opened [k] in
  let evs := [CRecv false (window_update_frame 7) (Ok tt)] in
  crun id c evs = Some c ∧ ∀ p c'', capply id c (CUpRead 0 p) = Some c'' → c_out c'' = c_out c.
Proof.
  intros k c evs. assert (crun id c evs = Some c) as Hr by (vm_compute; reflexivity). split; [exact Hr|].
  apply (uplink_starved id c evs c 0 k); [|exact Hr|reflexivity|].
  - constructor; [|constructor]. intros _. exists 7. reflexivity.
  - split_and!; [reflexivity|reflexivity|reflexivity|]. left. reflexivity.
Defined.

Lemma closeAllConns_leaks_pumps_witness :
  ∃ c1, capply id demo_opened CRecvErr = Some c1 ∧ ∀ ok, capply id c1 (CPump 0 ok) = None.
Proof.
  exists (run_end demo_opened). assert (capply id demo_opened CRecvErr = Some (run_end demo_opened)) as Ha by (vm_compute; reflexivity).
  split; [exact Ha|].
  refine (proj2 (closeAllConns_leaks_pumps id demo_dialed demo_opened (run_end demo_opened) 0 demo_conn
    demo_dialed_client demo_open_step Ha _ _ eq_refl eq_refl [] (run_end demo_opened) eq_refl)); vm_compute; reflexivity.
Defined.
