(* ===== verification/Sniff.v ===== *)
(** Sharing one port between protocols (internal/ingress/sniff/sniff.go): the
    bytes a [Dispatcher] looks at, the target it chooses, and the connection it
    hands over, which replays them. *)
From S2P Require Import Prelude.
From Stdlib Require Import ZArith Lia.

(** * Configuration *)

Record PrefixRule := mkPrefixRule { Prefix : string; Target : string }.

Record Config := mkConfig {
  HTTPMethods : list string;
  HostRoutes : gmap string string;
  HTTPDefault : string;
  Prefixes : list PrefixRule;
  Default : string;
}.

Definition default_methods : list string :=
  ["GET"; "POST"; "PUT"; "DELETE"; "HEAD"; "OPTIONS"; "CONNECT"; "TRACE"; "PATCH"]%string.

(** * Text *)

Definition bytes_of (s : string) : list byte := String.list_byte_of_string s.
Definition text_of (l : list byte) : string := String.string_of_list_byte l.

(** [ToLower] and [TrimSpace] on ASCII text. *)
Definition lower (b : byte) : byte :=
  let z := b2z b in if (65 <=? z) && (z <=? 90) then z2b (z + 32) else b.
Definition to_lower (l : list byte) : list byte := lower <$> l.

Definition is_space (b : byte) : bool := let z := b2z b in (z =? 32) || ((9 <=? z) && (z <=? 13)).

Fixpoint trim_left (l : list byte) : list byte :=
  match l with b :: l' => if is_space b then trim_left l' else l | [] => [] end.
Definition trim (l : list byte) : list byte := reverse (trim_left (reverse (trim_left l))).

Fixpoint is_prefix (p l : list byte) : bool :=
  match p, l with
  | [], _ => true
  | a :: p, b :: l => bool_decide (a = b) && is_prefix p l
  | _ :: _, [] => false
  end.

(** The position of the first and of the last occurrence of a byte. *)
Fixpoint index_of (b : byte) (l : list byte) : option nat :=
  match l with [] => None | x :: l => if bool_decide (x = b) then Some 0%nat else S <$> index_of b l end.
Definition last_index (b : byte) (l : list byte) : option nat :=
  (λ i, length l - 1 - i)%nat <$> index_of b (reverse l).

(** [net.SplitHostPort]: the host, if the text has the form [host:port]. *)
Definition split_host_port (l : list byte) : option (list byte) :=
  match last_index x3a l with
  | None => None
  | Some i =>
      '(host, j, k) ←
        (if is_prefix [x5b] l then
           e ← index_of x5d l;
           if bool_decide (S e = i) then Some (take (e - 1) (drop 1 l), 1%nat, S e) else None
         else if bool_decide (index_of x3a (take i l) = None) then Some (take i l, 0%nat, 0%nat) else None);
      if bool_decide (index_of x5b (drop j l) = None) && bool_decide (index_of x5d (drop k l) = None)
      then Some host else None
  end.

(** One hexadecimal digit, as [ParseUint] reads it in base 16. *)
Definition hex_digit (b : byte) : option Z :=
  let z := b2z b in
  if (48 <=? z) && (z <=? 57) then Some (z - 48)
  else if (97 <=? z) && (z <=? 102) then Some (z - 87)
  else if (65 <=? z) && (z <=? 70) then Some (z - 55)
  else None.

(** The loop of [hexBytes], two digits at a time: a last odd digit is ignored. *)
Fixpoint hex_pairs (l : list byte) : option (list byte) :=
  match l with
  | a :: b :: l => x ← hex_digit a; y ← hex_digit b; out ← hex_pairs l; Some (z2b (16 * x + y) :: out)
  | _ => Some []
  end.

Definition hexBytes (s : string) : option (list byte) :=
  hex_pairs (filter (λ b, b ≠ x20) (bytes_of s)).

(** * The recording reader *)

(** [r_in]: what successive reads of the connection deliver, none empty, until
    its end; [r_rec]: what was read through the recorder. *)
Record reader := mkReader { r_rec : list byte; r_in : list (list byte) }.

Definition rd_read (n : nat) (r : reader) : option (list byte * reader) :=
  match r_in r with
  | [] => None
  | c :: cs =>
      Some (take n c, mkReader (r_rec r ++ take n c) (match drop n c with [] => cs | d => d :: cs end))
  end.

(** [io.ReadFull]; every read gets a byte, so [n] reads are enough. *)
Fixpoint read_exactly (fuel n : nat) (r : reader) : option (list byte * reader) :=
  match n, fuel with
  | O, _ => Some ([], r)
  | _, O => None
  | _, S fuel =>
      '(got, r) ← rd_read n r;
      '(more, r) ← read_exactly fuel (n - length got) r;
      Some (got ++ more, r)
  end.

Definition ReadFull (n : nat) (r : reader) : option (list byte * reader) := read_exactly n n r.

(** A [bufio.Reader] on the recorder: its buffer of 4096 bytes. *)
Definition bufSize : nat := Z.to_nat 4096.

Fixpoint split_line (l : list byte) : option (list byte * list byte) :=
  match l with
  | [] => None
  | b :: l => if bool_decide (b = x0a) then Some ([b], l) else prod_map (cons b) id <$> split_line l
  end.

(** [ReadString('\n')]: whether the line ended, the line, the buffer and the
    reader. A turn either reads from the connection or empties a full buffer. *)
Fixpoint read_string (fuel : nat) (acc buf : list byte) (r : reader) : bool * list byte * list byte * reader :=
  match split_line buf with
  | Some (line, rest) => (true, acc ++ line, rest, r)
  | None =>
      match fuel with
      | O => (false, acc ++ buf, [], r)
      | S fuel =>
          if (bufSize <=? length buf)%nat then read_string fuel (acc ++ buf) [] r
          else
            match rd_read (bufSize - length buf) r with
            | None => (false, acc ++ buf, [], r)
            | Some (got, r) => read_string fuel acc (buf ++ got) r
            end
      end
  end.

Definition ReadString (buf : list byte) (r : reader) : bool * list byte * list byte * reader :=
  read_string (2 * length (concat (r_in r)) + 2) [] buf r.

(** * Choosing a target *)

(** The prefix rules: the connection ended, a rule matched, or none did. *)
Inductive prefix_result := PrefixEOF | PrefixHit (target : string) (r : reader) | PrefixMiss (r : reader).

Fixpoint match_prefixes (rules : list PrefixRule) (head : list byte) (r : reader) : prefix_result :=
  match rules with
  | [] => PrefixMiss r
  | p :: rules =>
      match hexBytes (Prefix p) with
      | None | Some [] => match_prefixes rules head r
      | Some prefix =>
          if (length head <? length prefix)%nat then
            match ReadFull (length prefix - length head) r with
            | None => PrefixEOF
            | Some (rest, r) =>
                if is_prefix prefix (head ++ rest) then PrefixHit (Target p) r else match_prefixes rules head r
            end
          else if is_prefix prefix head then PrefixHit (Target p) r else match_prefixes rules head r
      end
  end.

Definition is_method (methods : list string) (head : list byte) : bool :=
  existsb (λ m, (3 <=? length (bytes_of m))%nat && is_prefix (take 3 (bytes_of m)) head) methods.

(** What a header line says: the end of the headers, the host, or neither. *)
Inductive line_kind := LineEnd | LineHost (host : list byte) | LineOther.

Definition classify (line : list byte) : line_kind :=
  match trim line with
  | [] => LineEnd
  | t => if is_prefix (bytes_of "host:") (to_lower t) then LineHost (trim (drop 5 t)) else LineOther
  end.

(** The search for the Host header; every line takes a byte. *)
Fixpoint find_host (fuel : nat) (buf : list byte) (r : reader) : list byte * reader :=
  match fuel with
  | O => ([], r)
  | S fuel =>
      match ReadString buf r with
      | (false, _, _, r) => ([], r)
      | (true, line, buf, r) =>
          match classify line with
          | LineEnd => ([], r)
          | LineHost host => (host, r)
          | LineOther => find_host fuel buf r
          end
      end
  end.

Definition route_host (cfg : Config) (hostLine : list byte) : string :=
  let host := to_lower hostLine in
  let host := default host (split_host_port host) in
  default (HTTPDefault cfg) (HostRoutes cfg !! text_of host).

Definition matchHTTP (cfg : Config) (head : list byte) (r : reader) : reader * option string :=
  if negb (is_method (HTTPMethods cfg) head) then (r, None)
  else
    match ReadString [] r with
    | (false, _, _, r) => (r, Some (HTTPDefault cfg))
    | (true, _, buf, r) =>
        let '(host, r) := find_host (S (length (buf ++ concat (r_in r)))) buf r in
        (r, Some (route_host cfg host))
    end.

(** What [dispatch] does with a connection: closes it, or hands it to a target
    with the bytes to replay and what is left to read. *)
Inductive outcome := Closed | Handed (target : string) (replay : list byte) (rest : list (list byte)).

Definition hand (target : string) (r : reader) : outcome := Handed target (r_rec r) (r_in r).

Definition dispatch (cfg : Config) (input : list (list byte)) : outcome :=
  match ReadFull 3 (mkReader [] input) with
  | None => Closed
  | Some (head, r) =>
      match match_prefixes (Prefixes cfg) head r with
      | PrefixEOF => Closed
      | PrefixHit t r => hand t r
      | PrefixMiss r =>
          match matchHTTP cfg head r with
          | (r, Some t) => hand t r
          | (r, None) => hand (Default cfg) r
          end
      end
  end.

(** * The dispatcher *)

(** A connection that replays what was read before the hand-over. *)
Record replayConn := mkReplayConn { rc_replay : list byte; rc_read : nat; rc_in : list (list byte) }.

Definition newReplayConn (replay : list byte) (rest : list (list byte)) : replayConn := mkReplayConn replay 0 rest.

(** [Read] into a buffer of [n] bytes; [None] is the end of the connection. *)
Definition Read (n : nat) (c : replayConn) : option (list byte * replayConn) :=
  if (rc_read c <? length (rc_replay c))%nat then
    let got := take n (drop (rc_read c) (rc_replay c)) in
    Some (got, mkReplayConn (rc_replay c) (rc_read c + length got) (rc_in c))
  else
    '(got, r) ← rd_read n (mkReader [] (rc_in c));
    Some (got, mkReplayConn (rc_replay c) (rc_read c) (r_in r)).

(** [targets]: the queue of every registered target, at most [queueCap] long. *)
Definition queueCap : nat := 16.

Record Dispatcher := mkDispatcher { d_cfg : Config; targets : gmap string (list replayConn); d_done : bool }.

Definition config_targets (cfg : Config) : list string :=
  Default cfg :: HTTPDefault cfg :: ((map_to_list (HostRoutes cfg)).*2 ++ (Target <$> Prefixes cfg)).

Definition New (cfg : Config) : option Dispatcher :=
  if String.eqb (Default cfg) "" then None
  else
    let methods := match HTTPMethods cfg with [] => default_methods | ms => ms end in
    let cfg := mkConfig methods (HostRoutes cfg) (HTTPDefault cfg) (Prefixes cfg) (Default cfg) in
    Some (mkDispatcher cfg
      (list_to_map ((λ name, (name, [])) <$> filter (λ name, name ≠ ""%string) (config_targets cfg))) false).

(** The target [handoff] puts a connection in the queue of. *)
Definition handoff_target (d : Dispatcher) (target : string) : string :=
  match targets d !! target with Some _ => target | None => Default (d_cfg d) end.

(** [handoff]: whether the connection was queued; after ten seconds of a full
    queue it is closed. *)
Definition handoff (d : Dispatcher) (target : string) (c : replayConn) : Dispatcher * bool :=
  let t := handoff_target d target in
  match targets d !! t with
  | None => (d, false)
  | Some q =>
      if (length q <? queueCap)%nat then (mkDispatcher (d_cfg d) (<[t := q ++ [c]]> (targets d)) (d_done d), true)
      else (d, false)
  end.

(** A [facade]'s [Accept]: the next connection of its target, an error once the
    dispatcher is closed (either, when both can be had: [pick]), or it waits. *)
Inductive accept_result := Accepted (c : replayConn) | AcceptClosed | AcceptWaits.

Definition Accept (pick : bool) (d : Dispatcher) (target : string) : Dispatcher * accept_result :=
  match targets d !! target with
  | Some (c :: q) =>
      if d_done d && pick then (d, AcceptClosed)
      else (mkDispatcher (d_cfg d) (<[target := q]> (targets d)) (d_done d), Accepted c)
  | _ => (d, if d_done d then AcceptClosed else AcceptWaits)
  end.

Definition Close (d : Dispatcher) : Dispatcher := mkDispatcher (d_cfg d) (targets d) true.

(** One accepted connection, from its first byte to its target's queue. *)
Definition serve (d : Dispatcher) (input : list (list byte)) : Dispatcher * bool :=
  match dispatch (d_cfg d) input with
  | Closed => (d, false)
  | Handed t replay rest => handoff d t (newReplayConn replay rest)
  end.

(** * The choice as a function of the bytes alone *)

Inductive flat_prefix_result := FlatEOF | FlatHit (target : string) | FlatMiss (s : list byte).

Fixpoint flat_prefixes (rules : list PrefixRule) (head s : list byte) : flat_prefix_result :=
  match rules with
  | [] => FlatMiss s
  | p :: rules =>
      match hexBytes (Prefix p) with
      | None | Some [] => flat_prefixes rules head s
      | Some prefix =>
          let n := (length prefix - length head)%nat in
          if (length s <? n)%nat then FlatEOF
          else if is_prefix prefix (head ++ take n s) then FlatHit (Target p)
          else flat_prefixes rules head (drop n s)
      end
  end.

Fixpoint flat_host (fuel : nat) (s : list byte) : list byte :=
  match fuel with
  | O => []
  | S fuel =>
      match split_line s with
      | None => []
      | Some (line, s) =>
          match classify line with LineEnd => [] | LineHost host => host | LineOther => flat_host fuel s end
      end
  end.

Definition flat_http (cfg : Config) (s : list byte) : string :=
  match split_line s with
  | None => HTTPDefault cfg
  | Some (_, s) => route_host cfg (flat_host (S (length s)) s)
  end.

(** The target of a connection on which [s] arrives; [None] when it is closed. *)
Definition flat_dispatch (cfg : Config) (s : list byte) : option string :=
  if (length s <? 3)%nat then None
  else
    match flat_prefixes (Prefixes cfg) (take 3 s) (drop 3 s) with
    | FlatEOF => None
    | FlatHit t => Some t
    | FlatMiss s' =>
        Some (if is_method (HTTPMethods cfg) (take 3 s) then flat_http cfg s' else Default cfg)
    end.

(** * Lemmas on the reader *)

Definition flat (r : reader) : list byte := concat (r_in r).
Definition reader_ok (r : reader) : Prop := Forall (λ c, c ≠ []) (r_in r).

(** [got] was read between two moments of a reader. *)
Definition consumed (r r' : reader) (got : list byte) : Prop :=
  flat r = got ++ flat r' ∧ r_rec r' = r_rec r ++ got ∧ reader_ok r'.

Lemma consumed_trans r1 r2 r3 a b : consumed r1 r2 a → consumed r2 r3 b → consumed r1 r3 (a ++ b).
Proof. intros (H1 & H2 & _) (H3 & H4 & ?). split_and!; [by rewrite H1, H3, app_assoc|by rewrite H4, H2, app_assoc|done]. Qed.

Lemma consumed_refl r : reader_ok r → consumed r r [].
Proof. intros. by split_and!; [|rewrite app_nil_r|]. Qed.

Lemma rd_read_spec n r :
  reader_ok r → n ≠ 0%nat →
  (rd_read n r = None ∧ flat r = []) ∨
  ∃ got r', rd_read n r = Some (got, r') ∧ consumed r r' got ∧ got ≠ [] ∧ (length got ≤ n)%nat.
Proof.
  destruct r as [rec [|c cs]]; unfold rd_read, flat; simpl; [by left|]. intros Hok Hn. right. inversion Hok as [|?? Hc Hcs]; subst.
  eexists _, _. split; [done|]. assert (c = take n c ++ drop n c) as Hs by by rewrite take_drop.
  split; [|split; [by destruct c, n|rewrite length_take; lia]].
  unfold consumed, flat, reader_ok. simpl. destruct (drop n c) as [|d ds] eqn:E; simpl.
  - rewrite app_nil_r in Hs. by rewrite <- Hs.
  - split_and!; [rewrite Hs at 1; by rewrite <- app_assoc|done|by constructor].
Qed.

Lemma read_exactly_spec fuel n r :
  reader_ok r → (n ≤ fuel)%nat →
  if (length (flat r) <? n)%nat then read_exactly fuel n r = None
  else ∃ r', read_exactly fuel n r = Some (take n (flat r), r') ∧ consumed r r' (take n (flat r)).
Proof.
  revert n r. induction fuel as [|fuel IH]; intros n r Hok Hf.
  { assert (n = 0%nat) as -> by lia. simpl. eexists. split; [done|]. by apply consumed_refl. }
  destruct n as [|n]; [simpl; eexists; split; [done|by apply consumed_refl]|].
  cbn [read_exactly]. destruct (rd_read_spec (S n) r Hok ltac:(done)) as [[-> ->]|(got & r1 & -> & Hc & Hg & Hlen)]; [done|].
  cbn [mbind option_bind]. assert (0 < length got)%nat as Hpos by (destruct got; simpl; [done|lia]).
  pose proof Hc as (Hfl & _ & Hok1). specialize (IH (S n - length got)%nat r1 Hok1 ltac:(lia)).
  rewrite Hfl, length_app. destruct (Nat.ltb_spec (length got + length (flat r1)) (S n)) as [Hlt|Hge].
  - destruct (Nat.ltb_spec (length (flat r1)) (S n - length got)); [|lia]. by rewrite IH.
  - destruct (Nat.ltb_spec (length (flat r1)) (S n - length got)); [lia|]. destruct IH as (r' & -> & Hc').
    cbn [mbind option_bind]. rewrite take_app, (take_ge got) by done. eexists. split; [done|]. by eapply consumed_trans.
Qed.

Lemma ReadFull_spec n r :
  reader_ok r →
  if (length (flat r) <? n)%nat then ReadFull n r = None
  else ∃ r', ReadFull n r = Some (take n (flat r), r') ∧ consumed r r' (take n (flat r)).
Proof. intros. by apply read_exactly_spec. Qed.

Lemma split_line_app a b : split_line a = None → split_line (a ++ b) = prod_map (app a) id <$> split_line b.
Proof.
  induction a as [|x a IH]; simpl; intros H; [by destruct (split_line b) as [[]|]|]. case_bool_decide; [done|].
  destruct (split_line a); [done|]. rewrite IH by done. by destruct (split_line b) as [[]|].
Qed.

Lemma split_line_app_Some a b line rest : split_line a = Some (line, rest) → split_line (a ++ b) = Some (line, rest ++ b).
Proof.
  revert line rest. induction a as [|x a IH]; simpl; intros line rest H; [done|]. case_bool_decide; [by simplify_eq|].
  destruct (split_line a) as [[l1 r1]|]; [|done]. simpl in H. simplify_eq. by rewrite (IH _ _ eq_refl).
Qed.

Lemma split_line_length s line rest : split_line s = Some (line, rest) → (length rest < length s)%nat.
Proof.
  revert line rest. induction s as [|x s IH]; simpl; intros line rest H; [done|]. case_bool_decide; [simplify_eq; lia|].
  destruct (split_line s) as [[l1 r1]|]; [|done]. simpl in H. simplify_eq. specialize (IH _ _ eq_refl). lia.
Qed.

(** A turn takes a byte from the connection, or empties a buffer it had filled. *)
Lemma read_string_spec fuel acc buf r :
  reader_ok r → split_line acc = None →
  (2 * length (flat r) + (if (bufSize <=? length buf)%nat then 1 else 0) + 1 ≤ fuel)%nat →
  let s := acc ++ buf ++ flat r in
  ∃ ok line buf' r' got, read_string fuel acc buf r = (ok, line, buf', r') ∧ consumed r r' got ∧
    match split_line s with
    | Some (l, rest) => ok = true ∧ line = l ∧ buf' ++ flat r' = rest
    | None => ok = false ∧ line = s ∧ buf' = [] ∧ flat r' = []
    end.
Proof.
  revert acc buf r. induction fuel as [|fuel IH]; intros acc buf r Hok Hacc Hf; [lia|]. cbn zeta. cbn [read_string].
  destruct (split_line buf) as [[line rest]|] eqn:Eb.
  { eexists _, _, _, _, []. split; [done|]. split; [by apply consumed_refl|]. rewrite split_line_app by done.
    rewrite (split_line_app_Some _ _ _ _ Eb). simpl. done. }
  destruct (Nat.leb_spec bufSize (length buf)) as [Hfull|Hroom].
  - destruct (IH (acc ++ buf) [] r) as (ok & line & buf' & r' & got & Hr & Hc & Hs); [done| | |].
    + rewrite split_line_app by done. by rewrite Eb.
    + destruct (Nat.leb_spec bufSize (length (@nil byte))) as [H|]; [unfold bufSize in H; simpl length in H; lia|lia].
    + exists ok, line, buf', r', got. split; [done|]. split; [done|]. cbn [app] in Hs. by rewrite app_assoc.
  - destruct (rd_read_spec (bufSize - length buf) r Hok ltac:(lia)) as [[-> Hnil]|(got & r1 & -> & Hc & Hg & Hlen)].
    + eexists _, _, _, _, []. split; [done|]. split; [by apply consumed_refl|]. rewrite Hnil, !app_nil_r.
      rewrite split_line_app by done. rewrite Eb. done.
    + pose proof Hc as (Hfl & _ & Hok1). assert (0 < length got)%nat as Hpos by (destruct got; simpl; [done|lia]).
      destruct (IH acc (buf ++ got) r1) as (ok & line & buf' & r' & got' & Hr & Hc' & Hs); [done..| |].
      { apply (f_equal length) in Hfl. rewrite length_app in Hfl. destruct (_ <=? _)%nat; lia. }
      exists ok, line, buf', r', (got ++ got'). split; [done|]. split; [by eapply consumed_trans|].
      cbn zeta in Hs. rewrite <- app_assoc in Hs. by rewrite Hfl.
Qed.

Lemma ReadString_spec buf r :
  reader_ok r →
  ∃ ok line buf' r' got, ReadString buf r = (ok, line, buf', r') ∧ consumed r r' got ∧
    match split_line (buf ++ flat r) with
    | Some (l, rest) => ok = true ∧ line = l ∧ buf' ++ flat r' = rest
    | None => ok = false ∧ line = buf ++ flat r ∧ buf' = [] ∧ flat r' = []
    end.
Proof. intros Hok. apply (read_string_spec _ [] buf r Hok); [done|]. unfold flat. destruct (_ <=? _)%nat; lia. Qed.

Lemma match_prefixes_spec rules head r :
  reader_ok r →
  match flat_prefixes rules head (flat r) with
  | FlatEOF => match_prefixes rules head r = PrefixEOF
  | FlatHit t => ∃ r' got, match_prefixes rules head r = PrefixHit t r' ∧ consumed r r' got
  | FlatMiss s => ∃ r' got, match_prefixes rules head r = PrefixMiss r' ∧ consumed r r' got ∧ flat r' = s
  end.
Proof.
  revert r. induction rules as [|p rules IH]; intros r Hok; cbn [flat_prefixes match_prefixes].
  { exists r, []. split_and!; try done. by apply consumed_refl. }
  destruct (hexBytes (Prefix p)) as [[|b bs]|]; [by apply IH| |by apply IH]. set (prefix := b :: bs).
  destruct (Nat.ltb_spec (length head) (length prefix)) as [Hlong|Hshort].
  - pose proof (ReadFull_spec (length prefix - length head) r Hok) as Hr.
    destruct (length (flat r) <? _)%nat; [by rewrite Hr|]. destruct Hr as (r1 & -> & Hc). cbn iota beta.
    destruct (is_prefix prefix _); [by eexists _, _|]. pose proof Hc as (Hfl & _ & Hok1).
    assert (flat r1 = drop (length prefix - length head) (flat r)) as Hd.
    { apply (app_inv_head (take (length prefix - length head) (flat r))). by rewrite take_drop. }
    specialize (IH r1 Hok1). rewrite Hd in IH. destruct (flat_prefixes _ _ _).
    + done.
    + destruct IH as (r' & got & -> & Hc'). eexists _, _. split; [done|]. by eapply consumed_trans.
    + destruct IH as (r' & got & -> & Hc' & Hs). eexists _, _. split; [done|]. split; [|done]. by eapply consumed_trans.
  - replace (length prefix - length head)%nat with 0%nat by lia. cbn [take]. rewrite take_0, app_nil_r, drop_0.
    destruct (is_prefix prefix head); [|by apply IH]. exists r, []. split; [done|]. by apply consumed_refl.
Qed.

Lemma flat_host_fuel f1 f2 s : (length s < f1)%nat → (length s < f2)%nat → flat_host f1 s = flat_host f2 s.
Proof.
  revert f2 s. induction f1 as [|f1 IH]; intros [|f2] s H1 H2; try lia. simpl.
  destruct (split_line s) as [[line rest]|] eqn:E; [|done]. apply split_line_length in E. destruct (classify line); try done.
  apply IH; lia.
Qed.

Lemma find_host_spec fuel buf r :
  reader_ok r → (length (buf ++ flat r) < fuel)%nat →
  ∃ r' got, find_host fuel buf r = (flat_host fuel (buf ++ flat r), r') ∧ consumed r r' got.
Proof.
  revert buf r. induction fuel as [|fuel IH]; intros buf r Hok Hf; [lia|]. cbn [find_host flat_host].
  destruct (ReadString_spec buf r Hok) as (ok & line & buf' & r1 & got & -> & Hc & Hs).
  destruct (split_line (buf ++ flat r)) as [[l rest]|] eqn:E.
  - destruct Hs as (-> & -> & Hrest). destruct (classify l) eqn:Ec; [by eexists _, _|by eexists _, _|].
    pose proof (split_line_length _ _ _ E) as Hlen. pose proof Hc as (_ & _ & Hok1).
    destruct (IH buf' r1) as (r' & got' & -> & Hc'); [done|by rewrite Hrest; lia|].
    rewrite Hrest. eexists _, _. split; [done|]. by eapply consumed_trans.
  - destruct Hs as (-> & _). by eexists _, _.
Qed.

Lemma matchHTTP_spec cfg head r :
  reader_ok r →
  ∃ r' got, matchHTTP cfg head r =
      (r', if is_method (HTTPMethods cfg) head then Some (flat_http cfg (flat r)) else None) ∧ consumed r r' got.
Proof.
  intros Hok. unfold matchHTTP, flat_http. destruct (is_method _ _); cbn [negb]; [|eexists _, _; split; [done|by apply consumed_refl]].
  destruct (ReadString_spec [] r Hok) as (ok & line & buf' & r1 & got & -> & Hc & Hs). cbn [app] in Hs.
  destruct (split_line (flat r)) as [[l rest]|] eqn:E.
  - destruct Hs as (-> & _ & Hrest). pose proof Hc as (_ & _ & Hok1).
    destruct (find_host_spec (S (length (buf' ++ concat (r_in r1)))) buf' r1 Hok1) as (r' & got' & -> & Hc'); [unfold flat; lia|].
    fold (flat r1). rewrite Hrest. eexists _, _. split; [done|]. by eapply consumed_trans.
  - destruct Hs as (-> & _). by eexists _, _.
Qed.

(** [dispatch] follows [flat_dispatch] and hands over every byte it was given. *)
Lemma dispatch_flat cfg input :
  Forall (λ c, c ≠ []) input →
  match flat_dispatch cfg (concat input) with
  | None => dispatch cfg input = Closed
  | Some t => ∃ replay rest, dispatch cfg input = Handed t replay rest ∧
      replay ++ concat rest = concat input ∧ Forall (λ c, c ≠ []) rest
  end.
Proof.
  intros Hok. unfold dispatch, flat_dispatch. set (r0 := mkReader [] input).
  pose proof (ReadFull_spec 3 r0 Hok) as H3. change (concat input) with (flat r0).
  destruct (length (flat r0) <? 3)%nat; [by rewrite H3|]. destruct H3 as (r1 & -> & Hc1).
  assert (∀ r t got, consumed r0 r got → ∃ replay rest, hand t r = Handed t replay rest ∧
    replay ++ concat rest = flat r0 ∧ Forall (λ c, c ≠ []) rest) as Hhand.
  { intros r t got (Hf & Hrec & Hr). exists (r_rec r), (r_in r). split; [done|]. rewrite Hrec, Hf. by split. }
  pose proof Hc1 as (Hf1 & _ & Hok1).
  assert (drop 3 (flat r0) = flat r1) as ->.
  { apply (app_inv_head (take 3 (flat r0))). by rewrite take_drop. }
  pose proof (match_prefixes_spec (Prefixes cfg) (take 3 (flat r0)) r1 Hok1) as Hp.
  destruct (flat_prefixes _ _ _) as [|t|s].
  - by rewrite Hp.
  - destruct Hp as (r' & got & -> & Hc). eapply Hhand. by eapply consumed_trans.
  - destruct Hp as (r2 & got & -> & Hc & <-). pose proof Hc as (_ & _ & Hok2).
    destruct (matchHTTP_spec cfg (take 3 (flat r0)) r2 Hok2) as (r3 & got' & -> & Hc').
    assert (consumed r0 r3 (take 3 (flat r0) ++ got ++ got')) as Hc3 by (do 2 (eapply consumed_trans; [done|]); done).
    destruct (is_method _ _); by eapply Hhand.
Qed.

(** Reading a handed-over connection to its end. *)
Fixpoint read_all (fuel n : nat) (c : replayConn) : list byte :=
  match fuel with
  | O => []
  | S fuel => match Read n c with Some (got, c) => got ++ read_all fuel n c | None => [] end
  end.

Lemma read_all_spec fuel n c :
  n ≠ 0%nat → Forall (λ c, c ≠ []) (rc_in c) → (rc_read c ≤ length (rc_replay c))%nat →
  (length (drop (rc_read c) (rc_replay c)) + length (concat (rc_in c)) < fuel)%nat →
  read_all fuel n c = drop (rc_read c) (rc_replay c) ++ concat (rc_in c).
Proof.
  intros Hn. revert c. induction fuel as [|fuel IH]; intros [rep k cs] Hok Hk Hf; simpl in *; [lia|].
  unfold Read. simpl. destruct (Nat.ltb_spec k (length rep)) as [Hlt|Hge].
  - set (got := take n (drop k rep)).
    assert (length got = n `min` (length rep - k))%nat as Hg by (unfold got; by rewrite length_take, length_drop).
    rewrite IH; simpl; [| done | lia |].
    + rewrite <- drop_drop. unfold got. rewrite app_assoc. f_equal. rewrite length_take.
      destruct (decide (n ≤ length (drop k rep))%nat).
      * replace (n `min` length (drop k rep))%nat with n by lia. apply take_drop.
      * replace (n `min` length (drop k rep))%nat with (length (drop k rep)) by lia.
        rewrite (take_ge _ n) by lia. by rewrite drop_all, app_nil_r.
    + rewrite length_drop in *. lia.
  - rewrite drop_ge by lia. simpl.
    destruct (rd_read_spec n (mkReader [] cs) Hok Hn) as [[-> Hnil]|(got & r' & -> & (Hfl & _ & Hok') & Hg & _)]; simpl.
    + by rewrite <- Hnil.
    + unfold flat in Hfl. simpl in Hfl. rewrite Hfl. assert (0 < length got)%nat by (destruct got; simpl; [done|lia]).
      rewrite IH; simpl; [by rewrite drop_ge by lia|done|lia|].
      rewrite length_drop in *. rewrite Hfl, length_app in Hf. lia.
Qed.

(** * What the dispatcher keeps *)

Inductive d_step : Dispatcher → Dispatcher → Prop :=
  | d_serve d input : d_step d (serve d input).1
  | d_accept pick d target : d_step d (Accept pick d target).1
  | d_close d : d_step d (Close d).

(** Steps keep the configuration and the registered targets. *)
Lemma d_step_dom d d' :
  d_step d d' → d_cfg d' = d_cfg d ∧ ∀ t, is_Some (targets d' !! t) ↔ is_Some (targets d !! t).
Proof.
  assert (∀ d t q, is_Some (targets d !! t) → ∀ t', is_Some (<[t := q]> (targets d) !! t') ↔ is_Some (targets d !! t')) as Hi.
  { intros d0 t q Ht t'. rewrite lookup_insert_is_Some. destruct (decide (t = t')) as [->|]; naive_solver. }
  destruct 1 as [d input|pick d target|d]; [| |done].
  - unfold serve. destruct (dispatch _ _) as [|t rep rest]; [done|]. unfold handoff.
    destruct (targets d !! handoff_target d t) as [q|] eqn:E; [|done]. destruct (_ <? _)%nat; [|done]. simpl.
    split; [done|]. apply Hi. by eexists.
  - unfold Accept. destruct (targets d !! target) as [[|c q]|] eqn:E; try done. destruct (d_done d && pick); [done|].
    simpl. split; [done|]. apply Hi. by eexists.
Qed.

Lemma New_targets cfg d t :
  New cfg = Some d → (is_Some (targets d !! t) ↔ t ∈ config_targets cfg ∧ t ≠ ""%string).
Proof.
  unfold New. destruct (String.eqb (Default cfg) ""); [done|]. intros [= <-]. cbn [targets].
  set (l := filter _ _). assert (t ∈ l ↔ t ∈ config_targets cfg ∧ t ≠ ""%string) as <-.
  { unfold l. rewrite list_elem_of_filter. tauto. }
  induction l as [|x l IH]; simpl; [rewrite lookup_empty, elem_of_nil; by split; [intros []|]|].
  rewrite lookup_insert_is_Some, elem_of_cons, IH. destruct (decide (x = t)); naive_solver.
Qed.

(** * Properties *)

(** C23: Sniffing is invisible and does not depend on how the bytes arrive. The
    target of a connection, or its refusal, is a function of the bytes it sends
    alone, however they are cut into reads; and whoever reads the connection it
    was handed, with a buffer of any size, gets exactly the bytes that were sent. *)
Theorem dispatch_transparent cfg input1 input2 n :
  Forall (λ c, c ≠ []) input1 → Forall (λ c, c ≠ []) input2 → concat input1 = concat input2 → n ≠ 0%nat →
  match dispatch cfg input1, dispatch cfg input2 with
  | Closed, Closed => True
  | Handed t1 rep1 rest1, Handed t2 rep2 rest2 =>
      t1 = t2 ∧ read_all (S (length (concat input1))) n (newReplayConn rep1 rest1) = concat input1
  | _, _ => False
  end.
Proof.
  intros H1 H2 Heq Hn. pose proof (dispatch_flat cfg input1 H1) as D1. pose proof (dispatch_flat cfg input2 H2) as D2.
  rewrite <- Heq in D2. destruct (flat_dispatch cfg (concat input1)) as [t|]; [|by rewrite D1, D2].
  destruct D1 as (rep1 & rest1 & -> & Hall & Hok). destruct D2 as (rep2 & rest2 & -> & _). split; [done|].
  rewrite read_all_spec; simpl; [done|done|done|lia|]. rewrite drop_0, <- length_app, Hall. lia.
Qed.

(** The rule that short prefixes choose. *)
Definition rule_hits (s : list byte) (p : PrefixRule) : bool :=
  match hexBytes (Prefix p) with None | Some [] => false | Some prefix => is_prefix prefix s end.

Lemma is_prefix_take p n s : (length p ≤ n)%nat → is_prefix p (take n s) = is_prefix p s.
Proof.
  revert n s. induction p as [|a p IH]; intros [|n] [|b s] H; simpl in *; try done; [lia|]. by rewrite IH by lia.
Qed.

(** The order of the decisions. When no configured prefix is longer than three
    bytes: a connection of fewer than three bytes is closed; otherwise the first
    rule in declaration order whose prefix starts the connection decides; failing
    that, a connection that starts like an HTTP method goes by its Host header;
    everything else goes to the default target. *)
Theorem dispatch_order cfg input :
  Forall (λ c, c ≠ []) input →
  Forall (λ p, ∀ prefix, hexBytes (Prefix p) = Some prefix → (length prefix ≤ 3)%nat) (Prefixes cfg) →
  let s := concat input in
  if (length s <? 3)%nat then dispatch cfg input = Closed
  else
    ∃ replay rest,
      dispatch cfg input =
        Handed (match list_find (λ p, rule_hits s p = true) (Prefixes cfg) with
                | Some (_, p) => Target p
                | None => if is_method (HTTPMethods cfg) (take 3 s) then flat_http cfg (drop 3 s) else Default cfg
                end) replay rest.
Proof.
  intros Hok Hshort s. pose proof (dispatch_flat cfg input Hok) as Hd. unfold flat_dispatch in Hd. fold s in Hd.
  destruct (Nat.ltb_spec (length s) 3) as [|Hlen]; [done|].
  assert (length (take 3 s) = 3%nat) as H3 by (rewrite length_take; lia).
  assert (flat_prefixes (Prefixes cfg) (take 3 s) (drop 3 s) =
    match list_find (λ p, rule_hits s p = true) (Prefixes cfg) with Some (_, p) => FlatHit (Target p) | None => FlatMiss (drop 3 s) end) as Hf.
  { clear Hd. revert Hshort. generalize (Prefixes cfg). induction 1 as [|p rules Hp _ IH]; [done|].
    cbn [flat_prefixes list_find].
    assert (∀ F : flat_prefix_result, (rule_hits s p = true → F = FlatHit (Target p)) →
      (rule_hits s p = false → F = flat_prefixes rules (take 3 s) (drop 3 s)) →
      F = match (if decide (rule_hits s p = true) then Some (0%nat, p)
                 else prod_map S id <$> list_find (λ p, rule_hits s p = true) rules) with
          | Some (_, p) => FlatHit (Target p) | None => FlatMiss (drop 3 s) end) as Hcase.
    { intros F Ht Hn. destruct (decide (rule_hits s p = true)) as [E|E]; [by apply Ht|].
      rewrite Hn by (by apply not_true_is_false). rewrite IH. by destruct (list_find _ rules) as [[]|]. }
    apply Hcase; clear Hcase; unfold rule_hits; destruct (hexBytes (Prefix p)) as [[|b bs]|]; try done.
    all: specialize (Hp _ eq_refl); rewrite H3.
    all: replace (length (b :: bs) - 3)%nat with 0%nat by lia.
    all: rewrite take_0, app_nil_r, drop_0, is_prefix_take by done; cbn iota; by intros ->. }
  rewrite Hf in Hd. destruct (list_find _ _) as [[i p]|].
  - destruct Hd as (rep & rest & -> & _). by eexists _, _.
  - destruct Hd as (rep & rest & -> & _). by eexists _, _.
Qed.

Definition rules_config (rules : list PrefixRule) : Config :=
  mkConfig default_methods {["a.example" := "a"]}%string "web" rules "other".

Definition choice (o : outcome) : option string := match o with Handed t _ _ => Some t | Closed => None end.

(** Prefixes longer than three bytes interfere. The bytes a rule reads beyond
    the head are lost for the rules after it and for the HTTP stage: of two
    four-byte rules the second never matches its own prefix, and a request loses
    its Host header when a rule that does not match has read past it. *)
Theorem long_prefixes_interfere :
  let rules := [mkPrefixRule "01020304" "first"; mkPrefixRule "05060708" "second"] in
  let request := bytes_of ("GET / HTTP/1.1" +:+ String "013" (String "010" ("Host: a.example" +:+ String "013" (String "010" (String "013" (String "010" "")))))) in
  let long := mkPrefixRule "4745542000000000000000000000000000000000" "long" in
  hexBytes "05060708" = Some [x05; x06; x07; x08] ∧
  choice (dispatch (rules_config rules) [[x05; x06; x07; x08; x09]]) = Some "other"%string ∧
  choice (dispatch (rules_config []) [request]) = Some "a"%string ∧
  choice (dispatch (rules_config [long]) [request]) = Some "web"%string.
Proof. vm_compute. done. Qed.

(** No connection is lost for want of a target. Whatever connections a new
    dispatcher has served and handed out, the queue of the chosen target exists
    (the default's, when the choice is the empty [HTTPDefault]): a connection
    that was sniffed is queued unless that queue is full. *)
Theorem handoff_total cfg d0 d target c :
  New cfg = Some d0 → rtc d_step d0 d → target ∈ config_targets cfg →
  handoff_target d target = (if String.eqb target "" then Default cfg else target) ∧
  ∃ q, targets d !! handoff_target d target = Some q ∧
    (handoff d target c).2 = (length q <? queueCap)%nat ∧
    ((handoff d target c).2 = true → targets (handoff d target c).1 = <[handoff_target d target := q ++ [c]]> (targets d)).
Proof.
  intros Hn Hr Ht.
  assert (d_cfg d = d_cfg d0 ∧ ∀ t, is_Some (targets d !! t) ↔ is_Some (targets d0 !! t)) as [Hc Hd].
  { clear Ht Hn. induction Hr as [|d0 d1 d Hs _ [Hc' Hs']]; [done|]. apply d_step_dom in Hs as [Hc Hs].
    split; [congruence|]. intros t. by rewrite Hs', Hs. }
  assert (Default cfg ≠ ""%string ∧ Default (d_cfg d) = Default cfg) as [Hdef Hdc].
  { rewrite Hc. unfold New in Hn. destruct (String.eqb_spec (Default cfg) ""); [done|]. by simplify_eq. }
  assert (handoff_target d target = if String.eqb target "" then Default cfg else target) as Htar.
  { unfold handoff_target. rewrite Hdc. destruct (String.eqb_spec target "") as [->|Hne].
    - destruct (targets d !! ""%string) eqn:E; [|done]. assert (is_Some (targets d0 !! ""%string)) as H by (apply Hd; by eexists).
      by apply (New_targets _ _ _ Hn) in H as [_ ?].
    - assert (is_Some (targets d !! target)) as [q ->]; [|done]. apply Hd, (New_targets _ _ _ Hn). done. }
  split; [exact Htar|]. assert (is_Some (targets d !! handoff_target d target)) as [q Hq].
  { apply Hd, (New_targets _ _ _ Hn). rewrite Htar. destruct (String.eqb_spec target ""); [|done]. split; [by left|done]. }
  exists q. split; [exact Hq|]. unfold handoff. rewrite Hq. by destruct (_ <? _)%nat.
Qed.

(** * Witnesses *)

Lemma dispatch_transparent_witness :
  let cfg := rules_config [mkPrefixRule "01" "star"] in
  dispatch cfg [[x01; x02]; [x03; x04]] = Handed "star" [x01; x02; x03] [[x04]] ∧
  match dispatch cfg [[x01; x02]; [x03; x04]], dispatch cfg [[x01]; [x02; x03; x04]] with
  | Handed t1 rep rest, Handed t2 _ _ => t1 = t2 ∧ read_all 5 2 (newReplayConn rep rest) = [x01; x02; x03; x04]
  | _, _ => False
  end.
Proof.
  intros cfg. split; [vm_compute; reflexivity|].
  apply (dispatch_transparent cfg [[x01; x02]; [x03; x04]] [[x01]; [x02; x03; x04]] 2);
    [repeat constructor; discriminate|repeat constructor; discriminate|reflexivity|discriminate].
Defined.

Lemma dispatch_order_witness :
  let cfg := rules_config [mkPrefixRule "02" "a"; mkPrefixRule "01" "b"; mkPrefixRule "0102" "c"] in
  ∃ replay rest, dispatch cfg [[x01; x02; x03]] = Handed "b" replay rest.
Proof.
  intros cfg. refine (dispatch_order cfg [[x01; x02; x03]] _ _).
  - repeat constructor; discriminate.
  - do 3 (apply Forall_cons_2; [intros prefix H; vm_compute in H; injection H as <-; simpl; lia|]). apply Forall_nil_2.
Defined.

Definition demo_dispatcher : Dispatcher :=
  default (mkDispatcher (rules_config []) ∅ false) (New (rules_config [])).

Lemma handoff_total_witness :
  handoff_target demo_dispatcher "a" = "a"%string ∧
  ∃ q, targets demo_dispatcher !! "a"%string = Some q ∧
    (handoff demo_dispatcher "a" (newReplayConn [] [])).2 = (length q <? queueCap)%nat.
Proof.
  assert (New (rules_config []) = Some demo_dispatcher) as Hn by (vm_compute; reflexivity).
  assert ("a"%string ∈ config_targets (rules_config [])) as Ht.
  { apply (bool_decide_unpack _). vm_compute. exact I. }
  destruct (handoff_total (rules_config []) demo_dispatcher demo_dispatcher "a" (newReplayConn [] []) Hn (rtc_refl _ _) Ht)
    as (Htar & q & Hq & Hok & _).
  split; [exact Htar|]. exists q. rewrite Htar in Hq. split; [exact Hq|exact Hok].
Defined.
