(* ===== verification/Bridge.v ===== *)
(** Joining two connections (internal/bridge/bridge.go): the two pumps of
    [Bridge], its main goroutine, the drain timer and the cancellation, as the
    interleavings of their steps. *)
From S2P Require Import Prelude.
From Stdlib Require Import ZArith Lia.

(** * State *)

(** A pump copies from one side to the other: [Fwd] from [src] to [dst]. *)
Inductive dir := Fwd | Bwd.
#[export] Instance dir_eq_dec : EqDecision dir.
Proof. solve_decision. Defined.

(** One of the two connections: the bytes read from it and written to it, the
    number of successful [CloseWrite]s and whether it was closed. *)
Record bconn := mkBconn { bc_read : list byte; bc_written : list byte; bc_cw : nat; bc_closed : bool }.

Inductive bridge_err := ErrPump (d : dir) | ErrPumpCloseWrite (d : dir) | ErrDrainTimeout | ErrCtx.

(** The main goroutine: before its first and its second receive, returned. *)
Inductive main_state := WaitFirst | WaitSecond | Returned (err : option bridge_err).

(** [b_results] is the channel of results, [b_done] tells which pumps have sent
    theirs, [b_timer] whether the drain timer runs; [b_drain]: [DrainTimeout > 0]. *)
Record bridge := mkBridge {
  b_conn : dir → bconn;
  b_done : dir → bool;
  b_results : list (option bridge_err);
  b_main : main_state;
  b_drain : bool;
  b_timer : bool;
  b_timedOut : bool;
  b_ctx : bool;
}.

(** [b_conn d] is the side the pump [d] reads from; it writes to [b_conn (flip d)]. *)
Definition flip (d : dir) : dir := match d with Fwd => Bwd | Bwd => Fwd end.

Definition upd_fun {A} (f : dir → A) (d : dir) (a : A) (d' : dir) : A := if decide (d' = d) then a else f d'.

Definition set_conn (d : dir) (c : bconn) (b : bridge) : bridge :=
  mkBridge (upd_fun (b_conn b) d c) (b_done b) (b_results b) (b_main b) (b_drain b) (b_timer b) (b_timedOut b) (b_ctx b).

Definition new_conn : bconn := mkBconn [] [] 0 false.
Definition new_bridge (drain : bool) : bridge :=
  mkBridge (λ _, new_conn) (λ _, false) [] WaitFirst drain false false false.

Definition close_conn (c : bconn) : bconn := mkBconn (bc_read c) (bc_written c) (bc_cw c) true.

Definition close_both (b : bridge) : bridge :=
  mkBridge (λ d, close_conn (b_conn b d)) (b_done b) (b_results b) (b_main b) (b_drain b) (b_timer b) (b_timedOut b) (b_ctx b).

(** * Steps *)

(** The end of a pump: [armDrain] and the result. The timer is started by the
    first end only, and only while nothing has stopped it. *)
Definition finish (d : dir) (err : option bridge_err) (b : bridge) : bridge :=
  let first := negb (b_done b Fwd) && negb (b_done b Bwd) in
  let running := match b_main b with Returned _ => false | _ => true end in
  mkBridge (b_conn b) (upd_fun (b_done b) d true) (b_results b ++ [err]) (b_main b) (b_drain b)
    (b_timer b || first && b_drain b && running) (b_timedOut b) (b_ctx b).

(** What [CloseWrite] answers. *)
Inductive cw_result := CwOk | CwUnsupported | CwFail.

(** The pump's [io.CopyBuffer] ended without an error that counts. *)
Definition pump_eof (d : dir) (cw : cw_result) (b : bridge) : bridge :=
  match cw with
  | CwOk =>
      let w := b_conn b (flip d) in
      finish d None (set_conn (flip d) (mkBconn (bc_read w) (bc_written w) (S (bc_cw w)) (bc_closed w)) b)
  | CwUnsupported => finish d None b
  | CwFail => finish d (Some (ErrPumpCloseWrite d)) b
  end.

(** A write: all of it, or only its first [k] bytes with an error. (A write that
    fails with [io.EOF], which the pump would take for the end of its input, is
    left out: a write reports no such error.) *)
Inductive write_result := WOk | WFail (k : nat).

Inductive bevent :=
  | BCopy (d : dir) (p : list byte) (w : write_result)
  | BEOF (d : dir) (cw : cw_result)
  | BReadErr (d : dir)
  | BCancel
  | BCtxClose
  | BTimer
  | BMain.

(** The main goroutine returns: the deferred closes, [stop] and [finishDrain]. *)
Definition return_with (err : option bridge_err) (b : bridge) : bridge :=
  let b := close_both b in
  mkBridge (b_conn b) (b_done b) (b_results b) (Returned err) (b_drain b) false (b_timedOut b) (b_ctx b).

(** A step; [None] when it cannot happen. A pump reads and writes in one step. A closed connection can neither be read
    nor written: its reads fail, and so do the writes to it and its [CloseWrite]
    (unless that is not supported). *)
Definition bapply (b : bridge) (ev : bevent) : option bridge :=
  match ev with
  | BCopy d p w =>
      if b_done b d || bc_closed (b_conn b d) || bool_decide (p = []) then None
      else
        let r := b_conn b d in
        let b := set_conn d (mkBconn (bc_read r ++ p) (bc_written r) (bc_cw r) (bc_closed r)) b in
        let o := b_conn b (flip d) in
        let write q := set_conn (flip d) (mkBconn (bc_read o) (bc_written o ++ q) (bc_cw o) (bc_closed o)) b in
        match w with
        | WOk => if bc_closed o then None else Some (write p)
        | WFail k =>
            Some (finish d (Some (ErrPump d)) (if bc_closed o then b else write (take (k `min` (length p - 1)) p)))
        end
  | BEOF d cw =>
      if b_done b d || bc_closed (b_conn b d) then None
      else
        match cw with
        | CwOk => if bc_closed (b_conn b (flip d)) then None else Some (pump_eof d cw b)
        | _ => Some (pump_eof d cw b)
        end
  | BReadErr d => if b_done b d then None else Some (finish d (Some (ErrPump d)) b)
  | BCancel => Some (mkBridge (b_conn b) (b_done b) (b_results b) (b_main b) (b_drain b) (b_timer b) (b_timedOut b) true)
  | BCtxClose =>
      match b_main b with
      | Returned _ => None
      | _ => if b_ctx b then Some (close_both b) else None
      end
  | BTimer =>
      if b_timer b then
        let b := close_both b in
        Some (mkBridge (b_conn b) (b_done b) (b_results b) (b_main b) (b_drain b) false true (b_ctx b))
      else None
  | BMain =>
      match b_main b, b_results b with
      | WaitFirst, err :: rest =>
          let b := mkBridge (b_conn b) (b_done b) rest (b_main b) (b_drain b) (b_timer b) (b_timedOut b) (b_ctx b) in
          if b_ctx b then Some (return_with (Some ErrCtx) b)
          else
            match err with
            | Some e => Some (return_with (Some e) b)
            | None => Some (mkBridge (b_conn b) (b_done b) rest WaitSecond (b_drain b) (b_timer b) (b_timedOut b) (b_ctx b))
            end
      | WaitSecond, err :: rest =>
          let b := mkBridge (b_conn b) (b_done b) rest (b_main b) (b_drain b) (b_timer b) (b_timedOut b) (b_ctx b) in
          Some (return_with (if b_timedOut b then Some ErrDrainTimeout else err) b)
      | _, _ => None
      end
  end.

(** A history of the bridge. *)
Fixpoint brun (b : bridge) (evs : list bevent) : option bridge :=
  match evs with
  | [] => Some b
  | ev :: evs => bapply b ev ≫= λ b, brun b evs
  end.

(** * The invariant *)

(** How many results the main goroutine has received. *)
Definition taken (m : main_state) (n : nat) : Prop :=
  match m with
  | WaitFirst => n = 0%nat
  | WaitSecond => n = 1%nat
  | Returned None => n = 2%nat
  | Returned (Some _) => n = 1%nat ∨ n = 2%nat
  end.

Definition count_done (b : bridge) : nat := (if b_done b Fwd then 1 else 0) + (if b_done b Bwd then 1 else 0).

Definition copied (b : bridge) (d : dir) : Prop := bc_written (b_conn b (flip d)) = bc_read (b_conn b d).

(** A direction that lost bytes has an error on its way to the main goroutine,
    or the bridge has already returned one. *)
Definition reported (b : bridge) (d : dir) : Prop :=
  Some (ErrPump d) ∈ b_results b ∨ ∃ e, b_main b = Returned (Some e).

Record binv (b : bridge) : Prop := {
  bi_count : ∃ n, taken (b_main b) n ∧ count_done b = (n + length (b_results b))%nat;
  bi_prefix d : bc_written (b_conn b (flip d)) `prefix_of` bc_read (b_conn b d);
  bi_running d : b_done b d = false → copied b d;
  bi_done d : b_done b d = true → copied b d ∨ reported b d;
  bi_closed e : b_main b = Returned e → ∀ d, bc_closed (b_conn b d) = true;
  bi_timer : b_timer b = true → b_drain b = true ∧ b_done b Fwd || b_done b Bwd = true ∧ ∀ e, b_main b ≠ Returned e;
}.

Lemma flip_flip d : flip (flip d) = d.
Proof. by destruct d. Qed.

Lemma upd_fun_eq {A} (f : dir → A) d a : upd_fun f d a d = a.
Proof. unfold upd_fun. by destruct (decide _). Qed.
Lemma upd_fun_ne {A} (f : dir → A) d d' a : d' ≠ d → upd_fun f d a d' = f d'.
Proof. unfold upd_fun. by destruct (decide _). Qed.

Lemma new_bridge_inv drain : binv (new_bridge drain).
Proof. split; try done. - exists 0%nat. done. Qed.

(** Updates of the connections alone. *)
Lemma binv_conns b f :
  binv b →
  (∀ d, (bc_read (f d), bc_written (f d)) = (bc_read (b_conn b d), bc_written (b_conn b d))) →
  (∀ d, bc_closed (b_conn b d) = true → bc_closed (f d) = true) →
  binv (mkBridge f (b_done b) (b_results b) (b_main b) (b_drain b) (b_timer b) (b_timedOut b) (b_ctx b)).
Proof.
  intros [H1 H2 H3 H4 H5 H6] Hf Hc. assert (∀ d, bc_read (f d) = bc_read (b_conn b d) ∧ bc_written (f d) = bc_written (b_conn b d)) as Hf'.
  { intros d. specialize (Hf d). by injection Hf. }
  split; simpl; try done.
  - intros d. destruct (Hf' d) as [-> _], (Hf' (flip d)) as [_ ->]. apply H2.
  - intros d Hd. unfold copied. simpl. destruct (Hf' d) as [-> _], (Hf' (flip d)) as [_ ->]. by apply H3.
  - intros d Hd. unfold copied. simpl. destruct (Hf' d) as [-> _], (Hf' (flip d)) as [_ ->].
    destruct (H4 d Hd) as [?|[?|?]]; [by left|right; by left|right; by right].
  - intros e He d. by eapply Hc, H5.
Qed.

(** A pump that was running ends; [err] is not needed when nothing was lost. *)
Lemma finish_inv b d err :
  binv b → b_done b d = false → binv (finish d err b).
Proof.
  intros [(n & Hn & Hc) H2 H3 H4 H5 H6] Hd. split; simpl; try done.
  - exists n. split; [done|]. rewrite length_app. simpl. unfold count_done in *. simpl.
    destruct d; rewrite upd_fun_eq, upd_fun_ne by done; rewrite Hd in Hc; simpl in *; lia.
  - intros d' Hd'. destruct (decide (d' = d)) as [->|Hne]; [by rewrite upd_fun_eq in Hd'|].
    rewrite upd_fun_ne in Hd' by done. by apply H3.
  - intros d' Hd'. destruct (decide (d' = d)) as [->|Hne]; [left; by apply H3|].
    rewrite upd_fun_ne in Hd' by done. destruct (H4 _ Hd') as [?|[?|?]]; [by left|right; left; set_solver|right; by right].
  - intros Ht. apply orb_true_iff in Ht as [Ht|Ht].
    + destruct (H6 Ht) as (? & Hdn & ?). split_and!; try done. unfold upd_fun. destruct (decide _), (decide _); try done; by rewrite ?orb_true_r.
    + apply andb_true_iff in Ht as [[_ ?]%andb_true_iff Hm]. split_and!; [done| |by destruct (b_main b)].
      unfold upd_fun. destruct d; simpl; by rewrite ?orb_true_r.
Qed.

(** The end of a pump whose last write failed. *)
Lemma finish_lost_inv b d b' :
  binv b → b_done b d = false → b_done b' = b_done b → b_results b' = b_results b → b_main b' = b_main b →
  b_drain b' = b_drain b → b_timer b' = b_timer b →
  (∀ d, bc_closed (b_conn b' d) = bc_closed (b_conn b d)) →
  bc_written (b_conn b' (flip d)) `prefix_of` bc_read (b_conn b' d) →
  bc_read (b_conn b' (flip d)) = bc_read (b_conn b (flip d)) → bc_written (b_conn b' d) = bc_written (b_conn b d) →
  binv (finish d (Some (ErrPump d)) b').
Proof.
  intros Hi Hd Hdn Hr Hm Hdr Ht Hc Hp Hrd Hw. pose proof (finish_inv b d (Some (ErrPump d)) Hi Hd) as [H1 H2 H3 H4 H5 H6].
  simpl in *. split; simpl; rewrite ?Hr, ?Hm.
  - unfold count_done in *. simpl in *. by rewrite Hdn.
  - intros d'. destruct (decide (d' = d)) as [->|Hne]; [done|].
    assert (d' = flip d) as -> by (by destruct d, d'). rewrite flip_flip in *. rewrite Hw, Hrd.
    specialize (H2 (flip d)). by rewrite flip_flip in H2.
  - rewrite Hdn. intros d' Hd'. destruct (decide (d' = d)) as [->|Hne]; [by rewrite upd_fun_eq in Hd'|].
    assert (d' = flip d) as -> by (by destruct d, d'). specialize (H3 _ Hd'). unfold copied in *. simpl in *.
    by rewrite flip_flip in *; rewrite Hw, Hrd.
  - rewrite Hdn. intros d' Hd'. destruct (decide (d' = d)) as [->|Hne].
    + right. left. simpl. rewrite Hr. set_solver.
    + assert (d' = flip d) as -> by (by destruct d, d'). destruct (H4 _ Hd') as [Hcp|[?|?]].
      * left. unfold copied in *. simpl in *. by rewrite flip_flip in *; rewrite Hw, Hrd.
      * right. left. simpl. by rewrite Hr.
      * right. right. simpl. by rewrite Hm.
  - intros e He d'. rewrite Hc. by apply (H5 e).
  - rewrite Hdr, Ht, Hdn. done.
Qed.

Lemma close_both_inv b : binv b → binv (close_both b).
Proof. intros Hi. by apply (binv_conns b (λ d, close_conn (b_conn b d))). Qed.

(** The main goroutine takes a result and goes on, or returns. *)
Lemma main_inv b err rest m :
  binv b → b_results b = err :: rest →
  (∀ n, taken (b_main b) n → taken m (S n)) → (∀ e, m = Returned e → ∀ d, bc_closed (b_conn b d) = true) →
  (∀ e, err = Some e → ∃ e', m = Returned (Some e')) → (∀ e, b_main b ≠ Returned e) →
  binv (mkBridge (b_conn b) (b_done b) rest m (b_drain b) (b_timer b && match m with Returned _ => false | _ => true end)
          (b_timedOut b) (b_ctx b)).
Proof.
  intros [(n & Hn & Hc) H2 H3 H4 H5 H6] Hr Ht Hcl Herr Hnr. split; simpl; try done.
  - exists (S n). split; [by apply Ht|]. rewrite Hr in Hc. unfold count_done in *. simpl in *. lia.
  - intros d Hd. destruct (H4 d Hd) as [?|[Hin|[e He]]]; [by left| |by destruct (Hnr (Some e))].
    right. rewrite Hr in Hin. apply elem_of_cons in Hin as [Hin|?]; [|by left]. right. simpl. by eapply Herr.
  - intros [Htm Hm]%andb_true_iff. destruct (H6 Htm) as (? & ? & _). split_and!; [done..|]. by destruct m.
Qed.

Lemma bapply_inv b ev b' : binv b → bapply b ev = Some b' → binv b'.
Proof.
  intros Hi. destruct ev as [d p w|d cw|d| | | |]; simpl.
  - destruct (b_done b d) eqn:Ed; [done|]. destruct (bc_closed (b_conn b d)) eqn:Ec; [done|]. case_bool_decide as Hp; [done|]. simpl.
    assert (∀ o, upd_fun (b_conn b) d o (flip d) = b_conn b (flip d)) as Ho by (intros; by apply upd_fun_ne; destruct d).
    pose proof (bi_running _ Hi d Ed) as Hcp. unfold copied in Hcp.
    rewrite Ho. destruct w as [|k].
    + destruct (bc_closed (b_conn b (flip d))) eqn:Eo; [done|]. intros [= <-].
      destruct Hi as [H1 H2 H3 H4 H5 H6]. split; simpl; try done.
      * intros d'. specialize (H2 d'). unfold upd_fun. destruct d, d'; simpl in *; by rewrite ?Hcp.
      * intros d' Hd'. specialize (H3 d' Hd'). unfold copied, upd_fun in *. destruct d, d'; simpl in *; congruence.
      * intros d' Hd'. destruct (decide (d' = d)) as [->|Hne]; [congruence|].
        destruct (H4 d' Hd') as [Hcd|[?|?]]; [left|right; by left|right; by right].
        unfold copied, upd_fun in *. destruct d, d'; simpl in *; congruence.
      * intros e He. pose proof (H5 e He d). congruence.
    + intros [= <-]. destruct (bc_closed (b_conn b (flip d))) eqn:Eo; eapply finish_lost_inv; try done; simpl.
      * intros d'. unfold upd_fun. destruct (decide (d' = d)) as [->|]; simpl; congruence.
      * rewrite Ho, upd_fun_eq. simpl. rewrite Hcp. by apply prefix_app_r.
      * by rewrite Ho.
      * by rewrite upd_fun_eq.
      * intros d'. unfold upd_fun. destruct (decide (d' = flip d)) as [->|]; [by simpl|]. destruct (decide (d' = d)) as [->|]; simpl; congruence.
      * rewrite upd_fun_eq, upd_fun_ne, upd_fun_eq by (by destruct d). simpl. rewrite Hcp. apply prefix_app. apply prefix_take.
      * by rewrite upd_fun_eq.
      * by rewrite upd_fun_ne, upd_fun_eq by (by destruct d).
  - destruct (b_done b d) eqn:Ed; [done|]. destruct (bc_closed (b_conn b d)); [done|]. simpl.
    destruct cw; [destruct (bc_closed _) eqn:Eo; [done|]|..]; intros [= <-]; simpl; apply finish_inv; try done.
    apply (binv_conns b (upd_fun (b_conn b) (flip d) _)); [done|..]; intros d'; unfold upd_fun; destruct (decide _) as [->|]; simpl; congruence.
  - destruct (b_done b d) eqn:Ed; [done|]. intros [= <-]. by apply finish_inv.
  - intros [= <-]. by destruct Hi.
  - destruct (b_main b) eqn:Em; try done; destruct (b_ctx b); intros [= <-]; by apply close_both_inv.
  - destruct (b_timer b) eqn:Et; [|done]. intros [= <-]. destruct (close_both_inv b Hi) as [H1 H2 H3 H4 H5 H6]. by split.
  - destruct (b_main b) eqn:Em; [| |done]; destruct (b_results b) as [|err rest] eqn:Er; try done.
    + destruct (b_ctx b) eqn:Ex; [|destruct err as [e|]]; intros [= <-]; simpl.
      * pose proof (main_inv (close_both b) err rest (Returned (Some ErrCtx)) (close_both_inv _ Hi) Er) as H.
        simpl in H. rewrite andb_false_r, Ex in H. apply H; rewrite ?Em; try done; [by intros n ->; left|eauto].
      * pose proof (main_inv (close_both b) (Some e) rest (Returned (Some e)) (close_both_inv _ Hi) Er) as H.
        simpl in H. rewrite andb_false_r, Ex in H. apply H; rewrite ?Em; try done; [by intros n ->; left|eauto].
      * pose proof (main_inv b None rest WaitSecond Hi Er) as H. rewrite andb_true_r, Ex in H.
        apply H; rewrite ?Em; try done. by intros n ->.
    + intros [= <-]. simpl.
      pose proof (main_inv (close_both b) err rest (Returned (if b_timedOut b then Some ErrDrainTimeout else err)) (close_both_inv _ Hi) Er) as H.
      simpl in H. rewrite andb_false_r in H. apply H; rewrite ?Em; try done.
      * intros n ->. destruct (b_timedOut b), err; simpl; tauto.
      * intros e ->. destruct (b_timedOut b); eauto.
Qed.

Lemma brun_inv evs b b' : binv b → brun b evs = Some b' → binv b'.
Proof.
  revert b. induction evs as [|ev evs IH]; intros b Hi H; simpl in H; [by injection H as <-|].
  apply bind_Some in H as (b1 & Ha & H). eapply IH; [|done]. by eapply bapply_inv.
Qed.

(** A return without an error: both directions were copied completely. *)
Lemma binv_returned b : binv b → b_main b = Returned None → ∀ d, copied b d.
Proof.
  intros Hi Hm d. destruct (b_done b d) eqn:Ed; [|by apply (bi_running _ Hi)].
  destruct (bi_done _ Hi d Ed) as [?|[Hin|[e He]]]; [done| |congruence].
  destruct (bi_count _ Hi) as (n & Hn & Hc). rewrite Hm in Hn. simpl in Hn. subst.
  apply list_elem_of_lookup_1 in Hin as [i Hin]. apply lookup_lt_Some in Hin. unfold count_done in Hc.
  destruct (b_done b Fwd), (b_done b Bwd); simpl in Hc; lia.
Qed.

(** * After the end *)

(** Nothing is read from, written to or half closed on a connection that is closed. *)
Lemma bapply_closed b ev b' :
  (∀ d, bc_closed (b_conn b d) = true) → bapply b ev = Some b' → ∀ d, b_conn b' d = b_conn b d.
Proof.
  intros Hc. assert (∀ d, close_conn (b_conn b d) = b_conn b d) as Hcc.
  { intros d. specialize (Hc d). destruct (b_conn b d). simpl in *. by subst. }
  destruct ev as [d p w|d cw|d| | | |]; simpl; rewrite ?Hc, ?orb_true_r; try done.
  - destruct (b_done b d); [done|]. by intros [= <-].
  - by intros [= <-].
  - destruct (b_main b); try done; destruct (b_ctx b); intros [= <-]; simpl; done.
  - destruct (b_timer b); [|done]. intros [= <-]. simpl. done.
  - destruct (b_main b); [| |done]; destruct (b_results b) as [|err rest]; try done; [|by intros [= <-]].
    destruct (b_ctx b); [|destruct err]; intros [= <-]; done.
Qed.

Lemma brun_closed evs b b' :
  (∀ d, bc_closed (b_conn b d) = true) → brun b evs = Some b' → ∀ d, b_conn b' d = b_conn b d.
Proof.
  revert b. induction evs as [|ev evs IH]; intros b Hc H; simpl in H; [by injection H as <-|].
  apply bind_Some in H as (b1 & Ha & H). pose proof (bapply_closed _ _ _ Hc Ha) as Hb. intros d.
  rewrite (IH b1); [apply Hb| |done]. intros d'. rewrite Hb. apply Hc.
Qed.

(** * Properties *)

(** C8: The bridge copies faithfully. In every interleaving, what was written to
    one side is a prefix of what was read from the other, and all of it as long
    as that pump runs; when [Bridge] returns without an error, both sides are
    closed and everything that was read had been written, in both directions. *)
Theorem bridge_copies drain evs b :
  brun (new_bridge drain) evs = Some b →
  ∀ d, bc_written (b_conn b (flip d)) `prefix_of` bc_read (b_conn b d) ∧
    (b_done b d = false → bc_written (b_conn b (flip d)) = bc_read (b_conn b d)) ∧
    (b_main b = Returned None →
       bc_written (b_conn b (flip d)) = bc_read (b_conn b d) ∧ bc_closed (b_conn b d) = true).
Proof.
  intros Hr d. pose proof (brun_inv _ _ _ (new_bridge_inv drain) Hr) as Hi.
  split; [apply bi_prefix, Hi|]. split; [apply bi_running, Hi|]. intros Hm.
  split; [by apply binv_returned|by eapply bi_closed].
Qed.

(** Returning is final. Once [Bridge] has returned, both connections are
    closed and no later step of a pump moves a byte. *)
Theorem return_closes drain evs evs' b b' e :
  brun (new_bridge drain) evs = Some b → b_main b = Returned e → brun b evs' = Some b' →
  ∀ d, bc_closed (b_conn b' d) = true ∧ b_conn b' d = b_conn b d.
Proof.
  intros Hr Hm Hr' d. pose proof (brun_inv _ _ _ (new_bridge_inv drain) Hr) as Hi.
  assert (∀ d, bc_closed (b_conn b d) = true) as Hc by (intros; by eapply bi_closed).
  rewrite (brun_closed _ _ _ Hc Hr' d). done.
Qed.

(** The step a pump can always take, if it has not finished. *)
Definition end_pump (b : bridge) (d : dir) : list bevent := if b_done b d then [] else [BReadErr d].

(** The bridge always can return. Whatever has happened, once both connections
    are closed (by the cancellation, the drain timer or the peers) at most four
    more steps, the ends of the pumps and the receives of the main goroutine,
    bring [Bridge] to its return; and a cancelled context or an expired timer
    closes both. *)
Theorem bridge_terminates drain evs b :
  brun (new_bridge drain) evs = Some b → (∀ e, b_main b ≠ Returned e) →
  (∃ evs' b' e, (length evs' ≤ 4)%nat ∧ brun b evs' = Some b' ∧ b_main b' = Returned e) ∧
  (b_ctx b = true → ∃ b', bapply b BCtxClose = Some b' ∧ ∀ d, bc_closed (b_conn b' d) = true) ∧
  (b_timer b = true → ∃ b', bapply b BTimer = Some b' ∧ ∀ d, bc_closed (b_conn b' d) = true).
Proof.
  intros Hr Hm. pose proof (brun_inv _ _ _ (new_bridge_inv drain) Hr) as Hi. split_and!.
  - destruct (bi_count _ Hi) as (n & Hn & Hc). unfold count_done in Hc.
    assert (∀ b1 : bridge, b_done b1 Fwd = true → b_done b1 Bwd = true → (∀ e, b_main b1 ≠ Returned e) → binv b1 →
      ∃ evs' b' e, (length evs' ≤ 2)%nat ∧ brun b1 evs' = Some b' ∧ b_main b' = Returned e) as Hend.
    { clear. intros b1 H1 H2 Hm Hi. destruct (bi_count _ Hi) as (n & Hn & Hc). unfold count_done in Hc. rewrite H1, H2 in Hc.
      destruct (b_main b1) as [| |e] eqn:Em; simpl in Hn; subst; [| |by destruct (Hm e)].
      - destruct (b_results b1) as [|r1 [|r2 []]] eqn:Er; try (simpl in Hc; lia). destruct (b_ctx b1) eqn:Ex.
        + eexists [BMain], _, _. split; [simpl; lia|]. simpl. rewrite Em, Er, Ex. done.
        + destruct r1 as [e|].
          * eexists [BMain], _, _. split; [simpl; lia|]. simpl. rewrite Em, Er, Ex. done.
          * eexists [BMain; BMain], _, _. split; [simpl; lia|]. simpl. rewrite Em, Er, Ex. simpl. done.
      - destruct (b_results b1) as [|r1 []] eqn:Er; try (simpl in Hc; lia).
        eexists [BMain], _, _. split; [simpl; lia|]. simpl. rewrite Em, Er. done. }
    assert (∀ b1 d, binv b1 → (∀ e, b_main b1 ≠ Returned e) → ∃ b2, brun b1 (end_pump b1 d) = Some b2 ∧ b_done b2 d = true ∧
      (∀ d', b_done b1 d' = true → b_done b2 d' = true) ∧ (∀ e, b_main b2 ≠ Returned e) ∧ binv b2) as Hp.
    { clear. intros b1 d Hi Hm. unfold end_pump. destruct (b_done b1 d) eqn:Ed; [by exists b1|]. simpl. rewrite Ed. simpl.
      eexists. split; [done|]. simpl. rewrite upd_fun_eq. split_and!; [done| |done|by apply finish_inv].
      intros d' Hd'. unfold upd_fun. by destruct (decide _). }
    destruct (Hp b Fwd Hi Hm) as (b1 & Hb1 & Hf1 & _ & Hm1 & Hi1). destruct (Hp b1 Bwd Hi1 Hm1) as (b2 & Hb2 & Hf2 & Hk & Hm2 & Hi2).
    destruct (Hend b2 (Hk _ Hf1) Hf2 Hm2 Hi2) as (evs' & b' & e & Hl & Hb' & He).
    assert (∀ l1 l2 x y z, brun x l1 = Some y → brun y l2 = Some z → brun x (l1 ++ l2) = Some z) as Happ.
    { clear. induction l1 as [|ev l1 IH]; intros l2 x y z H1 H2; simpl in *; [by simplify_eq|].
      apply bind_Some in H1 as (w & -> & H1). simpl. by eapply IH. }
    exists (end_pump b Fwd ++ end_pump b1 Bwd ++ evs'), b', e. split_and!; [|by eauto|done].
    rewrite !length_app. assert (∀ b d, (length (end_pump b d) ≤ 1)%nat) as H1 by (intros b0 d0; unfold end_pump; destruct (b_done b0 d0); simpl; lia).
    pose proof (H1 b Fwd). pose proof (H1 b1 Bwd). lia.
  - intros Hx. simpl. destruct (b_main b) as [| |e] eqn:Em; [| |by destruct (Hm e)]; rewrite Hx; eexists; done.
  - intros Ht. simpl. rewrite Ht. eexists. done.
Qed.

(** A cancellation after the first end of input is not reported. [ctx.Err()]
    is looked at once, after the first result; when the context is cancelled
    while the second direction drains, [Bridge] returns that pump's read error. *)
Theorem late_cancel_not_reported :
  b_main <$> brun (new_bridge true) [BEOF Fwd CwOk; BMain; BCancel; BCtxClose; BReadErr Bwd; BMain]
    = Some (Returned (Some (ErrPump Bwd))) ∧
  b_main <$> brun (new_bridge true) [BCancel; BCtxClose; BReadErr Bwd; BMain] = Some (Returned (Some ErrCtx)).
Proof. vm_compute. done. Qed.

(** The other direction goes on without ending. *)
Definition quiet (ev : bevent) : Prop :=
  match ev with BCopy Bwd _ WOk | BMain => True | _ => False end.

(** Where half close is not supported, the end of the input is not passed on.
    The destination is neither closed for writing nor closed, however long the
    other direction goes on: it is not told that no more data comes before that
    direction ends, an error or the drain timer. *)
Theorem unsupported_half_close drain b evs b' :
  bapply (new_bridge drain) (BEOF Fwd CwUnsupported) = Some b → Forall quiet evs → brun b evs = Some b' →
  bc_cw (b_conn b' Bwd) = 0%nat ∧ bc_closed (b_conn b' Bwd) = false ∧ ∀ e, b_main b' ≠ Returned e.
Proof.
  intros Hb Hq Hr.
  assert (∀ b, b_done b Bwd = false ∧ b_ctx b = false ∧ (b_main b = WaitFirst ∧ b_results b = [None] ∨ b_main b = WaitSecond ∧ b_results b = []) ∧
    bc_cw (b_conn b Bwd) = 0%nat ∧ bc_closed (b_conn b Bwd) = false → brun b evs = Some b' →
    bc_cw (b_conn b' Bwd) = 0%nat ∧ bc_closed (b_conn b' Bwd) = false ∧ ∀ e, b_main b' ≠ Returned e) as Hgen.
  { clear Hb Hr b. induction Hq as [|ev evs Hev _ IH]; intros b (Hd & Hx & Hm & H1 & H2) Hr; simpl in Hr.
    { injection Hr as <-. split_and!; try done. intros e. destruct Hm as [[-> _]|[-> _]]; done. }
    apply bind_Some in Hr as (b1 & Ha & Hr). eapply IH; [|exact Hr]. destruct ev as [[] p []|d cw|d| | | |]; try done; simpl in Ha.
    - rewrite Hd, H2 in Ha. simpl in Ha. case_bool_decide; [done|]. unfold upd_fun in Ha. simpl in Ha.
      destruct (bc_closed _) in Ha; [done|]. injection Ha as <-. simpl. unfold upd_fun. simpl. by split_and!.
    - destruct Hm as [[Hm Hr']|[Hm Hr']]; rewrite Hm, Hr', ?Hx in Ha; [|done]. injection Ha as <-. simpl. split_and!; try done. by right. }
  eapply Hgen; [|exact Hr]. simpl in Hb. injection Hb as <-. simpl. split_and!; try done. by left.
Qed.

(** * Witnesses *)

Definition demo_evs : list bevent :=
  [BCopy Fwd [x61; x62] WOk; BEOF Fwd CwOk; BMain; BCopy Bwd [x63] WOk; BEOF Bwd CwUnsupported; BMain].

Definition demo_bridge : bridge := default (new_bridge true) (brun (new_bridge true) demo_evs).

Lemma demo_bridge_run : brun (new_bridge true) demo_evs = Some demo_bridge.
Proof.
  assert (match brun (new_bridge true) demo_evs with Some _ => true | None => false end = true) as H by (vm_compute; reflexivity).
  unfold demo_bridge. by destruct (brun (new_bridge true) demo_evs).
Qed.

Lemma bridge_copies_witness :
  b_main demo_bridge = Returned None ∧ bc_written (b_conn demo_bridge Bwd) = [x61; x62] ∧
  bc_written (b_conn demo_bridge Bwd) = bc_read (b_conn demo_bridge Fwd).
Proof.
  assert (b_main demo_bridge = Returned None) as Hm by (vm_compute; reflexivity).
  split; [exact Hm|]. split; [vm_compute; reflexivity|].
  exact (proj1 (proj2 (proj2 (bridge_copies true demo_evs demo_bridge demo_bridge_run Fwd)) Hm)).
Defined.

Lemma return_closes_witness : ∀ d, bc_closed (b_conn demo_bridge d) = true ∧ b_conn demo_bridge d = b_conn demo_bridge d.
Proof.
  assert (b_main demo_bridge = Returned None) as Hm by (vm_compute; reflexivity).
  exact (return_closes true demo_evs [] demo_bridge demo_bridge None demo_bridge_run Hm eq_refl).
Defined.

Lemma bridge_terminates_witness :
  ∃ evs' b' e, (length evs' ≤ 4)%nat ∧ brun (new_bridge true) evs' = Some b' ∧ b_main b' = Returned e.
Proof.
  refine (proj1 (bridge_terminates true [] (new_bridge true) eq_refl _)). intros e. discriminate.
Defined.

Lemma unsupported_half_close_witness :
  let b := finish Fwd None (new_bridge true) in
  bc_cw (b_conn b Bwd) = 0%nat ∧ bc_closed (b_conn b Bwd) = false ∧ ∀ e, b_main b ≠ Returned e.
Proof.
  intros b. apply (unsupported_half_close true b [] b); [reflexivity|constructor|reflexivity].
Defined.
