(* ===== verification/BridgeEnd.v ===== *)
(** A star stream at one end of a bridge (protocol/star/adapter.go under
    internal/bridge/bridge.go): what deliveries add to a stream, the pump that reads
    it, and the invariant of a bridge over it. The chain gateway ([Ingress]) and the
    far end of a chained connection ([Chain]) are two such ends, one on each side
    of the bridge. *)
From S2P Require Import Prelude Message Adapter Bridge.
From Stdlib Require Import ZArith Lia.

(** * The pump that reads the stream *)

(** A step of the bridge, or the end of a pump that still found something queued
    in the stream after both connections were closed. *)
Inductive bridge_part := BStep (ev : bevent) | BLate (err : option bridge_err).

(** The pump [d] reads [n] bytes from its stream and writes them; at the end of the
    stream it half-closes the other side. A closed stream still gives what it has
    queued; the write to the other side, closed at the same time, then fails.
    [Bridge]'s buffer is one chunk long. *)
Definition read_stream (d : dir) (n : nat) (w : write_result) (cw : cw_result) (b : bridge) (sc : StreamConn)
    : option (bridge_part * StreamConn) :=
  if bool_decide (n = 0 ∨ writeChunk < n)%nat then None
  else
    let '(sc, r) := Read sc n in
    let late := bc_closed (b_conn b d) in
    match r with
    | ReadData p => Some (if late then BLate (Some (ErrPump d)) else BStep (BCopy d p w), sc)
    | ReadEnd CauseEOF =>
        Some (if late then BLate (match cw with CwUnsupported => None | _ => Some (ErrPumpCloseWrite d) end)
              else BStep (BEOF d cw), sc)
    | ReadEnd CauseClosed => Some (BStep (BReadErr d), sc)
    | ReadBlocks => None
    end.

(** The steps that close both connections. *)
Definition closing (ev : bevent) (b' : bridge) : bool :=
  match ev with
  | BTimer => true
  | BMain => match b_main b' with Returned _ => true | _ => false end
  | _ => false
  end.

(** A part of the pump [d] on the bridge; whether it closes the stream. *)
Definition part_step (d : dir) (part : bridge_part) (b : bridge) : option (bridge * bool) :=
  match part with
  | BLate err => if b_done b d then None else Some (finish d err b, false)
  | BStep ev => b' ← bapply b ev; Some (b', closing ev b')
  end.

(** * What deliveries do to a stream *)

(** [sc'] is [sc] with at most [inc] more to read; all of [inc] unless it is closed
    or has seen its end. *)
Record held (inc : list byte) (sc sc' : StreamConn) : Prop := {
  hd_id : sc_connID sc' = sc_connID sc;
  hd_closed : isClosed sc' = false → isClosed sc = false;
  hd_end : (content sc').2 = false → (content sc).2 = false;
  hd_more : ∃ x, (content sc').1 = (content sc).1 ++ x ∧ x `prefix_of` inc ∧
              (isClosed sc' = false → (content sc').2 = false → x = inc) ∧ ((content sc).2 = true → x = []);
}.

#[export] Instance held_refl : Reflexive (held []).
Proof. intros sc. split; try done. exists []. by rewrite app_nil_r. Qed.

#[export] Instance held_trans : Transitive (held []).
Proof.
  intros a b c [H1 H2 H3 (x & Hx & Hp & _ & _)] [K1 K2 K3 (y & Hy & Hq & _ & _)].
  apply prefix_nil_inv in Hp as ->. apply prefix_nil_inv in Hq as ->. rewrite !app_nil_r in *.
  split; [congruence|auto..|]. exists []. rewrite app_nil_r. split_and!; [congruence|done..].
Qed.

Lemma markClosed_held e sc : held [] sc (markClosed e sc).
Proof.
  unfold markClosed. destruct (sc_closed sc) as [x|] eqn:Ec; [done|].
  split; [done| |done|exists []; by rewrite app_nil_r].
  unfold isClosed. rewrite Ec. intros _. by rewrite bool_decide_false by (intros []; done).
Qed.

Lemma markClosed_isClosed e sc : isClosed (markClosed e sc) = true.
Proof. unfold markClosed. destruct (sc_closed sc) eqn:E; unfold isClosed; simpl; by rewrite ?E. Qed.

(** Every stream of a map is closed, as at the end of a session. *)
Lemma mark_all_held (l : list (Z * nat)) (h : list StreamConn) loc sc :
  h !! loc = Some sc → ∃ sc', foldl (λ h x, alter (markClosed CauseEOF) x.2 h) h l !! loc = Some sc' ∧ held [] sc sc'.
Proof.
  revert h sc. induction l as [|[id x] l IH]; intros h sc Hsc; simpl; [by exists sc|].
  destruct (decide (x = loc)) as [->|Hne].
  - destruct (IH (alter (markClosed CauseEOF) loc h) (markClosed CauseEOF sc)) as (sc' & H1 & H2).
    { by rewrite list_lookup_alter_eq, Hsc. }
    exists sc'. split; [done|]. etrans; [apply markClosed_held|exact H2].
  - apply IH. by rewrite list_lookup_alter_ne.
Qed.

Lemma content_push_end sc it : (content sc).2 = true → content (push sc it) = content sc.
Proof.
  unfold content, push. simpl. destruct (sc_readEOF sc); [done|].
  assert (∀ f, (feed_content f).2 = true → feed_content (f ++ [it]) = feed_content f) as Hf.
  { induction f as [|i f IH]; simpl; [done|]. destruct (fi_full i || fi_half i); [done|].
    destruct (feed_content f); simpl in *. intros Hb. by rewrite IH. }
  specialize (Hf (sc_feed sc)). destruct (feed_content (sc_feed sc)); simpl in *. intros Hb. by rewrite Hf.
Qed.

(** What an item brings. *)
Definition item_data (it : feedItem) : list byte := if fi_full it || fi_half it then [] else fi_data it.

Lemma push_held sc it : held (item_data it) sc (push sc it).
Proof.
  unfold item_data. destruct (content sc).2 eqn:He.
  - pose proof (content_push_end sc it He) as Hp. split; [done|done|by rewrite Hp|].
    rewrite Hp. exists []. rewrite app_nil_r. split_and!; [done|apply prefix_nil|congruence|done].
  - pose proof (content_push sc it He) as Hp. split; [done|done|done|]. rewrite Hp.
    destruct (fi_full it || fi_half it); simpl; [exists []; by rewrite app_nil_r|exists (fi_data it); split_and!; [done..|congruence]].
Qed.

Lemma deliver_held pick sc it sc' : deliver pick sc it = Some sc' → held (item_data it) sc sc'.
Proof.
  unfold deliver. destruct (bool_decide _ && _) eqn:Eb.
  - intros [= <-]. apply push_held.
  - destruct (isClosed sc) eqn:Ec; [|done]. intros [= <-]. split; [done|done|done|].
    exists []. rewrite app_nil_r. split_and!; [done|apply prefix_nil|congruence|done].
Qed.

Lemma deliver_closed pick sc it sc' : deliver pick sc it = Some sc' → isClosed sc' = isClosed sc.
Proof. unfold deliver. destruct (_ && _); [by intros [= <-]|]. destruct (isClosed sc) eqn:E; [|done]. by intros [= <-]. Qed.

Lemma Read_held sc n :
  (0 < n)%nat →
  let '(sc', r) := Read sc n in
  sc_connID sc' = sc_connID sc ∧ isClosed sc' = isClosed sc ∧ (content sc').2 = (content sc).2 ∧
  match r with
  | ReadData p => p ≠ [] ∧ (content sc).1 = p ++ (content sc').1
  | _ => (content sc').1 = (content sc).1
  end.
Proof.
  intros Hn. pose proof (Read_ok sc n Hn) as H. destruct (Read sc n) as [sc' r]. unfold read_ok in H. cbn [fst snd] in H.
  destruct H as (H1 & H2 & _ & H4). split; [done|]. split; [unfold isClosed; by rewrite H2|]. destruct r as [p|e|].
  - destruct H4 as (Hp & _ & _ & ->). done.
  - by destruct H4 as (-> & _).
  - destruct H4 as (-> & -> & _). done.
Qed.

(** * What a step does to one side of the bridge *)

(** The pump [d] reads the side, the other one writes it. *)
Record side_step (d : dir) (rd wr : list byte) (closes : bool) (b b' : bridge) : Prop := {
  ss_read : bc_read (b_conn b' d) = bc_read (b_conn b d) ++ rd;
  ss_written : bc_written (b_conn b' d) = bc_written (b_conn b d) ++ wr;
  ss_closed e : bc_closed (b_conn b' e) = closes || bc_closed (b_conn b e);
}.

Lemma side_step_same d b b' : (∀ e, b_conn b' e = b_conn b e) → side_step d [] [] false b b'.
Proof. intros H. split; intros; rewrite ?H, ?app_nil_r; done. Qed.

(** What an event reads from the side and writes to it; a failing write to a
    stream has written nothing. *)
Definition side_read (d : dir) (ev : bevent) : list byte :=
  match ev with BCopy e p _ => if decide (e = d) then p else [] | _ => [] end.
Definition side_written (d : dir) (ev : bevent) : list byte :=
  match ev with BCopy e p WOk => if decide (e = flip d) then p else [] | _ => [] end.

Lemma bapply_side d b ev b' :
  bapply b ev = Some b' → ev ≠ BCtxClose → (∀ p k, ev = BCopy (flip d) p (WFail k) → k = 0%nat) →
  side_step d (side_read d ev) (side_written d ev) (closing ev b') b b'.
Proof.
  intros Ha Hx Hk. destruct ev as [e p w|e cw|e| | | |]; simpl in Ha; try done; cbn [closing].
  - destruct (_ || _); [done|]. destruct w as [|k].
    + destruct (bc_closed _) eqn:Ec in Ha; [done|]. injection Ha as <-.
      destruct d, e; split; try intros []; simpl in *; unfold upd_fun in *; simpl in *; rewrite ?app_nil_r; congruence.
    + assert (e = flip d → k = 0%nat) as Hk0 by (intros ->; by eapply Hk).
      destruct d, e; try (rewrite (Hk0 eq_refl) in Ha; cbn [Nat.min take] in Ha); injection Ha as <-;
        (destruct (bc_closed _) eqn:Ec; split; try intros []; simpl in *; unfold upd_fun in *; simpl in *; rewrite ?app_nil_r; congruence).
  - destruct (_ || _); [done|]. destruct cw; [destruct (bc_closed _) eqn:Ec in Ha; [done|]|..]; injection Ha as <-.
    + destruct d, e; split; try intros []; simpl in *; unfold upd_fun in *; simpl in *; rewrite ?app_nil_r; congruence.
    + by apply side_step_same.
    + by apply side_step_same.
  - destruct (b_done b e); [done|]. injection Ha as <-. by apply side_step_same.
  - injection Ha as <-. by apply side_step_same.
  - destruct (b_timer b); [|done]. injection Ha as <-. split; intros; simpl; by rewrite ?app_nil_r.
  - destruct (b_main b) eqn:Em; [| |done]; destruct (b_results b) as [|err rest]; try done.
    + destruct (b_ctx b); [|destruct err]; injection Ha as <-; simpl; split; intros; simpl; by rewrite ?app_nil_r.
    + injection Ha as <-. split; intros; simpl; by rewrite ?app_nil_r.
Qed.

(** * A bridge over a stream *)

(** The pump [d] reads the stream [sc], to which [inn] was delivered so far; [gone]:
    nothing will be delivered any more. *)
Record over_stream (d : dir) (inn : list byte) (gone : Prop) (b : bridge) (sc : StreamConn) : Prop := {
  os_inv : binv b;
  os_both : bc_closed (b_conn b Fwd) = bc_closed (b_conn b Bwd);
  os_read : bc_read (b_conn b d) `prefix_of` inn;
  os_open : bc_closed (b_conn b d) = false →
    bc_read (b_conn b d) ++ (content sc).1 `prefix_of` inn ∧
    (isClosed sc = false → (content sc).2 = false → bc_read (b_conn b d) ++ (content sc).1 = inn) ∧
    (isClosed sc = true → gone);
}.

Lemma over_stream_new d drain gone id : over_stream d [] gone (new_bridge drain) (newStreamConn id).
Proof. split; try done. apply new_bridge_inv. Qed.

(** Deliveries and closes by others. *)
Lemma over_stream_grows d inn inc (gone gone' : Prop) b sc sc' :
  over_stream d inn gone b sc → held inc sc sc' → (gone → inc = []) → (gone → gone') →
  (isClosed sc = false → isClosed sc' = true → gone') → over_stream d (inn ++ inc) gone' b sc'.
Proof.
  intros [H1 H2 H3 H4] [K1 K2 K3 (x & Kx & Kp & Ke & Kn)] Hinc Hgg Hg.
  split; [done|done|by apply prefix_app_r|].
  intros Hop. destruct (H4 Hop) as (Hpre & Heq & Hun). rewrite Kx, app_assoc. split_and!.
  - destruct (isClosed sc) eqn:Ec.
    { rewrite Hinc in Kp by by apply Hun. apply prefix_nil_inv in Kp as ->. rewrite app_nil_r. by apply prefix_app_r. }
    destruct (content sc).2 eqn:Ee; [rewrite Kn, app_nil_r by done; by apply prefix_app_r|].
    rewrite Heq by done. by apply prefix_app.
  - intros Hc He. rewrite Heq by auto. by rewrite Ke.
  - intros Hc. destruct (isClosed sc) eqn:Ec; [by apply Hgg, Hun|by apply Hg].
Qed.

Lemma side_both d rd wr cl b b' :
  side_step d rd wr cl b b' → bc_closed (b_conn b Fwd) = bc_closed (b_conn b Bwd) →
  bc_closed (b_conn b' Fwd) = bc_closed (b_conn b' Bwd).
Proof. intros [_ _ H] Hb. by rewrite !H, Hb. Qed.

(** A step that does not read the stream, whatever it writes to it. *)
Lemma over_stream_quiet d inn gone wr b b' sc :
  over_stream d inn gone b sc → binv b' → side_step d [] wr false b b' → over_stream d inn gone b' sc.
Proof.
  intros [H1 H2 H3 H4] Hi Hs. pose proof (side_both _ _ _ _ _ _ Hs H2). destruct Hs as [Sr Sw Sc].
  rewrite app_nil_r in Sr. split; rewrite ?Sr; try done. rewrite Sc. apply H4.
Qed.

(** Once both connections are closed, only what was read matters. *)
Lemma over_stream_shut d inn (gone gone' : Prop) b b' sc sc' :
  over_stream d inn gone b sc → binv b' → (∀ e, bc_closed (b_conn b' e) = true) →
  bc_read (b_conn b' d) = bc_read (b_conn b d) → over_stream d inn gone' b' sc'.
Proof. intros [H1 H2 H3 H4] Hi Hc Sr. split; rewrite ?Sr, ?Hc; done. Qed.

(** The stream changes in what the bridge does not see. *)
Lemma over_stream_same d inn gone b sc sc' :
  over_stream d inn gone b sc → isClosed sc' = isClosed sc → content sc' = content sc → over_stream d inn gone b sc'.
Proof. intros [H1 H2 H3 H4] Hc Hk. split; rewrite ?Hc, ?Hk; done. Qed.

(** The pump that reads the stream. *)
Lemma over_stream_read d inn gone n w cw b sc part sc' b' cl :
  over_stream d inn gone b sc → read_stream d n w cw b sc = Some (part, sc') → part_step d part b = Some (b', cl) →
  over_stream d inn gone b' sc' ∧ cl = false ∧ sc_connID sc' = sc_connID sc ∧
  bc_written (b_conn b' d) = bc_written (b_conn b d).
Proof.
  intros Hb Hr Hp. unfold read_stream in Hr. case_bool_decide as Hn; [done|].
  pose proof (Read_held sc n ltac:(lia)) as H. destruct (Read sc n) as [sc1 r]. destruct H as (Rid & Rc & Re & Rd).
  assert (∀ err, Some (BLate err, sc1) = Some (part, sc') → bc_closed (b_conn b d) = true →
    over_stream d inn gone b' sc' ∧ cl = false ∧ sc_connID sc' = sc_connID sc ∧
    bc_written (b_conn b' d) = bc_written (b_conn b d)) as Hlate.
  { intros err [= <- <-] Hcl. simpl in Hp. destruct (b_done b d) eqn:Hd; [done|]. injection Hp as <- <-.
    split_and!; try done. eapply (over_stream_shut _ _ _ _ b); try done; [by apply finish_inv; [apply Hb|]|].
    pose proof (os_both _ _ _ _ _ Hb). intros e. simpl. by destruct d, e; congruence. }
  assert (∀ ev, Some (BStep ev, sc1) = Some (part, sc') → side_written d ev = [] → (∀ p k, ev ≠ BCopy (flip d) p (WFail k)) →
    ev ≠ BCtxClose → ev ≠ BTimer → ev ≠ BMain →
    ((content sc).1 = side_read d ev ++ (content sc1).1) →
    (side_read d ev ≠ [] → bc_closed (b_conn b d) = false) →
    over_stream d inn gone b' sc' ∧ cl = false ∧ sc_connID sc' = sc_connID sc ∧
    bc_written (b_conn b' d) = bc_written (b_conn b d)) as Hev.
  { intros ev [= <- <-] Hw Hk Hx Ht Hm Hc Ho. simpl in Hp. apply bind_Some in Hp as (b1 & Ha & [= <- <-]).
    pose proof (bapply_side d _ _ _ Ha Hx ltac:(by intros p k E; destruct (Hk p k))) as Hs. rewrite Hw in Hs.
    assert (closing ev b1 = false) as Hcl by by destruct ev. rewrite Hcl in *.
    assert (binv b1) as Hi by (eapply bapply_inv; [apply Hb|done]).
    pose proof (side_both _ _ _ _ _ _ Hs (os_both _ _ _ _ _ Hb)) as Hbb.
    destruct Hb as [H1 H2 H3 H4], Hs as [Sr Sw Sc]. rewrite app_nil_r in Sw. split_and!; try done.
    split; [done|done| |].
    - rewrite Sr. destruct (decide (side_read d ev = [])) as [->|Hne]; [by rewrite app_nil_r|].
      destruct (H4 (Ho Hne)) as (Hpre & _). rewrite Hc, app_assoc in Hpre. by eapply prefix_app_l.
    - rewrite Sc, Sr, Rc, Re. simpl. intros Hop. destruct (H4 Hop) as (Hpre & Heq & Hun). rewrite Hc, app_assoc in Hpre, Heq.
      done. }
  destruct r as [p|[]|]; [| | |done].
  - destruct Rd as [Hpn Rd]. destruct (bc_closed (b_conn b d)) eqn:Hcl; [by eapply Hlate|].
    eapply Hev; [exact Hr|..]; try done.
    + simpl. destruct w; [|done]. rewrite decide_False; [done|by destruct d].
    + intros q k [= E _ _]. by destruct d.
    + simpl. by rewrite decide_True.
  - destruct (bc_closed (b_conn b d)) eqn:Hcl; [by eapply Hlate|]. by eapply Hev; [exact Hr|..].
  - by eapply Hev; [exact Hr|..].
Qed.

(** The stream is closed by the step: its timer or its return. *)
Lemma over_stream_close d inn (gone gone' : Prop) b ev b' sc sc' :
  over_stream d inn gone b sc → bapply b ev = Some b' → ev = BTimer ∨ ev = BMain → closing ev b' = true →
  over_stream d inn gone' b' sc' ∧ bc_written (b_conn b' d) = bc_written (b_conn b d).
Proof.
  intros Hb Ha Hev Hcl. pose proof (bapply_side d _ _ _ Ha ltac:(by destruct Hev; subst) ltac:(by destruct Hev; subst)) as [Sr Sw Sc].
  assert (side_read d ev = [] ∧ side_written d ev = []) as [E1 E2] by by destruct Hev; subst.
  rewrite E1, app_nil_r in Sr. rewrite E2, app_nil_r in Sw. split; [|done].
  eapply over_stream_shut; [done| | |done]; [eapply bapply_inv; [apply Hb|done]|]. intros e. by rewrite Sc, Hcl.
Qed.
