(* ===== verification/Socks5.v ===== *)
(** The socks5 plugin (internal/star/plugin/socks5): reading addresses and
    requests (request.go), method negotiation and authentication (auth.go), rule
    sets and credentials (ruleset.go, credentials.go), the server (server.go,
    socks5.go, setup.go), and the relay between the client and its target.

    [context.Context] values are handed through unchanged by every rule set and
    resolver of the repository and are left out. Name resolution and dialing are
    the system's; they are parameters. *)
From S2P Require Import Prelude.
From Stdlib Require Import ZArith Lia.

(** * Addresses *)

Definition ConnectCommand : Z := 1.
Definition BindCommand : Z := 2.
Definition AssociateCommand : Z := 3.
Definition ipv4Address : Z := 1.
Definition fqdnAddress : Z := 3.
Definition ipv6Address : Z := 4.

Definition successReply : Z := 0.
Definition serverFailure : Z := 1.
Definition ruleFailure : Z := 2.
Definition networkUnreachable : Z := 3.
Definition hostUnreachable : Z := 4.
Definition connectionRefused : Z := 5.
Definition ttlExpired : Z := 6.
Definition commandNotSupported : Z := 7.
Definition addrTypeNotSupported : Z := 8.

Definition socks5Version : Z := 5.

Record AddrSpec := mkAddrSpec {
  FQDN : string;
  IP : list byte;
  Port : Z;
}.

(** Package net: [IP.To4] and [IP.To16]. *)
Definition v4InV6Prefix : list byte := replicate 10 x00 ++ [xff; xff].

Definition To4 (ip : list byte) : option (list byte) :=
  if decide (length ip = 4)%nat then Some ip
  else if decide (length ip = 16 ∧ take 12 ip = v4InV6Prefix)%nat then Some (drop 12 ip)
  else None.

Definition To16 (ip : list byte) : option (list byte) :=
  if decide (length ip = 4)%nat then Some (v4InV6Prefix ++ ip)
  else if decide (length ip = 16)%nat then Some ip
  else None.

Definition hex_digit (n : Z) : string :=
  match String.get (Z.to_nat n) "0123456789abcdef" with Some a => String a EmptyString | None => EmptyString end.

(** A 16-bit group in hexadecimal, without leading zeros. *)
Definition hex_group (x : Z) : string :=
  (if 4096 <=? x then hex_digit (Z.shiftr x 12) else "") +:+
  (if 256 <=? x then hex_digit (Z.land (Z.shiftr x 8) 15) else "") +:+
  (if 16 <=? x then hex_digit (Z.land (Z.shiftr x 4) 15) else "") +:+
  hex_digit (Z.land x 15).

Fixpoint groups (ip : list byte) : list Z :=
  match ip with a :: b :: ip => be_get [a; b] :: groups ip | _ => [] end.

Fixpoint zero_run (gs : list Z) : nat :=
  match gs with g :: gs => if g =? 0 then S (zero_run gs) else O | [] => O end.

(** The first longest run of at least two zero groups: its start and length. *)
Fixpoint longest_run (i : nat) (gs : list Z) (best : nat * nat) : nat * nat :=
  match gs with
  | [] => best
  | _ :: gs' =>
      let l := zero_run gs in
      longest_run (S i) gs' (if Nat.leb 2 l && Nat.ltb best.2 l then (i, l) else best)
  end.

Definition join_groups (gs : list Z) : string := String.concat ":" (hex_group <$> gs).

Definition ip6_string (ip : list byte) : string :=
  let gs := groups ip in
  let '(start, len) := longest_run 0 gs (O, O) in
  if Nat.eqb len 0 then join_groups gs
  else join_groups (take start gs) +:+ "::" +:+ join_groups (drop (start + len) gs).

(** [IP.String]. *)
Definition ip_string (ip : list byte) : string :=
  if Nat.eqb (length ip) 0 then "<nil>"
  else match To4 ip with
  | Some ip4 => String.concat "." ((λ b, pretty (b2z b)) <$> ip4)
  | None =>
      if Nat.eqb (length ip) 16 then ip6_string ip
      else "?" +:+ String.concat "" ((λ b, hex_digit (Z.shiftr (b2z b) 4) +:+ hex_digit (Z.land (b2z b) 15)) <$> ip)
  end.

(** [net.JoinHostPort]: a host with a colon is put in brackets. *)
Definition JoinHostPort (host port : string) : string :=
  match String.index 0 ":" host with
  | Some _ => "[" +:+ host +:+ "]:" +:+ port
  | None => host +:+ ":" +:+ port
  end.

Definition AddrSpec_String (a : AddrSpec) : string :=
  if decide (FQDN a ≠ "") then FQDN a +:+ " (" +:+ ip_string (IP a) +:+ "):" +:+ pretty (Port a)
  else ip_string (IP a) +:+ ":" +:+ pretty (Port a).

Definition Address (a : AddrSpec) : string :=
  if Nat.eqb (length (IP a)) 0 then JoinHostPort (FQDN a) (pretty (Port a))
  else JoinHostPort (ip_string (IP a)) (pretty (Port a)).

(** * The connection *)

Inductive sk_err :=
  | SkIO (e : io_err)
  | SkWrite
  | SkFormat
  | SkVersion (v : Z)
  | SkAuthVersion (v : Z)
  | SkCommandVersion (v : Z)
  | SkCommand (c : Z)
  | UserAuthFailed
  | NoSupportedAuth
  | unrecognizedAddrType
  | SkResolve (msg : string)
  | SkBlocked
  | SkDial (msg : string)
  | SkWrapped (what : string) (e : sk_err).

(** The client's connection: what is left to read (in the [bufio.Reader] and
    behind it), the writes that succeeded, the number of writes attempted; and
    the addresses dialed on its behalf. *)
Record sock := mkSock {
  sk_in : list byte;
  sk_out : list (list byte);
  sk_writes : nat;
  sk_dials : list string;
}.

(** What every operation is: a function of the connection that may fail. *)
Definition sockM (A : Type) : Type := sock → sock * result sk_err A.
#[export] Instance sockM_ret : MRet sockM := λ A a s, (s, Ok a).
#[export] Instance sockM_bind : MBind sockM := λ A B k m s,
  match m s with (s, Ok a) => k a s | (s, Err e) => (s, Err e) end.
Definition fail {A} (e : sk_err) : sockM A := λ s, (s, Err e).
Definition wrap {A} (what : string) (m : sockM A) : sockM A := λ s,
  match m s with (s, Ok a) => (s, Ok a) | (s, Err e) => (s, Err (SkWrapped what e)) end.

(** [io.ReadAtLeast] of a whole buffer. A [Read] into a one-byte buffer is the
    case of one byte. *)
Definition read (n : nat) : sockM (list byte) := λ s,
  match read_full n (sk_in s) with
  | Ok (p, r) => (mkSock r (sk_out s) (sk_writes s) (sk_dials s), Ok p)
  | Err e =>
      (mkSock [] (sk_out s) (sk_writes s) (sk_dials s), Err (SkIO e))
  end.

(** * Requests *)

Definition UserPassAuth : Z := 2.
Definition NoAuth : Z := 0.
Definition noAcceptable : Z := 255.
Definition userAuthVersion : Z := 1.
Definition authSuccess : Z := 0.
Definition authFailure : Z := 1.

Record AuthContext := mkAuthContext { Method : Z; Payload : gmap string string }.

Record Request := mkRequest {
  Version : Z;
  Command : Z;
  ReqAuth : option AuthContext;
  RemoteAddr : option AddrSpec;
  DestAddr : AddrSpec;
  realDestAddr : option AddrSpec;
}.

Definition byte_at (p : list byte) (i : nat) : Z := b2z (nth i p x00).

Definition readAddrSpec : sockM AddrSpec :=
  addrType ← read 1;
  '(fqdn, ip) ←
    (if byte_at addrType 0 =? ipv4Address then addr ← read 4; mret (EmptyString, addr)
     else if byte_at addrType 0 =? ipv6Address then addr ← read 16; mret (EmptyString, addr)
     else if byte_at addrType 0 =? fqdnAddress then
       len ← read 1;
       fqdn ← read (Z.to_nat (byte_at len 0));
       mret (String.string_of_list_byte fqdn, [])
     else fail unrecognizedAddrType);
  port ← read 2;
  mret (mkAddrSpec fqdn ip (Z.lor (Z.shiftl (byte_at port 0) 8) (byte_at port 1))).

Definition NewRequest : sockM Request :=
  header ← wrap "Failed to get command version" (read 3);
  if negb (byte_at header 0 =? socks5Version) then fail (SkCommandVersion (byte_at header 0))
  else
    dest ← readAddrSpec;
    mret (mkRequest socks5Version (byte_at header 1) None None dest None).

(** The bytes of a reply; [None] when the address cannot be formatted. *)
Definition reply_bytes (resp : Z) (addr : option AddrSpec) : option (list byte) :=
  let format addrType addrBody addrPort :=
    Some ([z2b socks5Version; z2b resp; x00; z2b addrType] ++ addrBody ++
          [z2b (Z.shiftr addrPort 8); z2b (Z.land addrPort 255)]) in
  match addr with
  | None => format ipv4Address [x00; x00; x00; x00] 0
  | Some a =>
      if decide (FQDN a ≠ "") then
        format fqdnAddress
          (z2b (Z.of_nat (String.length (FQDN a))) :: String.list_byte_of_string (FQDN a)) (u16 (Port a))
      else match To4 (IP a) with
      | Some ip => format ipv4Address ip (u16 (Port a))
      | None =>
          match To16 (IP a) with
          | Some ip => format ipv6Address ip (u16 (Port a))
          | None => None
          end
      end
  end.

(** * Rule sets and credentials *)

Record PermitCommand := mkPermitCommand {
  EnableConnect : bool;
  EnableBind : bool;
  EnableAssociate : bool;
}.

Definition Allow (p : PermitCommand) (req : Request) : bool :=
  if Command req =? ConnectCommand then EnableConnect p
  else if Command req =? BindCommand then EnableBind p
  else if Command req =? AssociateCommand then EnableAssociate p
  else false.

Definition PermitAll : PermitCommand := mkPermitCommand true true true.
Definition PermitNone : PermitCommand := mkPermitCommand false false false.

(** [StaticCredentials.Valid]. *)
Definition Valid (s : gmap string string) (user password : string) : bool :=
  match s !! user with
  | None => false
  | Some pass => bool_decide (password = pass)
  end.

(** * The server *)

(** The authenticators of the package; a credential store is the function it
    provides. *)
Inductive Authenticator :=
  | NoAuthAuthenticator
  | UserPassAuthenticator (store : string → string → bool).

Definition GetCode (a : Authenticator) : Z :=
  match a with NoAuthAuthenticator => NoAuth | UserPassAuthenticator _ => UserPassAuth end.

(** A dialed target: its local address, when it is a TCP one. *)
Record target := mkTarget { t_local : option (list byte * Z) }.

Record Config := mkConfig {
  AuthMethods : list Authenticator;
  Credentials : option (string → string → bool);
  Resolver : option (string → result string (list byte));
  Rules : option (Request → bool);
  Rewriter : option (Request → AddrSpec);
  Dial : option (string → result string target);
}.

Definition contains (s sub : string) : bool :=
  match String.index 0 sub s with Some _ => true | None => false end.

Section server.
(** Whether the [i]-th write of the connection succeeds; the system's name
    resolution and [net.Dial]. *)
Variable write_ok : nat → bool.
Variable ResolveIPAddr : string → result string (list byte).
Variable net_Dial : string → result string target.

Record Server := mkServer {
  auth_methods : gmap Z Authenticator;
  resolver : string → result string (list byte);
  rules : Request → bool;
  rewriter : option (Request → AddrSpec);
  dialer : option (string → result string target);
}.

Definition New (conf : Config) : Server :=
  let methods :=
    match AuthMethods conf with
    | [] => match Credentials conf with
            | Some c => [UserPassAuthenticator c]
            | None => [NoAuthAuthenticator]
            end
    | ms => ms
    end in
  mkServer
    (foldl (λ m a, <[GetCode a := a]> m) ∅ methods)
    (default ResolveIPAddr (Resolver conf))
    (default (Allow PermitAll) (Rules conf))
    (Rewriter conf)
    (Dial conf).

(** The configuration the plugin is set up with. *)
Definition setup : Server := New (mkConfig [] None None None None None).

Definition write (p : list byte) : sockM unit := λ s,
  if write_ok (sk_writes s) then (mkSock (sk_in s) (sk_out s ++ [p]) (S (sk_writes s)) (sk_dials s), Ok tt)
  else (mkSock (sk_in s) (sk_out s) (S (sk_writes s)) (sk_dials s), Err SkWrite).

Definition sendReply (resp : Z) (addr : option AddrSpec) : sockM unit :=
  match reply_bytes resp addr with
  | None => fail SkFormat
  | Some msg => write msg
  end.

(** A reply followed by the error the request ends with. *)
Definition refuse {A} (resp : Z) (e : sk_err) : sockM A :=
  wrap "Failed to send reply" (sendReply resp None);; fail e.

Definition Authenticate (a : Authenticator) : sockM AuthContext :=
  match a with
  | NoAuthAuthenticator => write [z2b socks5Version; z2b NoAuth];; mret (mkAuthContext NoAuth ∅)
  | UserPassAuthenticator store =>
      write [z2b socks5Version; z2b UserPassAuth];;
      header ← read 2;
      if negb (byte_at header 0 =? userAuthVersion) then fail (SkAuthVersion (byte_at header 0))
      else
        user ← read (Z.to_nat (byte_at header 1));
        passLen ← read 1;
        pass ← read (Z.to_nat (byte_at passLen 0));
        if store (String.string_of_list_byte user) (String.string_of_list_byte pass) then
          write [z2b userAuthVersion; z2b authSuccess];;
          mret (mkAuthContext UserPassAuth {["Username" := String.string_of_list_byte user]})
        else
          write [z2b userAuthVersion; z2b authFailure];;
          fail UserAuthFailed
  end.

Definition readMethods : sockM (list Z) :=
  header ← read 1;
  methods ← read (Z.to_nat (byte_at header 0));
  mret (b2z <$> methods).

Definition noAcceptableAuth {A} : sockM A := λ s, ((write [z2b socks5Version; z2b noAcceptable] s).1, Err NoSupportedAuth).

Fixpoint select (sv : Server) (methods : list Z) : option Authenticator :=
  match methods with
  | [] => None
  | m :: methods =>
      match auth_methods sv !! m with Some a => Some a | None => select sv methods end
  end.

Definition authenticate (sv : Server) : sockM AuthContext :=
  methods ← wrap "Failed to get auth methods" readMethods;
  match select sv methods with
  | Some a => Authenticate a
  | None => noAcceptableAuth
  end.

Definition dial (sv : Server) (addr : string) : sockM target := λ s,
  let s := mkSock (sk_in s) (sk_out s) (sk_writes s) (sk_dials s ++ [addr]) in
  match default net_Dial (dialer sv) addr with
  | Ok t => (s, Ok t)
  | Err msg => (s, Err (SkDial msg))
  end.

(** The reply for a failed dial. *)
Definition dial_reply (msg : string) : Z :=
  if contains msg "refused" then connectionRefused
  else if contains msg "network is unreachable" then networkUnreachable
  else hostUnreachable.

Definition real_dest (req : Request) : AddrSpec := default (DestAddr req) (realDestAddr req).

(** [handleConnect] up to the start of the two copies; a local address that is
    not a TCP one makes the type assertion panic. *)
Definition handleConnect (sv : Server) (req : Request) : sockM target :=
  if negb (rules sv req) then refuse ruleFailure SkBlocked
  else λ s,
    match dial sv (Address (real_dest req)) s with
    | (s, Err (SkDial msg)) => refuse (dial_reply msg) (SkDial msg) s
    | (s, Err e) => (s, Err e)
    | (s, Ok t) =>
        match t_local t with
        | None => (s, Err (SkWrapped "panic: interface conversion" SkFormat))
        | Some (ip, port) =>
            (wrap "Failed to send reply" (sendReply successReply (Some (mkAddrSpec "" ip port)));; mret t) s
        end
    end.

(** [handleBind] and [handleAssociate]: neither command is supported. *)
Definition handleBind (sv : Server) (req : Request) : sockM unit :=
  if negb (rules sv req) then refuse ruleFailure SkBlocked
  else wrap "Failed to send reply" (sendReply commandNotSupported None).

Definition handleAssociate (sv : Server) (req : Request) : sockM unit :=
  if negb (rules sv req) then refuse ruleFailure SkBlocked
  else wrap "Failed to send reply" (sendReply commandNotSupported None).

Definition set_dest (d : AddrSpec) (real : option AddrSpec) (req : Request) : Request :=
  mkRequest (Version req) (Command req) (ReqAuth req) (RemoteAddr req) d real.

(** The target when the request is a connection that was made. *)
Definition handleRequest (sv : Server) (req : Request) : sockM (option target) :=
  let dest := DestAddr req in
  match (if decide (FQDN dest ≠ "") then resolver sv (FQDN dest) else Ok (IP dest)) with
  | Err msg => refuse hostUnreachable (SkResolve msg)
  | Ok addr =>
      let dest := mkAddrSpec (FQDN dest) addr (Port dest) in
      let req := set_dest dest (Some dest) req in
      let req := match rewriter sv with
                 | Some rw => set_dest dest (Some (rw req)) req
                 | None => req
                 end in
      if Command req =? ConnectCommand then t ← handleConnect sv req; mret (Some t)
      else if Command req =? BindCommand then handleBind sv req;; mret None
      else if Command req =? AssociateCommand then handleAssociate sv req;; mret None
      else refuse commandNotSupported (SkCommand (Command req))
  end.

(** What follows the authentication: the request is read and handled. *)
Definition serve_request (sv : Server) (remote : option AddrSpec) (authContext : AuthContext) :
    sockM (option target) := λ s,
  match NewRequest s with
  | (s, Err unrecognizedAddrType) =>
      refuse addrTypeNotSupported (SkWrapped "Failed to read destination address" unrecognizedAddrType) s
  | (s, Err e) => (s, Err (SkWrapped "Failed to read destination address" e))
  | (s, Ok req) =>
      wrap "Failed to handle request"
        (handleRequest sv (mkRequest (Version req) (Command req) (Some authContext) remote
                            (DestAddr req) (realDestAddr req))) s
  end.

(** [ServeHandle]. *)
Definition ServeHandle (sv : Server) (remote : option AddrSpec) : sockM (option target) :=
  version ← read 1;
  if negb (byte_at version 0 =? socks5Version) then fail (SkVersion (byte_at version 0))
  else
    authContext ← wrap "Failed to authenticate" (authenticate sv);
    serve_request sv remote authContext.

(** [ServeConn] repeats the body of [ServeHandle] under a deferred [conn.Close()]:
    whatever comes of it the connection is closed ([true]). *)
Definition ServeConn (sv : Server) (remote : option AddrSpec) (s : sock) :
    sock * bool * result sk_err (option target) :=
  let '(s, r) := ServeHandle sv remote s in (s, true, r).

(** [Serve] over the results of [Accept]: what the goroutine of each connection
    does, and the error it returns; the listener is left open. *)
Fixpoint Serve (sv : Server) (accepts : list (result string (option AddrSpec * sock)))
    : list (sock * bool * result sk_err (option target)) * option string :=
  match accepts with
  | [] => ([], None)
  | Err e :: _ => ([], Some e)
  | Ok (remote, s) :: accepts =>
      let '(gs, e) := Serve sv accepts in (ServeConn sv remote s :: gs, e)
  end.

(** [ListenAndServe] on what [net.Listen] gives. *)
Definition ListenAndServe (sv : Server) (l : result string (list (result string (option AddrSpec * sock))))
    : list (sock * bool * result sk_err (option target)) * option string :=
  match l with Err e => ([], Some e) | Ok accepts => Serve sv accepts end.

(** [ServeStar]: the plugin keeps the connection unless the session failed. *)
Definition ServeStar (sv : Server) (remote : option AddrSpec) (s : sock) : sock * bool * option sk_err :=
  match ServeHandle sv remote s with
  | (s, Ok _) => (s, true, None)
  | (s, Err e) => (s, false, Some e)
  end.

End server.

(** * The relay

    [handleConnect] starts one [proxy] goroutine per direction and waits for both
    on a channel. [proxy] is [io.Copy], a half close of the destination if it
    has one, and the error on the channel. *)

Inductive copy_phase := CReading | CWriting (buf : list byte) | CDone.

(** One direction: what its source still delivers before its end, what its
    destination received, whether the destination has a [CloseWrite] and whether
    it was called. *)
Record direction := mkDirection {
  d_in : list byte;
  d_out : list byte;
  d_half : bool;
  d_shut : bool;
  d_phase : copy_phase;
}.

Inductive side := Up | Down.
#[export] Instance side_eq_dec : EqDecision side.
Proof. solve_decision. Defined.

(** [errCh] with the errors sent to it ([false] for a failure), what the handler
    received, and what it returned: [Some true] for [nil]. Returning closes the
    target. *)
Record relay := mkRelay {
  r_up : direction;
  r_down : direction;
  r_errCh : list bool;
  r_got : nat;
  r_ret : option bool;
}.

Definition dir (d : side) (r : relay) : direction := match d with Up => r_up r | Down => r_down r end.
Definition set_dir (d : side) (x : direction) (r : relay) : relay :=
  match d with
  | Up => mkRelay x (r_down r) (r_errCh r) (r_got r) (r_ret r)
  | Down => mkRelay (r_up r) x (r_errCh r) (r_got r) (r_ret r)
  end.

Inductive revent :=
  | PRead (d : side) (k : nat)
  | PReadErr (d : side)
  | PEof (d : side)
  | PWrite (d : side)
  | PWriteErr (d : side) (k : nat)
  | PWait.

(** The end of [proxy]: half close and report. *)
Definition proxy_end (d : side) (out : list byte) (ok : bool) (r : relay) : relay :=
  let x := dir d r in
  let r := set_dir d (mkDirection (d_in x) out (d_half x) (d_half x) CDone) r in
  mkRelay (r_up r) (r_down r) (r_errCh r ++ [ok]) (r_got r) (r_ret r).

(** The target is the source of [Down] and the destination of [Up]. *)
Definition src_closed (d : side) (r : relay) : bool :=
  bool_decide (d = Down) && bool_decide (is_Some (r_ret r)).
Definition dst_closed (d : side) (r : relay) : bool :=
  bool_decide (d = Up) && bool_decide (is_Some (r_ret r)).

Definition proxy (d : side) (ev : revent) (r : relay) : option relay :=
  let x := dir d r in
  match ev, d_phase x with
  | PRead _ k, CReading =>
      if src_closed d r || Nat.eqb k 0 || Nat.ltb (length (d_in x)) k then None
      else Some (set_dir d (mkDirection (drop k (d_in x)) (d_out x) (d_half x) (d_shut x) (CWriting (take k (d_in x)))) r)
  | PReadErr _, CReading => Some (proxy_end d (d_out x) false r)
  | PEof _, CReading =>
      if src_closed d r || negb (Nat.eqb (length (d_in x)) 0) then None
      else Some (proxy_end d (d_out x) true r)
  | PWrite _, CWriting buf =>
      if dst_closed d r then None
      else Some (set_dir d (mkDirection (d_in x) (d_out x ++ buf) (d_half x) (d_shut x) CReading) r)
  | PWriteErr _ k, CWriting buf =>
      if Nat.ltb k (length buf) then Some (proxy_end d (d_out x ++ take k buf) false r) else None
  | _, _ => None
  end.

(** One receive of the loop that waits for the two copies. *)
Definition wait_step (r : relay) : option relay :=
  match r_ret r, r_errCh r with
  | None, e :: errs =>
      let ret := if e then if Nat.eqb (S (r_got r)) 2 then Some true else None else Some false in
      Some (mkRelay (r_up r) (r_down r) errs (S (r_got r)) ret)
  | _, _ => None
  end.

Definition rapply (r : relay) (ev : revent) : option relay :=
  match ev with
  | PRead d _ | PReadErr d | PEof d | PWrite d | PWriteErr d _ => proxy d ev r
  | PWait => wait_step r
  end.

Fixpoint rrun (r : relay) (evs : list revent) : option relay :=
  match evs with
  | [] => Some r
  | ev :: evs => r ← rapply r ev; rrun r evs
  end.

Definition direction0 (i : list byte) (half : bool) : direction := mkDirection i [] half false CReading.

(** The relay of a connection whose request has been answered: what the client
    sends is what is left of its input, [sends] what the target sends. *)
Definition relay0 (s : sock) (sends : list byte) (client_half target_half : bool) : relay :=
  mkRelay (direction0 (sk_in s) target_half) (direction0 sends client_half) [] 0 None.

(** * Lemmas on the operations *)

Lemma bind_run {A B} (m : sockM A) (k : A → sockM B) s :
  (m ≫= k) s = match m s with (s, Ok a) => k a s | (s, Err e) => (s, Err e) end.
Proof. done. Qed.

Lemma bind_inv {A B} (m : sockM A) (k : A → sockM B) s s' r :
  (m ≫= k) s = (s', r) →
  (∃ e, m s = (s', Err e) ∧ r = Err e) ∨ (∃ a s1, m s = (s1, Ok a) ∧ k a s1 = (s', r)).
Proof. rewrite bind_run. destruct (m s) as [s1 [a|e]]; intros; simplify_eq; eauto. Qed.

Lemma wrap_inv {A} what (m : sockM A) s s' r :
  wrap what m s = (s', r) → ∃ r0, m s = (s', r0) ∧ (∀ a, r = Ok a → r0 = Ok a).
Proof. unfold wrap. destruct (m s) as [s1 [a|e]]; intros; simplify_eq; eexists; split; eauto; intros; congruence. Qed.

Lemma read_app p r o w d : read (length p) (mkSock (p ++ r) o w d) = (mkSock r o w d, Ok p).
Proof. unfold read. cbn [sk_in]. by rewrite read_full_app. Qed.

Lemma read_app' n p r o w d : length p = n → read n (mkSock (p ++ r) o w d) = (mkSock r o w d, Ok p).
Proof. intros <-. apply read_app. Qed.

Lemma read_cons b r o w d : read 1 (mkSock (b :: r) o w d) = (mkSock r o w d, Ok [b]).
Proof. done. Qed.

Lemma read_Ok n s s' p :
  read n s = (s', Ok p) →
  sk_in s = p ++ sk_in s' ∧ length p = n ∧ sk_dials s' = sk_dials s ∧ sk_out s' = sk_out s ∧ sk_writes s' = sk_writes s.
Proof.
  unfold read. destruct (read_full n (sk_in s)) as [[q r]|e] eqn:Hr; intros; simplify_eq/=.
  by apply read_full_Ok in Hr as [-> ?].
Qed.

(** An operation that dials nothing. *)
Definition quiet {A} (m : sockM A) : Prop := ∀ s s' r, m s = (s', r) → sk_dials s' = sk_dials s.

Create HintDb quiet.

Lemma quiet_ret {A} (a : A) : quiet (mret a).
Proof. intros s s' r H. by inversion H. Qed.
Lemma quiet_fail {A} e : quiet (@fail A e).
Proof. intros s s' r H. by inversion H. Qed.
Lemma quiet_bind {A B} (m : sockM A) (k : A → sockM B) : quiet m → (∀ a, quiet (k a)) → quiet (m ≫= k).
Proof.
  intros Hm Hk s s' r [(e&H&_)|(a&s1&H1&H2)]%bind_inv; [by eapply Hm|].
  by rewrite (Hk _ _ _ _ H2), (Hm _ _ _ H1).
Qed.
Lemma quiet_wrap {A} what (m : sockM A) : quiet m → quiet (wrap what m).
Proof. intros Hm s s' r (r0&H&_)%wrap_inv. by eapply Hm. Qed.
Lemma quiet_read n : quiet (read n).
Proof. intros s s' r. unfold read. destruct (read_full _ _) as [[]|]; intros; by simplify_eq. Qed.
Lemma quiet_write wok p : quiet (write wok p).
Proof. intros s s' r. unfold write. case_match; intros; by simplify_eq. Qed.
#[export] Hint Resolve quiet_ret quiet_fail quiet_bind quiet_wrap quiet_read quiet_write : quiet.

Lemma quiet_sendReply wok resp addr : quiet (sendReply wok resp addr).
Proof. unfold sendReply. destruct (reply_bytes _ _); auto with quiet. Qed.
#[export] Hint Resolve quiet_sendReply : quiet.
Lemma quiet_refuse {A} wok resp e : quiet (@refuse wok A resp e).
Proof. unfold refuse. auto with quiet. Qed.
#[export] Hint Resolve quiet_refuse : quiet.

Ltac quiet_tac := repeat first [apply quiet_bind; [|intros ?] | progress auto with quiet | case_match].

Lemma quiet_Authenticate wok a : quiet (Authenticate wok a).
Proof. unfold Authenticate. quiet_tac. Qed.
Lemma quiet_readMethods : quiet readMethods.
Proof. unfold readMethods. quiet_tac. Qed.
Lemma quiet_readAddrSpec : quiet readAddrSpec.
Proof. unfold readAddrSpec. quiet_tac. Qed.
#[export] Hint Resolve quiet_Authenticate quiet_readMethods quiet_readAddrSpec : quiet.
Lemma quiet_NewRequest : quiet NewRequest.
Proof. unfold NewRequest. quiet_tac. Qed.
Lemma quiet_noAcceptableAuth {A} wok : quiet (@noAcceptableAuth wok A).
Proof.
  intros s s' r H. unfold noAcceptableAuth in H. simplify_eq.
  destruct (write _ _ s) as [s1 r1] eqn:E. by eapply quiet_write.
Qed.
#[export] Hint Resolve quiet_NewRequest quiet_noAcceptableAuth : quiet.
Lemma quiet_authenticate wok sv : quiet (authenticate wok sv).
Proof. unfold authenticate. quiet_tac. Qed.
#[export] Hint Resolve quiet_authenticate : quiet.

(** * Replies and requests *)

Lemma port_bytes p : [z2b (Z.shiftr p 8); z2b (Z.land p 255)] = be_put 2 p.
Proof.
  cbn [be_put]. change (8 * Z.of_nat 1) with 8. change (8 * Z.of_nat 0) with 0. rewrite Z.shiftr_0_r.
  do 2 f_equal. enough (z2b (Z.land p 255) = z2b p) as -> by done. apply b2z_inj. rewrite !b2z_z2b. unfold u8. change 255 with (Z.ones 8).
  rewrite Z.land_ones by lia. by rewrite Z.mod_mod.
Qed.

Lemma port_value p : length p = 2%nat → Z.lor (Z.shiftl (byte_at p 0) 8) (byte_at p 1) = be_get p.
Proof. destruct p as [|a [|b [|]]]; intros; simplify_eq/=. done. Qed.

(** The address a reply carries: a name without an address, or an address in
    its shortest form. *)
Definition normal (a : AddrSpec) : AddrSpec :=
  if decide (FQDN a ≠ "") then mkAddrSpec (FQDN a) [] (Port a)
  else mkAddrSpec "" (default (IP a) (To4 (IP a))) (Port a).

Lemma normal_Port a : Port (normal a) = Port a.
Proof. unfold normal. by destruct (decide (FQDN a ≠ "")). Qed.

Definition addr_ok (a : AddrSpec) : Prop :=
  0 ≤ Port a < 2 ^ 16 ∧
  if decide (FQDN a ≠ "") then (String.length (FQDN a) < 256)%nat else (length (IP a) = 4 ∨ length (IP a) = 16)%nat.

Lemma length_list_byte_of_string s : length (String.list_byte_of_string s) = String.length s.
Proof. induction s as [|a s IH]; simpl; [done|]. by rewrite <- IH. Qed.

Lemma To4_length ip ip4 : To4 ip = Some ip4 → length ip4 = 4%nat.
Proof. unfold To4. repeat case_decide; intros; simplify_eq; [done|]. rewrite length_drop. lia. Qed.

Lemma To16_v6 ip : To4 ip = None → length ip = 4%nat ∨ length ip = 16%nat → To16 ip = Some ip ∧ length ip = 16%nat.
Proof. unfold To4, To16. repeat case_decide; naive_solver. Qed.

Lemma byte_at_z2b z l : byte_at (z2b z :: l) 0 = u8 z.
Proof. apply b2z_z2b. Qed.

Lemma byte_at_hd b l : byte_at (b :: l) 0 = b2z b.
Proof. done. Qed.

#[local] Opaque read be_put be_get byte_at.

(** The port, after the address itself. *)
Lemma read_port fqdn ip p r o w d :
  0 ≤ p < 2 ^ 16 →
  (port ← read 2; mret (mkAddrSpec fqdn ip (Z.lor (Z.shiftl (byte_at port 0) 8) (byte_at port 1))) : sockM AddrSpec)
    (mkSock (be_put 2 p ++ r) o w d) = (mkSock r o w d, Ok (mkAddrSpec fqdn ip p)).
Proof.
  intros Hp. rewrite bind_run, (read_app' 2) by apply length_be_put.
  rewrite port_value, be_get_put by (apply length_be_put || lia). done.
Qed.

Lemma read_ip4 (ip : list byte) p r o w d :
  length ip = 4%nat → 0 ≤ p < 2 ^ 16 →
  readAddrSpec (mkSock (z2b ipv4Address :: ip ++ be_put 2 p ++ r) o w d) = (mkSock r o w d, Ok (mkAddrSpec "" ip p)).
Proof.
  intros Hn Hp. unfold readAddrSpec. rewrite bind_run, read_cons, byte_at_z2b.
  change (u8 ipv4Address =? ipv4Address) with true. cbv iota.
  rewrite bind_run, bind_run, (read_app' 4) by done. by apply read_port.
Qed.

Lemma read_ip6 (ip : list byte) p r o w d :
  length ip = 16%nat → 0 ≤ p < 2 ^ 16 →
  readAddrSpec (mkSock (z2b ipv6Address :: ip ++ be_put 2 p ++ r) o w d) = (mkSock r o w d, Ok (mkAddrSpec "" ip p)).
Proof.
  intros Hn Hp. unfold readAddrSpec. rewrite bind_run, read_cons, byte_at_z2b.
  change (u8 ipv6Address =? ipv4Address) with false. change (u8 ipv6Address =? ipv6Address) with true. cbv iota.
  rewrite bind_run, bind_run, (read_app' 16) by done. by apply read_port.
Qed.

Lemma read_fqdn (name : string) p r o w d :
  (String.length name < 256)%nat → 0 ≤ p < 2 ^ 16 →
  readAddrSpec (mkSock (z2b fqdnAddress :: z2b (Z.of_nat (String.length name)) ::
                        String.list_byte_of_string name ++ be_put 2 p ++ r) o w d)
  = (mkSock r o w d, Ok (mkAddrSpec name [] p)).
Proof.
  intros Hn Hp. unfold readAddrSpec. rewrite bind_run, read_cons, byte_at_z2b.
  change (u8 fqdnAddress =? ipv4Address) with false. change (u8 fqdnAddress =? ipv6Address) with false.
  change (u8 fqdnAddress =? fqdnAddress) with true. cbv iota.
  rewrite bind_run, bind_run, read_cons, byte_at_z2b, u8_small, Nat2Z.id by lia.
  rewrite bind_run, (read_app' _ (String.list_byte_of_string name)) by apply length_list_byte_of_string.
  cbn [mret sockM_ret]. rewrite String.string_of_list_byte_of_string. by apply read_port.
Qed.

Lemma reply_address resp a msg :
  reply_bytes resp (Some a) = Some msg → addr_ok a →
  ∃ body, msg = [z2b socks5Version; z2b resp; x00] ++ body ∧
    ∀ r o w d, readAddrSpec (mkSock (body ++ r) o w d) = (mkSock r o w d, Ok (normal a)).
Proof.
  unfold reply_bytes, addr_ok, normal. rewrite !port_bytes. intros Hm [Hp Ha].
  assert (u16 (Port a) = Port a) as Hu by (apply Z.mod_small; lia). rewrite Hu in Hm.
  destruct (decide (FQDN a ≠ "")) as [Hn|Hn].
  { simplify_eq. eexists (_ :: _ :: _). split; [done|]. intros. cbn [app]. rewrite <- app_assoc. by apply read_fqdn. }
  destruct (To4 (IP a)) as [ip4|] eqn:H4.
  { simplify_eq. eexists (_ :: _). split; [done|]. intros. cbn [app]. rewrite <- app_assoc.
    apply read_ip4; [by eapply To4_length|done]. }
  destruct (To16_v6 _ H4 Ha) as [H16 Hl]. rewrite H16 in Hm. simplify_eq. eexists (_ :: _). split; [done|].
  intros. cbn [app]. rewrite <- app_assoc. by apply read_ip6.
Qed.

Lemma NewRequest_body cmd rsv body a r o w d :
  0 ≤ cmd < 256 → (∀ o w d, readAddrSpec (mkSock (body ++ r) o w d) = (mkSock r o w d, Ok a)) →
  NewRequest (mkSock ([z2b socks5Version; z2b cmd; rsv] ++ body ++ r) o w d)
  = (mkSock r o w d, Ok (mkRequest socks5Version cmd None None a None)).
Proof.
  intros Hc Hr. unfold NewRequest. rewrite bind_run. unfold wrap. rewrite (read_app' 3) by done.
  rewrite byte_at_z2b. change (negb (u8 socks5Version =? socks5Version)) with false. cbv iota.
  rewrite bind_run, Hr. change (byte_at _ 1) with (b2z (z2b cmd)). by rewrite b2z_z2b, u8_small.
Qed.

(** A reply, or a request with the same layout, is read back: [sendReply] and
    [NewRequest] agree on the wire format of names, IPv4 and IPv6 addresses, and
    leave what follows untouched. *)
Theorem reply_roundtrip cmd a msg r o w d :
  0 ≤ cmd < 256 → addr_ok a → reply_bytes cmd (Some a) = Some msg →
  NewRequest (mkSock (msg ++ r) o w d)
  = (mkSock r o w d, Ok (mkRequest socks5Version cmd None None (normal a) None)).
Proof.
  intros Hc Ha Hm. destruct (reply_address _ _ _ Hm Ha) as (body&->&Hr).
  rewrite <- app_assoc. by apply NewRequest_body.
Qed.

Theorem reply_roundtrip_witness :
  NewRequest (mkSock ([x05; x01; x00; x03; x01; "a"%byte; x00; x50] ++ [x2a]) [] 0 [])
  = (mkSock [x2a] [] 0 [], Ok (mkRequest 5 1 None None (mkAddrSpec "a" [] 80) None)).
Proof. apply (reply_roundtrip 1 (mkAddrSpec "a" [] 80)); [lia| |reflexivity]. unfold addr_ok. simpl. split; lia. Defined.

(** * What a session may do *)

Lemma byte_at_eq b l v : byte_at (b :: l) 0 = v → b = z2b v.
Proof. intros <-. by rewrite byte_at_hd, z2b_b2z. Qed.

(** A field of a length byte and that many bytes. *)
Definition field (p : list byte) : list byte := z2b (Z.of_nat (length p)) :: p.

Lemma length_one {A} (l : list A) : length l = 1%nat → ∃ x, l = [x].
Proof. destruct l as [|x [|]]; naive_solver. Qed.

(** Reading a field: its length, then its bytes. *)
Lemma read_field s s1 s2 h p :
  read 1 s = (s1, Ok h) → read (Z.to_nat (byte_at h 0)) s1 = (s2, Ok p) →
  sk_in s = field p ++ sk_in s2 ∧ sk_dials s2 = sk_dials s.
Proof.
  intros (H1&Hl1&Hd1&_)%read_Ok (H2&Hl2&Hd2&_)%read_Ok. apply length_one in Hl1 as [b ->].
  rewrite H1, H2, Hd2, Hd1. split; [|done]. unfold field. cbn [app]. f_equal.
  rewrite byte_at_hd in Hl2. pose proof (b2z_range b).
  apply b2z_inj. rewrite b2z_z2b, Hl2, Z2Nat.id, u8_small by lia. done.
Qed.

Lemma authenticate_password wok sv s s' ctx store :
  (∀ m a, auth_methods sv !! m = Some a → a = UserPassAuthenticator store) →
  authenticate wok sv s = (s', Ok ctx) →
  ∃ methods user pass,
    sk_in s = field methods ++ z2b userAuthVersion :: field user ++ field pass ++ sk_in s' ∧
    store (String.string_of_list_byte user) (String.string_of_list_byte pass) = true ∧
    ctx = mkAuthContext UserPassAuth {["Username" := String.string_of_list_byte user]}.
Proof.
  intros Hsv. unfold authenticate. intros [(?&?&?)|(ms&s1&Hms&H)]%bind_inv; [done|].
  apply wrap_inv in Hms as (r0&Hms&Hr0). rewrite (Hr0 _ eq_refl) in Hms. clear r0 Hr0.
  unfold readMethods in Hms. apply bind_inv in Hms as [(?&?&?)|(h&s0&Hh&Hms)]; [done|].
  apply bind_inv in Hms as [(?&?&?)|(methods&s2&Hm&Hms)]; [done|]. cbv [mret sockM_ret] in Hms. simplify_eq.
  destruct (read_field _ _ _ _ _ Hh Hm) as [E1 _].
  destruct (select sv (b2z <$> methods)) as [a|] eqn:Hsel; [|done].
  assert (a = UserPassAuthenticator store) as ->.
  { clear -Hsv Hsel. induction (b2z <$> methods) as [|m l IH]; [done|]. cbn [select] in Hsel.
    destruct (auth_methods sv !! m) eqn:Hm; simplify_eq; eauto. }
  cbn [Authenticate] in H. apply bind_inv in H as [(?&?&?)|([]&s3&Hw&H)]; [done|].
  assert (sk_in s3 = sk_in s1) as E2 by (unfold write in Hw; case_match; by simplify_eq).
  apply bind_inv in H as [(?&?&?)|(hd&s4&Hhd&H)]; [done|].
  destruct (negb (byte_at hd 0 =? userAuthVersion)) eqn:Hv; [by inversion H|].
  apply negb_false_iff, Z.eqb_eq in Hv.
  apply bind_inv in H as [(?&?&?)|(user&s5&Hu&H)]; [done|].
  apply bind_inv in H as [(?&?&?)|(pl&s6&Hpl&H)]; [done|].
  apply bind_inv in H as [(?&?&?)|(pass&s7&Hp&H)]; [done|].
  destruct (read_field _ _ _ _ _ Hpl Hp) as [E5 _].
  destruct (store _ _) eqn:Hst.
  2:{ apply bind_inv in H as [(?&?&?)|([]&s8&_&H)]; [done|by inversion H]. }
  apply bind_inv in H as [(?&?&?)|([]&s8&Hw2&H)]; [done|]. cbv [mret sockM_ret] in H. simplify_eq.
  assert (sk_in s' = sk_in s7) as E6 by (unfold write in Hw2; case_match; by simplify_eq).
  exists methods, user, pass. split; [|done].
  apply read_Ok in Hhd as (E3&Hl&_). apply read_Ok in Hu as (E4&Hlu&_).
  destruct hd as [|b [|c [|]]]; simplify_eq/=. apply byte_at_eq in Hv as ->.
  rewrite E1, <- E2, E3, E4, E5, E6. do 4 f_equal.
  apply b2z_inj. rewrite b2z_z2b, Hlu. change (byte_at [_; c] 1) with (b2z c).
  pose proof (b2z_range c). rewrite Z2Nat.id, u8_small by lia. done.
Qed.

Lemma handleConnect_allowed wok nd sv req s s' r :
  rules sv req = true → handleConnect wok nd sv req s = (s', r) →
  sk_dials s' = sk_dials s ++ [Address (real_dest req)].
Proof.
  intros Hr H. unfold handleConnect in H. rewrite Hr in H. cbn [negb] in H. unfold dial in H.
  destruct (default nd (dialer sv) _) as [t|msg].
  - destruct (t_local t) as [[ip port]|]; [|by simplify_eq].
    match type of H with ?m _ = _ => assert (quiet m) as Hq by quiet_tac end. by apply Hq in H.
  - by apply quiet_refuse in H.
Qed.

Lemma handleConnect_dials wok nd sv req s s' r :
  handleConnect wok nd sv req s = (s', r) →
  sk_dials s' = sk_dials s ∨
  rules sv req = true ∧ sk_dials s' = sk_dials s ++ [Address (real_dest req)].
Proof.
  destruct (rules sv req) eqn:Hr; intros H.
  - right. split; [done|]. by eapply handleConnect_allowed.
  - left. unfold handleConnect in H. rewrite Hr in H. cbn [negb] in H. by apply quiet_refuse in H.
Qed.

Lemma quiet_handleBind wok sv req : quiet (handleBind wok sv req).
Proof. unfold handleBind. quiet_tac. Qed.
Lemma quiet_handleAssociate wok sv req : quiet (handleAssociate wok sv req).
Proof. unfold handleAssociate. quiet_tac. Qed.
#[export] Hint Resolve quiet_handleBind quiet_handleAssociate : quiet.

Lemma handleRequest_dials wok nd sv req s s' r :
  handleRequest wok nd sv req s = (s', r) →
  sk_dials s' = sk_dials s ∨
  ∃ req', Command req' = ConnectCommand ∧ Command req' = Command req ∧ ReqAuth req' = ReqAuth req ∧
    rules sv req' = true ∧ sk_dials s' = sk_dials s ++ [Address (real_dest req')].
Proof.
  unfold handleRequest. intros H.
  destruct (if decide _ then _ else _) as [addr|msg]; [|left; by eapply quiet_refuse].
  set (rq := match rewriter sv with Some _ => _ | None => _ end) in H.
  assert (Command rq = Command req ∧ ReqAuth rq = ReqAuth req) as [Hc Ha] by (unfold rq; by destruct (rewriter sv)).
  clearbody rq. revert H. destruct (Z.eqb_spec (Command rq) ConnectCommand) as [E|_]; intros H.
  - apply bind_inv in H as [(e&H&_)|(t&s1&H&H2)].
    + apply handleConnect_dials in H as [H|[Hr H]]; [by left|right]. exists rq. by rewrite <- Hc, <- Ha.
    + cbv [mret sockM_ret] in H2. simplify_eq.
      apply handleConnect_dials in H as [H|[Hr H]]; [by left|right]. exists rq. by rewrite <- Hc, <- Ha.
  - left. revert H. destruct (Command rq =? BindCommand).
    { apply quiet_bind; auto with quiet. }
    destruct (Command rq =? AssociateCommand); [apply quiet_bind|apply quiet_refuse]; auto with quiet.
Qed.


(** * The relay copies *)

Definition pending (x : direction) : list byte := match d_phase x with CWriting buf => buf | _ => [] end.

(** One direction of a relay that started with [total] to copy: nothing is
    invented or reordered, and nothing is missing unless it was abandoned. *)
Definition dir_inv (total : list byte) (x : direction) : Prop :=
  (d_phase x ≠ CDone → d_out x ++ pending x ++ d_in x = total) ∧ d_out x `prefix_of` total ∧
  (d_phase x ≠ CDone → d_shut x = false) ∧ (d_phase x = CDone → d_shut x = d_half x).

Definition undone (x : direction) : nat := match d_phase x with CDone => 0 | _ => 1 end.
(** A direction that ended without everything copied has reported an error. *)
Definition short (total : list byte) (x : direction) : Prop := d_phase x = CDone ∧ d_out x ≠ total.

Record relay_inv (up down : list byte) (r : relay) : Prop := {
  ri_up : dir_inv up (r_up r);
  ri_down : dir_inv down (r_down r);
  ri_count : (r_got r + length (r_errCh r) + undone (r_up r) + undone (r_down r) = 2)%nat;
  ri_ok : r_ret r = Some true → r_got r = 2%nat;
  ri_open : r_ret r = None → (r_got r < 2)%nat;
  ri_short : short up (r_up r) ∨ short down (r_down r) → r_ret r = Some false ∨ false ∈ r_errCh r;
}.

Definition total_of (d : side) (up down : list byte) : list byte := match d with Up => up | Down => down end.
Definition other (d : side) : side := match d with Up => Down | Down => Up end.

Lemma relay_inv_dir up down r d : relay_inv up down r → dir_inv (total_of d up down) (dir d r).
Proof. intros []. by destruct d. Qed.

(** A step that moves data keeps the direction running. *)
Lemma relay_inv_move up down r d x :
  relay_inv up down r → dir_inv (total_of d up down) x → d_phase (dir d r) ≠ CDone → d_phase x ≠ CDone →
  relay_inv up down (set_dir d x r).
Proof.
  intros [Hu Hd Hc Ho Hn Hs] Hx Hp Hx'.
  assert (undone x = undone (dir d r)) as Hun.
  { unfold undone. destruct (d_phase x), (d_phase (dir d r)); congruence. }
  destruct d; simpl in *; split; simpl; try done; try lia;
    intros [[]|[]]; try done; apply Hs; [by right|by left].
Qed.

(** A step that ends a direction reports it. *)
Lemma relay_inv_end up down r d out ok :
  relay_inv up down r → d_phase (dir d r) ≠ CDone → out `prefix_of` total_of d up down →
  (ok = true → out = total_of d up down) → relay_inv up down (proxy_end d out ok r).
Proof.
  intros [Hu Hd Hc Ho Hn Hs] Hp Hpre Hok.
  assert (undone (dir d r) = 1)%nat as Hun by (unfold undone; by destruct (d_phase (dir d r))).
  assert (∀ l : list bool, length (l ++ [ok]) = S (length l)) as Hlen by (intros; rewrite length_app; simpl; lia).
  assert (∀ x h, dir_inv (total_of d up down) (mkDirection x out h h CDone)) as Hnew by (intros; repeat split; done).
  destruct d; unfold proxy_end; simpl in *; (split; simpl; [apply Hnew || done|apply Hnew || done|
    rewrite Hlen; unfold undone in *; simpl; lia|done|done|]).
  - intros [[_ Hne]|Hsd]; [right; apply elem_of_app; right|].
    + destruct ok; [by destruct Hne; apply Hok|by left].
    + destruct (Hs (or_intror Hsd)); [by left|right; apply elem_of_app; by left].
  - intros [Hsd|[_ Hne]]; [|right; apply elem_of_app; right].
    + destruct (Hs (or_introl Hsd)); [by left|right; apply elem_of_app; by left].
    + destruct ok; [by destruct Hne; apply Hok|by left].
Qed.

Lemma relay_inv_proxy up down r d ev r' : relay_inv up down r → proxy d ev r = Some r' → relay_inv up down r'.
Proof.
  intros Hi Hp. pose proof (relay_inv_dir _ _ _ d Hi) as (Hsum&Hpre&Hsh&Hdone).
  unfold proxy in Hp. destruct ev, (d_phase (dir d r)) as [|buf|] eqn:Hph; simplify_eq.
  all: assert (d_phase (dir d r) ≠ CDone) as Hne by congruence.
  all: specialize (Hsum ltac:(done)); specialize (Hsh ltac:(done)); unfold pending in Hsum; rewrite ?Hph in Hsum.
  - destruct (_ || _) eqn:Hg; simplify_eq. apply relay_inv_move; try done.
    repeat split; try done. intros _. cbn. by rewrite take_drop.
  - by apply relay_inv_end.
  - destruct (_ || _) eqn:Hg; simplify_eq. apply orb_false_iff in Hg as [_ Hg].
    apply negb_false_iff, Nat.eqb_eq, length_zero_iff_nil in Hg. rewrite Hg, app_nil_r in Hsum.
    by apply relay_inv_end.
  - destruct (dst_closed d r); simplify_eq. apply relay_inv_move; try done.
    repeat split; try done.
    + intros _. cbn. by rewrite <- app_assoc.
    + cbn. rewrite <- Hsum, app_assoc. by apply prefix_app_r.
  - destruct (Nat.ltb _ _); simplify_eq. apply relay_inv_end; try done.
    rewrite <- Hsum. apply prefix_app. rewrite <- (take_drop k buf) at 2. rewrite <- app_assoc. by apply prefix_app_r.
Qed.

Lemma relay_inv_wait up down r r' : relay_inv up down r → wait_step r = Some r' → relay_inv up down r'.
Proof.
  intros [Hu Hd Hc Ho Hn Hs] Hw. unfold wait_step in Hw.
  destruct (r_ret r) eqn:Hr; [done|]. destruct (r_errCh r) as [|e errs] eqn:He; [done|]. simplify_eq.
  specialize (Hn eq_refl). split; cbn [r_up r_down r_errCh r_got r_ret]; try done.
  - cbn [length] in Hc. lia.
  - destruct e; [|done]. destruct (Nat.eqb_spec (S (r_got r)) 2); done.
  - destruct e; [|done]. destruct (Nat.eqb_spec (S (r_got r)) 2); [done|lia].
  - intros Hsh. destruct (Hs Hsh) as [|Hf]; [done|]. destruct e; [|by left].
    right. by apply elem_of_cons in Hf as [|].
Qed.

Lemma relay_inv_run up down evs r r' : relay_inv up down r → rrun r evs = Some r' → relay_inv up down r'.
Proof.
  revert r. induction evs as [|ev evs IH]; intros r Hi Hr; simplify_eq/=; [done|].
  apply bind_Some in Hr as (r1&H1&H2). eapply IH; [|done].
  destruct ev; cbn [rapply] in H1; first [by eapply relay_inv_wait|by eapply relay_inv_proxy].
Qed.

Lemma relay_inv_init s sends ch th : relay_inv (sk_in s) sends (relay0 s sends ch th).
Proof.
  split; unfold relay0, direction0; cbn; try done; try lia.
  - repeat split; try done. apply prefix_nil.
  - repeat split; try done. apply prefix_nil.
  - intros [[]|[]]; done.
Qed.

(** The relay forwards, in both directions and in every interleaving of the two
    copies and the handler, a prefix of what was sent and nothing else; when the
    handler returns without an error both sides received everything and both
    half closes were passed on. *)
Theorem relay_copies s sends client_half target_half evs r :
  rrun (relay0 s sends client_half target_half) evs = Some r →
  d_out (r_up r) `prefix_of` sk_in s ∧ d_out (r_down r) `prefix_of` sends ∧
  (r_ret r = Some true →
   d_out (r_up r) = sk_in s ∧ d_out (r_down r) = sends ∧
   d_shut (r_up r) = d_half (r_up r) ∧ d_shut (r_down r) = d_half (r_down r)).
Proof.
  intros Hr. destruct (relay_inv_run _ _ _ _ _ (relay_inv_init _ _ _ _) Hr) as [Hu Hd Hc Ho Hn Hs].
  split; [apply Hu|]. split; [apply Hd|]. intros Ht. specialize (Ho Ht).
  assert (d_phase (r_up r) = CDone ∧ d_phase (r_down r) = CDone ∧ r_errCh r = []) as (Pu&Pd&He).
  { unfold undone in Hc. destruct (r_errCh r); cbn [length] in Hc; [|lia].
    destruct (d_phase (r_up r)), (d_phase (r_down r)); first [lia|done]. }
  assert (¬ (short (sk_in s) (r_up r) ∨ short sends (r_down r))) as Hns.
  { intros [H|H]%Hs; [congruence|]. rewrite He in H. by apply elem_of_nil in H. }
  unfold short in Hns. destruct Hu as (_&_&_&Su), Hd as (_&_&_&Sd).
  split_and!; [..|by apply Su|by apply Sd]; apply dec_stable; tauto.
Qed.

Theorem relay_copies_witness :
  ∃ r, rrun (relay0 (mkSock [x01; x02] [] 0 []) [x03] true true)
         [PRead Up 2; PRead Down 1; PWrite Down; PWrite Up; PEof Up; PWait; PEof Down; PWait] = Some r ∧
       r_ret r = Some true ∧ d_out (r_up r) = [x01; x02].
Proof.
  eexists. split; [vm_compute; reflexivity|]. split; [reflexivity|].
  apply (relay_copies (mkSock [x01; x02] [] 0 []) [x03] true true
    [PRead Up 2; PRead Down 1; PWrite Down; PWrite Up; PEof Up; PWait; PEof Down; PWait] _); reflexivity.
Defined.

(** Once both copies are over the handler returns after at most two receives. *)
Theorem relay_returns s sends client_half target_half evs r :
  rrun (relay0 s sends client_half target_half) evs = Some r →
  d_phase (r_up r) = CDone → d_phase (r_down r) = CDone →
  ∃ n r', (n ≤ 2)%nat ∧ rrun r (replicate n PWait) = Some r' ∧ is_Some (r_ret r').
Proof.
  intros Hr Pu Pd. destruct (relay_inv_run _ _ _ _ _ (relay_inv_init _ _ _ _) Hr) as [_ _ Hc _ Hn _].
  unfold undone in Hc. rewrite Pu, Pd in Hc. destruct (r_ret r) eqn:Hret.
  { exists 0%nat, r. split; [lia|]. split; [done|]. by eexists. }
  specialize (Hn eq_refl). destruct r as [u d errs g ret]; simplify_eq/=.
  destruct errs as [|[] [|e2 [|]]]; simplify_eq/=; try lia.
  - exists 1%nat. destruct g as [|[]]; try lia. eexists. split; [lia|]. split; [reflexivity|]. by eexists.
  - exists 2%nat. destruct g as [|[]]; try lia. eexists. split; [lia|]. split; [reflexivity|]. destruct e2; by eexists.
  - exists 1%nat. eexists. split; [lia|]. split; [reflexivity|]. by eexists.
  - exists 1%nat. eexists. split; [lia|]. split; [reflexivity|]. by eexists.
Qed.

Theorem relay_returns_witness :
  ∃ r, rrun (relay0 (mkSock [] [] 0 []) [] true true) [PEof Up; PEof Down] = Some r ∧
  ∃ n r', (n ≤ 2)%nat ∧ rrun r (replicate n PWait) = Some r' ∧ is_Some (r_ret r').
Proof.
  eexists. split; [vm_compute; reflexivity|].
  apply (relay_returns (mkSock [] [] 0 []) [] true true [PEof Up; PEof Down]); reflexivity.
Defined.

(** * A whole session *)

Lemma write_true p s :
  write (λ _, true) p s = (mkSock (sk_in s) (sk_out s ++ [p]) (S (sk_writes s)) (sk_dials s), Ok tt).
Proof. done. Qed.

Lemma readMethods_field methods r o w d :
  (length methods < 256)%nat →
  readMethods (mkSock (field methods ++ r) o w d) = (mkSock r o w d, Ok (b2z <$> methods)).
Proof.
  intros Hl. unfold readMethods. cbn [field app]. rewrite bind_run, read_cons, byte_at_z2b, u8_small, Nat2Z.id by lia.
  by rewrite bind_run, read_app.
Qed.

(** The address [handleRequest] dials. *)
Definition resolved (a : AddrSpec) (ip : list byte) : AddrSpec := mkAddrSpec (FQDN (normal a)) ip (Port a).

(** C29: The plugin as [setup] configures it serves every client without a password:
    a client that offers the method and sends a connect request gets the two
    replies, its target is dialed under the resolved address, and what it sent
    behind the request is left for the relay. *)
Theorem session_connects sys nd remote methods a msg data ip t lip lport reply :
  (length methods < 256)%nat → z2b NoAuth ∈ methods → (∀ m, m ∈ methods → m = z2b NoAuth ∨ m = z2b UserPassAuth) →
  addr_ok a → reply_bytes ConnectCommand (Some a) = Some msg →
  (if decide (FQDN (normal a) ≠ "") then sys (FQDN (normal a)) else Ok (IP (normal a))) = Ok ip →
  nd (Address (resolved a ip)) = Ok t → t_local t = Some (lip, lport) →
  reply_bytes successReply (Some (mkAddrSpec "" lip lport)) = Some reply →
  ServeHandle (λ _, true) nd (setup sys) remote
    (mkSock (z2b socks5Version :: field methods ++ msg ++ data) [] 0 [])
  = (mkSock data [[z2b socks5Version; z2b NoAuth]; reply] 2 [Address (resolved a ip)], Ok (Some t)).
Proof.
  intros Hl Hin Hms Ha Hmsg Hip Hnd Ht Hrep. unfold ServeHandle.
  rewrite bind_run, read_cons, byte_at_z2b. change (negb (u8 socks5Version =? socks5Version)) with false. cbv iota.
  rewrite bind_run. unfold wrap at 1, authenticate. rewrite bind_run. unfold wrap at 1.
  rewrite readMethods_field by done.
  assert (select (setup sys) (b2z <$> methods) = Some NoAuthAuthenticator) as ->.
  { clear Hl. induction methods as [|m ms IH]; [by apply elem_of_nil in Hin|].
    cbn [fmap list_fmap select]. destruct (Hms m (list_elem_of_here _ _)) as [->| ->]; [done|].
    apply elem_of_cons in Hin as [?|Hin]; [done|]. cbn. apply IH; [done|]. intros. apply Hms. by right. }
  cbn [Authenticate]. rewrite bind_run, write_true. cbn [mret sockM_ret].
  unfold serve_request. cbn [sk_in sk_out sk_writes sk_dials]. rewrite (reply_roundtrip ConnectCommand a) by (done || unfold ConnectCommand; lia).
  unfold wrap at 1, handleRequest. cbn [DestAddr Command].
  change (resolver (setup sys)) with sys. rewrite Hip. change (rewriter (setup sys)) with (@None (Request → AddrSpec)).
  cbv iota zeta. cbn [set_dest Command]. change (ConnectCommand =? ConnectCommand) with true. cbv iota.
  rewrite bind_run. unfold handleConnect. cbn [rules setup New]. unfold setup, New. cbn -[sendReply Address].
  rewrite (normal_Port a).
  unfold dial. cbn [dialer default option_rect from_option sk_in sk_out sk_writes sk_dials app].
  unfold resolved in Hnd. rewrite Hnd, Ht. rewrite bind_run. unfold wrap, sendReply. rewrite Hrep, write_true. done.
Qed.

(** Every connection accepted before the first error gets its session, whatever
    comes of the others, and is closed by it. *)
Theorem Serve_each wok nd sv conns e rest :
  Serve wok nd sv ((Ok <$> conns) ++ Err e :: rest) = ((λ x, ServeConn wok nd sv x.1 x.2) <$> conns, Some e) ∧
  Forall (λ g, g.1.2 = true) (Serve wok nd sv ((Ok <$> conns) ++ Err e :: rest)).1.
Proof.
  assert (Serve wok nd sv ((Ok <$> conns) ++ Err e :: rest) = ((λ x, ServeConn wok nd sv x.1 x.2) <$> conns, Some e)) as ->.
  { induction conns as [|[r s] conns IH]; [done|]. cbn [fmap list_fmap app Serve]. by rewrite IH. }
  split; [done|]. cbn [fst]. apply Forall_fmap, Forall_forall. intros [r s] _. simpl. unfold ServeConn.
  by destruct (ServeHandle wok nd sv r s).
Qed.

(** An empty domain name is neither resolved nor refused: the address dialed is
    a bare port, which the system's dialer takes for the server's own machine. *)
Theorem empty_domain_dials_self wok nd sys remote p s :
  0 ≤ p < 2 ^ 16 → wok 0%nat = true →
  sk_in s = [x05; x01; x00] ++ [x05; x01; x00; x03; x00] ++ be_put 2 p → sk_writes s = 0%nat →
  sk_dials (ServeHandle wok nd (setup sys) remote s).1 = sk_dials s ++ [":" +:+ pretty p].
Proof.
  intros Hp Hw Hin Hs0. destruct s as [i o w d]; simplify_eq/=.
  unfold ServeHandle. rewrite bind_run, read_cons. change (negb _) with false at 1. cbv iota.
  rewrite bind_run. unfold wrap at 1, authenticate. rewrite bind_run. unfold wrap at 1.
  pose proof (readMethods_field [x00] ([x05; x01; x00; x03; x00] ++ be_put 2 p) o 0 d ltac:(simpl; lia)) as Hm.
  change (field [x00]) with [x01; x00] in Hm. cbn [app] in Hm. rewrite Hm.
  change (select _ _) with (Some NoAuthAuthenticator). cbv iota. cbn [Authenticate]. rewrite bind_run.
  unfold write at 1. cbn [sk_writes]. rewrite Hw. cbn [mret sockM_ret sk_in sk_out sk_dials].
  unfold serve_request. cbn [sk_in sk_out sk_writes sk_dials].
  assert (∀ o w, NewRequest (mkSock (x05 :: x01 :: x00 :: x03 :: x00 :: be_put 2 p) o w d)
          = (mkSock [] o w d, Ok (mkRequest socks5Version 1 None None (mkAddrSpec "" [] p) None))) as Hn.
  { intros o' w'. pose proof (NewRequest_body 1 x00 ([x03; x00] ++ be_put 2 p) (mkAddrSpec "" [] p) [] o' w' d) as Hb.
    rewrite app_nil_r in Hb. apply Hb; [lia|]. intros o1 w1 d1.
    pose proof (read_fqdn "" p [] o1 w1 d1 ltac:(simpl; lia) Hp) as Hf. rewrite app_nil_r in Hf. exact Hf. }
  rewrite Hn. unfold wrap, handleRequest. cbn [DestAddr Command FQDN IP Port].
  destruct (decide ("" ≠ "")) as [[]|_]; [done|]. change (rewriter (setup sys)) with (@None (Request → AddrSpec)).
  cbv iota zeta. cbn [set_dest Command]. change (1 =? ConnectCommand) with true. cbv iota. rewrite bind_run.
  destruct (handleConnect _ _ _ _ _) as [s1 r1] eqn:Hh. apply handleConnect_allowed in Hh; [|done].
  destruct r1; cbn [fst mret sockM_ret]; by rewrite Hh.
Qed.

(** * Witnesses *)

Definition wit_target : target := mkTarget (Some ([x7f; x00; x00; x01], 4000)).

Theorem session_connects_witness :
  ServeHandle (λ _, true) (λ _, Ok wit_target) (setup (λ _, Ok [x0a; x00; x00; x01])) None
    (mkSock (z2b socks5Version :: field [x00; x02] ++ [x05; x01; x00; x03; x01; "a"%byte; x00; x50] ++ [x2a]) [] 0 [])
  = (mkSock [x2a] [[x05; x00]; [x05; x00; x00; x01; x7f; x00; x00; x01; x0f; xa0]] 2 ["10.0.0.1:80"],
     Ok (Some wit_target)).
Proof.
  apply (session_connects _ _ _ [x00; x02] (mkAddrSpec "a" [] 80) _ _ [x0a; x00; x00; x01] _ [x7f; x00; x00; x01] 4000).
  - simpl; lia.
  - left.
  - intros m Hm. apply elem_of_cons in Hm as [->|Hm]; [by left|].
    apply elem_of_cons in Hm as [->|Hm]; [by right|]. by apply elem_of_nil in Hm.
  - unfold addr_ok. simpl. split; lia.
  - reflexivity.
  - reflexivity.
  - reflexivity.
  - reflexivity.
  - reflexivity.
Defined.

Definition wit_store (user pass : string) : bool := String.eqb user "u" && String.eqb pass "p".
Definition wit_login : sock :=
  mkSock ([x05; x01; x02; x01; x01; "u"%byte; x01; "p"%byte] ++ [x05; x01; x00; x01; x01; x02; x03; x04; x00; x50]) [] 0 [].


(** The login of the witness is accepted and dials. *)
Example wit_login_dials :
  sk_dials (ServeHandle (λ _, true) (λ _, Ok wit_target)
             (New (λ _, Err "") (mkConfig [] (Some wit_store) None None None None)) None wit_login).1 = ["1.2.3.4:80"].
Proof. vm_compute. reflexivity. Qed.

Theorem empty_domain_dials_self_witness :
  sk_dials (ServeHandle (λ _, true) (λ _, Ok wit_target) (setup (λ _, Err "")) None
    (mkSock ([x05; x01; x00] ++ [x05; x01; x00; x03; x00] ++ be_put 2 80) [] 0 [])).1 = [] ++ [":" +:+ pretty 80].
Proof. by apply (empty_domain_dials_self (λ _, true)). Defined.
