(* ===== verification/Rainnet.v ===== *)
(** The common language of the components (pkg/rainnet): classified errors
    (errors.go) and the connection wrapper with its metadata (conn.go). *)
From S2P Require Import Prelude.
From Stdlib Require Import ZArith Lia.

(** * Classified errors *)

Inductive ErrKind := KindUnknown | KindNetwork | KindProtocol | KindPolicy.
#[export] Instance ErrKind_eq_dec : EqDecision ErrKind.
Proof. solve_decision. Defined.

Definition ErrKind_String (k : ErrKind) : string :=
  match k with
  | KindNetwork => "network"
  | KindProtocol => "protocol"
  | KindPolicy => "policy"
  | KindUnknown => "unknown"
  end.

(** Error values as [errors.As] sees them: a plain error, one that [fmt.Errorf]
    wraps with [%w], and the package's own [Error], whose cause may be nil. *)
Inductive gerror :=
  | ErrorsNew (msg : string)
  | Errorf (msg : string) (e : gerror)
  | Error (k : ErrKind) (e : option gerror).

Fixpoint Error_Error (e : gerror) : string :=
  match e with
  | ErrorsNew msg => msg
  | Errorf msg e => msg +:+ ": " +:+ Error_Error e
  | Error k e => ErrKind_String k +:+ " error: " +:+ match e with Some e => Error_Error e | None => "<nil>" end
  end.

Definition Unwrap (e : gerror) : option gerror :=
  match e with
  | ErrorsNew _ => None
  | Errorf _ e => Some e
  | Error _ e => e
  end.

(** The constructors take and return Go errors: [None] is nil. *)
Definition NetworkError (err : option gerror) : option gerror := Some (Error KindNetwork err).
Definition ProtocolError (err : option gerror) : option gerror :=
  match err with None => None | Some _ => Some (Error KindProtocol err) end.
Definition PolicyError (err : option gerror) : option gerror :=
  match err with None => None | Some _ => Some (Error KindPolicy err) end.

(** [errors.As] walks the chain of [Unwrap] to the first [Error]. *)
Fixpoint KindOf_chain (e : gerror) : ErrKind :=
  match e with
  | ErrorsNew _ => KindUnknown
  | Errorf _ e => KindOf_chain e
  | Error k _ => k
  end.
Definition KindOf (err : option gerror) : ErrKind :=
  match err with None => KindUnknown | Some e => KindOf_chain e end.

(** * Connections *)

Record Meta := mkMeta {
  ID : string;
  Listener : string;
  Remote : string;
  Identity : string;
  Target : string;
}.

(** [%06d] *)
Fixpoint digits (fuel : nat) (n : Z) (acc : list Z) : list Z :=
  match fuel with
  | O => acc
  | S fuel => if n <? 10 then n :: acc else digits fuel (n / 10) (n mod 10 :: acc)
  end.
Definition digit_char (d : Z) : ascii := ascii_of_nat (48 + Z.to_nat d).
Definition conn_id_digits (n : Z) : list Z :=
  let ds := digits (S (Z.to_nat (Z.log2 n))) n [] in
  replicate (6 - length ds) 0 ++ ds.
Definition conn_id (n : Z) : string :=
  "conn-" +:+ String.string_of_list_ascii (digit_char <$> conn_id_digits n).

(** What [Wrap] uses of the [net.Conn] it wraps: its remote address, if any, and
    the result of its own [CloseWrite], if it has one. *)
Record net_conn := mkNetConn {
  nc_remote : option string;
  nc_close_write : option (option gerror);
}.

Record wrapped := mkWrapped {
  w_conn : net_conn;
  w_meta : Meta;
  targetSet : bool;
}.

Definition ErrNotSupported : gerror := ErrorsNew "rainnet: operation not supported on this connection".

(** [Wrap] with the process-wide counter [connSeq]. *)
Definition Wrap (connSeq : Z) (c : net_conn) (meta : Meta) : Z * wrapped :=
  let '(connSeq, meta) :=
    if decide (ID meta = "") then
      let seq := u64 (connSeq + 1) in
      (seq, mkMeta (conn_id seq) (Listener meta) (Remote meta) (Identity meta) (Target meta))
    else (connSeq, meta) in
  let meta :=
    match nc_remote c with
    | Some a => if decide (Remote meta = "")
                then mkMeta (ID meta) (Listener meta) a (Identity meta) (Target meta) else meta
    | None => meta
    end in
  (connSeq, mkWrapped c meta false).

Definition CloseWrite (w : wrapped) : option gerror :=
  match nc_close_write (w_conn w) with
  | Some res => res
  | None => Some ErrNotSupported
  end.

Definition SetTarget (target : string) (w : wrapped) : wrapped :=
  if targetSet w then w
  else mkWrapped (w_conn w)
         (mkMeta (ID (w_meta w)) (Listener (w_meta w)) (Remote (w_meta w)) (Identity (w_meta w)) target) true.

(** * Errors keep their class *)

(** Wrapping with more context never changes the class of an error, the class is
    that of the outermost classification, and an error nobody classified has
    none. *)
Lemma KindOf_spec e :
  (∀ msg, KindOf (Some (Errorf msg e)) = KindOf (Some e)) ∧
  KindOf (ProtocolError (Some e)) = KindProtocol ∧
  KindOf (PolicyError (Some e)) = KindPolicy ∧
  KindOf (NetworkError (Some e)) = KindNetwork ∧
  KindOf (ProtocolError None) = KindUnknown ∧ KindOf (PolicyError None) = KindUnknown.
Proof. done. Qed.

(** [errors.As] as a search along [Unwrap]. *)
Inductive as_error : gerror → gerror → Prop :=
  | as_here k c : as_error (Error k c) (Error k c)
  | as_unwrap e e' r : (∀ k c, e ≠ Error k c) → Unwrap e = Some e' → as_error e' r → as_error e r.

Lemma KindOf_As e : KindOf_chain e ≠ KindUnknown → ∃ c, as_error e (Error (KindOf_chain e) c).
Proof.
  induction e as [msg|msg e IH|k c] using gerror_ind; simpl; intros Hk; [done| |].
  - destruct (IH Hk) as [c Hc]. exists c. by eapply as_unwrap.
  - exists c. constructor.
Qed.

(** A nil error classified as a network error is an error: unlike the two other
    constructors, [NetworkError] does not pass nil through. *)
Theorem NetworkError_nil :
  NetworkError None ≠ None ∧ ProtocolError None = None ∧ PolicyError None = None ∧
  KindOf (NetworkError None) = KindNetwork.
Proof. done. Qed.

(** * Connection numbers *)

Definition value (ds : list Z) : Z := fold_left (λ a d, 10 * a + d) ds 0.

Lemma value_acc ds a : fold_left (λ a d, 10 * a + d) ds a = a * 10 ^ Z.of_nat (length ds) + value ds.
Proof.
  unfold value. revert a. induction ds as [|d ds IH]; intros a; cbn [fold_left length]; [simpl; lia|].
  rewrite IH, (IH (10 * 0 + d)), Nat2Z.inj_succ, Z.pow_succ_r by lia. lia.
Qed.

Lemma value_app l1 l2 : value (l1 ++ l2) = value l1 * 10 ^ Z.of_nat (length l2) + value l2.
Proof. unfold value at 1. rewrite fold_left_app. apply value_acc. Qed.

Lemma digits_value fuel n acc :
  0 ≤ n < 10 ^ Z.of_nat fuel → value (digits fuel n acc) = n * 10 ^ Z.of_nat (length acc) + value acc.
Proof.
  revert n acc. induction fuel as [|fuel IH]; intros n acc Hn; cbn [digits].
  { change (10 ^ Z.of_nat 0) with 1 in Hn. lia. }
  rewrite Nat2Z.inj_succ, Z.pow_succ_r in Hn by lia. destruct (Z.ltb_spec n 10).
  - change (n :: acc) with ([n] ++ acc). rewrite value_app. unfold value at 1. cbn. lia.
  - rewrite IH by (split; [apply Z.div_pos; lia|apply Z.div_lt_upper_bound; lia]).
    change (n mod 10 :: acc) with ([n mod 10] ++ acc).
    rewrite value_app, length_app. cbn [length]. rewrite Nat2Z.inj_add, Z.pow_add_r by lia.
    unfold value at 1. cbn [fold_left]. change (10 ^ Z.of_nat 1) with 10.
    rewrite (Z.div_mod n 10) at 3 by lia. lia.
Qed.

Lemma value_zeros n : value (replicate n 0) = 0.
Proof. unfold value. induction n; simpl; done. Qed.

Lemma conn_id_value n : 0 ≤ n → value (conn_id_digits n) = n.
Proof.
  intros Hn. unfold conn_id_digits. rewrite value_app, value_zeros.
  rewrite digits_value; [cbn; lia|]. split; [done|].
  rewrite Nat2Z.inj_succ, Z2Nat.id by apply Z.log2_nonneg.
  destruct (Z.eq_dec n 0) as [->|]; [done|].
  apply (Z.lt_le_trans _ (2 ^ Z.succ (Z.log2 n))); [apply Z.log2_spec; lia|].
  apply Z.pow_le_mono_l. lia.
Qed.

Lemma digits_range fuel n acc :
  0 ≤ n → Forall (λ d, 0 ≤ d < 10) acc → Forall (λ d, 0 ≤ d < 10) (digits fuel n acc).
Proof.
  revert n acc. induction fuel as [|fuel IH]; intros n acc Hn Ha; cbn [digits]; [done|].
  destruct (Z.ltb_spec n 10); [by constructor|].
  apply IH; [apply Z.div_pos; lia|]. constructor; [apply Z.mod_pos_bound; lia|done].
Qed.

Lemma digit_char_inj l1 l2 :
  Forall (λ d, 0 ≤ d < 10) l1 → Forall (λ d, 0 ≤ d < 10) l2 → digit_char <$> l1 = digit_char <$> l2 → l1 = l2.
Proof.
  intros H1. revert l2. induction H1 as [|d l1 Hd _ IH]; intros [|d' l2] H2 He; try done.
  apply Forall_cons in H2 as [Hd' H2]. cbn in He. injection He as Hc He.
  f_equal; [|by apply IH].
  unfold digit_char in Hc. apply (f_equal nat_of_ascii) in Hc. rewrite !nat_ascii_embedding in Hc by lia. lia.
Qed.

Lemma conn_id_inj n m : 0 ≤ n → 0 ≤ m → conn_id n = conn_id m → n = m.
Proof.
  intros Hn Hm He. unfold conn_id in He. apply (inj _) in He.
  apply (f_equal String.list_ascii_of_string) in He. rewrite !String.list_ascii_of_string_of_list_ascii in He.
  apply digit_char_inj in He; [|apply Forall_app_2; [by apply Forall_replicate|by apply digits_range]..].
  rewrite <- (conn_id_value n), <- (conn_id_value m) by done. by rewrite He.
Qed.

(** Wrapping a sequence of connections. *)
Fixpoint Wrap_all (connSeq : Z) (cs : list (net_conn * Meta)) : Z * list wrapped :=
  match cs with
  | [] => (connSeq, [])
  | (c, m) :: cs =>
      let '(connSeq, w) := Wrap connSeq c m in
      let '(connSeq, ws) := Wrap_all connSeq cs in
      (connSeq, w :: ws)
  end.

Lemma Wrap_ID seq c m : ID (w_meta (Wrap seq c m).2) = if decide (ID m = "") then conn_id (u64 (seq + 1)) else ID m.
Proof. unfold Wrap. destruct (decide (ID m = "")), (nc_remote c); simpl; try done; by destruct (decide (Remote m = "")). Qed.

Lemma Wrap_seq seq c m : (Wrap seq c m).1 = if decide (ID m = "") then u64 (seq + 1) else seq.
Proof. unfold Wrap. by destruct (decide (ID m = "")). Qed.

Lemma Wrap_all_ids seq cs i w :
  0 ≤ seq → seq + Z.of_nat (length cs) < 2 ^ 64 → Forall (λ cm, ID cm.2 = "") cs →
  (Wrap_all seq cs).2 !! i = Some w → ID (w_meta w) = conn_id (seq + Z.of_nat i + 1).
Proof.
  revert seq i. induction cs as [|[c m] cs IH]; intros seq i Hs Hl Hid Hi; [done|].
  apply Forall_cons in Hid as [Hm Hid]. cbn [Wrap_all] in Hi. cbn [length] in Hl.
  pose proof (Wrap_seq seq c m) as H1. pose proof (Wrap_ID seq c m) as H2.
  rewrite decide_True in H1 by done. rewrite decide_True in H2 by done.
  assert (u64 (seq + 1) = seq + 1) as Hu by (apply Z.mod_small; lia). rewrite Hu in H1, H2.
  destruct (Wrap seq c m) as [seq1 w1]. cbn [fst snd] in *. subst seq1.
  destruct (Wrap_all (seq + 1) cs) as [seq2 ws] eqn:Hw. destruct i as [|i]; simplify_eq/=.
  { rewrite H2. f_equal. lia. }
  specialize (IH (seq + 1) i). rewrite Hw in IH. rewrite IH by (done || lia). f_equal. lia.
Qed.

(** The identifiers [Wrap] invents are distinct: of two connections wrapped
    without one, the log tells them apart. *)
Theorem Wrap_unique seq cs i j w w' :
  0 ≤ seq → seq + Z.of_nat (length cs) < 2 ^ 64 → Forall (λ cm, ID cm.2 = "") cs →
  (Wrap_all seq cs).2 !! i = Some w → (Wrap_all seq cs).2 !! j = Some w' →
  ID (w_meta w) = ID (w_meta w') → i = j.
Proof.
  intros Hs Hl Hid Hi Hj He.
  rewrite (Wrap_all_ids seq cs i w), (Wrap_all_ids seq cs j w') in He by done.
  apply conn_id_inj in He; lia.
Qed.

Theorem Wrap_unique_witness :
  ∃ w w', (Wrap_all 0 [(mkNetConn None None, mkMeta "" "" "" "" ""); (mkNetConn None None, mkMeta "" "" "" "" "")]).2
            = [w; w'] ∧ (ID (w_meta w) = ID (w_meta w') → 0%nat = 1%nat).
Proof.
  eexists _, _. split; [reflexivity|].
  apply (Wrap_unique 0 [(mkNetConn None None, mkMeta "" "" "" "" ""); (mkNetConn None None, mkMeta "" "" "" "" "")] 0 1);
    [lia|simpl; lia|by repeat constructor|reflexivity|reflexivity].
Defined.

(** The target is written once: of a sequence of [SetTarget] the first decides,
    and no other field ever changes. *)
Theorem SetTarget_once w t ts :
  targetSet w = false →
  let w' := foldl (λ w t, SetTarget t w) w (t :: ts) in
  Target (w_meta w') = t ∧ w_conn w' = w_conn w ∧ ID (w_meta w') = ID (w_meta w) ∧
  Remote (w_meta w') = Remote (w_meta w) ∧ Identity (w_meta w') = Identity (w_meta w) ∧
  Listener (w_meta w') = Listener (w_meta w).
Proof.
  intros Hw. cbn [foldl].
  assert (SetTarget t w = mkWrapped (w_conn w)
    (mkMeta (ID (w_meta w)) (Listener (w_meta w)) (Remote (w_meta w)) (Identity (w_meta w)) t) true) as ->.
  { unfold SetTarget. by rewrite Hw. }
  set (w1 := mkWrapped _ _ true). assert (foldl (λ w t, SetTarget t w) w1 ts = w1) as ->; [|done].
  induction ts as [|t' ts IH]; [done|]. exact IH.
Qed.

Example conn_id_7 : conn_id 7 = "conn-000007".
Proof. reflexivity. Qed.
Example conn_id_big : conn_id 1234567 = "conn-1234567".
Proof. reflexivity. Qed.
