(* ===== verification/Decorator.v ===== *)
(** The connection decorators (internal/decorator): the token bucket
    (limiter.go), the rate-limited connection (ratelimit.go), the byte counters
    (accounting.go) and the admission gate (admission.go).

    Times are nanoseconds since the zero [time.Time]; tokens are rationals where
    the code has [float64], so that rounding is left out and everything else is
    exact. *)
From S2P Require Import Prelude Rainnet.
From Stdlib Require Import ZArith Lia QArith Qminmax Qround Lqa.
Open Scope Z_scope.

(** * The token bucket *)

(** [rate] is the refill per second and the capacity. *)
Record bucket := mkBucket { rate : Q; tokens : Q; last : Z }.

Definition newBucket (r : Q) : bucket := mkBucket r r 0.

(** [time.Time.Sub] saturates at the ends of [int64]. *)
Definition Sub (now last : Z) : Z := Z.max (- 2 ^ 63) (Z.min (2 ^ 63 - 1) (now - last)).
Definition seconds (d : Z) : Q := inject_Z d / inject_Z (10 ^ 9).

(** The refill both operations begin with. *)
Definition refill (b : bucket) (now : Z) : bucket :=
  let t := (tokens b + seconds (Sub now (last b)) * rate b)%Q in
  mkBucket (rate b) (if Qle_bool t (rate b) then t else rate b) now.

(** One turn of the loop of [take], under the lock: the tokens taken and what
    remains to be taken. *)
Definition take_turn (b : bucket) (now : Z) (remaining : Q) : bucket * Q :=
  let b := refill b now in
  let took := Qmin (tokens b) remaining in
  if Qle_bool took 0 then (b, remaining)
  else (mkBucket (rate b) (tokens b - took)%Q (last b), (remaining - took)%Q).

(** [remaining <= 1e-9] *)
Definition taken (remaining : Q) : bool := Qle_bool remaining (1 # 1000000000).

(** The sleep between two turns: [1 / rate] seconds, between a millisecond and a
    tenth of a second. A duration out of range converts to the least [int64]. *)
Definition wait (b : bucket) : Z :=
  let w := Qfloor (inject_Z (10 ^ 9) / rate b) in
  let w := if (w <? - 2 ^ 63) || (2 ^ 63 - 1 <? w) then - 2 ^ 63 else w in
  let w := if 10 ^ 8 <? w then 10 ^ 8 else w in
  if w <? 10 ^ 6 then 10 ^ 6 else w.

Inductive take_result := Taken | Cancelled | Waiting (remaining : Q).

(** [take] with the times of its turns and, for each, whether the context ends
    while it waits. *)
Fixpoint take (b : bucket) (turns : list (Z * bool)) (remaining : Q) : bucket * take_result :=
  match turns with
  | [] => (b, Waiting remaining)
  | (now, cancelled) :: turns =>
      let '(b, remaining) := take_turn b now remaining in
      if taken remaining then (b, Taken)
      else if cancelled then (b, Cancelled)
      else take b turns remaining
  end.

Definition tryTake (b : bucket) (now : Z) (n : Q) : bucket * bool :=
  let b := refill b now in
  if Qle_bool n (tokens b) then (mkBucket (rate b) (tokens b - n)%Q (last b), true) else (b, false).

(** * The rate-limited connection *)

(** [NewRateLimit]: no limit for a rate that is not positive. *)
Definition NewRateLimit (bytesPerSec : Q) : option bucket :=
  if Qle_bool bytesPerSec 0 then None else Some (newBucket bytesPerSec).

(** [Read] and [Write] take the length of the buffer, whatever the connection
    then transfers; [op] is the operation of the wrapped connection. *)
Definition limited {R} (b : bucket) (turns : list (Z * bool)) (len : nat) (op : unit → R) :
    bucket * option R :=
  match take b turns (inject_Z (Z.of_nat len)) with
  | (b, Taken) => (b, Some (op tt))
  | (b, _) => (b, None)
  end.

(** * Counters *)

Record Counters := mkCounters { In : Z; Out : Z }.

(** One call of the wrapped connection with the count it returned; the counts
    are added whether or not it also returned an error. *)
Inductive io_call := CRead (n : nat) (err : bool) | CWrite (n : nat) (err : bool).

Definition accounting (c : Counters) (call : io_call) : Counters :=
  match call with
  | CRead n _ => mkCounters (u64 (In c + Z.of_nat n)) (Out c)
  | CWrite n _ => mkCounters (In c) (u64 (Out c + Z.of_nat n))
  end.

(** * The admission gate *)

Record Gate := mkGate {
  maxConns : Z;
  identity : Q;
  cur : Z;
  buckets : gmap string bucket;
}.

Definition NewGate (maxConns : Z) (identityQPS : Q) : Gate := mkGate maxConns identityQPS 0 ∅.

Definition set_cur (n : Z) (g : Gate) : Gate := mkGate (maxConns g) (identity g) n (buckets g).
Definition set_buckets (m : gmap string bucket) (g : Gate) : Gate := mkGate (maxConns g) (identity g) (cur g) m.

Definition Release (g : Gate) : Gate := set_cur (i64 (cur g - 1)) g.
Definition InUse (g : Gate) : Z := cur g.

Definition errAdmissionFull : gerror := ErrorsNew "admission: connection limit reached".
Definition errAdmissionRate : gerror := ErrorsNew "admission: identity rate exceeded".

(** Where a goroutine in [Acquire] stands. [GLoad] reads the counter, [GCas]
    tries to exchange it, [GBucket] looks its bucket up, [GTry] takes a token,
    [GUndo] gives the slot back, [GHeld] has been admitted. *)
Inductive gphase :=
  | GLoad (id : string)
  | GCas (id : string) (seen : Z)
  | GBucket (id : string)
  | GTry (id : string)
  | GUndo
  | GHeld (id : string)
  | GRefused (err : option gerror)
  | GReleased.

(** One step of a goroutine at time [now]; [None] when it has none. *)
Definition gstep (g : Gate) (ph : gphase) (now : Z) : option (Gate * gphase) :=
  match ph with
  | GLoad id =>
      if (0 <? maxConns g) && (maxConns g <=? cur g) then Some (g, GRefused (PolicyError (Some errAdmissionFull)))
      else Some (g, GCas id (cur g))
  | GCas id seen =>
      if cur g =? seen then
        Some (set_cur (i64 (seen + 1)) g,
              if negb (Qle_bool (identity g) 0) && bool_decide (id ≠ "") then GBucket id else GHeld id)
      else Some (g, GLoad id)
  | GBucket id =>
      Some (match buckets g !! id with
            | Some _ => g
            | None => set_buckets (<[id := newBucket (identity g)]> (buckets g)) g
            end, GTry id)
  | GTry id =>
      match buckets g !! id with
      | None => None
      | Some b =>
          let '(b, ok) := tryTake b now 1 in
          Some (set_buckets (<[id := b]> (buckets g)) g, if ok then GHeld id else GUndo)
      end
  | GUndo => Some (Release g, GRefused (PolicyError (Some errAdmissionRate)))
  | GHeld _ => Some (Release g, GReleased)
  | GRefused _ | GReleased => None
  end.

(** The goroutines that use the gate; an event names one and the time. *)
Record gsys := mkGsys { gate : Gate; procs : list gphase }.

Definition gapply (s : gsys) (ev : nat * Z) : option gsys :=
  ph ← procs s !! ev.1;
  '(g, ph) ← gstep (gate s) ph ev.2;
  Some (mkGsys g (<[ev.1 := ph]> (procs s))).

Fixpoint grun (s : gsys) (evs : list (nat * Z)) : option gsys :=
  match evs with
  | [] => Some s
  | ev :: evs => s ← gapply s ev; grun s evs
  end.

(** [Acquire] as one goroutine alone runs it. *)
Definition Acquire (g : Gate) (now : Z) (id : string) : Gate * option gerror :=
  if (0 <? maxConns g) && (maxConns g <=? cur g) then (g, PolicyError (Some errAdmissionFull))
  else
    let g := set_cur (i64 (cur g + 1)) g in
    if negb (Qle_bool (identity g) 0) && bool_decide (id ≠ "") then
      let b := default (newBucket (identity g)) (buckets g !! id) in
      let '(b, ok) := tryTake b now 1 in
      let g := set_buckets (<[id := b]> (buckets g)) g in
      if ok then (g, None) else (Release g, PolicyError (Some errAdmissionRate))
    else (g, None).

(** * The bucket keeps to its rate *)

Definition bucket_ok (b : bucket) : Prop := (0 < rate b)%Q ∧ (0 <= tokens b)%Q ∧ (tokens b <= rate b)%Q.

Lemma Qle_bool_false x y : Qle_bool x y = false → (y < x)%Q.
Proof. intros H. apply Qnot_le_lt. intros Hle. apply Qle_bool_iff in Hle. congruence. Qed.

Lemma seconds_mono a b : a ≤ b → (seconds a <= seconds b)%Q.
Proof.
  intros H. unfold seconds. apply Qmult_le_compat_r; [by rewrite <- Zle_Qle|]. discriminate.
Qed.

Lemma seconds_add a b : (seconds (a + b) == seconds a + seconds b)%Q.
Proof. unfold seconds. rewrite inject_Z_plus. field. discriminate. Qed.

Lemma seconds_nonneg d : 0 ≤ d → (0 <= seconds d)%Q.
Proof. intros H. apply (seconds_mono 0 d) in H. assert (seconds 0 == 0)%Q by reflexivity. lra. Qed.

Lemma Sub_bounds now last : last ≤ now → 0 ≤ Sub now last ≤ now - last.
Proof. unfold Sub. lia. Qed.

Lemma refill_bounds b now :
  bucket_ok b → last b ≤ now →
  bucket_ok (refill b now) ∧ rate (refill b now) = rate b ∧ last (refill b now) = now ∧
  (tokens b <= tokens (refill b now))%Q ∧
  (tokens (refill b now) <= tokens b + seconds (now - last b) * rate b)%Q.
Proof.
  intros (Hr&H0&Ht) Hn. destruct (Sub_bounds now (last b) Hn) as [Hs1 Hs2].
  pose proof (seconds_nonneg _ Hs1) as Hp. pose proof (seconds_mono _ _ Hs2) as Hm.
  assert (0 <= seconds (Sub now (last b)) * rate b)%Q by (apply Qmult_le_0_compat; lra).
  assert (seconds (Sub now (last b)) * rate b <= seconds (now - last b) * rate b)%Q
    by (apply Qmult_le_compat_r; lra).
  unfold refill, bucket_ok. cbn [rate tokens last].
  destruct (Qle_bool (tokens b + seconds (Sub now (last b)) * rate b) (rate b)) eqn:E.
  - apply Qle_bool_iff in E. split_and!; try done; lra.
  - apply Qle_bool_false in E. split_and!; try done; lra.
Qed.

(** What each operation does to the tokens, in terms of what it takes. *)
Lemma take_turn_spec b now n b' n' :
  bucket_ok b → last b ≤ now → (0 <= n)%Q → take_turn b now n = (b', n') →
  bucket_ok b' ∧ rate b' = rate b ∧ last b' = now ∧ (0 <= n')%Q ∧ (n' <= n)%Q ∧
  (tokens b' + (n - n') <= tokens b + seconds (now - last b) * rate b)%Q ∧
  (tokens b' + (n - n') == tokens (refill b now))%Q ∧ ((0 < n')%Q → (tokens b' == 0)%Q).
Proof.
  intros Hb Hl Hn Ht. destruct (refill_bounds b now Hb Hl) as ((Hr&H0&H1)&Hrate&Hlast&_&Hle).
  unfold take_turn in Ht. pose proof (Q.min_spec (tokens (refill b now)) n) as Hmin.
  unfold bucket_ok in *. rewrite Hrate in *.
  destruct (Qle_bool (Qmin (tokens (refill b now)) n) 0) eqn:E; simplify_eq; cbn [rate tokens last].
  - apply Qle_bool_iff in E. rewrite Hrate. destruct Hmin as [[]|[]]; split_and!; try done; intros; lra.
  - apply Qle_bool_false in E. rewrite ?Hrate. destruct Hmin as [[]|[]]; split_and!; try done; intros; lra.
Qed.

Lemma tryTake_spec b now n b' ok :
  bucket_ok b → last b ≤ now → (0 <= n)%Q → tryTake b now n = (b', ok) →
  bucket_ok b' ∧ rate b' = rate b ∧ last b' = now ∧
  (tokens b' + (if ok then n else 0) <= tokens b + seconds (now - last b) * rate b)%Q ∧
  (tokens b' + (if ok then n else 0) <= rate b)%Q.
Proof.
  intros Hb Hl Hn Ht. destruct (refill_bounds b now Hb Hl) as ((Hr&H0&H1)&Hrate&Hlast&_&Hle).
  unfold tryTake in Ht. unfold bucket_ok in *. rewrite Hrate in *.
  destruct (Qle_bool n (tokens (refill b now))) eqn:E; simplify_eq; cbn [rate tokens last]; rewrite ?Hrate.
  - apply Qle_bool_iff in E. split_and!; try done; lra.
  - split_and!; try done; lra.
Qed.

(** Operations on one bucket by any number of goroutines, in the order in which
    they hold its lock: turns of [take] and calls of [tryTake]. *)
Inductive bucket_op := OTurn (remaining : Q) | OTry (n : Q).

Definition op_amount (op : bucket_op) : Q := match op with OTurn n => n | OTry n => n end.

Definition bucket_step (b : bucket) (now : Z) (op : bucket_op) : bucket * Q :=
  match op with
  | OTurn n => let '(b, n') := take_turn b now n in (b, (n - n')%Q)
  | OTry n => let '(b, ok) := tryTake b now n in (b, if ok then n else 0%Q)
  end.

Fixpoint bucket_run (b : bucket) (ops : list (Z * bucket_op)) : bucket * Q :=
  match ops with
  | [] => (b, 0%Q)
  | (now, op) :: ops =>
      let '(b, n) := bucket_step b now op in
      let '(b, m) := bucket_run b ops in
      (b, (n + m)%Q)
  end.

(** The clock does not go back, and amounts are not negative. *)
Fixpoint ops_from (t : Z) (ops : list (Z * bucket_op)) : Prop :=
  match ops with
  | [] => True
  | (now, op) :: ops => t ≤ now ∧ (0 <= op_amount op)%Q ∧ ops_from now ops
  end.

Lemma bucket_step_spec b now op b' n :
  bucket_ok b → last b ≤ now → (0 <= op_amount op)%Q → bucket_step b now op = (b', n) →
  bucket_ok b' ∧ rate b' = rate b ∧ last b' = now ∧
  (tokens b' + n <= tokens b + seconds (now - last b) * rate b)%Q ∧ (tokens b' + n <= rate b)%Q.
Proof.
  intros Hb Hl Hn Hs. destruct op as [m|m]; cbn [bucket_step op_amount] in *.
  - destruct (take_turn b now m) as [b1 m'] eqn:E. simplify_eq.
    apply take_turn_spec in E as (?&?&?&?&?&?&He&_); [|done..].
    destruct (refill_bounds b now Hb Hl) as ((_&_&Hr)&Hrate&_). rewrite Hrate in Hr.
    split_and!; try done. lra.
  - destruct (tryTake b now m) as [b1 ok] eqn:E. simplify_eq. by apply tryTake_spec in E.
Qed.

Lemma bucket_run_bound b ops b' total :
  bucket_ok b → ops_from (last b) ops → bucket_run b ops = (b', total) →
  bucket_ok b' ∧ rate b' = rate b ∧ last b ≤ last b' ∧
  (tokens b' + total <= tokens b + seconds (last b' - last b) * rate b)%Q.
Proof.
  revert b total. induction ops as [|[now op] ops IH]; intros b total Hb Ho Hr; cbn [bucket_run ops_from] in *.
  - simplify_eq. split_and!; try done. rewrite Z.sub_diag. assert (seconds 0 == 0)%Q as -> by reflexivity. lra.
  - destruct (bucket_step b now op) as [b1 n] eqn:Hs. destruct (bucket_run b1 ops) as [b2 m] eqn:Hm.
    simplify_eq. destruct Ho as (Hl&Hn&Ho).
    apply bucket_step_spec in Hs as (Hb1&Hr1&Hl1&Hs&_); [|done..].
    rewrite <- Hl1 in Ho. destruct (IH b1 m Hb1 Ho Hm) as (Hb2&Hr2&Hl2&Hs2).
    split_and!; [done|congruence|lia|]. rewrite Hr1 in Hs2.
    assert (seconds (last b' - last b) == seconds (now - last b) + seconds (last b' - last b1))%Q as ->.
    { rewrite <- seconds_add. replace (last b' - last b) with (now - last b + (last b' - last b1)) by lia. reflexivity. }
    rewrite Qmult_plus_distr_l. lra.
Qed.

Lemma newBucket_ok r : (0 < r)%Q → bucket_ok (newBucket r).
Proof. intros. unfold bucket_ok, newBucket. cbn. split_and!; lra. Qed.

(** A bucket keeps to its rate: from its first use on, in any interleaving of
    blocking and non-blocking takes, the tokens given out never exceed one
    second's worth (the burst) plus the rate times the time elapsed. *)
Theorem bucket_rate_bound r t op ops b total :
  (0 < r)%Q → ops_from 0 ((t, op) :: ops) → bucket_run (newBucket r) ((t, op) :: ops) = (b, total) →
  (total <= r + seconds (last b - t) * r)%Q.
Proof.
  intros Hr (Ht&Hn&Ho) Hrun. cbn [bucket_run] in Hrun.
  destruct (bucket_step (newBucket r) t op) as [b1 n] eqn:Hs. destruct (bucket_run b1 ops) as [b2 m] eqn:Hm.
  simplify_eq. apply bucket_step_spec in Hs as (Hb1&Hr1&Hl1&_&Hs); [|by apply newBucket_ok|done..].
  cbn [newBucket rate] in *. rewrite <- Hl1 in Ho.
  destruct (bucket_run_bound _ _ _ _ Hb1 Ho Hm) as ((_&Ht0&_)&_&_&Hs2). rewrite Hr1, Hl1 in Hs2. lra.
Qed.

Theorem bucket_rate_bound_witness :
  ∃ b total, bucket_run (newBucket 2) [(5, OTry 1); (6, OTurn 3)] = (b, total) ∧
             (total <= 2 + seconds (last b - 5) * 2)%Q.
Proof.
  destruct (bucket_run (newBucket 2) [(5, OTry 1); (6, OTurn 3)]) as [b total] eqn:E.
  exists b, total. split; [reflexivity|].
  apply (bucket_rate_bound 2 5 (OTry 1) [(6, OTurn 3)]); [reflexivity| |exact E].
  cbn. split_and!; try lia; discriminate.
Defined.

(** * A blocked take ends *)

(** The turns of a [take] nobody cancels: at most a second apart. *)
Fixpoint turns_from (t : Z) (turns : list (Z * bool)) : Prop :=
  match turns with
  | [] => True
  | (now, cancelled) :: turns => t ≤ now ≤ t + 10 ^ 9 ∧ cancelled = false ∧ turns_from now turns
  end.

Fixpoint last_turn (t : Z) (turns : list (Z * bool)) : Z :=
  match turns with [] => t | (now, _) :: turns => last_turn now turns end.

Lemma taken_false n : taken n = false → (0 < n)%Q.
Proof. intros H%Qle_bool_false. lra. Qed.

Lemma refill_empty b now :
  bucket_ok b → (tokens b == 0)%Q → last b ≤ now ≤ last b + 10 ^ 9 →
  (tokens (refill b now) == seconds (now - last b) * rate b)%Q.
Proof.
  intros (Hr&_) Ht Hn. unfold refill. cbn [tokens].
  assert (Sub now (last b) = now - last b) as -> by (unfold Sub; lia).
  destruct (Qle_bool _ _) eqn:E; [lra|]. apply Qle_bool_false in E.
  assert (seconds (now - last b) <= seconds (10 ^ 9))%Q as Hs by (apply seconds_mono; lia).
  assert (seconds (10 ^ 9) == 1)%Q as H1 by reflexivity. rewrite H1 in Hs.
  assert (seconds (now - last b) * rate b <= 1 * rate b)%Q by (apply Qmult_le_compat_r; lra). lra.
Qed.

Lemma take_empty b turns n :
  bucket_ok b → (tokens b == 0)%Q → turns_from (last b) turns → (0 < n)%Q →
  (n <= seconds (last_turn (last b) turns - last b) * rate b)%Q → (take b turns n).2 = Taken.
Proof.
  revert b n. induction turns as [|[now c] turns IH]; intros b n Hb Ht0 Hts Hn Hle; cbn [last_turn turns_from] in *.
  { rewrite Z.sub_diag in Hle. assert (seconds 0 == 0)%Q as E by reflexivity. rewrite E in Hle. lra. }
  destruct Hts as (Hnow&->&Hts). cbn [take]. destruct (take_turn b now n) as [b1 n1] eqn:E.
  apply take_turn_spec in E as (Hb1&Hr1&Hl1&Hn0&Hn1&_&Heq&Hz); [|done|lia|lra].
  destruct (taken n1) eqn:Htk; [done|]. apply taken_false in Htk. specialize (Hz Htk).
  rewrite refill_empty in Heq by done. apply IH; [done|done|by rewrite Hl1|done|]. rewrite Hl1, Hr1.
  replace (last_turn now turns - last b) with (now - last b + (last_turn now turns - now)) in Hle by lia.
  rewrite seconds_add, Qmult_plus_distr_l in Hle. lra.
Qed.

(** A [take] that nobody cancels ends: when its turns are at most a second apart
    (it sleeps at most a tenth of one), the time in which the rate covers the
    request is enough. *)
Theorem take_ends b t turns n :
  bucket_ok b → last b ≤ t → turns_from t turns → (0 <= n)%Q →
  (n <= seconds (last_turn t turns - t) * rate b)%Q → (take b ((t, false) :: turns) n).2 = Taken.
Proof.
  intros Hb Ht Hts Hn Hle. cbn [take]. destruct (take_turn b t n) as [b1 n1] eqn:E.
  apply take_turn_spec in E as (Hb1&Hr1&Hl1&Hn0&Hn1&_&_&Hz); [|done..].
  destruct (taken n1) eqn:Htk; [done|]. apply taken_false in Htk.
  apply take_empty; [done|by apply Hz|by rewrite Hl1|done|]. rewrite Hl1, Hr1. lra.
Qed.

Theorem take_ends_witness :
  (take (newBucket 10) [(10 ^ 9, false); (10 ^ 9 + 5 * 10 ^ 8, false); (2 * 10 ^ 9, false)] 7).2 = Taken.
Proof.
  apply take_ends; [by apply newBucket_ok|simpl; lia| | |].
  - cbn. split_and!; try lia; done.
  - discriminate.
  - discriminate.
Defined.

(** The sleep between two turns is between a millisecond and a tenth of a second. *)
Lemma wait_bounds b : 10 ^ 6 ≤ wait b ≤ 10 ^ 8.
Proof. unfold wait. repeat (case_match; bool_to_prop); lia. Qed.

(** A read is charged for its buffer: whatever the connection delivers, the
    tokens of a whole buffer are gone. *)
Theorem read_charges_buffer b t len (op : unit → nat) :
  bucket_ok b → last b ≤ t → (inject_Z (Z.of_nat len) <= tokens b)%Q →
  ∃ b', limited b [(t, false)] len op = (b', Some (op tt)) ∧
        (tokens b' == tokens (refill b t) - inject_Z (Z.of_nat len))%Q.
Proof.
  intros Hb Ht Hle. unfold limited. cbn [take].
  assert (0 <= inject_Z (Z.of_nat len))%Q as Hn by (change 0%Q with (inject_Z 0); rewrite <- Zle_Qle; lia).
  destruct (refill_bounds b t Hb Ht) as (_&_&_&Hge&_).
  destruct (take_turn b t (inject_Z (Z.of_nat len))) as [b1 n1] eqn:E.
  pose proof E as E'. apply take_turn_spec in E' as (Hb1&Hr1&Hl1&Hn0&Hn1&_&Heq&Hz); [|done..].
  assert (n1 == 0)%Q as Hz1.
  { destruct (Qlt_le_dec 0 n1) as [Hp|]; [|lra]. specialize (Hz Hp). lra. }
  assert (taken n1 = true) as -> by (apply Qle_bool_iff; lra).
  exists b1. split; [done|]. lra.
Qed.

(** * The counters *)

Definition read_of (c : io_call) : nat := match c with CRead n _ => n | CWrite _ _ => 0 end.
Definition written_of (c : io_call) : nat := match c with CRead _ _ => 0 | CWrite n _ => n end.

(** The counters are the totals of what the connection reported, modulo 2^64,
    failed calls that transferred something included. *)
Theorem accounting_exact c calls :
  0 ≤ In c < 2 ^ 64 → 0 ≤ Out c < 2 ^ 64 →
  foldl accounting c calls =
    mkCounters (u64 (In c + Z.of_nat (sum_list_with read_of calls)))
               (u64 (Out c + Z.of_nat (sum_list_with written_of calls))).
Proof.
  assert (∀ a b, u64 (u64 a + b) = u64 (a + b)) as Hu by (intros; unfold u64; by rewrite Zplus_mod_idemp_l).
  assert (∀ a, 0 ≤ a < 2 ^ 64 → u64 (a + Z.of_nat 0) = a) as H0.
  { intros. rewrite Z.add_0_r. by apply Z.mod_small. }
  revert c. induction calls as [|call calls IH]; intros c Hi Ho.
  { cbn. rewrite !H0 by done. by destruct c. }
  cbn [foldl sum_list_with]. rewrite IH.
  - destruct call as [n e|n e]; cbn [accounting In Out read_of written_of]; rewrite ?Hu; do 2 f_equal; lia.
  - destruct call; cbn; [apply Z.mod_pos_bound; lia|done].
  - destruct call; cbn; [done|apply Z.mod_pos_bound; lia].
Qed.

Theorem accounting_exact_witness :
  foldl accounting (mkCounters 0 0) [CRead 3 false; CWrite 5 true; CRead 1 true] = mkCounters 4 5.
Proof. by apply (accounting_exact (mkCounters 0 0) [CRead 3 false; CWrite 5 true; CRead 1 true]). Defined.

(** * The gate *)

Definition holds (ph : gphase) : nat :=
  match ph with GBucket _ | GTry _ | GUndo | GHeld _ => 1 | _ => 0 end.
Definition holders (l : list gphase) : nat := sum_list_with holds l.

Lemma sum_list_insert {A} (f : A → nat) (l : list A) i x y :
  l !! i = Some x → (sum_list_with f (<[i := y]> l) + f x = sum_list_with f l + f y)%nat.
Proof.
  revert i. induction l as [|z l IH]; intros [|i] Hi; simplify_eq/=; [lia|]. specialize (IH i Hi). lia.
Qed.

Lemma holders_le l : (holders l ≤ length l)%nat.
Proof. unfold holders. induction l as [|ph l IH]; simpl; [done|]. destruct ph; simpl; lia. Qed.

Record gate_inv (mc : Z) (q : Q) (t : Z) (s : gsys) : Prop := {
  gi_max : maxConns (gate s) = mc;
  gi_qps : identity (gate s) = q;
  gi_cur : cur (gate s) = Z.of_nat (holders (procs s));
  gi_bound : 0 < mc → cur (gate s) ≤ mc;
  gi_len : Z.of_nat (length (procs s)) < 2 ^ 62;
  gi_cas : ∀ i id seen, procs s !! i = Some (GCas id seen) → 0 < mc → seen < mc;
  gi_try : ∀ i id, procs s !! i = Some (GTry id) → is_Some (buckets (gate s) !! id);
  gi_rate : ∀ id b, (0 < q)%Q → buckets (gate s) !! id = Some b → bucket_ok b ∧ rate b = q ∧ last b ≤ t;
  gi_pos : ∀ i id, procs s !! i = Some (GBucket id) ∨ procs s !! i = Some (GTry id) → (0 < q)%Q;
}.

Definition gsys0 (mc : Z) (q : Q) (ids : list string) : gsys := mkGsys (NewGate mc q) (GLoad <$> ids).

Lemma gate_inv_init mc q t ids : Z.of_nat (length ids) < 2 ^ 62 → gate_inv mc q t (gsys0 mc q ids).
Proof.
  intros Hl.
  assert (holders (GLoad <$> ids) = 0)%nat as Hh by (unfold holders; clear Hl; by induction ids).
  assert (∀ i ph, (GLoad <$> ids) !! i = Some ph → ∃ id, ph = GLoad id) as Hp.
  { intros i ph Hi. apply list_lookup_fmap_Some in Hi as (id&->&_). by eexists. }
  split; cbn; try done.
  - unfold holders in Hh. by rewrite Hh.
  - lia.
  - by rewrite length_fmap.
  - intros i id seen Hi. by apply Hp in Hi as [? ?].
  - intros i id Hi. by apply Hp in Hi as [? ?].
  - intros i id [Hi|Hi]; by apply Hp in Hi as [? ?].
Qed.

(** A step keeps the invariant if it keeps the count and the buckets in order. *)
Lemma gate_inv_next mc q t t' s i ph g' ph' :
  gate_inv mc q t s → procs s !! i = Some ph →
  maxConns g' = mc → identity g' = q →
  cur g' = cur (gate s) + Z.of_nat (holds ph') - Z.of_nat (holds ph) →
  (0 < mc → cur g' ≤ mc) →
  (∀ id seen, ph' = GCas id seen → 0 < mc → seen < mc) →
  (∀ id, ph' = GTry id → is_Some (buckets g' !! id)) →
  (∀ id, ph' = GBucket id ∨ ph' = GTry id → (0 < q)%Q) →
  (∀ id, is_Some (buckets (gate s) !! id) → is_Some (buckets g' !! id)) →
  (∀ id b, (0 < q)%Q → buckets g' !! id = Some b → bucket_ok b ∧ rate b = q ∧ last b ≤ t') →
  gate_inv mc q t' (mkGsys g' (<[i := ph']> (procs s))).
Proof.
  intros [] Hi Hm Hq Hc Hb Hcas Htry Hpos Hmono Hok.
  assert (∀ j x, <[i:=ph']> (procs s) !! j = Some x → x = ph' ∨ procs s !! j = Some x) as Hl.
  { intros j x. destruct (decide (i = j)) as [<-|]; [|rewrite list_lookup_insert_ne by done; by right].
    rewrite list_lookup_insert_eq by (by eapply lookup_lt_Some). intros; simplify_eq. by left. }
  split; cbn [gate procs]; try done.
  - pose proof (sum_list_insert holds (procs s) i ph ph' Hi). unfold holders in *. lia.
  - by rewrite length_insert.
  - intros j id seen [<-|Hj]%Hl; [by eapply Hcas|by eapply gi_cas0].
  - intros j id [<-|Hj]%Hl; [by apply Htry|]. apply Hmono. by eapply gi_try0.
  - intros j id [Hj|Hj]; apply Hl in Hj as [<-|Hj]; first [apply (Hpos id); by auto|eapply gi_pos0; by eauto].
Qed.

Lemma tryTake_ok b now n : bucket_ok b → (0 <= n)%Q → last b ≤ now → bucket_ok (tryTake b now n).1 ∧ rate (tryTake b now n).1 = rate b ∧ last (tryTake b now n).1 = now.
Proof. intros Hb Hn Hl. destruct (tryTake b now n) eqn:E. by apply tryTake_spec in E as (?&?&?&_). Qed.

Fixpoint times_from (t : Z) (evs : list (nat * Z)) : Prop :=
  match evs with [] => True | ev :: evs => t ≤ ev.2 ∧ times_from ev.2 evs end.

Ltac gate_next := eapply gate_inv_next; eauto; cbn; try done; try lia; try (by intros ? [|]).

Lemma gate_inv_step mc q t s i now s' :
  gate_inv mc q t s → 0 ≤ t ≤ now → gapply s (i, now) = Some s' → gate_inv mc q now s'.
Proof.
  intros Hi Ht Hs. unfold gapply in Hs. apply bind_Some in Hs as (ph&Hph&Hs). cbn [fst snd] in *.
  apply bind_Some in Hs as ([g' ph']&Hstep&Hs). simplify_eq.
  pose proof Hi as []. pose proof (holders_le (procs s)).
  assert (∀ id b, (0 < identity (gate s))%Q → buckets (gate s) !! id = Some b →
    bucket_ok b ∧ rate b = identity (gate s) ∧ last b ≤ now) as Hrate.
  { intros id b Hq Hb. destruct (gi_rate0 id b) as (?&?&?); [by rewrite <- gi_qps0|done|]. split_and!; [done|congruence|lia]. }
  assert ((0 < holds ph)%nat → 1 ≤ cur (gate s)) as Hpos.
  { intros Hh. rewrite gi_cur0. unfold holders. revert Hph Hh. clear.
    revert i. induction (procs s) as [|x l IH]; intros [|i]; simpl; intros; simplify_eq; [lia|].
    specialize (IH i ltac:(done) ltac:(done)). lia. }
  destruct ph; cbn [gstep] in Hstep; simplify_eq.
  - destruct (_ && _) eqn:Hfull; simplify_eq; gate_next.
    intros id' seen [= <- <-] Hm. apply andb_false_iff in Hfull as [H1|H1]; bool_to_prop; lia.
  - destruct (Z.eqb_spec (cur (gate s)) seen) as [<-|]; simplify_eq.
    + assert (i64 (cur (gate s) + 1) = cur (gate s) + 1) as Hw by (apply i64_small; lia).
      eapply gate_inv_next; eauto; cbn; rewrite ?Hw.
      * by destruct (_ && _); cbn; lia.
      * intros Hm. specialize (gi_cas0 _ _ _ Hph Hm). lia.
      * by destruct (_ && _).
      * by destruct (_ && _).
      * destruct (_ && _) eqn:E; [|naive_solver]. intros _ _. apply andb_true_iff in E as [E _].
        apply negb_true_iff, Qle_bool_false in E. done.
    + gate_next.
  - assert (0 < identity (gate s))%Q as Hq by (apply (gi_pos0 i id); by left).
    destruct (buckets (gate s) !! id) as [b|] eqn:Hb.
    + gate_next. intros ? [= <-]. by eexists.
    + gate_next.
      * intros ? [= <-]. rewrite lookup_insert_eq. by eexists.
      * intros id'. rewrite lookup_insert_is_Some. destruct (decide (id = id')); naive_solver.
      * intros id' b' _ [[<- <-]|[_ ?]]%lookup_insert_Some; [|by eapply Hrate].
        split; [by apply newBucket_ok|]. cbn. split; [done|lia].
  - assert (0 < identity (gate s))%Q as Hq by (apply (gi_pos0 i id); by right).
    destruct (buckets (gate s) !! id) as [b|] eqn:Hb; [|done].
    destruct (Hrate id b Hq Hb) as (Hok&Hr&Hl).
    pose proof (tryTake_ok b now 1 Hok ltac:(discriminate) Hl) as (Hok'&Hr'&Hl').
    destruct (tryTake b now 1) as [b' ok]; cbn [fst] in *. simplify_eq.
    gate_next.
    + destruct ok; cbn; lia.
    + by destruct ok.
    + by destruct ok.
    + intros id' Hx. apply lookup_insert_is_Some. destruct (decide (id = id')); auto.
    + intros id' b'' _ [[<- <-]|[_ ?]]%lookup_insert_Some; [|by eapply Hrate]. split_and!; [done|congruence|lia].
  - assert (i64 (cur (gate s) - 1) = cur (gate s) - 1) as Hw by (apply i64_small; specialize (Hpos ltac:(cbn; lia)); lia).
    rewrite ?Hw; gate_next.
  - assert (i64 (cur (gate s) - 1) = cur (gate s) - 1) as Hw by (apply i64_small; specialize (Hpos ltac:(cbn; lia)); lia).
    rewrite ?Hw; gate_next.
Qed.

Lemma gate_inv_run mc q t s evs s' :
  gate_inv mc q t s → 0 ≤ t → times_from t evs → grun s evs = Some s' → ∃ t', gate_inv mc q t' s'.
Proof.
  revert t s. induction evs as [|[i now] evs IH]; intros t s Hi H0 Ht Hr; simplify_eq/=; [by eexists|].
  apply bind_Some in Hr as (s1&H1&H2). destruct Ht as [Ht Hts].
  eapply (IH now s1); [|lia|done|done]. eapply gate_inv_step; [done| |done]. lia.
Qed.

Definition held (l : list gphase) : nat :=
  sum_list_with (λ ph, match ph with GHeld _ => 1%nat | _ => 0%nat end) l.

Lemma held_holders l : (held l ≤ holders l)%nat.
Proof. unfold held, holders. induction l as [|ph l IH]; simpl; [done|]. destruct ph; simpl; lia. Qed.

(** C30: The gate admits at most its limit: in any interleaving of goroutines that
    acquire and release, the counter is the number of slots taken, and no more
    than [maxConns] connections are admitted at a time. *)
Theorem gate_bound mc q t ids evs s :
  Z.of_nat (length ids) < 2 ^ 62 → 0 ≤ t → times_from t evs → grun (gsys0 mc q ids) evs = Some s →
  InUse (gate s) = Z.of_nat (holders (procs s)) ∧ (0 < mc → Z.of_nat (held (procs s)) ≤ mc).
Proof.
  intros Hl H0 Ht Hr.
  destruct (gate_inv_run _ _ _ _ _ _ (gate_inv_init mc q t ids Hl) H0 Ht Hr) as [t' []].
  split; [done|]. intros Hm. pose proof (held_holders (procs s)). specialize (gi_bound0 Hm). lia.
Qed.

Theorem gate_bound_witness :
  ∃ s, grun (gsys0 1 0 ["a"; "b"]) [(0%nat, 1); (1%nat, 2); (1%nat, 3); (0%nat, 4); (0%nat, 5)] = Some s ∧
       Z.of_nat (held (procs s)) ≤ 1.
Proof.
  eexists. split; [vm_compute; reflexivity|].
  refine (proj2 (gate_bound 1 0 1 ["a"; "b"] [(0%nat, 1); (1%nat, 2); (1%nat, 3); (0%nat, 4); (0%nat, 5)] _ _ _ _ _) _);
    [simpl; lia|lia|simpl; lia|vm_compute; reflexivity|lia].
Defined.

(** No goroutine is stuck inside the gate: every one that has not finished can
    take a step in every reachable state. *)
Theorem gate_progress mc q t ids evs s i ph now :
  Z.of_nat (length ids) < 2 ^ 62 → 0 ≤ t → times_from t evs → grun (gsys0 mc q ids) evs = Some s →
  procs s !! i = Some ph → ph ≠ GReleased → (∀ e, ph ≠ GRefused e) → is_Some (gapply s (i, now)).
Proof.
  intros Hl H0 Ht Hr Hi Hn1 Hn2.
  destruct (gate_inv_run _ _ _ _ _ _ (gate_inv_init mc q t ids Hl) H0 Ht Hr) as [t' Hinv].
  unfold gapply. cbn [fst snd]. rewrite Hi. cbn [mbind option_bind].
  assert (is_Some (gstep (gate s) ph now)) as [[g' ph'] ->]; [|by eexists].
  destruct ph; cbn; try done; try (by eexists).
  - by destruct (_ && _); eexists.
  - by destruct (_ =? _); eexists.
  - destruct (gi_try _ _ _ _ Hinv _ _ Hi) as [b ->]. by destruct (tryTake b now 1) as [b' []]; eexists.
  - by destruct (Hn2 err).
Qed.

(** [Acquire] without contention: one goroutine that runs alone ends as the
    sequential function says. *)
Theorem Acquire_alone g now id :
  ∃ evs, grun (mkGsys g [GLoad id]) evs
       = Some (mkGsys (Acquire g now id).1
                 [match (Acquire g now id).2 with None => GHeld id | Some e => GRefused (Some e) end]).
Proof.
  unfold Acquire. destruct ((0 <? maxConns g) && (maxConns g <=? cur g)) eqn:Hf.
  { exists [(0%nat, now)]. cbn. by rewrite Hf. }
  destruct (negb (Qle_bool (identity g) 0) && bool_decide (id ≠ "")) eqn:Hq.
  2:{ exists [(0%nat, now); (0%nat, now)]. cbn [identity set_cur]. rewrite Hq. cbn. rewrite Hf. cbn. by rewrite Z.eqb_refl, Hq. }
  cbn [buckets set_cur identity]. rewrite ?Hq.
  destruct (tryTake (default (newBucket (identity g)) (buckets g !! id)) now 1) as [b ok] eqn:Htk.
  assert (∀ rest, grun (mkGsys g [GLoad id]) ((0%nat, now) :: (0%nat, now) :: (0%nat, now) :: (0%nat, now) :: rest)
          = grun (mkGsys (set_buckets (<[id := b]> (buckets g)) (set_cur (i64 (cur g + 1)) g))
                    [if ok then GHeld id else GUndo]) rest) as Hrun.
  { intros rest. cbn. rewrite Hf. cbn. rewrite Z.eqb_refl. cbn. rewrite Hq. cbn.
    destruct (buckets g !! id) as [b0|] eqn:Hb; cbn.
    - rewrite Hb. cbn in Htk. rewrite Htk. done.
    - rewrite lookup_insert_eq. cbn in Htk. rewrite Htk. cbn.
      unfold set_buckets, set_cur. cbn. by rewrite insert_insert_eq. }
  destruct ok.
  - exists [(0%nat, now); (0%nat, now); (0%nat, now); (0%nat, now)]. by rewrite Hrun.
  - exists [(0%nat, now); (0%nat, now); (0%nat, now); (0%nat, now); (0%nat, now)]. by rewrite Hrun.
Qed.

(** * The rate of an identity *)

(** Whether an event admits [id] through its bucket. *)
Definition admits (id : string) (s : gsys) (ev : nat * Z) : nat :=
  match procs s !! ev.1, gapply s ev with
  | Some (GTry id'), Some s' =>
      if decide (id = id') then
        match procs s' !! ev.1 with Some (GHeld _) => 1%nat | _ => 0%nat end
      else 0%nat
  | _, _ => 0%nat
  end.

Fixpoint admitted (id : string) (s : gsys) (evs : list (nat * Z)) : nat :=
  match evs with
  | [] => 0
  | ev :: evs =>
      match gapply s ev with
      | Some s' => admits id s ev + admitted id s' evs
      | None => 0
      end
  end.

(** What the bucket of [id] can still give out until [t1], never more than
    [budget]: what a fresh bucket can from [t0] on. *)
Definition budget (q : Q) (t0 t1 : Z) : Q := (q + seconds (t1 - t0) * q)%Q.
Definition avail (q : Q) (t0 t1 : Z) (id : string) (s : gsys) : Q :=
  match buckets (gate s) !! id with
  | Some b => Qmin (budget q t0 t1) (tokens b + seconds (t1 - last b) * q)%Q
  | None => budget q t0 t1
  end.

Lemma seconds_split q t0 t t1 : (seconds (t1 - t0) * q == seconds (t - t0) * q + seconds (t1 - t) * q)%Q.
Proof.
  rewrite <- Qmult_plus_distr_l, <- seconds_add. replace (t1 - t0) with (t - t0 + (t1 - t)) by lia. reflexivity.
Qed.

(** Taking from the bucket pays out of what is available. *)
Lemma avail_pays q t0 t1 b now b' ok :
  (0 < q)%Q → bucket_ok b → rate b = q → last b ≤ now → t0 ≤ now ≤ t1 → tryTake b now 1 = (b', ok) →
  ((if ok then 1 else 0) + Qmin (budget q t0 t1) (tokens b' + seconds (t1 - last b') * q) <=
   Qmin (budget q t0 t1) (tokens b + seconds (t1 - last b) * q))%Q.
Proof.
  intros Hq Hb Hr Hl Ht Htk. apply tryTake_spec in Htk as (_&_&Hl'&H1&H2); [|done..|discriminate].
  rewrite Hr in H1, H2. rewrite Hl'.
  assert (0 <= seconds (now - t0) * q)%Q by (apply Qmult_le_0_compat; [apply seconds_nonneg; lia|lra]).
  pose proof (seconds_split q t0 now t1). pose proof (seconds_split q (last b) now t1).
  pose proof (Q.le_min_r (budget q t0 t1) (tokens b' + seconds (t1 - now) * q)%Q).
  apply Q.min_glb; unfold budget in *; destruct ok; lra.
Qed.

Lemma gapply_bucket id s i now s' :
  gapply s (i, now) = Some s' →
  (buckets (gate s') !! id = buckets (gate s) !! id ∧ admits id s (i, now) = 0%nat) ∨
  (buckets (gate s) !! id = None ∧ buckets (gate s') !! id = Some (newBucket (identity (gate s))) ∧
   admits id s (i, now) = 0%nat) ∨
  (∃ b b' ok, buckets (gate s) !! id = Some b ∧ tryTake b now 1 = (b', ok) ∧ buckets (gate s') !! id = Some b' ∧
    admits id s (i, now) = if ok : bool then 1%nat else 0%nat).
Proof.
  intros Hs. unfold admits. rewrite Hs. cbn [fst]. unfold gapply in Hs.
  apply bind_Some in Hs as (ph&Hph&Hs). apply bind_Some in Hs as ([g' ph']&Hst&Hs). cbn [fst snd] in *. simplify_eq.
  cbn [gate procs]. rewrite Hph, list_lookup_insert_eq by (by eapply lookup_lt_Some).
  destruct ph; cbn [gstep] in Hst; simplify_eq; try (left; done).
  - left. by destruct (_ && _); simplify_eq.
  - left. by destruct (_ =? _); simplify_eq.
  - destruct (buckets (gate s) !! id0) as [b|] eqn:Hb; [by left|].
    destruct (decide (id = id0)) as [<-|Hne]; cbn.
    + right; left. by rewrite lookup_insert_eq.
    + left. by rewrite lookup_insert_ne.
  - destruct (buckets (gate s) !! id0) as [b|] eqn:Hb; [|done].
    destruct (tryTake b now 1) as [b' ok] eqn:Htk. simplify_eq. cbn.
    destruct (decide (id = id0)) as [<-|Hne].
    + right; right. exists b, b', ok. rewrite lookup_insert_eq. by destruct ok.
    + left. by rewrite lookup_insert_ne.
Qed.

Lemma avail_nonneg mc q t0 t1 id t s :
  (0 < q)%Q → t0 ≤ t ≤ t1 → gate_inv mc q t s → (0 <= avail q t0 t1 id s)%Q.
Proof.
  intros Hq Ht Hi.
  assert (0 <= seconds (t1 - t0) * q)%Q by (apply Qmult_le_0_compat; [apply seconds_nonneg; lia|lra]).
  unfold avail, budget. destruct (buckets (gate s) !! id) as [b|] eqn:Hb; [|lra].
  destruct (gi_rate _ _ _ _ Hi id b Hq Hb) as ((_&H0&_)&_&Hl).
  assert (0 <= seconds (t1 - last b) * q)%Q by (apply Qmult_le_0_compat; [apply seconds_nonneg; lia|lra]).
  apply Q.min_glb; lra.
Qed.

Lemma admitted_avail mc q t0 t1 id t s evs s' :
  (0 < q)%Q → 0 ≤ t0 ≤ t → t ≤ t1 → gate_inv mc q t s → times_from t evs → Forall (λ ev, ev.2 ≤ t1) evs →
  grun s evs = Some s' → (inject_Z (Z.of_nat (admitted id s evs)) <= avail q t0 t1 id s)%Q.
Proof.
  intros Hq. revert t s. induction evs as [|[i now] evs IH]; intros t s Ht Ht1 Hi Hts Hle Hr.
  { by eapply avail_nonneg; [| |exact Hi]; [|lia]. }
  apply bind_Some in Hr as (s1&H1&H2). destruct Hts as [Hn Hts]. apply Forall_cons in Hle as [Hl Hle]. cbn [snd] in *.
  cbn [admitted]. rewrite H1. pose proof (gate_inv_step _ _ _ _ _ _ _ Hi (conj (Z.le_trans _ _ _ (proj1 Ht) (proj2 Ht)) Hn) H1) as Hi1.
  specialize (IH now s1 ltac:(lia) Hl Hi1 Hts Hle H2).
  rewrite Nat2Z.inj_add, inject_Z_plus.
  destruct (gapply_bucket id _ _ _ _ H1) as [[Hb ->]|[(Hb0&Hb&->)|(b&b'&ok&Hb&Htk&Hb'&->)]].
  - unfold avail in IH |- *. rewrite Hb in IH. change (inject_Z (Z.of_nat 0)) with 0%Q. lra.
  - unfold avail in IH |- *. rewrite Hb in IH. rewrite Hb0. change (inject_Z (Z.of_nat 0)) with 0%Q.
    pose proof (Q.le_min_l (budget q t0 t1) (tokens (newBucket (identity (gate s))) + seconds (t1 - last (newBucket (identity (gate s)))) * q)%Q). lra.
  - unfold avail in IH |- *. rewrite Hb' in IH. rewrite Hb. destruct (gi_rate _ _ _ _ Hi id b Hq Hb) as (Hok&Hrt&Hlt).
    pose proof (avail_pays q t0 t1 b now b' ok Hq Hok Hrt ltac:(lia) ltac:(lia) Htk).
    destruct ok; [change (inject_Z (Z.of_nat 1)) with 1%Q|change (inject_Z (Z.of_nat 0)) with 0%Q]; lra.
Qed.

(** An identity is admitted at its rate: in any interleaving, the connections
    admitted for one identity between [t0] and [t1] are at most one second's
    worth plus the rate times the time between them. *)
Theorem gate_identity_rate mc q t0 t1 ids evs s id :
  (0 < q)%Q → Z.of_nat (length ids) < 2 ^ 62 → 0 ≤ t0 ≤ t1 → times_from t0 evs → Forall (λ ev, ev.2 ≤ t1) evs →
  grun (gsys0 mc q ids) evs = Some s →
  (inject_Z (Z.of_nat (admitted id (gsys0 mc q ids) evs)) <= q + seconds (t1 - t0) * q)%Q.
Proof.
  intros Hq Hl Ht Hts Hle Hr.
  pose proof (admitted_avail mc q t0 t1 id t0 _ evs s Hq ltac:(lia) ltac:(lia) (gate_inv_init mc q t0 ids Hl) Hts Hle Hr) as H.
  unfold avail in H. cbn in H. unfold budget in H. done.
Qed.

Theorem gate_identity_rate_witness :
  ∃ s, let evs := [(0%nat, 1); (0%nat, 1); (0%nat, 1); (0%nat, 1); (1%nat, 2); (1%nat, 2); (1%nat, 2); (1%nat, 2); (1%nat, 2)] in
  grun (gsys0 0 1 ["a"; "a"]) evs = Some s ∧ admitted "a" (gsys0 0 1 ["a"; "a"]) evs = 1%nat ∧
  (inject_Z (Z.of_nat (admitted "a" (gsys0 0 1 ["a"; "a"]) evs)) <= 1 + seconds (2 - 1) * 1)%Q.
Proof.
  eexists. cbv zeta. split; [vm_compute; reflexivity|]. split; [vm_compute; reflexivity|].
  eapply (gate_identity_rate 0 1 1 2); [reflexivity|simpl; lia|lia|simpl; lia| |vm_compute; reflexivity].
  repeat constructor; simpl; lia.
Defined.

Lemma tryTake_fraction b now b' ok :
  bucket_ok b → last b ≤ now → (rate b < 1)%Q → tryTake b now 1 = (b', ok) → ok = false.
Proof.
  intros Hb Hl Hr Htk. apply tryTake_spec in Htk as ((_&H0&_)&_&_&_&H); [|done..|discriminate].
  destruct ok; [lra|done].
Qed.

Lemma admitted_fraction mc q id t s evs s' :
  (0 < q)%Q → (q < 1)%Q → 0 ≤ t → gate_inv mc q t s → times_from t evs → grun s evs = Some s' →
  admitted id s evs = 0%nat.
Proof.
  intros Hq Hq1. revert t s. induction evs as [|[i now] evs IH]; intros t s H0 Hi Hts Hr; [done|].
  apply bind_Some in Hr as (s1&H1&H2). destruct Hts as [Hn Hts]. cbn [snd] in *. cbn [admitted]. rewrite H1.
  pose proof (gate_inv_step _ _ _ _ _ _ _ Hi (conj H0 Hn) H1) as Hi1.
  rewrite (IH now s1) by (done || lia).
  destruct (gapply_bucket id _ _ _ _ H1) as [[_ ->]|[(_&_&->)|(b&b'&ok&Hb&Htk&_&->)]]; [done..|].
  destruct (gi_rate _ _ _ _ Hi id b Hq Hb) as (Hok&Hrt&Hlt).
  rewrite (tryTake_fraction b now b' ok); [done|done|lia|by rewrite Hrt|done].
Qed.

(** A rate below one per second admits nobody: the bucket holds less than one
    token for ever, so every connection of every identity is refused. *)
Theorem fractional_qps_refuses mc q t ids evs s id :
  (0 < q)%Q → (q < 1)%Q → Z.of_nat (length ids) < 2 ^ 62 → 0 ≤ t → times_from t evs →
  grun (gsys0 mc q ids) evs = Some s → admitted id (gsys0 mc q ids) evs = 0%nat.
Proof. intros Hq Hq1 Hl H0 Hts Hr. eapply admitted_fraction; try done. by apply gate_inv_init. Qed.
