(* ===== verification/Dialer.v ===== *)
(** The reconnecting dialer (internal/client/dialer.go): [Run] connects, serves
    the session and reconnects with an exponential back-off until [Close]. *)
From S2P Require Import Prelude Message Handshake CtrlClient.
From Stdlib Require Import ZArith Lia.

Definition second : Z := 10 ^ 9.
Definition reconnectBase : Z := 1 * second.
Definition reconnectMax : Z := 30 * second.

(** What a [Dialer] is configured with. *)
Record dialer_conf := mkDialerConf {
  dc_Name : string;
  dc_Addr : string;
  dc_KeyPassword : string;
  dc_Streams : list RegisterStreamReq;
  dc_LocalDialer : bool;
  dc_TLS : bool;
  dc_TLSSkipVerify : bool;
  dc_KeepAlive : Z;
}.

Definition NewDialer (name addr keyPassword : string) (streams : list RegisterStreamReq) : dialer_conf :=
  mkDialerConf name addr keyPassword streams false false false 0.

(** [dial]: the request that is made, and the TLS settings ([InsecureSkipVerify])
    it is made with. The session is [DialCtrl]'s, without a local dialer yet. *)
Definition dial_request (d : dialer_conf) : HandshakeReq * list RegisterStreamReq * option bool :=
  (mkHandshakeReq 0 (dc_Name d) (dc_KeyPassword d), dc_Streams d,
   if dc_TLS d then Some (dc_TLSSkipVerify d) else None).

Definition dial `{!ControlJson} (d : dialer_conf) (s : Session) : Session * result dial_ctrl_err CtrlClient :=
  let '(req, sts, _) := dial_request d in DialCtrl s false req sts.

(** * The goroutines *)

(** A session that was made: whether its client has been closed (by the dialer)
    and the keep-alive interval it was started with. *)
Record session := mkSession { ss_closed : bool; ss_keepalive : Z }.

(** Where [Run] stands. The numbers are sessions. *)
Inductive run_phase :=
  | RTop                    (* the check of [stopCh] at the top of the loop *)
  | RDialing                (* in [dial] *)
  | RBackoff                (* waiting after a failed dial *)
  | RPublish (l : nat)      (* connected, [d.client] not yet set *)
  | RRunning (l : nat)      (* in [client.Run] *)
  | RClosing (l : nat)      (* [client.Run] has returned *)
  | RUnpublish (l : nat)    (* the client is closed, [d.client] not yet reset *)
  | RPause                  (* waiting after a session *)
  | RDone.

Record dialer := mkDialer {
  d_phase : run_phase;
  d_backoff : Z;
  d_client : option nat;
  d_stopped : bool;
  d_sessions : list session;
  d_waits : list Z;         (* the back-off waits so far *)
}.

Inductive devent :=
  | ETop
  | EDial (ok : bool)
  | EStopSeen               (* a wait ends because [stopCh] is closed *)
  | ETimer                  (* a wait ends because its time is over *)
  | EPublish
  | ERunEnds (lost : bool)  (* [client.Run] returns: the link was lost, or the client closed *)
  | ECloseSession
  | EUnpublish
  | EStop                   (* [Close]: closes [stopCh], once *)
  | ECloseClient.           (* [Close]: closes the client it finds *)

#[export] Instance devent_eq_dec : EqDecision devent.
Proof. solve_decision. Defined.

Definition set_phase (ph : run_phase) (d : dialer) : dialer :=
  mkDialer ph (d_backoff d) (d_client d) (d_stopped d) (d_sessions d) (d_waits d).
Definition set_backoff (b : Z) (d : dialer) : dialer :=
  mkDialer (d_phase d) b (d_client d) (d_stopped d) (d_sessions d) (d_waits d).
Definition set_client (c : option nat) (d : dialer) : dialer :=
  mkDialer (d_phase d) (d_backoff d) c (d_stopped d) (d_sessions d) (d_waits d).
Definition set_stopped (d : dialer) : dialer :=
  mkDialer (d_phase d) (d_backoff d) (d_client d) true (d_sessions d) (d_waits d).
Definition set_sessions (l : list session) (d : dialer) : dialer :=
  mkDialer (d_phase d) (d_backoff d) (d_client d) (d_stopped d) l (d_waits d).
Definition add_wait (d : dialer) : dialer :=
  mkDialer (d_phase d) (d_backoff d) (d_client d) (d_stopped d) (d_sessions d) (d_waits d ++ [d_backoff d]).

Definition close_session (s : session) : session := mkSession true (ss_keepalive s).
Definition session_closed (l : nat) (d : dialer) : bool :=
  match d_sessions d !! l with Some s => ss_closed s | None => true end.

(** [min(backoff*2, reconnectMax)] *)
Definition next_backoff (b : Z) : Z := Z.min (i64 (b * 2)) reconnectMax.

Definition dapply (conf : dialer_conf) (d : dialer) (ev : devent) : option dialer :=
  match ev, d_phase d with
  | ETop, RTop => Some (set_phase (if d_stopped d then RDone else RDialing) d)
  | EDial false, RDialing => Some (set_phase RBackoff (add_wait d))
  | EDial true, RDialing =>
      let l := length (d_sessions d) in
      Some (set_phase (RPublish l) (set_backoff reconnectBase (set_sessions (d_sessions d ++ [mkSession false 0]) d)))
  | EStopSeen, (RBackoff | RPause) => if d_stopped d then Some (set_phase RDone d) else None
  | ETimer, RBackoff => Some (set_phase RTop (set_backoff (next_backoff (d_backoff d)) d))
  | ETimer, RPause => Some (set_phase RTop d)
  | EPublish, RPublish l =>
      let start s := mkSession (ss_closed s) (if 0 <? dc_KeepAlive conf then dc_KeepAlive conf else 0) in
      Some (set_phase (RRunning l) (set_client (Some l) (set_sessions (alter start l (d_sessions d)) d)))
  | ERunEnds lost, RRunning l =>
      if lost || session_closed l d then Some (set_phase (RClosing l) d) else None
  | ECloseSession, RClosing l =>
      Some (set_phase (RUnpublish l) (set_sessions (alter close_session l (d_sessions d)) d))
  | EUnpublish, RUnpublish l => Some (set_phase RPause (set_client None d))
  | EStop, _ => Some (set_stopped d)
  | ECloseClient, _ =>
      if d_stopped d then
        Some (match d_client d with
              | Some l => set_sessions (alter close_session l (d_sessions d)) d
              | None => d
              end)
      else None
  | _, _ => None
  end.

Fixpoint drun (conf : dialer_conf) (d : dialer) (evs : list devent) : option dialer :=
  match evs with
  | [] => Some d
  | ev :: evs => d ← dapply conf d ev; drun conf d evs
  end.

Definition dialer0 : dialer := mkDialer RTop reconnectBase None false [] [].

(** * Invariants *)

Definition current (ph : run_phase) : option nat :=
  match ph with RPublish l | RRunning l | RClosing l => Some l | _ => None end.

Record dialer_inv (d : dialer) : Prop := {
  di_backoff : reconnectBase ≤ d_backoff d ≤ reconnectMax;
  di_waits : Forall (λ w, reconnectBase ≤ w ≤ reconnectMax) (d_waits d);
  di_client : ∀ l, d_client d = Some l → d_phase d = RRunning l ∨ d_phase d = RClosing l ∨ d_phase d = RUnpublish l;
  di_running : ∀ l, d_phase d = RRunning l ∨ d_phase d = RClosing l ∨ d_phase d = RUnpublish l → d_client d = Some l;
  di_valid : ∀ l, current (d_phase d) = Some l → (l < length (d_sessions d))%nat;
  di_open : ∀ l s, d_sessions d !! l = Some s → ss_closed s = false → current (d_phase d) = Some l;
}.

Lemma next_backoff_range b :
  reconnectBase ≤ b ≤ reconnectMax → next_backoff b = Z.min (2 * b) reconnectMax ∧ reconnectBase ≤ next_backoff b ≤ reconnectMax.
Proof.
  unfold next_backoff, reconnectBase, reconnectMax, second. intros.
  rewrite i64_small by lia. lia.
Qed.

Lemma dialer_inv_init : dialer_inv dialer0.
Proof.
  split; cbn; [unfold reconnectBase, reconnectMax, second; lia|constructor|done|naive_solver|done|].
  intros l s. by rewrite lookup_nil.
Qed.

(** Closing a session leaves at most fewer open ones. *)
Lemma alter_close_open l (ss : list session) l' s :
  alter close_session l ss !! l' = Some s → ss_closed s = false → l' ≠ l ∧ ss !! l' = Some s.
Proof.
  destruct (decide (l' = l)) as [->|Hne].
  - rewrite list_lookup_alter_eq. destruct (ss !! l); intros H Hc; cbn in H; simplify_eq.
  - rewrite list_lookup_alter_ne by done. done.
Qed.

Ltac phases := repeat match goal with
  | |- _ ↔ _ => split
  | |- ∀ _, _ => intro
  | H : _ ∨ _ |- _ => destruct H
  | Hc : ∀ l, d_client ?d = Some l → _, H : d_client ?d = Some _ |- _ => apply Hc in H
  end; simplify_eq/=; auto.

(** A step that leaves the sessions and the client alone. *)
Lemma dialer_inv_phase d ph :
  dialer_inv d → (∀ l, current (d_phase d) = Some l → current ph = Some l) →
  (∀ l, current ph = Some l → current (d_phase d) = Some l) →
  (∀ l, d_phase d = RRunning l ∨ d_phase d = RClosing l ∨ d_phase d = RUnpublish l ↔
        ph = RRunning l ∨ ph = RClosing l ∨ ph = RUnpublish l) →
  dialer_inv (set_phase ph d).
Proof.
  intros [] H1 H2 H3. split; cbn; try done.
  - intros l Hl. by apply H3, di_client0.
  - intros l Hl. by apply di_running0, H3.
  - intros l Hl. by apply di_valid0, H2.
  - intros l s Hl Ho. by eapply H1, di_open0.
Qed.

Lemma dialer_inv_stop d : dialer_inv d → dialer_inv (set_stopped d).
Proof. intros []. by split. Qed.

Lemma dialer_inv_close d l ph :
  dialer_inv d → current ph = None ∨ ph = d_phase d → 
  (∀ l', d_phase d = RRunning l' ∨ d_phase d = RClosing l' ∨ d_phase d = RUnpublish l' ↔
         ph = RRunning l' ∨ ph = RClosing l' ∨ ph = RUnpublish l') →
  (ph ≠ d_phase d → current (d_phase d) = Some l) →
  dialer_inv (set_phase ph (set_sessions (alter close_session l (d_sessions d)) d)).
Proof.
  intros [] Hph Hc Hl. split; cbn; rewrite ?length_alter; try done.
  { intros l' Hl'. by apply Hc, di_client0. }
  { intros l' Hl'. by apply di_running0, Hc. }
  { intros l' Hl'. apply di_valid0. destruct Hph as [Hn| ->]; congruence. }
  intros l' s Hs Ho. destruct (alter_close_open _ _ _ _ Hs Ho) as [Hne Hs'].
  specialize (di_open0 _ _ Hs' Ho). destruct Hph as [Hn| ->]; [|done].
  exfalso. apply Hne. assert (ph ≠ d_phase d) as Hd by congruence. specialize (Hl Hd). congruence.
Qed.

Lemma dialer_inv_step conf d ev d' : dialer_inv d → dapply conf d ev = Some d' → dialer_inv d'.
Proof.
  intros Hi Hs. pose proof Hi as []. unfold dapply in Hs.
  assert (reconnectBase ≤ reconnectBase ≤ reconnectMax) as Hbase by (unfold reconnectBase, reconnectMax, second; lia).
  destruct (decide (ev = EStop)) as [->|Hn1]; [simplify_eq/=; by apply dialer_inv_stop|].
  destruct (decide (ev = ECloseClient)) as [->|Hn2].
  { destruct (d_stopped d); simplify_eq/=. destruct (d_client d) as [l|]; simplify_eq/=; [|done].
    pose proof (dialer_inv_close d l (d_phase d) Hi ltac:(by right) ltac:(done) ltac:(done)) as H. by destruct d. }
  destruct ev as [|[]| | | |lost| | | |], (d_phase d) as [| | |l|l|l|l| |] eqn:Hph; simplify_eq/=.
  - apply dialer_inv_phase; [done|rewrite Hph..]; destruct (d_stopped d); phases.
  - split; cbn; try done; [phases|phases| |].
    + intros l [= <-]. rewrite length_app. simpl. lia.
    + intros l s [Hl|[? Hl]]%lookup_app_Some Ho; [by specialize (di_open0 _ _ Hl Ho)|].
      apply list_lookup_singleton_Some in Hl as [Hl _]. f_equal. lia.
  - split; cbn; try done; [|phases..]. apply Forall_app. split; [done|by constructor].
  - destruct (d_stopped d); simplify_eq. apply dialer_inv_phase; [done|rewrite Hph..]; phases.
  - destruct (d_stopped d); simplify_eq. apply dialer_inv_phase; [done|rewrite Hph..]; phases.
  - pose proof (next_backoff_range _ di_backoff0) as [_ ?]. split; cbn; try done; phases.
  - apply dialer_inv_phase; [done|rewrite Hph..]; phases.
  - split; cbn; rewrite ?length_alter; try done; [intros ? [= <-]; by left|phases|].
    intros l' s Hs Ho. destruct (decide (l' = l)) as [->|Hne]; [done|].
    rewrite list_lookup_alter_ne in Hs by done. by apply (di_open0 _ s).
  - destruct (_ || _); simplify_eq. apply dialer_inv_phase; [done|rewrite Hph..]; phases.
  - apply dialer_inv_close; [done|by left|rewrite Hph; phases|by rewrite Hph].
  - split; cbn; try done; phases.
Qed.

Lemma dialer_inv_run conf d evs d' : dialer_inv d → drun conf d evs = Some d' → dialer_inv d'.
Proof.
  revert d. induction evs as [|ev evs IH]; intros d Hi Hr; simplify_eq/=; [done|].
  apply bind_Some in Hr as (d1&H1&H2). eapply IH; [|done]. by eapply dialer_inv_step.
Qed.

(** * What the dialer guarantees *)

(** C31: In any interleaving of [Run] and [Close], at most one session is open; while
    [Run] waits, dials or has returned none is; [Client] only ever returns the
    session [Run] is serving or cleaning up; and the back-off stays between one
    and thirty seconds. *)
Theorem one_session conf evs d :
  drun conf dialer0 evs = Some d →
  (∀ l1 l2 s1 s2, d_sessions d !! l1 = Some s1 → d_sessions d !! l2 = Some s2 →
     ss_closed s1 = false → ss_closed s2 = false → l1 = l2) ∧
  (current (d_phase d) = None → Forall (λ s, ss_closed s = true) (d_sessions d)) ∧
  (∀ l, d_client d = Some l ↔ d_phase d = RRunning l ∨ d_phase d = RClosing l ∨ d_phase d = RUnpublish l) ∧
  reconnectBase ≤ d_backoff d ≤ reconnectMax.
Proof.
  intros Hr. destruct (dialer_inv_run _ _ _ _ dialer_inv_init Hr) as [Hb _ Hc Hrn _ Ho]. split_and!.
  - intros l1 l2 s1 s2 H1 H2 O1 O2. pose proof (Ho _ _ H1 O1). pose proof (Ho _ _ H2 O2). congruence.
  - intros Hn. apply Forall_lookup. intros l s Hl. destruct (ss_closed s) eqn:E; [done|].
    specialize (Ho _ _ Hl E). congruence.
  - intros l. split; [apply Hc|apply Hrn].
  - apply Hb.
  - apply Hb.
Qed.

Definition wit_conf : dialer_conf := NewDialer "c" "127.0.0.1:7000" "pw" [].

Theorem one_session_witness :
  ∃ d, drun wit_conf dialer0 [ETop; EDial false; ETimer; ETop; EDial true; EPublish; ERunEnds true; ECloseSession;
                              EUnpublish; ETimer; ETop; EDial true] = Some d ∧
       reconnectBase ≤ d_backoff d ≤ reconnectMax.
Proof.
  eexists. split; [vm_compute; reflexivity|].
  apply (one_session wit_conf [ETop; EDial false; ETimer; ETop; EDial true; EPublish; ERunEnds true; ECloseSession;
                              EUnpublish; ETimer; ETop; EDial true]).
  vm_compute. reflexivity.
Defined.

(** One failed attempt and its wait. *)
Definition attempt : list devent := [ETop; EDial false; ETimer].

Lemma next_backoff_doubles i :
  next_backoff (Z.min (reconnectBase * 2 ^ Z.of_nat i) reconnectMax) = Z.min (reconnectBase * 2 ^ Z.of_nat (S i)) reconnectMax.
Proof.
  assert (0 < 2 ^ Z.of_nat i) as Hp by (apply Z.pow_pos_nonneg; lia).
  assert (reconnectBase ≤ Z.min (reconnectBase * 2 ^ Z.of_nat i) reconnectMax ≤ reconnectMax) as Hr.
  { change reconnectBase with 1000000000. change reconnectMax with 30000000000. lia. }
  rewrite (proj1 (next_backoff_range _ Hr)), Nat2Z.inj_succ, Z.pow_succ_r by lia.
  change reconnectBase with 1000000000. change reconnectMax with 30000000000. lia.
Qed.

Lemma attempts_from conf n d i :
  d_phase d = RTop → d_stopped d = false → d_backoff d = Z.min (reconnectBase * 2 ^ Z.of_nat i) reconnectMax →
  ∃ d', drun conf d (concat (replicate n attempt)) = Some d' ∧ d_phase d' = RTop ∧ d_stopped d' = false ∧
    d_sessions d' = d_sessions d ∧
    d_backoff d' = Z.min (reconnectBase * 2 ^ Z.of_nat (i + n)) reconnectMax ∧
    d_waits d' = d_waits d ++ ((λ k, Z.min (reconnectBase * 2 ^ Z.of_nat k) reconnectMax) <$> seq i n).
Proof.
  revert d i. induction n as [|n IH]; intros d i Hp Hs Hb.
  { exists d. rewrite Nat.add_0_r, app_nil_r. done. }
  destruct d as [ph b c st ss ws]. cbn in Hp, Hs, Hb. subst.
  destruct (IH (mkDialer RTop (next_backoff (Z.min (reconnectBase * 2 ^ Z.of_nat i) reconnectMax)) c false ss
             (ws ++ [Z.min (reconnectBase * 2 ^ Z.of_nat i) reconnectMax])) (S i))
    as (d'&Hr&?&?&?&Hb&Hw); [done|done|by rewrite <- next_backoff_doubles|].
  exists d'. rewrite Nat.add_succ_r. split_and!; try done. cbn [d_waits] in Hw. rewrite Hw. rewrite <- app_assoc. done.
Qed.

(** The waits between failed attempts double from one second up to thirty: the
    [k]-th, counted from zero since the last success, is
    [min(2^k, 30)] seconds, for any number of attempts. *)
Theorem backoff_schedule conf n :
  ∃ d, drun conf dialer0 (concat (replicate n attempt)) = Some d ∧ d_phase d = RTop ∧
    d_waits d = (λ k, Z.min (2 ^ Z.of_nat k) 30 * second) <$> seq 0 n.
Proof.
  destruct (attempts_from conf n dialer0 0) as (d&Hr&Hp&_&_&_&Hw); [done..|].
  exists d. split_and!; [done..|]. rewrite Hw. cbn [app d_waits dialer0]. apply list_fmap_ext. intros _ k _.
  change reconnectBase with 1000000000. change reconnectMax with 30000000000. change second with 1000000000. lia.
Qed.

(** The end of a session, as [Run] alone takes it from any of its phases. *)
Definition to_the_end (ph : run_phase) : list devent :=
  match ph with
  | RTop => [ETop]
  | RBackoff | RPause => [EStopSeen]
  | RRunning _ => [ERunEnds false; ECloseSession; EUnpublish; EStopSeen]
  | RClosing _ => [ECloseSession; EUnpublish; EStopSeen]
  | RUnpublish _ => [EUnpublish; EStopSeen]
  | _ => []
  end.

Lemma closed_ends conf d :
  dialer_inv d → d_stopped d = true → d_phase d ≠ RDialing → (∀ l, d_phase d ≠ RPublish l) →
  (∀ l, d_client d = Some l → session_closed l d = true) →
  ∃ d', drun conf d (to_the_end (d_phase d)) = Some d' ∧ d_phase d' = RDone ∧ length (d_sessions d') = length (d_sessions d).
Proof.
  intros [_ _ _ Hrn _ _] Hst Hn1 Hn2 Hcl. destruct d as [ph b c st ss ws]; cbn in *. subst st.
  destruct ph; cbn; try done; try (by destruct (Hn2 l)); try (eexists; split; [reflexivity|]; cbn; by rewrite ?length_alter).
  rewrite (Hcl l) by (apply Hrn; by left). cbn. eexists; split; [reflexivity|]; cbn. by rewrite length_alter.
Qed.

(** [Close] ends the dialer: once both its steps are done, unless [Run] was just
    connecting, [Run] returns by its own next steps, without waiting for a timer
    or the network and without making another session. *)
Theorem Close_ends conf evs d d1 :
  drun conf dialer0 evs = Some d → drun conf d [EStop; ECloseClient] = Some d1 →
  d_phase d ≠ RDialing → (∀ l, d_phase d ≠ RPublish l) →
  ∃ d', drun conf d1 (to_the_end (d_phase d1)) = Some d' ∧ d_phase d' = RDone ∧
        length (d_sessions d') = length (d_sessions d).
Proof.
  intros Hr Hc Hn1 Hn2. pose proof (dialer_inv_run _ _ _ _ dialer_inv_init Hr) as Hi.
  pose proof (dialer_inv_run _ _ _ _ Hi Hc) as Hi1. destruct d as [ph b c st ss ws]; cbn in *. simplify_eq.
  destruct (closed_ends conf _ Hi1) as (d'&Hd&Hp&Hl).
  - by destruct c.
  - by destruct c.
  - by destruct c.
  - intros l Hl. destruct c as [l'|]; simplify_eq/=. unfold session_closed. cbn.
    rewrite list_lookup_alter_eq. by destruct (ss !! l).
  - exists d'. split_and!; [done..|]. rewrite Hl. destruct c; cbn; by rewrite ?length_alter.
Qed.

Theorem Close_ends_witness :
  ∃ d d1, drun wit_conf dialer0 [ETop; EDial true; EPublish] = Some d ∧
    drun wit_conf d [EStop; ECloseClient] = Some d1 ∧
    ∃ d', drun wit_conf d1 (to_the_end (d_phase d1)) = Some d' ∧ d_phase d' = RDone ∧
          length (d_sessions d') = length (d_sessions d).
Proof.
  eexists _, _. split; [vm_compute; reflexivity|]. split; [vm_compute; reflexivity|].
  apply (Close_ends wit_conf [ETop; EDial true; EPublish]); vm_compute; [reflexivity|reflexivity|discriminate|discriminate].
Defined.

(** A [Close] that comes while [Run] is connecting is lost: it finds no client to
    close, and the session made by the dial stays open, whatever happens, until
    the link fails or somebody calls [Close] again. *)
Theorem close_during_dial conf evs d :
  drun conf dialer0 [ETop; EStop; ECloseClient; EDial true; EPublish] = Some d →
  ERunEnds true ∉ evs → ECloseClient ∉ evs →
  ∀ d', drun conf d evs = Some d' → d_phase d' = RRunning 0 ∧ session_closed 0 d' = false ∧ d_stopped d' = true.
Proof.
  intros Hd Hn1 Hn2. vm_compute in Hd. simplify_eq.
  match goal with |- ∀ d', drun _ ?x _ = _ → _ => assert (d_phase x = RRunning 0 ∧ session_closed 0 x = false ∧ d_stopped x = true) as Hi by done;
    generalize dependent x end.
  induction evs as [|ev evs IH]; intros d Hi d' Hr; simplify_eq/=; [done|].
  apply bind_Some in Hr as (d1&H1&H2). apply not_elem_of_cons in Hn1 as [N1 Hn1], Hn2 as [N2 Hn2].
  eapply (IH Hn1 Hn2 d1); [|done]. destruct Hi as (Hp&Hs&Ht). unfold dapply in H1. rewrite Hp in H1.
  destruct ev as [|[]| | | |[]| | | |]; simplify_eq; try done. by rewrite Hs in H1.
Qed.
