(* ===== verification/ConfigStore.v ===== *)
(** The configuration store (internal/configstore): keys and their files
    (store.go), atomic writes (file.go), and the polling watch. *)
From S2P Require Import Prelude.
From Stdlib Require Import ZArith Lia.

(** * Paths *)

(** A path as its components; [path.Clean] on slash-separated paths. *)
Fixpoint split_slash (s : string) : list string :=
  match s with
  | EmptyString => [""]
  | String c s =>
      if Ascii.eqb c "/" then "" :: split_slash s
      else match split_slash s with
           | p :: ps => String c p :: ps
           | [] => [String c ""]
           end
  end.

Definition join_slash (ps : list string) : string := String.concat "/" ps.

(** The components kept so far, last first. *)
Fixpoint clean_comps (rooted : bool) (ps : list string) (out : list string) : list string :=
  match ps with
  | [] => rev out
  | p :: ps =>
      if decide (p = "" ∨ p = ".") then clean_comps rooted ps out
      else if decide (p = "..") then
        match out with
        | q :: out' => if decide (q = "..") then clean_comps rooted ps (p :: out) else clean_comps rooted ps out'
        | [] => if rooted then clean_comps rooted ps out else clean_comps rooted ps (p :: out)
        end
      else clean_comps rooted ps (p :: out)
  end.

Definition HasPrefix (s p : string) : bool := String.prefix p s.
Definition Contains (s sub : string) : bool :=
  match String.index 0 sub s with Some _ => true | None => false end.

Definition Clean (s : string) : string :=
  if decide (s = "") then "."
  else
    let rooted := HasPrefix s "/" in
    let comps := clean_comps rooted (split_slash s) [] in
    if rooted then "/" +:+ join_slash comps
    else match comps with [] => "." | _ => join_slash comps end.

Inductive store_err := ErrNotFound | ErrInvalidKey | StoreIO.
#[export] Instance store_err_eq_dec : EqDecision store_err.
Proof. solve_decision. Defined.

Definition ValidKey (key : string) : option store_err :=
  if bool_decide (key = "") || HasPrefix key "/" || Contains key ".." then Some ErrInvalidKey
  else if decide (Clean key ≠ key) then Some ErrInvalidKey
  else None.

(** * Files *)

(** Directory entries point to inodes; an open file writes to its inode, whatever
    name it has. A file is its content and its modification time. *)
Record file := mkFile { content : list byte; mtime : Z }.
Record fs := mkFs { dirents : gmap string nat; inodes : list file }.

Definition stat (p : string) (f : fs) : option file :=
  match dirents f !! p with Some i => inodes f !! i | None => None end.

Definition readFile (p : string) (f : fs) : result store_err (list byte) :=
  match stat p f with Some x => Ok (content x) | None => Err ErrNotFound end.

(** [os.WriteFile]: open with truncation, then writes. *)
Definition open_trunc (p : string) (now : Z) (f : fs) : fs * nat :=
  match dirents f !! p with
  | Some i => (mkFs (dirents f) (<[i := mkFile [] now]> (inodes f)), i)
  | None => (mkFs (<[p := length (inodes f)]> (dirents f)) (inodes f ++ [mkFile [] now]), length (inodes f))
  end.

Definition append (i : nat) (bytes : list byte) (now : Z) (f : fs) : fs :=
  mkFs (dirents f) (alter (λ x, mkFile (content x ++ bytes) now) i (inodes f)).

(** [os.Rename], [None] when the source is missing. *)
Definition rename (p q : string) (f : fs) : option fs :=
  match dirents f !! p with
  | Some i => Some (mkFs (<[q := i]> (delete p (dirents f))) (inodes f))
  | None => None
  end.

(** * Writing *)

(** Where a [writeFile] stands: it makes the directory, opens [p + ".tmp"],
    writes, renames. *)
Inductive wphase :=
  | WStart (p : string) (val : list byte)
  | WOpen (p : string) (val : list byte)
  | WWriting (p : string) (i : nat) (rest : list byte)
  | WRename (p : string)
  | WDone (err : option store_err).
#[export] Instance wphase_eq_dec : EqDecision wphase.
Proof. solve_decision. Defined.

(** What may happen at a step: it goes on (writing at most [k] bytes), or the
    system call fails. *)
Inductive wevent := WStep (k : nat) | WFail.

Definition tmp (p : string) : string := p +:+ ".tmp".

Definition wstep (f : fs) (ph : wphase) (ev : wevent) (now : Z) : option (fs * wphase) :=
  match ph, ev with
  | WStart p val, WStep _ => Some (f, WOpen p val)
  | WOpen p val, WStep _ => let '(f, i) := open_trunc (tmp p) now f in Some (f, WWriting p i val)
  | WWriting p i [], WStep _ => Some (f, WRename p)
  | WWriting p i rest, WStep k =>
      if Nat.eqb k 0 || Nat.ltb (length rest) k then None
      else Some (append i (take k rest) now f, WWriting p i (drop k rest))
  | WRename p, WStep _ =>
      match rename (tmp p) p f with
      | Some f => Some (f, WDone None)
      | None => Some (f, WDone (Some StoreIO))
      end
  | WDone _, _ => None
  | _, WFail => Some (f, WDone (Some StoreIO))
  end.

(** Several writers on one file system; an event names one. *)
Record wsys := mkWsys { w_fs : fs; w_procs : list wphase }.

Definition wapply (s : wsys) (ev : nat * wevent * Z) : option wsys :=
  let '(n, e, now) := ev in
  ph ← w_procs s !! n;
  '(f, ph) ← wstep (w_fs s) ph e now;
  Some (mkWsys f (<[n := ph]> (w_procs s))).

Fixpoint wrun (s : wsys) (evs : list (nat * wevent * Z)) : option wsys :=
  match evs with
  | [] => Some s
  | ev :: evs => s ← wapply s ev; wrun s evs
  end.

(** * The store *)

Section store.
Variable root : string.

Definition path (key : string) : result store_err string :=
  match ValidKey key with Some e => Err e | None => Ok (root +:+ "/" +:+ key) end.

Definition Get (f : fs) (key : string) : result store_err (list byte) :=
  p ← path key; readFile p f.

(** [Put]: the writer it starts, or the error of the key. *)
Definition Put (key : string) (val : list byte) : result store_err wphase :=
  p ← path key; Ok (WStart p val).

(** ** Watch *)

Inductive event := EvValue (key : string) (v : list byte) | EvErr (key : string) (e : store_err).

(** The watching goroutine: the last modification time it has seen (0 is the zero
    time) and what it pushed; [None] when it has returned. *)
Record watch := mkWatch { wt_last : Z; wt_pushed : list event; wt_done : bool }.

Definition Watch (f : fs) (key : string) : watch :=
  mkWatch (match stat (root +:+ "/" +:+ key) f with Some x => mtime x | None => 0 end) [] false.

Definition push (e : event) (done : bool) (last : Z) (w : watch) : watch :=
  mkWatch last (wt_pushed w ++ [e]) done.

(** One tick: the state of the files when the time is read and when the value is. *)
Definition tick (f1 f2 : fs) (key : string) (w : watch) : watch :=
  if wt_done w then w
  else match path key with
  | Err e => push (EvErr key e) true (wt_last w) w
  | Ok p =>
      match stat p f1 with
      | None => if decide (wt_last w ≠ 0) then push (EvErr key ErrNotFound) true 0 w else w
      | Some x =>
          if wt_last w <? mtime x then
            match Get f2 key with
            | Err e => push (EvErr key e) true (mtime x) w
            | Ok v => push (EvValue key v) false (mtime x) w
            end
          else w
      end
  end.

(** [ctx.Done]: the goroutine returns and the channel is closed. *)
Definition cancel (w : watch) : watch := mkWatch (wt_last w) (wt_pushed w) true.
End store.

(** * Keys *)

Lemma split_slash_ne s : split_slash s ≠ [].
Proof. induction s as [|c s IH]; simpl; [done|]. destruct (Ascii.eqb c "/"); [done|]. by destruct (split_slash s). Qed.

(** No component has a slash. *)
Fixpoint no_slash (s : string) : bool :=
  match s with EmptyString => true | String c s => negb (Ascii.eqb c "/") && no_slash s end.

Lemma split_slash_no_slash s : Forall (λ p, no_slash p = true) (split_slash s).
Proof.
  induction s as [|c s IH]; simpl; [by constructor|]. destruct (Ascii.eqb c "/") eqn:E; [by constructor|].
  destruct (split_slash s) as [|p ps]; [by constructor; [simpl; rewrite E|]|].
  apply Forall_cons in IH as [Hp IH]. constructor; [simpl; by rewrite E, Hp|done].
Qed.

Lemma split_one p : no_slash p = true → split_slash p = [p].
Proof.
  induction p as [|c p IH]; simpl; [done|]. intros [H1 H2]%andb_true_iff. apply negb_true_iff in H1.
  by rewrite H1, IH.
Qed.

Lemma split_app p s : no_slash p = true → split_slash (p +:+ "/" +:+ s) = p :: split_slash s.
Proof.
  induction p as [|c p IH]; [done|]. cbn [no_slash]. intros [H1 H2]%andb_true_iff. apply negb_true_iff in H1.
  change (String c p +:+ "/" +:+ s) with (String c (p +:+ "/" +:+ s)). cbn [split_slash]. by rewrite H1, IH.
Qed.

Lemma split_join ps : ps ≠ [] → Forall (λ p, no_slash p = true) ps → split_slash (join_slash ps) = ps.
Proof.
  unfold join_slash. induction ps as [|p ps IH]; intros Hn Hp; [done|]. apply Forall_cons in Hp as [Hp Hps].
  destruct ps as [|q ps]; [by apply split_one|].
  change (String.concat "/" (p :: q :: ps)) with (p +:+ "/" +:+ String.concat "/" (q :: ps)).
  rewrite split_app by done. f_equal. by apply IH.
Qed.

Lemma join_split s : join_slash (split_slash s) = s.
Proof.
  unfold join_slash. induction s as [|c s IH]; [done|]. cbn [split_slash].
  pose proof (split_slash_ne s). destruct (Ascii.eqb c "/") eqn:E.
  - apply Ascii.eqb_eq in E as ->. destruct (split_slash s) as [|p ps]; [done|].
    change (String.concat "/" ("" :: p :: ps)) with ("/" +:+ String.concat "/" (p :: ps)). by rewrite IH.
  - destruct (split_slash s) as [|p [|q ps]]; [done|simpl in *; by rewrite IH|].
    change (String.concat "/" (String c p :: q :: ps)) with (String c (String.concat "/" (p :: q :: ps))). by rewrite IH.
Qed.

Lemma split_slash_app s1 s2 : split_slash (s1 +:+ "/" +:+ s2) = split_slash s1 ++ split_slash s2.
Proof.
  induction s1 as [|c s1 IH]; [done|].
  change (String c s1 +:+ "/" +:+ s2) with (String c (s1 +:+ "/" +:+ s2)). cbn [split_slash]. rewrite IH.
  pose proof (split_slash_ne s1). destruct (Ascii.eqb c "/"); [done|]. by destruct (split_slash s1).
Qed.

Lemma append_empty_r (s : string) : s +:+ "" = s.
Proof. induction s as [|c s IH]; [done|]. change (String c s +:+ "") with (String c (s +:+ "")). by rewrite IH. Qed.

(** A component is a part of the string. *)
Lemma split_slash_part s p : p ∈ split_slash s → ∃ a b, s = a +:+ p +:+ b.
Proof.
  revert p. induction s as [|c s IH]; intros p Hp; cbn [split_slash] in Hp.
  { apply list_elem_of_singleton in Hp as ->. by exists "", "". }
  pose proof (split_slash_ne s) as Hne. destruct (Ascii.eqb c "/").
  - apply elem_of_cons in Hp as [->|Hp]; [by exists "", (String c s)|].
    destruct (IH p Hp) as (a&b&->). by exists (String c a), b.
  - destruct (split_slash s) as [|q qs] eqn:Hs; [done|]. apply elem_of_cons in Hp as [->|Hp].
    + assert (∃ b, s = q +:+ b) as [b ->]; [|by exists "", b].
      rewrite <- (join_split s), Hs. destruct qs as [|r qs].
      * exists "". by rewrite append_empty_r.
      * exists ("/" +:+ String.concat "/" (r :: qs)). done.
    + destruct (IH p) as (a&b&->); [by right|]. by exists (String c a), b.
Qed.

Lemma substring_part a p b : String.substring (String.length a) (String.length p) (a +:+ p +:+ b) = p.
Proof.
  induction a as [|c a IH]; [|exact IH]. cbn [String.length]. change ("" +:+ p +:+ b) with (p +:+ b).
  induction p as [|c p IH]; [by destruct b|].
  change (String.substring 0 (String.length (String c p)) (String c p +:+ b))
    with (String c (String.substring 0 (String.length p) (p +:+ b))). by rewrite IH.
Qed.

Lemma Contains_part s p : p ≠ "" → (∃ a b, s = a +:+ p +:+ b) → Contains s p = true.
Proof.
  intros Hp (a&b&->). unfold Contains. destruct (String.index 0 p _) as [n|] eqn:E; [done|].
  exfalso. eapply (String.index_correct3 0 (String.length a)); [exact E|done|lia|]. apply substring_part.
Qed.

(** What [Clean] keeps. *)
Lemma clean_comps_no_dot rooted ps out :
  Forall (λ p, p ≠ "" ∧ p ≠ ".") out → Forall (λ p, p ≠ "" ∧ p ≠ ".") (clean_comps rooted ps out).
Proof.
  revert out. induction ps as [|p ps IH]; intros out Ho; cbn [clean_comps]; [by apply Forall_rev|].
  destruct (decide (p = "" ∨ p = ".")); [by apply IH|].
  assert (p ≠ "" ∧ p ≠ ".") as Hp by tauto.
  destruct (decide (p = "..")) as [->|]; [|apply IH; by constructor].
  destruct out as [|q out]; [destruct rooted; apply IH; by constructor|].
  destruct (decide (q = "..")); apply IH; [by constructor|by apply Forall_cons in Ho as [_ ?]].
Qed.

Definition plain (p : string) : Prop := p ≠ "" ∧ p ≠ "." ∧ p ≠ "..".

Lemma clean_comps_plain rooted ps out :
  Forall plain ps → clean_comps rooted ps out = rev out ++ ps.
Proof.
  revert out. induction ps as [|p ps IH]; intros out Hp; cbn [clean_comps]; [by rewrite app_nil_r|].
  apply Forall_cons in Hp as [(H1&H2&H3) Hp]. rewrite decide_False by tauto. rewrite decide_False by done.
  rewrite IH by done. cbn [rev]. by rewrite <- app_assoc.
Qed.

Lemma clean_comps_app rooted ps qs out :
  Forall plain qs → clean_comps rooted (ps ++ qs) out = clean_comps rooted ps out ++ qs.
Proof.
  intros Hq. revert out. induction ps as [|p ps IH]; intros out; cbn [clean_comps app].
  { by rewrite clean_comps_plain. }
  destruct (decide _); [apply IH|]. destruct (decide _); [|apply IH].
  destruct out as [|q out]; [destruct rooted; apply IH|]. destruct (decide _); apply IH.
Qed.

Lemma ValidKey_plain key : ValidKey key = None → key ≠ "." → Forall plain (split_slash key).
Proof.
  unfold ValidKey. intros H Hd.
  destruct (_ || _) eqn:Hg; [done|]. apply orb_false_iff in Hg as [Hg Hc]. apply orb_false_iff in Hg as [He Hp].
  apply bool_decide_eq_false in He. destruct (decide (Clean key ≠ key)) as [|Hk]; [done|]. apply dec_stable in Hk.
  unfold Clean in Hk. rewrite decide_False in Hk by done. rewrite Hp in Hk.
  set (cs := clean_comps false (split_slash key) []) in *.
  assert (cs = split_slash key) as Hcs.
  { destruct cs as [|c cs'] eqn:E; [done|]. rewrite <- Hk at 1. symmetry. apply split_join; [done|].
    assert (∀ ps out, Forall (λ p, no_slash p = true) ps → Forall (λ p, no_slash p = true) out →
              Forall (λ p, no_slash p = true) (clean_comps false ps out)) as Hns.
    { induction ps as [|p ps IH]; intros out Hps Ho; cbn [clean_comps]; [by apply Forall_rev|].
      apply Forall_cons in Hps as [Hp1 Hps]. destruct (decide _); [by apply IH|].
      destruct (decide _); [|apply IH; [done|by constructor]].
      destruct out as [|q out]; [apply IH; [done|by constructor]|].
      destruct (decide _); apply IH; try done; [by constructor|by apply Forall_cons in Ho as [_ ?]]. }
    rewrite <- E. apply Hns; [apply split_slash_no_slash|done]. }
  assert (Forall (λ p, p ≠ "" ∧ p ≠ ".") (split_slash key)) as Hnd.
  { rewrite <- Hcs. by apply clean_comps_no_dot. }
  apply Forall_forall. intros p Hin. rewrite Forall_forall in Hnd. destruct (Hnd p Hin). split_and!; [done..|].
  intros ->. apply split_slash_part in Hin. rewrite (Contains_part key "..") in Hc; done.
Qed.

(** A valid key cannot leave the store: the path of its file, however the root is
    written, is the root with the components of the key below it, none of them
    empty, [.] or [..]. *)
Theorem key_below_root root key p :
  path root key = Ok p → key ≠ "." → 
  Forall plain (split_slash key) ∧
  ∀ rooted, clean_comps rooted (split_slash p) [] = clean_comps rooted (split_slash root) [] ++ split_slash key.
Proof.
  unfold path. destruct (ValidKey key) eqn:Hv; [done|]. intros Hp Hd. simplify_eq.
  pose proof (ValidKey_plain key Hv Hd) as Hpl. split; [done|]. intros rooted.
  rewrite split_slash_app. by apply clean_comps_app.
Qed.

Theorem key_below_root_witness :
  path "/var/../data" "dns/zones" = Ok "/var/../data/dns/zones" ∧
  clean_comps true (split_slash "/var/../data/dns/zones") [] = ["data"; "dns"; "zones"].
Proof.
  split; [vm_compute; reflexivity|].
  refine (eq_trans (proj2 (key_below_root "/var/../data" "dns/zones" "/var/../data/dns/zones" _ _) true) _);
    [vm_compute; reflexivity|discriminate|vm_compute; reflexivity].
Defined.

(** Conversely every key whose components are plain is valid. *)
Theorem plain_key_valid key :
  key ≠ "" → Contains key ".." = false → Forall plain (split_slash key) → ValidKey key = None.
Proof.
  intros He Hc Hp. unfold ValidKey. rewrite bool_decide_false, Hc by done. cbn [orb].
  assert (HasPrefix key "/" = false) as Hr.
  { destruct key as [|c key]; [done|]. unfold HasPrefix. cbn [String.prefix]. destruct (ascii_dec "/" c) as [<-|]; [|done].
    cbn [split_slash] in Hp. change (Ascii.eqb "/" "/") with true in Hp. cbv iota in Hp.
    apply Forall_cons in Hp as [[? _] _]. done. }
  rewrite Hr. cbn [orb]. rewrite decide_False; [done|]. intros Hk. apply Hk.
  unfold Clean. rewrite decide_False by done. rewrite Hr, clean_comps_plain by done. cbn [rev app].
  pose proof (split_slash_ne key). destruct (split_slash key) eqn:E; [done|]. rewrite <- E. apply join_split.
Qed.

(** * Writing is atomic *)

(** Names point to existing files, and no two to the same one. *)
Definition fs_ok (f : fs) : Prop :=
  (∀ p i, dirents f !! p = Some i → (i < length (inodes f))%nat) ∧
  (∀ p q i, dirents f !! p = Some i → dirents f !! q = Some i → p = q).

Lemma readFile_ok p f i x : dirents f !! p = Some i → inodes f !! i = Some x → readFile p f = Ok (content x).
Proof. unfold readFile, stat. by intros -> ->. Qed.

(** A change to one file is seen under its name only. *)
Lemma readFile_frame f g p :
  fs_ok f → dirents g !! p = dirents f !! p → (∀ i, dirents f !! p = Some i → inodes g !! i = inodes f !! i) →
  readFile p g = readFile p f.
Proof. intros Hf Hd Hi. unfold readFile, stat. rewrite Hd. destruct (dirents f !! p) eqn:E; [by rewrite Hi|done]. Qed.

Lemma tmp_ne p : tmp p ≠ p.
Proof.
  unfold tmp. induction p as [|c p IH]; [done|].
  change (String c p +:+ ".tmp") with (String c (p +:+ ".tmp")). intros [= H]. done.
Qed.

(** A writer of [p] in the file system [f] it started with. *)
Definition writer_inv (f : fs) (p : string) (val : list byte) (g : fs) (ph : wphase) : Prop :=
  fs_ok g ∧ (∀ q, q ≠ p → q ≠ tmp p → readFile q g = readFile q f) ∧
  match ph with
  | WStart p' v | WOpen p' v => p' = p ∧ v = val ∧ readFile p g = readFile p f
  | WWriting p' i rest =>
      p' = p ∧ readFile p g = readFile p f ∧ dirents g !! tmp p = Some i ∧
      ∃ x, inodes g !! i = Some x ∧ content x ++ rest = val
  | WRename p' => p' = p ∧ readFile p g = readFile p f ∧ readFile (tmp p) g = Ok val
  | WDone None => readFile p g = Ok val
  | WDone (Some _) => readFile p g = readFile p f
  end.

Lemma open_trunc_spec p now f g i :
  fs_ok f → open_trunc p now f = (g, i) →
  fs_ok g ∧ dirents g !! p = Some i ∧ inodes g !! i = Some (mkFile [] now) ∧
  ∀ q, q ≠ p → readFile q g = readFile q f.
Proof.
  intros Hf Ho. pose proof Hf as [H1 H2]. unfold open_trunc in Ho. destruct (dirents f !! p) as [j|] eqn:Hp; simplify_eq.
  - split_and!.
    + split; cbn; [intros; rewrite length_insert; by eapply H1|done].
    + done.
    + cbn. apply list_lookup_insert_eq. by eapply H1.
    + intros q Hq. apply readFile_frame; [done|done|]. cbn. intros j Hj. apply list_lookup_insert_ne.
      intros ->. apply Hq. by eapply H2.
  - split_and!.
    + split; cbn.
      * intros q j. rewrite length_app. intros [[_ <-]|[_ Hj]]%lookup_insert_Some; simpl; [lia|]. apply H1 in Hj. lia.
      * intros q r j [[<- <-]|[Hq Hj]]%lookup_insert_Some [[<- He]|[Hr Hk]]%lookup_insert_Some; try done.
        { apply H1 in Hk. lia. } { apply H1 in Hj. lia. } by eapply H2.
    + cbn. by rewrite lookup_insert_eq.
    + cbn. rewrite lookup_app_r by lia. by rewrite Nat.sub_diag.
    + intros q Hq. apply readFile_frame; [done|cbn; by rewrite lookup_insert_ne by done|].
      cbn. intros j Hj. apply lookup_app_l. by eapply H1.
Qed.

Lemma append_spec f i bytes now x p :
  fs_ok f → dirents f !! p = Some i → inodes f !! i = Some x →
  fs_ok (append i bytes now f) ∧ dirents (append i bytes now f) !! p = Some i ∧
  inodes (append i bytes now f) !! i = Some (mkFile (content x ++ bytes) now) ∧
  ∀ q, q ≠ p → readFile q (append i bytes now f) = readFile q f.
Proof.
  intros Hf Hp Hi. pose proof Hf as [H1 H2]. split_and!.
  - split; cbn; [intros; rewrite length_alter; by eapply H1|done].
  - done.
  - cbn. by rewrite list_lookup_alter_eq, Hi.
  - intros q Hq. apply readFile_frame; [done|done|]. cbn. intros j Hj. apply list_lookup_alter_ne.
    intros ->. apply Hq. by eapply H2.
Qed.

Lemma rename_spec p q f g :
  fs_ok f → p ≠ q → rename p q f = Some g →
  fs_ok g ∧ readFile q g = readFile p f ∧ ∀ r, r ≠ p → r ≠ q → readFile r g = readFile r f.
Proof.
  intros Hf Hpq Hr. pose proof Hf as [H1 H2]. unfold rename in Hr. destruct (dirents f !! p) as [i|] eqn:Hp; [|done].
  simplify_eq. split_and!.
  - split; cbn.
    + intros r j [[_ <-]|[_ [_ Hj]%lookup_delete_Some]]%lookup_insert_Some; by eapply H1.
    + intros r s j [[<- <-]|[Hr [Hpr Hj]%lookup_delete_Some]]%lookup_insert_Some
                   [[<- He]|[Hs [Hps Hk]%lookup_delete_Some]]%lookup_insert_Some; try done.
      * by destruct Hps; eapply H2.
      * subst. by destruct Hpr; eapply H2.
      * by eapply H2.
  - unfold readFile, stat. cbn. by rewrite lookup_insert_eq, Hp.
  - intros r Hrp Hrq. apply readFile_frame; [done| |done]. cbn. by rewrite lookup_insert_ne, lookup_delete_ne.
Qed.

Lemma writer_step f p val g ph ev now g' ph' :
  writer_inv f p val g ph → wstep g ph ev now = Some (g', ph') → writer_inv f p val g' ph'.
Proof.
  intros (Hok&Hfr&Hph) Hs. destruct ph as [p' v|p' v|p' i rest|p'|e]; cbn [wstep] in Hs.
  - destruct Hph as (->&->&Hp). destruct ev; simplify_eq; by split_and!.
  - destruct Hph as (->&->&Hp). destruct ev; simplify_eq; [|by split_and!].
    destruct (open_trunc (tmp p) now g) as [g1 i] eqn:Ho. simplify_eq.
    destruct (open_trunc_spec _ _ _ _ _ Hok Ho) as (Hok'&Hd&Hi&Hfr'). pose proof (tmp_ne p).
    split; [done|]. split; [intros; by rewrite Hfr', Hfr|]. split_and!; [done|by rewrite Hfr'|done|by eexists].
  - destruct Hph as (->&Hp&Hd&x&Hx&Hc). destruct ev as [k|]; [|destruct rest; simplify_eq; by split_and!].
    destruct rest as [|b rest]; simplify_eq.
    + split; [done|]. split; [done|]. split_and!; [done|done|]. rewrite (readFile_ok _ _ i x) by done.
      by rewrite app_nil_r.
    + destruct (_ || _) eqn:Hk; simplify_eq.
      destruct (append_spec g i (take k (b :: rest)) now x (tmp p) Hok Hd Hx) as (Hok'&Hd'&Hx'&Hfr'). pose proof (tmp_ne p).
      split; [done|]. split; [intros; by rewrite Hfr', Hfr|].
      split_and!; [done|by rewrite Hfr'|done|]. eexists. split; [done|]. cbn [content].
      by rewrite <- app_assoc, take_drop.
  - destruct Hph as (->&Hp&Ht). destruct ev as [k|]; [|simplify_eq; by split_and!].
    destruct (rename (tmp p) p g) as [g1|] eqn:Hr; simplify_eq; [|by split_and!].
    destruct (rename_spec _ _ _ _ Hok (tmp_ne p) Hr) as (Hok'&Hq&Hfr').
    split; [done|]. split; [intros; by rewrite Hfr', Hfr|]. by rewrite Hq.
  - done.
Qed.

(** The invariant at the end of a history in which only the first writer moves. *)
Lemma writer_run f p val evs s :
  fs_ok f → Forall (λ ev, ev.1.1 = 0%nat) evs → wrun (mkWsys f [WStart p val]) evs = Some s →
  ∃ ph, w_procs s = [ph] ∧ writer_inv f p val (w_fs s) ph.
Proof.
  intros Hf Hev. assert (writer_inv f p val f (WStart p val)) as Hi by by split_and!.
  revert Hi. generalize f at 2 3 as g. generalize (WStart p val) as ph.
  induction Hev as [|[[n e] now] evs Hn _ IH]; intros ph g Hi Hr; simplify_eq/=; [by exists ph|].
  apply bind_Some in Hr as (s1&H1&H2). cbn in H1.
  apply bind_Some in H1 as ([g' ph']&Hs&H1). simplify_eq/=. eapply IH; [|done]. by eapply writer_step.
Qed.

Lemma writer_reads f p val g ph :
  writer_inv f p val g ph →
  readFile p g = if decide (ph = WDone None) then Ok val else readFile p f.
Proof.
  intros (_&_&Hph). destruct ph as [| | | |[]]; naive_solver.
Qed.

(** C32: A single writer is atomic: whenever somebody reads the file while [Put]
    writes it, however far it has got and whichever system call fails, the whole
    old value or the whole new one is read, the new one once [Put] has succeeded,
    the old one if it has failed; no other file but the temporary one changes. *)
Theorem Put_atomic f p val evs s :
  fs_ok f → Forall (λ ev, ev.1.1 = 0%nat) evs → wrun (mkWsys f [WStart p val]) evs = Some s →
  (readFile p (w_fs s) = readFile p f ∨ readFile p (w_fs s) = Ok val) ∧
  (w_procs s = [WDone None] → readFile p (w_fs s) = Ok val) ∧
  (∀ e, w_procs s = [WDone (Some e)] → readFile p (w_fs s) = readFile p f) ∧
  (∀ q, q ≠ p → q ≠ tmp p → readFile q (w_fs s) = readFile q f).
Proof.
  intros Hf Hev Hr. destruct (writer_run f p val evs s Hf Hev Hr) as (ph&Hps&Hi). pose proof (writer_reads _ _ _ _ _ Hi) as Hrd.
  destruct Hi as (_&Hfr&_). rewrite Hps, Hrd. split_and!; [|by intros [= ->]; case_decide|by intros e [= ->]; case_decide|done].
  case_decide; auto.
Qed.

Definition wit_fs : fs := mkFs {["k" := 0%nat]} [mkFile [x01] 1].

Theorem Put_atomic_witness :
  ∃ s, wrun (mkWsys wit_fs [WStart "k" [x02; x03]])
         [(0%nat, WStep 0, 2); (0%nat, WStep 0, 2); (0%nat, WStep 1, 3); (0%nat, WStep 1, 4); (0%nat, WStep 0, 4); (0%nat, WStep 0, 5)]
       = Some s ∧ w_procs s = [WDone None] ∧ readFile "k" (w_fs s) = Ok [x02; x03].
Proof.
  eexists. split; [vm_compute; reflexivity|]. split; [reflexivity|].
  refine (proj1 (proj2 (Put_atomic wit_fs "k" [x02; x03]
    [(0%nat, WStep 0, 2); (0%nat, WStep 0, 2); (0%nat, WStep 1, 3); (0%nat, WStep 1, 4); (0%nat, WStep 0, 4); (0%nat, WStep 0, 5)]
    _ _ _ _)) _); [|by repeat constructor|vm_compute; reflexivity|reflexivity].
  split; cbn.
  - intros p i [_ <-]%lookup_singleton_Some. lia.
  - intros p q i [<- _]%lookup_singleton_Some [<- _]%lookup_singleton_Some. done.
Defined.

(** [Get] after a successful [Put] of the same key. *)
Theorem Put_Get root key val f evs s ph :
  Put root key val = Ok ph → fs_ok f → Forall (λ ev, ev.1.1 = 0%nat) evs →
  wrun (mkWsys f [ph]) evs = Some s → w_procs s = [WDone None] → Get root (w_fs s) key = Ok val.
Proof.
  unfold Put, Get. destruct (path root key) as [p|e]; [|done]. cbn. intros [= <-] Hf Hev Hr Hd.
  destruct (writer_run f p val evs s Hf Hev Hr) as (ph&Hps&Hi). rewrite (writer_reads _ _ _ _ _ Hi).
  rewrite Hps in Hd. simplify_eq. done.
Qed.

(** Two writers of the same key are not atomic: they share the temporary file. One
    renames it while the other is writing into it, and a reader sees a value that
    nobody stored; the second rename fails. *)
Theorem concurrent_puts_torn :
  ∃ evs s, wrun (mkWsys wit_fs [WStart "k" [x02; x03]; WStart "k" [x04; x05]]) evs = Some s ∧
    readFile "k" (w_fs s) = Ok [x04] ∧
    ∃ evs' s', wrun s evs' = Some s' ∧ w_procs s' = [WDone None; WDone (Some StoreIO)].
Proof.
  exists [(0%nat, WStep 0, 2); (0%nat, WStep 0, 2); (0%nat, WStep 2, 3); (0%nat, WStep 0, 3);
          (1%nat, WStep 0, 4); (1%nat, WStep 0, 4); (1%nat, WStep 1, 4); (0%nat, WStep 0, 5)].
  eexists. split; [vm_compute; reflexivity|]. split; [vm_compute; reflexivity|].
  exists [(1%nat, WStep 1, 6); (1%nat, WStep 0, 6); (1%nat, WStep 0, 6)].
  eexists. split; vm_compute; reflexivity.
Qed.

(** The temporary name of a key is the file of another valid key: storing the one
    loses the other. *)
Theorem tmp_key_lost :
  ValidKey "k.tmp" = None ∧ ValidKey "k" = None ∧
  ∃ evs s, wrun (mkWsys (mkFs {["r/k.tmp" := 0%nat]} [mkFile [x01] 1]) [WStart "r/k" [x02]]) evs = Some s ∧
    w_procs s = [WDone None] ∧ Get "r" (w_fs s) "k.tmp" = Err ErrNotFound.
Proof.
  split; [vm_compute; reflexivity|]. split; [vm_compute; reflexivity|].
  exists [(0%nat, WStep 0, 2); (0%nat, WStep 0, 2); (0%nat, WStep 1, 3); (0%nat, WStep 0, 3); (0%nat, WStep 0, 4)].
  eexists. split; [vm_compute; reflexivity|]. split; vm_compute; reflexivity.
Qed.

(** * Watching *)

(** Every branch of a tick: an invalid key ends the watch, a removed file ends it
    too, an unchanged one is silent, a later one pushes the value read. *)
Theorem tick_spec root f1 f2 key w :
  wt_done w = false →
  tick root f1 f2 key w =
    match path root key with
    | Err e => mkWatch (wt_last w) (wt_pushed w ++ [EvErr key e]) true
    | Ok p =>
        match stat p f1 with
        | None => if decide (wt_last w = 0) then w else mkWatch 0 (wt_pushed w ++ [EvErr key ErrNotFound]) true
        | Some x =>
            if decide (mtime x ≤ wt_last w) then w
            else match Get root f2 key with
                 | Ok v => mkWatch (mtime x) (wt_pushed w ++ [EvValue key v]) false
                 | Err e => mkWatch (mtime x) (wt_pushed w ++ [EvErr key e]) true
                 end
        end
    end.
Proof.
  intros Hd. unfold tick, push. rewrite Hd. destruct (path root key) as [p|e]; [|done].
  destruct (stat p f1) as [x|].
  - destruct (Z.ltb_spec (wt_last w) (mtime x)); [rewrite decide_False by lia|rewrite decide_True by lia; done].
    by destruct (Get root f2 key).
  - repeat case_decide; try done; tauto.
Qed.

(** A change within the resolution of the clock is never reported: the watch
    compares modification times only. *)
Theorem same_mtime_missed root f key w p x :
  wt_done w = false → path root key = Ok p → stat p f = Some x → mtime x = wt_last w → tick root f f key w = w.
Proof. intros Hd Hp Hx Hm. rewrite tick_spec, Hp, Hx by done. rewrite decide_True by lia. done. Qed.
