(* ===== verification/Watcher.v ===== *)
(** The polling watch of the configuration store as the goroutine it is
    (internal/configstore/store.go, [FileStore.Watch]): it reads the baseline after
    [Watch] has returned, offers its events on a channel of eight, and looks at its
    context only between two ticks. [ConfigStore.tick] is what one tick does; here
    it runs against a consumer and a cancellation, and is shown to deliver exactly
    the events of the ticks, in order, and to close the channel after a
    cancellation only if the consumer leaves room in it. *)
From S2P Require Import Prelude ConfigStore.
From Stdlib Require Import ZArith Lia.

(** * The goroutine and its channel *)

(** [FileStore]: the root and the polling interval in milliseconds. *)
Record FileStore := mkFileStore { st_root : string; st_interval : Z }.

Definition NewFileStore (root : string) : FileStore := mkFileStore root 500.

(** Where the goroutine is: before the first [os.Stat], in its [select], offering
    an event ([fin]: it returns after this one), or gone, the channel closed. *)
Inductive gphase := GBaseline | GWaiting | GSending (e : event) (fin : bool) | GGone.

(** [ws_chan]: what the channel holds, oldest first; [ws_taken]: what the consumer
    has received. *)
Record wsys := mkWsys {
  ws_phase : gphase; ws_last : Z; ws_chan : list event; ws_taken : list event; ws_cancelled : bool }.

Definition wsys0 : wsys := mkWsys GBaseline 0 [] [] false.

Definition chan_room : nat := 8.

Definition with_phase (ph : gphase) (last : Z) (s : wsys) : wsys :=
  mkWsys ph last (ws_chan s) (ws_taken s) (ws_cancelled s).

Inductive wevent :=
  | VBaseline (f : fs)         (* the first os.Stat *)
  | VTick (f1 f2 : fs)         (* the select takes the ticker *)
  | VSend                      (* the channel takes the offered event *)
  | VTake                      (* the consumer receives *)
  | VCancel                    (* the context is cancelled *)
  | VReturn.                   (* the select takes ctx.Done *)

Section watcher.
Variables (st : FileStore) (key : string).

(** What the select does with a tick: an event to offer, or none. *)
Definition on_tick (f1 f2 : fs) (s : wsys) : wsys :=
  let w := tick (st_root st) f1 f2 key (mkWatch (ws_last s) [] false) in
  with_phase (match wt_pushed w with [] => GWaiting | e :: _ => GSending e (wt_done w) end) (wt_last w) s.

Definition wapply (s : wsys) (ev : wevent) : option wsys :=
  match ev, ws_phase s with
  | VBaseline f, GBaseline => Some (with_phase GWaiting (wt_last (Watch (st_root st) f key)) s)
  | VTick f1 f2, GWaiting => Some (on_tick f1 f2 s)
  | VSend, GSending e fin =>
      if decide (length (ws_chan s) < chan_room)%nat
      then Some (mkWsys (if fin then GGone else GWaiting) (ws_last s) (ws_chan s ++ [e]) (ws_taken s) (ws_cancelled s))
      else None
  | VTake, _ =>
      match ws_chan s with
      | e :: ch => Some (mkWsys (ws_phase s) (ws_last s) ch (ws_taken s ++ [e]) (ws_cancelled s))
      | [] => None
      end
  | VCancel, _ => Some (mkWsys (ws_phase s) (ws_last s) (ws_chan s) (ws_taken s) true)
  | VReturn, GWaiting => if ws_cancelled s then Some (with_phase GGone (ws_last s) s) else None
  | _, _ => None
  end.

Fixpoint wrun (s : wsys) (evs : list wevent) : option wsys :=
  match evs with
  | [] => Some s
  | ev :: evs => s' ← wapply s ev; wrun s' evs
  end.

(** * What it has to deliver *)

(** The watch without a channel: [ConfigStore]'s, fed with the same ticks. *)
Definition spec_step (w : watch) (ev : wevent) : watch :=
  match ev with
  | VBaseline f => Watch (st_root st) f key
  | VTick f1 f2 => tick (st_root st) f1 f2 key w
  | VReturn => cancel w
  | VSend | VTake | VCancel => w
  end.

Definition spec (evs : list wevent) : watch := foldl spec_step (mkWatch 0 [] false) evs.

Definition pending (s : wsys) : list event := match ws_phase s with GSending e _ => [e] | _ => [] end.
Definition ending (s : wsys) : bool := match ws_phase s with GGone | GSending _ true => true | _ => false end.

(** The relation of the simulation. *)
Record wrefines (s : wsys) (w : watch) : Prop := {
  wr_events : wt_pushed w = ws_taken s ++ ws_chan s ++ pending s;
  wr_last : wt_last w = ws_last s;
  wr_done : wt_done w = ending s;
  wr_room : (length (ws_chan s) ≤ chan_room)%nat;
  wr_start : ws_phase s = GBaseline → wt_pushed w = [];
}.

(** A tick pushes at most one event, the same whatever was pushed before, and ends
    the watch only with an event. *)
Lemma tick_pushes f1 f2 last ps :
  let w := tick (st_root st) f1 f2 key (mkWatch last [] false) in
  tick (st_root st) f1 f2 key (mkWatch last ps false) = mkWatch (wt_last w) (ps ++ wt_pushed w) (wt_done w) ∧
  ((wt_pushed w = [] ∧ wt_done w = false) ∨ ∃ e, wt_pushed w = [e]).
Proof.
  unfold tick, push. cbn [wt_done wt_last wt_pushed].
  repeat case_match; cbn [wt_done wt_last wt_pushed app]; rewrite ?app_nil_r; eauto.
Qed.

Lemma wrefines_step s w ev s' :
  wrefines s w → wapply s ev = Some s' → wrefines s' (spec_step w ev).
Proof.
  destruct s as [ph last ch tk cn]. intros [He Hl Hd Hr Hs]. unfold pending, ending in *. simpl in *.
  destruct ev as [f|f1 f2| | | |]; cbn [spec_step wapply ws_phase ws_chan ws_cancelled ws_last ws_taken].
  - destruct ph; try done. intros [= <-]. specialize (Hs eq_refl). rewrite Hs in He.
    symmetry in He. apply app_nil in He as [-> He]. apply app_nil in He as [-> _].
    split; simpl; try done; unfold chan_room; lia.
  - destruct ph; try done. intros [= <-]. destruct w as [wl wp wd]. simpl in *. subst.
    destruct (tick_pushes f1 f2 last (tk ++ ch ++ [])) as [-> Hone]. unfold on_tick. cbn [ws_last].
    rewrite app_nil_r in *.
    destruct Hone as [[-> ->]|[e ->]]; split; simpl; rewrite ?app_nil_r, <-?app_assoc; try done.
    by destruct (wt_done _).
  - destruct ph as [| |e fin|]; try done. destruct (decide _) as [Hc|]; [|done]. intros [= <-].
    destruct fin; split; simpl; rewrite ?length_app, ?app_nil_r; simpl; try done; unfold chan_room in *; lia.
  - destruct ch as [|e ch]; [by destruct ph|]. intros E.
    assert (s' = mkWsys ph last ch (tk ++ [e]) cn) as -> by (destruct ph; congruence).
    split; simpl in *; rewrite <-?app_assoc; try done. lia.
  - intros E. assert (s' = mkWsys ph last ch tk true) as -> by (destruct ph; congruence). by split.
  - destruct ph; try done. destruct cn; [|done]. intros [= <-]. by split.
Qed.

Lemma wrefines_run s w evs s' :
  wrefines s w → wrun s evs = Some s' → wrefines s' (foldl spec_step w evs).
Proof.
  revert s w. induction evs as [|ev evs IH]; intros s w Hr; cbn [wrun foldl]; [by intros [= <-]|].
  destruct (wapply s ev) as [s1|] eqn:E; [|done]. simpl. intros Hrun. eapply IH; [|exact Hrun].
  by eapply wrefines_step.
Qed.

Lemma wrefines0 : wrefines wsys0 (mkWatch 0 [] false).
Proof. split; simpl; try done; unfold chan_room; lia. Qed.

(** What the consumer has received and what the channel and the goroutine still hold
    is, in order, what the ticks produced: nothing is lost or repeated; the channel
    never holds more than eight; and once the goroutine is gone everything it
    produced has been received or is in the channel. *)
Theorem watch_delivers evs s :
  wrun wsys0 evs = Some s →
  wt_pushed (spec evs) = ws_taken s ++ ws_chan s ++ pending s ∧
  (length (ws_chan s) ≤ chan_room)%nat ∧
  (ws_phase s = GGone → wt_done (spec evs) = true ∧ wt_pushed (spec evs) = ws_taken s ++ ws_chan s).
Proof.
  intros Hrun. destruct (wrefines_run _ _ _ _ wrefines0 Hrun) as [He _ Hd Hr _]. unfold spec.
  split_and!; [done..|]. intros Hg. unfold ending, pending in *. rewrite Hg in *. by rewrite app_nil_r in He.
Qed.

(** * Cancellation *)

(** The goroutine offers an event and the channel is full. *)
Definition blocked (s : wsys) : bool :=
  match ws_phase s with GSending _ _ => bool_decide (length (ws_chan s) = chan_room) | _ => false end.

Definition is_take (ev : wevent) : bool := match ev with VTake => true | _ => false end.

Lemma blocked_step s ev s' :
  blocked s = true → wapply s ev = Some s' → is_take ev = false → blocked s' = true ∧ ws_phase s' = ws_phase s.
Proof.
  destruct s as [ph last ch tk cn]. unfold blocked. simpl. destruct ph as [| |e fin|]; try done.
  intros Hb%bool_decide_eq_true. destruct ev; simpl; try done.
  - destruct (decide _); [lia|done].
  - intros [= <-] _. simpl. by rewrite bool_decide_eq_true_2.
Qed.

Lemma blocked_run s evs s' :
  blocked s = true → wrun s evs = Some s' → forallb (λ ev, negb (is_take ev)) evs = true →
  blocked s' = true ∧ ws_phase s' = ws_phase s.
Proof.
  revert s. induction evs as [|ev evs IH]; intros s Hb; cbn [wrun forallb]; [by intros [= <-]|].
  destruct (wapply s ev) as [s1|] eqn:E; [|done]. simpl. intros Hrun [Ht Hts]%andb_true_iff.
  apply negb_true_iff in Ht. destruct (blocked_step _ _ _ Hb E Ht) as [Hb1 Hp1].
  destruct (IH _ Hb1 Hrun Hts) as [? ->]. done.
Qed.

(** The events a goroutine needs to notice a cancelled context: none of them is a
    tick, and it takes from the channel only if it is blocked. *)
Definition way_out (s : wsys) : list wevent :=
  (if blocked s then [VTake] else []) ++
  match ws_phase s with
  | GBaseline => [VBaseline (mkFs ∅ []); VReturn]
  | GWaiting => [VReturn]
  | GSending _ true => [VSend]
  | GSending _ false => [VSend; VReturn]
  | GGone => []
  end.

Lemma way_out_gone s :
  (length (ws_chan s) ≤ chan_room)%nat → ws_cancelled s = true →
  ∃ s', wrun s (way_out s) = Some s' ∧ ws_phase s' = GGone.
Proof.
  destruct s as [ph last ch tk cn]. unfold way_out, blocked. simpl. intros Hr ->.
  destruct ph as [| |e fin|]; simpl; [by eexists..| |by eexists].
  case_bool_decide as Hb.
  - destruct ch as [|x ch]; [done|]. unfold chan_room in *. simpl in *.
    destruct fin; cbn [app wrun wapply ws_phase ws_chan]; simpl; (rewrite decide_True by (unfold chan_room; lia)); by eexists.
  - destruct fin; cbn [app wrun wapply ws_phase ws_chan]; (rewrite decide_True by lia); by eexists.
Qed.

(** After a cancellation the channel is closed if the consumer leaves room: at most
    one more receive lets the goroutine return. If the channel is full and the
    consumer has stopped receiving, the goroutine stays where it is for ever. *)
Theorem cancel_needs_room evs s :
  wrun wsys0 evs = Some s →
  (ws_cancelled s = true → ∃ s', wrun s (way_out s) = Some s' ∧ ws_phase s' = GGone) ∧
  (blocked s = true → ∀ evs' s', forallb (λ ev, negb (is_take ev)) evs' = true → wrun s evs' = Some s' →
     ws_phase s' ≠ GGone ∧ ws_phase s' = ws_phase s).
Proof.
  intros Hrun. pose proof (wr_room _ _ (wrefines_run _ _ _ _ wrefines0 Hrun)) as Hr.
  split; [by apply way_out_gone|]. intros Hb evs' s' Ht Hrun'.
  destruct (blocked_run _ _ _ Hb Hrun' Ht) as [_ Hp]. split; [|done]. rewrite Hp. intros Hg.
  unfold blocked in Hb. by rewrite Hg in Hb.
Qed.

(** A change that is stored after [Watch] has returned and before its goroutine
    reads the baseline is not reported: the file as it is then is the baseline. *)
Theorem change_before_baseline_missed f p x :
  path (st_root st) key = Ok p → stat p f = Some x → 0 ≤ mtime x →
  wrun wsys0 [VBaseline f; VTick f f] = Some (mkWsys GWaiting (mtime x) [] [] false).
Proof.
  intros Hp Hx Hm. cbn [wrun wapply ws_phase wsys0]. simpl.
  assert (st_root st +:+ "/" +:+ key = p) as Hkey.
  { unfold path in Hp. destruct (ValidKey key); [done|]. by injection Hp. }
  unfold on_tick, with_phase. simpl. unfold Watch. rewrite Hkey, Hx. cbn [wt_last].
  unfold tick. cbn [wt_done wt_last]. rewrite Hp, Hx. by rewrite Z.ltb_irrefl.
Qed.
End watcher.

(** * A consumer that stops *)

Definition demo_fs (t : Z) : fs := mkFs {["r/k"%string := 0%nat]} [mkFile [] t].

(** Nine changes and nobody receives: eight are in the channel, the ninth is
    offered, and the context is cancelled. *)
Definition demo_full : list wevent :=
  VBaseline (demo_fs 1) ::
  flat_map (λ t, [VTick (demo_fs t) (demo_fs t); VSend]) [2; 3; 4; 5; 6; 7; 8; 9] ++
  [VTick (demo_fs 10) (demo_fs 10); VCancel].

Definition demo_store : FileStore := NewFileStore "r".

Lemma watch_delivers_witness :
  ∃ s, wrun demo_store "k" wsys0 demo_full = Some s ∧ length (wt_pushed (spec demo_store "k" demo_full)) = 9%nat ∧
    wt_pushed (spec demo_store "k" demo_full) = ws_taken s ++ ws_chan s ++ pending s.
Proof.
  eexists. split; [vm_compute; reflexivity|]. split; [vm_compute; reflexivity|].
  refine (proj1 (watch_delivers demo_store "k" demo_full _ _)). vm_compute. reflexivity.
Defined.

Lemma cancel_needs_room_witness :
  ∃ s, wrun demo_store "k" wsys0 demo_full = Some s ∧ blocked s = true ∧ ws_cancelled s = true ∧
    (∃ s', wrun demo_store "k" s (way_out s) = Some s' ∧ ws_phase s' = GGone).
Proof.
  eexists. split; [vm_compute; reflexivity|]. split; [vm_compute; reflexivity|]. split; [reflexivity|].
  refine (proj1 (cancel_needs_room demo_store "k" demo_full _ _) _); [vm_compute; reflexivity|reflexivity].
Defined.
