(* ===== verification/Dns.v ===== *)
(** The DNS component (internal/handler/dns/dns.go): the zone table, answering and
    forwarding, the TCP framing, and the zone API.

    github.com/miekg/dns is a parameter: unpacking and packing of messages, the
    construction of a record, the exchange with an upstream. Names are ASCII. *)
From S2P Require Import Prelude ConfigStore.
From Stdlib Require Import ZArith Lia.

(** * Names *)

(** [strings.ToLower], [TrimSuffix] and [HasSuffix]. *)
Definition lower_char (c : ascii) : ascii :=
  let n := nat_of_ascii c in
  if Nat.leb 65 n && Nat.leb n 90 then ascii_of_nat (n + 32) else c.
Fixpoint ToLower (s : string) : string :=
  match s with EmptyString => EmptyString | String c s => String (lower_char c) (ToLower s) end.

(** [Some p] when [s] is [p] followed by [suffix]. *)
Fixpoint cut_suffix (s suffix : string) : option string :=
  if decide (s = suffix) then Some ""
  else match s with
       | EmptyString => None
       | String c s => String c <$> cut_suffix s suffix
       end.
Definition TrimSuffix (s suffix : string) : string := default s (cut_suffix s suffix).
Definition HasSuffix (s suffix : string) : bool := bool_decide (is_Some (cut_suffix s suffix)).

(** * The handler *)

Definition zone_table : Type := gmap string (gmap string string).

Record Handler := mkHandler {
  h_name : string;
  zones : zone_table;
  upstreams : list string;
  rrIdx : Z;
  store_key : option string;
}.

Definition normal_name (s : string) : string := ToLower (TrimSuffix (ToLower s) ".").

(** [normalizeZones] of a map whose iteration yields the given entries: of names
    that normalise to the same one the last visited stays. *)
Definition normalizeZones (zs : list (string * list (string * string))) : zone_table :=
  foldl (λ nz '(zone, hosts),
           <[normal_name zone := foldl (λ inner '(h, ip), <[normal_name h := ip]> inner) ∅ hosts]> nz) ∅ zs.

Definition New (name : string) (zs : list (string * list (string * string))) (ups : list string) : Handler :=
  mkHandler name (normalizeZones zs) ups 0 None.

Definition UseStore (key : string) (h : Handler) : Handler :=
  mkHandler (h_name h) (zones h) (upstreams h) (rrIdx h) (Some key).
Definition set_zones (zs : zone_table) (h : Handler) : Handler :=
  mkHandler (h_name h) zs (upstreams h) (rrIdx h) (store_key h).
Definition set_rrIdx (i : Z) (h : Handler) : Handler :=
  mkHandler (h_name h) (zones h) (upstreams h) i (store_key h).

Definition Zones (h : Handler) : zone_table := zones h.
Definition replaceAll (zs : list (string * list (string * string))) (h : Handler) : Handler :=
  set_zones (normalizeZones zs) h.

(** The loop of [lookup] over the zones in the order of iteration. *)
Fixpoint lookup_in (order : list (string * gmap string string)) (name : string) : option string :=
  match order with
  | [] => None
  | (zone, hosts) :: order =>
      if decide (name = zone) then lookup_in order name
      else if HasSuffix name ("." +:+ zone) then
        match hosts !! TrimSuffix name ("." +:+ zone) with
        | Some ip => Some ip
        | None => lookup_in order name
        end
      else lookup_in order name
  end.

Definition query_name (qname : string) : string := ToLower (TrimSuffix qname ".").
Definition lookup_name (order : list (string * gmap string string)) (qname : string) : option string :=
  lookup_in order (query_name qname).

(** * Answering *)

Definition RcodeSuccess : Z := 0.
Definition RcodeServerFailure : Z := 2.
Definition RcodeNameError : Z := 3.

(** A question: its name and its type. *)
Record question := mkQuestion { q_name : string; q_type : Z }.

Section dns.
(** miekg/dns: messages, their questions, records, the codec, [NewRR] of
    ["<name> 60 IN A <ip>"], and [Client.Exchange] with an upstream. *)
Context {Msg RR : Type}.
Variable Question : Msg → list question.
Variable Unpack : list byte → option Msg.
Variable NewRR : string → string → option RR.
Variable Exchange : Msg → string → option Msg.
(** The order in which a map is iterated, by the number of the iteration. *)
Variable iterate : zone_table → list (string * gmap string string).

(** The reply built for a query ([SetReply] and what is added), or the message an
    upstream sent. *)
Inductive reply :=
  | Reply (q : Msg) (rcode : Z) (recursionAvailable : bool) (answers : list RR)
  | Forwarded (m : Msg).

Variable Pack : reply → option (list byte).

Definition answer_question (h : Handler) (qu : question) : list RR :=
  match lookup_name (iterate (zones h)) (q_name qu) with
  | Some ip => match NewRR (q_name qu) ip with Some rr => [rr] | None => [] end
  | None => []
  end.

Definition answer (h : Handler) (q : Msg) : Handler * reply :=
  let answers := concat (answer_question h <$> Question q) in
  if Nat.eqb (length answers) 0 && negb (Nat.eqb (length (Question q)) 0) && negb (Nat.eqb (length (upstreams h)) 0) then
    let idx := u64 (rrIdx h + 1) in
    let h := set_rrIdx idx h in
    let upstream := default "" (upstreams h !! Z.to_nat (idx mod Z.of_nat (length (upstreams h)))) in
    match Exchange q upstream with
    | Some m => (h, Forwarded m)
    | None => (h, Reply q RcodeServerFailure true answers)
    end
  else (h, Reply q RcodeSuccess true answers).

(** * Serving a connection *)

Definition frame (packed : list byte) : list byte :=
  [z2b (Z.shiftr (Z.of_nat (length packed)) 8); z2b (Z.of_nat (length packed))] ++ packed.

(** [serveConn]: what is read, and what is written; [write_ok] says which writes
    succeed. Each turn reads at least three bytes, so the input is fuel enough. *)
Fixpoint serve_loop (fuel : nat) (write_ok : nat → bool) (h : Handler) (inp : list byte) (out : list (list byte)) :
    Handler * list (list byte) :=
  match fuel with
  | O => (h, out)
  | S fuel =>
      match read_full 2 inp with
      | Err _ => (h, out)
      | Ok (lenBuf, inp) =>
          let msgLen := be_get lenBuf in
          if (msgLen <=? 0) || (Z.shiftl 64 10 <? msgLen) then (h, out)
          else
            match read_full (Z.to_nat msgLen) inp with
            | Err _ => (h, out)
            | Ok (buf, inp) =>
                match Unpack buf with
                | None => (h, out)
                | Some q =>
                    let '(h, r) := answer h q in
                    match Pack r with
                    | None => (h, out)
                    | Some packed =>
                        if write_ok (length out) then serve_loop fuel write_ok h inp (out ++ [frame packed])
                        else (h, out)
                    end
                end
            end
      end
  end.

Definition serveConn (write_ok : nat → bool) (h : Handler) (inp : list byte) : Handler * list (list byte) :=
  serve_loop (S (length inp)) write_ok h inp [].

(** * The zone API *)

Section api.
(** encoding/json on the zone table. *)
Variable decode : list byte → option (list (string * list (string * string))).
Variable marshal : list (string * list (string * string)) → list byte.

(** [PUT]: the status, and the write to the store it makes, whose outcome is
    ignored. *)
Definition put_zones (root : string) (h : Handler) (body : list byte) : Handler * Z * option wphase :=
  match decode body with
  | None => (h, 400, None)
  | Some zs =>
      let h := replaceAll zs h in
      (h, 200,
       match store_key h with
       | Some key => match Put root key (marshal zs) with Ok w => Some w | Err _ => None end
       | None => None
       end)
  end.
End api.

(** * Looking up *)

(** The iteration order is one of the orders of the map. *)
Hypothesis iterate_perm : ∀ m, iterate m ≡ₚ map_to_list m.

Lemma cut_suffix_Some s suf p : cut_suffix s suf = Some p → s = p +:+ suf.
Proof.
  revert p. induction s as [|c s IH]; intros p; cbn [cut_suffix].
  - destruct (decide ("" = suf)) as [<-|]; [|done]. by intros [= <-].
  - destruct (decide (String c s = suf)) as [<-|]; [by intros [= <-]|].
    intros (p'&Hp&->)%fmap_Some. change (String c p' +:+ suf) with (String c (p' +:+ suf)). by rewrite <- (IH p').
Qed.

Lemma length_sapp (a b : string) : String.length (a +:+ b) = (String.length a + String.length b)%nat.
Proof.
  induction a as [|c a IH]; [done|]. change (String c a +:+ b) with (String c (a +:+ b)). cbn [String.length]. by rewrite IH.
Qed.

Lemma cut_suffix_app p suf : cut_suffix (p +:+ suf) suf = Some p.
Proof.
  induction p as [|c p IH].
  - change ("" +:+ suf) with suf. destruct suf; cbn [cut_suffix]; by rewrite decide_True.
  - change (String c p +:+ suf) with (String c (p +:+ suf)). cbn [cut_suffix]. rewrite decide_False.
    + by rewrite IH.
    + intros H. apply (f_equal String.length) in H. cbn [String.length] in H. rewrite length_sapp in H. lia.
Qed.

(** A zone that answers for a name. *)
Definition matches (name zone : string) (hosts : gmap string string) (ip : string) : Prop :=
  ∃ host, name = host +:+ "." +:+ zone ∧ hosts !! host = Some ip.

Lemma matches_not_zone name zone hosts ip : matches name zone hosts ip → name ≠ zone.
Proof.
  intros (host&->&_) H. apply (f_equal String.length) in H. rewrite !length_sapp in H. cbn in H. lia.
Qed.

Lemma lookup_in_step name zone hosts order :
  lookup_in ((zone, hosts) :: order) name =
    match (if decide (name = zone) then None
           else host ← cut_suffix name ("." +:+ zone); hosts !! host) with
    | Some ip => Some ip
    | None => lookup_in order name
    end.
Proof.
  cbn [lookup_in]. destruct (decide (name = zone)); [done|]. unfold HasSuffix, TrimSuffix.
  destruct (cut_suffix name ("." +:+ zone)) as [host|]; cbn; [|done]. by destruct (hosts !! host).
Qed.

Lemma zone_match name zone (hosts : gmap string string) ip :
  (if decide (name = zone) then None else host ← cut_suffix name ("." +:+ zone); hosts !! host) = Some ip
  ↔ matches name zone hosts ip.
Proof.
  split.
  - destruct (decide (name = zone)); [done|]. intros (host&Hc&Hh)%bind_Some. exists host.
    split; [by apply cut_suffix_Some|done].
  - intros Hm. rewrite decide_False by (by eapply matches_not_zone). destruct Hm as (host&->&Hh).
    by rewrite cut_suffix_app.
Qed.

Lemma lookup_in_sound order name ip :
  lookup_in order name = Some ip → ∃ zone hosts, (zone, hosts) ∈ order ∧ matches name zone hosts ip.
Proof.
  induction order as [|[zone hosts] order IH]; [done|]. rewrite lookup_in_step.
  destruct (if decide (name = zone) then None else _) as [ip'|] eqn:E.
  - intros [= ->]. exists zone, hosts. split; [left|by apply zone_match].
  - intros (z&hs&Hin&Hm)%IH. exists z, hs. split; [by right|done].
Qed.

Lemma lookup_in_complete order name zone hosts ip :
  (zone, hosts) ∈ order → matches name zone hosts ip → is_Some (lookup_in order name).
Proof.
  induction order as [|[z hs] order IH]; [by intros ?%elem_of_nil|]. intros Hin Hm. rewrite lookup_in_step.
  apply elem_of_cons in Hin as [[= <- <-]|Hin].
  - apply zone_match in Hm. rewrite Hm. by eexists.
  - destruct (if decide (name = z) then None else _); [by eexists|by apply IH].
Qed.

(** What a lookup finds: an address is returned exactly when some zone of the
    table has it for the name, the part of the name before the zone being a host
    of that zone; the order in which the map is visited only matters when several
    zones answer differently. *)
Theorem lookup_exact zs qname :
  (∀ ip, lookup_name (iterate zs) qname = Some ip →
     ∃ zone hosts, zs !! zone = Some hosts ∧ matches (query_name qname) zone hosts ip) ∧
  (lookup_name (iterate zs) qname = None →
     ∀ zone hosts ip, zs !! zone = Some hosts → ¬ matches (query_name qname) zone hosts ip) ∧
  (∀ zone hosts ip, zs !! zone = Some hosts → matches (query_name qname) zone hosts ip →
     (∀ zone' hosts' ip', zs !! zone' = Some hosts' → matches (query_name qname) zone' hosts' ip' → ip' = ip) →
     lookup_name (iterate zs) qname = Some ip).
Proof.
  assert (∀ zone hosts, (zone, hosts) ∈ iterate zs ↔ zs !! zone = Some hosts) as Hin.
  { intros. rewrite iterate_perm. apply elem_of_map_to_list. }
  unfold lookup_name. split_and!.
  - intros ip (zone&hosts&Hi%Hin&Hm)%lookup_in_sound. by exists zone, hosts.
  - intros Hn zone hosts ip Hi%Hin Hm. destruct (lookup_in_complete _ _ _ _ _ Hi Hm) as [? ?]. congruence.
  - intros zone hosts ip Hi Hm Hu. destruct (lookup_in_complete (iterate zs) (query_name qname) zone hosts ip) as [ip' Hl];
      [by apply Hin|done|]. rewrite Hl. f_equal. apply lookup_in_sound in Hl as (z&hs&Hz%Hin&Hm'). by eapply Hu.
Qed.
(** * Answers *)

(** Whether a query is forwarded: it has questions, none could be answered, and
    there is an upstream. *)
Definition forwarded (h : Handler) (q : Msg) : bool :=
  Nat.eqb (length (concat (answer_question h <$> Question q))) 0 &&
  negb (Nat.eqb (length (Question q)) 0) && negb (Nat.eqb (length (upstreams h)) 0).

(** Queries answered one after the other. *)
Fixpoint answer_all (h : Handler) (qs : list Msg) : Handler * list reply :=
  match qs with
  | [] => (h, [])
  | q :: qs => let '(h, r) := answer h q in let '(h, rs) := answer_all h qs in (h, r :: rs)
  end.

Lemma answer_keeps h q :
  zones (answer h q).1 = zones h ∧ upstreams (answer h q).1 = upstreams h ∧
  rrIdx (answer h q).1 = if forwarded h q then u64 (rrIdx h + 1) else rrIdx h.
Proof. unfold answer, forwarded. destruct (_ && _); [|done]. by destruct (Exchange _ _). Qed.

Lemma answer_forwarded h q :
  forwarded h q = true →
  ∃ up, upstreams h !! Z.to_nat (u64 (rrIdx h + 1) mod Z.of_nat (length (upstreams h))) = Some up ∧
    (answer h q).2 = match Exchange q up with Some m => Forwarded m | None => Reply q RcodeServerFailure true [] end.
Proof.
  intros Hf. unfold answer. unfold forwarded in Hf. rewrite Hf.
  apply andb_true_iff in Hf as [Hf Hu]. apply andb_true_iff in Hf as [Ha _].
  apply Nat.eqb_eq, length_zero_iff_nil in Ha. apply negb_true_iff, Nat.eqb_neq in Hu. rewrite Ha.
  destruct (lookup_lt_is_Some_2 (upstreams h) (Z.to_nat (u64 (rrIdx h + 1) mod Z.of_nat (length (upstreams h)))))
    as [up Hup].
  { pose proof (Z.mod_pos_bound (u64 (rrIdx h + 1)) (Z.of_nat (length (upstreams h))) ltac:(lia)). lia. }
  exists up. split; [done|]. cbn [upstreams set_rrIdx]. rewrite Hup. cbn. by destruct (Exchange q up).
Qed.

(** The upstream a forwarded query is sent to. *)
Definition upstream_index (h : Handler) (k : nat) : nat :=
  Z.to_nat ((rrIdx h + Z.of_nat k) mod Z.of_nat (length (upstreams h))).

Lemma answer_all_state h qs :
  Forall (λ q, forwarded h q = true) qs → 0 ≤ rrIdx h → rrIdx h + Z.of_nat (length qs) < 2 ^ 64 →
  zones (answer_all h qs).1 = zones h ∧ upstreams (answer_all h qs).1 = upstreams h ∧
  (answer_all h qs).2 = imap (λ k q,
    match Exchange q (default "" (upstreams h !! upstream_index h (S k))) with
    | Some m => Forwarded m
    | None => Reply q RcodeServerFailure true []
    end) qs.
Proof.
  revert h. induction qs as [|q qs IH]; intros h Hq H0 Hl; [done|].
  apply Forall_cons in Hq as [Hq Hqs]. cbn [answer_all length] in *.
  destruct (answer_keeps h q) as (Hz&Hu&Hi). destruct (answer_forwarded h q Hq) as (up&Hup&Hr).
  destruct (answer h q) as [h1 r]. cbn [fst snd] in *. rewrite Hq in Hi.
  assert (u64 (rrIdx h + 1) = rrIdx h + 1) as Hw by (apply Z.mod_small; lia). rewrite Hw in Hi, Hup.
  destruct (IH h1) as (Hz1&Hu1&Hr1); [|lia|lia|].
  { eapply Forall_impl; [exact Hqs|]. intros q' Hq'. cbn in Hq'. unfold forwarded, answer_question in *. by rewrite Hz, Hu. }
  destruct (answer_all h1 qs) as [h2 rs]. cbn [fst snd] in *. split; [congruence|]. split; [congruence|].
  cbn [imap]. f_equal.
  - rewrite Hr. unfold upstream_index. change (Z.of_nat 1) with 1. by rewrite Hup.
  - rewrite Hr1. apply imap_ext. intros k q' _. cbn. unfold upstream_index. rewrite Hu, Hi.
    replace (rrIdx h + 1 + Z.of_nat (S k)) with (rrIdx h + Z.of_nat (S (S k))) by lia. done.
Qed.

(** Forwarding rotates: of any run of as many forwarded queries as there are
    upstreams, each upstream is asked exactly once. *)
Theorem upstream_rotation h :
  0 ≤ rrIdx h → upstreams h ≠ [] →
  (upstream_index h ∘ S) <$> seq 0 (length (upstreams h)) ≡ₚ seq 0 (length (upstreams h)).
Proof.
  intros H0 Hne. set (n := length (upstreams h)).
  assert (0 < Z.of_nat n) as Hn by (unfold n; destruct (upstreams h); [done|simpl; lia]).
  assert (NoDup ((upstream_index h ∘ S) <$> seq 0 n)) as Hnd.
  { apply NoDup_fmap_2_strong; [|apply NoDup_seq]. intros a b Ha%elem_of_seq Hb%elem_of_seq He.
    unfold upstream_index, compose in He. fold n in He.
    pose proof (Z.mod_pos_bound (rrIdx h + Z.of_nat (S a)) (Z.of_nat n) Hn).
    pose proof (Z.mod_pos_bound (rrIdx h + Z.of_nat (S b)) (Z.of_nat n) Hn).
    pose proof (Z.div_mod (rrIdx h + Z.of_nat (S a)) (Z.of_nat n) ltac:(lia)).
    pose proof (Z.div_mod (rrIdx h + Z.of_nat (S b)) (Z.of_nat n) ltac:(lia)).
    set (qa := (rrIdx h + Z.of_nat (S a)) / Z.of_nat n) in *. set (qb := (rrIdx h + Z.of_nat (S b)) / Z.of_nat n) in *.
    assert (qa = qb) by nia. nia. }
  apply submseteq_length_Permutation; [|by rewrite length_fmap, !length_seq].
  apply NoDup_submseteq; [done|]. intros i (k&->&_)%list_elem_of_fmap.
  apply elem_of_seq. unfold upstream_index, compose. fold n.
  pose proof (Z.mod_pos_bound (rrIdx h + Z.of_nat (S k)) (Z.of_nat n) Hn). lia.
Qed.

(** A name nobody knows is answered as if it existed: without an upstream the
    reply has no record and the code for success, not the one for an unknown
    name. *)
Theorem no_upstream_noerror h q :
  upstreams h = [] → (∀ qu, qu ∈ Question q → lookup_name (iterate (zones h)) (q_name qu) = None) →
  answer h q = (h, Reply q RcodeSuccess true []).
Proof.
  intros Hu Hn. unfold answer.
  assert (concat (answer_question h <$> Question q) = []) as ->.
  { induction (Question q) as [|qu qs IH]; [done|]. cbn. unfold answer_question at 1.
    rewrite (Hn qu) by left. apply IH. intros. apply Hn. by right. }
  rewrite Hu. cbn [length]. by rewrite andb_false_r.
Qed.

(** The type of a question is not looked at: a query for any other type of record
    of a known name is answered with its address record. *)
Theorem answers_ignore_type h q q' :
  q_name <$> Question q = q_name <$> Question q' →
  concat (answer_question h <$> Question q) = concat (answer_question h <$> Question q').
Proof.
  intros He. f_equal.
  assert (∀ qs : list question, answer_question h <$> qs =
    (λ n, match lookup_name (iterate (zones h)) n with
          | Some ip => match NewRR n ip with Some rr => [rr] | None => [] end
          | None => [] end) <$> (q_name <$> qs)) as Ha.
  { intros qs. rewrite <- list_fmap_compose. done. }
  by rewrite !Ha, He.
Qed.

(** * Framing *)

(** A query as it is sent over TCP. *)
Definition query_frame (b : list byte) : list byte := be_put 2 (Z.of_nat (length b)) ++ b.

Lemma frame_be p : frame p = be_put 2 (Z.of_nat (length p)) ++ p.
Proof.
  unfold frame. cbn [be_put app]. change (8 * Z.of_nat 1) with 8. change (8 * Z.of_nat 0) with 0. by rewrite Z.shiftr_0_r.
Qed.

Lemma serve_loop_step fuel h b rest out q packed :
  (0 < length b)%nat → Z.of_nat (length b) < 2 ^ 16 → Unpack b = Some q → Pack (answer h q).2 = Some packed →
  serve_loop (S fuel) (λ _, true) h (query_frame b ++ rest) out =
  serve_loop fuel (λ _, true) (answer h q).1 rest (out ++ [frame packed]).
Proof.
  intros Hb Hl Hu Hp. unfold query_frame. rewrite <- app_assoc. cbn [serve_loop].
  rewrite (read_full_app' 2) by apply length_be_put. rewrite be_get_put by lia.
  destruct (_ || _) eqn:Hg.
  { apply orb_true_iff in Hg as [Hg|Hg]; bool_to_prop; [lia|]. change (Z.shiftl 64 10) with 65536 in Hg. lia. }
  rewrite Nat2Z.id, read_full_app, Hu. destruct (answer h q) as [h' r]. cbn [snd fst] in *. by rewrite Hp.
Qed.

(** A connection answers every query, in order: each frame that unpacks is
    answered by one frame of the packed answer, with the handler's state carried
    from one to the next; at the end of the input the connection is closed. *)
Theorem serve_frames h bs qs ps :
  Forall (λ b, (0 < length b)%nat ∧ Z.of_nat (length b) < 2 ^ 16) bs → Unpack <$> bs = Some <$> qs →
  Pack <$> (answer_all h qs).2 = Some <$> ps →
  serveConn (λ _, true) h (concat (query_frame <$> bs)) = ((answer_all h qs).1, frame <$> ps).
Proof.
  intros Hbs Hq Hp. unfold serveConn.
  assert (∀ fuel out, (length bs < fuel)%nat →
    serve_loop fuel (λ _, true) h (concat (query_frame <$> bs)) out = ((answer_all h qs).1, out ++ (frame <$> ps))) as H.
  { revert h qs ps Hq Hp. induction Hbs as [|b bs [Hb Hl] _ IH]; intros h qs ps Hq Hp fuel out Hf.
    - destruct qs; [|done]. destruct ps; [|done]. destruct fuel; [simpl in Hf; lia|]. cbn. by rewrite app_nil_r.
    - destruct qs as [|q qs]; [done|]. cbn in Hq. injection Hq as Hq Hqs. cbn [answer_all] in *.
      destruct fuel as [|fuel]; [simpl in Hf; lia|]. cbn [fmap list_fmap concat].
      destruct (answer h q) as [h1 r] eqn:Ha. destruct (answer_all h1 qs) as [h2 rs] eqn:Hall.
      cbn [fst snd] in *. destruct ps as [|p ps]; [done|]. cbn in Hp. injection Hp as Hp Hps.
      rewrite (serve_loop_step fuel h b _ out q p) by (done || by rewrite Ha). rewrite Ha. cbn [fst].
      specialize (IH h1 qs ps Hqs). rewrite Hall in IH. cbn [fst snd] in IH.
      rewrite IH by (done || (simpl in Hf; lia)). by rewrite <- app_assoc. }
  rewrite H; [done|].
  assert (∀ l : list (list byte), (length l ≤ length (concat (query_frame <$> l)))%nat) as Hlen.
  { induction l as [|b l IHl]; [done|]. cbn [fmap list_fmap concat]. unfold query_frame at 1.
    rewrite !length_app, length_be_put. simpl. lia. }
  specialize (Hlen bs). lia.
Qed.
End dns.

(** * Deciding examples *)

(** Of two zones that both answer for a name, the one the map happens to yield
    first wins: the answer to the same query can change from one to the next. *)
Theorem nested_zones_ambiguous :
  ∃ (zs : gmap string (gmap string string)) o1 o2, o1 ≡ₚ map_to_list zs ∧ o2 ≡ₚ map_to_list zs ∧
    lookup_name o1 "www.a.org." = Some "10.0.0.1" ∧ lookup_name o2 "www.a.org." = Some "10.0.0.2".
Proof.
  exists (<["a.org" := {["www" := "10.0.0.1"]}]> {["org" := {["www.a" := "10.0.0.2"]}]}).
  exists [("a.org", {["www" := "10.0.0.1"]}); ("org", {["www.a" := "10.0.0.2"]})].
  exists [("org", {["www.a" := "10.0.0.2"]}); ("a.org", {["www" := "10.0.0.1"]})].
  assert ([("a.org", {["www" := "10.0.0.1"]}); ("org", {["www.a" := "10.0.0.2"]})]
    ≡ₚ map_to_list (<["a.org" := {["www" := "10.0.0.1"]}]> {["org" := {["www.a" := "10.0.0.2"]}]} : gmap string (gmap string string))) as Hp.
  { rewrite map_to_list_insert by done. by rewrite map_to_list_singleton. }
  split; [done|]. split; [rewrite <- Hp; apply Permutation_swap|]. split; vm_compute; reflexivity.
Qed.

(** A zone table in any spelling answers queries in any spelling. *)
Example lookup_any_case :
  lookup_name (map_to_list (normalizeZones [("Example.ORG.", [("WWW", "10.0.0.7")])])) "wWw.eXample.org." = Some "10.0.0.7".
Proof. vm_compute. reflexivity. Qed.

(** A codec for the witness: a query is its type and the name it asks for; the
    answer to it is packed as its code and its addresses. *)
Definition wit_Unpack (b : list byte) : option (list question) :=
  match b with ty :: n => Some [mkQuestion (String.string_of_list_byte n) (b2z ty)] | [] => None end.
Definition wit_NewRR (n ip : string) : option string := Some ip.
Definition wit_Pack (r : reply (Msg := list question) (RR := string)) : option (list byte) :=
  match r with
  | Reply _ rcode _ ans => Some (z2b rcode :: String.list_byte_of_string (String.concat "," ans))
  | Forwarded _ => Some [xff]
  end.
Definition wit_handler : Handler := New "d" [("Example.ORG.", [("WWW", "10.0.0.1")])] ["192.0.2.1:53"].
Definition wit_query (n : string) : list byte := x01 :: String.list_byte_of_string n.
Definition wit_Exchange (q : list question) (up : string) : option (list question) := None.

Lemma serve_frames_witness :
  serveConn (λ q, q) wit_Unpack wit_NewRR wit_Exchange map_to_list wit_Pack (λ _, true) wit_handler
    (concat (query_frame <$> [wit_query "www.example.org."; wit_query "other.net."])) =
  (set_rrIdx 1 wit_handler, frame <$> [x00 :: String.list_byte_of_string "10.0.0.1"; [x02]]).
Proof.
  pose proof (serve_frames (λ q, q) wit_Unpack wit_NewRR wit_Exchange map_to_list wit_Pack wit_handler
    [wit_query "www.example.org."; wit_query "other.net."]
    [[mkQuestion "www.example.org." 1]; [mkQuestion "other.net." 1]]
    [x00 :: String.list_byte_of_string "10.0.0.1"; [x02]]) as H.
  exact (H ltac:(repeat constructor) ltac:(vm_compute; reflexivity) ltac:(vm_compute; reflexivity)).
Defined.
