(* ===== verification/Admin.v ===== *)
(** The administration API (internal/star/starserver/admin_server.go):
    authentication, routing of the requests, and every handler over the control
    servers, the hub and the routing rules, with the zone API that a DNS component
    adds to it. *)
From S2P Require Import Prelude Message StreamTable CtrlHub Config Register CtrlProxy Proxy ConfigStore Dns.
From Stdlib Require Import ZArith Lia.

(** * Requests and responses *)

(** A request as [net/http] hands it over: a missing header is empty, and the
    path of a request that reaches a handler is clean and decoded (no segment has
    an encoded slash). *)
Record request := mkRequest {
  rq_method : string;
  rq_path : string;
  rq_authorization : string;
  rq_kick : string;           (* the query value [kick] *)
  rq_body : list byte;
}.

Inductive body :=
  | BError (msg : string)
  | BOk (what : string) (kicked : option nat)
  | BKicked (n : nat)
  | BStatus (name : string) (uptime : Z) (clients streams conns : nat) (inBytes outBytes : Z)
  | BClients (l : list ClientInfo)
  | BStreams (l : list StreamStat)
  | BConns (l : list ConnStat)
  | BConnects (m : gmap string (list ConnectItem))
  | BProxies (l : list ClientProxy)
  | BZones (z : zone_table)
  | BStatic (path : string)
  | BEmpty.

Definition response : Type := Z * body.
Definition writeErr (code : Z) (msg : string) : response := (code, BError msg).

(** * The server *)

Record AdminServer := mkAdmin {
  a_name : string;
  a_password : string;        (* [settings.AdminPassword] *)
  a_hub : CtrlHub;
  a_connects : ConnectTable;
  a_ctrls : list CtrlProxyServer;
  a_dns : list Dns.Handler;
  a_started : Z;
  a_closed : list (nat * session_id);   (* the sessions closed by [Kick], by control server *)
  a_writes : list wphase;               (* the writes to the configuration store *)
}.

Definition with_connects (t : ConnectTable) (a : AdminServer) : AdminServer :=
  mkAdmin (a_name a) (a_password a) (a_hub a) t (a_ctrls a) (a_dns a) (a_started a) (a_closed a) (a_writes a).
Definition with_ctrls (l : list CtrlProxyServer) (a : AdminServer) : AdminServer :=
  mkAdmin (a_name a) (a_password a) (a_hub a) (a_connects a) l (a_dns a) (a_started a) (a_closed a) (a_writes a).
Definition with_dns (l : list Dns.Handler) (a : AdminServer) : AdminServer :=
  mkAdmin (a_name a) (a_password a) (a_hub a) (a_connects a) (a_ctrls a) l (a_started a) (a_closed a) (a_writes a).
Definition with_closed (l : list (nat * session_id)) (a : AdminServer) : AdminServer :=
  mkAdmin (a_name a) (a_password a) (a_hub a) (a_connects a) (a_ctrls a) (a_dns a) (a_started a) l (a_writes a).
Definition with_writes (l : list wphase) (a : AdminServer) : AdminServer :=
  mkAdmin (a_name a) (a_password a) (a_hub a) (a_connects a) (a_ctrls a) (a_dns a) (a_started a) (a_closed a) l.

(** ** Authentication *)

(** The loop of [subtleComp]: the differences of all bytes, or-ed together. *)
Fixpoint comp_bytes (a b : list byte) (v : Z) : Z :=
  match a, b with
  | x :: a, y :: b => comp_bytes a b (Z.lor v (b2z (bxor x y)))
  | _, _ => v
  end.

Definition subtleComp (a b : string) : bool :=
  if negb (Nat.eqb (String.length a) (String.length b)) then false
  else comp_bytes (String.list_byte_of_string a) (String.list_byte_of_string b) 0 =? 0.

Definition bearer : string := "Bearer ".

(** [len(token) > len(prefix) && token[:len(prefix)] == prefix && subtleComp(...)] *)
Definition good_token (password token : string) : bool :=
  Nat.ltb (String.length bearer) (String.length token) &&
  String.eqb (String.substring 0 (String.length bearer) token) bearer &&
  subtleComp (String.substring (String.length bearer) (String.length token - String.length bearer) token) password.

(** [auth]: the response of a request that is turned away. *)
Definition auth (a : AdminServer) (r : request) : option response :=
  if str_empty (a_password a) then Some (writeErr 403 "admin password not configured")
  else if negb (good_token (a_password a) (rq_authorization r)) then Some (writeErr 401 "unauthorized")
  else None.

(** ** Handlers *)

Definition countClients (a : AdminServer) : nat := sum_list_with (λ c, length (Clients c)) (a_ctrls a).

Definition sum_bytes (f : StreamStat → Z) (l : list StreamStat) : Z := foldl (λ n s, u64 (n + f s)) 0 l.

Definition handleStatus (now : Z) (a : AdminServer) : response :=
  let streams := Snapshot (Streams (a_hub a)) in
  (200, BStatus (a_name a) ((now - a_started a) ÷ 10 ^ 9) (countClients a) (length streams) (ConnCount (a_hub a))
          (sum_bytes ss_InBytes streams) (sum_bytes ss_OutBytes streams)).

Definition handleClients (a : AdminServer) : response := (200, BClients (concat (Clients <$> a_ctrls a))).
Definition handleStreams (a : AdminServer) : response := (200, BStreams (Snapshot (Streams (a_hub a)))).
Definition handleConns (a : AdminServer) : response := (200, BConns (SnapshotConns (a_hub a))).
Definition handleConnects (a : AdminServer) : response := (200, BConnects (All (a_connects a))).

Definition proxy_key (cp : ClientProxy) : string := cp_ClientProxyName cp +:+ "/" +:+ cp_StreamId cp.

(** The first entry of each key. *)
Fixpoint dedup (seen : gset string) (l : list ClientProxy) : list ClientProxy :=
  match l with
  | [] => []
  | cp :: l =>
      if decide (proxy_key cp ∈ seen) then dedup seen l else cp :: dedup ({[proxy_key cp]} ∪ seen) l
  end.

Definition handleListClientProxies (a : AdminServer) : response :=
  (200, BProxies (dedup ∅ (concat ((λ c, ClientProxies (settings c)) <$> a_ctrls a)))).

(** A loop over the control servers that changes each, and whether one changed. *)
Definition over_ctrls (f : CtrlProxyServer → CtrlProxyServer * bool) (l : list CtrlProxyServer) :
    list CtrlProxyServer * bool :=
  ((λ c, (f c).1) <$> l, existsb (λ c, (f c).2) l).

Definition kick (a : AdminServer) (name : string) : AdminServer * nat :=
  let targets := concat (imap (λ i c, (λ s, (i, s)) <$> Kick c name) (a_ctrls a)) in
  (with_closed (a_closed a ++ targets) a, length targets).

Section json.
(** encoding/json on the bodies of the requests; [ConnectItem] keeps its
    [bridgeName]. *)
Variable decode_proxy : list byte → result string ClientProxy.
Variable decode_rule : list byte → result string ConnectItem.
Variable decode_kick : list byte → result string string.
Variable decode_zones : list byte → option (list (string * list (string * string))).
Variable marshal_zones : list (string * list (string * string)) → list byte.
Variable store_root : string.

Definition handleAddClientProxy (a : AdminServer) (r : request) : AdminServer * response :=
  match decode_proxy (rq_body r) with
  | Err e => (a, writeErr 400 ("bad json: " +:+ e))
  | Ok cp =>
      if str_empty (cp_ClientProxyName cp) || str_empty (cp_StreamId cp) || str_empty (cp_KeyPassword cp) then
        (a, writeErr 400 "clientProxyName, streamId, keyPassword are required")
      else
        let '(cs, added) := over_ctrls (λ c, AddClientProxy c cp) (a_ctrls a) in
        let a := with_ctrls cs a in
        if added then (a, (200, BOk "added" None)) else (a, writeErr 409 "clientProxy already exists")
  end.

Definition handleDeleteClientProxy (a : AdminServer) (name streamId : string) (r : request) : AdminServer * response :=
  let '(cs, removed) := over_ctrls (λ c, RemoveClientProxy c name streamId) (a_ctrls a) in
  let a := with_ctrls cs a in
  if removed then
    if String.eqb (rq_kick r) "1" then
      let '(a, n) := kick a name in (a, (200, BOk "removed" (Some n)))
    else (a, (200, BOk "removed" None))
  else (a, writeErr 404 "clientProxy not found").

Definition handleAddConnect (a : AdminServer) (r : request) : AdminServer * response :=
  match decode_rule (rq_body r) with
  | Err e => (a, writeErr 400 ("bad json: " +:+ e))
  | Ok rule =>
      if str_empty (ci_ProxyName rule) || str_empty (ci_ClientProxyName rule) || str_empty (ci_StreamId rule) then
        (a, writeErr 400 "proxyName, clientProxyName, streamId are required")
      else
        let '(t, added) := Add (a_connects a) rule in
        if added then (with_connects t a, (200, BOk "added" None))
        else (a, writeErr 409 "connect rule already exists")
  end.

Definition handleDeleteConnect (a : AdminServer) (proxyName name streamId : string) : AdminServer * response :=
  let '(t, removed) := RemoveRule (a_connects a) proxyName name streamId in
  if removed then (with_connects t a, (200, BOk "removed" None))
  else (a, writeErr 404 "connect rule not found").

Definition handleKick (a : AdminServer) (r : request) : AdminServer * response :=
  match decode_kick (rq_body r) with
  | Err _ => (a, writeErr 400 "clientProxyName is required")
  | Ok name =>
      if str_empty name then (a, writeErr 400 "clientProxyName is required")
      else let '(a, n) := kick a name in (a, (200, BKicked n))
  end.

(** The zone API of a DNS component, by the component's position. *)
Definition handlePutZones (a : AdminServer) (i : nat) (r : request) : AdminServer * response :=
  match a_dns a !! i with
  | None => (a, writeErr 404 "404 page not found")
  | Some h =>
      let '(h, code, w) := put_zones decode_zones marshal_zones store_root h (rq_body r) in
      (with_writes (a_writes a ++ option_list w) (with_dns (<[i := h]> (a_dns a)) a),
       (code, if code =? 200 then BEmpty else BError "bad json"))
  end.

(** ** Routing *)

(** The patterns registered with the mux; a wildcard matches one segment that is
    not empty. *)
Inductive route :=
  | RStatus | RClients | RStreams | RConns | RConnects | RListProxies
  | RAddProxy | RDeleteProxy (name streamId : string)
  | RAddConnect | RDeleteConnect (proxyName name streamId : string)
  | RKick | RGetZones (i : nat) | RPutZones (i : nat)
  | RNotFound | RMethodNotAllowed.

(** A pattern: its method, its segments ([None] for a wildcard), and the route of
    the values of its wildcards. *)
Definition pattern : Type := string * list (option string) * (list string → route).

Definition lit (path : string) : list (option string) := Some <$> split_slash path.

(** The patterns [Serve] registers, with those of the DNS components. *)
Definition patterns (a : AdminServer) : list pattern :=
  [("GET", lit "/api/status", λ _, RStatus);
   ("GET", lit "/api/tunnel/clients", λ _, RClients);
   ("GET", lit "/api/tunnel/streams", λ _, RStreams);
   ("GET", lit "/api/tunnel/conns", λ _, RConns);
   ("GET", lit "/api/tunnel/connects", λ _, RConnects);
   ("GET", lit "/api/tunnel/credentials", λ _, RListProxies);
   ("POST", lit "/api/tunnel/credentials", λ _, RAddProxy);
   ("DELETE", lit "/api/tunnel/credentials" ++ [None; None],
     λ vs, match vs with [n; s] => RDeleteProxy n s | _ => RNotFound end);
   ("POST", lit "/api/tunnel/connects", λ _, RAddConnect);
   ("DELETE", lit "/api/tunnel/connects" ++ [None; None; None],
     λ vs, match vs with [p; n; s] => RDeleteConnect p n s | _ => RNotFound end);
   ("POST", lit "/api/tunnel/kick", λ _, RKick)] ++
  concat (imap (λ i h,
    [("GET", lit ("/api/dns/" +:+ h_name h +:+ "/zones"), λ _, RGetZones i);
     ("PUT", lit ("/api/dns/" +:+ h_name h +:+ "/zones"), λ _, RPutZones i)]) (a_dns a)).

(** The values of the wildcards of a pattern that matches a path. *)
Fixpoint match_segs (segs : list (option string)) (path : list string) : option (list string) :=
  match segs, path with
  | [], [] => Some []
  | Some l :: segs, s :: path => if decide (s = l) then match_segs segs path else None
  | None :: segs, s :: path => if decide (s = "") then None else cons s <$> match_segs segs path
  | _, _ => None
  end.

(** A [GET] pattern serves [HEAD] too. *)
Definition method_ok (pat m : string) : bool := String.eqb pat m || String.eqb pat "GET" && String.eqb m "HEAD".

Fixpoint find_route (m : string) (path : list string) (ps : list pattern) (other : route) : route :=
  match ps with
  | [] => other
  | (pm, segs, f) :: ps =>
      match match_segs segs path with
      | Some vs => if method_ok pm m then f vs else find_route m path ps RMethodNotAllowed
      | None => find_route m path ps other
      end
  end.

Definition route_of (a : AdminServer) (r : request) : route :=
  find_route (rq_method r) (split_slash (rq_path r)) (patterns a) RNotFound.

Definition serve_api (now : Z) (a : AdminServer) (r : request) : AdminServer * response :=
  match route_of a r with
  | RStatus => (a, handleStatus now a)
  | RClients => (a, handleClients a)
  | RStreams => (a, handleStreams a)
  | RConns => (a, handleConns a)
  | RConnects => (a, handleConnects a)
  | RListProxies => (a, handleListClientProxies a)
  | RAddProxy => handleAddClientProxy a r
  | RDeleteProxy n s => handleDeleteClientProxy a n s r
  | RAddConnect => handleAddConnect a r
  | RDeleteConnect p n s => handleDeleteConnect a p n s
  | RKick => handleKick a r
  | RGetZones i => (a, (200, BZones (default ∅ (Zones <$> a_dns a !! i))))
  | RPutZones i => handlePutZones a i r
  | RNotFound => (a, writeErr 404 "404 page not found")
  | RMethodNotAllowed => (a, writeErr 405 "Method Not Allowed")
  end.

(** The handler [Serve] installs: everything below [/api/] is authenticated, the
    rest are the static pages. *)
Definition serve (now : Z) (a : AdminServer) (r : request) : AdminServer * response :=
  if HasPrefix (rq_path r) "/api/" then
    match auth a r with
    | Some refused => (a, refused)
    | None => serve_api now a r
    end
  else (a, (200, BStatic (rq_path r))).
End json.

(** * Authentication is exact *)

Lemma comp_bytes_zero a b v :
  length a = length b → 0 ≤ v → (comp_bytes a b v = 0 ↔ v = 0 ∧ a = b).
Proof.
  revert b v. induction a as [|x a IH]; intros [|y b] v Hl Hv; simplify_eq/=; [tauto|].
  pose proof (b2z_range (bxor x y)). rewrite IH; [|done|apply Z.lor_nonneg; lia].
  rewrite Z.lor_eq_0_iff. split.
  - intros [[-> Hx] ->]. split; [done|]. f_equal.
    unfold bxor in Hx. rewrite b2z_z2b, u8_small in Hx by (apply lxor_byte_range; apply b2z_range).
    apply Z.lxor_eq in Hx. by apply b2z_inj.
  - intros [-> [= -> ->]]. split; [split; [done|]|done]. unfold bxor. by rewrite Z.lxor_nilpotent, b2z_z2b.
Qed.

Lemma list_byte_of_string_inj a b : String.list_byte_of_string a = String.list_byte_of_string b → a = b.
Proof.
  intros H. rewrite <- (String.string_of_list_byte_of_string a), <- (String.string_of_list_byte_of_string b). by rewrite H.
Qed.

Lemma length_bytes s : length (String.list_byte_of_string s) = String.length s.
Proof. induction s as [|c s IH]; [done|]. cbn. f_equal. exact IH. Qed.

(** The comparison that takes the same time for every password of a length is an
    equality test. *)
Theorem subtleComp_exact a b : subtleComp a b = true ↔ a = b.
Proof.
  unfold subtleComp. destruct (Nat.eqb_spec (String.length a) (String.length b)) as [Hl|Hl]; cbn [negb].
  - rewrite Z.eqb_eq, comp_bytes_zero by (rewrite ?length_bytes; done).
    split; [by intros [_ ?%list_byte_of_string_inj]|by intros ->].
  - split; [done|]. by intros ->.
Qed.

Lemma substring_app_r a b : String.substring (String.length a) (String.length b) (a +:+ b) = b.
Proof.
  pose proof (substring_part a b "") as H. by rewrite append_empty_r in H.
Qed.

Lemma substring_app_l a b : String.substring 0 (String.length a) (a +:+ b) = a.
Proof. exact (substring_part "" a b). Qed.

Lemma substring_split n s :
  (n ≤ String.length s)%nat → s = String.substring 0 n s +:+ String.substring n (String.length s - n) s.
Proof.
  revert s. induction n as [|n IH]; intros s Hl.
  - rewrite Nat.sub_0_r. assert (String.substring 0 0 s = "") as -> by by destruct s.
    change ("" +:+ ?x) with x. symmetry. clear. induction s as [|c s IH]; [done|]. cbn. f_equal. exact IH.
  - destruct s as [|c s]; cbn [String.length] in *; [lia|]. cbn [String.substring Nat.sub].
    change (String c ?x +:+ ?y) with (String c (x +:+ y)). f_equal. apply IH. lia.
Qed.

Lemma good_token_exact password token :
  password ≠ "" → (good_token password token = true ↔ token = bearer +:+ password).
Proof.
  intros Hp. unfold good_token. rewrite !andb_true_iff, Nat.ltb_lt, String.eqb_eq, subtleComp_exact. split.
  - intros [[Hl Hpre] <-]. rewrite <- Hpre at 1. apply substring_split. lia.
  - intros ->. rewrite length_sapp. rewrite substring_app_l.
    replace (String.length bearer + String.length password - String.length bearer)%nat with (String.length password) by lia.
    rewrite substring_app_r. split_and!; try done. destruct password; [done|]. cbn. lia.
Qed.

Lemma auth_exact a r : auth a r = None ↔ a_password a ≠ "" ∧ rq_authorization r = bearer +:+ a_password a.
Proof.
  unfold auth, str_empty. destruct (String.eqb_spec (a_password a) "") as [->|Hp]; [by split; [|intros [? _]]|].
  rewrite <- (good_token_exact _ _ Hp). destruct (good_token _ _); cbn; naive_solver.
Qed.

Section theorems.
Context (dp : list byte → result string ClientProxy) (dr : list byte → result string ConnectItem)
  (dk : list byte → result string string) (dz : list byte → option (list (string * list (string * string))))
  (mz : list (string * list (string * string)) → list byte) (root : string).

Abbreviation serve' := (serve dp dr dk dz mz root).

(** C25: Nothing of the API is reached without the password: a request below [/api/]
    is handled exactly when a password is configured and the header is [Bearer]
    followed by it; any other is turned away with 401 or 403 and no effect, and a
    request elsewhere only gets a static page. *)
Theorem api_needs_password now a r :
  (HasPrefix (rq_path r) "/api/" = true →
   (a_password a ≠ "" ∧ rq_authorization r = bearer +:+ a_password a ∧
    serve' now a r = serve_api dp dr dk dz mz root now a r) ∨
   (¬ (a_password a ≠ "" ∧ rq_authorization r = bearer +:+ a_password a) ∧
    ∃ code msg, serve' now a r = (a, (code, BError msg)) ∧ (code = 401 ∨ code = 403))) ∧
  (HasPrefix (rq_path r) "/api/" = false → serve' now a r = (a, (200, BStatic (rq_path r)))).
Proof.
  unfold serve. split; intros ->; [|done]. pose proof (auth_exact a r) as Ha.
  destruct (auth a r) as [resp|] eqn:E.
  - right. split; [by rewrite <- Ha|]. unfold auth in E. destruct (str_empty _); simplify_eq.
    + by eexists _, _; split; [|right].
    + destruct (negb _); simplify_eq. by eexists _, _; split; [|left].
  - left. destruct (proj1 Ha eq_refl). done.
Qed.

(** ** Routing rules *)

Lemma remove_rule_app n s l x :
  existsb (λ o, String.eqb (ci_ClientProxyName o) n && String.eqb (ci_StreamId o) s) l = false →
  ci_ClientProxyName x = n → ci_StreamId x = s → remove_rule n s (l ++ [x]) = Some l.
Proof.
  intros Hl <- <-. induction l as [|o l IH]; cbn in *.
  - by rewrite !String.eqb_refl.
  - apply orb_false_iff in Hl as [-> Hl]. by rewrite IH.
Qed.

(** The rules of a proxy carry its name, as [Add] keeps them. *)
Definition table_named (t : ConnectTable) : Prop := ∀ p, Forall (λ o, ci_ProxyName o = p) (For t p).

Lemma table_named_Add t rule : table_named t → table_named (Add t rule).1.
Proof.
  intros Ht p. unfold Add. destruct (existsb _ _); [done|]. unfold For, rules_of. cbn.
  destruct (decide (ci_ProxyName rule = p)) as [<-|Hne].
  - rewrite lookup_insert_eq. cbn. apply Forall_app. split; [apply Ht|by constructor].
  - rewrite lookup_insert_ne by done. apply Ht.
Qed.

Lemma rules_of_mk_insert k l m p :
  rules_of (mkConnectTable (<[k := l]> m)) p = if decide (k = p) then l else rules_of (mkConnectTable m) p.
Proof. exact (rules_of_insert (mkConnectTable m) k l p). Qed.

(** Adding a rule and deleting it again leaves every proxy with the rules it had,
    in the order it had them. *)
Theorem connect_add_delete a r rule :
  table_named (a_connects a) → dr (rq_body r) = Ok rule → (handleAddConnect dr a r).2.1 = 200 →
  let d := handleDeleteConnect (handleAddConnect dr a r).1 (ci_ProxyName rule) (ci_ClientProxyName rule) (ci_StreamId rule) in
  d.2 = (200, BOk "removed" None) ∧ ∀ p, For (a_connects d.1) p = For (a_connects a) p.
Proof.
  intros Hn Hd. unfold handleAddConnect. rewrite Hd. destruct (_ || _); [done|].
  unfold Add. set (l := rules_of (a_connects a) (ci_ProxyName rule)).
  destruct (existsb _ l) eqn:He; [done|]. intros _. cbn [fst snd].
  unfold handleDeleteConnect, RemoveRule, with_connects. cbn [a_connects]. rewrite rules_of_mk_insert, decide_True by done.
  assert (existsb (λ o, String.eqb (ci_ClientProxyName o) (ci_ClientProxyName rule) &&
                         String.eqb (ci_StreamId o) (ci_StreamId rule)) l = false) as Hl.
  { pose proof (Hn (ci_ProxyName rule)) as Hf. fold l in Hf. unfold For in Hf. fold l in Hf. clear -He Hf.
    induction l as [|o l IH]; [done|]. apply Forall_cons in Hf as [Ho Hf]. cbn in *.
    apply orb_false_iff in He as [He1 He]. unfold sameConnectRule in He1. rewrite Ho, String.eqb_refl in He1.
    cbn in He1. by rewrite He1, IH. }
  rewrite (remove_rule_app _ _ _ rule Hl) by done. cbn [fst snd]. split; [done|]. intros p. unfold For. cbn [a_connects].
  rewrite rules_of_mk_insert. case_decide as Hp; [by subst p|]. cbn [rules].
  rewrite rules_of_mk_insert, decide_False by done. by destruct (a_connects a).
Qed.

Lemma remove_rule_keeps n s l l' o :
  remove_rule n s l = Some l' → o ∈ l → ci_StreamId o ≠ s → o ∈ l'.
Proof.
  revert l'. induction l as [|x l IH]; intros l'; cbn [remove_rule]; [done|].
  destruct (_ && _) eqn:E.
  - intros [= <-] Hin Hs. apply andb_true_iff in E as [_ E%String.eqb_eq].
    apply elem_of_cons in Hin as [->|]; [done|done].
  - intros (l1&Hl1&->)%fmap_Some Hin Hs. apply elem_of_cons in Hin as [->|Hin]; [left|right; by eapply IH].
Qed.

Lemma match_segs_wild segs path vs : match_segs segs path = Some vs → Forall (λ v, v ≠ "") vs.
Proof.
  revert path vs. induction segs as [|[l|] segs IH]; intros [|s path] vs Hm; cbn [match_segs] in Hm; simplify_eq.
  - by constructor.
  - destruct (decide (s = l)); [by eapply IH|done].
  - destruct (decide (s = "")); [done|]. apply fmap_Some in Hm as (vs'&Hm&->). constructor; [done|by eapply IH].
Qed.

(** A route of the mux is a pattern's, applied to values that are not empty. *)
Lemma find_route_spec m path ps other :
  find_route m path ps other = other ∨ find_route m path ps other = RMethodNotAllowed ∨
  ∃ pm segs f vs, (pm, segs, f) ∈ ps ∧ find_route m path ps other = f vs ∧ Forall (λ v, v ≠ "") vs.
Proof.
  revert other. induction ps as [|[[pm segs] f] ps IH]; intros other; [by left|]. cbn [find_route].
  destruct (match_segs segs path) as [vs|] eqn:Hm.
  - destruct (method_ok pm m).
    + right; right. exists pm, segs, f, vs. split; [left|]. split; [done|]. by eapply match_segs_wild.
    + right. destruct (IH RMethodNotAllowed) as [->|[->|(pm'&segs'&f'&vs'&Hin&->&Hv)]]; [by left|by left|].
      right. exists pm', segs', f', vs'. split; [by right|done].
  - destruct (IH other) as [->|[->|(pm'&segs'&f'&vs&Hin&->&Hv)]]; [by left|by right; left|].
    right; right. exists pm', segs', f', vs. split; [by right|done].
Qed.

Lemma route_delete_connect a r pn n s : route_of a r = RDeleteConnect pn n s → s ≠ "".
Proof.
  unfold route_of. intros Hr.
  destruct (find_route_spec (rq_method r) (split_slash (rq_path r)) (patterns a) RNotFound)
    as [H|[H|(pm&segs&f&vs&Hin&H&Hv)]]; [congruence|congruence|].
  rewrite Hr in H. unfold patterns in Hin. apply elem_of_app in Hin as [Hin|Hin].
  - repeat (apply elem_of_cons in Hin as [[= -> -> ->]|Hin]); try done; try (by apply elem_of_nil in Hin).
    + by destruct vs as [|? [|? [|]]].
    + destruct vs as [|? [|? [|? [|]]]]; try done. injection H as -> -> ->.
      by apply Forall_cons in Hv as [_ [_ [? _]%Forall_cons]%Forall_cons].
  - apply list_elem_of_concat in Hin as (l&Hin&Hl). apply elem_of_lookup_imap in Hl as (i&h&->&_).
    repeat (apply elem_of_cons in Hin as [[= -> -> ->]|Hin]); try done. by apply elem_of_nil in Hin.
Qed.

(** A rule for any stream of a client, which has no stream in it, cannot be
    deleted: no request removes it. *)
Theorem any_stream_rule_stays now a r p rule :
  rule ∈ For (a_connects a) p → ci_StreamId rule = "" → rule ∈ For (a_connects (serve' now a r).1) p.
Proof.
  intros Hin Hs. unfold serve. destruct (HasPrefix _ _); [|done]. destruct (auth a r); [done|].
  unfold serve_api. destruct (route_of a r) as [| | | | | | |n s| |pn n s| |i|i| |] eqn:Hr; cbn [fst]; try done.
  - unfold handleAddClientProxy. destruct (dp _); [|done]. destruct (_ || _); [done|].
    destruct (over_ctrls _ _) as [cs []]; done.
  - unfold handleDeleteClientProxy. destruct (over_ctrls _ _) as [cs []]; [|done].
    by destruct (String.eqb (rq_kick r) "1").
  - unfold handleAddConnect. destruct (dr _) as [rl|]; [|done]. destruct (_ || _); [done|].
    unfold Add. destruct (existsb _ _); [done|]. unfold For, rules_of in *. cbn.
    destruct (decide (ci_ProxyName rl = p)) as [<-|Hne].
    + rewrite lookup_insert_eq. cbn. apply elem_of_app. by left.
    + by rewrite lookup_insert_ne.
  - assert (s ≠ "") as Hse.
    { eapply route_delete_connect; done. }
    unfold handleDeleteConnect, RemoveRule. destruct (remove_rule n s _) as [l'|] eqn:Hl; [|done].
    unfold For, rules_of in *. cbn. destruct (decide (pn = p)) as [<-|Hne].
    + rewrite lookup_insert_eq. cbn. eapply remove_rule_keeps; [done|done|]. by rewrite Hs.
    + by rewrite lookup_insert_ne.
  - unfold handleKick. destruct (dk _); [|done]. by destruct (str_empty _).
  - unfold handlePutZones. destruct (a_dns a !! i); [|done]. by destruct (put_zones _ _ _ _ _) as [[? ?] ?].
Qed.
(** ** Credentials *)

Lemma creds_last sv cps cp :
  ClientProxies (settings sv) = cps ++ [cp] → str_empty (cp_KeyPassword cp) = false →
  KeyPassword (settings sv) ≠ cp_KeyPassword cp → creds sv !! cp_KeyPassword cp = Some (cp_ClientProxyName cp).
Proof.
  intros Hs He Hk. unfold creds. rewrite Hs, foldl_snoc, He.
  destruct (str_empty (KeyPassword (settings sv))); [by rewrite lookup_insert_eq|].
  by rewrite lookup_insert_ne, lookup_insert_eq.
Qed.

(** A credential that the API reports as added is effective at once: on every
    control server that did not have one of that name and stream, its password
    now logs in under its name, unless it is the administrator's. *)
Theorem add_credential_effective a r cp i c :
  dp (rq_body r) = Ok cp → (handleAddClientProxy dp a r).2.1 = 200 → a_ctrls a !! i = Some c →
  existsb (same_proxy (cp_ClientProxyName cp) (cp_StreamId cp)) (ClientProxies (settings c)) = false →
  KeyPassword (settings c) ≠ cp_KeyPassword cp →
  ∃ c', a_ctrls (handleAddClientProxy dp a r).1 !! i = Some c' ∧
    creds c' !! cp_KeyPassword cp = Some (cp_ClientProxyName cp).
Proof.
  intros Hd. unfold handleAddClientProxy. rewrite Hd. destruct (_ || _) eqn:He; [done|].
  apply orb_false_iff in He as [_ He]. unfold over_ctrls. cbv zeta.
  destruct (existsb (λ c, (AddClientProxy c cp).2) (a_ctrls a)); [|done]. intros _ Hi Hx Hk. cbn [fst a_ctrls with_ctrls].
  eexists. split; [by rewrite list_lookup_fmap, Hi|]. unfold AddClientProxy. rewrite Hx. cbn [fst].
  by eapply creds_last.
Qed.

Lemma remove_first_last {A} (f : A → bool) l x : existsb f l = false → f x = true → remove_first f (l ++ [x]) = Some l.
Proof.
  intros Hl Hx. induction l as [|y l IH]; cbn in *; [by rewrite Hx|].
  apply orb_false_iff in Hl as [-> Hl]. by rewrite IH.
Qed.

(** Adding a credential no control server has and deleting it again restores the
    credentials of every server. *)
Theorem credential_add_delete a r r' cp :
  dp (rq_body r) = Ok cp → (handleAddClientProxy dp a r).2.1 = 200 →
  Forall (λ c, existsb (same_proxy (cp_ClientProxyName cp) (cp_StreamId cp)) (ClientProxies (settings c)) = false) (a_ctrls a) →
  let d := handleDeleteClientProxy (handleAddClientProxy dp a r).1 (cp_ClientProxyName cp) (cp_StreamId cp) r' in
  d.2.1 = 200 ∧ (λ c, ClientProxies (settings c)) <$> a_ctrls d.1 = (λ c, ClientProxies (settings c)) <$> a_ctrls a.
Proof.
  intros Hd. unfold handleAddClientProxy. rewrite Hd. destruct (_ || _); [done|]. unfold over_ctrls. cbv zeta.
  destruct (existsb (λ c, (AddClientProxy c cp).2) (a_ctrls a)) eqn:Hadd; [|done]. intros _ Hall. cbn [fst].
  unfold handleDeleteClientProxy, over_ctrls. cbn [a_ctrls with_ctrls].
  assert (∀ c, c ∈ a_ctrls a →
    RemoveClientProxy (AddClientProxy c cp).1 (cp_ClientProxyName cp) (cp_StreamId cp)
    = (with_proxies (AddClientProxy c cp).1 (ClientProxies (settings c)), true)) as Hrm.
  { intros c Hc. rewrite Forall_forall in Hall. specialize (Hall c Hc). unfold AddClientProxy. rewrite Hall. cbn [fst].
    unfold RemoveClientProxy. cbn. rewrite remove_first_last; [done|done|]. unfold same_proxy. by rewrite !String.eqb_refl. }
  assert (existsb (λ c, (RemoveClientProxy c (cp_ClientProxyName cp) (cp_StreamId cp)).2)
            ((λ c, (AddClientProxy c cp).1) <$> a_ctrls a) = true) as ->.
  { apply existsb_exists in Hadd as (c&Hc&_). apply list_elem_of_In in Hc. apply existsb_exists.
    exists (AddClientProxy c cp).1. split; [|by rewrite Hrm]. apply list_elem_of_In, list_elem_of_fmap. by exists c. }
  split; [by destruct (String.eqb (rq_kick r') "1")|].
  assert ((λ c, ClientProxies (settings c)) <$>
    ((λ c, (RemoveClientProxy c (cp_ClientProxyName cp) (cp_StreamId cp)).1) <$> ((λ c, (AddClientProxy c cp).1) <$> a_ctrls a))
    = (λ c, ClientProxies (settings c)) <$> a_ctrls a) as He.
  { rewrite <- !list_fmap_compose. apply list_fmap_ext. intros k c Hk. unfold compose.
    rewrite Hrm by (by eapply list_elem_of_lookup_2). done. }
  by destruct (String.eqb (rq_kick r') "1").
Qed.

(** ** Kicking *)

Lemma NoDup_fst_filter {A B} (P : A * B → Prop) `{∀ x, Decision (P x)} (l : list (A * B)) :
  NoDup l.*1 → NoDup (filter P l).*1.
Proof.
  induction l as [|x l IH]; intros Hl; [done|]. cbn in Hl. apply NoDup_cons in Hl as [Hx Hl].
  destruct (decide (P x)); [rewrite filter_cons_True by done|rewrite filter_cons_False by done; by apply IH].
  cbn. constructor; [|by apply IH]. intros (y&Hy&Hin)%list_elem_of_fmap. apply Hx.
  rewrite Hy. apply list_elem_of_fmap. exists y. split; [done|]. by apply list_elem_of_filter in Hin as [_ ?].
Qed.

(** [POST kick] closes the sessions of exactly the clients with the identity, on
    every control server, each once, and reports how many there were. *)
Theorem kick_exact a r name :
  dk (rq_body r) = Ok name → name ≠ "" →
  ∃ targets, handleKick dk a r = (with_closed (a_closed a ++ targets) a, (200, BKicked (length targets))) ∧
    NoDup targets ∧
    ∀ i sid, (i, sid) ∈ targets ↔
      ∃ c info, a_ctrls a !! i = Some c ∧ clients c !! sid = Some info ∧ cl_Identity info = name.
Proof.
  intros Hd Hn. unfold handleKick. rewrite Hd. unfold str_empty. rewrite (proj2 (String.eqb_neq _ _)) by done.
  unfold kick. eexists. split; [done|].
  assert (∀ c : CtrlProxyServer, NoDup (Kick c name)) as Hk.
  { intros c. unfold Kick. apply NoDup_fst_filter, NoDup_fst_map_to_list. }
  assert (∀ (k : nat) i sid, (i, sid) ∈ concat (imap (λ i c, (λ s, (k + i, s)%nat) <$> Kick c name) (a_ctrls a)) ↔
    ∃ j c, i = (k + j)%nat ∧ a_ctrls a !! j = Some c ∧ sid ∈ Kick c name) as Hin.
  { intros k i sid. rewrite list_elem_of_concat. split.
    - intros (l&Hl&Hin). apply elem_of_lookup_imap in Hin as (j&c&->&Hj). apply list_elem_of_fmap in Hl as (s&[= -> ->]&Hs).
      by exists j, c.
    - intros (j&c&->&Hj&Hs). exists ((λ s, (k + j, s)%nat) <$> Kick c name). split; [by apply list_elem_of_fmap; exists sid|].
      apply elem_of_lookup_imap. by exists j, c. }
  split.
  - change (NoDup (concat (imap (λ i c, (λ s, (0 + i, s)%nat) <$> Kick c name) (a_ctrls a)))).
    clear Hin. generalize 0%nat. induction (a_ctrls a) as [|c cs IH]; intros k; [constructor|]. cbn [imap concat].
    apply NoDup_app. split_and!.
    + apply NoDup_fmap_2; [intros x y [= ->]; done|done].
    + intros [i s] (s0&[= -> ->]&_)%list_elem_of_fmap (l&Hl&Hi)%list_elem_of_concat.
      apply elem_of_lookup_imap in Hi as (j&c'&->&_). apply list_elem_of_fmap in Hl as (s'&[= He _]&_). lia.
    + specialize (IH (S k)). erewrite imap_ext in IH; [exact IH|]. intros j c' _. cbn.
      apply list_fmap_ext. intros _ s' _. f_equal. lia.
  - intros i sid. change (concat _) with (concat (imap (λ i c, (λ s, (0 + i, s)%nat) <$> Kick c name) (a_ctrls a))).
    rewrite Hin. split.
    + intros (j&c&->&Hj&Hs). unfold Kick in Hs. apply list_elem_of_fmap in Hs as ([s info]&->&Hf).
      apply list_elem_of_filter in Hf as [He Hm]. apply elem_of_map_to_list in Hm. by exists c, info.
    + intros (c&info&Hi&Hc&He). exists i, c. split_and!; [done..|]. unfold Kick. apply list_elem_of_fmap.
      exists (sid, info). split; [done|]. apply list_elem_of_filter. split; [done|]. by apply elem_of_map_to_list.
Qed.
End theorems.

(** * Witnesses *)

Definition demo_decode (b : list byte) : result string string := Ok (String.string_of_list_byte b).
Definition demo_admin : AdminServer :=
  mkAdmin "admin" "secret" (hub demo_sv2) NewConnectTable [demo_sv0; demo_sv2] [] 0 [] [].
Definition demo_request (token : string) : request :=
  mkRequest "POST" "/api/tunnel/kick" token "" (String.list_byte_of_string "a").
Definition no_json {A} (b : list byte) : result string A := Err "not used".

Lemma kick_exact_witness :
  ∃ targets, (handleKick demo_decode demo_admin (demo_request "")).2 = (200, BKicked (length targets)) ∧
    (1%nat, 1%nat) ∈ targets ∧ (1%nat, 2%nat) ∉ targets.
Proof.
  destruct (kick_exact demo_decode demo_admin (demo_request "") "a") as (targets&Hk&_&Ht); [reflexivity|done|].
  exists targets. split; [by rewrite Hk|]. split.
  - apply Ht. eexists _, _. split; [reflexivity|]. split; [vm_compute; reflexivity|reflexivity].
  - intros (c&info&Hc&Hi&He)%Ht. injection Hc as <-. vm_compute in Hi. injection Hi as <-. by vm_compute in He.
Defined.

Lemma api_needs_password_witness :
  let serve := serve no_json no_json demo_decode (λ _, None) (λ _, []) "/var" 0 demo_admin in
  (∃ code msg, serve (demo_request "Bearer Secret") = (demo_admin, (code, BError msg)) ∧ (code = 401 ∨ code = 403)) ∧
  (serve (demo_request "Bearer secret")).2 = (200, BKicked 1).
Proof.
  cbv zeta. split.
  - destruct (proj1 (api_needs_password no_json no_json demo_decode (λ _, None) (λ _, []) "/var" 0 demo_admin
      (demo_request "Bearer Secret")) eq_refl) as [(_&H&_)|[_ H]]; [by vm_compute in H|exact H].
  - destruct (proj1 (api_needs_password no_json no_json demo_decode (λ _, None) (λ _, []) "/var" 0 demo_admin
      (demo_request "Bearer secret")) eq_refl) as [(_&_&->)|[H _]]; [vm_compute; reflexivity|].
    exfalso. apply H. by split.
Defined.

