(* ===== verification/Pool.v ===== *)
(** The session pools of the multiplexed transports: kcp
    (internal/transport/kcp/kcp.go) and quic (internal/transport/quic/quic.go).
    Several goroutines dial at once; the mutex is a flag that [Lock] waits for,
    and unlocking it when it is free kills the process, as sync.Mutex does.

    The sessions themselves (smux over kcp-go, quic-go) are third-party: a session
    is alive or not, dialing and opening a stream succeed or fail as the events
    say. *)
From S2P Require Import Prelude.
From Stdlib Require Import ZArith Lia.

Module Kcp.

(** Where a [Dial] stands. *)
Inductive phase :=
  | DLock                (* before [t.mu.Lock()] of [getPooled] *)
  | DCheck (s : nat)     (* a pooled session was found, the mutex is released *)
  | DDrop (s : nat)      (* it was closed: [t.drop] *)
  | DUnlock              (* the [t.mu.Unlock()] after the lookup *)
  | DDialing             (* [dialKCP] and [smux.Client] *)
  | DInsert (s : nat)    (* the new session, before the second [Lock] *)
  | DOpen (s : nat)      (* [getPooled] has returned; [OpenStream] *)
  | DFailed (s : nat)    (* [OpenStream] failed: [t.drop] *)
  | DOk (s : nat)
  | DErr.

Record dialing := mkDialing { k_addr : string; k_phase : phase }.

(** [k_sessions] is the pool; [k_heap] says of each session whether it is closed;
    [k_fatal] that the process died. *)
Record pool := mkPool {
  k_locked : bool;
  k_sessions : gmap string nat;
  k_heap : list bool;
  k_dials : list dialing;
  k_fatal : bool;
}.

Inductive kevent :=
  | KRun (i : nat)                 (* a goroutine takes its next step *)
  | KDialed (i : nat) (ok : bool)  (* the outcome of its dial *)
  | KOpened (i : nat) (ok : bool)  (* the outcome of its [OpenStream] *)
  | KDies (s : nat).               (* a session closes by itself *)

Definition closed (s : nat) (p : pool) : bool := default true (k_heap p !! s).

Definition set_phase (i : nat) (ph : phase) (p : pool) : pool :=
  mkPool (k_locked p) (k_sessions p) (k_heap p) (alter (λ d, mkDialing (k_addr d) ph) i (k_dials p)) (k_fatal p).
Definition set_locked (b : bool) (p : pool) : pool := mkPool b (k_sessions p) (k_heap p) (k_dials p) (k_fatal p).
Definition set_sessions (m : gmap string nat) (p : pool) : pool :=
  mkPool (k_locked p) m (k_heap p) (k_dials p) (k_fatal p).
Definition set_heap (h : list bool) (p : pool) : pool :=
  mkPool (k_locked p) (k_sessions p) h (k_dials p) (k_fatal p).
Definition fatal (p : pool) : pool := mkPool (k_locked p) (k_sessions p) (k_heap p) (k_dials p) true.

Definition close (s : nat) (p : pool) : pool := set_heap (<[s := true]> (k_heap p)) p.

(** [drop], one critical section. *)
Definition drop (addr : string) (s : nat) (p : pool) : pool :=
  let p := if decide (k_sessions p !! addr = Some s) then set_sessions (delete addr (k_sessions p)) p else p in
  close s p.

(** [None] for a step that cannot be taken: the mutex is held, or the goroutine
    waits for something else. *)
Definition run (i : nat) (addr : string) (ph : phase) (p : pool) : option pool :=
  match ph with
  | DLock =>
      if k_locked p then None
      else match k_sessions p !! addr with
           | Some s => Some (set_phase i (DCheck s) p)
           | None => Some (set_phase i DUnlock (set_locked true p))
           end
  | DCheck s => Some (set_phase i (if closed s p then DDrop s else DOpen s) p)
  | DDrop s => if k_locked p then None else Some (set_phase i DUnlock (drop addr s p))
  | DUnlock => Some (if k_locked p then set_phase i DDialing (set_locked false p) else fatal p)
  | DInsert s =>
      if k_locked p then None
      else match k_sessions p !! addr with
           | Some other =>
               if closed other p then Some (set_phase i (DOpen s) (set_sessions (<[addr := s]> (k_sessions p)) p))
               else Some (set_phase i (DOpen other) (close s p))
           | None => Some (set_phase i (DOpen s) (set_sessions (<[addr := s]> (k_sessions p)) p))
           end
  | DFailed s => if k_locked p then None else Some (set_phase i DErr (drop addr s p))
  | _ => None
  end.

Definition apply (p : pool) (ev : kevent) : option pool :=
  if k_fatal p then None
  else match ev with
  | KRun i => d ← k_dials p !! i; run i (k_addr d) (k_phase d) p
  | KDialed i ok =>
      d ← k_dials p !! i;
      match k_phase d with
      | DDialing =>
          Some (if ok : bool then set_phase i (DInsert (length (k_heap p))) (set_heap (k_heap p ++ [false]) p)
                else set_phase i DErr p)
      | _ => None
      end
  | KOpened i ok =>
      d ← k_dials p !! i;
      match k_phase d with
      | DOpen s => Some (set_phase i (if ok : bool then DOk s else DFailed s) p)
      | _ => None
      end
  | KDies s => if Nat.ltb s (length (k_heap p)) then Some (close s p) else None
  end.

Fixpoint exec (p : pool) (evs : list kevent) : option pool :=
  match evs with
  | [] => Some p
  | ev :: evs => p ← apply p ev; exec p evs
  end.

Definition start (addrs : list string) : pool := mkPool false ∅ [] ((λ a, mkDialing a DLock) <$> addrs) false.

(** ** No session leaks *)

(** Every session that is still open is the pooled one of some address, or the
    one a goroutine has just made. *)
Definition accounted (p : pool) : Prop :=
  ∀ s, closed s p = false →
    (∃ addr, k_sessions p !! addr = Some s) ∨ (∃ i d, k_dials p !! i = Some d ∧ k_phase d = DInsert s).

Lemma accounted_start addrs : accounted (start addrs).
Proof. intros s. unfold closed, start. cbn. by rewrite lookup_nil. Qed.

Lemma closed_close s s' p : closed s' (close s p) = false → s' ≠ s ∧ closed s' p = false.
Proof.
  unfold closed, close. cbn. destruct (decide (s = s')) as [<-|Hne]; [|by rewrite list_lookup_insert_ne].
  destruct (decide (s < length (k_heap p))%nat) as [Hl|Hl]; [by rewrite list_lookup_insert_eq|].
  rewrite list_insert_ge by lia. rewrite lookup_ge_None_2 by lia. done.
Qed.

(** A goroutine that moves on from a phase other than [DInsert]. *)
Lemma dials_set_phase i ph p j d s :
  k_dials p !! j = Some d → k_phase d = DInsert s → (∀ d', k_dials p !! i = Some d' → k_phase d' ≠ DInsert s) →
  ∃ i' d', k_dials (set_phase i ph p) !! i' = Some d' ∧ k_phase d' = DInsert s.
Proof.
  intros Hj Hp Hi. exists j, d. split; [|done]. cbn. rewrite list_lookup_alter_ne; [done|]. intros ->. by eapply Hi.
Qed.

Lemma accounted_phase i ph p :
  accounted p → (∀ d s, k_dials p !! i = Some d → k_phase d ≠ DInsert s) → accounted (set_phase i ph p).
Proof.
  intros Ha Hi s Hs. destruct (Ha s Hs) as [Hm|(j&d&Hj&Hd)]; [by left|right].
  eapply dials_set_phase; [done|done|]. intros d' Hd'. by eapply Hi.
Qed.

Lemma accounted_drop addr s p : accounted p → accounted (drop addr s p).
Proof.
  intros Ha s' Hs. unfold drop in Hs. apply closed_close in Hs as [Hne Hs].
  assert (closed s' p = false) as Hs' by by case_decide.
  destruct (Ha s' Hs') as [[a Hm]|Hd]; [left|right].
  - exists a. unfold drop. case_decide as Hd; [|done]. cbn. rewrite lookup_delete_ne; [done|].
    intros <-. congruence.
  - unfold drop. by case_decide.
Qed.

Lemma accounted_run i addr ph p p' d :
  accounted p → k_dials p !! i = Some d → k_addr d = addr → k_phase d = ph → run i addr ph p = Some p' → accounted p'.
Proof.
  intros Ha Hd <- <- Hr.
  assert (∀ q, k_dials q = k_dials p → (∀ s, k_phase d ≠ DInsert s) →
    ∀ d' s, k_dials q !! i = Some d' → k_phase d' ≠ DInsert s) as Hno.
  { intros q Hq Hn d' s. rewrite Hq, Hd. intros [= <-]. apply Hn. }
  destruct (k_phase d) as [|s|s| | |s|s|s|s|] eqn:Hph; cbn [run] in Hr; try done.
  - destruct (k_locked p); [done|]. destruct (k_sessions p !! k_addr d); simplify_eq; apply accounted_phase; try done;
      by apply Hno.
  - simplify_eq. apply accounted_phase; [done|by apply Hno].
  - destruct (k_locked p); simplify_eq. apply accounted_phase; [by apply accounted_drop|].
    apply Hno; [unfold drop; by case_decide|done].
  - destruct (k_locked p); simplify_eq; [|done]. apply accounted_phase; [done|by apply Hno].
  - destruct (k_locked p); [done|].
    assert (∀ q ph' s', k_dials q = k_dials p → s' ≠ s → (∃ j d', k_dials p !! j = Some d' ∧ k_phase d' = DInsert s') →
      ∃ j d', k_dials (set_phase i ph' q) !! j = Some d' ∧ k_phase d' = DInsert s') as Hkeep.
    { intros q ph' s' Hq Hne (j&d'&Hj&Hj'). eapply dials_set_phase; [by rewrite Hq|done|].
      intros d'' . rewrite Hq, Hd. intros [= <-]. rewrite Hph. congruence. }
    destruct (k_sessions p !! k_addr d) as [other|] eqn:Ho.
    + destruct (closed other p) eqn:Hc; simplify_eq.
      * intros s' Hs'. destruct (decide (s' = s)) as [->|Hne].
        { left. exists (k_addr d). cbn. by rewrite lookup_insert_eq. }
        destruct (Ha s' Hs') as [[a Hm]|He]; [left|right; by apply Hkeep].
        exists a. cbn. rewrite lookup_insert_ne; [done|]. intros <-. assert (other = s') as -> by congruence.
        unfold closed in *. cbn in Hs'. congruence.
      * intros s' Hs'. apply closed_close in Hs' as [Hne Hs'].
        destruct (Ha s' Hs') as [Hm|He]; [by left|right; by apply Hkeep].
    + simplify_eq. intros s' Hs'. destruct (decide (s' = s)) as [->|Hne].
      { left. exists (k_addr d). cbn. by rewrite lookup_insert_eq. }
      destruct (Ha s' Hs') as [[a Hm]|He]; [left|right; by apply Hkeep].
      exists a. cbn. rewrite lookup_insert_ne; [done|]. intros <-. congruence.
  - destruct (k_locked p); simplify_eq. apply accounted_phase; [by apply accounted_drop|].
    apply Hno; [unfold drop; by case_decide|done].
Qed.

Lemma accounted_apply p ev p' : accounted p → apply p ev = Some p' → accounted p'.
Proof.
  intros Ha Hs. unfold apply in Hs. destruct (k_fatal p); [done|].
  destruct ev as [i|i ok|i ok|s].
  - apply bind_Some in Hs as (d&Hd&Hs). by eapply accounted_run.
  - apply bind_Some in Hs as (d&Hd&Hs). destruct (k_phase d) eqn:Hph; try done. destruct ok; simplify_eq.
    + intros s Hs. destruct (decide (s = length (k_heap p))) as [->|Hne].
      * right. exists i, (mkDialing (k_addr d) (DInsert (length (k_heap p)))). cbn.
        by rewrite list_lookup_alter_eq, Hd.
      * assert (closed s p = false) as Hs'.
        { unfold closed in *. cbn in Hs. destruct (decide (s < length (k_heap p))%nat) as [Hl|Hl].
          - by rewrite lookup_app_l in Hs.
          - rewrite (lookup_ge_None_2 (k_heap p ++ [false])) in Hs; [done|]. rewrite length_app. cbn. lia. }
        destruct (Ha s Hs') as [Hm|(j&d'&Hj&Hd')]; [by left|right].
        apply (dials_set_phase i _ (set_heap _ p) j d' s); [done|done|].
        cbn. rewrite Hd. intros d'' [= <-]. by rewrite Hph.
    + apply accounted_phase; [done|]. intros d' s. rewrite Hd. intros [= <-]. by rewrite Hph.
  - apply bind_Some in Hs as (d&Hd&Hs). destruct (k_phase d) eqn:Hph; try done. simplify_eq.
    apply accounted_phase; [done|]. intros d' s'. rewrite Hd. intros [= <-]. by rewrite Hph.
  - destruct (Nat.ltb _ _); simplify_eq. intros s' Hs'. apply closed_close in Hs' as [Hne Hs']. by apply Ha.
Qed.

Lemma accounted_exec p evs p' : accounted p → exec p evs = Some p' → accounted p'.
Proof.
  revert p; induction evs as [|ev evs IH]; intros p Ha; [by intros [= <-]|].
  cbn [exec]. intros (q&Hq&He)%bind_Some. eapply IH; [|done]. by eapply accounted_apply.
Qed.

(** However the dials of [kcpTransport] interleave, and whichever sessions die on
    the way, a session that is still open is the pooled one of some address or the
    one a goroutine is about to offer to the pool: a loser of the race closes its
    session, a failed [OpenStream] closes the one it used, and none is left open
    and unreachable. *)
Theorem no_session_leaks addrs evs p :
  exec (start addrs) evs = Some p →
  (∀ i d, k_dials p !! i = Some d → k_phase d = DErr ∨ ∃ s, k_phase d = DOk s) →
  ∀ s, closed s p = false → ∃ addr, k_sessions p !! addr = Some s.
Proof.
  intros He Hq s Hs. destruct (accounted_exec _ _ _ (accounted_start addrs) He s Hs) as [Hm|(i&d&Hi&Hd)]; [done|].
  destruct (Hq i d Hi) as [H|[s' H]]; congruence.
Qed.

(** Two dials of one address race; the second to insert finds the other's session
    and closes its own. *)
Definition race : list kevent :=
  [KRun 0; KRun 0; KRun 1; KRun 1; KDialed 0 true; KDialed 1 true; KRun 0; KRun 1; KOpened 0 true; KOpened 1 true].

Lemma no_session_leaks_witness :
  ∃ p, exec (start ["a"; "a"]%string) race = Some p ∧ k_heap p = [false; true] ∧
    ∃ addr, k_sessions p !! addr = Some 0%nat.
Proof.
  eexists. split; [vm_compute; reflexivity|]. split; [reflexivity|].
  apply (no_session_leaks ["a"; "a"]%string race); [vm_compute; reflexivity| |reflexivity].
  intros [|[|i]] d; cbn; [intros [= <-]; right; by eexists..|done].
Defined.

(** [getPooled] when the pooled session has closed by itself unlocks the mutex
    before the check and again after [drop], which has released it too: the dial
    that should rebuild the session kills the process ([sync: unlock of unlocked
    mutex]), with no other goroutine involved. *)
Theorem redial_of_dead_session_fatal :
  ∃ p, exec (start ["a"; "a"]%string)
         [KRun 0; KRun 0; KDialed 0 true; KRun 0; KOpened 0 true; KDies 0; KRun 1; KRun 1; KRun 1; KRun 1] = Some p ∧
       k_fatal p = true.
Proof. eexists. split; [vm_compute; reflexivity|reflexivity]. Qed.
End Kcp.

(** quic: the same shape, with two differences. A pooled entry carries a [done]
    channel, which only [poolEntry.close] closes, and [drop] removes the entry
    without closing the connection. *)
Module Quic.

Inductive phase :=
  | QLock                    (* before [t.mu.Lock()] of [getPooled] *)
  | QCheck (e : nat)         (* an entry was found, the mutex is released *)
  | QUnlock                  (* the [t.mu.Unlock()] after the lookup *)
  | QDialing                 (* name resolution and [tr.Dial] *)
  | QInsert (e : nat)        (* the new entry, before the second [Lock] *)
  | QExist (e other : nat)   (* another entry is there, the mutex is released *)
  | QReplace (e : nat)       (* its [done] was closed: before the third [Lock] *)
  | QOpen (e : nat)          (* [getPooled] has returned; [OpenStreamSync] *)
  | QFailed (e : nat)        (* it failed: [t.drop] *)
  | QOk (e : nat)
  | QErr.

Record dialing := mkDialing { q_addr : string; q_phase : phase }.

(** [q_done] says of each entry whether [close] has run on it, [q_alive] whether
    its connection is still open. *)
Record pool := mkPool {
  q_locked : bool;
  q_conns : gmap string nat;
  q_done : list bool;
  q_alive : list bool;
  q_dials : list dialing;
  q_fatal : bool;
}.

Inductive qevent :=
  | QRun (i : nat)
  | QDialed (i : nat) (ok : bool)
  | QOpened (i : nat) (ok : bool)
  | QDies (e : nat).

Definition is_done (e : nat) (p : pool) : bool := default false (q_done p !! e).
Definition alive (e : nat) (p : pool) : bool := default false (q_alive p !! e).

Definition set_phase (i : nat) (ph : phase) (p : pool) : pool :=
  mkPool (q_locked p) (q_conns p) (q_done p) (q_alive p) (alter (λ d, mkDialing (q_addr d) ph) i (q_dials p)) (q_fatal p).
Definition set_locked (b : bool) (p : pool) : pool :=
  mkPool b (q_conns p) (q_done p) (q_alive p) (q_dials p) (q_fatal p).
Definition set_conns (m : gmap string nat) (p : pool) : pool :=
  mkPool (q_locked p) m (q_done p) (q_alive p) (q_dials p) (q_fatal p).
Definition fatal (p : pool) : pool := mkPool (q_locked p) (q_conns p) (q_done p) (q_alive p) (q_dials p) true.

(** A new entry, neither done nor dead. *)
Definition new_entry (p : pool) : pool :=
  mkPool (q_locked p) (q_conns p) (q_done p ++ [false]) (q_alive p ++ [true]) (q_dials p) (q_fatal p).

(** [poolEntry.close]. *)
Definition close (e : nat) (p : pool) : pool :=
  mkPool (q_locked p) (q_conns p) (<[e := true]> (q_done p)) (<[e := false]> (q_alive p)) (q_dials p) (q_fatal p).

Definition kill (e : nat) (p : pool) : pool :=
  mkPool (q_locked p) (q_conns p) (q_done p) (<[e := false]> (q_alive p)) (q_dials p) (q_fatal p).

Definition drop (addr : string) (e : nat) (p : pool) : pool :=
  if decide (q_conns p !! addr = Some e) then set_conns (delete addr (q_conns p)) p else p.

Definition run (i : nat) (addr : string) (ph : phase) (p : pool) : option pool :=
  match ph with
  | QLock =>
      if q_locked p then None
      else match q_conns p !! addr with
           | Some e => Some (set_phase i (QCheck e) p)
           | None => Some (set_phase i QUnlock (set_locked true p))
           end
  | QCheck e => Some (set_phase i (if is_done e p then QUnlock else QOpen e) p)
  | QUnlock => Some (if q_locked p then set_phase i QDialing (set_locked false p) else fatal p)
  | QInsert e =>
      if q_locked p then None
      else match q_conns p !! addr with
           | Some other => Some (set_phase i (QExist e other) p)
           | None => Some (set_phase i (QOpen e) (set_conns (<[addr := e]> (q_conns p)) p))
           end
  | QExist e other =>
      Some (if is_done other p then set_phase i (QReplace e) p else set_phase i (QOpen other) (close e p))
  | QReplace e =>
      if q_locked p then None else Some (set_phase i (QOpen e) (set_conns (<[addr := e]> (q_conns p)) p))
  | QFailed e => if q_locked p then None else Some (set_phase i QErr (drop addr e p))
  | _ => None
  end.

Definition apply (p : pool) (ev : qevent) : option pool :=
  if q_fatal p then None
  else match ev with
  | QRun i => d ← q_dials p !! i; run i (q_addr d) (q_phase d) p
  | QDialed i ok =>
      d ← q_dials p !! i;
      match q_phase d with
      | QDialing =>
          Some (if ok : bool then set_phase i (QInsert (length (q_done p))) (new_entry p) else set_phase i QErr p)
      | _ => None
      end
  | QOpened i ok =>
      d ← q_dials p !! i;
      match q_phase d with
      | QOpen e => if (ok : bool) && negb (alive e p) then None else Some (set_phase i (if ok then QOk e else QFailed e) p)
      | _ => None
      end
  | QDies e => if Nat.ltb e (length (q_alive p)) then Some (kill e p) else None
  end.

Fixpoint exec (p : pool) (evs : list qevent) : option pool :=
  match evs with
  | [] => Some p
  | ev :: evs => p ← apply p ev; exec p evs
  end.

Definition start (addrs : list string) : pool := mkPool false ∅ [] [] ((λ a, mkDialing a QLock) <$> addrs) false.

(** ** The second Unlock is never reached *)

(** The entry a goroutine has made and not offered yet. *)
Definition own (ph : phase) : option nat :=
  match ph with QInsert e | QExist e _ | QReplace e => Some e | _ => None end.

(** The entry a goroutine has found in the pool and will test. *)
Definition seen (ph : phase) : option nat :=
  match ph with QCheck e | QExist _ e => Some e | _ => None end.

(** What others can reach, what its maker alone knows, and what was never closed. *)
Definition visible (p : pool) (e : nat) : Prop :=
  (∃ a, q_conns p !! a = Some e) ∨ (∃ i d, q_dials p !! i = Some d ∧ seen (q_phase d) = Some e).
Definition owned (p : pool) (i e : nat) : Prop := ∃ d, q_dials p !! i = Some d ∧ own (q_phase d) = Some e.
Definition live (p : pool) (e : nat) : Prop := q_done p !! e = Some false.

Record entries (p : pool) : Prop := mkEntries {
  visible_live e : visible p e → live p e;
  owned_live i e : owned p i e → live p e;
  owned_hidden i e : owned p i e → ¬ visible p e;
  owned_once i j e : owned p i e → owned p j e → i = j;
}.

(** At most one goroutine is between the lookup's [Lock] and [Unlock], and it holds
    the mutex; the third [Lock] is never waited for. *)
Record locking (p : pool) : Prop := mkLocking {
  unlock_locked i d : q_dials p !! i = Some d → q_phase d = QUnlock → q_locked p = true;
  unlock_once i d j d' : q_dials p !! i = Some d → q_phase d = QUnlock →
    q_dials p !! j = Some d' → q_phase d' = QUnlock → i = j;
  no_replace i d e : q_dials p !! i = Some d → q_phase d ≠ QReplace e;
}.

Lemma lookup_set_phase i ph p j d :
  q_dials (set_phase i ph p) !! j = Some d → (j = i ∧ q_phase d = ph) ∨ (j ≠ i ∧ q_dials p !! j = Some d).
Proof.
  cbn. destruct (decide (i = j)) as [<-|Hne]; [|rewrite list_lookup_alter_ne; eauto].
  rewrite list_lookup_alter_eq. destruct (q_dials p !! i); [|done]. intros [= <-]. by left.
Qed.

Lemma entries_mono p p' :
  (∀ e, visible p' e → visible p e) → (∀ i e, owned p' i e → owned p i e) →
  (∀ e, visible p' e ∨ (∃ i, owned p' i e) → live p e → live p' e) → entries p → entries p'.
Proof. intros Hv Ho Hl [H1 H2 H3 H4]. split; naive_solver. Qed.

Lemma visible_set_phase i ph p e :
  visible (set_phase i ph p) e → visible p e ∨ seen ph = Some e.
Proof.
  intros [[a Ha]|(j&d&Hj&Hs)]; [left; left; by exists a|].
  apply lookup_set_phase in Hj as [[-> Hd]|[Hne Hj]]; [right; congruence|left; right; eauto].
Qed.

Lemma owned_set_phase i ph p j e :
  owned (set_phase i ph p) j e → (j ≠ i ∧ owned p j e) ∨ (j = i ∧ own ph = Some e).
Proof.
  intros (d&Hj&Hs). apply lookup_set_phase in Hj as [[-> Hd]|[Hne Hj]]; [right; split; [done|congruence]|].
  left. split; [done|]. by exists d.
Qed.

(** A goroutine that moves on, learning of no entry but a visible one and making
    none. *)
Lemma entries_phase i ph p d :
  q_dials p !! i = Some d → (∀ e, seen ph = Some e → visible p e) → (∀ e, own ph = Some e → own (q_phase d) = Some e) →
  entries p → entries (set_phase i ph p).
Proof.
  intros Hd Hs Ho. apply entries_mono; [| |done].
  - intros e [H|H]%visible_set_phase; [done|by apply Hs].
  - intros j e [[_ H]|[-> H]]%owned_set_phase; [done|]. exists d. split; [done|by apply Ho].
Qed.

Lemma entries_drop a e p : entries p → entries (drop a e p).
Proof.
  unfold drop. case_decide; [|done]. apply entries_mono; [|done|done].
  intros e' [[a' Ha]|Hd]; [left|by right]. exists a'. cbn in Ha. by apply lookup_delete_Some in Ha as [_ Ha].
Qed.

(** The new entry goes into the pool. *)
Lemma entries_insert i d e p :
  q_dials p !! i = Some d → own (q_phase d) = Some e → entries p →
  entries (set_phase i (QOpen e) (set_conns (<[q_addr d := e]> (q_conns p)) p)).
Proof.
  intros Hd Ho [H1 H2 H3 H4]. assert (owned p i e) as Hown by by exists d.
  set (p1 := set_conns _ p).
  assert (∀ e', visible (set_phase i (QOpen e) p1) e' → e' = e ∨ visible p e') as Hv.
  { intros e' [[[a Ha]|H]|H]%visible_set_phase; [|right; by right|done].
    cbn in Ha. apply lookup_insert_Some in Ha as [[_ <-]|[_ Ha]]; [by left|right; left; by exists a]. }
  assert (∀ j e', owned (set_phase i (QOpen e) p1) j e' → j ≠ i ∧ owned p j e') as Hw.
  { intros j e' [H|[_ H]]%owned_set_phase; [done|done]. }
  split.
  - intros e' [->|H]%Hv; [by apply (H2 i)|by apply H1].
  - intros j e' [_ H]%Hw. by apply (H2 j).
  - intros j e' [Hne H]%Hw [->|Hx]%Hv; [|by apply (H3 j e')]. by apply Hne, (H4 j i e).
  - intros j k e' [_ H]%Hw [_ H']%Hw. by apply (H4 j k e').
Qed.

(** The loser of the race closes its own entry and takes the winner's. *)
Lemma entries_lose i d e other p :
  q_dials p !! i = Some d → q_phase d = QExist e other → entries p →
  entries (set_phase i (QOpen other) (close e p)).
Proof.
  intros Hd Hph [H1 H2 H3 H4]. assert (owned p i e) as Hown by (exists d; by rewrite Hph).
  assert (∀ e', visible (set_phase i (QOpen other) (close e p)) e' → visible p e') as Hv.
  { intros e' [H|H]%visible_set_phase; [exact H|done]. }
  assert (∀ j e', owned (set_phase i (QOpen other) (close e p)) j e' → j ≠ i ∧ owned p j e') as Hw.
  { intros j e' [H|[_ H]]%owned_set_phase; [exact H|done]. }
  apply (entries_mono p); [done|by intros j e' [_ H]%Hw| |by split].
  intros e' Hx. unfold live. cbn. rewrite list_lookup_insert_ne; [done|]. intros <-.
  destruct Hx as [H%Hv|[j [Hne H]%Hw]]; [by apply (H3 i e)|]. by apply Hne, (H4 j i e).
Qed.

(** A connection made: its entry is nobody else's. *)
Lemma entries_new i p :
  entries p → entries (set_phase i (QInsert (length (q_done p))) (new_entry p)).
Proof.
  intros [H1 H2 H3 H4]. set (n := length (q_done p)).
  assert (∀ e, live p e → e < n)%nat as Hlt by (intros e He; by eapply lookup_lt_Some).
  assert (∀ e, visible (set_phase i (QInsert n) (new_entry p)) e → visible p e) as Hv.
  { intros e [H|H]%visible_set_phase; [exact H|done]. }
  assert (∀ j e, owned (set_phase i (QInsert n) (new_entry p)) j e → owned p j e ∨ (j = i ∧ e = n)) as Hw.
  { intros j e [[_ H]|[-> [= <-]]]%owned_set_phase; [left; exact H|by right]. }
  assert (∀ e, live p e → live (set_phase i (QInsert n) (new_entry p)) e) as Hl.
  { intros e He. unfold live. cbn. by apply lookup_app_l_Some. }
  split.
  - intros e H%Hv. by apply Hl, H1.
  - intros j e [H|[_ ->]]%Hw; [by apply Hl, (H2 j)|]. unfold live. cbn. by apply list_lookup_middle.
  - intros j e [H|[_ ->]]%Hw Hx%Hv; [by apply (H3 j e)|]. apply H1, Hlt in Hx. lia.
  - intros j k e [H|[-> ->]]%Hw [H'|[-> Hn]]%Hw; [by apply (H4 j k e)| | |done].
    + subst e. apply H2, Hlt in H. lia.
    + apply H2, Hlt in H'. lia.
Qed.

(** The mutex taken by a lookup, released by it, or left alone. *)
Lemma locking_take i p : q_locked p = false → locking p → locking (set_phase i QUnlock (set_locked true p)).
Proof.
  intros Hl [H1 H2 H3].
  assert (∀ j d, q_dials p !! j = Some d → q_phase d ≠ QUnlock) as Hn
    by (intros j d Hj Hd; specialize (H1 j d Hj Hd); congruence).
  split; [done| |].
  - intros j d k d' [[-> _]|[_ Hj]]%lookup_set_phase Hd [[-> _]|[_ Hk]]%lookup_set_phase Hd'; try done; exfalso;
      [by eapply (Hn k d')|by eapply (Hn j d)|by eapply (Hn j d)].
  - intros j d e [[_ Hp]|[_ Hj]]%lookup_set_phase; [congruence|by eapply H3].
Qed.

Lemma locking_release i d ph p :
  q_dials p !! i = Some d → q_phase d = QUnlock → ph ≠ QUnlock → (∀ e, ph ≠ QReplace e) →
  locking p → locking (set_phase i ph (set_locked false p)).
Proof.
  intros Hi Hd Hu Hr [H1 H2 H3]. split.
  - intros j d' [[-> Hp]|[Hne Hj]]%lookup_set_phase Hd'; [congruence|]. exfalso. by eapply Hne, (H2 j d' i d).
  - intros j d' k d'' [[-> Hp]|[_ Hj]]%lookup_set_phase Hd' [[-> Hp']|[_ Hk]]%lookup_set_phase Hd''; try congruence.
    by eapply H2.
  - intros j d' e [[_ Hp]|[_ Hj]]%lookup_set_phase; [by rewrite Hp|by eapply H3].
Qed.

Lemma locking_move i ph p q :
  q_dials q = q_dials p → q_locked q = q_locked p → ph ≠ QUnlock → (∀ e, ph ≠ QReplace e) →
  locking p → locking (set_phase i ph q).
Proof.
  intros Hq Hl Hu Hr [H1 H2 H3]. split.
  - intros j d [[_ Hp]|[_ Hj]]%lookup_set_phase Hd; [congruence|]. cbn. rewrite Hl. rewrite Hq in Hj. by eapply H1.
  - intros j d k d' [[_ Hp]|[_ Hj]]%lookup_set_phase Hd [[_ Hp']|[_ Hk]]%lookup_set_phase Hd'; try congruence.
    rewrite Hq in *. by eapply H2.
  - intros j d e [[_ Hp]|[_ Hj]]%lookup_set_phase; [by rewrite Hp|]. rewrite Hq in Hj. by eapply H3.
Qed.

Lemma entries_locked b p : entries p → entries (set_locked b p).
Proof. by apply entries_mono. Qed.

Definition sound (p : pool) : Prop := entries p ∧ locking p ∧ q_fatal p = false.

Lemma live_done e p : live p e → is_done e p = false.
Proof. unfold live, is_done. by intros ->. Qed.

Lemma drop_frame a e p :
  q_dials (drop a e p) = q_dials p ∧ q_locked (drop a e p) = q_locked p ∧ q_fatal (drop a e p) = q_fatal p.
Proof. unfold drop. by case_decide. Qed.

Lemma sound_run i d p p' :
  sound p → q_dials p !! i = Some d → run i (q_addr d) (q_phase d) p = Some p' → sound p'.
Proof.
  intros (He&Hl&Hf) Hd Hr. pose proof (λ e, no_replace _ Hl i d e Hd) as Hrep.
  assert (∀ e, seen (q_phase d) = Some e → live p e) as Hseen.
  { intros e Hs. apply (visible_live _ He). right. by exists i, d. }
  destruct (q_phase d) as [|e| | |e|e other|e|e|e|e|] eqn:Hph; cbn [run] in Hr; try done.
  - destruct (q_locked p) eqn:Hlk; [done|]. destruct (q_conns p !! q_addr d) as [e|] eqn:Hc; simplify_eq; split_and!; try done.
    + eapply entries_phase; [done| |done|done]. intros e' [= <-]. left. eauto.
    + by apply (locking_move _ _ p).
    + by eapply (entries_phase i QUnlock (set_locked true p) d); [..|apply entries_locked].
    + by apply locking_take.
  - rewrite (live_done e p) in Hr by by apply Hseen. simplify_eq. split_and!; [|by apply (locking_move _ _ p)|done].
    by eapply entries_phase.
  - rewrite (unlock_locked _ Hl i d Hd Hph) in Hr. simplify_eq. split_and!; [|by eapply locking_release|done].
    by eapply (entries_phase i QDialing (set_locked false p) d); [..|apply entries_locked].
  - destruct (q_locked p) eqn:Hlk; [done|]. destruct (q_conns p !! q_addr d) as [other|] eqn:Hc; simplify_eq;
      (split_and!; [|by apply (locking_move _ _ p)|done]).
    + eapply entries_phase; [done| | |done]; [intros e' [= <-]; left; eauto|intros e' [= <-]; by rewrite Hph].
    + eapply entries_insert; [done|by rewrite Hph|done].
  - rewrite (live_done other p) in Hr by by apply Hseen. simplify_eq. split_and!; [|by apply (locking_move _ _ p)|done].
    by eapply entries_lose.
  - by destruct (Hrep e).
  - destruct (q_locked p) eqn:Hlk; [done|]. simplify_eq. destruct (drop_frame (q_addr d) e p) as (Hd1&Hd2&Hd3).
    split_and!; [|by apply (locking_move _ _ p)|by cbn; rewrite Hd3].
    eapply entries_phase; [by rewrite Hd1| |done|by apply entries_drop]. done.
Qed.

Lemma sound_apply p ev p' : sound p → apply p ev = Some p' → sound p'.
Proof.
  intros Hs Hst. unfold apply in Hst. destruct (q_fatal p) eqn:Hf; [done|].
  destruct ev as [i|i ok|i ok|e].
  - apply bind_Some in Hst as (d&Hd&Hst). by eapply sound_run.
  - apply bind_Some in Hst as (d&Hd&Hst). destruct Hs as (He&Hl&_). destruct (q_phase d) eqn:Hph; try done.
    destruct ok; simplify_eq; (split_and!; [|by apply (locking_move _ _ p)|done]).
    + by apply entries_new.
    + by eapply entries_phase.
  - apply bind_Some in Hst as (d&Hd&Hst). destruct Hs as (He&Hl&_). destruct (q_phase d) eqn:Hph; try done.
    destruct (ok && _); simplify_eq. split_and!; [|by apply (locking_move _ _ p); destruct ok|done].
    eapply entries_phase; [done| | |done]; by destruct ok.
  - destruct (Nat.ltb _ _); simplify_eq. destruct Hs as (He&Hl&_). split_and!; [| |done].
    + revert He. by apply entries_mono.
    + by destruct Hl.
Qed.

Lemma sound_start addrs : sound (start addrs).
Proof.
  assert (∀ i d, q_dials (start addrs) !! i = Some d → q_phase d = QLock) as Hd.
  { intros i d. cbn. rewrite list_lookup_fmap. by destruct (addrs !! i); intros [= <-]. }
  assert (∀ e, ¬ visible (start addrs) e) as Hv.
  { intros e [[a Ha]|(i&d&Hi&Hs)]; [by cbn in Ha; rewrite lookup_empty in Ha|]. by rewrite (Hd i d Hi) in Hs. }
  assert (∀ i e, ¬ owned (start addrs) i e) as Ho by (intros i e (d&Hi&Hs); by rewrite (Hd i d Hi) in Hs).
  split_and!; [| |done].
  - split; naive_solver.
  - split; naive_solver congruence.
Qed.

Lemma sound_exec p evs p' : sound p → exec p evs = Some p' → sound p'.
Proof.
  revert p; induction evs as [|ev evs IH]; intros p Hs; [by intros [= <-]|].
  cbn [exec]. intros (q&Hq&He)%bind_Some. eapply IH; [|done]. by eapply sound_apply.
Qed.

(** C33: However the dials of [quicTransport] interleave and whichever connections die,
    no mutex is unlocked twice, and every pooled entry is one whose [done] was never
    closed: only the loser of a race closes an entry, and that entry was never in
    the pool. So the branch that would rebuild a dead pooled connection is never
    taken, here or at the insertion. *)
Theorem quic_pool_sound addrs evs p :
  exec (start addrs) evs = Some p →
  q_fatal p = false ∧ (∀ a e, q_conns p !! a = Some e → is_done e p = false) ∧
  (∀ i d e, q_dials p !! i = Some d → q_phase d ≠ QReplace e).
Proof.
  intros He. destruct (sound_exec _ _ _ (sound_start addrs) He) as (Hen&Hl&Hf). split_and!; [done| |].
  - intros a e Ha. apply live_done, (visible_live _ Hen). left. by exists a.
  - intros i d e Hd. by eapply no_replace.
Qed.

Definition dial_ok (i : nat) : list qevent := [QRun i; QRun i; QDialed i true; QRun i; QOpened i true].
Definition race : list qevent :=
  [QRun 0; QRun 0; QRun 1; QRun 1; QDialed 0 true; QDialed 1 true; QRun 0; QRun 1; QRun 1; QOpened 0 true; QOpened 1 true].

Lemma quic_pool_sound_witness :
  ∃ p, exec (start ["a"; "a"]%string) race = Some p ∧ q_alive p = [true; false] ∧ q_fatal p = false ∧
    ∀ a e, q_conns p !! a = Some e → is_done e p = false.
Proof.
  eexists. split; [vm_compute; reflexivity|]. split; [reflexivity|].
  destruct (quic_pool_sound ["a"; "a"]%string race _ ltac:(vm_compute; reflexivity)) as (Hf&Hp&_). exact (conj Hf Hp).
Defined.

(** A pooled connection that has died is handed out all the same: the next dial
    fails on it, and only that failure removes it. *)
Theorem dead_conn_fails_a_dial :
  ∃ p, exec (start ["a"; "a"; "a"]%string)
         (dial_ok 0 ++ [QDies 0; QRun 1; QRun 1; QOpened 1 false; QRun 1] ++ dial_ok 2) = Some p ∧
       q_phase <$> q_dials p = [QOk 0; QErr; QOk 1].
Proof. eexists. split; [vm_compute; reflexivity|reflexivity]. Qed.

(** When [OpenStreamSync] fails for another reason (its context ends), [drop]
    forgets a connection that is alive and leaves it open. *)
Theorem dropped_conn_stays_open :
  ∃ p, exec (start ["a"]%string) [QRun 0; QRun 0; QDialed 0 true; QRun 0; QOpened 0 false; QRun 0] = Some p ∧
       q_conns p = ∅ ∧ alive 0 p = true.
Proof. eexists. split; [vm_compute; reflexivity|]. split; reflexivity. Qed.
End Quic.
