(* ===== verification/H2.v ===== *)
(** The stream connections of the h2 transport (internal/transport/h2/h2.go): the
    dialing side, whose pump moves the response body into a queue that [Read]
    takes from, and the serving side.

    net/http's response body, request pipe and response writer are not under src/:
    what the body returns to the pump, and the end of the request body, are
    events. Time is the event's: [Read] is given the clock, and [late] says that
    its timer fired while it waited. *)
From S2P Require Import Prelude.
From Stdlib Require Import ZArith Lia.

Definition defaultPath : string := "/".
Definition readChunk : nat := Z.to_nat (Z.shiftl 16 10).
Definition readQueue : nat := 64.

(** The path of a transport built from [Options.Path]. *)
Definition build (path : string) : string := if String.eqb path "" then defaultPath else path.

(** * The dialing side *)

Inductive h2_err := HEOF | HTimeout | HClosedPipe | HCancelled | HOther (msg : string).
#[export] Instance h2_err_eq_dec : EqDecision h2_err.
Proof. solve_decision. Defined.

Record timeoutError := mkTimeoutError { Timeout : bool; Temporary : bool }.
Definition errReadTimeout : timeoutError := mkTimeoutError true true.

(** [streamItem]: a chunk or the error that ends the body. *)
Inductive streamItem :=
  | Data (d : list byte)
  | End (e : h2_err).

(** Where the pump stands: in [resp.Body.Read], before one of its two sends, or
    gone. *)
Inductive pump :=
  | PRead
  | PSend (d : list byte) (e : option h2_err)
  | PSendEnd (e : h2_err)
  | PGone.

Record clientStreamConn := mkClient {
  queue : list streamItem;
  the_pump : pump;
  deadline : option Z;
  pending : list byte;
  readEOF : bool;
  done : bool;
  pw_closed : bool;       (* the request's pipe writer *)
  cancelled : bool;       (* the request's context *)
  writes : list (list byte);
}.

Definition newClientStreamConn : clientStreamConn := mkClient [] PRead None [] false false false false [].

Definition set_queue q c := mkClient q (the_pump c) (deadline c) (pending c) (readEOF c) (done c) (pw_closed c) (cancelled c) (writes c).
Definition set_pump p c := mkClient (queue c) p (deadline c) (pending c) (readEOF c) (done c) (pw_closed c) (cancelled c) (writes c).
Definition set_pending d c := mkClient (queue c) (the_pump c) (deadline c) d (readEOF c) (done c) (pw_closed c) (cancelled c) (writes c).
Definition set_readEOF c := mkClient (queue c) (the_pump c) (deadline c) (pending c) true (done c) (pw_closed c) (cancelled c) (writes c).
Definition set_cancelled c := mkClient (queue c) (the_pump c) (deadline c) (pending c) (readEOF c) (done c) (pw_closed c) true (writes c).

(** ** The pump *)

(** [resp.Body.Read(buf)] returned [n] bytes and an error. *)
Definition pump_read (d : list byte) (e : option h2_err) (c : clientStreamConn) : option clientStreamConn :=
  match the_pump c with
  | PRead =>
      if decide (length d ≤ readChunk)%nat then
        Some (set_pump (match d, e with
                        | [], None => PRead
                        | [], Some e => PSendEnd e
                        | _, _ => PSend d e
                        end) c)
      else None
  | _ => None
  end.

(** Its sends: into the queue when there is room, or given up once [done] is
    closed; when both are possible the select takes either, as [abandon] says. *)
Definition pump_send (abandon : bool) (c : clientStreamConn) : option clientStreamConn :=
  if abandon then
    if done c then match the_pump c with PSend _ _ | PSendEnd _ => Some (set_pump PGone c) | _ => None end else None
  else if Nat.ltb (length (queue c)) readQueue then
    match the_pump c with
    | PSend d e => Some (set_pump (match e with Some e => PSendEnd e | None => PRead end) (set_queue (queue c ++ [Data d]) c))
    | PSendEnd e => Some (set_pump PGone (set_queue (queue c ++ [End e]) c))
    | _ => None
    end
  else None.

(** ** Read, Write, CloseWrite, Close *)

(** The deadline has passed, or its timer fires while [Read] waits. *)
Definition expired (now : Z) (late : bool) (c : clientStreamConn) : bool :=
  match deadline c with Some d => (d <=? now) || late | None => false end.

(** What a [Read] of [n] bytes returns at time [now]; [None] while it blocks. The
    loop of the code goes round again on an empty chunk. *)
Fixpoint read_queue (now : Z) (late : bool) (n : nat) (q : list streamItem) (c : clientStreamConn) :
    option (list byte * option h2_err * clientStreamConn) :=
  if expired now late c then Some ([], Some HTimeout, set_queue q c)
  else match q with
       | [] => if done c then Some ([], Some HEOF, set_readEOF (set_queue q c)) else None
       | Data [] :: q => read_queue now late n q c
       | Data d :: q => Some (take n d, None, set_pending (drop n d) (set_queue q c))
       | End HEOF :: q => Some ([], Some HEOF, set_readEOF (set_queue q c))
       | End e :: q => Some ([], Some e, set_queue q c)
       end.

Definition Read (now : Z) (late : bool) (n : nat) (c : clientStreamConn) :
    option (list byte * option h2_err * clientStreamConn) :=
  if readEOF c then Some ([], Some HEOF, c)
  else match pending c with
       | [] => read_queue now late n (queue c) c
       | d => Some (take n d, None, set_pending (drop n d) c)
       end.

(** [io.Pipe]'s writer: an error once it is closed. *)
Definition Write (p : list byte) (c : clientStreamConn) : option h2_err * clientStreamConn :=
  if pw_closed c then (Some HClosedPipe, c)
  else (None, mkClient (queue c) (the_pump c) (deadline c) (pending c) (readEOF c) (done c) (pw_closed c) (cancelled c) (writes c ++ [p])).

Definition CloseWrite (c : clientStreamConn) : clientStreamConn :=
  mkClient (queue c) (the_pump c) (deadline c) (pending c) (readEOF c) (done c) true (cancelled c) (writes c).

Definition Close (c : clientStreamConn) : clientStreamConn := set_cancelled (CloseWrite c).

Definition SetReadDeadline (t : option Z) (c : clientStreamConn) : clientStreamConn :=
  mkClient (queue c) (the_pump c) t (pending c) (readEOF c) (done c) (pw_closed c) (cancelled c) (writes c).

(** ** Histories *)

Inductive hevent :=
  | HBody (d : list byte) (e : option h2_err)
  | HPump (abandon : bool)
  | HRead (now : Z) (late : bool) (n : nat)
  | HWrite (p : list byte)
  | HCloseWrite
  | HClose
  | HDeadline (t : option Z).

(** The bytes the body has given, those [Read] has returned, and the errors it has
    returned. *)
Record hsys := mkHsys { h_conn : clientStreamConn; h_body : list byte; h_got : list byte; h_errs : list h2_err }.

Definition happly (s : hsys) (ev : hevent) : option hsys :=
  let c := h_conn s in
  match ev with
  | HBody d e => c ← pump_read d e c; Some (mkHsys c (h_body s ++ d) (h_got s) (h_errs s))
  | HPump g => c ← pump_send g c; Some (mkHsys c (h_body s) (h_got s) (h_errs s))
  | HRead now late n =>
      '(d, e, c) ← Read now late n c;
      Some (mkHsys c (h_body s) (h_got s ++ d) (h_errs s ++ match e with Some e => [e] | None => [] end))
  | HWrite p => Some (mkHsys (Write p c).2 (h_body s) (h_got s) (h_errs s))
  | HCloseWrite => Some (mkHsys (CloseWrite c) (h_body s) (h_got s) (h_errs s))
  | HClose => Some (mkHsys (Close c) (h_body s) (h_got s) (h_errs s))
  | HDeadline t => Some (mkHsys (SetReadDeadline t c) (h_body s) (h_got s) (h_errs s))
  end.

Fixpoint hrun (s : hsys) (evs : list hevent) : option hsys :=
  match evs with [] => Some s | ev :: evs => s ← happly s ev; hrun s evs end.

Definition hsys0 : hsys := mkHsys newClientStreamConn [] [] [].

(** * The serving side *)

(** [s_out] is what was written and flushed; [s_done] is what the handler waits
    for. *)
Record serverStreamConn := mkServer { s_status : Z; s_out : list byte; s_flushes : nat; s_done : bool }.

(** A response writer without [Flush] has [flusher = false]. *)
Definition newServerStreamConn (flusher : bool) : serverStreamConn := mkServer 200 [] (if flusher then 1 else 0) false.

Definition flush (flusher : bool) (s : serverStreamConn) : serverStreamConn :=
  mkServer (s_status s) (s_out s) (s_flushes s + (if flusher then 1 else 0)) (s_done s).
Definition server_Read (flusher : bool) (res : list byte * option h2_err) (s : serverStreamConn) :=
  (res, flush flusher s).
Definition server_Write (flusher : bool) (p : list byte) (s : serverStreamConn) : serverStreamConn :=
  flush flusher (mkServer (s_status s) (s_out s ++ p) (s_flushes s) (s_done s)).
Definition server_Close (s : serverStreamConn) : serverStreamConn :=
  mkServer (s_status s) (s_out s) (s_flushes s) true.

(** * Order and end of the data *)

Definition item_data (i : streamItem) : list byte := match i with Data d => d | End _ => [] end.
Definition hand (p : pump) : list byte := match p with PSend d _ => d | _ => [] end.
Definition held (c : clientStreamConn) : list byte := pending c ++ concat (item_data <$> queue c) ++ hand (the_pump c).

(** The queue holds chunks, then at most the end of the body, after which the pump
    is gone; nothing closes [done]. *)
Fixpoint well_queued (q : list streamItem) (p : pump) : Prop :=
  match q with
  | [] => True
  | Data _ :: q => well_queued q p
  | End _ :: q => q = [] ∧ p = PGone
  end.

Definition ended (c : clientStreamConn) : Prop := queue c = [] ∧ pending c = [] ∧ the_pump c = PGone.

(** Errors of the body, as against those [Read] makes itself. *)
Definition broke (e : h2_err) : Prop := e ≠ HEOF ∧ e ≠ HTimeout.

Record hinv (s : hsys) : Prop := mkHinv {
  inv_bytes : h_body s = h_got s ++ held (h_conn s);
  inv_queue : well_queued (queue (h_conn s)) (the_pump (h_conn s));
  inv_done : done (h_conn s) = false;
  inv_eof : readEOF (h_conn s) = true → ended (h_conn s);
  inv_eof_err : HEOF ∈ h_errs s → readEOF (h_conn s) = true;
  inv_broke e : e ∈ h_errs s → broke e → ended (h_conn s) ∧ readEOF (h_conn s) = false;
}.

Lemma hinv_0 : hinv hsys0.
Proof. split; cbn; try done; by intros ?%elem_of_nil || intros ? ?%elem_of_nil. Qed.

Lemma well_queued_pump q p p' : p ≠ PGone → well_queued q p → well_queued q p'.
Proof. induction q as [|[d|e] q IH]; cbn; [done|done|]. by intros ? [??]. Qed.

Lemma well_queued_snoc q i p p' :
  p ≠ PGone → well_queued q p → (∀ e, i = End e → p' = PGone) → well_queued (q ++ [i]) p'.
Proof.
  intros Hp. induction q as [|[d|e] q IH]; cbn; intros Hq Hi; [destruct i; [done|split; [done|by eapply Hi]]|by apply IH|].
  by destruct Hq.
Qed.

(** What a [Read] that waits on the queue leaves. *)
Record read_queue_post (q : list streamItem) (c : clientStreamConn) (d : list byte) (e : option h2_err)
    (c' : clientStreamConn) : Prop := mkPost {
  post_pump : the_pump c' = the_pump c;
  post_done : done c' = false;
  post_bytes : concat (item_data <$> q) = d ++ pending c' ++ concat (item_data <$> queue c');
  post_queue : well_queued (queue c') (the_pump c');
  post_eof : readEOF c' = true ↔ e = Some HEOF;
  post_ended e' : e = Some e' → e' ≠ HTimeout → ended c';
  post_nil : q = [] → e = Some HTimeout ∧ queue c' = [] ∧ pending c' = [];
}.

Lemma read_queue_spec now late n q c d e c' :
  read_queue now late n q c = Some (d, e, c') → pending c = [] → readEOF c = false → done c = false →
  well_queued q (the_pump c) → read_queue_post q c d e c'.
Proof.
  intros Hr Hp He Hd. revert Hr. induction q as [|[[|x l]|err] q IH]; cbn [read_queue]; intros Hr Hq.
  - rewrite Hd in Hr. destruct (expired now late c); simplify_eq. split; cbn; try done; [by rewrite Hp|by rewrite He|].
    by intros _ [= <-].
  - destruct (expired now late c); simplify_eq.
    + split; cbn; try done; [by rewrite Hp|by rewrite He|]. by intros _ [= <-].
    + destruct (IH Hr Hq) as [????? Hx _]. by split.
  - destruct (expired now late c); simplify_eq.
    + split; cbn; try done; [by rewrite Hp|by rewrite He|]. by intros _ [= <-].
    + split; cbn [the_pump set_pending set_queue done pending queue readEOF fmap list_fmap item_data concat]; try done.
      * by rewrite (app_assoc (take n _)), take_drop.
      * by rewrite He.
  - destruct Hq as [-> Hg].
    destruct (expired now late c); simplify_eq.
    + split; cbn; try done; [by rewrite Hp|by rewrite He|]. by intros _ [= <-].
    + destruct err; simplify_eq; split; cbn; try done; by rewrite ?Hp, ?He.
Qed.

(** A conn's invariant after a step that changes neither the record of errors nor
    what was returned. *)
Lemma hinv_pump s c b :
  hinv s → the_pump (h_conn s) ≠ PGone → readEOF c = readEOF (h_conn s) → done c = done (h_conn s) →
  well_queued (queue c) (the_pump c) → h_body s ++ b = h_got s ++ held c →
  hinv (mkHsys c (h_body s ++ b) (h_got s) (h_errs s)).
Proof.
  intros [H1 H2 H3 H4 H5 H6] Hp He Hd Hq Hb.
  assert (∀ P : Prop, ended (h_conn s) → P) as Hno by (intros P (_&_&?); congruence).
  split; cbn; [done|done|by rewrite Hd| | |].
  - rewrite He. intros ?. by apply Hno, H4.
  - rewrite He. by intros ?%H5.
  - intros e Hi Hbr. by eapply Hno, H6.
Qed.

Lemma hinv_read now late n s d e c :
  hinv s → Read now late n (h_conn s) = Some (d, e, c) →
  hinv (mkHsys c (h_body s) (h_got s ++ d) (h_errs s ++ match e with Some e => [e] | None => [] end)).
Proof.
  intros Hi Hr. pose proof Hi as [H1 H2 H3 H4 H5 H6]. unfold Read in Hr. destruct (readEOF (h_conn s)) eqn:He.
  { simplify_eq. destruct (H4 eq_refl) as (Hq&Hp&Hg). split; cbn; rewrite ?app_nil_r; try done.
    - intros e [?| ->%list_elem_of_singleton]%elem_of_app [Hn Ht]; [|done]. rewrite He. by apply (H6 e). }
  destruct (pending (h_conn s)) as [|x l] eqn:Hp.
  - destruct (read_queue_spec _ _ _ _ _ _ _ _ Hr Hp He H3 H2) as [P1 P2 P3 P4 P5 P6 P7]. split; cbn; try done.
    + rewrite H1. unfold held. rewrite Hp, P1, P3. cbn. by rewrite <- !app_assoc.
    + intros Hc. apply P5 in Hc as ->. by eapply P6.
    + intros [Hx|Hx]%elem_of_app; [by apply H5 in Hx|]. destruct e; [|by apply elem_of_nil in Hx].
      apply list_elem_of_singleton in Hx as <-. by apply P5.
    + intros e' [Hx|Hx]%elem_of_app [Hb1 Hb2].
      * destruct (H6 e' Hx) as [(Hq&_&Hg) _]; [done|]. destruct (P7 Hq) as (->&Hq'&Hp').
        split; [by rewrite <- P1 in Hg|]. apply not_true_is_false. by intros [=]%P5.
      * destruct e; [|by apply elem_of_nil in Hx]. apply list_elem_of_singleton in Hx as <-.
        split; [by eapply P6|]. apply not_true_is_false. intros [= ?]%P5. congruence.
  - simplify_eq. rewrite app_nil_r. assert (∀ P : Prop, ended (h_conn s) → P) as Hno by (intros P (_&?&_); congruence).
    split; cbn; try done; rewrite ?He.
    + rewrite H1. unfold held. rewrite Hp. cbn [pending queue the_pump set_pending].
      by rewrite <- app_assoc, (app_assoc (take n _)), take_drop.
    + done.
    + by intros ?%H5.
    + intros e' Hx Hb. by eapply Hno, H6.
Qed.

Lemma hinv_step s ev s' : hinv s → happly s ev = Some s' → hinv s'.
Proof.
  intros Hi Hs. destruct ev as [d e|g|now late n|p| | |t]; unfold happly in Hs.
  - apply bind_Some in Hs as (c&Hc&Hs). simplify_eq. unfold pump_read in Hc.
    destruct (the_pump (h_conn s)) eqn:Hp; try done. case_decide; simplify_eq.
    apply hinv_pump; try done; cbn; [by rewrite Hp| |].
    + eapply well_queued_pump; [|apply (inv_queue _ Hi)]. by rewrite Hp.
    + rewrite (inv_bytes _ Hi). unfold held. rewrite Hp. cbn. rewrite app_nil_r, <- !app_assoc. by destruct d, e.
  - apply bind_Some in Hs as (c&Hc&Hs). simplify_eq. unfold pump_send in Hc. rewrite (inv_done _ Hi) in Hc.
    destruct g; [done|]. destruct (Nat.ltb _ _); [|done].
    rewrite <- (app_nil_r (h_body s)).
    destruct (the_pump (h_conn s)) as [|d e|e|] eqn:Hp; simplify_eq; (apply hinv_pump; [done|by rewrite Hp|done|done| |]); cbn.
    + eapply well_queued_snoc; [|apply (inv_queue _ Hi)|done]. by rewrite Hp.
    + rewrite (inv_bytes _ Hi). unfold held. cbn. rewrite Hp, fmap_app, concat_app. cbn. rewrite !app_nil_r, <- !app_assoc.
      do 2 f_equal. f_equal. destruct e; cbn; by rewrite ?app_nil_r.
    + eapply well_queued_snoc; [|apply (inv_queue _ Hi)|done]. by rewrite Hp.
    + rewrite (inv_bytes _ Hi). unfold held. cbn. rewrite Hp, fmap_app, concat_app. cbn. by rewrite !app_nil_r.
  - apply bind_Some in Hs as ([[d e] c]&Hc&Hs). simplify_eq. by eapply hinv_read.
  - simplify_eq. unfold Write. destruct (pw_closed _); [by destruct s|]. by destruct Hi.
  - simplify_eq. by destruct Hi.
  - simplify_eq. by destruct Hi.
  - simplify_eq. by destruct Hi.
Qed.

Lemma hinv_run s evs s' : hinv s → hrun s evs = Some s' → hinv s'.
Proof.
  revert s; induction evs as [|ev evs IH]; intros s Hi; [by intros [= <-]|].
  cbn [hrun]. intros (q&Hq&He)%bind_Some. eapply IH; [|done]. by eapply hinv_step.
Qed.

(** * Properties *)

(** C27: Whatever the sizes of the reads, the pace of the pump and the deadlines set on
    the way, [Read] returns the response body in order, nothing lost or repeated
    (a read that times out loses nothing), and when it reports the end of the
    file it has returned all of it. *)
Theorem h2_read_order evs s :
  hrun hsys0 evs = Some s →
  (∃ rest, h_body s = h_got s ++ rest) ∧ (HEOF ∈ h_errs s → h_got s = h_body s).
Proof.
  intros Hr. pose proof (hinv_run _ _ _ hinv_0 Hr) as [H1 H2 H3 H4 H5 H6]. split; [by eexists|].
  intros He. destruct (H4 (H5 He)) as (Hq&Hp&Hg). rewrite H1. unfold held. rewrite Hq, Hp, Hg. cbn. by rewrite app_nil_r.
Qed.

Definition demo_events : list hevent :=
  [HBody [x01; x02; x03] None; HPump false; HRead 0 false 2; HBody [x04] (Some HEOF); HPump false; HPump false;
   HDeadline (Some 5); HRead 9 false 8; HRead 9 false 8; HDeadline None; HRead 9 false 8; HRead 9 false 8].

Lemma h2_read_order_witness :
  ∃ s, hrun hsys0 demo_events = Some s ∧ h_errs s = [HTimeout; HEOF] ∧ h_got s = h_body s.
Proof.
  eexists. split; [vm_compute; reflexivity|]. split; [reflexivity|].
  apply (h2_read_order demo_events); [vm_compute; reflexivity|]. right. left.
Defined.

Definition not_read (ev : hevent) : bool := match ev with HRead _ _ _ => false | _ => true end.

(** An error of the body other than the end of the file (the stream was reset, or
    this side closed it) is returned once and not remembered: the pump has gone and
    nothing closes [done], so the next [Read] without a deadline blocks for ever,
    even after [Close]. *)
Theorem error_not_sticky evs s e now late n :
  hrun hsys0 evs = Some s → e ∈ h_errs s → broke e → deadline (h_conn s) = None →
  Read now late n (h_conn s) = None ∧ Read now late n (Close (h_conn s)) = None.
Proof.
  intros Hr He Hb Hd. pose proof (hinv_run _ _ _ hinv_0 Hr) as [_ _ H3 _ _ H6].
  destruct (H6 e He Hb) as [(Hq&Hp&_) Heof]. unfold Read. cbn. rewrite Heof, Hp, Hq. cbn. unfold expired. cbn.
  by rewrite Hd, H3.
Qed.

Lemma error_not_sticky_witness :
  ∃ s, hrun hsys0 [HClose; HBody [] (Some HCancelled); HPump false; HRead 0 false 8] = Some s ∧
    Read 1 false 8 (h_conn s) = None ∧ Read 1 false 8 (Close (h_conn s)) = None.
Proof.
  eexists. split; [vm_compute; reflexivity|].
  apply (error_not_sticky [HClose; HBody [] (Some HCancelled); HPump false; HRead 0 false 8] _ HCancelled);
    [vm_compute; reflexivity|by left|by split|reflexivity].
Defined.

Lemma full_step s ev s' :
  length (queue (h_conn s)) = readQueue → done (h_conn s) = false →
  (∃ d e, the_pump (h_conn s) = PSend d e) → not_read ev = true → happly s ev = Some s' →
  queue (h_conn s') = queue (h_conn s) ∧ done (h_conn s') = false ∧ the_pump (h_conn s') = the_pump (h_conn s).
Proof.
  intros Hq Hd (d&e&Hp) Hn Hs. destruct ev as [d' e'|g|now late n|p| | |t]; unfold happly in Hs.
  - unfold pump_read in Hs. by rewrite Hp in Hs.
  - unfold pump_send in Hs. rewrite Hd, Hq in Hs. by destruct g.
  - done.
  - simplify_eq. unfold Write. by destruct (pw_closed _).
  - by simplify_eq.
  - by simplify_eq.
  - by simplify_eq.
Qed.

(** A connection that is closed with its queue full, and not read again, leaves its
    pump waiting for ever: [Close] cancels the request and closes the pipe, but not
    the [done] the pump's sends select on. *)
Theorem closed_pump_leaks s evs s' :
  length (queue (h_conn s)) = readQueue → done (h_conn s) = false → (∃ d e, the_pump (h_conn s) = PSend d e) →
  forallb not_read evs = true → hrun s (HClose :: evs) = Some s' →
  the_pump (h_conn s') = the_pump (h_conn s).
Proof.
  intros Hq Hd Hp Hn. assert (forallb not_read (HClose :: evs) = true) as Hn' by done. revert Hn'. clear Hn.
  generalize (HClose :: evs). intros l. revert s Hq Hd Hp. induction l as [|ev l IH]; intros s Hq Hd Hp Hn; [by intros [= <-]|].
  cbn [hrun]. intros (q&Hst&He)%bind_Some. cbn [forallb] in Hn. apply andb_true_iff in Hn as [Hn1 Hn2].
  destruct (full_step _ _ _ Hq Hd Hp Hn1 Hst) as (Hq'&Hd'&Hp'). rewrite <- Hp'.
  apply IH; [by rewrite Hq'|done|by rewrite Hp'|done|done].
Qed.

Definition fill : list hevent := concat (replicate 64 [HBody [x01] None; HPump false]) ++ [HBody [x02] None].

Lemma closed_pump_leaks_witness :
  ∃ s s', hrun hsys0 fill = Some s ∧ hrun s [HClose; HCloseWrite] = Some s' ∧ the_pump (h_conn s') = the_pump (h_conn s).
Proof.
  do 2 eexists. split; [vm_compute; reflexivity|]. split; [vm_compute; reflexivity|].
  apply (closed_pump_leaks _ [HCloseWrite]); [reflexivity|reflexivity|by do 2 eexists|reflexivity|vm_compute; reflexivity].
Defined.
