(* ===== verification/Transport.v ===== *)
(** The transport registry (internal/transport/transport.go), what the factories
    of the six transports build from the options (internal/transport/), the codec
    registry (protocol/codec/codec.go), and the accept queue that the ws, h2, quic
    and kcp transports put in front of their connections. *)
From S2P Require Import Prelude.
From Stdlib Require Import ZArith Lia.

(** * Options and transports *)

Record Options := mkOptions { CertFile : string; KeyFile : string; TLSSkipVerify : bool; Path : string }.

(** What a factory builds: the fields its [Listen] and [Dial] depend on. A
    certificate is what [tls.LoadX509KeyPair], a parameter, returns. *)
Inductive Transport (cert : Type) :=
  | tcpTransport
  | tlsTransport (c : option cert) (skipVerify : bool)
  | wsTransport (path : string)
  | h2Transport (path : string)
  | quicTransport (serverTLS : option cert) (skipVerify : bool)
  | kcpTransport.
Arguments tcpTransport {cert}.
Arguments tlsTransport {cert} c skipVerify.
Arguments wsTransport {cert} path.
Arguments h2Transport {cert} path.
Arguments quicTransport {cert} serverTLS skipVerify.
Arguments kcpTransport {cert}.

Inductive tr_err :=
  | UnknownTransport (name : string) (registered : list string)
  | LoadKeyPair (proto : string)
  | ListenNeedsCert (proto : string).

Section factories.
Context {cert : Type} (LoadX509KeyPair : string → string → option cert).

Definition BuildFunc : Type := Options → result tr_err (Transport cert).

(** tls.go and quic.go: a key pair is loaded when either file is named. *)
Definition load (proto : string) (o : Options) : result tr_err (option cert) :=
  if String.eqb (CertFile o) "" && String.eqb (KeyFile o) "" then Ok None
  else match LoadX509KeyPair (CertFile o) (KeyFile o) with
       | Some c => Ok (Some c)
       | None => Err (LoadKeyPair proto)
       end.

Definition tcp_build : BuildFunc := λ _, Ok tcpTransport.
Definition tls_build : BuildFunc := λ o, c ← load "tls" o; Ok (tlsTransport c (TLSSkipVerify o)).
Definition ws_build : BuildFunc := λ o, Ok (wsTransport (Path o)).
Definition h2_build : BuildFunc := λ o, Ok (h2Transport (if String.eqb (Path o) "" then "/" else Path o)).
Definition quic_build : BuildFunc := λ o, c ← load "quic" o; Ok (quicTransport c (TLSSkipVerify o)).
Definition kcp_build : BuildFunc := λ _, Ok kcpTransport.

(** [wsTransport.handshakePath]. *)
Definition handshakePath (path : string) : string := if String.eqb path "" then "/" else path.

(** What [Listen] checks before it opens a socket. *)
Definition listen_check (t : Transport cert) : result tr_err unit :=
  match t with
  | tlsTransport None _ => Err (ListenNeedsCert "tls")
  | quicTransport None _ => Err (ListenNeedsCert "quic")
  | _ => Ok tt
  end.

(** * The registry *)

Abbreviation registry := (gmap string BuildFunc).

Inductive reg_panic := EmptyName | NilFunc | Duplicate (name : string).

(** [fn] is [None] for a nil function. *)
Definition Register (name : string) (fn : option BuildFunc) (r : registry) : result reg_panic registry :=
  if String.eqb name "" then Err EmptyName
  else match fn with
       | None => Err NilFunc
       | Some fn => match r !! name with
                    | Some _ => Err (Duplicate name)
                    | None => Ok (<[name := fn]> r)
                    end
       end.

(** [sort.Strings]: byte order. *)
Definition str_le (a b : string) : Prop := String.leb a b = true.
#[export] Instance str_le_dec a b : Decision (str_le a b).
Proof. unfold str_le. apply _. Defined.

Definition Names (r : registry) : list string := merge_sort str_le (map_to_list r).*1.

Definition Build (name : string) (o : Options) (r : registry) : result tr_err (Transport cert) :=
  match r !! name with
  | Some fn => fn o
  | None => Err (UnknownTransport name (Names r))
  end.

(** The [init] functions of the transports, in any order. *)
Definition init_calls : list (string * BuildFunc) :=
  [("tcp", tcp_build); ("tls", tls_build); ("ws", ws_build); ("h2", h2_build); ("quic", quic_build); ("kcp", kcp_build)].

Fixpoint register_all (l : list (string * BuildFunc)) (r : registry) : result reg_panic registry :=
  match l with
  | [] => Ok r
  | (name, fn) :: l => r ← Register name (Some fn) r; register_all l r
  end.

(** * Properties of the registry *)

Lemma Register_Ok name fn r r' :
  Register name fn r = Ok r' ↔ ∃ f, fn = Some f ∧ name ≠ "" ∧ r !! name = None ∧ r' = <[name := f]> r.
Proof.
  unfold Register. destruct (String.eqb_spec name "") as [->|Hne].
  { split; [done|]. naive_solver. }
  destruct fn as [f|]; [|naive_solver]. destruct (r !! name) eqn:Hr; naive_solver.
Qed.

(** Registering without a panic is what adds the names: afterwards each is bound to
    the function it came with and nothing else has changed. *)
Lemma register_all_spec l r r' :
  register_all l r = Ok r' →
  NoDup l.*1 ∧ (∀ name, name ∈ l.*1 → r !! name = None) ∧ r' = list_to_map l ∪ r.
Proof.
  revert r. induction l as [|[name f] l IH]; intros r; cbn [register_all].
  { intros [= <-]. split; [constructor|]. split; [by intros ? ?%elem_of_nil|]. symmetry. apply map_empty_union. }
  destruct (Register name (Some f) r) as [r1|] eqn:Hr; [|done].
  apply Register_Ok in Hr as (f'&[= <-]&_&Hn&->). intros (Hnd&Hd&->)%IH. cbn [fmap list_fmap fst]. split_and!.
  - constructor; [|done]. intros Hin%Hd. by rewrite lookup_insert_eq in Hin.
  - intros n [->|Hin]%elem_of_cons; [done|]. apply Hd in Hin. by apply lookup_insert_None in Hin as [? _].
  - rewrite list_to_map_cons, <- insert_union_r, insert_union_l; [done|].
    apply not_elem_of_list_to_map_1. intros Hin%Hd. by rewrite lookup_insert_eq in Hin.
Qed.

Lemma register_all_Ok l r :
  NoDup l.*1 → (∀ name, name ∈ l.*1 → name ≠ "" ∧ r !! name = None) → register_all l r = Ok (list_to_map l ∪ r).
Proof.
  revert r. induction l as [|[name f] l IH]; intros r Hnd Hr; cbn [register_all].
  { f_equal. symmetry. apply map_empty_union. }
  apply NoDup_cons in Hnd as [Hn Hnd]. cbn [fmap list_fmap fst] in *. destruct (Hr name) as [Hne Hnone]; [by left|].
  assert (Register name (Some f) r = Ok (<[name := f]> r)) as -> by (apply Register_Ok; by exists f).
  cbn [mbind result_bind]. rewrite IH; [|done|].
  - f_equal. rewrite list_to_map_cons, <- insert_union_r, insert_union_l; [done|].
    by apply not_elem_of_list_to_map_1.
  - intros n Hin. destruct (Hr n) as [Hne' Hn']; [by right|]. split; [done|].
    rewrite lookup_insert_ne; [done|]. by intros ->.
Qed.

#[local] Instance str_le_total : Total str_le.
Proof. intros a b. apply String.leb_total. Qed.

(** [Names] lists each registered name once, sorted. *)
Theorem Names_spec r :
  Sorted str_le (Names r) ∧ NoDup (Names r) ∧ ∀ name, name ∈ Names r ↔ is_Some (r !! name).
Proof.
  unfold Names. split_and!.
  - apply (Sorted_merge_sort str_le).
  - rewrite merge_sort_Permutation. apply NoDup_fst_map_to_list.
  - intros name. rewrite merge_sort_Permutation, list_elem_of_fmap. split.
    + intros ([n f]&->&Hin). apply elem_of_map_to_list in Hin. by eexists.
    + intros [f Hf]. exists (name, f). by rewrite elem_of_map_to_list.
Qed.

(** A transport's name, and what its factory makes of the options. *)
Definition built (name : string) (o : Options) : result tr_err (Transport cert) :=
  if String.eqb name "tcp" then tcp_build o
  else if String.eqb name "tls" then tls_build o
  else if String.eqb name "ws" then ws_build o
  else if String.eqb name "h2" then h2_build o
  else if String.eqb name "quic" then quic_build o
  else if String.eqb name "kcp" then kcp_build o
  else Err (UnknownTransport name ["h2"; "kcp"; "quic"; "tcp"; "tls"; "ws"]).

Lemma init_names : NoDup init_calls.*1.
Proof. refine (bool_decide_unpack _ _). by vm_compute. Qed.

(** In whatever order the packages are initialised, no registration panics, and
    [Build] finds each transport under its name; another name is an error that
    lists the six. *)
Theorem init_any_order l :
  l ≡ₚ init_calls →
  ∃ r, register_all l ∅ = Ok r ∧ ∀ name o, Build name o r = built name o.
Proof.
  intros Hl. exists (list_to_map init_calls). split.
  - rewrite register_all_Ok.
    + f_equal. rewrite (right_id_L ∅ (∪)). symmetry. by apply list_to_map_proper; [apply init_names|].
    + rewrite Hl. apply init_names.
    + intros name Hin. rewrite Hl in Hin. split; [|apply lookup_empty].
      intros ->. revert Hin. refine (bool_decide_unpack (_ ∉ _) _). by vm_compute.
  - intros name o. unfold Build, built, init_calls. cbn [list_to_map foldr uncurry].
    repeat match goal with
    | |- context [String.eqb name ?s] =>
        destruct (String.eqb_spec name s) as [->|?]; [by rewrite ?lookup_insert_eq, ?lookup_insert_ne by done|]
    end.
    rewrite !lookup_insert_ne, lookup_empty by done. do 2 f_equal.
Qed.
End factories.

Definition demo_load (c k : string) : option unit := if String.eqb c "missing.pem" then None else Some tt.

Lemma init_any_order_witness :
  ∃ r, register_all (reverse (init_calls demo_load)) ∅ = Ok r ∧
    (Build "quic" (mkOptions "c.pem" "k.pem" false "") r ≫= listen_check) = Ok tt ∧
    (Build "tls" (mkOptions "" "" true "") r ≫= listen_check) = Err (ListenNeedsCert "tls") ∧
    Build "udp" (mkOptions "" "" false "") r = Err (UnknownTransport "udp" ["h2"; "kcp"; "quic"; "tcp"; "tls"; "ws"]).
Proof.
  destruct (init_any_order demo_load (reverse (init_calls demo_load))) as (r&Hr&Hb); [apply reverse_Permutation|].
  exists r. split; [exact Hr|]. rewrite !Hb. repeat split; reflexivity.
Defined.

(** * The accept queue

    [wsListener], [h2Listener], [quicListener] and [kcpListener]: goroutines offer
    connections, [Accept] takes them, and [Close] closes [done]. The channel has
    room for [l_room] connections (0, but 16 in kcp). *)
Module Listener.

(** A goroutine in [Close]: before the test of [done], past it, or back. The quic and
    kcp listeners run [close] in a [sync.Once] instead. *)
Inductive closer := CTest | CClose | CBack.

Record listener := mkListener {
  l_room : nat;
  l_offers : list nat;      (* connections whose goroutine is in its select *)
  l_conns : list nat;       (* in the channel *)
  l_accepted : list nat;
  l_refused : list nat;     (* closed by their goroutine *)
  l_done : bool;
  l_closers : list closer;
  l_panic : bool;           (* close of a closed channel *)
}.

Inductive levent :=
  | LOffer (c : nat)        (* a connection arrives *)
  | LSend (i : nat)         (* offer [i] enters the channel *)
  | LRefuse (i : nat)       (* offer [i] sees [done] *)
  | LAccept                 (* [Accept] takes from the channel *)
  | LTake (i : nat)         (* [Accept] meets offer [i], the channel being empty *)
  | LOnce                   (* a [Close] under [sync.Once] *)
  | LClose (i : nat).       (* closer [i] takes its next step *)

Definition upd (offers conns accepted refused : list nat) (l : listener) : listener :=
  mkListener (l_room l) offers conns accepted refused (l_done l) (l_closers l) (l_panic l).
Definition set_done (l : listener) : listener :=
  mkListener (l_room l) (l_offers l) (l_conns l) (l_accepted l) (l_refused l) true (l_closers l) (l_panic l).
Definition set_closer (i : nat) (ph : closer) (l : listener) : listener :=
  mkListener (l_room l) (l_offers l) (l_conns l) (l_accepted l) (l_refused l) (l_done l) (<[i := ph]> (l_closers l)) (l_panic l).
Definition panic (l : listener) : listener :=
  mkListener (l_room l) (l_offers l) (l_conns l) (l_accepted l) (l_refused l) (l_done l) (l_closers l) true.

(** [Accept]: [None] while it blocks, [Some (inr _)] for [net.ErrClosed]. When both
    cases of its select are ready either may be taken; [closed_first] says which. *)
Definition Accept (closed_first : bool) (l : listener) : option (nat * listener + unit) :=
  match l_conns l with
  | c :: cs => if closed_first && l_done l then Some (inr tt)
               else Some (inl (c, upd (l_offers l) cs (l_accepted l ++ [c]) (l_refused l) l))
  | [] => if l_done l then Some (inr tt) else None
  end.

(** The [Close] of ws and h2: a select with a default, then [close(l.done)]. *)
Definition close_step (i : nat) (l : listener) : option listener :=
  match l_closers l !! i with
  | Some CTest => Some (set_closer i (if l_done l then CBack else CClose) l)
  | Some CClose => Some (if l_done l then panic l else set_closer i CBack (set_done l))
  | _ => None
  end.

Definition lapply (l : listener) (ev : levent) : option listener :=
  if l_panic l then None
  else match ev with
  | LOffer c => Some (upd (l_offers l ++ [c]) (l_conns l) (l_accepted l) (l_refused l) l)
  | LSend i =>
      c ← l_offers l !! i;
      if Nat.ltb (length (l_conns l)) (l_room l) then
        Some (upd (delete i (l_offers l)) (l_conns l ++ [c]) (l_accepted l) (l_refused l) l)
      else None
  | LRefuse i =>
      c ← l_offers l !! i;
      if l_done l then Some (upd (delete i (l_offers l)) (l_conns l) (l_accepted l) (l_refused l ++ [c]) l) else None
  | LAccept => match Accept false l with Some (inl (_, l)) => Some l | _ => None end
  | LTake i =>
      c ← l_offers l !! i;
      match l_conns l with
      | [] => Some (upd (delete i (l_offers l)) [] (l_accepted l ++ [c]) (l_refused l) l)
      | _ => None
      end
  | LOnce => Some (set_done l)
  | LClose i => close_step i l
  end.

Fixpoint lrun (l : listener) (evs : list levent) : option listener :=
  match evs with [] => Some l | ev :: evs => l ← lapply l ev; lrun l evs end.

(** A listener with [n] goroutines that will call [Close]. *)
Definition start (room n : nat) : listener := mkListener room [] [] [] [] false (replicate n CTest) false.

Definition arrivals (evs : list levent) : list nat := omap (λ ev, match ev with LOffer c => Some c | _ => None end) evs.
Definition holds (l : listener) : list nat := l_offers l ++ l_conns l ++ l_accepted l ++ l_refused l.

Lemma holds_step l ev l' :
  lapply l ev = Some l' → holds l' ≡ₚ holds l ++ match ev with LOffer c => [c] | _ => [] end.
Proof.
  unfold lapply. destruct (l_panic l); [done|]. intros Hs.
  assert (∀ i c, l_offers l !! i = Some c → l_offers l ≡ₚ c :: delete i (l_offers l)) as Hdel
    by (intros; by apply delete_Permutation).
  destruct ev as [c|i|i| |i| |i].
  - simplify_eq. unfold holds. cbn. solve_Permutation.
  - apply bind_Some in Hs as (c&Hc&Hs). destruct (Nat.ltb _ _); simplify_eq. unfold holds. cbn.
    specialize (Hdel i c Hc). revert Hdel. generalize (delete i (l_offers l)). intros ds ->. solve_Permutation.
  - apply bind_Some in Hs as (c&Hc&Hs). destruct (l_done l); simplify_eq. unfold holds. cbn.
    specialize (Hdel i c Hc). revert Hdel. generalize (delete i (l_offers l)). intros ds ->. solve_Permutation.
  - unfold Accept in Hs. destruct (l_conns l) as [|c cs] eqn:Hc; cbn in Hs; [by destruct (l_done l)|]. simplify_eq.
    unfold holds. cbn. rewrite Hc. solve_Permutation.
  - apply bind_Some in Hs as (c&Hc&Hs). destruct (l_conns l) as [|c' cs] eqn:Hcs; simplify_eq. unfold holds. cbn.
    specialize (Hdel i c Hc). revert Hdel. generalize (delete i (l_offers l)). intros ds ->. rewrite Hcs. solve_Permutation.
  - simplify_eq. unfold holds. cbn. by rewrite app_nil_r.
  - unfold close_step in Hs. rewrite app_nil_r. destruct (l_closers l !! i) as [[]|]; simplify_eq; [done|].
    by destruct (l_done l).
Qed.

(** Every connection that arrives is in one place: offered, in the channel, given to
    one [Accept], or closed by its own goroutine; none is handed out twice. *)
Theorem listener_conserves room n evs l :
  lrun (start room n) evs = Some l → holds l ≡ₚ arrivals evs.
Proof.
  enough (∀ l0, lrun l0 evs = Some l → holds l ≡ₚ holds l0 ++ arrivals evs) as H by (intros Hr; by apply (H _ Hr)).
  induction evs as [|ev evs IH]; intros l0; cbn [lrun].
  { intros [= ->]. by rewrite app_nil_r. }
  intros (l1&H1&Hr)%bind_Some. rewrite (IH l1 Hr), (holds_step _ _ _ H1), <- app_assoc. by destruct ev.
Qed.

Definition demo : list levent := [LOffer 7; LOffer 8; LOffer 9; LSend 0; LOnce; LRefuse 0; LAccept; LRefuse 0].

Lemma listener_conserves_witness :
  ∃ l, lrun (start 16 0) demo = Some l ∧ l_accepted l = [7%nat] ∧ l_refused l = [8; 9]%nat ∧ holds l ≡ₚ [7; 8; 9]%nat.
Proof.
  eexists. split; [vm_compute; reflexivity|]. split; [reflexivity|]. split; [reflexivity|].
  apply (listener_conserves 16 0 demo). vm_compute. reflexivity.
Defined.

(** The [Close] of ws and h2 tests [done] and closes it in two steps. Two goroutines
    that close the listener at once (the one that watches the context and the one
    that called [Close] or saw [Accept] fail) both find it open, and the second
    panics; a [sync.Once], as in quic and kcp, cannot. *)
Theorem concurrent_close_panics :
  ∃ l, lrun (start 0 2) [LClose 0; LClose 1; LClose 0; LClose 1] = Some l ∧ l_panic l = true.
Proof. eexists. split; [vm_compute; reflexivity|reflexivity]. Qed.

Lemma once_step l ev l' :
  l_closers l = [] → lapply l ev = Some l' → l_closers l' = [] ∧ (l_panic l = false → l_panic l' = false).
Proof.
  intros Hc. unfold lapply. destruct (l_panic l) eqn:Hp; [done|]. intros Hs.
  destruct ev as [c|i|i| |i| |i].
  - by simplify_eq.
  - apply bind_Some in Hs as (c&_&Hs). destruct (Nat.ltb _ _); by simplify_eq.
  - apply bind_Some in Hs as (c&_&Hs). destruct (l_done l); by simplify_eq.
  - unfold Accept in Hs. destruct (l_conns l); cbn in Hs; [by destruct (l_done l)|by simplify_eq].
  - apply bind_Some in Hs as (c&_&Hs). destruct (l_conns l); by simplify_eq.
  - by simplify_eq.
  - unfold close_step in Hs. by rewrite Hc, lookup_nil in Hs.
Qed.

Lemma once_never_panics room evs l : lrun (start room 0) evs = Some l → l_panic l = false.
Proof.
  enough (∀ l0, l_closers l0 = [] → l_panic l0 = false → lrun l0 evs = Some l → l_panic l = false) as H by (by apply H).
  induction evs as [|ev evs IH]; intros l0 Hc Hp; cbn [lrun]; [by intros [= <-]|].
  intros (l1&H1&Hr)%bind_Some. destruct (once_step _ _ _ Hc H1) as [Hc1 Hp1]. eapply IH; eauto.
Qed.

(** Once [done] is closed an [Accept] never waits. *)
Lemma Accept_after_close first l : l_done l = true → Accept first l ≠ None.
Proof. intros Hd. unfold Accept. rewrite Hd. destruct (l_conns l); [done|]. by destruct first. Qed.

(** kcp buffers up to 16 connections. Those in the channel when the listener is
    closed are neither accepted nor closed by anyone. *)
Theorem buffered_conn_abandoned :
  ∃ l, lrun (start 16 0) [LOffer 1; LSend 0; LOnce] = Some l ∧ Accept true l = Some (inr tt) ∧
       l_conns l = [1%nat] ∧ l_refused l = [] ∧ l_offers l = [].
Proof. eexists. split; [vm_compute; reflexivity|]. repeat split. Qed.
End Listener.
