(* ===== verification/WsConn.v ===== *)
(** The connections of the ws transport (internal/transport/ws/ws.go): a byte stream
    over websocket frames.

    The frame codec is github.com/gobwas/ws, which is not under src/: reading a
    header, unmasking and writing a frame are parameters, and [gobwas_laws] states
    that what it writes it reads back. Masking keys are the writer's choice, and how
    much the [bufio.Reader] of the handshake reads ahead is the runtime's: both are
    arguments. *)
From S2P Require Import Prelude.
From S2P Require Ws.
From Stdlib Require Import ZArith Lia.

Definition maxFrameSize : Z := Z.shiftl 1 20.

Definition OpContinuation : Z := 0.
Definition OpText : Z := 1.
Definition OpBinary : Z := 2.
Definition OpClose : Z := 8.
Definition OpPing : Z := 9.
Definition OpPong : Z := 10.

(** The fields of [ws.Header] the code reads; [h_mask] is [Some] when it is masked. *)
Record Header := mkHeader { h_op : Z; h_length : Z; h_mask : option (list byte) }.

Inductive wsc_err :=
  | WcHeader (e : io_err)
  | WcIO (e : io_err)
  | WcTooLarge (n : Z)
  | WcOpcode (op : Z)
  | WcEOF
  | WcWrite.

(** [br] is what the handshake's reader holds ([None] for a nil reader), [raw] what
    follows it on the connection; [room] is how many more frames can be written
    before the connection fails. *)
Record wsConn := mkWsConn {
  br : option (list byte);
  raw : list byte;
  out : list byte;
  room : nat;
  client : bool;
  pending : list byte;
}.

Definition newServerConn (rw : option (list byte)) (raw : list byte) (room : nat) : wsConn :=
  mkWsConn rw raw [] room false [].
Definition newClientConn (b : option (list byte)) (raw : list byte) (room : nat) : wsConn :=
  mkWsConn (match b with None => Some [] | _ => b end) raw [] room true [].

Definition set_pending (p : list byte) (c : wsConn) : wsConn :=
  mkWsConn (br c) (raw c) (out c) (room c) (client c) p.
Definition set_in (b : option (list byte)) (r : list byte) (c : wsConn) : wsConn :=
  mkWsConn b r (out c) (room c) (client c) (pending c).

Section conn.
Context (ReadHeader : list byte → result io_err Header * list byte).
Context (Cipher : list byte → list byte → list byte).
Context (write_frame : option (list byte) → Z → list byte → list byte).

(** [wsutil.WriteClientMessage] and [WriteServerMessage]; [key] is the mask a client
    draws. *)
Definition WriteMessage (key : list byte) (op : Z) (p : list byte) (c : wsConn) : option wsc_err * wsConn :=
  match room c with
  | O => (Some WcWrite, c)
  | S r => (None, mkWsConn (br c) (raw c) (out c ++ write_frame (if client c then Some key else None) op p) r (client c) (pending c))
  end.

Definition writeControl (key : list byte) (op : Z) (p : list byte) (c : wsConn) : option wsc_err * wsConn :=
  WriteMessage key op p c.

(** [handleFrame], given the bytes after the header; returns what is left of them. *)
Definition handleFrame (key : list byte) (h : Header) (r : list byte) (c : wsConn) :
    option wsc_err * list byte * wsConn :=
  if maxFrameSize <? h_length h then (Some (WcTooLarge (h_length h)), r, c)
  else match read_full (Z.to_nat (h_length h)) r with
       | Err e => (Some (WcIO e), [], c)
       | Ok (p, r) =>
           let p := match h_mask h with Some m => Cipher p m | None => p end in
           if (h_op h =? OpBinary) || (h_op h =? OpText) || (h_op h =? OpContinuation) then (None, r, set_pending p c)
           else if h_op h =? OpPing then let '(e, c) := writeControl key OpPong p c in (e, r, c)
           else if h_op h =? OpPong then (None, r, c)
           else if h_op h =? OpClose then (Some WcEOF, r, (writeControl key OpClose p c).2)
           else (Some (WcOpcode (h_op h)), r, c)
       end.

(** A header and its frame from the bytes [s]. *)
Definition next_frame (key : list byte) (s : list byte) (c : wsConn) : option wsc_err * list byte * wsConn :=
  match ReadHeader s with
  | (Err e, r) => (Some (WcHeader e), r, c)
  | (Ok h, r) => handleFrame key h r c
  end.

(** One turn of [Read]'s loop: the header and the payload come from the handshake's
    reader while it holds anything, else from the connection itself. [ahead] is how
    much of what follows the reader has taken from the connection by then. *)
Definition read_frame (key : list byte) (ahead : nat) (c : wsConn) : option wsc_err * wsConn :=
  match br c with
  | Some (x :: b) =>
      let '(e, r, c) := next_frame key ((x :: b) ++ raw c) c in (e, set_in (Some (take ahead r)) (drop ahead r) c)
  | b => let '(e, r, c) := next_frame key (raw c) c in (e, set_in b r c)
  end.

(** [Read] of [n] bytes; [ks] gives each turn's mask and read-ahead. [None] when the
    list is too short for the turns it takes. *)
Fixpoint Read (ks : list (list byte * nat)) (n : nat) (c : wsConn) : option (result wsc_err (list byte) * wsConn) :=
  match pending c with
  | [] =>
      match ks with
      | [] => None
      | (key, ahead) :: ks =>
          match read_frame key ahead c with
          | (Some e, c) => Some (Err e, c)
          | (None, c) => Read ks n c
          end
      end
  | p => Some (Ok (take n p), set_pending (drop n p) c)
  end.

(** The loop of [Write]: a binary frame per [maxFrameSize] bytes; on an error it
    returns how much was written. [keys] are the masks. *)
Fixpoint write_loop (fuel : nat) (keys : nat → list byte) (off : nat) (p : list byte) (c : wsConn) :
    nat * option wsc_err * wsConn :=
  match fuel, p with
  | S fuel, _ :: _ =>
      match WriteMessage (keys off) OpBinary (take (Z.to_nat maxFrameSize) p) c with
      | (Some e, c) => (off, Some e, c)
      | (None, c) => write_loop fuel keys (off + length (take (Z.to_nat maxFrameSize) p)) (drop (Z.to_nat maxFrameSize) p) c
      end
  | _, _ => (off, None, c)
  end.

Definition Write (keys : nat → list byte) (p : list byte) (c : wsConn) : nat * option wsc_err * wsConn :=
  write_loop (length p) keys 0 p c.

(** Bytes read by calls of [Read] with buffers of the sizes [ns], until one fails. *)
Fixpoint reads (ks : nat → list (list byte * nat)) (ns : list nat) (c : wsConn) : list byte * wsConn :=
  match ns with
  | [] => ([], c)
  | n :: ns =>
      match Read (ks (length ns)) n c with
      | Some (Ok d, c) => let '(ds, c) := reads ks ns c in (d ++ ds, c)
      | Some (Err _, c) => ([], c)
      | None => ([], c)
      end
  end.

(** [Close] sends a close frame, whatever comes of it, and closes the connection. *)
Definition Close (key : list byte) (c : wsConn) : wsConn := (WriteMessage key OpClose [] c).2.

(** * The stream survives the framing *)

(** What gobwas promises: a frame it wrote, however masked, is read back as a header
    with its opcode and length, followed by that many bytes that unmask to the
    payload. *)
Class gobwas_laws : Prop := {
  frame_back k op p rest : 0 ≤ op < 16 → (length p ≤ Z.to_nat maxFrameSize)%nat →
    ∃ body m, ReadHeader (write_frame k op p ++ rest) = (Ok (mkHeader op (Z.of_nat (length p)) m), body ++ rest) ∧
      length body = length p ∧ match m with Some m => Cipher body m | None => body end = p;
  header_eof : ReadHeader [] = (Err EOF, []);
}.

(** Data and control frames of which the data make up [s]. *)
Inductive carries : list (option (list byte) * Z * list byte) → list byte → Prop :=
  | carries_nil : carries [] []
  | carries_data k op p fs s :
      op = OpBinary ∨ op = OpText ∨ op = OpContinuation → (length p ≤ Z.to_nat maxFrameSize)%nat →
      carries fs s → carries ((k, op, p) :: fs) (p ++ s)
  | carries_pong k p fs s : (length p ≤ Z.to_nat maxFrameSize)%nat → carries fs s → carries ((k, OpPong, p) :: fs) s
  | carries_ping k p fs s : (length p ≤ Z.to_nat maxFrameSize)%nat → carries fs s → carries ((k, OpPing, p) :: fs) s.

Definition frames (fs : list (option (list byte) * Z * list byte)) : list byte :=
  concat ((λ '(k, op, p), write_frame k op p) <$> fs).

Definition pings (fs : list (option (list byte) * Z * list byte)) : nat :=
  length (filter (λ x, x.1.2 = OpPing) fs).

(** The bytes still to come, wherever they are. *)
Definition input (c : wsConn) : list byte := default [] (br c) ++ raw c.

Lemma read_frame_input key ahead c :
  let '(e, r, c') := next_frame key (input c) c in
  ∃ c'', read_frame key ahead c = (e, c'') ∧ input c'' = r ∧ pending c'' = pending c' ∧ out c'' = out c' ∧
    room c'' = room c' ∧ client c'' = client c'.
Proof.
  destruct (next_frame key (input c) c) as [[e r] c'] eqn:Hn.
  unfold read_frame, input in *. destruct (br c) as [[|x b]|] eqn:Hb; cbn [default from_option id app] in Hn;
    cbn [app]; rewrite Hn; eexists; (split; [reflexivity|]); repeat split; cbn; rewrite ?Hb; done || apply take_drop.
Qed.

Context `{Hlaws : gobwas_laws}.

Lemma next_sent key k op p rest c : 0 ≤ op < 16 → (length p ≤ Z.to_nat maxFrameSize)%nat →
  next_frame key (write_frame k op p ++ rest) c =
    if (op =? OpBinary) || (op =? OpText) || (op =? OpContinuation) then (None, rest, set_pending p c)
    else if op =? OpPing then let '(e, c) := writeControl key OpPong p c in (e, rest, c)
    else if op =? OpPong then (None, rest, c)
    else if op =? OpClose then (Some WcEOF, rest, (writeControl key OpClose p c).2)
    else (Some (WcOpcode op), rest, c).
Proof.
  intros Hop Hl. destruct (frame_back k op p rest Hop Hl) as (body&m&Hh&Hb&Hp). unfold next_frame. rewrite Hh.
  unfold handleFrame. cbn [h_length h_op h_mask].
  destruct (Z.ltb_spec maxFrameSize (Z.of_nat (length p))) as [Hx|_].
  { exfalso. revert Hl Hx. generalize (length p). unfold maxFrameSize. intros l. change (Z.shiftl 1 20) with 1048576. lia. }
  rewrite Nat2Z.id, (read_full_app' _ _ _ Hb), Hp. done.
Qed.

(** [s] is what a connection still has to give. *)
Definition stream (fs : list (option (list byte) * Z * list byte)) (c : wsConn) (s : list byte) : Prop :=
  input c = frames fs ∧ (pings fs ≤ room c)%nat ∧ ∃ s', s = pending c ++ s' ∧ carries fs s'.

Lemma frames_cons k op p fs : frames ((k, op, p) :: fs) = write_frame k op p ++ frames fs.
Proof. done. Qed.

(** A turn on a frame that is neither a close nor an error. *)
Lemma turn_sent key ahead k op p fs c :
  (length p ≤ Z.to_nat maxFrameSize)%nat → input c = write_frame k op p ++ frames fs → (pings ((k, op, p) :: fs) ≤ room c)%nat →
  op = OpBinary ∨ op = OpText ∨ op = OpContinuation ∨ op = OpPong ∨ op = OpPing →
  ∃ c', read_frame key ahead c = (None, c') ∧ input c' = frames fs ∧ (pings fs ≤ room c')%nat ∧
    pending c' = if decide (op = OpPing ∨ op = OpPong) then pending c else p.
Proof.
  intros Hl Hi Hp Hop. pose proof (read_frame_input key ahead c) as Hr. rewrite Hi, next_sent in Hr; [|destruct Hop as [->|[->|[->|[-> | ->]]]]; done|done].
  assert ((pings fs ≤ room c)%nat ∧ (op = OpPing → ∃ r, room c = S r ∧ (pings fs ≤ r)%nat)) as [Hpg Hroom].
  { unfold pings in *. rewrite filter_cons in Hp. case_decide as Hd; cbn in Hd, Hp.
    - split; [lia|]. intros _. destruct (room c) as [|r]; [lia|]. exists r. split; [done|lia].
    - split; [done|]. by intros ->. }
  destruct Hop as [->|[->|[->|[-> | ->]]]]; cbn in Hr.
  1-4: destruct Hr as (c'&Hr&Hin&Hpe&_&Hro&_); exists c'; rewrite Hro; done.
  destruct (Hroom eq_refl) as (r&Hroom'&Hle). unfold writeControl, WriteMessage in Hr. rewrite Hroom' in Hr.
  destruct Hr as (c'&Hr&Hin&Hpe&_&Hro&_). exists c'. rewrite Hro. done.
Qed.

(** [Read] goes round until a frame brings data. *)
Lemma Read_fill ks n fs c s :
  stream fs c s → s ≠ [] → (length fs ≤ length ks)%nat →
  ∃ ks' fs' c', Read ks n c = Read ks' n c' ∧ pending c' ≠ [] ∧ stream fs' c' s ∧ (length fs' ≤ length fs)%nat.
Proof.
  revert ks c s. induction fs as [|[[k op] p] fs IH]; intros ks c s Hs Hne Hks;
    destruct (pending c) as [|x l] eqn:Hpe; try (exists ks; do 2 eexists; split_and!; [done|by rewrite Hpe|done|done]);
    destruct Hs as (Hi&Hp&s'&->&Hc); rewrite Hpe in *; cbn [app] in *.
  { by inversion Hc; subst. }
  destruct ks as [|[key ahead] ks]; cbn [length] in Hks; [lia|].
  assert (∃ s0, carries fs s0 ∧ (length p ≤ Z.to_nat maxFrameSize)%nat ∧
    ((op = OpPing ∨ op = OpPong) ∧ s' = s0 ∨ (op = OpBinary ∨ op = OpText ∨ op = OpContinuation) ∧ s' = p ++ s0))
    as (s0&Hc0&Hl&Hop) by (inversion Hc; subst; eexists; split_and!; eauto).
  destruct (turn_sent key ahead k op p fs c) as (c'&Hr&Hin&Hp'&Hpe'); [done|done|done|naive_solver|].
  assert (stream fs c' s') as Hs'.
  { split; [done|]. split; [done|]. exists s0. split; [|done]. rewrite Hpe', Hpe.
    destruct Hop as [[Hop ->]|[Hop ->]]; [by rewrite decide_True|]. rewrite decide_False; [done|].
    intros [->| ->]; by destruct Hop as [|[|]]. }
  destruct (IH ks c' s' Hs' Hne) as (ks'&fs'&c''&Hread&Hx&Hst&Hlen); [lia|].
  exists ks', fs', c''. split_and!; [|done|done|cbn; lia]. rewrite <- Hread. cbn [Read]. by rewrite Hpe, Hr.
Qed.

Lemma Read_stream ks n fs c s :
  stream fs c s → s ≠ [] → (0 < n)%nat → (length fs ≤ length ks)%nat →
  ∃ d s' fs' c', Read ks n c = Some (Ok d, c') ∧ s = d ++ s' ∧ d ≠ [] ∧ stream fs' c' s' ∧ (length fs' ≤ length fs)%nat.
Proof.
  intros Hs Hne Hn Hks. destruct (Read_fill ks n fs c s Hs Hne Hks) as (ks'&fs'&c'&->&Hpe&(Hi&Hp&s'&->&Hc)&Hl).
  exists (take n (pending c')), (drop n (pending c') ++ s'), fs', (set_pending (drop n (pending c')) c').
  split_and!; [|by rewrite app_assoc, take_drop| | |done].
  - destruct ks' as [|[]]; cbn; by destruct (pending c').
  - destruct n; [lia|]. by destruct (pending c').
  - split; [done|]. split; [done|]. by exists s'.
Qed.

(** After the data, [Read] reports the end of the connection. *)
Lemma Read_end ks n fs c :
  stream fs c [] → (length fs < length ks)%nat → ∃ e c', Read ks n c = Some (Err e, c').
Proof.
  revert ks c. induction fs as [|[[k op] p] fs IH]; intros ks c (Hi&Hp&s'&Hs&Hc) Hks;
    symmetry in Hs; apply app_eq_nil in Hs as [Hpe ->]; (destruct ks as [|[key ahead] ks]; cbn [length] in Hks; [lia|]);
    cbn [Read]; rewrite Hpe.
  { pose proof (read_frame_input key ahead c) as Hr. rewrite Hi in Hr. unfold next_frame in Hr. cbn [frames concat fmap list_fmap] in Hr.
    rewrite header_eof in Hr. destruct Hr as (c'&->&_). eauto. }
  assert (carries fs [] ∧ (length p ≤ Z.to_nat maxFrameSize)%nat ∧
    (((op = OpPing ∨ op = OpPong)) ∨ ((op = OpBinary ∨ op = OpText ∨ op = OpContinuation) ∧ p = []))) as (Hc0&Hl&Hop).
  { inversion Hc; subst; [|by split_and!; eauto..].
    match goal with H : _ ++ _ = [] |- _ => apply app_eq_nil in H as [-> ->] end. by split_and!; eauto. }
  destruct (turn_sent key ahead k op p fs c) as (c'&Hr&Hin&Hp'&Hpe'); [done|done|done|naive_solver|].
  rewrite Hr. apply IH; [|lia]. split; [done|]. split; [done|]. exists []. split; [|done]. rewrite app_nil_r, Hpe', Hpe.
  case_decide; [done|]. destruct Hop as [|[_ ->]]; done.
Qed.

Lemma reads_stream ks ns fs c s :
  stream fs c s → Forall (λ n, (0 < n)%nat) ns → (∀ j, (length fs < length (ks j))%nat) →
  ∃ s', s = (reads ks ns c).1 ++ s' ∧ (s' = [] ∨ (length ns ≤ length (reads ks ns c).1)%nat).
Proof.
  intros Hs Hns. revert fs c s Hs. induction Hns as [|n ns Hn Hns IH]; intros fs c s Hs Hks.
  { exists s. cbn. split; [done|]. right. lia. }
  cbn [reads]. destruct s as [|x s].
  { destruct (Read_end (ks (length ns)) n fs c Hs) as (e&c'&->); [done|]. exists []. cbn. by split; [|left]. }
  destruct (Read_stream (ks (length ns)) n fs c (x :: s) Hs) as (d&s'&fs'&c'&->&->&Hd&Hs'&Hl); [done|done|by apply Nat.lt_le_incl|].
  destruct (IH fs' c' s' Hs') as (s''&->&Hlen); [intros j; specialize (Hks j); lia|].
  destruct (reads ks ns c') as [ds c''] eqn:Hr. cbn [fst] in *. exists s''. split; [by rewrite app_assoc|].
  destruct Hlen as [->|Hlen]; [by left|right]. rewrite length_app. destruct d; [done|]. cbn [length]. lia.
Qed.

Lemma max_pos : (0 < Z.to_nat maxFrameSize)%nat.
Proof. unfold maxFrameSize. change (Z.shiftl 1 20) with 1048576. lia. Qed.

Lemma nothing_written (off : nat) p (c : wsConn) (e : option wsc_err) :
  (e = None → p = [] ) → (e ≠ None → room c = 0%nat) →
  out c = out c ++ frames [] ∧ carries [] (take 0 p) ∧ off = (off + 0)%nat ∧ (0 ≤ length p)%nat ∧ pings [] = 0%nat ∧
    (length (A := option (list byte) * Z * list byte) [] ≤ 0)%nat ∧ (e = None → 0%nat = length p) ∧ (e ≠ None → room c = 0%nat).
Proof.
  intros Hp Hr. split_and!; cbn; try done; try lia; [by rewrite app_nil_r|constructor|by intros ->%Hp].
Qed.

(** What [Write] puts on the connection: data frames of at most [maxFrameSize]
    bytes, or the first of them when the connection fails. *)
Lemma write_loop_spec fuel keys off p c n e c' :
  (length p ≤ fuel)%nat → write_loop fuel keys off p c = (n, e, c') →
  ∃ fs k, out c' = out c ++ frames fs ∧ carries fs (take k p) ∧ n = (off + k)%nat ∧ (k ≤ length p)%nat ∧ pings fs = 0%nat ∧
    (length fs ≤ k)%nat ∧ (e = None → k = length p) ∧ (e ≠ None → room c' = 0%nat).
Proof.
  revert off p c. induction fuel as [|fuel IH]; intros off p c Hl; cbn [write_loop].
  { destruct p; [|cbn in Hl; lia]. intros [= <- <- <-]. exists [], 0%nat. by apply nothing_written. }
  destruct p as [|x p]; [intros [= <- <- <-]; exists [], 0%nat; by apply nothing_written|].
  pose proof max_pos as Hm. set (m := Z.to_nat maxFrameSize) in *. assert (m = Z.to_nat maxFrameSize) as Hmeq by done. clearbody m.
  unfold WriteMessage. destruct (room c) as [|r] eqn:Hroom.
  { intros [= <- <- <-]. exists [], 0%nat. by apply nothing_written. }
  set (q := take m (x :: p)). set (key := if client c then _ else _). set (c1 := mkWsConn _ _ _ _ _ _).
  intros Hw. apply IH in Hw as (fs&k&Hout&Hc&->&Hk&Hpg&Hlen&Hok&Hr).
  2:{ rewrite length_drop. cbn [length] in *. lia. }
  assert (1 ≤ length q)%nat as Hq1 by (unfold q; rewrite length_take; cbn [length]; lia).
  exists ((key, OpBinary, q) :: fs), (length q + k)%nat. rewrite length_drop in Hk, Hok.
  assert (length q = m `min` length (x :: p))%nat as Hq by (unfold q; apply length_take).
  split_and!.
  - rewrite Hout, frames_cons, app_assoc. done.
  - replace (take (length q + k) (x :: p)) with (q ++ take k (drop m (x :: p))).
    + apply carries_data; [by left|rewrite Hq, Hmeq; lia|done].
    + assert (length q = m ∨ drop m (x :: p) = [] ∧ q = x :: p) as [->|[Hd Hqe]].
      { destruct (decide (m ≤ length (x :: p))%nat); [left; lia|right]. split; [apply drop_ge; lia|apply take_ge; lia]. }
      * unfold q. by rewrite take_take_drop.
      * rewrite Hd, take_nil, app_nil_r, Hqe. symmetry. apply take_ge. lia.
  - lia.
  - lia.
  - done.
  - cbn [length]. lia.
  - intros He%Hok. lia.
  - done.
Qed.

(** What is written on one side is the stream of the other, whichever plays the
    client. *)
Lemma write_stream keys p w w' b r rm cl :
  Write keys p w = (length p, None, w') → out w = [] → b ++ r = out w' →
  ∃ fs, stream fs (mkWsConn (Some b) r [] rm cl []) p ∧ (length fs ≤ length p)%nat.
Proof.
  intros Hw Ho Hin. destruct (write_loop_spec _ _ _ _ _ _ _ _ (le_n _) Hw) as (fs&k&Hout&Hc&_&_&Hpg&Hlen&Hk&_).
  rewrite (Hk eq_refl) in *. rewrite firstn_all in Hc. exists fs. split; [|done]. split; [|split].
  - unfold input. cbn. by rewrite Hin, Hout, Ho.
  - rewrite Hpg. cbn. lia.
  - by exists p.
Qed.

(** C26: A [Write] of any length on one end of a ws connection, in frames of at most
    1 MiB masked with whatever keys, comes out of the [Read]s of the other end
    as the same bytes: whatever the sizes of the buffers, whatever part of them
    the handshake's reader had already taken, and however far that reader reads
    ahead. *)
Theorem ws_stream_roundtrip keys p w w' b r rm cl ks ns :
  Write keys p w = (length p, None, w') → out w = [] → b ++ r = out w' →
  Forall (λ n, (0 < n)%nat) ns → (∀ j, (length p < length (ks j))%nat) →
  let d := (reads ks ns (mkWsConn (Some b) r [] rm cl [])).1 in
  (∃ rest, p = d ++ rest) ∧ ((length p < length ns)%nat → d = p).
Proof.
  intros Hw Ho Hin Hns Hks. destruct (write_stream keys p w w' b r rm cl Hw Ho Hin) as (fs&Hst&Hfs).
  destruct (reads_stream ks ns fs _ p Hst Hns) as (s'&Hp&Hs'); [intros j; specialize (Hks j); lia|]. cbn zeta.
  split; [by exists s'|]. intros Hlen. destruct Hs' as [->|Hs']; [by rewrite app_nil_r in Hp|].
  rewrite Hp in Hlen. rewrite length_app in Hlen. lia.
Qed.

(** A frame that declares more than 1 MiB ends the read with an error, before its
    payload is read. *)
Theorem oversized_frame_refused key h r c :
  maxFrameSize < h_length h → handleFrame key h r c = (Some (WcTooLarge (h_length h)), r, c).
Proof. intros H. unfold handleFrame. by destruct (Z.ltb_spec maxFrameSize (h_length h)); [|lia]. Qed.

(** A ping is answered with its own payload in a pong, and gives no data. *)
Lemma ping_answered key r h p m rest c :
  room c = S r → h = mkHeader OpPing (Z.of_nat (length p)) m → (length p ≤ Z.to_nat maxFrameSize)%nat →
  handleFrame key h (p ++ rest) c =
    (None, rest, mkWsConn (br c) (raw c)
       (out c ++ write_frame (if client c then Some key else None) OpPong (match m with Some m => Cipher p m | None => p end))
       r (client c) (pending c)).
Proof.
  intros Hr -> Hl. unfold handleFrame. cbn [h_length h_op h_mask].
  destruct (Z.ltb_spec maxFrameSize (Z.of_nat (length p))) as [Hx|_]; [pose proof max_pos; lia|].
  rewrite Nat2Z.id, read_full_app. cbn. unfold writeControl, WriteMessage. by rewrite Hr.
Qed.
End conn.

(** * The frames of RFC 6455 as a codec *)

(** The layout of [Ws] satisfies the laws: a header reader for it. *)
Definition rfc_header (s : list byte) : result io_err Header * list byte :=
  match read_full 2 s with
  | Err e => (Err e, [])
  | Ok (head, r) =>
      let b0 := b2z (nth 0 head x00) in
      let b1 := b2z (nth 1 head x00) in
      match Ws.read_length b1 r with
      | Err _ => (Err UnexpectedEOF, [])
      | Ok (len, r) =>
          if Z.land b1 128 =? 0 then (Ok (mkHeader (Z.land b0 15) len None), r)
          else match read_full 4 r with
               | Err e => (Err e, [])
               | Ok (key, r) => (Ok (mkHeader (Z.land b0 15) len (Some key)), r)
               end
      end
  end.

Definition four (k : list byte) : list byte := take 4 (k ++ [x00; x00; x00; x00]).
Definition rfc_cipher (p m : list byte) : list byte := Ws.mask m p.
Definition rfc_frame (k : option (list byte)) (op : Z) (p : list byte) : list byte :=
  Ws.encode_frame (four <$> k) true op p.

#[export] Instance rfc_laws : gobwas_laws rfc_header rfc_cipher rfc_frame.
Proof.
  split; [|done]. intros k op p rest Hop Hl. unfold rfc_frame, Ws.encode_frame, rfc_header.
  pose proof (Ws.first_byte op Hop) as H1. unfold Ws.first_byte_ok in H1. rewrite !andb_true_iff, !negb_true_iff in H1.
  destruct H1 as [[[[[[[H1 _] _] _] _] _] H7] _]. bool_to_prop.
  pose proof (Ws.length_field_range (length p)) as Hr.
  assert (Z.of_nat (length p) < 2 ^ 63) as Hlen.
  { revert Hl. unfold maxFrameSize. change (Z.shiftl 1 20) with 1048576. lia. }
  pose proof (λ b1 r, Ws.read_length_field (length p) b1 r Hlen) as Hrl.
  destruct (Ws.length_field (length p)) as [len ext]. cbn [fst snd] in *.
  pose proof (Ws.second_byte len Hr) as G. unfold Ws.second_byte_ok in G. rewrite !andb_true_iff, !negb_true_iff in G.
  destruct G as [[[[[G1 G2] G3] G4] G5] G6]. bool_to_prop.
  destruct k as [k|]; cbn [fmap option_fmap option_map app] in *;
    match goal with |- context [read_full 2 (?a :: ?b :: ?r)] => change (a :: b :: r) with ([a; b] ++ r) end;
    rewrite (read_full_app' 2) by done; cbn [nth]; rewrite !b2z_z2b, H1, ?G1, ?G2.
  - exists (Ws.mask (four k) p), (Some (four k)). rewrite <- app_assoc, Hrl by done.
    destruct (Z.eqb_spec (Z.land (Z.lor 128 len) 128) 0); [done|].
    rewrite <- app_assoc, (read_full_app' 4).
    2:{ unfold four. rewrite length_take, length_app. cbn [length]. lia. }
    rewrite H7. split_and!; [done|apply Ws.length_mask|apply Ws.mask_involutive].
  - exists p, None. rewrite <- app_assoc, Hrl by done. rewrite G6. cbn [Z.eqb]. by rewrite H7.
Qed.

Definition demo_keys (off : nat) : list byte := [x0a; x0b; x0c; z2b (Z.of_nat off)].
Definition demo_payload : list byte := [x68; x65; x6c; x6c; x6f].
Definition demo_writer : wsConn := newClientConn None [] 2.
Definition demo_wire : list byte := out (Write rfc_frame demo_keys demo_payload demo_writer).2.

(** The client writes; the server's handshake reader already holds 3 bytes of the
    frame, and reads on one byte ahead. *)
Lemma ws_stream_roundtrip_witness :
  (reads rfc_header rfc_cipher rfc_frame (λ _, replicate 6 ([], 1%nat)) [2; 2; 2; 2; 2; 2]%nat
     (mkWsConn (Some (take 3 demo_wire)) (drop 3 demo_wire) [] 0 false [])).1 = demo_payload.
Proof.
  apply (ws_stream_roundtrip rfc_header rfc_cipher rfc_frame demo_keys demo_payload demo_writer
    (Write rfc_frame demo_keys demo_payload demo_writer).2 (take 3 demo_wire) (drop 3 demo_wire) 0 false
    (λ _, replicate 6 ([], 1%nat)) [2; 2; 2; 2; 2; 2]%nat).
  - vm_compute. reflexivity.
  - reflexivity.
  - apply take_drop.
  - repeat (constructor; [lia|]). constructor.
  - intros j. cbn. lia.
  - cbn. lia.
Defined.

Lemma oversized_frame_refused_witness :
  handleFrame rfc_cipher rfc_frame [] (mkHeader OpBinary (2 ^ 40) None) [x01] demo_writer =
    (Some (WcTooLarge (2 ^ 40)), [x01], demo_writer).
Proof. apply (oversized_frame_refused rfc_cipher rfc_frame). vm_compute. reflexivity. Defined.
