(* ===== verification/Pluginer.v ===== *)
(** The plugin framework (pluginer): the registries of server types and plugins,
    the start of an instance from its input (context, set-up of the plugins,
    servers, listeners), its stop, the shutdown callbacks, the goroutines that
    serve and collect errors, and the trap of interrupts. *)
From S2P Require Import Prelude.
From Stdlib Require Import ZArith Lia.

(** * Calls *)

(** How a Go call ends: it returns, panics, or never returns. *)
Inductive outcome (A : Type) : Type :=
  | Ret (a : A)
  | Panic
  | Hang.
Arguments Ret {A} a.
Arguments Panic {A}.
Arguments Hang {A}.

#[export] Instance outcome_ret : MRet outcome := @Ret.
#[export] Instance outcome_bind : MBind outcome := λ A B k m,
  match m with Ret a => k a | Panic => Panic | Hang => Hang end.

(** A Go [error]. *)
Definition error : Type := option string.

(** [for _, a := range l { if err := f(a); err != nil { return err } }] *)
Fixpoint each {A S} (f : A → S → outcome (S * error)) (l : list A) (s : S) : outcome (S * error) :=
  match l with
  | [] => Ret (s, None)
  | a :: l =>
      '(s', e) ← f a s;
      match e with Some e => Ret (s', Some e) | None => each f l s' end
  end.

(** * Data *)

(** The configuration as the framework sees it. *)
Record Host := mkHost { Network : string; Address : string; h_Plugin : list string }.
Record Service := mkService { Name : string; ServiceType : string; s_Host : list Host }.
Record Config := mkConfig { c_Service : list Service }.

Record Input := mkInput { Filepath : string; Contents : list byte; ServerTypeName : string }.

(** What a plugin's set-up is told; the instance it belongs to stays hidden
    behind the methods below. *)
Record Controller := mkController {
  ServerType_ : string;
  Key : string;
  ServerBlockNetwork : string;
  ServerBlockAddress : string;
}.

(** The callbacks of an instance. *)
Record Hooks (Cb : Type) := mkHooks {
  h_OnFirstStartup : list Cb;
  h_OnStartup : list Cb;
  h_OnRestart : list Cb;
  h_OnRestartFailed : list Cb;
  h_OnShutdown : list Cb;
  h_OnFinalShutdown : list Cb;
}.
Arguments mkHooks {Cb}.
Arguments h_OnFirstStartup {Cb}.
Arguments h_OnStartup {Cb}.
Arguments h_OnRestart {Cb}.
Arguments h_OnRestartFailed {Cb}.
Arguments h_OnShutdown {Cb}.
Arguments h_OnFinalShutdown {Cb}.

Definition no_hooks {Cb} : Hooks Cb := mkHooks [] [] [] [] [] [].

Section controller.
Context {Cb : Type}.
Implicit Types (fn : Cb) (h : Hooks Cb).

Definition OnFirstStartup fn h : Hooks Cb :=
  mkHooks (h_OnFirstStartup h ++ [fn]) (h_OnStartup h) (h_OnRestart h) (h_OnRestartFailed h) (h_OnShutdown h) (h_OnFinalShutdown h).
Definition OnStartup fn h : Hooks Cb :=
  mkHooks (h_OnFirstStartup h) (h_OnStartup h ++ [fn]) (h_OnRestart h) (h_OnRestartFailed h) (h_OnShutdown h) (h_OnFinalShutdown h).
Definition OnRestart fn h : Hooks Cb :=
  mkHooks (h_OnFirstStartup h) (h_OnStartup h) (h_OnRestart h ++ [fn]) (h_OnRestartFailed h) (h_OnShutdown h) (h_OnFinalShutdown h).
Definition OnRestartFailed fn h : Hooks Cb :=
  mkHooks (h_OnFirstStartup h) (h_OnStartup h) (h_OnRestart h) (h_OnRestartFailed h ++ [fn]) (h_OnShutdown h) (h_OnFinalShutdown h).
Definition OnShutdown fn h : Hooks Cb :=
  mkHooks (h_OnFirstStartup h) (h_OnStartup h) (h_OnRestart h) (h_OnRestartFailed h) (h_OnShutdown h ++ [fn]) (h_OnFinalShutdown h).
Definition OnFinalShutdown fn h : Hooks Cb :=
  mkHooks (h_OnFirstStartup h) (h_OnStartup h) (h_OnRestart h) (h_OnRestartFailed h) (h_OnShutdown h) (h_OnFinalShutdown h ++ [fn]).
End controller.

(** The interfaces the framework calls: [Context], [Server], the sockets it
    closes, the callbacks. [W] is everything outside the framework. [serve_ends]
    says whether the calls of [Serve] and [ServePacket] of a server return once
    its sockets are closed. *)
Class Components (W Ctx Srv Sock Cb : Type) := {
  GetConfig : Ctx → Config;
  MakeServers : Ctx → W → outcome (W * result string (list Srv));
  Listen : Srv → W → outcome (W * result string (option Sock));
  ListenPacket : Srv → W → outcome (W * result string (option Sock));
  Close : Sock → W → W;
  serve_ends : Srv → option Sock → option Sock → bool;
  call : Cb → W → W * error;
}.

Section pluginer.
Context {W Ctx Srv Sock Cb : Type} `{!Components W Ctx Srv Sock Cb}.

Record ServerListener := mkServerListener {
  sl_server : Srv;
  sl_listener : option Sock;
  sl_packet : option Sock;
}.

(** [i_wg]: the servers whose goroutines the wait group counts. *)
Record Instance := mkInstance {
  i_serverType : string;
  i_input : Input;
  i_wg : list ServerListener;
  i_servers : list ServerListener;
  i_hooks : Hooks Cb;
  i_context : option Ctx;
}.

(** A set-up may register callbacks and change the context; it belongs to another
    package and reaches nothing else of the instance. *)
Definition SetupFunc : Type :=
  Controller → Hooks Cb * Ctx * W → outcome (Hooks Cb * Ctx * W * error).

Record Plugin := mkPlugin { ServerType : string; Action : SetupFunc }.

Record ServerTypeDef := mkServerType {
  Directives : list string;
  DefaultInput : Input;
  NewContext : Instance → W → outcome (Ctx * W);
}.

(** The registries, filled by the packages' initialisation. *)
Record Registry := mkRegistry {
  serverTypes : gmap string ServerTypeDef;
  Plugins : gmap string (gmap string Plugin);
}.

(** The process: the instances made so far as a heap, the list [instances], and
    whether [shutdownCallbacksOnce] is used up. *)
Record Proc := mkProc {
  pr_world : W;
  pr_heap : list Instance;
  pr_instances : list nat;
  pr_once : bool;
}.

(** * The registries *)

Definition RegisterServerType (typeName : string) (srv : ServerTypeDef) (r : Registry) : outcome Registry :=
  match serverTypes r !! typeName with
  | Some _ => Panic
  | None => Ret (mkRegistry (<[typeName := srv]> (serverTypes r)) (Plugins r))
  end.

Definition RegisterPlugin (name : string) (plugin : Plugin) (r : Registry) : outcome Registry :=
  if String.eqb name "" then Panic
  else
    let ps := default ∅ (Plugins r !! ServerType plugin) in
    match ps !! name with
    | Some _ => Panic
    | None => Ret (mkRegistry (serverTypes r) (<[ServerType plugin := <[name := plugin]> ps]> (Plugins r)))
    end.

Definition DirectiveAction (r : Registry) (serverType dir : string) : result string SetupFunc :=
  match Plugins r !! serverType ≫= lookup dir with
  | Some p => Ok (Action p)
  | None =>
      match Plugins r !! "" ≫= lookup dir with
      | Some p => Ok (Action p)
      | None => Err ("no action found for directive '" +:+ dir +:+ "' with server type '" +:+ serverType
                     +:+ "' (missing a plugin?)")
      end
  end.

(** * Start *)

Definition controller_of (serverType : string) (host : Host) : Controller :=
  mkController serverType (Network host +:+ "://" +:+ Address host) (Network host) (Address host).

Definition run_directive (r : Registry) (serverType : string) (host : Host) (plugin : string)
    (s : Hooks Cb * Ctx * W) : outcome (Hooks Cb * Ctx * W * error) :=
  match DirectiveAction r serverType plugin with
  | Err e => Ret (s, Some e)
  | Ok setup => setup (controller_of serverType host) s
  end.

Definition executeDirectives (r : Registry) (serverType : string) (s : Hooks Cb * Ctx * W)
    : outcome (Hooks Cb * Ctx * W * error) :=
  each (λ srv s,
    if negb (String.eqb (ServiceType srv) serverType) then Ret (s, None)
    else each (λ host s, each (run_directive r serverType host) (h_Plugin host) s) (s_Host srv) s)
    (c_Service (GetConfig s.1.2)) s.

(** [ValidateAndExecuteDirectives]; the instance it returns has its context and
    callbacks. *)
Definition ValidateAndExecuteDirectives (r : Registry) (inst : Instance) (w : W)
    : outcome (Instance * W * error) :=
  match serverTypes r !! ServerTypeName (i_input inst) with
  | None => Ret (inst, w, Some "no server types plugged in"%string)
  | Some stype =>
      '(ctx, w) ← NewContext stype inst w;
      '(h, ctx, w, err) ← executeDirectives r (i_serverType inst) (i_hooks inst, ctx, w);
      Ret (mkInstance (i_serverType inst) (i_input inst) (i_wg inst) (i_servers inst) h (Some ctx), w, err)
  end.

(** The first loop of [startServers]: the listeners, appended to [inst.servers] as
    they are opened. *)
Fixpoint listen_all (serverList : list Srv) (servers : list ServerListener) (w : W)
    : outcome (W * list ServerListener * error) :=
  match serverList with
  | [] => Ret (w, servers, None)
  | s :: serverList =>
      '(w, ln) ← Listen s w;
      match ln with
      | Err e => Ret (w, servers, Some ("Listen: " +:+ e))
      | Ok ln =>
          '(w, pc) ← ListenPacket s w;
          match pc with
          | Err e => Ret (w, servers, Some ("ListenPacket: " +:+ e))
          | Ok pc => listen_all serverList (servers ++ [mkServerListener s ln pc]) w
          end
      end
  end.

(** [startServers]; the goroutines it starts are counted in [i_wg], see
    [gapply] for their life. *)
Definition startServers (serverList : list Srv) (inst : Instance) (w : W)
    : outcome (Instance * W * error) :=
  '(w, servers, err) ← listen_all serverList (i_servers inst) w;
  let wg := match err with Some _ => i_wg inst | None => i_wg inst ++ servers end in
  Ret (mkInstance (i_serverType inst) (i_input inst) wg servers (i_hooks inst) (i_context inst), w, err).

(** [startWithListenerFds]: the instance is registered first, whatever follows. *)
Definition startWithListenerFds (inst : Instance) (p : Proc) : outcome (Proc * nat * error) :=
  let i := length (pr_heap p) in
  match i_context inst with
  | None => Panic
  | Some ctx =>
      '(w, made) ← MakeServers ctx (pr_world p);
      match made with
      | Err e => Ret (mkProc w (pr_heap p ++ [inst]) (pr_instances p ++ [i]) (pr_once p), i, Some e)
      | Ok serverList =>
          '(inst, w, err) ← startServers serverList inst w;
          Ret (mkProc w (pr_heap p ++ [inst]) (pr_instances p ++ [i]) (pr_once p), i, err)
      end
  end.

Definition set_world (w : W) (p : Proc) : Proc := mkProc w (pr_heap p) (pr_instances p) (pr_once p).

(** [Start]: its two results are the location of the instance, if there is
    one, and the error. *)
Definition Start (r : Registry) (yamlfile : Input) (p : Proc) : outcome (Proc * option nat * error) :=
  let inst := mkInstance (ServerTypeName yamlfile) yamlfile [] [] no_hooks None in
  '(inst, w, err) ← ValidateAndExecuteDirectives r inst (pr_world p);
  let p := set_world w p in
  match err with
  | Some e => Ret (p, None, Some e)
  | None =>
      '(p, i, err) ← startWithListenerFds inst p;
      Ret (p, Some i, err)
  end.

(** * Stop *)

Definition close_opt (k : option Sock) (w : W) : W :=
  match k with Some k => Close k w | None => w end.

Definition close_servers (sls : list ServerListener) (w : W) : W :=
  foldl (λ w sl, close_opt (sl_packet sl) (close_opt (sl_listener sl) w)) w sls.

Fixpoint run_callbacks (fns : list Cb) (w : W) : W * list string :=
  match fns with
  | [] => (w, [])
  | fn :: fns =>
      let '(w, err) := call fn w in
      let '(w, errs) := run_callbacks fns w in
      (w, match err with Some e => e :: errs | None => errs end)
  end.

Definition ShutdownCallbacks (inst : Instance) (w : W) : W * list string :=
  let '(w, errs) := run_callbacks (h_OnShutdown (i_hooks inst)) w in
  let '(w, errs') := run_callbacks (h_OnFinalShutdown (i_hooks inst)) w in
  (w, errs ++ errs').

(** [i.wg.Wait()] after the sockets are closed. *)
Definition sl_ends (sl : ServerListener) : bool := serve_ends (sl_server sl) (sl_listener sl) (sl_packet sl).

Definition Wait (inst : Instance) : outcome Instance :=
  if forallb sl_ends (i_wg inst)
  then Ret (mkInstance (i_serverType inst) (i_input inst) [] (i_servers inst) (i_hooks inst) (i_context inst))
  else Hang.

(** [Stop]; a nil instance is dereferenced. *)
Definition Stop (i : nat) (p : Proc) : outcome Proc :=
  match pr_heap p !! i with
  | None => Panic
  | Some inst =>
      let w := close_servers (i_servers inst) (pr_world p) in
      let '(w, _) := ShutdownCallbacks inst w in
      inst ← Wait inst;
      Ret (mkProc w (<[i := inst]> (pr_heap p)) (pr_instances p) (pr_once p))
  end.

(** * The end of the process (sigtrap.go) *)

Fixpoint all_callbacks (insts : list Instance) (w : W) : W * list string :=
  match insts with
  | [] => (w, [])
  | inst :: insts =>
      let '(w, errs) := ShutdownCallbacks inst w in
      let '(w, errs') := all_callbacks insts w in
      (w, errs ++ errs')
  end.

Definition allShutdownCallbacks (p : Proc) : W * list string :=
  all_callbacks (omap (λ i, pr_heap p !! i) (pr_instances p)) (pr_world p).

Definition executeShutdownCallbacks (p : Proc) : Proc * Z :=
  if pr_once p then (p, 0)
  else
    let '(w, errs) := allShutdownCallbacks p in
    (mkProc w (pr_heap p) (pr_instances p) true, match errs with [] => 0 | _ => 4 end).

(** [TrapSignalsCrossPlatform]: the count of interrupts, the goroutines that are to
    run the callbacks, and the exit code once there is one. *)
Record Trap := mkTrap { t_i : nat; t_pending : nat; t_proc : Proc; t_exit : option Z }.

Inductive tevent := TInterrupt | TShutdown.

Definition run_exit (fs : list (W → W)) (p : Proc) : Proc :=
  set_world (foldl (λ w f, f w) (pr_world p) fs) p.

Definition TrapSignalsCrossPlatform (OnProcessExit : list (W → W)) (ev : tevent) (t : Trap) : option Trap :=
  match t_exit t, ev with
  | Some _, _ => None
  | None, TInterrupt =>
      let p := run_exit OnProcessExit (t_proc t) in
      if Nat.ltb 0 (t_i t) then Some (mkTrap (t_i t) (t_pending t) p (Some 2))
      else Some (mkTrap (S (t_i t)) (S (t_pending t)) p None)
  | None, TShutdown =>
      match t_pending t with
      | O => None
      | S n => let '(p, code) := executeShutdownCallbacks (t_proc t) in Some (mkTrap (t_i t) n p (Some code))
      end
  end.

End pluginer.

Arguments ServerListener : clear implicits.
Arguments Instance : clear implicits.
Arguments Plugin : clear implicits.
Arguments Registry : clear implicits.
Arguments Proc : clear implicits.

(** * The goroutines of [startServers] *)

(** Serving, about to send its result, about to run its deferred calls, gone. *)
Inductive gphase := GServing | GSend (e : error) | GDefer | GDone.

(** The goroutine that waits for the others and then stops the collector. *)
Inductive sphase := SWait | SSend | SGone.

Record gos := mkGos {
  g_serve : list gphase;
  g_cap : nat;                (* the capacity of [errChan] *)
  g_chan : list error;
  g_logged : list error;      (* what the collector has received *)
  g_drain : bool;             (* the collector is there *)
  g_stop : sphase;
}.

Inductive gevent :=
  | EReturn (k : nat) (e : error)
  | ESend (k : nat)
  | EDone (k : nat)
  | ECollect
  | EWaited
  | EStop.

#[export] Instance gphase_eq_dec : EqDecision gphase.
Proof. solve_decision. Defined.

Definition set_serve (k : nat) (ph : gphase) (g : gos) : gos :=
  mkGos (<[k := ph]> (g_serve g)) (g_cap g) (g_chan g) (g_logged g) (g_drain g) (g_stop g).

Definition is_done (ph : gphase) : bool := match ph with GDone => true | _ => false end.

Definition gapply (ev : gevent) (g : gos) : option gos :=
  match ev with
  | EReturn k e =>
      match g_serve g !! k with Some GServing => Some (set_serve k (GSend e) g) | _ => None end
  | ESend k =>
      match g_serve g !! k with
      | Some (GSend e) =>
          if Nat.ltb (length (g_chan g)) (g_cap g)
          then Some (mkGos (<[k := GDefer]> (g_serve g)) (g_cap g) (g_chan g ++ [e]) (g_logged g) (g_drain g) (g_stop g))
          else None
      | _ => None
      end
  | EDone k =>
      match g_serve g !! k with Some GDefer => Some (set_serve k GDone g) | _ => None end
  | ECollect =>
      match g_drain g, g_chan g with
      | true, e :: es => Some (mkGos (g_serve g) (g_cap g) es (g_logged g ++ [e]) true (g_stop g))
      | _, _ => None
      end
  | EWaited =>
      match g_stop g, forallb is_done (g_serve g) with
      | SWait, true => Some (mkGos (g_serve g) (g_cap g) (g_chan g) (g_logged g) (g_drain g) SSend)
      | _, _ => None
      end
  | EStop =>
      match g_stop g, g_drain g with
      | SSend, true => Some (mkGos (g_serve g) (g_cap g) (g_chan g) (g_logged g) false SGone)
      | _, _ => None
      end
  end.

Fixpoint grun (evs : list gevent) (g : gos) : option gos :=
  match evs with
  | [] => Some g
  | ev :: evs => g' ← gapply ev g; grun evs g'
  end.

(** Two goroutines for each of [n] servers, a channel of capacity [n]. *)
Definition gos0 (n : nat) : gos := mkGos (replicate (2 * n) GServing) n [] [] true SWait.

Definition Contains (s sub : string) : bool :=
  (fix go (s : string) : bool :=
     String.prefix sub s || match s with EmptyString => false | String _ s => go s end) s.

(** What the collector writes to the log for a result. *)
Definition log_line (err : error) : option string :=
  match err with
  | Some e => if Contains e "use of closed network connection" then None else Some e
  | None => None
  end.

Definition logs (g : gos) : list string := omap log_line (g_logged g).

(** Every goroutine of the instance is gone. *)
Definition finished (g : gos) : bool :=
  forallb is_done (g_serve g) && negb (g_drain g) && match g_stop g with SGone => true | _ => false end.

(** * What the framework relies on *)

Section laws.
Context {W Ctx Srv Sock Cb : Type} `{!Components W Ctx Srv Sock Cb} `{Countable Sock}.

(** The sockets a successful listening call opens. *)
Definition opened (r : result string (option Sock)) : gset Sock :=
  match r with Ok (Some k) => {[ k ]} | _ => ∅ end.

(** [open]: the sockets that are open. A listening call opens the one it returns,
    [Close] closes its own, and nothing else touches them. *)
Class SocketLaws (open : W → gset Sock) : Prop := {
  listen_open s w w' r : Listen s w = Ret (w', r) → opened r ## open w ∧ open w' = opened r ∪ open w;
  listen_packet_open s w w' r : ListenPacket s w = Ret (w', r) → opened r ## open w ∧ open w' = opened r ∪ open w;
  close_open k w : open (Close k w) = open w ∖ {[ k ]};
  make_open ctx w w' r : MakeServers ctx w = Ret (w', r) → open w' = open w;
  call_open fn w : open (call fn w).1 = open w;
}.

(** The same for the contexts and set-ups of the registered packages. *)
Definition quiet (open : W → gset Sock) (r : Registry W Ctx Srv Sock Cb) : Prop :=
  (∀ name st inst w ctx w', serverTypes r !! name = Some st → NewContext st inst w = Ret (ctx, w') → open w' = open w) ∧
  (∀ st dir f c h ctx w h' ctx' w' e, DirectiveAction r st dir = Ok f →
     f c (h, ctx, w) = Ret (h', ctx', w', e) → open w' = open w).

Definition opt_sock (k : option Sock) : gset Sock := match k with Some k => {[ k ]} | None => ∅ end.
Definition sl_socks (sl : ServerListener Srv Sock) : gset Sock := opt_sock (sl_listener sl) ∪ opt_sock (sl_packet sl).
Definition socks (sls : list (ServerListener Srv Sock)) : gset Sock := ⋃ (sl_socks <$> sls).
End laws.

(** * The registries *)

Section registry.
Context {W Ctx Srv Sock Cb : Type} `{!Components W Ctx Srv Sock Cb}.
Implicit Types (r : Registry W Ctx Srv Sock Cb).

Lemma RegisterPlugin_action name pl r r' :
  RegisterPlugin name pl r = Ret r' →
  DirectiveAction r' (ServerType pl) name = Ok (Action pl) ∧
  ∀ st dir, (st, dir) ≠ (ServerType pl, name) → ServerType pl ≠ ""%string ∨ dir ≠ name →
    DirectiveAction r' st dir = DirectiveAction r st dir.
Proof.
  unfold RegisterPlugin, DirectiveAction. intros Hr. case_match; [done|]. case_match eqn:Hn; [done|].
  simplify_eq/=. split; [by rewrite lookup_insert_eq; simpl; rewrite lookup_insert_eq|].
  assert (∀ st dir, (st, dir) ≠ (ServerType pl, name) →
    <[ServerType pl:=<[name:=pl]> (default ∅ (Plugins r !! ServerType pl))]> (Plugins r) !! st ≫= lookup dir
    = Plugins r !! st ≫= lookup dir) as Hl.
  { intros st dir Hne. destruct (decide (st = ServerType pl)) as [->|].
    - rewrite lookup_insert_eq. simpl. rewrite lookup_insert_ne by congruence.
      by destruct (Plugins r !! ServerType pl).
    - by rewrite lookup_insert_ne. }
  intros st dir Hne Hd. rewrite Hl by done. rewrite Hl by (destruct Hd; congruence). done.
Qed.
End registry.

(** * Loops *)

Section each.
Context {A S : Type}.
Implicit Types (f : A → S → outcome (S * error)).

Lemma each_app f l1 l2 s :
  each f (l1 ++ l2) s =
  ('(s', e) ← each f l1 s; match e with Some e => Ret (s', Some e) | None => each f l2 s' end).
Proof.
  revert s. induction l1 as [|a l1 IH]; intros s; simpl; [done|].
  destruct (f a s) as [[s' [e|]]| |]; simpl; auto.
Qed.

Lemma each_ext f g l s : (∀ a s, f a s = g a s) → each f l s = each g l s.
Proof.
  intros He. revert s. induction l as [|a l IH]; intros s; simpl; [done|].
  rewrite He. destruct (g a s) as [[s' [e|]]| |]; simpl; auto.
Qed.

Lemma each_bind {B} f (g : B → list A) l s :
  each (λ b s, each f (g b) s) l s = each f (concat (g <$> l)) s.
Proof.
  revert s. induction l as [|b l IH]; intros s; simpl; [done|].
  rewrite each_app. destruct (each f (g b) s) as [[s' [e|]]| |]; simpl; auto.
Qed.

Lemma each_fmap {B} f (g : B → A) l s : each f (g <$> l) s = each (λ b, f (g b)) l s.
Proof.
  revert s. induction l as [|b l IH]; intros s; simpl; [done|].
  destruct (f (g b) s) as [[s' [e|]]| |]; simpl; auto.
Qed.

(** A property of the state that every turn keeps is kept by the loop. *)
Lemma each_invariant f (P : S → Prop) l s s' e :
  (∀ a s s' e, a ∈ l → P s → f a s = Ret (s', e) → P s') → P s → each f l s = Ret (s', e) → P s'.
Proof.
  revert s. induction l as [|a l IH]; intros s Hk Hs; simpl; [by intros [= <- <-]|].
  destruct (f a s) as [[s1 [e1|]]| |] eqn:Hf; simpl; [intros [= <- <-]| |done|done].
  - eapply Hk; [|done|done]. left.
  - intros He. eapply IH; [|eapply Hk; [left|done|done]|done].
    intros. eapply Hk; [by right|done|done].
Qed.

(** Where a loop without panics ends: after all its turns, or in the first that
    fails. *)
Lemma each_first_error f l s s' e :
  each f l s = Ret (s', e) →
  match e with
  | None => True
  | Some e => ∃ l1 a l2 s1, l = l1 ++ a :: l2 ∧ each f l1 s = Ret (s1, None) ∧ f a s1 = Ret (s', Some e)
  end.
Proof.
  revert s. induction l as [|a l IH]; intros s; simpl; [by intros [= <- <-]|].
  destruct (f a s) as [[s1 [e1|]]| |] eqn:Hf; simpl; [intros [= <- <-]| |done|done].
  - by exists [], a, l, s.
  - intros He. specialize (IH _ He). destruct e as [e|]; [|done].
    destruct IH as (l1 & a' & l2 & s2 & -> & Hl & Ha). exists (a :: l1), a', l2, s2.
    split; [done|]. split; [|done]. simpl. by rewrite Hf.
Qed.
End each.

(** * The set-up of the plugins *)

Section directives.
Context {W Ctx Srv Sock Cb : Type} `{!Components W Ctx Srv Sock Cb}.
Implicit Types (r : Registry W Ctx Srv Sock Cb).

(** The uses of plugins a configuration makes for a type of server, in order. *)
Definition host_directives (host : Host) : list (Host * string) := (λ d, (host, d)) <$> h_Plugin host.
Definition directives (serverType : string) (cfg : Config) : list (Host * string) :=
  concat ((λ srv, if String.eqb (ServiceType srv) serverType then concat (host_directives <$> s_Host srv) else [])
          <$> c_Service cfg).

Lemma executeDirectives_each r serverType h ctx w :
  executeDirectives r serverType (h, ctx, w) =
  each (λ hd, run_directive r serverType hd.1 hd.2) (directives serverType (GetConfig ctx)) (h, ctx, w).
Proof.
  unfold executeDirectives, directives. rewrite <- each_bind. apply each_ext. intros srv s.
  destruct (String.eqb _ _); simpl; [|done].
  rewrite <- each_bind. apply each_ext. intros host s1.
  unfold host_directives. by rewrite each_fmap.
Qed.

(** The set-ups run in the order of the configuration, once for every use of
    a plugin by a host of a service of the instance's own type and with that
    host's key; they stop at the first plugin that is not registered or whose
    set-up fails, and when they all succeed every plugin was found. *)
Theorem executeDirectives_spec r serverType h ctx w h' ctx' w' err :
  executeDirectives r serverType (h, ctx, w) = Ret (h', ctx', w', err) →
  let ds := directives serverType (GetConfig ctx) in
  each (λ hd, run_directive r serverType hd.1 hd.2) ds (h, ctx, w) = Ret (h', ctx', w', err) ∧
  match err with
  | None => ∀ host d, (host, d) ∈ ds → ∃ setup, DirectiveAction r serverType d = Ok setup
  | Some e => ∃ ds1 host d ds2 s1, ds = ds1 ++ (host, d) :: ds2 ∧
      each (λ hd, run_directive r serverType hd.1 hd.2) ds1 (h, ctx, w) = Ret (s1, None) ∧
      ((DirectiveAction r serverType d = Err e ∧ s1 = (h', ctx', w')) ∨
       ∃ setup, DirectiveAction r serverType d = Ok setup ∧
         setup (controller_of serverType host) s1 = Ret (h', ctx', w', Some e))
  end.
Proof.
  rewrite executeDirectives_each. intros He ds. split; [done|]. destruct err as [e|].
  - apply each_first_error in He as (ds1 & [host d] & ds2 & s1 & Hds & Hl & Ha).
    exists ds1, host, d, ds2, s1. split; [done|]. split; [done|].
    unfold run_directive in Ha. simpl in Ha. destruct (DirectiveAction r serverType d) as [setup|e'] eqn:Hd.
    + right. by exists setup.
    + left. destruct s1 as [[??]?]. by simplify_eq.
  - intros host d (ds1 & ds2 & Hds)%list_elem_of_split. unfold ds in *. rewrite Hds, each_app in He.
    destruct (each _ ds1 _) as [[s1 [e|]]| |] eqn:H1; [done| |done|done].
    revert He. cbn [each mbind outcome_bind]. unfold run_directive. cbn [fst snd].
    destruct (DirectiveAction r serverType d) as [setup|e]; [by eexists|by intros [=]].
Qed.
End directives.

(** * Sockets *)

Section sockets.
Context {W Ctx Srv Sock Cb : Type} `{!Components W Ctx Srv Sock Cb} `{Countable Sock}.
Context (open : W → gset Sock) `{!SocketLaws open}.
Implicit Types (r : Registry W Ctx Srv Sock Cb) (p : Proc W Ctx Srv Sock Cb).

Lemma opened_opt (k : option Sock) : opened (Ok k) = opt_sock k.
Proof. by destruct k. Qed.

Lemma socks_snoc (sls : list (ServerListener Srv Sock)) sl : socks (sls ++ [sl]) = socks sls ∪ sl_socks sl.
Proof. unfold socks. rewrite fmap_app, union_list_app_L. simpl. set_solver. Qed.

Lemma opened_step (X L P E S : gset Sock) :
  L ## X → P ## L ∪ X → E ∪ S ## P ∪ (L ∪ X) → E ## S →
  E ∪ S ∪ (P ∪ (L ∪ X)) = E ∪ (L ∪ P ∪ S) ∪ X ∧ E ∪ (L ∪ P ∪ S) ## X ∧ E ## L ∪ P ∪ S.
Proof. intros. set_solver. Qed.

(** What the listening loop opens: the sockets of the servers it records, and at
    most the listener of the server whose packet socket failed. *)
Lemma listen_all_open serverList servers w w' servers' err :
  listen_all serverList servers w = Ret (w', servers', err) →
  socks servers ⊆ open w →
  ∃ new extra,
    servers' = servers ++ new ∧
    open w' = extra ∪ socks new ∪ open w ∧
    extra ∪ socks new ## open w ∧ extra ## socks new ∧
    (sl_server <$> new) `prefix_of` serverList ∧
    match err with
    | None => extra = ∅ ∧ sl_server <$> new = serverList
    | Some _ => length new < length serverList
    end%nat.
Proof.
  revert servers w. induction serverList as [|s l IH]; intros servers w; cbn [listen_all].
  { intros [= <- <- <-] _. exists [], ∅. rewrite app_nil_r. cbn. set_solver. }
  destruct (Listen s w) as [[w1 ln]| |] eqn:H1; cbn [mbind outcome_bind]; [|done|done].
  apply (listen_open (open := open)) in H1 as [Hd1 Ho1]. destruct ln as [ln|e].
  2:{ intros [= <- <- <-] _. exists [], ∅. rewrite app_nil_r. simpl in *. rewrite Ho1.
      change (socks []) with (∅ : gset Sock).
      split_and!; [done|clear; set_solver..|apply prefix_nil|lia]. }
  destruct (ListenPacket s w1) as [[w2 pc]| |] eqn:H2; cbn [mbind outcome_bind]; [|done|done].
  apply (listen_packet_open (open := open)) in H2 as [Hd2 Ho2]. destruct pc as [pc|e].
  2:{ intros [= <- <- <-] Hs. exists [], (opt_sock ln). rewrite app_nil_r, opened_opt in *. simpl in *.
      rewrite Ho2, Ho1. change (socks []) with (∅ : gset Sock).
      split_and!; [done|clear -Hd1; set_solver..|apply prefix_nil|lia]. }
  intros Hl Hs. rewrite !opened_opt in *. apply IH in Hl as (new & extra & -> & Ho & Hd & Hde & Hpre & He).
  2:{ rewrite socks_snoc. unfold sl_socks. simpl. rewrite Ho2, Ho1. clear -Hs. set_solver. }
  exists (mkServerListener s ln pc :: new), extra. rewrite <- app_assoc. split; [done|].
  assert (socks (mkServerListener s ln pc :: new) = opt_sock ln ∪ opt_sock pc ∪ socks new) as -> by done.
  rewrite Ho2, Ho1 in *. destruct (opened_step (open w) (opt_sock ln) (opt_sock pc) extra (socks new)) as (H3 & H4 & H5); [done..|].
  rewrite Ho. cbn. split_and!; [done..|by apply prefix_cons|].
  destruct err; [lia|]. destruct He as [-> <-]. done.
Qed.

Lemma close_servers_open sls w : open (close_servers sls w) = open w ∖ socks sls.
Proof.
  unfold close_servers. revert w. induction sls as [|sl sls IH]; intros w; simpl; [change (socks []) with (∅ : gset Sock); clear; set_solver|].
  rewrite IH. change (socks (sl :: sls)) with (sl_socks sl ∪ socks sls). unfold sl_socks.
  destruct (sl_listener sl), (sl_packet sl); simpl; rewrite ?(close_open (open := open)); clear; set_solver.
Qed.

Lemma run_callbacks_open fns w : open (run_callbacks fns w).1 = open w.
Proof.
  revert w. induction fns as [|fn fns IH]; intros w; simpl; [done|].
  pose proof (call_open (open := open) fn w) as Hc. destruct (call fn w) as [w1 e]. simpl in Hc.
  specialize (IH w1). destruct (run_callbacks fns w1). simpl in *. congruence.
Qed.

Lemma ShutdownCallbacks_open (inst : Instance Ctx Srv Sock Cb) w : open (ShutdownCallbacks inst w).1 = open w.
Proof.
  unfold ShutdownCallbacks. pose proof (run_callbacks_open (h_OnShutdown (i_hooks inst)) w) as H1.
  destruct (run_callbacks (h_OnShutdown _) w) as [w1 es1]. simpl in H1.
  pose proof (run_callbacks_open (h_OnFinalShutdown (i_hooks inst)) w1) as H2.
  destruct (run_callbacks (h_OnFinalShutdown _) w1). simpl in *. congruence.
Qed.

Lemma run_directive_open r serverType host d h ctx w h' ctx' w' e :
  quiet open r → run_directive r serverType host d (h, ctx, w) = Ret (h', ctx', w', e) → open w' = open w.
Proof.
  intros [_ Hq]. unfold run_directive. destruct (DirectiveAction _ _ _) eqn:Hd; [|by intros [= <- <- <- <-]].
  intros Hr. by eapply Hq.
Qed.

Lemma Validate_open r inst w inst' w' err :
  quiet open r → ValidateAndExecuteDirectives r inst w = Ret (inst', w', err) →
  open w' = open w ∧ i_servers inst' = i_servers inst ∧ i_wg inst' = i_wg inst ∧
  (err = None → ∃ ctx, i_context inst' = Some ctx).
Proof.
  intros Hq. unfold ValidateAndExecuteDirectives. destruct (serverTypes r !! _) as [st|] eqn:Hst; [|by intros [= <- <- <-]].
  destruct (NewContext st inst w) as [[ctx w1]| |] eqn:Hn; cbn [mbind outcome_bind]; [|done|done].
  assert (open w1 = open w) as Ho by (destruct Hq as [Hq _]; by eapply Hq).
  rewrite executeDirectives_each.
  destruct (each _ _ _) as [[[[h' ctx'] w2] e]| |] eqn:He; [|done|done].
  intros [= <- <- <-]. simpl. split_and!; [|done|done|by eauto].
  rewrite <- Ho. apply (each_invariant _ (λ s, open s.2 = open w1)) in He; [done| |done].
  intros [host d] [[h0 c0] w0] [[h3 c3] w3] e3 _ Hs Hr. simpl in *. rewrite <- Hs.
  by eapply run_directive_open.
Qed.
(** What [Start] leaves behind, on every branch. *)
Lemma Start_sockets r y p p' oi err :
  quiet open r → Start r y p = Ret (p', oi, err) →
  match oi with
  | None => is_Some err ∧ open (pr_world p') = open (pr_world p) ∧
            pr_heap p' = pr_heap p ∧ pr_instances p' = pr_instances p
  | Some i => ∃ inst extra,
      i = length (pr_heap p) ∧ pr_heap p' = pr_heap p ++ [inst] ∧ pr_instances p' = pr_instances p ++ [i] ∧
      open (pr_world p') = extra ∪ socks (i_servers inst) ∪ open (pr_world p) ∧
      extra ∪ socks (i_servers inst) ## open (pr_world p) ∧ extra ## socks (i_servers inst) ∧
      match err with None => extra = ∅ ∧ i_wg inst = i_servers inst | Some _ => i_wg inst = [] end
  end.
Proof.
  intros Hq. unfold Start. destruct (ValidateAndExecuteDirectives _ _ _) as [[[inst w] [e|]]| |] eqn:Hv;
    cbn [mbind outcome_bind]; [|  |done|done];
    apply Validate_open in Hv as (Hw & Hs & Hwg & Hctx); [|done| |done]; simpl in *.
  { intros [= <- <- <-]. simpl. eauto. }
  unfold startWithListenerFds. destruct (Hctx eq_refl) as [ctx ->]. simpl.
  destruct (MakeServers ctx w) as [[w1 made]| |] eqn:Hm; [|done|done]. cbn [mbind outcome_bind].
  apply (make_open (open := open)) in Hm. rewrite <- Hw, <- Hm. destruct made as [srvs|e].
  2:{ intros [= <- <- <-]. exists inst, ∅. rewrite Hs. change (socks []) with (∅ : gset Sock). simpl.
      split_and!; [done..|clear; set_solver|clear; set_solver|clear; set_solver|done]. }
  unfold startServers. rewrite Hs, Hwg.
  destruct (listen_all srvs [] w1) as [[[w2 sls] e]| |] eqn:Hl; [|done|done]. cbn [mbind outcome_bind].
  intros [= <- <- <-]. apply listen_all_open in Hl as (new & extra & -> & Ho & Hd & Hde & _ & He).
  2:{ change (socks []) with (∅ : gset Sock). clear. set_solver. }
  eexists _, extra. split_and!; [done..|exact Ho|done|done|]. simpl. destruct e; [done|]. by destruct He as [-> _].
Qed.

(** [Stop] closes the recorded sockets, and returns exactly when the servers it
    waits for end. *)
Lemma Stop_sockets i p inst :
  pr_heap p !! i = Some inst →
  if forallb sl_ends (i_wg inst)
  then ∃ p' inst', Stop i p = Ret p' ∧ open (pr_world p') = open (pr_world p) ∖ socks (i_servers inst) ∧
         pr_heap p' = <[i := inst']> (pr_heap p) ∧ i_servers inst' = i_servers inst ∧
         i_hooks inst' = i_hooks inst ∧ i_wg inst' = [] ∧ pr_instances p' = pr_instances p
  else Stop i p = Hang.
Proof.
  intros Hi. unfold Stop, Wait. rewrite Hi.
  pose proof (ShutdownCallbacks_open inst (close_servers (i_servers inst) (pr_world p))) as Hc.
  destruct (ShutdownCallbacks _ _) as [w errs]. simpl in Hc. rewrite close_servers_open in Hc.
  destruct (forallb sl_ends (i_wg inst)); [|done]. cbn [mbind outcome_bind]. by eexists _, _.
Qed.

(** C35: The sockets of an instance: a start that succeeds opens those it records
    in the instance, and [Stop] closes them all and returns the process to the
    sockets it had, if every server it serves ends (it waits for ever for one that
    does not). A start that fails has already opened some: [Stop] of the instance
    it returns closes those of the servers that were recorded, the listener of the
    server whose packet socket failed stays open, and without an instance nothing
    was opened. *)
Theorem start_stop_sockets r y p p' oi err :
  quiet open r → Start r y p = Ret (p', oi, err) →
  match oi with
  | None => is_Some err ∧ open (pr_world p') = open (pr_world p)
  | Some i => ∃ inst extra, pr_heap p' !! i = Some inst ∧
      open (pr_world p') = extra ∪ socks (i_servers inst) ∪ open (pr_world p) ∧
      extra ∪ socks (i_servers inst) ## open (pr_world p) ∧ (err = None → extra = ∅) ∧
      if forallb sl_ends (match err with None => i_servers inst | Some _ => [] end)
      then ∃ p'', Stop i p' = Ret p'' ∧ open (pr_world p'') = extra ∪ open (pr_world p)
      else Stop i p' = Hang
  end.
Proof.
  intros Hq Hs. apply Start_sockets in Hs; [|done]. destruct oi as [i|]; [|naive_solver].
  destruct Hs as (inst & extra & -> & Hh & _ & Ho & Hd & Hde & He).
  assert (pr_heap p' !! length (pr_heap p) = Some inst) as Hi by (rewrite Hh; apply list_lookup_middle; done).
  exists inst, extra. split; [done|]. split; [done|]. split; [done|]. split; [by intros ->; destruct He|].
  pose proof (Stop_sockets _ _ _ Hi) as Hst.
  assert (i_wg inst = match err with None => i_servers inst | Some _ => [] end) as Hw by (destruct err; naive_solver).
  rewrite <- Hw. destruct (forallb sl_ends (i_wg inst)); [|done].
  destruct Hst as (p'' & inst' & Hst & Ho' & _). exists p''. split; [done|]. rewrite Ho', Ho.
  clear -Hd Hde. set_solver.
Qed.
End sockets.

(** * The goroutines *)

Definition phase_steps (ph : gphase) : nat :=
  match ph with GServing => 4 | GSend _ => 3 | GDefer => 1 | GDone => 0 end.

Definition stop_steps (s : sphase) : nat := match s with SWait => 2 | SSend => 1 | SGone => 0 end.

(** The steps that are left: every event is one of them. *)
Definition steps_left (g : gos) : nat :=
  (sum_list_with phase_steps (g_serve g) + length (g_chan g) + stop_steps (g_stop g))%nat.

Lemma sum_insert (l : list gphase) k ph ph' :
  l !! k = Some ph →
  (sum_list_with phase_steps (<[k := ph']> l) + phase_steps ph = sum_list_with phase_steps l + phase_steps ph')%nat.
Proof.
  revert k. induction l as [|x l IH]; intros [|k] Hk; simplify_eq/=; [lia|]. specialize (IH k Hk). lia.
Qed.

Lemma gapply_steps ev g g' : gapply ev g = Some g' → steps_left g = S (steps_left g').
Proof.
  unfold steps_left. destruct ev as [k e|k|k| | |]; simpl; intros Hg;
    repeat (case_match; try discriminate); simplify_eq/=;
    try (match goal with Hk : _ !! _ = Some _ |- context [<[_ := ?ph]> _] => pose proof (sum_insert _ _ _ ph Hk) end);
    simpl in *; rewrite ?length_app; simpl; lia.
Qed.

(** What has been sent is what the collector has, or what still waits in the
    channel; the collector leaves only when every result was sent. *)
Definition sent (ph : gphase) : bool := match ph with GDefer | GDone => true | _ => false end.

Definition gos_ok (n : nat) (g : gos) : Prop :=
  g_cap g = n ∧ length (g_serve g) = (2 * n)%nat ∧ (length (g_chan g) ≤ n)%nat ∧
  length (filter (λ ph, sent ph = true) (g_serve g)) = (length (g_logged g) + length (g_chan g))%nat ∧
  (g_stop g ≠ SWait → forallb is_done (g_serve g) = true) ∧
  (g_drain g = true ↔ g_stop g ≠ SGone).

Lemma sent_insert (l : list gphase) k ph ph' :
  l !! k = Some ph →
  (length (filter (λ ph, sent ph = true) (<[k := ph']> l)) + (if sent ph then 1 else 0)
   = length (filter (λ ph, sent ph = true) l) + (if sent ph' then 1 else 0))%nat.
Proof.
  revert k. induction l as [|x l IH]; intros [|k] Hk; simplify_eq/=.
  - rewrite !filter_cons. destruct (sent ph) eqn:H1, (sent ph') eqn:H2; simpl; rewrite ?decide_True, ?decide_False by congruence; simpl; lia.
  - specialize (IH k Hk). rewrite !filter_cons. case_decide; simpl; lia.
Qed.

Lemma forallb_done_lookup l k ph : forallb is_done l = true → l !! k = Some ph → ph = GDone.
Proof.
  intros Hf Hk. rewrite forallb_forall in Hf. specialize (Hf ph).
  destruct ph; simpl in Hf; try done;
    exfalso; discriminate Hf; apply list_elem_of_In; by eapply list_elem_of_lookup_2.
Qed.

Lemma gapply_ok n ev g g' : gos_ok n g → gapply ev g = Some g' → gos_ok n g'.
Proof.
  intros (Hc & Hl & Hn & Hs & Hst & Hdr) Hg. unfold gos_ok. destruct ev as [k e|k|k| | |]; simpl in Hg;
    repeat (case_match; try discriminate); simplify_eq/=; bool_to_prop;
    try (match goal with Hk : g_serve _ !! _ = Some _ |- context [<[_ := ?ph]> _] => pose proof (sent_insert _ _ _ ph Hk) end);
    rewrite ?length_insert, ?length_app in *; simpl in *;
    split_and!; try lia; try done; try (by rewrite <- Hdr); try (intros; apply Hst; congruence);
    try (split; intros; congruence); try (rewrite Hdr; split; intros; congruence);
    intros; try (match goal with Hk : g_serve _ !! _ = Some _ |- _ =>
      exfalso; eapply forallb_done_lookup in Hk; [done|by apply Hst] end).
Qed.

Lemma grun_ok n evs g g' : gos_ok n g → grun evs g = Some g' → gos_ok n g' ∧ (steps_left g = length evs + steps_left g')%nat.
Proof.
  revert g. induction evs as [|ev evs IH]; intros g Hg; simpl; [by intros [= <-]|].
  destruct (gapply ev g) as [g1|] eqn:He; [|done]. simpl. intros Hr.
  destruct (IH g1) as [Hok Hst]; [by eapply gapply_ok|done|]. split; [done|].
  apply gapply_steps in He. lia.
Qed.

Lemma gos0_ok n : gos_ok n (gos0 n).
Proof.
  unfold gos_ok. simpl. split_and!; [done|by rewrite length_replicate|lia| |done|done].
  generalize (n + (n + 0))%nat. intros m. induction m; simpl; [done|]. rewrite filter_cons. by rewrite decide_False.
Qed.

Lemma steps_gos0 n : steps_left (gos0 n) = (8 * n + 2)%nat.
Proof.
  unfold steps_left. simpl. replace (n + (n + 0))%nat with (2 * n)%nat by lia.
  enough (∀ m, sum_list_with phase_steps (replicate m GServing) = (4 * m)%nat) as -> by lia.
  intros m. induction m; simpl in *; lia.
Qed.

Lemma gos_progress n g :
  gos_ok n g → GServing ∉ g_serve g → finished g = true ∨ ∃ ev, is_Some (gapply ev g).
Proof.
  intros (Hc & Hl & Hn & Hs & Hdone & Hdr) Hns.
  destruct (forallb is_done (g_serve g)) eqn:Hall.
  - unfold finished. rewrite Hall. destruct (g_stop g) eqn:Hst.
    + right. exists EWaited. simpl. rewrite Hst, Hall. by eexists.
    + right. exists EStop. simpl. rewrite Hst. destruct Hdr as [_ Hdr]. rewrite Hdr by done. by eexists.
    + left. destruct (g_drain g); [|done]. destruct Hdr as [Hdr _]. by destruct Hdr.
  - right. assert (g_drain g = true) as Hd.
    { apply Hdr. intros He. discriminate Hdone. by rewrite He. }
    assert (∃ k ph, g_serve g !! k = Some ph ∧ is_done ph = false) as (k & ph & Hk & Hph).
    { clear -Hall. induction (g_serve g) as [|x l IH]; simpl in *; [discriminate|]. destruct (is_done x) eqn:Hx.
      - destruct (IH Hall) as (k & ph & Hk & Hp). by exists (S k), ph.
      - by exists 0%nat, x. }
    destruct ph as [|e| |]; [|destruct (g_chan g) as [|e' es] eqn:Hch| |done].
    + exfalso. apply Hns. by eapply list_elem_of_lookup_2.
    + exists (ESend k). simpl. rewrite Hk, Hch. simpl. destruct (Nat.ltb_spec 0 (g_cap g)); [by eexists|].
      apply lookup_lt_Some in Hk. lia.
    + exists ECollect. simpl. rewrite Hd, Hch. by eexists.
    + exists (EDone k). simpl. rewrite Hk. by eexists.
Qed.

Lemma done_sent (l : list gphase) : forallb is_done l = true → length (filter (λ ph, sent ph = true) l) = length l.
Proof.
  induction l as [|x l IH]; simpl; [done|]. intros [Hx Hl]%andb_true_iff.
  rewrite filter_cons. destruct x; try done. simpl. f_equal. by apply IH.
Qed.

(** C36: The goroutines of an instance come to an end: whatever the order in which
    they run, once every [Serve] and [ServePacket] has returned some goroutine can
    take a step until all of them, the collector included, are gone, and a history
    has at most [8 * n + 2] steps for [n] servers. The collector then has all the
    results but the at most [n] the channel holds when it is told to stop. *)
Theorem goroutines_terminate n evs g :
  grun evs (gos0 n) = Some g →
  (length evs ≤ 8 * n + 2)%nat ∧
  (GServing ∉ g_serve g → finished g = true ∨ ∃ ev, is_Some (gapply ev g)) ∧
  (finished g = true →
     (length (g_logged g) + length (g_chan g) = 2 * n)%nat ∧ (length (g_chan g) ≤ n)%nat).
Proof.
  intros Hr. apply (grun_ok n) in Hr as [Hok Hst]; [|apply gos0_ok]. rewrite steps_gos0 in Hst.
  split; [lia|]. split; [by apply (gos_progress n)|].
  intros Hf. destruct Hok as (Hc & Hl & Hn & Hs & Hdone & Hdr). split; [|done].
  unfold finished in Hf. rewrite !andb_true_iff in Hf. destruct Hf as [[Hf _] _].
  rewrite <- Hs, done_sent by done. done.
Qed.

(** The loss is real: the collector may be told to stop while the last error is
    still in the channel, and that error is never logged. *)
Lemma last_error_lost e :
  ∃ evs g, grun evs (gos0 1) = Some g ∧ finished g = true ∧ g_chan g = [Some e] ∧ logs g = [].
Proof.
  exists [EReturn 0 None; ESend 0; EDone 0; ECollect; EReturn 1 (Some e); ESend 1; EDone 1; EWaited; EStop].
  by eexists.
Qed.

(** * The callbacks *)

Section callbacks.
Context {W Ctx Srv Sock Cb : Type} `{!Components W Ctx Srv Sock Cb}.
Implicit Types (p : Proc W Ctx Srv Sock Cb).

Lemma run_callbacks_app (l1 l2 : list Cb) (w : W) :
  run_callbacks (l1 ++ l2) w =
  let '(w1, e1) := run_callbacks l1 w in let '(w2, e2) := run_callbacks l2 w1 in (w2, e1 ++ e2).
Proof.
  revert w. induction l1 as [|fn l1 IH]; intros w; simpl; [by destruct (run_callbacks l2 w)|].
  destruct (call fn w) as [w1 [e|]]; rewrite IH; destruct (run_callbacks l1 w1) as [w2 e2];
    destruct (run_callbacks l2 w2); done.
Qed.

Definition shutdown_list (inst : Instance Ctx Srv Sock Cb) : list Cb :=
  h_OnShutdown (i_hooks inst) ++ h_OnFinalShutdown (i_hooks inst).

Lemma ShutdownCallbacks_run (inst : Instance Ctx Srv Sock Cb) w : ShutdownCallbacks inst w = run_callbacks (shutdown_list inst) w.
Proof. unfold ShutdownCallbacks, shutdown_list. by rewrite run_callbacks_app. Qed.

Lemma all_callbacks_run (insts : list (Instance Ctx Srv Sock Cb)) w :
  all_callbacks insts w = run_callbacks (insts ≫= shutdown_list) w.
Proof.
  revert w. induction insts as [|inst insts IH]; intros w; simpl; [done|].
  rewrite ShutdownCallbacks_run, run_callbacks_app. destruct (run_callbacks _ w) as [w1 e1]. by rewrite IH.
Qed.

(** The shutdown callbacks of every instance ever registered run in the order of
    the starts, once in the process; its exit code tells whether one failed. *)
Lemma executeShutdownCallbacks_spec p :
  let '(p', code) := executeShutdownCallbacks p in
  pr_once p' = true ∧ executeShutdownCallbacks p' = (p', 0) ∧
  if pr_once p then p' = p ∧ code = 0
  else
    let '(w, errs) := run_callbacks (omap (λ i, pr_heap p !! i) (pr_instances p) ≫= shutdown_list) (pr_world p) in
    pr_world p' = w ∧ code = match errs with [] => 0 | _ => 4 end.
Proof.
  unfold executeShutdownCallbacks, allShutdownCallbacks. destruct (pr_once p) eqn:Ho; [by rewrite Ho|].
  rewrite all_callbacks_run. by destruct (run_callbacks _ _).
Qed.
End callbacks.

(** * A small instance *)

Module Demo.

(** The world is the list of addresses in use, a server is its address, and so is
    its socket. *)
Definition listen (a : string) (w : list string) : outcome (list string * result string (option string)) :=
  if bool_decide (a ∈ w) then Ret (w, Err "address already in use"%string) else Ret (a :: w, Ok (Some a)).

#[export] Instance comps : Components (list string) (list string) string string unit := {
  GetConfig ctx := mkConfig [mkService "s" "demo" ((λ a, mkHost "tcp" a ["log"%string]) <$> ctx)];
  MakeServers ctx w := Ret (w, Ok ctx);
  Listen := listen;
  ListenPacket _ w := Ret (w, Ok None);
  Close k w := filter (λ a, a ≠ k) w;
  serve_ends _ _ _ := true;
  call _ w := (w, None);
}.

Definition used (w : list string) : gset string := list_to_set w.

#[export] Instance laws : SocketLaws used.
Proof.
  split.
  - intros s w w' r. simpl. unfold listen. case_bool_decide as Hin; intros [= <- <-]; unfold used; simpl.
    + clear. set_solver.
    + split; [|done]. intros x ->%elem_of_singleton. by rewrite elem_of_list_to_set.
  - intros s w w' r. simpl. intros [= <- <-]. clear. set_solver.
  - intros k w. unfold used. apply set_eq. intros x. simpl.
    rewrite elem_of_difference, !elem_of_list_to_set, list_elem_of_filter, elem_of_singleton. naive_solver.
  - intros ctx w w' r. simpl. by intros [= <- <-].
  - done.
Qed.

(** The set-up of "log" registers a callback. *)
Definition log_setup : @SetupFunc (list string) (list string) unit := λ c '(h, ctx, w),
  Ret (OnShutdown tt h, ctx, w, None).

Definition input : Input := mkInput "f" [] "demo".

Definition registry : Registry (list string) (list string) string string unit :=
  mkRegistry {[ "demo"%string := mkServerType [] input (λ _ w, Ret ([":1"; ":2"]%string, w)) ]}
             {[ "demo"%string := {[ "log"%string := mkPlugin "demo" log_setup ]} ]}.

Lemma registry_quiet : quiet used registry.
Proof.
  split.
  - intros name st inst w ctx w'. unfold registry. simpl. intros [<- <-]%lookup_singleton_Some. simpl. by intros [= _ <-].
  - intros st dir f c h ctx w h' ctx' w' e. unfold DirectiveAction, registry. simpl.
    destruct (decide (st = "demo"%string)) as [->|].
    + rewrite lookup_singleton_eq. simpl. destruct (decide (dir = "log"%string)) as [->|].
      * rewrite lookup_singleton_eq. intros [= <-]. simpl. by intros [= _ _ <- _].
      * rewrite lookup_singleton_ne by done. by rewrite lookup_singleton_ne.
    + rewrite lookup_singleton_ne by done. by rewrite lookup_singleton_ne.
Qed.

Definition empty_proc : Proc (list string) (list string) string string unit := mkProc [] [] [] false.

End Demo.

#[local] Existing Instance Demo.comps.
#[local] Existing Instance Demo.laws.

Definition demo_started : Proc (list string) (list string) string string unit :=
  match Start Demo.registry Demo.input Demo.empty_proc with Ret (p, _, _) => p | _ => Demo.empty_proc end.

Lemma demo_starts : Start Demo.registry Demo.input Demo.empty_proc = Ret (demo_started, Some 0%nat, None).
Proof. vm_compute. reflexivity. Qed.

Lemma start_stop_sockets_witness :
  ∃ inst p'', pr_heap demo_started !! 0%nat = Some inst ∧ i_servers inst ≠ [] ∧
    Stop 0 demo_started = Ret p'' ∧ Demo.used (pr_world p'') = ∅.
Proof.
  pose proof (start_stop_sockets Demo.used Demo.registry Demo.input Demo.empty_proc _ _ None
    Demo.registry_quiet demo_starts) as (inst & extra & Hi & _ & _ & He & Hst).
  assert (forallb sl_ends (i_servers inst) = true) as Hf by (clear; induction (i_servers inst); done).
  rewrite Hf in Hst. destruct Hst as (p'' & Hs & Ho). exists inst, p''. split; [exact Hi|].
  split; [vm_compute in Hi; injection Hi as <-; discriminate|]. split; [exact Hs|].
  rewrite Ho, (He eq_refl). reflexivity.
Defined.

Lemma executeDirectives_spec_witness :
  ∃ setup, DirectiveAction Demo.registry "demo" "log" = Ok setup.
Proof.
  assert (executeDirectives Demo.registry "demo" (no_hooks, [":1"%string], []) =
    Ret (OnShutdown tt no_hooks, [":1"%string], [], None)) as He by (vm_compute; reflexivity).
  apply (proj2 (executeDirectives_spec Demo.registry "demo" no_hooks [":1"%string] [] _ _ _ None He)
    (mkHost "tcp" ":1" ["log"%string])).
  vm_compute. left.
Defined.

Lemma goroutines_terminate_witness :
  ∃ evs g, grun evs (gos0 1) = Some g ∧ finished g = true ∧ (length evs ≤ 10)%nat ∧
    (length (g_logged g) + length (g_chan g) = 2)%nat.
Proof.
  exists [EReturn 0 None; ESend 0; EDone 0; ECollect; EReturn 1 None; ESend 1; EDone 1; EWaited; EStop].
  eexists. split; [reflexivity|]. split; [reflexivity|].
  destruct (goroutines_terminate 1 [EReturn 0 None; ESend 0; EDone 0; ECollect; EReturn 1 None; ESend 1; EDone 1; EWaited; EStop] _ eq_refl)
    as (Hl & _ & Hf).
  split; [exact Hl|]. exact (proj1 (Hf eq_refl)).
Defined.
