(* ===== verification/StarRun.v ===== *)
(** The life of the star process (internal/star/starserver/star.go, register.go,
    server.go, config.go): the context of the star server type, the set-up of its
    plugins, the sockets its servers listen on, [Reload] and the signal loop of
    [Run]. It instantiates the framework of [Pluginer] with the configuration of
    [Config] and the servers of [Register]. *)
From S2P Require Import Prelude Pluginer Config Register.
From Stdlib Require Import ZArith Lia.

(** * Plugin chains *)

(** The handlers of the plugin chains, each with the next one. *)
Inductive handler :=
  | HSocks5 (next : option handler)
  | HHttpProxy (next : option handler)
  | HForward (target : string) (next : option handler)
  | HPrinter (next : option handler).

Definition handler_Name (h : handler) : string :=
  match h with
  | HSocks5 _ => "socks5"
  | HHttpProxy _ => "HttpProxy"
  | HForward _ _ => "forward"
  | HPrinter _ => "printer"
  end.

Definition handler_next (h : handler) : option handler :=
  match h with HSocks5 n | HHttpProxy n | HForward _ n | HPrinter n => n end.

(** [plugin.Plugin]: a constructor that waits for the next handler. *)
Definition plugin : Type := option handler → handler.

(** The part of a zone's [Config] that the plugins fill. *)
Record zone := mkZone { z_Plugin : list plugin; z_Registry : gmap string handler }.

Definition AddPlugin (m : plugin) (z : zone) : zone := mkZone (z_Plugin z ++ [m]) (z_Registry z).

Definition RegisterHandler (h : handler) (z : zone) : zone :=
  mkZone (z_Plugin z) (<[handler_Name h := h]> (z_Registry z)).

Definition Handler (name : string) (z : zone) : option handler := z_Registry z !! name.

Definition Directives : list string := ["socks5"%string].

Definition Handlers (z : zone) : list handler := omap (λ k, Handler k z) Directives.

(** The loop of [NewServer], from the last plugin to the first. *)
Definition plugin_chain (ps : list plugin) : option handler := foldr (λ p next, Some (p next)) None ps.

(** The servers with a plugin chain; no zone makes a nil [*Server]. *)
Record Server := mkServer {
  srv_Name : string;
  srv_Net : string;
  srv_Addr : string;
  srv_PluginChain : option handler;
}.

Definition NewServer (serviceName transportName addr : string) (config : option zone) : option Server :=
  match config with
  | None => None
  | Some z => Some (mkServer serviceName transportName addr (plugin_chain (z_Plugin z)))
  end.

(** * The context of the star server type *)

Record starContext := mkStarContext { Configs : Register.Config; ZoneToConfigs : gmap string zone }.

Definition keyForConfig (blocIndex blocKeyIndex : string) : string := blocIndex +:+ "://" +:+ blocKeyIndex.

Definition empty_zone : zone := mkZone [] ∅.

(** [GetConfig(c)] is the zone of the controller's block, made when missing; here
    an update of it. *)
Definition with_zone (c : Controller) (f : zone → zone) (ctx : starContext) : starContext :=
  let key := keyForConfig (ServerBlockNetwork c) (ServerBlockAddress c) in
  mkStarContext (Configs ctx) (<[key := f (default empty_zone (ZoneToConfigs ctx !! key))]> (ZoneToConfigs ctx)).

Definition GetListenerSettings (c : Controller) (ctx : starContext) : Settings :=
  findListenerSettings (Configs ctx) (ServerBlockNetwork c) (ServerBlockAddress c).

(** [starContext.GetConfig]: what the framework is told of the configuration. *)
Definition host_of (lm : gmap string ListenerList) (hm : gmap string HandlerList) (val : Listeners) : Host :=
  let l := default (mkListenerList "" "" "" "" empty_settings) (lm !! ln_ListenerName val) in
  mkHost (ll_Transport l) (ll_Addr l) (default [] (hl_Plugins <$> hm !! ln_HandlerName val)).

Definition star_GetConfig (ctx : starContext) : Pluginer.Config :=
  let lm := foldl (λ m l, <[ll_Name l := l]> m) ∅ (ListenerLists (Configs ctx)) in
  let hm := foldl (λ m h, <[hl_Name h := h]> m) ∅ (HandlerLists (Configs ctx)) in
  Pluginer.mkConfig
    ((λ srv, Pluginer.mkService (svc_Name srv) (svc_Type srv) (host_of lm hm <$> svc_Listeners srv))
     <$> cfg_Service (Configs ctx)).

(** * The system *)

(** Files and sockets. A transport's [Listen] is that of its package; [os_listen]
    is what it does for a name, an address and its certificate files. *)
Class Os (W : Type) := {
  os_ReadFile : string → W → result string (list byte);
  os_listen : string → string → string * string → W → W * result string nat;
  os_listen_udp : string → W → W * result string nat;
  os_close : nat → W → W;
}.

Section star.
Context {W : Type} `{!Os W}.

(** The transports and codecs linked into the binary and the two YAML decodings. *)
Context (has_transport has_codec : string → bool).
Context (unmarshal_probe : list byte → option (gset string)) (unmarshal : list byte → option Root).

Definition listened {A} (r : A * result string nat) : outcome (A * result string (option nat)) :=
  Ret (r.1, Some <$> r.2).

Definition no_socket (w : W) : outcome (W * result string (option nat)) := Ret (w, Ok None).

(** [transport.Build] and the transport's [Listen]. *)
Definition transport_listen (net addr : string) (opts : string * string) (w : W)
    : outcome (W * result string (option nat)) :=
  if has_transport net then listened (os_listen net addr opts w)
  else Ret (w, Err ("transport: unknown transport " +:+ net)).

(** [listenTCP]: the star and administration servers. *)
Definition listenTCP (addr : string) (s : Settings) (w : W) : outcome (W * result string (option nat)) :=
  if TLS s then listened (os_listen "tls" addr (CertFile s, KeyFile s) w)
  else listened (os_listen "tcp" addr (""%string, ""%string) w).

Definition star_Listen (s : server) (w : W) : outcome (W * result string (option nat)) :=
  match s with
  | SrvCtrl l | SrvAdmin l => listenTCP (ll_Addr l) (ll_Settings l) w
  | SrvProxy l _ =>
      if String.eqb (ll_Transport l) "udp" then no_socket w
      else transport_listen (ll_Transport l) (ll_Addr l) (CertFile (ll_Settings l), KeyFile (ll_Settings l)) w
  | SrvDns _ => no_socket w
  | SrvChain l =>
      if String.eqb (ll_Transport l) "udp" then no_socket w
      else transport_listen (ll_Transport l) (ll_Addr l) (CertFile (ll_Settings l), KeyFile (ll_Settings l)) w
  | SrvNil => Panic
  end.

Definition star_ListenPacket (s : server) (w : W) : outcome (W * result string (option nat)) :=
  match s with
  | SrvChain l =>
      if String.eqb (ll_Transport l) "udp" then listened (os_listen_udp (ll_Addr l) w) else no_socket w
  | SrvNil => Panic
  | _ => no_socket w
  end.

(** Whether the two calls end once the sockets are closed: every accept loop
    returns the error of [Accept], but a packet socket is served by a loop without
    an exit ([serveUDP]). *)
Definition star_serve_ends (s : server) (ln pc : option nat) : bool :=
  match s, pc with SrvChain _, Some _ => false | _, _ => true end.

(** [Serve] up to its first [Accept]: on a nil listener the proxy, star and
    administration servers dereference it, the dns and chain servers return. *)
Definition star_Serve (s : server) (ln : option nat) : outcome unit :=
  match s, ln with
  | (SrvProxy _ _ | SrvCtrl _ | SrvAdmin _ | SrvNil), None => Panic
  | _, _ => Ret tt
  end.

(** [starContext.MakeServers] with the zones the plugins have filled. *)
Definition has_zone (ctx : starContext) (key : string) : bool := bool_decide (is_Some (ZoneToConfigs ctx !! key)).

Definition make_err_string (e : make_err) : string :=
  match e with
  | ErrServiceEmpty => "service is empty"
  | ErrTransport name => "transport: unknown transport " +:+ name
  | ErrNilListener name => name
  end.

Definition star_MakeServers (ctx : starContext) (w : W) : outcome (W * result string (list server)) :=
  match Register.MakeServers has_transport has_codec (has_zone ctx) (Configs ctx) with
  | Err (ErrNilListener _) => Panic
  | Err e => Ret (w, Err (make_err_string e))
  | Ok ss => Ret (w, Ok ss)
  end.

(** No package of the binary registers a callback. *)
#[export] Instance star_components : Components W starContext server nat Empty_set := {
  Pluginer.GetConfig := star_GetConfig;
  Pluginer.MakeServers := star_MakeServers;
  Pluginer.Listen := star_Listen;
  Pluginer.ListenPacket := star_ListenPacket;
  Pluginer.Close := os_close;
  Pluginer.serve_ends := star_serve_ends;
  Pluginer.call fn w := match fn with end;
}.

Definition star_registry_t : Type := Registry W starContext server nat Empty_set.
Definition star_proc : Type := Proc W starContext server nat Empty_set.

(** * Registration *)

Definition newContext (i : Instance starContext server nat Empty_set) (w : W) : outcome (starContext * W) :=
  match os_ReadFile (Filepath (i_input i)) w with
  | Err _ => Panic
  | Ok data =>
      match Load unmarshal_probe unmarshal data with
      | Err _ => Panic
      | Ok root => Ret (mkStarContext (buildRuntimeConfig root) ∅, w)
      end
  end.

Definition newDefaultInput : Input := mkInput "etc/star.example.yaml" (String.list_byte_of_string "default") "star".

Definition star_type : ServerTypeDef := mkServerType ["socks5"%string] newDefaultInput newContext.

Definition setup_func : Type := @SetupFunc W starContext Empty_set.

(** The set-ups of the four plugins. *)
Definition add_handler (p : plugin) : setup_func := λ c '(h, ctx, w),
  Ret (h, with_zone c (AddPlugin p) ctx, w, None).

Definition forward_setup : setup_func := λ c '(h, ctx, w),
  let target := Target (GetListenerSettings c ctx) in
  if String.eqb target "" then Ret (h, ctx, w, Some "forward: listener settings.target is required"%string)
  else add_handler (HForward target) c (h, ctx, w).

Definition Register (name : string) (action : setup_func) (r : star_registry_t) : outcome star_registry_t :=
  RegisterPlugin name (mkPlugin "star" action) r.

(** The registrations of the packages that zplugin imports. *)
Definition zdirector : outcome star_registry_t :=
  r ← RegisterServerType "star" star_type (mkRegistry ∅ ∅);
  r ← Register "forward" forward_setup r;
  r ← Register "httpProxy" (add_handler HHttpProxy) r;
  r ← Register "printer" (add_handler HPrinter) r;
  Register "socks5" (add_handler HSocks5) r.

Definition star_registry : star_registry_t :=
  match zdirector with Ret r => r | _ => mkRegistry ∅ ∅ end.

(** * Reload and the signal loop *)

(** Returns the instance ([None] is nil) and the error. *)
Definition Reload (old : nat) (input : Input) (p : star_proc) : outcome (star_proc * option nat * error) :=
  match os_ReadFile (Filepath input) (pr_world p) with
  | Err e => Ret (p, Some old, Some e)
  | Ok data =>
      match Load unmarshal_probe unmarshal data with
      | Err _ => Ret (p, Some old, Some "config"%string)
      | Ok _ =>
          p ← Stop old p;
          Start star_registry input p
      end
  end.

Inductive signal := SIGHUP | SIGTERM.

(** The loop of [Run]; between two signals the world may change ([ESys]). It
    returns the process and the instance it keeps, [None] after it has stopped. *)
Inductive run_event := ESignal (s : signal) | ESys (f : W → W).

Fixpoint run_loop (input : Input) (evs : list run_event) (inst : nat) (p : star_proc)
    : outcome (star_proc * option nat) :=
  match evs with
  | [] => Ret (p, Some inst)
  | ESys f :: evs => run_loop input evs inst (set_world (f (pr_world p)) p)
  | ESignal SIGHUP :: evs =>
      '(p, newInst, rerr) ← Reload inst input p;
      match rerr, newInst with
      | None, Some i => run_loop input evs i p
      | None, None => Panic
      | Some _, _ => run_loop input evs inst p
      end
  | ESignal SIGTERM :: _ =>
      p ← Stop inst p;
      Ret (p, None)
  end.

Definition Run_input : Input := mkInput "etc/star.example.yaml" (String.list_byte_of_string "star") "star".

Definition Run (evs : list run_event) (w : W) : outcome (star_proc * option nat) :=
  '(p, inst, err) ← Start star_registry Run_input (mkProc w [] [] false);
  match err, inst with
  | None, Some i => run_loop Run_input evs i p
  | _, _ => Panic
  end.
End star.

(** * The framework's laws *)

Class OsLaws {W} `{!Os W} (open : W → gset nat) : Prop := {
  os_listen_open net addr o w :
    opened (Some <$> (os_listen net addr o w).2) ## open w ∧
    open (os_listen net addr o w).1 = opened (Some <$> (os_listen net addr o w).2) ∪ open w;
  os_listen_udp_open addr w :
    opened (Some <$> (os_listen_udp addr w).2) ## open w ∧
    open (os_listen_udp addr w).1 = opened (Some <$> (os_listen_udp addr w).2) ∪ open w;
  os_close_open k w : open (os_close k w) = open w ∖ {[ k ]};
}.

Section laws.
Context {W : Type} `{!Os W} (open : W → gset nat) `{!OsLaws open}.
Context (has_transport has_codec : string → bool).
Context (unmarshal_probe : list byte → option (gset string)) (unmarshal : list byte → option Root).

#[local] Existing Instance star_components.
Local Definition comps : Components W starContext server nat Empty_set := star_components has_transport has_codec.
#[local] Existing Instance comps.

Lemma no_socket_open (w w' : W) r : no_socket w = Ret (w', r) → opened r ## open w ∧ open w' = opened r ∪ open w.
Proof. intros [= <- <-]. simpl. clear. set_solver. Qed.

Lemma failed_open (w w' : W) e r :
  Ret (w, Err e) = Ret (w', r) → opened r ## open w ∧ open w' = opened (Sock := nat) r ∪ open w.
Proof. intros [= <- <-]. simpl. clear. set_solver. Qed.

Lemma star_Listen_open s w w' r :
  star_Listen has_transport s w = Ret (w', r) → opened r ## open w ∧ open w' = opened r ∪ open w.
Proof.
  unfold star_Listen, listenTCP, transport_listen, listened.
  destruct s; repeat case_match; try done; try (apply no_socket_open); try (apply failed_open);
    intros [= <- <-]; apply os_listen_open.
Qed.

Lemma star_ListenPacket_open s w w' r :
  star_ListenPacket s w = Ret (w', r) → opened r ## open w ∧ open w' = opened r ∪ open w.
Proof.
  unfold star_ListenPacket, listened.
  destruct s; repeat case_match; try done; try (apply no_socket_open).
  intros [= <- <-]. apply os_listen_udp_open.
Qed.

Lemma star_laws : SocketLaws open.
Proof.
  split.
  - apply star_Listen_open.
  - apply star_ListenPacket_open.
  - apply os_close_open.
  - intros ctx w w' r. simpl. unfold star_MakeServers. repeat case_match; by intros [= <- <-].
  - intros [].
Qed.

Lemma zdirector_star_registry :
  zdirector unmarshal_probe unmarshal = Ret (star_registry unmarshal_probe unmarshal).
Proof. reflexivity. Qed.

(** What the binary registers. *)
Lemma star_plugins st dir :
  DirectiveAction (star_registry unmarshal_probe unmarshal) st dir =
  match (if String.eqb st "star" then
           if String.eqb dir "socks5" then Some (add_handler HSocks5)
           else if String.eqb dir "httpProxy" then Some (add_handler HHttpProxy)
           else if String.eqb dir "forward" then Some forward_setup
           else if String.eqb dir "printer" then Some (add_handler HPrinter)
           else None
         else None) with
  | Some f => Ok f
  | None => Err ("no action found for directive '" +:+ dir +:+ "' with server type '" +:+ st +:+ "' (missing a plugin?)")
  end.
Proof.
  unfold DirectiveAction. change (Plugins (star_registry unmarshal_probe unmarshal)) with
    (<["star":=<["socks5":=mkPlugin (W := W) "star" (add_handler HSocks5)]>
      (<["printer":=mkPlugin "star" (add_handler HPrinter)]>
      (<["httpProxy":=mkPlugin "star" (add_handler HHttpProxy)]>
      (<["forward":=mkPlugin "star" forward_setup]> ∅)))]> ∅ : gmap string (gmap string (Plugin W starContext Empty_set)))%string.
  rewrite (lookup_insert_ne _ "star" "")%string by done. rewrite lookup_empty. simpl.
  destruct (String.eqb_spec st "star") as [->|Hst].
  2:{ rewrite lookup_insert_ne by done. by rewrite lookup_empty. }
  rewrite lookup_insert_eq. simpl.
  destruct (String.eqb_spec dir "socks5") as [->|?]; [by rewrite lookup_insert_eq|rewrite lookup_insert_ne by done].
  destruct (String.eqb_spec dir "httpProxy") as [->|?].
  { rewrite lookup_insert_ne by done. by rewrite lookup_insert_eq. }
  destruct (String.eqb_spec dir "forward") as [->|?].
  { rewrite !lookup_insert_ne by done. by rewrite lookup_insert_eq. }
  destruct (String.eqb_spec dir "printer") as [->|?]; [by rewrite lookup_insert_eq|].
  rewrite !lookup_insert_ne by done. by rewrite lookup_empty.
Qed.

Lemma star_type_only name st :
  serverTypes (star_registry unmarshal_probe unmarshal) !! name = Some st →
  name = "star"%string ∧ st = star_type unmarshal_probe unmarshal.
Proof.
  change (serverTypes (star_registry unmarshal_probe unmarshal)) with
    (<["star":=star_type unmarshal_probe unmarshal]> ∅ : gmap string (ServerTypeDef (W := W) (Sock := nat)))%string.
  intros [[<- <-]|[_ ?]]%lookup_insert_Some; [done|by rewrite lookup_empty in *].
Qed.

Lemma star_quiet : quiet open (star_registry unmarshal_probe unmarshal).
Proof.
  split.
  - intros name st inst w ctx w' [-> ->]%star_type_only. simpl. unfold newContext.
    repeat case_match; try done. by intros [= <- <-].
  - intros st dir f c h ctx w h' ctx' w' e. rewrite star_plugins. case_match eqn:Hf; [|done]. intros [= <-].
    repeat case_match; simplify_eq; unfold forward_setup, add_handler; simpl;
      repeat case_match; intros; by simplify_eq.
Qed.

(** What a configuration file is to [Reload]. *)
Definition file_config (path : string) (w : W) : result string Root :=
  match os_ReadFile path w with
  | Err e => Err e
  | Ok data => match Load unmarshal_probe unmarshal data with Ok root => Ok root | Err _ => Err "config"%string end
  end.

Lemma Reload_cases old input p :
  Reload has_transport has_codec unmarshal_probe unmarshal old input p =
  match file_config (Filepath input) (pr_world p) with
  | Err e => Ret (p, Some old, Some e)
  | Ok _ => p ← Stop old p; Start (star_registry unmarshal_probe unmarshal) input p
  end.
Proof.
  unfold Reload, file_config. destruct (os_ReadFile _ _) as [data|e]; [|done].
  by destruct (Load _ _ data).
Qed.


(** ** Configurations that crash the process *)

Lemma lookup_foldl_key {A} (f : A → string) (l : list A) (m : gmap string A) k x :
  foldl (λ m x, <[f x := x]> m) m l !! k = Some x → x ∈ l ∨ m !! k = Some x.
Proof.
  revert m. induction l as [|y l IH]; intros m; simpl; [by right|].
  intros [?|Hm]%IH; [left; by right|]. apply lookup_insert_Some in Hm as [[_ <-]|[_ ?]]; [left; left|by right].
Qed.

(** Without plugins in the handlers no set-up runs and no zone is made. *)
Lemma no_directives root :
  Forall (λ h, hs_Plugins h = []) (Config.Handlers root) →
  directives "star" (star_GetConfig (mkStarContext (buildRuntimeConfig root) ∅)) = [].
Proof.
  intros Hno. destruct (directives _ _) as [|[host d] ds] eqn:Hd; [done|]. exfalso.
  assert ((host, d) ∈ directives "star" (star_GetConfig (mkStarContext (buildRuntimeConfig root) ∅))) as Hin
    by (rewrite Hd; left).
  clear Hd. unfold directives in Hin.
  apply list_elem_of_In, in_concat in Hin as (ds' & Hds & Hin). apply list_elem_of_In in Hds, Hin.
  apply list_elem_of_fmap in Hds as (srv & -> & Hsrv). case_match; [|by apply elem_of_nil in Hin].
  apply list_elem_of_In, in_concat in Hin as (ds2 & Hds & Hin). apply list_elem_of_In in Hds, Hin.
  apply list_elem_of_fmap in Hds as (host' & -> & Hhost).
  apply list_elem_of_fmap in Hin as (d' & [= <- <-] & Hin).
  unfold star_GetConfig in Hsrv. cbn [c_Service] in Hsrv.
  apply list_elem_of_fmap in Hsrv as (csrv & -> & Hsrv). cbn [s_Host] in Hhost.
  apply list_elem_of_fmap in Hhost as (val & -> & _). unfold host_of in Hin. cbn [h_Plugin] in Hin.
  destruct (_ !! ln_HandlerName val) as [h|] eqn:Hh; [|by apply elem_of_nil in Hin].
  apply (lookup_foldl_key hl_Name) in Hh as [Hh|Hh]; [|by rewrite lookup_empty in Hh].
  simpl in Hh, Hin. apply list_elem_of_fmap in Hh as (hs & -> & Hhs).
  rewrite Forall_forall in Hno. rewrite Hno in Hin by done. by apply elem_of_nil in Hin.
Qed.

Lemma listen_all_nil_server serverList servers w :
  SrvNil ∈ serverList →
  (∀ w' sls, listen_all serverList servers w ≠ Ret (w', sls, None)) ∧
  ((∀ s w', s ∈ serverList → s = SrvNil ∨
      (∃ w2 k, star_Listen has_transport s w' = Ret (w2, Ok k)) ∧ (∃ w2 k, star_ListenPacket s w' = Ret (w2, Ok k))) →
   listen_all serverList servers w = Panic).
Proof.
  revert servers w. induction serverList as [|s l IH]; intros servers w Hin; [by apply elem_of_nil in Hin|].
  apply elem_of_cons in Hin as [<-|Hin]; [done|]. cbn [listen_all]. simpl Listen. simpl ListenPacket. split.
  - intros w' sls. destruct (star_Listen has_transport s w) as [[w1 [ln|e]]| |]; cbn [mbind outcome_bind]; try done.
    destruct (star_ListenPacket s w1) as [[w2 [pc|e]]| |]; cbn [mbind outcome_bind]; try done.
    by apply IH.
  - intros Hok. destruct (Hok s w) as [->|[(w1 & k & H1) _]]; [left|done|].
    rewrite H1. cbn [mbind outcome_bind].
    destruct (Hok s w1) as [->|[_ (w2 & k2 & H2)]]; [left|done|].
    rewrite H2. cbn [mbind outcome_bind]. apply IH; [done|]. intros. apply Hok. by right.
Qed.

(** What [Start] does with a configuration whose handlers have no plugins. *)
Lemma Start_no_plugins input p root :
  file_config (Filepath input) (pr_world p) = Ok root → ServerTypeName input = "star"%string →
  Forall (λ h, hs_Plugins h = []) (Config.Handlers root) →
  let ctx := mkStarContext (buildRuntimeConfig root) ∅ in
  Start (star_registry unmarshal_probe unmarshal) input p =
  ('(p, i, err) ← startWithListenerFds (mkInstance "star" input [] [] no_hooks (Some ctx)) p; Ret (p, Some i, err)).
Proof.
  intros Hf Hst Hno ctx. unfold Start, ValidateAndExecuteDirectives. simpl i_input. simpl i_serverType. rewrite Hst.
  change (serverTypes (star_registry unmarshal_probe unmarshal) !! "star"%string) with (Some (star_type (W := W) unmarshal_probe unmarshal)).
  cbn [mbind outcome_bind NewContext star_type]. unfold newContext. cbn [i_input].
  unfold file_config in Hf. destruct (os_ReadFile _ _) as [data|]; [|done].
  destruct (Load _ _ data) as [root'|]; simplify_eq. cbn [mbind outcome_bind].
  rewrite executeDirectives_each. cbn [i_serverType i_hooks].
  change (GetConfig (mkStarContext (buildRuntimeConfig root) ∅)) with (star_GetConfig (mkStarContext (buildRuntimeConfig root) ∅)).
  rewrite no_directives by done. cbn [each mbind outcome_bind]. by destruct p.
Qed.

(** The names [handler] has a meaning for without the plugins. *)
Definition builtin_handlers : list string := ["star"; "admin"; "dns"; ""]%string.

Definition transport_known (ing : IngressSpec) : Prop :=
  ll_Transport (ingress_listener ing) = "udp"%string ∨ has_transport (ll_Transport (ingress_listener ing)) = true.

(** The system lets every listener open. *)
Definition listens_succeed : Prop :=
  (∀ net addr o w, ∃ k, (os_listen net addr o w).2 = Ok k) ∧ (∀ addr w, ∃ k, (os_listen_udp addr w).2 = Ok k).

Lemma star_listens_succeed s w :
  listens_succeed →
  match s with
  | SrvProxy l _ | SrvChain l => ll_Transport l = "udp"%string ∨ has_transport (ll_Transport l) = true
  | _ => True
  end →
  s = SrvNil ∨ (∃ w2 k, star_Listen has_transport s w = Ret (w2, Ok k)) ∧
               (∃ w2 k, star_ListenPacket s w = Ret (w2, Ok k)).
Proof.
  intros [Ht Hu] Hs.
  assert (∀ (r : W * result string nat), (∃ k, r.2 = Ok k) → ∃ w2 k, listened r = Ret (w2, Ok k)) as Hl.
  { intros [w1 r] [k Hk]. simpl in Hk. subst r. by eexists _, _. }
  destruct s as [l|l ch|l|l|l|]; [right..|by left];
    unfold star_Listen, star_ListenPacket, listenTCP, transport_listen, no_socket; split;
    repeat case_match; eauto; bool_to_prop; destruct Hs; congruence.
Qed.

Lemma file_config_valid path w root : file_config path w = Ok root → validate root = Ok tt.
Proof.
  unfold file_config. destruct (os_ReadFile path w) as [data|]; [|done].
  unfold Load. repeat case_match; try done. intros; simplify_eq.
  match goal with H : (_ ≫= _) = Ok _ |- _ => revert H end.
  destruct (validate _) as [[]|] eqn:Hv; simpl; [|done]. by intros [= <-].
Qed.

(** The servers of a configuration without zones. *)
Lemma servers_without_zones root ing :
  validate root = Ok tt → Forall transport_known (ingresses root) →
  ing ∈ ingresses root → ing_Handler ing ∉ builtin_handlers →
  ∃ ss, Register.MakeServers has_transport has_codec (has_zone (mkStarContext (buildRuntimeConfig root) ∅))
          (buildRuntimeConfig root) = Ok ss ∧ SrvNil ∈ ss ∧
    ∀ s, s ∈ ss → match s with
                  | SrvProxy l _ | SrvChain l => ll_Transport l = "udp"%string ∨ has_transport (ll_Transport l) = true
                  | _ => True
                  end.
Proof.
  intros Hv Hk Hin Hni.
  assert (Forall (transport_ok has_transport) (ingresses root)) as Hok.
  { eapply Forall_impl; [done|]. intros i [?|?]; [by right; left|by right; right]. }
  assert (Services root ≠ []) as Hne.
  { intros He. unfold ingresses in Hin. rewrite He in Hin. by apply elem_of_nil in Hin. }
  eexists. split; [by apply MakeServers_ingresses|].
  assert (∀ ing', ingress_server has_transport has_codec (has_zone (mkStarContext (buildRuntimeConfig root) ∅))
            (buildRuntimeConfig root) ing' = ingress_server has_transport has_codec (λ _, false) (buildRuntimeConfig root) ing') as Hz by done.
  split.
  - rewrite elem_of_app. left. apply list_elem_of_In, in_concat. exists [SrvNil]. split; [|by left].
    apply list_elem_of_In, list_elem_of_fmap.
    exists (ingress_server has_transport has_codec (λ _, false) (buildRuntimeConfig root) ing). split.
    + rewrite Forall_forall in Hk. specialize (Hk ing Hin). revert Hk Hni.
      unfold ingress_server, make_server, transport_known, builtin_handlers, ingress_listener.
      rewrite !not_elem_of_cons. intros Hk (H1 & H2 & H3 & H4 & _).
      apply String.eqb_neq in H1, H2, H3. rewrite H1, H2, H3 in *.
      destruct (str_empty (ing_Handler ing)) eqn:He; [by apply String.eqb_eq in He|]. cbn -[String.eqb] in *.
      destruct Hk as [Hk|Hk]; [|]; rewrite Hk; cbn; [done|]. by rewrite andb_false_r.
    + apply list_elem_of_fmap. exists ing. done.
  - intros s. rewrite elem_of_app. intros [Hs|Hs].
    2:{ by apply list_elem_of_fmap in Hs as (l & -> & _). }
    apply list_elem_of_In, in_concat in Hs as (ss & Hss & Hs). apply list_elem_of_In in Hss, Hs.
    apply list_elem_of_fmap in Hss as ([ss' adm] & -> & Hss).
    apply list_elem_of_fmap in Hss as (ing' & Hss & Hin'). rewrite Hz in Hss.
    rewrite Forall_forall in Hk. specialize (Hk ing' Hin'). unfold transport_known in Hk.
    unfold ingress_server, make_server in Hss. revert Hs. simpl.
    repeat case_match; simplify_eq; rewrite ?elem_of_cons, ?elem_of_nil; intros; naive_solver.
Qed.

End laws.

(** * A small network *)

(** One file, the addresses that are taken with their sockets; an address can be
    taken once. *)
Record net := mkNet { n_file : list byte; n_bound : list (string * nat) }.

Definition net_open (w : net) : gset nat := list_to_set (n_bound w).*2.

Definition net_listen (addr : string) (w : net) : net * result string nat :=
  if bool_decide (addr ∈ (n_bound w).*1) then (w, Err "address already in use"%string)
  else
    let k := S (max_list (n_bound w).*2) in
    (mkNet (n_file w) (n_bound w ++ [(addr, k)]), Ok k).

#[export] Instance net_os : Os net := {
  os_ReadFile _ w := Ok (n_file w);
  os_listen _ addr _ w := net_listen addr w;
  os_listen_udp addr w := net_listen addr w;
  os_close k w := mkNet (n_file w) (filter (λ x, x.2 ≠ k) (n_bound w));
}.

Lemma net_listen_open addr w :
  opened (Some <$> (net_listen addr w).2) ## net_open w ∧
  net_open (net_listen addr w).1 = opened (Some <$> (net_listen addr w).2) ∪ net_open w.
Proof.
  unfold net_listen. case_bool_decide; simpl; [clear; set_solver|]. unfold net_open at 2. simpl.
  rewrite fmap_app, list_to_set_app_L. simpl. unfold net_open. split; [|clear; set_solver].
  intros k Hk%elem_of_singleton Hin. subst k. apply elem_of_list_to_set in Hin.
  apply max_list_elem_of_le in Hin. lia.
Qed.

#[export] Instance net_laws : OsLaws net_open.
Proof.
  split; [intros; apply net_listen_open|intros; apply net_listen_open|].
  intros k w. unfold net_open. simpl. apply set_eq. intros x.
  rewrite elem_of_difference, !elem_of_list_to_set, elem_of_singleton, !list_elem_of_fmap.
  setoid_rewrite list_elem_of_filter. naive_solver.
Qed.

(** Configurations with proxy ingresses at some addresses. *)
Definition proxy_ingress (addr : string) : IngressSpec :=
  mkIngressSpec ("in" +:+ addr) "tcp" addr "" (demo_extra []).

Definition proxies_root (addrs : list string) : Root :=
  mkRoot [mkServiceSpec "s" (proxy_ingress <$> addrs) []] [] [] [].

Definition is_tcp (t : string) : bool := String.eqb t "tcp".
Definition any_codec (c : string) : bool := true.
Definition no_probe (data : list byte) : option (gset string) := Some ∅.
Definition always (r : Root) (data : list byte) : option Root := Some r.

(** A process with one instance, a proxy at [:3]. *)
Definition served_proxy : ServerListener server nat :=
  mkServerListener (SrvProxy (ingress_listener (proxy_ingress ":3")) []) (Some 1%nat) None.
Definition running_instance (wg : list (ServerListener server nat)) : Instance starContext server nat Empty_set :=
  mkInstance "star" Run_input wg [served_proxy] no_hooks
    (Some (mkStarContext (buildRuntimeConfig (proxies_root [":3"%string])) ∅)).

(** The new configuration asks for [:1] and [:2], and [:2] is another process's. *)
Definition new_root : Root := proxies_root [":1"; ":2"]%string.
Definition before_reload : Proc net starContext server nat Empty_set :=
  mkProc (mkNet [] [(":3", 1%nat); (":2", 2%nat)]) [running_instance [served_proxy]] [0%nat] false.
Definition release (addr : string) (w : net) : net := mkNet (n_file w) (filter (λ x, x.1 ≠ addr) (n_bound w)).

Definition run_new (evs : list run_event) (p : Proc net starContext server nat Empty_set) :=
  run_loop is_tcp any_codec no_probe (always new_root) Run_input evs 0 p.

(** What the first failing reload leaves for ever: [:1] is taken by a listener of
    an instance that serves nothing. *)
Definition failed_instance (sls : list (ServerListener server nat)) : Instance starContext server nat Empty_set :=
  mkInstance "star" Run_input [] sls no_hooks (Some (mkStarContext (buildRuntimeConfig new_root) ∅)).
Definition leaked_listener : ServerListener server nat :=
  mkServerListener (SrvProxy (ingress_listener (proxy_ingress ":1")) []) (Some 3%nat) None.
Definition stuck_proc (h : list (Instance starContext server nat Empty_set)) (ins : list nat) :=
  mkProc (mkNet [] [(":1"%string, 3%nat)]) (running_instance [] :: h) ins false.

Lemma first_reload_fails :
  Reload is_tcp any_codec no_probe (always new_root) 0 Run_input before_reload =
  Ret (mkProc (mkNet [] [(":2", 2%nat); (":1", 3%nat)]) [running_instance []; failed_instance [leaked_listener]] [0%nat; 1%nat] false,
       Some 1%nat, Some "Listen: address already in use"%string).
Proof. vm_compute. reflexivity. Qed.

Lemma later_reload_fails h ins :
  Reload is_tcp any_codec no_probe (always new_root) 0 Run_input (stuck_proc h ins) =
  Ret (stuck_proc (h ++ [failed_instance []]) (ins ++ [S (length h)]),
       Some (S (length h)), Some "Listen: address already in use"%string).
Proof. vm_compute. reflexivity. Qed.

(** A reload that fails in the middle of its listeners cannot be repeated.
    The running instance is stopped, the listener opened before the failing one is
    kept by the process though no goroutine accepts on it, and [Run] goes on with
    the stopped instance. When the other process has released the address, every
    further [SIGHUP], however many, fails on the address the process itself has
    leaked; nothing is served any more. *)
Theorem reload_failure_sticks n :
  ∃ p', run_new (ESignal SIGHUP :: ESys (release ":2") :: replicate n (ESignal SIGHUP)) before_reload = Ret (p', Some 0%nat) ∧
    n_bound (pr_world p') = [(":1"%string, 3%nat)] ∧
    Forall (λ inst, i_wg inst = []) (pr_heap p').
Proof.
  unfold run_new. cbn [run_loop]. rewrite first_reload_fails. cbn [mbind outcome_bind].
  set (p1 := set_world _ _).
  assert (p1 = stuck_proc [failed_instance [leaked_listener]] [0%nat; 1%nat]) as -> by (vm_compute; reflexivity).
  assert (Forall (λ inst, i_wg inst = []) [failed_instance [leaked_listener]]) as Hh by (by repeat constructor).
  revert Hh. generalize [failed_instance [leaked_listener]], [0%nat; 1%nat].
  induction n as [|n IH]; intros h ins Hh; cbn [replicate run_loop].
  - eexists. split; [done|]. split; [done|]. by constructor.
  - rewrite later_reload_fails. cbn [mbind outcome_bind]. apply IH. apply Forall_app. split; [done|]. by repeat constructor.
Qed.

(** ** An instance with a packet socket *)

Definition udp_root : Root :=
  mkRoot [mkServiceSpec "s" [mkIngressSpec "u" "udp" ":9" "chain" (demo_extra [])] []]
    [mkHandlerSpec "chain" ["printer"%string]] [] [].

Lemma Stop_waits_for_packets {W} `{!Os W} has_transport has_codec i (p : star_proc (W := W)) inst l ln k :
  pr_heap p !! i = Some inst → mkServerListener (SrvChain l) ln (Some k) ∈ i_wg inst →
  @Stop _ _ _ _ _ (star_components has_transport has_codec) i p = Hang.
Proof.
  intros Hi Hin. unfold Stop, Wait. rewrite Hi. destruct (ShutdownCallbacks _ _) as [w errs].
  destruct (forallb _ (i_wg inst)) eqn:Hf; [|done]. exfalso.
  rewrite forallb_forall in Hf. apply list_elem_of_In in Hin. apply Hf in Hin. done.
Qed.

(** A process with a udp ingress cannot be stopped: [Run] starts it, and a
    termination signal, like a reload of a valid file, waits for ever for the
    goroutine that serves the packet socket. *)
Theorem udp_process_never_stops evs :
  let run := Run is_tcp any_codec no_probe (always udp_root) in
  (∃ p, run [] (mkNet [] []) = Ret (p, Some 0%nat)) ∧
  run (ESignal SIGTERM :: evs) (mkNet [] []) = Hang ∧
  run (ESignal SIGHUP :: evs) (mkNet [] []) = Hang.
Proof. split; [by eexists; vm_compute|]. by split; vm_compute. Qed.

(** ** Witnesses *)

Definition typo_root : Root :=
  mkRoot [mkServiceSpec "s" [proxy_ingress ":1"; mkIngressSpec "t" "tcp" ":2" "sockss5" (demo_extra [])] []] [] [] [].

(** A system on which every listening call succeeds; the state counts them. *)
Definition free_os : Os nat := {|
  os_ReadFile _ _ := Ok [];
  os_listen _ _ _ w := (S w, Ok w);
  os_listen_udp _ w := (S w, Ok w);
  os_close _ w := w;
|}.


