(* ===== verification/Frame.v ===== *)
(** The chain servers: the frame server (protocol/star/server.go, response.go),
    the component that runs it (internal/star/starserver/server.go) and the
    plugins it serves that are not modelled elsewhere: printer, forward and the
    http proxy (internal/star/plugin). The socks5 plugin is [Socks5]. *)
From S2P Require Import Prelude Pluginer StarRun.
From Stdlib Require Import ZArith Lia.

(** * Readers and responses *)

(** A [bufio.Reader] over a connection: what it has buffered and the segments the
    connection still delivers, an error after the last. *)
Record reader := mkReader { rd_buf : list byte; rd_segs : list (list byte) }.

Definition bufSize : nat := 4096.

Definition rd_bytes (rd : reader) : list byte := rd_buf rd ++ concat (rd_segs rd).

(** [Read] of at most [k] bytes: one read of the connection when the buffer is
    empty; [None] is its error. *)
Definition rd_Read (k : nat) (rd : reader) : reader * option (list byte) :=
  match rd_buf rd with
  | [] =>
      match rd_segs rd with
      | [] => (rd, None)
      | seg :: segs =>
          let rest := drop bufSize seg in
          let buf := take bufSize seg in
          (mkReader (drop k buf) (match rest with [] => segs | _ => rest :: segs end), Some (take k buf))
      end
  | buf => (mkReader (drop k buf) (rd_segs rd), Some (take k buf))
  end.

(** [response]: a datagram's sender, or a connection with its reader (a nil pointer
    for a datagram); [w_out] is what has been written. *)
Record response := mkResponse {
  w_pcSession : string;
  w_udp : bool;
  w_tcp : bool;
  w_reader : option reader;
  w_keepAlive : bool;
  w_out : list byte;
}.

Definition SetKeepAlive (status : bool) (w : response) : response :=
  mkResponse (w_pcSession w) (w_udp w) (w_tcp w) (w_reader w) status (w_out w).
Definition GetReader (w : response) : option reader := w_reader w.
Definition set_reader (rd : reader) (w : response) : response :=
  mkResponse (w_pcSession w) (w_udp w) (w_tcp w) (Some rd) (w_keepAlive w) (w_out w).

Definition GetConn (w : response) : bool := w_tcp w.

(** [LocalAddr]: the local address of the one of the two that is there. *)
Definition LocalAddr (udp_addr tcp_addr : string) (w : response) : outcome string :=
  if w_udp w then Ret udp_addr else if w_tcp w then Ret tcp_addr else Panic.

(** [Write]: to the sender of the datagram, or to the connection. *)
Definition Write (m : list byte) (w : response) : outcome response :=
  if w_udp w || w_tcp w
  then Ret (mkResponse (w_pcSession w) (w_udp w) (w_tcp w) (w_reader w) (w_keepAlive w) (w_out w ++ m))
  else Panic.

(** * The frame server *)

Section server.
(** [Handler.ServeStar]: may panic, and leaves the response behind. *)
Variable ServeStar : response → outcome response.

Definition tcp_response (rd : reader) : response := mkResponse "" false true (Some rd) false [].
Definition udp_response (addr : string) : response := mkResponse addr true false None false [].

(** The loop of [serveTCPConn]; nothing closes the connection after it. *)
Fixpoint serve_loop (fuel : nat) (w : response) : outcome response :=
  match fuel with
  | O => Hang
  | S fuel =>
      w ← ServeStar w;
      if negb (w_keepAlive w) then Ret w else serve_loop fuel w
  end.

Definition serveTCPConn (fuel : nat) (rd : reader) : outcome response := serve_loop fuel (tcp_response rd).

(** [ReadFrom] into 1024 bytes: what is longer is cut. *)
Definition udp_buffer : nat := 1024.

(** [serveUDPPacket]: a datagram is handed to a goroutine of its own, an error is
    printed; returns what the goroutine is started with. *)
Definition serveUDPPacket (r : result string (list byte * string)) : option (list byte * response) :=
  match r with
  | Err _ => None
  | Ok (data, addr) => Some (take udp_buffer data, udp_response addr)
  end.

(** [serveUDP] over the results of the successive reads: the goroutines it has
    started when [fuel] reads are done, and the error it returns. *)
Fixpoint serveUDP (fuel : nat) (reads : nat → result string (list byte * string))
    : list (list byte * response) * option string :=
  match fuel with
  | O => ([], None)
  | S fuel =>
      let g := serveUDPPacket (reads 0%nat) in
      let '(gs, ret) := serveUDP fuel (λ i, reads (S i)) in
      (match g with Some g => g :: gs | None => gs end, ret)
  end.

(** [serveTCP] over the results of [Accept]: the connections it serves and the
    error it returns. *)
Fixpoint serveTCP {C} (accepts : list (result string C)) : list C * option string :=
  match accepts with
  | [] => ([], None)
  | Err e :: _ => ([], Some e)
  | Ok c :: accepts => let '(cs, e) := serveTCP accepts in (c :: cs, e)
  end.
End server.

(** ** Which sockets are served *)

(** [star.Server] as far as [ActivateAndServe] looks at it. *)
Record starServer := mkStarServer { ss_Listener : option nat; ss_PacketConn : option nat }.

(** What [ActivateAndServe] goes on to serve; a packet socket is served for ever. *)
Definition ActivateAndServe (s : starServer) : list nat :=
  match ss_PacketConn s with
  | Some pc => [pc]
  | None => match ss_Listener s with Some l => [l] | None => [] end
  end.

(** [Server.Serve] and [Server.ServePacket] run in two goroutines of one server:
    each stores a [star.Server] in [s.server] under the mutex, releases it, and
    reads [s.server] again. *)
Inductive which := GServe | GPacket.
#[export] Instance which_eq_dec : EqDecision which.
Proof. solve_decision. Defined.

Inductive sphase_ := PStart | PStored | PServing (sockets : list nat).

Record sstate := mkSState { st_server : option starServer; st_serve : sphase_; st_packet : sphase_ }.

Definition phase_of (g : which) (s : sstate) : sphase_ := match g with GServe => st_serve s | GPacket => st_packet s end.
Definition set_phase_of (g : which) (ph : sphase_) (srv : option starServer) (s : sstate) : sstate :=
  match g with GServe => mkSState srv ph (st_packet s) | GPacket => mkSState srv (st_serve s) ph end.

Section race.
Variables (l p : option nat).

Definition stored (g : which) : starServer :=
  match g with GServe => mkStarServer l None | GPacket => mkStarServer None p end.

Definition serve_step (s : sstate) (g : which) : option sstate :=
  match phase_of g s with
  | PStart => Some (set_phase_of g PStored (Some (stored g)) s)
  | PStored =>
      match st_server s with
      | Some srv => Some (set_phase_of g (PServing (ActivateAndServe srv)) (st_server s) s)
      | None => None
      end
  | PServing _ => None
  end.

Fixpoint serve_run (gs : list which) (s : sstate) : option sstate :=
  match gs with
  | [] => Some s
  | g :: gs => s' ← serve_step s g; serve_run gs s'
  end.

Definition serve0 : sstate := mkSState None PStart PStart.

Definition served (s : sstate) : list nat :=
  (match st_serve s with PServing ks => ks | _ => [] end) ++
  (match st_packet s with PServing ks => ks | _ => [] end).
End race.

(** * The relay of the forward plugin and of CONNECT *)

Inductive side := Up | Down.
#[export] Instance side_eq_dec : EqDecision side.
Proof. solve_decision. Defined.

Inductive copy_phase := CReading | CWriting (chunk : list byte) | CDone.

(** [io.Copy] in one direction: what its source still has to give (and whether an
    end of file comes after it), what the destination has received. *)
Record direction := mkDirection {
  d_in : list byte; d_half : bool; d_out : list byte; d_phase : copy_phase }.

Record relay := mkRelay {
  r_up : direction;
  r_down : direction;
  r_done : list bool;         (* the channel: whether a copy ended without an error *)
  r_ret : option bool;        (* the handler has returned, the target is closed *)
}.

Definition dir (d : side) (r : relay) : direction := match d with Up => r_up r | Down => r_down r end.
Definition set_dir (d : side) (x : direction) (r : relay) : relay :=
  match d with
  | Up => mkRelay x (r_down r) (r_done r) (r_ret r)
  | Down => mkRelay (r_up r) x (r_done r) (r_ret r)
  end.

Inductive revent :=
  | ERead (d : side) (k : nat)
  | EReadErr (d : side)
  | EEof (d : side)
  | EWrite (d : side)
  | EWriteErr (d : side) (k : nat)
  | EWait.

(** The target is the source of [Down] and the destination of [Up]; it is closed
    when the handler has returned. *)
Definition src_closed (d : side) (r : relay) : bool :=
  bool_decide (d = Down) && bool_decide (is_Some (r_ret r)).
Definition dst_closed (d : side) (r : relay) : bool :=
  bool_decide (d = Up) && bool_decide (is_Some (r_ret r)).

Definition copy_end (d : side) (out : list byte) (ok : bool) (r : relay) : relay :=
  let x := dir d r in
  let r := set_dir d (mkDirection (d_in x) (d_half x) out CDone) r in
  mkRelay (r_up r) (r_down r) (r_done r ++ [ok]) (r_ret r).

Definition copy (d : side) (ev : revent) (r : relay) : option relay :=
  let x := dir d r in
  match ev, d_phase x with
  | ERead _ k, CReading =>
      if negb (src_closed d r) && Nat.ltb 0 k && Nat.leb k (length (d_in x))
      then Some (set_dir d (mkDirection (drop k (d_in x)) (d_half x) (d_out x) (CWriting (take k (d_in x)))) r)
      else None
  | EReadErr _, CReading => Some (copy_end d (d_out x) false r)
  | EEof _, CReading =>
      if negb (src_closed d r) && d_half x && bool_decide (d_in x = []) then Some (copy_end d (d_out x) true r) else None
  | EWrite _, CWriting chunk =>
      if dst_closed d r then None
      else Some (set_dir d (mkDirection (d_in x) (d_half x) (d_out x ++ chunk) CReading) r)
  | EWriteErr _ k, CWriting chunk =>
      if dst_closed d r && Nat.ltb 0 k then None else Some (copy_end d (d_out x ++ take k chunk) false r)
  | _, _ => None
  end.

(** The handler waits for the first copy to end, and returns. *)
Definition wait_step (r : relay) : option relay :=
  match r_ret r, r_done r with
  | None, ok :: done => Some (mkRelay (r_up r) (r_down r) done (Some ok))
  | _, _ => None
  end.

Definition rapply (r : relay) (ev : revent) : option relay :=
  match ev with
  | ERead d _ | EReadErr d | EEof d | EWrite d | EWriteErr d _ => copy d ev r
  | EWait => wait_step r
  end.

Fixpoint rrun (r : relay) (evs : list revent) : option relay :=
  match evs with
  | [] => Some r
  | ev :: evs => r' ← rapply r ev; rrun r' evs
  end.

Definition direction0 (i : list byte) (half : bool) : direction := mkDirection i half [] CReading.

(** A relay between a client, who sends [up], and a target, which sends [down]. *)
Definition relay0 (up : list byte) (up_half : bool) (down : list byte) (down_half : bool) : relay :=
  mkRelay (direction0 up up_half) (direction0 down down_half) [] None.

(** * The plugins *)

(** [Printer.ServeStar]: what is printed; a nil reader is dereferenced. *)
Definition printer_buffer : nat := 1024.

Definition printer_ServeStar (w : response) : outcome (response * list byte * error) :=
  let w := SetKeepAlive true w in
  match GetReader w with
  | None => Panic
  | Some rd =>
      match rd_Read printer_buffer rd with
      | (rd, None) => Ret (SetKeepAlive false (set_reader rd w), [], Some "EOF"%string)
      | (rd, Some data) => Ret (set_reader rd w, data, None)
      end
  end.

(** [Forward.ServeStar] up to its relay: [inl] is a return, [inr] the relay of the
    client's bytes, buffered ones first. [target] is what the dialed address sends. *)
Definition forward_begin (Target : string) (dial : string → result string (list byte * bool)) (client_half : bool)
    (w : response) : outcome (response * error + response * relay) :=
  let w := SetKeepAlive true w in
  match dial Target with
  | Err e => Ret (inl (SetKeepAlive false w, Some ("forward: dial target " +:+ Target +:+ ": " +:+ e)))
  | Ok (sends, half) =>
      match GetReader w with
      | None => Panic
      | Some rd => Ret (inr (w, relay0 (rd_bytes rd) client_half sends half))
      end
  end.

(** ... and after it. *)
Definition forward_end (w : response) (r : relay) : option (response * error) :=
  match r_ret r with
  | None => None
  | Some _ => Some (SetKeepAlive false w, None)
  end.

(** A parsed request. *)
Record Request := mkRequest {
  Method : string; rq_Scheme : string; rq_URLHost : string; rq_Path : string; rq_Host : string;
  rq_Header : list (string * string); rq_Body : list byte }.

Definition complete_url (r : Request) : Request :=
  mkRequest (Method r)
    (if String.eqb (rq_Scheme r) "" then "http"%string else rq_Scheme r)
    (if String.eqb (rq_URLHost r) "" then rq_Host r else rq_URLHost r)
    (rq_Path r) (rq_Host r) (rq_Header r) (rq_Body r).

Definition bytes (s : string) : list byte := String.list_byte_of_string s.
Definition crlf : list byte := [x0d; x0a].
Definition bad_gateway : list byte := bytes "HTTP/1.1 502 Bad Gateway" ++ crlf ++ crlf.
Definition established : list byte := bytes "HTTP/1.1 200 Connection established" ++ crlf ++ crlf.

Section http.
(** net/http: parsing from the reader, the check of [NewRequest], the exchange of
    the client with the response as it is written back. *)
Variable ReadRequest : reader → result string (Request * reader).
Variable NewRequest : Request → bool.
Variable Do : Request → result string (list byte).
Variable dial : string → result string (list byte * bool).

Definition handleHTTP (r : Request) (w : response) : outcome response :=
  let r := complete_url r in
  if negb (NewRequest r) then Write bad_gateway w
  else match Do r with Err _ => Ret w | Ok resp => Write resp w end.

(** [handleCONNECT] up to its relay. *)
Definition handleCONNECT (req : Request) (client_half : bool) (w : response) : outcome (response * error + response * relay) :=
  match dial (rq_Host req) with
  | Err e => Ret (inl (w, Some e))
  | Ok (sends, half) =>
      w ← Write established w;
      match GetReader w with
      | None => Panic
      | Some rd => Ret (inr (w, relay0 (rd_bytes rd) client_half sends half))
      end
  end.

Definition httpProxy_begin (client_half : bool) (w : response) : outcome (response * error + response * relay) :=
  let w := SetKeepAlive true w in
  match GetReader w with
  | None => Panic
  | Some rd =>
      match ReadRequest rd with
      | Err e => Ret (inl (SetKeepAlive false w, Some e))
      | Ok (req, rd) =>
          let w := set_reader rd w in
          if String.eqb (Method req) "CONNECT" then
            r ← handleCONNECT req client_half w;
            match r with
            | inl (w, Some e) => Ret (inl (SetKeepAlive false w, Some e))
            | r => Ret r
            end
          else w ← handleHTTP req w; Ret (inl (w, None))
      end
  end.

(** CONNECT's end: an error, whatever ended the relay. *)
Definition connect_end (w : response) (r : relay) : option (response * error) :=
  match r_ret r with
  | None => None
  | Some _ => Some (SetKeepAlive false w, Some "errChan"%string)
  end.

(** What the head of a chain does first with a response; no plugin calls the next.
    The socks5 server reads from the connection and the reader it is given. *)
Definition chain_begin (chain : option handler) (w : response) : outcome unit :=
  match chain with
  | None => Panic
  | Some (HPrinter _) => _ ← printer_ServeStar w; Ret tt
  | Some (HForward target _) => _ ← forward_begin target dial false w; Ret tt
  | Some (HHttpProxy _) => _ ← httpProxy_begin false w; Ret tt
  | Some (HSocks5 _) => match GetReader w with None => Panic | Some _ => Ret tt end
  end.
End http.

(** * The frame server *)

Lemma omap_fmap' {A B C} (f : B → option C) (g : A → B) (l : list A) : omap f (g <$> l) = omap (λ a, f (g a)) l.
Proof. induction l as [|a l IH]; cbn; [done|]. destruct (f (g a)); [f_equal|]; apply IH. Qed.

(** The packet loop never returns: whatever the reads give, an error of a
    closed socket included, it reads again; it has started one goroutine for every
    datagram, cut to 1024 bytes, in order. This is what [star_serve_ends] says of
    the chain servers. *)
Theorem serveUDP_never_returns fuel reads :
  (serveUDP fuel reads).2 = None ∧
  (serveUDP fuel reads).1 = omap (λ i, serveUDPPacket (reads i)) (seq 0 fuel).
Proof.
  revert reads. induction fuel as [|fuel IH]; intros reads; [done|]. cbn [serveUDP seq omap list_omap].
  destruct (IH (λ i, reads (S i))) as [H1 H2]. destruct (serveUDP fuel _) as [gs ret]. simpl in *. subst.
  split; [done|]. rewrite <- fmap_S_seq, omap_fmap'. by destruct (serveUDPPacket (reads 0%nat)).
Qed.

(** The chain server's two goroutines race for [s.server]: over a TCP listener [k]
    every complete interleaving ends with no, one or two accept loops on it. One,
    when each reads what it has stored itself; none, when [ServePacket]'s store
    comes between [Serve]'s store and its read: the ingress then accepts nothing,
    with no error. *)
Theorem listener_race k :
  (∀ gs s, serve_run (Some k) None gs serve0 = Some s → length gs = 4%nat → served s ∈ [[]; [k]; [k; k]]) ∧
  (∃ s, serve_run (Some k) None [GServe; GServe; GPacket; GPacket] serve0 = Some s ∧ served s = [k]) ∧
  (∃ s, serve_run (Some k) None [GServe; GPacket; GServe; GPacket] serve0 = Some s ∧ served s = []) ∧
  (∃ s, serve_run (Some k) None [GPacket; GServe; GPacket; GServe] serve0 = Some s ∧ served s = [k; k]).
Proof.
  split_and!; [|by eexists..].
  intros gs s Hr Hl. destruct gs as [|[] [|[] [|[] [|[] [|]]]]]; simpl in Hr; try done; injection Hr as <-;
    cbn; rewrite !elem_of_cons; auto.
Qed.

(** * The plugins *)

Lemma rd_Read_bytes k rd rd' data :
  rd_Read k rd = (rd', Some data) → rd_bytes rd = data ++ rd_bytes rd'.
Proof.
  unfold rd_Read, rd_bytes. destruct rd as [[|b buf] segs]; cbn [rd_buf rd_segs].
  - destruct segs as [|seg segs]; [done|]. intros [= <- <-]. cbn [rd_buf rd_segs].
    rewrite app_assoc, take_drop. simpl.
    destruct (drop bufSize seg) eqn:Hd; cbn [concat]; rewrite <- (take_drop bufSize seg) at 1; rewrite Hd.
    + by rewrite app_nil_r.
    + by rewrite app_assoc.
  - intros [= <- <-]. cbn [rd_buf rd_segs]. by rewrite app_assoc, take_drop.
Qed.

(** A reader whose connection delivers no empty segments makes progress. *)
Definition rd_ok (rd : reader) : Prop := Forall (λ seg, seg ≠ []) (rd_segs rd).

Lemma rd_Read_progress k rd :
  (0 < k)%nat → rd_ok rd →
  match rd_Read k rd with
  | (rd', None) => rd_bytes rd = [] ∧ rd' = rd
  | (rd', Some data) => data ≠ [] ∧ rd_ok rd'
  end.
Proof.
  unfold rd_Read, rd_ok, rd_bytes. intros Hk Hok. destruct rd as [[|b buf] segs]; cbn [rd_buf rd_segs] in *.
  - destruct segs as [|seg segs]; [done|]. apply Forall_cons in Hok as [Hs Hok]. split.
    + destruct seg as [|b seg], k; [done..|lia|done].
    + cbn [rd_segs]. case_match; [done|]. by constructor.
  - destruct k; [lia|done].
Qed.

Section printer.
(** The printer as the handler of a chain; what it prints, turn by turn. *)
Definition printer_handler (w : response) : outcome response := '(w, _, _) ← printer_ServeStar w; Ret w.

Fixpoint printed (fuel : nat) (w : response) : list byte :=
  match fuel with
  | O => []
  | S fuel =>
      match printer_ServeStar w with
      | Ret (w, data, None) => data ++ printed fuel w
      | _ => []
      end
  end.
End printer.

Lemma printer_turn rd ka :
  printer_ServeStar (mkResponse "" false true (Some rd) ka []) =
  match rd_Read printer_buffer rd with
  | (rd, None) => Ret (mkResponse "" false true (Some rd) false [], [], Some "EOF"%string)
  | (rd, Some data) => Ret (mkResponse "" false true (Some rd) true [], data, None)
  end.
Proof. done. Qed.

Lemma printer_handler_turn rd ka :
  printer_handler (mkResponse "" false true (Some rd) ka []) =
  match rd_Read printer_buffer rd with
  | (rd, None) => Ret (mkResponse "" false true (Some rd) false [])
  | (rd, Some data) => Ret (mkResponse "" false true (Some rd) true [])
  end.
Proof. unfold printer_handler. rewrite printer_turn. by destruct (rd_Read _ _) as [? []]. Qed.

(** The printer prints everything its connection sends and its loop ends with the
    connection's input; the server leaves the connection open ([serveTCPConn] has
    no close). *)
Theorem printer_prints_all rd :
  rd_ok rd →
  let fuel := S (length (rd_bytes rd)) in
  (∃ w, serveTCPConn printer_handler fuel rd = Ret w ∧ w_keepAlive w = false) ∧
  printed fuel (tcp_response rd) = rd_bytes rd.
Proof.
  unfold serveTCPConn.
  enough (∀ n rd ka, (length (rd_bytes rd) < n)%nat → rd_ok rd →
    let w := mkResponse "" false true (Some rd) ka [] in
    (∃ w', serve_loop printer_handler n w = Ret w' ∧ w_keepAlive w' = false) ∧ printed n w = rd_bytes rd) as H.
  { intros Hok. apply H; [lia|done]. }
  clear rd. induction n as [|n IH]; intros rd ka Hn Hok; [lia|].
  cbn [serve_loop printed]. rewrite printer_handler_turn, printer_turn.
  pose proof (rd_Read_progress printer_buffer rd ltac:(unfold printer_buffer; lia) Hok) as Hp.
  destruct (rd_Read printer_buffer rd) as [rd' [data|]] eqn:Hr; cbn [mbind outcome_bind w_keepAlive negb].
  2:{ destruct Hp as [Hp _]. split; [by eexists|]. by rewrite Hp. }
  destruct Hp as [Hne Hok']. apply rd_Read_bytes in Hr.
  assert (length (rd_bytes rd') < n)%nat as Hlt.
  { rewrite Hr, length_app in Hn. destruct data; [done|]. simpl in Hn. lia. }
  destruct (IH rd' true Hlt Hok') as [H1 H2]. split; [exact H1|]. rewrite Hr. f_equal. exact H2.
Qed.

(** One datagram is enough to crash the process: the response of a datagram
    has no reader, and every plugin uses it, but for a forward whose target cannot
    be dialed. *)
Theorem datagram_crashes ReadRequest NewRequest Do dial chain addr :
  (∀ target next, chain = Some (HForward target next) → ∃ r, dial target = Ok r) →
  chain_begin ReadRequest NewRequest Do dial chain (udp_response addr) = Panic.
Proof.
  intros Hd. destruct chain as [[next|next|target next|next]|]; try done.
  destruct (Hd target next eq_refl) as [[sends half] Hs]. simpl. unfold forward_begin. by rewrite Hs.
Qed.

(** No plugin passes a connection on: a chain is its first plugin. *)
Lemma chain_is_its_head ReadRequest NewRequest Do dial p ps w :
  chain_begin ReadRequest NewRequest Do dial (plugin_chain (p :: ps)) w =
  chain_begin ReadRequest NewRequest Do dial (Some (p (plugin_chain ps))) w.
Proof. done. Qed.

Lemma next_unused ReadRequest NewRequest Do dial next next' w :
  chain_begin ReadRequest NewRequest Do dial (Some (HSocks5 next)) w = chain_begin ReadRequest NewRequest Do dial (Some (HSocks5 next')) w ∧
  chain_begin ReadRequest NewRequest Do dial (Some (HHttpProxy next)) w = chain_begin ReadRequest NewRequest Do dial (Some (HHttpProxy next')) w ∧
  chain_begin ReadRequest NewRequest Do dial (Some (HPrinter next)) w = chain_begin ReadRequest NewRequest Do dial (Some (HPrinter next')) w ∧
  ∀ target, chain_begin ReadRequest NewRequest Do dial (Some (HForward target next)) w = chain_begin ReadRequest NewRequest Do dial (Some (HForward target next')) w.
Proof. done. Qed.

(** The answers of the http proxy to a request that is not CONNECT: an invalid one
    is answered 502; when the exchange fails nothing is written, and the
    connection is kept, so that the client waits; otherwise the response. *)
Lemma http_answers NewRequest Do r w :
  w_tcp w = true →
  handleHTTP NewRequest Do r w =
  (if NewRequest (complete_url r) then
     match Do (complete_url r) with
     | Err _ => Ret w
     | Ok resp => Ret (mkResponse (w_pcSession w) (w_udp w) (w_tcp w) (w_reader w) (w_keepAlive w) (w_out w ++ resp))
     end
   else Ret (mkResponse (w_pcSession w) (w_udp w) (w_tcp w) (w_reader w) (w_keepAlive w) (w_out w ++ bad_gateway))).
Proof.
  intros Ht. unfold handleHTTP, Write. rewrite Ht, orb_true_r.
  destruct (NewRequest _); [|done]. by destruct (Do _).
Qed.

(** * The relay *)

(** What a direction has received and carries is a prefix of what was sent. *)
Definition dir_inv (total : list byte) (x : direction) : Prop :=
  match d_phase x with
  | CReading => total = d_out x ++ d_in x
  | CWriting chunk => total = d_out x ++ chunk ++ d_in x
  | CDone => d_out x `prefix_of` total
  end.

(** A direction that ended without an error has carried everything. *)
Definition completed (total : list byte) (x : direction) : Prop := d_phase x = CDone ∧ d_out x = total.

Record relay_inv (up down : list byte) (r : relay) : Prop := {
  ri_up : dir_inv up (r_up r);
  ri_down : dir_inv down (r_down r);
  ri_done : true ∈ r_done r ∨ r_ret r = Some true → completed up (r_up r) ∨ completed down (r_down r);
}.

Definition total_of (d : side) (up down : list byte) : list byte := match d with Up => up | Down => down end.

(** One step of a copy: its own direction, what it reports, and nothing else. *)
Lemma copy_spec total d ev r r' :
  dir_inv total (dir d r) → copy d ev r = Some r' →
  dir_inv total (dir d r') ∧ d_phase (dir d r) ≠ CDone ∧ r_ret r' = r_ret r ∧
  (∃ x, r' = mkRelay (r_up (set_dir d x r)) (r_down (set_dir d x r)) (r_done r') (r_ret r)) ∧
  (r_done r' = r_done r ∨ ∃ ok, r_done r' = r_done r ++ [ok] ∧ (ok = true → completed total (dir d r'))).
Proof.
  intros Hi. unfold copy, copy_end. destruct ev; destruct (d_phase (dir d r)) eqn:Hp; try done;
    repeat case_match; try done; intros [= <-];
    unfold dir_inv in Hi; rewrite Hp in Hi; destruct d; simpl in *;
    (split; [|split; [done|split; [done|split; [by eexists|]]]]);
    try (by left); try (right; eexists; split; [done|]); try done.
  all: rewrite ?andb_true_iff in *; unfold completed, dir_inv; simpl; subst; try (by rewrite take_drop); try (by eexists);
    try (by rewrite app_assoc); try (intros _; split; [done|]);
    try (apply prefix_app, prefix_app_r, prefix_take).
  all: destruct_and!; match goal with H : bool_decide (_ = []) = true |- _ => apply bool_decide_eq_true in H; by rewrite H, app_nil_r end.
Qed.

Lemma copy_relay_inv up down d ev r r' :
  relay_inv up down r → copy d ev r = Some r' → relay_inv up down r'.
Proof.
  intros [Hu Hd Hdone] Hc.
  assert (dir_inv (total_of d up down) (dir d r)) as Hi by (by destruct d).
  destruct (copy_spec _ _ _ _ _ Hi Hc) as (Hi' & Hp & Hret & (x & Hx) & Hsent).
  assert (true ∈ r_done r' ∨ r_ret r' = Some true → completed up (r_up r') ∨ completed down (r_down r')) as Hfin.
  { rewrite Hret. intros Ht.
    assert ((true ∈ r_done r ∨ r_ret r = Some true) ∨ completed (total_of d up down) (dir d r')) as [Hc1|Hc1].
    { destruct Hsent as [He|(ok & He & Hok)]; rewrite He in Ht; [by left|].
      rewrite elem_of_app, list_elem_of_singleton in Ht. destruct Ht as [[?|<-]|?]; [by left; left|by right; apply Hok|by left; right]. }
    - destruct (Hdone Hc1) as [[H1 H2]|[H1 H2]]; destruct d; simpl in *; try congruence; rewrite Hx; simpl; [by left|by right].
    - destruct d; [by left|by right]. }
  destruct d; split; try done; simpl in *; rewrite Hx; done.
Qed.

Lemma frame_relay_init up uh down dh : relay_inv up down (relay0 up uh down dh).
Proof. split; [done|done|]. by intros [?%elem_of_nil|?]. Qed.

Lemma rrun_inv up down evs r r' : relay_inv up down r → rrun r evs = Some r' → relay_inv up down r'.
Proof.
  revert r. induction evs as [|ev evs IH]; intros r Hi; simpl; [by intros [= <-]|].
  destruct (rapply r ev) as [r1|] eqn:Hr; [|done]. simpl. apply IH.
  destruct ev as [d k|d|d|d|d k|]; cbn [rapply] in Hr;
    [by eapply copy_relay_inv..|].
  revert Hr. unfold wait_step. destruct Hi as [Hu Hd Hdone]. destruct (r_ret r), (r_done r) as [|ok done] eqn:Hde;
    [discriminate..|].
  intros [= <-]. split; simpl; [done|done|]. intros Ht. apply Hdone. rewrite elem_of_cons.
  destruct Ht as [Ht|[= ->]]; auto.
Qed.

(** The relay of the forward plugin and of CONNECT: in every interleaving both
    sides receive prefixes of what the other sent, and when the handler returns
    without an error one of the two directions is complete. *)
Theorem relay_prefixes up uh down dh evs r :
  rrun (relay0 up uh down dh) evs = Some r →
  d_out (r_up r) `prefix_of` up ∧ d_out (r_down r) `prefix_of` down ∧
  (r_ret r = Some true → d_out (r_up r) = up ∨ d_out (r_down r) = down).
Proof.
  intros Hr. apply (rrun_inv up down) in Hr as [Hu Hd Hdone]; [|apply frame_relay_init].
  assert (∀ t x, dir_inv t x → d_out x `prefix_of` t) as Hpre.
  { intros t x. unfold dir_inv. destruct (d_phase x); [intros ->; by eexists..|done]. }
  split; [by apply Hpre|]. split; [by apply Hpre|]. intros Ht. destruct (Hdone (or_intror Ht)) as [[_ ?]|[_ ?]]; auto.
Qed.

(** The other direction is cut: after the return nothing more reaches a client
    that was not being written to. *)
Lemma cut_down evs r r' :
  is_Some (r_ret r) → d_phase (r_down r) ≠ CDone → (∀ c, d_phase (r_down r) ≠ CWriting c) →
  rrun r evs = Some r' → d_out (r_down r') = d_out (r_down r).
Proof.
  intros Hret Hp Hw.
  assert ((d_phase (r_down r) = CReading ∨ d_phase (r_down r) = CDone)) as Hph by (destruct (d_phase (r_down r)); naive_solver).
  clear Hp Hw. revert r Hret Hph. induction evs as [|ev evs IH]; intros r Hret Hph; simpl; [by intros [= <-]|].
  destruct (rapply r ev) as [r1|] eqn:Hr; [|done]. simpl. intros Hrun.
  enough (is_Some (r_ret r1) ∧ d_out (r_down r1) = d_out (r_down r) ∧
    (d_phase (r_down r1) = CReading ∨ d_phase (r_down r1) = CDone)) as (H1 & H2 & H3).
  { rewrite <- H2. by apply IH. }
  destruct Hret as [b Hb]. destruct ev as [[] k|[]|[]|[]|[] k|]; simpl in Hr;
    unfold copy, copy_end, wait_step, src_closed, dst_closed in Hr; rewrite ?Hb in Hr; simpl in Hr;
    repeat case_match; simplify_eq; simpl; try (by eauto); try (by destruct Hph); rewrite Hb; eauto.
Qed.

(** A client of the forward plugin or of CONNECT that closes its sending side
    after its request loses the reply: once the request is forwarded the handler
    returns and closes the target, and the client receives nothing of the reply,
    whatever happens afterwards. (The comment on the plugin says that the end of a
    direction half closes the peer.) *)
Theorem half_close_loses_reply request reply dh :
  request ≠ [] →
  ∃ evs r, rrun (relay0 request true reply dh) evs = Some r ∧
    r_ret r = Some true ∧ d_out (r_up r) = request ∧
    ∀ evs' r', rrun r evs' = Some r' → d_out (r_down r') = [].
Proof.
  intros Hne. exists [ERead Up (length request); EWrite Up; EEof Up; EWait],
    (mkRelay (mkDirection [] true request CDone) (direction0 reply dh) [] (Some true)). split.
  { destruct request as [|b l]; [done|]. cbn [rrun rapply]. unfold relay0, direction0, copy at 1. cbn -[drop take].
    rewrite Nat.leb_refl. change (S (length l)) with (length (b :: l)). by rewrite drop_all, firstn_all. }
  split; [done|]. split; [done|].
  intros evs' r' Hr. apply cut_down in Hr as ->; simpl; done.
Qed.

(** ** Witnesses *)

Lemma datagram_crashes_witness :
  chain_begin (λ _, Err ""%string) (λ _, true) (λ _, Err ""%string) (λ _, Ok ([], true))
    (plugin_chain [HForward "t"; HSocks5]) (udp_response "peer") = Panic.
Proof. apply datagram_crashes. intros. by eexists. Defined.

Lemma half_close_loses_reply_witness :
  ∃ evs r, rrun (relay0 [x41] true [x42] true) evs = Some r ∧ r_ret r = Some true.
Proof.
  destruct (half_close_loses_reply [x41] [x42] true) as (evs & r & H1 & H2 & _); [discriminate|].
  by exists evs, r.
Defined.
