(* ===== verification/Codec.v ===== *)
(** The protocol codecs (protocol/codec): the registry and the raw codec. The ws
    codec hands over to protocol/ws, which is [Ws]. *)
From S2P Require Import Prelude.
From Stdlib Require Import ZArith Lia.

(** * The registry *)

(** The name is quoted in the error's text. *)
Inductive codec_err := UnknownCodec (name : string).

Section registry.
(** A [Codec] with its two directions is whatever a package registers. *)
Context {Codec : Type}.
Implicit Types (registry : gmap string Codec).

Definition Register (name : string) (c : Codec) registry : gmap string Codec := <[name := c]> registry.

Definition Get (name : string) registry : result codec_err Codec :=
  let name := if String.eqb name "" then "raw"%string else name in
  match registry !! name with
  | Some c => Ok c
  | None => Err (UnknownCodec name)
  end.

(** The empty name is the raw codec; the last registration of a name counts and
    leaves the others alone. *)
Lemma Get_Register name c registry n :
  Get n (Register name c registry) =
  if bool_decide (name = (if String.eqb n "" then "raw"%string else n)) then Ok c else Get n registry.
Proof.
  unfold Get, Register. cbn zeta. case_bool_decide as H; [subst name; by rewrite lookup_insert_eq|].
  by rewrite lookup_insert_ne.
Qed.

(** A name nobody registered is refused, the empty one by the name it stands for. *)
Lemma Get_unknown name registry :
  Get name registry = Err (UnknownCodec (if String.eqb name "" then "raw"%string else name)) ↔
  registry !! (if String.eqb name "" then "raw"%string else name) = None.
Proof. unfold Get. cbn zeta. by destruct (registry !! _). Qed.
End registry.

(** ** The registered codecs *)

Inductive builtin := RawCodec | wsCodec.

Definition Name (c : builtin) : string := match c with RawCodec => "raw" | wsCodec => "ws" end.

(** The two [init]s of the package, in the order of its files. *)
Definition inits : gmap string builtin := Register (Name wsCodec) wsCodec (Register (Name RawCodec) RawCodec ∅).

(** Each codec is found under its own name, the raw one also under the empty name,
    and there is no other. *)
Theorem inits_spec name c :
  Get name inits = Ok c ↔ name = Name c ∨ name = ""%string ∧ c = RawCodec.
Proof.
  unfold inits. rewrite !Get_Register. unfold Get.
  destruct (String.eqb_spec name "") as [->|Hne]; [|case_bool_decide as H1; [|case_bool_decide as H2]].
  - destruct c; vm_compute; intuition congruence.
  - subst name. destruct c; vm_compute; intuition congruence.
  - subst name. destruct c; vm_compute; intuition congruence.
  - rewrite lookup_empty. split; [done|]. by destruct c; simpl in *; intros [->|[-> _]].
Qed.

(** * The raw codec *)

(** A connection: the results its reads will have, each some bytes and perhaps an
    error with them, and what has been written. *)
Record rawConn := mkRawConn {
  rc_reads : list (list byte * option string);
  rc_written : list byte;
  rc_closed : bool;
}.

Definition raw_buffer : nat := 32 * 1024.

(** One [conn.Read] into [k] bytes; bytes that do not fit stay. *)
Definition conn_Read (k : nat) (c : rawConn) : rawConn * list byte * option string :=
  match rc_reads c with
  | [] => (c, [], Some "EOF"%string)
  | (data, err) :: rs =>
      match drop k data with
      | [] => (mkRawConn rs (rc_written c) (rc_closed c), data, err)
      | rest => (mkRawConn ((rest, err) :: rs) (rc_written c) (rc_closed c), take k data, None)
      end
  end.

(** [ReadMessage]: bytes that come with an error are not returned. *)
Definition ReadMessage (c : rawConn) : rawConn * result string (list byte) :=
  let '(c, data, err) := conn_Read raw_buffer c in
  (c, match err with Some e => Err e | None => Ok data end).

Definition WriteMessage (payload : list byte) (c : rawConn) : rawConn * option string :=
  if rc_closed c then (c, Some "use of closed network connection"%string)
  else (mkRawConn (rc_reads c) (rc_written c ++ payload) false, None).

Definition Close (c : rawConn) : rawConn := mkRawConn (rc_reads c) (rc_written c) true.

(** [Accept] and [Dial] wrap the connection. *)
Definition Accept (c : rawConn) : result string rawConn := Ok c.
Definition Dial (dial : string → result string rawConn) (addr : string) : result string rawConn := dial addr.

(** The messages up to the first error. *)
Fixpoint messages (fuel : nat) (c : rawConn) : list (list byte) * option string :=
  match fuel with
  | O => ([], None)
  | S fuel =>
      match ReadMessage c with
      | (c, Ok m) => let '(ms, e) := messages fuel c in (m :: ms, e)
      | (_, Err e) => ([], Some e)
      end
  end.

(** * Properties *)

Lemma raw_buffer_pos : (0 < raw_buffer)%nat.
Proof. unfold raw_buffer. lia. Qed.

Definition reads_weight (rs : list (list byte * option string)) : nat :=
  sum_list_with (λ r, S (length r.1)) rs.

(** Chunks keep the bytes in order: the messages that are read are the bytes of
    the reads without an error, in order and complete, whatever the sizes. *)
Lemma raw_stream_ok rs w cl :
  Forall (λ r, r.2 = None) rs →
  let '(ms, e) := messages (S (reads_weight rs)) (mkRawConn rs w cl) in
  concat ms = concat rs.*1 ∧ e = Some "EOF"%string.
Proof.
  remember (S (reads_weight rs)) as n eqn:Hn.
  assert (reads_weight rs < n)%nat as Hlt by lia. clear Hn.
  revert rs Hlt. induction n as [|n IH]; intros rs Hlt Hok; [lia|].
  destruct rs as [|[data err] rs]; [done|].
  apply Forall_cons in Hok as [Herr Hok]. simpl in Herr. subst err.
  cbn [messages]. unfold ReadMessage, conn_Read. cbn [rc_reads rc_written rc_closed].
  unfold reads_weight in Hlt. cbn [sum_list_with fst] in Hlt. fold (reads_weight rs) in Hlt.
  destruct (drop raw_buffer data) as [|b rest] eqn:Hd.
  - specialize (IH rs ltac:(lia) Hok). destruct (messages n _) as [ms e]. destruct IH as [IH ->].
    split; [|done]. cbn [concat fmap list_fmap fst]. by rewrite IH.
  - assert (length (drop raw_buffer data) < length data)%nat as Hlen.
    { rewrite length_drop. pose proof raw_buffer_pos. assert (length (drop raw_buffer data) > 0)%nat by (rewrite Hd; simpl; lia).
      rewrite length_drop in *. lia. }
    rewrite Hd in Hlen.
    assert (reads_weight ((b :: rest, None) :: rs) < n)%nat as Hw.
    { unfold reads_weight. cbn [sum_list_with fst]. fold (reads_weight rs). lia. }
    specialize (IH _ Hw ltac:(by constructor)). destruct (messages n _) as [ms e]. destruct IH as [IH ->].
    split; [|done]. cbn [concat fmap list_fmap fst]. rewrite IH. cbn [concat fmap list_fmap fst].
    rewrite <- Hd, app_assoc, take_drop. done.
Qed.

(** A read that returns its last bytes together with an error, as a reader may,
    loses them. *)
Lemma last_bytes_lost data e rs w cl :
  (length data ≤ raw_buffer)%nat → (ReadMessage (mkRawConn ((data, Some e) :: rs) w cl)).2 = Err e.
Proof. intros Hl. unfold ReadMessage, conn_Read. simpl. by rewrite drop_ge. Qed.
