(* ===== verification/Command.v ===== *)
(** The client's command (cmd/rainc/main.go): from the flags and the configuration
    to the dialer that is run. The server's command (cmd/raind/main.go) is
    [StarRun.Run]. *)
From S2P Require Import Prelude Message Config Dialer.
From Stdlib Require Import ZArith Lia.

(** * Strings *)

(** [splitCSV]: [cur] is [s[start:i]]. *)
Fixpoint split_from (cur s : string) : list string :=
  match s with
  | EmptyString => if String.eqb cur "" then [] else [cur]
  | String c s =>
      if Ascii.eqb c "," then
        (if String.eqb cur "" then split_from "" s else cur :: split_from "" s)
      else split_from (cur +:+ String c "") s
  end.

Definition splitCSV (s : string) : list string := split_from "" s.

Fixpoint string_drop (n : nat) (s : string) : string :=
  match n, s with S n, String _ s => string_drop n s | _, _ => s end.

(** [split2]: [cur] is [s[:i]]. *)
Fixpoint split2_from (sep cur s : string) : option (string * string) :=
  if String.prefix sep s then Some (cur, string_drop (String.length sep) s)
  else match s with
       | EmptyString => None
       | String c s => split2_from sep (cur +:+ String c "") s
       end.

Definition split2 (s sep : string) : string * string := default (s, ""%string) (split2_from sep "" s).

(** * The flags *)

Record flags := mkFlags {
  f_config : string;
  f_dialer : string;
  f_addr : string;
  f_identity : string;
  f_password : string;
  f_streams : string;
  f_keepalive : Z;
  f_tls : bool;
  f_tlsSkip : bool;
}.

Record dialerArgs := mkDialerArgs {
  da_name : string; da_addr : string; da_identity : string; da_password : string;
  da_streams : list RegisterStreamReq;
  da_keepalive : Z;
  da_tls : bool; da_tlsSkip : bool;
  da_localTargets : gmap string string;
}.

Definition or_else (flag value : string) : string := if String.eqb flag "" then value else flag.

(** The dialer of the configuration that the flags ask for: the first of its name. *)
Definition find_dialer (name : string) (ds : list DialerSpec) : option DialerSpec :=
  snd <$> list_find (λ d, dl_Name d = name) ds.

Definition local_streams (d : DialerSpec) : list RegisterStreamReq :=
  (λ loc, mkRegisterStreamReq (dl_Identity d) (ls_Stream loc)) <$> dl_Locals d.

Definition local_targets (d : DialerSpec) : gmap string string :=
  foldl (λ m loc, <[ls_Stream loc := ls_Addr loc]> m) ∅ (dl_Locals d).

Definition config_args (fl : flags) (d : DialerSpec) : dialerArgs :=
  mkDialerArgs (dl_Name d) (or_else (f_addr fl) (dl_Addr d)) (or_else (f_identity fl) (dl_Identity d))
    (or_else (f_password fl) (dl_KeyPassword d)) (local_streams d) (f_keepalive fl)
    (String.eqb (dl_Transport d) "tls") (f_tlsSkip fl) (local_targets d).

Definition manual_streams (s : string) : list RegisterStreamReq :=
  (λ part, let '(i, st) := split2 part ":" in mkRegisterStreamReq i st) <$> splitCSV s.

Definition manual_args (fl : flags) : dialerArgs :=
  mkDialerArgs (f_identity fl) (f_addr fl) (f_identity fl) (f_password fl) (manual_streams (f_streams fl))
    (f_keepalive fl) (f_tls fl) (f_tlsSkip fl) ∅.

Section main.
Variable ReadFile : string → result string (list byte).
Variable unmarshal_probe : list byte → option (gset string).
Variable unmarshal : list byte → option Root.

(** [main] up to [runDialer]; [None] is exit code 1. *)
Definition main (fl : flags) : option dialerArgs :=
  if negb (String.eqb (f_config fl) "") then
    match ReadFile (f_config fl) with
    | Err _ => None
    | Ok data =>
        match Load unmarshal_probe unmarshal data with
        | Err _ => None
        | Ok root => config_args fl <$> find_dialer (f_dialer fl) (Dialers root)
        end
    end
  else if String.eqb (f_password fl) "" || String.eqb (f_identity fl) "" then None
  else Some (manual_args fl).
End main.

(** [runDialer]: the dialer that is run. Its local dialer looks the stream up. *)
Definition runDialer (a : dialerArgs) : dialer_conf :=
  mkDialerConf (da_name a) (da_addr a) (da_password a) (da_streams a)
    (negb (Nat.eqb (size (da_localTargets a)) 0)) (da_tls a) (da_tlsSkip a) (da_keepalive a).

Definition LocalDialer (a : dialerArgs) (streamId : string) : result string string :=
  match da_localTargets a !! streamId with
  | Some target => Ok target
  | None => Err ("stream " +:+ streamId +:+ " has no local target")
  end.

(** * Properties *)

Lemma app_assoc_s (a b c : string) : (a +:+ b) +:+ c = a +:+ (b +:+ c).
Proof. induction a as [|x a IH]; [done|]. exact (f_equal (String x) IH). Qed.

Lemma app_nil_s (a : string) : a +:+ "" = a.
Proof. induction a as [|x a IH]; [done|]. exact (f_equal (String x) IH). Qed.

Lemma prefix_cons c sep c' s :
  String.prefix (String c sep) (String c' s) = if ascii_dec c c' then String.prefix sep s else false.
Proof. reflexivity. Qed.

Lemma prefix_drop sep s : String.prefix sep s = true → s = sep +:+ string_drop (String.length sep) s.
Proof.
  revert s. induction sep as [|c sep IH]; intros s; [by destruct s|].
  destruct s as [|c' s]; [discriminate|]. rewrite prefix_cons.
  destruct (ascii_dec c c') as [<-|]; [|discriminate]. intros H. exact (f_equal (String c) (IH s H)).
Qed.

Lemma prefix_app sep t : String.prefix sep (sep +:+ t) = true.
Proof.
  induction sep as [|x sep IH]; [by destruct t|].
  change (String x sep +:+ t) with (String x (sep +:+ t)). rewrite prefix_cons. by destruct (ascii_dec x x).
Qed.

(** [split2] cuts at a separator when there is one, and never drops anything. *)
Lemma split2_spec s sep :
  let '(a, b) := split2 s sep in
  s = a +:+ sep +:+ b ∨ (b = ""%string ∧ a = s ∧ ∀ a' b', s ≠ a' +:+ sep +:+ b').
Proof.
  unfold split2.
  assert (∀ cur s, match split2_from sep cur s with
    | Some (a, b) => cur +:+ s = a +:+ sep +:+ b
    | None => ∀ a' b', s ≠ a' +:+ sep +:+ b' end) as H.
  { clear s. intros cur s. revert cur. induction s as [|c s IH]; intros cur.
    - cbn [split2_from]. destruct (String.prefix sep "") eqn:Hp.
      + apply prefix_drop in Hp. by rewrite <- Hp.
      + intros a' b' He. destruct a'; [|discriminate]. destruct sep; [done|discriminate].
    - cbn [split2_from]. destruct (String.prefix sep (String c s)) eqn:Hp.
      + apply prefix_drop in Hp. by rewrite <- Hp.
      + specialize (IH (cur +:+ String c "")). destruct (split2_from _ _ s) as [[a b]|].
        * rewrite <- IH, app_assoc_s. done.
        * intros [|c' a'] b' Heq; [|injection Heq as _ Heq; by apply IH in Heq].
          change ("" +:+ sep +:+ b')%string with (sep +:+ b')%string in Heq. by rewrite Heq, prefix_app in Hp. }
  specialize (H ""%string s). destruct (split2_from sep "" s) as [[a b]|]; simpl; [by left|right; done].
Qed.

(** In configuration mode the address and the password can be overridden by a
    flag; the identity cannot: the flag is accepted and has no effect on the
    dialer that runs nor on the streams it registers, and neither has the tls
    flag. (The help of the flag says that it overrides the configuration.) *)
Lemma identity_flag_ignored ReadFile probe unmarshal fl identity tls :
  f_config fl ≠ ""%string →
  let fl' := mkFlags (f_config fl) (f_dialer fl) (f_addr fl) identity (f_password fl) (f_streams fl)
               (f_keepalive fl) tls (f_tlsSkip fl) in
  runDialer <$> main ReadFile probe unmarshal fl' = runDialer <$> main ReadFile probe unmarshal fl.
Proof.
  intros Hc%String.eqb_neq. unfold main. simpl. rewrite Hc. simpl.
  destruct (ReadFile _) as [data|]; [|done]. destruct (Load _ _ data) as [root|]; [|done].
  by destruct (find_dialer _ _).
Qed.

(** What a dialer of the configuration becomes: one stream per local service, under
    the dialer's own identity, with a target to connect to (the last one when a
    stream is listed twice). *)
Lemma main_config ReadFile probe unmarshal fl a :
  f_config fl ≠ ""%string → main ReadFile probe unmarshal fl = Some a →
  ∃ data root d, ReadFile (f_config fl) = Ok data ∧ Load probe unmarshal data = Ok root ∧
    d ∈ Dialers root ∧ dl_Name d = f_dialer fl ∧ a = config_args fl d ∧
    ∀ rr, rr ∈ da_streams a → rr_ClientProxyName rr = dl_Identity d ∧ ∃ target, LocalDialer a (rr_StreamId rr) = Ok target.
Proof.
  intros Hc%String.eqb_neq. unfold main. rewrite Hc. simpl.
  destruct (ReadFile _) as [data|] eqn:Hr; [|done]. destruct (Load _ _ data) as [root|] eqn:Hl; [|done].
  intros (d & Hf & ->)%fmap_Some. unfold find_dialer in Hf. apply fmap_Some in Hf as ([i d'] & Hf & ->).
  apply list_find_Some in Hf as (Hi & Hn & _). exists data, root, d'. split_and!; try done.
  { by eapply list_elem_of_lookup_2. }
  intros rr (loc & -> & Hin)%list_elem_of_fmap. split; [done|]. unfold LocalDialer. simpl.
  simpl in Hin. enough (is_Some (local_targets d' !! ls_Stream loc)) as [t ->] by eauto.
  unfold local_targets. revert Hin. generalize (∅ : gmap string string).
  induction (dl_Locals d') as [|x l IH]; intros m; [by intros ?%elem_of_nil|].
  intros [<-|Hin]%elem_of_cons; [|by apply IH]. simpl.
  assert (∀ m' : gmap string string, is_Some (m' !! ls_Stream loc) → is_Some (foldl (λ m loc, <[ls_Stream loc := ls_Addr loc]> m) m' l !! ls_Stream loc)) as Hk.
  { clear. induction l as [|y l IH]; intros m' Hm; [done|]. simpl. apply IH.
    destruct (decide (ls_Stream y = ls_Stream loc)) as [->|]; [rewrite lookup_insert_eq|rewrite lookup_insert_ne]; done. }
  apply Hk. rewrite lookup_insert_eq. done.
Qed.
