(* ===== verification/Tunnel.v ===== *)
(** The tunnel end to end: one proxied connection of the star server
    ([Proxy.papply], [CtrlProxy.handle]), the client that serves it
    ([CtrlClient.capply]) and the two directions of the session between them,
    run together. Between the external connection and the local one they are
    two ordered pipes of bytes, each with its end of file. *)
From S2P Require Import Prelude Message TextCodec Window StreamTable Adapter Handshake Config Register.
From S2P Require Import CtrlClient CtrlHub CtrlProxy Proxy.
From Stdlib Require Import ZArith Lia.

(** * What messages bring to a connection *)

(** A data frame brings its payload, a half close the end of the data. *)
Definition item_of (cid : Z) (m : Message) : option item :=
  if bool_decide (StreamID m = cid) then
    if bool_decide (Type_ m = MsgData) then Some (Some (Payload m))
    else if IsHalfClose m then Some None else None
  else None.

Definition items (cid : Z) (ms : list Message) : list item := omap (item_of cid) ms.

Definition item_bytes (its : list item) : list byte := concat (omap id its).

Lemma items_app cid ms1 ms2 : items cid (ms1 ++ ms2) = items cid ms1 ++ items cid ms2.
Proof. apply omap_app. Qed.

Lemma item_bytes_app is1 is2 : item_bytes (is1 ++ is2) = item_bytes is1 ++ item_bytes is2.
Proof. unfold item_bytes. by rewrite omap_app, concat_app. Qed.

Lemma item_bytes_mono is1 is2 : is1 `prefix_of` is2 → item_bytes is1 `prefix_of` item_bytes is2.
Proof. intros [r ->]. rewrite item_bytes_app. by eexists. Qed.

Lemma item_of_ctrl cid m : Type_ m ≠ MsgData → Type_ m ≠ MsgStreamClose → item_of cid m = None.
Proof. intros Hd Hs. unfold item_of, IsHalfClose. case_bool_decide; [|done]. by rewrite !bool_decide_false. Qed.

Lemma item_of_data cid p : item_of cid (mkMessage MsgData x00 cid p) = Some (Some p).
Proof. unfold item_of. simpl. by rewrite !bool_decide_true. Qed.

Lemma item_of_half cid : item_of cid (HalfClose cid) = Some None.
Proof. unfold item_of. simpl. by rewrite bool_decide_true. Qed.

Lemma item_of_full cid j : item_of cid (mkMessage MsgStreamClose x00 j []) = None.
Proof. unfold item_of. simpl. by case_bool_decide. Qed.

Lemma item_of_other cid m : StreamID m ≠ cid → item_of cid m = None.
Proof. intros H. unfold item_of. by rewrite bool_decide_false. Qed.

(** * The client's side *)

(** What a step of the client may do, seen by the connection [cid] at [l]: it
    sends [its] of it, forgets it or keeps it, and never makes another of its
    number. *)
Definition same_up (k k' : lconn) : Prop :=
  lc_id k' = lc_id k ∧ (lc_up k = UpEnd → lc_up k' = UpEnd) ∧ lc_io k `prefix_of` lc_io k'.

#[export] Instance same_up_closable : Closable same_up.
Proof.
  split; try done; [|by intros k; split_and!; [..|by eexists]].
  split; [done|]. intros k1 k2 k3 (?&?&?) (?&?&?). split_and!; [congruence|auto|by etrans].
Qed.

(** An update that keeps the number and the end of the uplink. *)
Ltac by_upd := intros ?; split_and!; [done|done|]; first [reflexivity | by eexists].

Section client.
Context {CJ : ControlJson} (cid : Z) (l : nat).

(** A request for a chained connection has another number. *)
Definition asks_other (m : Message) : Prop :=
  Type_ m = MsgClientConnReq → ∃ req : ClientConnReq, Payload m = json_marshal req ∧ cc_ConnID req ≠ cid.

Record crel (its : list item) (c c' : CtrlClient) : Prop := {
  cr_out : ∃ new, c_out c' = c_out c ++ new ∧ items cid new = its ∧ Forall asks_other new;
  cr_q j lx : connsQ c' !! j = Some lx → lx = l ∨ j = cid → connsQ c !! j = Some lx;
  cr_dial : dialConns c !! cid = None → dialConns c' !! cid = None;
  cr_up : keeps same_up c c';
  cr_ids i k' : c_heap c' !! i = Some k' → lc_id k' = cid → ∃ k, c_heap c !! i = Some k ∧ lc_id k = cid;
}.

Lemma out_nil c : ∃ new, c_out c = c_out c ++ new ∧ items cid new = [] ∧ Forall asks_other new.
Proof. exists []. rewrite app_nil_r. split_and!; [done..|constructor]. Qed.

#[export] Instance crel_refl : Reflexive (crel []).
Proof. intros c. split; try done; [apply (out_nil c)|by eauto]. Qed.

Lemma crel_trans a b c1 c2 c3 : crel a c1 c2 → crel b c2 c3 → crel (a ++ b) c1 c3.
Proof.
  intros [(n1 & H1 & <- & F1) Hq1 Hd1 Hu1 Hi1] [(n2 & H2 & <- & F2) Hq2 Hd2 Hu2 Hi2]. split; auto.
  - exists (n1 ++ n2). rewrite H2, H1, items_app, app_assoc. split_and!; [done..|by apply Forall_app].
  - by etrans.
  - intros i k' Hk' Hid. destruct (Hi2 _ _ Hk' Hid) as (k & Hk & Hid'). by eapply Hi1.
Qed.

#[export] Instance crel_nil_trans : Transitive (crel []).
Proof. intros c1 c2 c3. apply (crel_trans [] []). Qed.

(** A state that differs in what [crel] does not read. *)
Lemma crel_same c c' :
  c_out c' = c_out c → connsQ c' = connsQ c → (dialConns c !! cid = None → dialConns c' !! cid = None) →
  c_heap c' = c_heap c → crel [] c c'.
Proof.
  intros Ho Hq Hd Hh. split.
  - rewrite Ho. apply (out_nil c).
  - by rewrite Hq.
  - exact Hd.
  - apply keeps_heap; [apply _|done].
  - rewrite Hh. eauto.
Qed.

Lemma crel_heap c h : Forall2 same_up (c_heap c) h → crel [] c (with_heap c h).
Proof.
  intros Hf. split; try done.
  - apply (out_nil c).
  - intros i k Hk. destruct (Forall2_lookup_l _ _ _ _ _ Hf Hk) as (k' & ? & ?). by exists k'.
  - intros i k' Hk' Hid. destruct (Forall2_lookup_r _ _ _ _ _ Hf Hk') as (k & ? & ? & _). exists k. split; congruence.
Qed.

Lemma crel_upd f i c : (∀ k, same_up k (f k)) → crel [] c (upd f i c).
Proof. intros Hf. apply crel_heap. by apply Forall2_alter_id; [apply _|]. Qed.

Lemma crel_upd_opt f o c : (∀ k, same_up k (f k)) → crel [] c (upd_opt f o c).
Proof. destruct o; [by apply crel_upd|done]. Qed.

Lemma crel_send c m : asks_other m → crel (if (send c m).2 then items cid [m] else []) c (send c m).1.
Proof.
  intros Hm. unfold send. destruct (_ && _); [|done]. split; simpl; try done; [exists [m]; split_and!; try done; by constructor|by intros i k; exists k|by eauto].
Qed.

Lemma crel_send_ctrl c m : item_of cid m = None → asks_other m → crel [] c (send c m).1.
Proof.
  intros Hm Ha. pose proof (crel_send c m Ha) as H. assert (items cid [m] = []) as E by (unfold items; simpl; by rewrite Hm).
  rewrite E in H. by destruct (send c m).2.
Qed.

Lemma crel_maps c cs ws qs :
  (∀ j lx, qs !! j = Some lx → lx = l ∨ j = cid → connsQ c !! j = Some lx) → crel [] c (CtrlClient.with_conns c cs ws qs).
Proof. intros Hq. split; simpl; try done; [apply (out_nil c)|by intros i k; exists k|by eauto]. Qed.

Lemma crel_grow c k : lc_id k ≠ cid → crel [] c (with_heap c (c_heap c ++ [k])).
Proof.
  intros Hk. split; simpl; try done.
  - apply (out_nil c).
  - eapply keeps_grow; [apply _|done].
  - intros i k' [H|[_ H]]%lookup_app_Some; [by eauto|]. apply list_lookup_singleton_Some in H as [_ <-]. done.
Qed.

Lemma crel_closeConn c j notify : crel [] c (CtrlClient.closeConn c j notify).
Proof.
  unfold CtrlClient.closeConn. set (c1 := CtrlClient.with_conns _ _ _ _).
  assert (crel [] c c1) as H1. { apply crel_maps. by intros i lx [_ ?]%lookup_delete_Some. }
  destruct (CtrlClient.conns c !! j); [|done]. etrans; [exact H1|]. set (c2 := upd (add_io LClose) _ _).
  assert (crel [] c1 c2) as H2.
  { etrans; [|apply crel_upd; by_upd]. etrans; apply crel_upd_opt; by_upd. }
  etrans; [exact H2|]. destruct notify; [|done]. by apply crel_send_ctrl; [apply item_of_full|].
Qed.

Lemma Forall2_foldl_alter f (ls : list (Z * nat)) h :
  (∀ k, same_up k (f k)) → Forall2 same_up h (foldl (λ h x, alter f x.2 h) h ls).
Proof.
  intros Hf. revert h. induction ls as [|x ls IH]; intros h; simpl; [done|].
  etrans; [|apply IH]. by apply Forall2_alter_id; [apply _|].
Qed.

Lemma crel_run_end c : crel [] c (run_end c).
Proof.
  unfold run_end, closeAllConns. set (c1 := set_loop _ _). assert (crel [] c c1) as H1 by by apply crel_same.
  etrans; [exact H1|]. match goal with |- crel [] c1 (with_dials (CtrlClient.with_conns (with_dheap (with_heap _ ?h) _ _) _ _ _) _ _ _) => set (h1 := h) end.
  etrans; [apply (crel_heap c1 h1)|].
  - unfold h1. etrans; apply Forall2_foldl_alter; by_upd.
  - split; simpl; try done; [apply (out_nil c1)|by intros i k; exists k|by eauto].
Qed.

Lemma crel_open c k cs ws :
  lc_id k ≠ cid → is_Some (c_heap c !! l) →
  crel [] c (CtrlClient.with_conns (with_heap c (c_heap c ++ [k])) cs ws (<[lc_id k := length (c_heap c)]> (connsQ c))).
Proof.
  intros Hk [k0 Hl]. apply lookup_lt_Some in Hl. etrans; [by apply crel_grow|]. set (c1 := with_heap _ _).
  apply crel_maps. intros j lx [[<- <-]|[_ ?]]%lookup_insert_Some Hj; [|done]. exfalso. destruct Hj; [lia|done].
Qed.

Section run.
Context (quote : string → string).
Hypothesis cid_range : 0 ≤ cid < 2 ^ 31.

(** A [ConnOpen] asks for another connection. *)
Definition opens_other (m : Message) : Prop :=
  Type_ m = MsgConnOpen → ∀ req : ConnOpenReq, DecodeControl m = Ok req → cr_ConnID req ≠ cid.

Lemma crel_handleConnOpen c m dialed :
  Type_ m = MsgConnOpen → opens_other m → is_Some (c_heap c !! l) → crel [] c (handleConnOpen quote c m dialed).
Proof.
  intros Ht Ho Hl. unfold handleConnOpen. destruct (DecodeControl (A := ConnOpenReq) m) as [req|e] eqn:Ed; [|done].
  pose proof (Ho Ht req Ed) as Hne. set (reply := match streamIDs c !! _ with Some _ => _ | None => _ end). destruct reply as [ok reason].
  set (ack := control_message _ _). pose proof (crel_send_ctrl c ack ltac:(by apply item_of_ctrl) ltac:(done)) as Hs.
  assert (is_Some (c_heap (send c ack).1 !! l)) as Hl'.
  { destruct Hl as [k Hk]. destruct (cr_up _ _ _ Hs _ _ Hk) as (k' & ? & _). by exists k'. }
  destruct (send c ack) as [c1 sent]. simpl in Hs, Hl'. destruct ok; simpl; [|exact Hs]. etrans; [exact Hs|].
  destruct sent; simpl; [|by apply crel_grow].
  apply (crel_open c1 (mkLconn (cr_ConnID req) [] false [] (NewWindow DefaultStreamWindow) true UpStart)); done.
Qed.

Lemma crel_dial_deliver pick c ld it c' : dial_deliver pick c ld it = Some c' → crel [] c c'.
Proof.
  unfold dial_deliver. destruct (c_dheap c !! ld); [|by intros [= <-]].
  destruct (deliver _ _ _); [|done]. intros [= <-]. by apply crel_same.
Qed.

Lemma crel_run_msg pick c m dialed c' :
  opens_other m → is_Some (c_heap c !! l) →
  run_msg quote pick c m dialed = Some c' → crel [] c c'.
Proof.
  intros Ho Hl. unfold run_msg. case_bool_decide as Ht; [intros [= <-]; by apply crel_handleConnOpen|].
  case_bool_decide as Ht1.
  { destruct (dialConns c !! _); [by apply crel_dial_deliver|].
    destruct (connsQ c !! _); intros [= <-]; [by apply crel_same|done]. }
  case_bool_decide as Ht2.
  { destruct (dialConns c !! _).
    - destruct (dial_deliver _ _ _ _) as [c1|] eqn:E; [|done]. intros [= <-]. etrans; [by eapply crel_dial_deliver|].
      apply crel_same; try done. intros H. simpl. rewrite lookup_delete_None. by right.
    - intros [= <-]. destruct (IsHalfClose m); [|apply crel_closeConn].
      unfold halfCloseConn. destruct (connsQ c !! _); [by apply crel_same|done]. }
  case_bool_decide as Ht3.
  { pose proof (crel_send_ctrl c (mkMessage MsgPong x00 (StreamID m) (Payload m)) ltac:(by apply item_of_ctrl) ltac:(done)) as Hs.
    destruct (send c _) as [c1 []]; intros [= <-]; [exact Hs|]. etrans; [exact Hs|apply crel_run_end]. }
  case_bool_decide as Ht4.
  { destruct (DecodeControl (A := WindowUpdate) m) as [wu|]; intros [= <-]; [|done]. apply crel_upd_opt; by_upd. }
  case_bool_decide as Ht5; [|by intros [= <-]].
  destruct (DecodeControl (A := ClientConnAck) m) as [ack|]; intros [= <-]; [|done].
  destruct (dialAcks c !! _); by apply crel_same.
Qed.

Lemma high_number_ne n : Z.lor 2147483648 n ≠ cid.
Proof.
  intros H. assert (Z.testbit cid 31 = false) as Hb.
  { apply Z.testbit_false; [lia|]. by rewrite Z.div_small by lia. }
  by rewrite <- H, Z.lor_spec in Hb.
Qed.

Lemma crel_DialIntranet_begin c name streamId : crel [] c (DialIntranet_begin c name streamId).1.
Proof.
  unfold DialIntranet_begin. destruct (negb _); [done|]. destruct (_ <=? _); [done|].
  match goal with |- context [send ?c ?m] => set (c1 := c); set (m1 := m) end.
  assert (crel [] c c1) as H1.
  { apply crel_same; try done. intros H. unfold c1. simpl. rewrite lookup_insert_ne by apply high_number_ne. done. }
  pose proof (crel_send_ctrl c1 m1 ltac:(by apply item_of_ctrl)
    ltac:(intros _; eexists; split; [done|apply high_number_ne])) as Hs.
  destruct (send c1 m1) as [c2 []]; simpl in *; [by etrans|]. etrans; [exact H1|]. etrans; [exact Hs|].
  apply crel_same; try done. intros H. simpl. rewrite lookup_delete_None. by right.
Qed.

(** What an event of the client sends of the connection. *)
Definition read_at (ev : cevent) : list byte :=
  match ev with CUpRead i p => if bool_decide (i = l) then p else [] | _ => [] end.

(** An uplink event of the connection itself, or one that sends nothing of it. *)
Lemma crel_uplink_send c i k p :
  ∃ its, crel its c (uplink_send c i k p) ∧
    (its = items cid [mkMessage MsgData x00 (lc_id k) p] ∨
     its = [] ∧ ∀ k', c_heap (uplink_send c i k p) !! i = Some k' → lc_up k' = UpEnd).
Proof.
  unfold uplink_send, SendData. set (m := mkMessage _ _ _ _). pose proof (crel_send c m ltac:(done)) as Hs.
  destruct (send c m) as [c1 []]; simpl in *.
  - eexists. split; [exact Hs|by left].
  - exists []. split.
    + etrans; [exact Hs|]. etrans; [apply crel_closeConn|apply crel_upd; by_upd].
    + right. split; [done|]. intros k'. simpl. rewrite list_lookup_alter_eq. by intros (k1 & _ & ->)%fmap_Some.
Qed.

(** The connection is the only one of its number. *)
Definition only (c : CtrlClient) : Prop := ∀ i k, c_heap c !! i = Some k → lc_id k = cid → i = l.

Lemma crel_only its c c' : crel its c c' → only c → only c'.
Proof. intros Hr Ho i k' Hk' Hid. destruct (cr_ids _ _ _ Hr _ _ Hk' Hid) as (k & Hk & ?). by eapply Ho. Qed.

(** What an event sends of the connection, the uplink going from [k] to [k']. *)
Record up_step (ev : cevent) (k k' : lconn) (its : list item) : Prop := {
  us_read : read_at ev ≠ [] → lc_up k ≠ UpEnd;
  us_eof : ev = CUpEOF l → lc_up k ≠ UpEnd ∧ lc_up k' = UpEnd;
  us_its : its = [] ∧ (read_at ev = [] ∨ lc_up k' = UpEnd) ∨ its = [Some (read_at ev)] ∧ read_at ev ≠ [] ∨
    its = [None] ∧ ev = CUpEOF l;
}.

Lemma up_step_quiet ev c c' k :
  read_at ev = [] → ev ≠ CUpEOF l → c_heap c !! l = Some k → crel [] c c' →
  ∃ its k', crel its c c' ∧ c_heap c' !! l = Some k' ∧ up_step ev k k' its.
Proof.
  intros Hr He Hk Hc. destruct (cr_up _ _ _ Hc _ _ Hk) as (k' & Hk' & _). exists [], k'. split_and!; [done..|].
  split; [done|done|]. left. split; [done|by left].
Qed.

Lemma items_other (j : Z) m : StreamID m = j → j ≠ cid → items cid [m] = [].
Proof. intros <- H. unfold items. simpl. by rewrite item_of_other. Qed.

Lemma capply_up c i k0 p c' k :
  only c → c_heap c !! l = Some k → lc_id k = cid → c_heap c !! i = Some k0 → p ≠ [] →
  lc_up k0 ≠ UpEnd → (∃ win, uplink_data c i k0 win p = Some c') →
  ∃ its k', crel its c c' ∧ c_heap c' !! l = Some k' ∧ up_step (CUpRead i p) k k' its.
Proof.
  intros Ho Hk Hid Hk0 Hp Hup [win Ha].
  assert (∃ its, crel its c c' ∧ (its = items cid [mkMessage MsgData x00 (lc_id k0) p] ∨
     its = [] ∧ ∀ k', c_heap c' !! i = Some k' → lc_up k' = UpEnd)) as (its & Hc & Hits).
  { assert (crel [] c (upd (set_uplink UpEnd) i c)) as Hend by by apply crel_upd.
    assert (∀ k', c_heap (upd (set_uplink UpEnd) i c) !! i = Some k' → lc_up k' = UpEnd) as Hend'.
    { intros k'. simpl. rewrite list_lookup_alter_eq. by intros (k1 & _ & ->)%fmap_Some. }
    unfold uplink_data in Ha. destruct (win ≫= _) as [[lw w]|]; [|injection Ha as <-; apply crel_uplink_send].
    destruct (closed w); [injection Ha as <-; exists []; eauto|].
    destruct (acquire_now _ _ _) as [w'|].
    - injection Ha as <-. destruct (crel_uplink_send (upd (set_window w') lw c) i k0 p) as (its & H1 & H2).
      exists its. split; [|exact H2]. apply (crel_trans [] its _ (upd (set_window w') lw c)); [apply crel_upd; by_upd|exact H1].
    - destruct (c_closed c); [injection Ha as <-; exists []; eauto|done]. }
  destruct (cr_up _ _ _ Hc _ _ Hk) as (k' & Hk' & _). exists its, k'. split_and!; [done..|].
  destruct (decide (i = l)) as [->|Hne].
  - assert (k0 = k) as -> by congruence. rewrite Hid in Hits.
    assert (read_at (CUpRead l p) = p) as Hr by (simpl; by rewrite bool_decide_true).
    split; [done|done|]. rewrite Hr. destruct Hits as [-> | [-> He]].
    + right. left. split; [|done]. unfold items. cbn [omap list_omap]. by rewrite item_of_data.
    + left. split; [done|]. right. by apply He.
  - assert (read_at (CUpRead i p) = []) as Hr by (simpl; by rewrite bool_decide_false).
    split; [by rewrite Hr|congruence|]. left. split; [|by left].
    destruct Hits as [-> | [-> _]]; [|done]. eapply items_other; [done|]. intros E. by apply Hne, (Ho i k0).
Qed.

Lemma capply_crel c ev c' k :
  only c → c_heap c !! l = Some k → lc_id k = cid → (∀ pick m d, ev = CRecv pick m d → opens_other m) →
  capply quote c ev = Some c' →
  ∃ its k', crel its c c' ∧ c_heap c' !! l = Some k' ∧ up_step ev k k' its.
Proof.
  intros Ho Hk Hid Hev Ha.
  destruct ev; simpl in Ha; try (apply up_step_quiet; [done|done|done|]).
  - destruct (c_loop c); try done. eapply crel_run_msg; [by eapply Hev|by exists k|done].
  - destruct (c_loop c) as [|l' it| |]; try done. destruct (c_heap c !! l') as [k1|]; [|done].
    destruct (lc_qclosed k1); [injection Ha as <-; by apply crel_same|]. case_bool_decide; [|done]. injection Ha as <-.
    etrans; [apply (crel_upd (set_q (lc_q k1 ++ [it])) l'); by_upd|by apply crel_same].
  - destruct (c_loop c); try done. injection Ha as <-. apply crel_run_end.
  - injection Ha as <-. by apply crel_same.
  - apply bind_Some in Ha as (k1 & Hk1 & Ha). unfold pump in Ha. destruct (lc_pump k1); [|done]. simpl in Ha.
    destruct (lc_q k1) as [|[p|] q]; [destruct (lc_qclosed k1); [|done]|destruct (ok && _)|]; injection Ha as <-.
    + apply crel_upd; by_upd.
    + set (c1 := upd (add_io (LWrite p)) _ _). etrans; [|by apply crel_send_ctrl; [apply item_of_ctrl|]].
      unfold c1. etrans; apply crel_upd; by_upd.
    + etrans; [|apply crel_upd; by_upd]. etrans; [|apply crel_closeConn]. apply crel_upd; by_upd.
    + etrans; apply crel_upd; by_upd.
  - apply bind_Some in Ha as (k1 & Hk1 & Ha). destruct (lc_up k1) eqn:Eu; try done. injection Ha as <-.
    apply crel_heap. apply Forall2_alter_id; [apply _|]. intros k2 Hk2. assert (k2 = k1) as -> by congruence.
    split_and!; [done|congruence|done].
  - apply bind_Some in Ha as (k1 & Hk1 & Ha). destruct (lc_up k1) eqn:Eu; try done.
    destruct (_ || _) eqn:Eg; [done|]. apply orb_false_iff in Eg as [[_ Hp%bool_decide_eq_false]%orb_false_iff _].
    eapply capply_up; try done; [congruence|by eexists].
  - apply bind_Some in Ha as (k1 & Hk1 & Ha). destruct (lc_up k1) eqn:Eu; try done. destruct (local_closed k1); [done|].
    injection Ha as <-. pose proof (crel_send c (HalfClose (lc_id k1)) ltac:(done)) as Hs.
    set (c1 := (send c (HalfClose (lc_id k1))).1) in *. set (b := (send c _).2) in *.
    assert (crel (if b then items cid [HalfClose (lc_id k1)] else []) c (upd (set_uplink UpEnd) l0 c1)) as Hc.
    { rewrite <- (app_nil_r (if b then _ else _)). eapply crel_trans; [exact Hs|apply crel_upd; by_upd]. }
    destruct (cr_up _ _ _ Hc _ _ Hk) as (k' & Hk' & _). eexists _, k'. split_and!; [exact Hc|done|].
    destruct (decide (l0 = l)) as [->|Hne].
    + assert (k1 = k) as -> by congruence. split; [done| |].
      * intros _. split; [congruence|]. simpl in Hk'. rewrite list_lookup_alter_eq in Hk'. by apply fmap_Some in Hk' as (? & _ & ->).
      * rewrite Hid. destruct b; [right; right|left; split; [done|by left]]. split; [|done].
        unfold items. cbn [omap list_omap]. by rewrite item_of_half.
    + split; [done|congruence|]. left. split; [|by left]. destruct b; [|done].
      eapply items_other; [done|]. intros E. by apply Hne, (Ho l0 k1).
  - apply bind_Some in Ha as (k1 & Hk1 & Ha). destruct (lc_up k1); try done. injection Ha as <-.
    etrans; [apply crel_closeConn|apply crel_upd; by_upd].
  - injection Ha as <-. apply crel_DialIntranet_begin.
  - assert (∀ ack c1, crel [] c1 (DialIntranet_end c1 connID l0 ack).1) as Hend.
    { intros ack c1. assert (crel [] c1 (cleanup c1 connID)) as Hcl.
      { apply crel_same; try done. intros H. simpl. rewrite lookup_delete_None. by right. }
      destruct ack as [ack|]; simpl; [by destruct (cca_OK ack)|done]. }
    destruct timeout; [injection Ha as <-; apply (Hend None)|].
    destruct (c_chans c !! _) as [[a|]|]; try done. injection Ha as <-. etrans; [|apply (Hend (Some a))]. by apply crel_same.
Qed.
End run.
End client.

(** * The server's side *)

(** What the other goroutines of the server, and this session's messages about
    other connections, may do to the connection [cid] at [loc]: they may unmap
    and then close it, nothing else. *)
Section server.
Context (cid : Z) (loc : conn_loc).

Record other_hub (h h' : CtrlHub) : Prop := {
  oh_conns lx : conns h' !! cid = Some lx → conns h !! cid = Some lx;
  oh_only i : conns h' !! i = Some loc → conns h !! i = Some loc;
  oh_entry e : hub_entry h loc = Some e → ∃ e', hub_entry h' loc = Some e' ∧ ce_Sink e' = ce_Sink e ∧
    ce_RemoteClosed e' = ce_RemoteClosed e ∧ (conns h' !! cid = Some loc → ce_Done e' = ce_Done e);
}.

#[export] Instance other_hub_refl : Reflexive other_hub.
Proof. intros h. split; [done|done|]. intros e He. by exists e. Qed.

#[export] Instance other_hub_trans : Transitive other_hub.
Proof.
  intros h1 h2 h3 [Hc1 Ho1 He1] [Hc2 Ho2 He2]. split; [auto..|].
  intros e (e1 & H1 & ? & ? & Hd1)%He1. destruct (He2 _ H1) as (e2 & ? & ? & ? & Hd2).
  exists e2. split_and!; [done|congruence..|]. intros Hm. rewrite Hd2, Hd1; auto.
Qed.

(** No other number is mapped to the entry. *)
Definition hub_only (h : CtrlHub) : Prop := ∀ i, conns h !! i = Some loc → i = cid.

Lemma other_hub_only h h' : other_hub h h' → hub_only h → hub_only h'.
Proof. intros [_ Ho _] H i Hi. by apply H, Ho. Qed.

Lemma other_hub_same h h' : conns h' = conns h → hub_heap h' = hub_heap h → other_hub h h'.
Proof. intros Hc Hh. unfold hub_entry. split; unfold hub_entry; rewrite ?Hc, ?Hh; eauto. Qed.

Lemma other_hub_sub h m :
  (∀ i lx, m !! i = Some lx → conns h !! i = Some lx) → other_hub h (with_conns h m).
Proof. intros Hm. split; simpl; [auto..|]. intros e He. by exists e. Qed.

Lemma other_hub_upd f lx h :
  (lx = loc → ∀ e, ce_Sink (f e) = ce_Sink e ∧ ce_RemoteClosed (f e) = ce_RemoteClosed e ∧
     (conns h !! cid = Some loc → ce_Done (f e) = ce_Done e)) → other_hub h (upd_entry f lx h).
Proof.
  intros Hf. split; [done..|]. intros e He. rewrite hub_entry_upd. case_decide as Hl; [|by exists e].
  rewrite He. exists (f e). split; [done|]. destruct (Hf Hl e) as (?&?&?). by split_and!.
Qed.

Lemma other_Downlink pick h j p h' b :
  hub_only h → j ≠ cid → Downlink pick h j p = Some (h', b) → other_hub h h'.
Proof.
  intros Ho Hj. unfold Downlink. destruct (conns h !! j) as [lx|] eqn:Hl; simpl; [|by intros [= <- _]].
  assert (lx ≠ loc) as Hne by (intros ->; by apply Hj, Ho). destruct (hub_entry h lx) as [e|]; simpl; [|by intros [= <- _]].
  assert (other_hub h (count_out h lx (length p))) as Hc.
  { unfold count_out. case_match; [by apply other_hub_same|done]. }
  case_match; [|destruct (ce_Done e); [by intros [= <- _]|done]].
  intros [= <- _]. etrans; [exact Hc|]. by apply other_hub_upd.
Qed.

Lemma other_ClientClosed h j : hub_only h → j ≠ cid → other_hub h (ClientClosed h j).1.
Proof.
  intros Ho Hj. unfold ClientClosed. set (h1 := with_conns _ _).
  assert (other_hub h h1) as H1. { apply other_hub_sub. by intros i lx [_ ?]%lookup_delete_Some. }
  destruct (conns h !! j) as [lx|] eqn:Hl; [|done]. etrans; [exact H1|]. apply other_hub_upd. intros ->. by destruct Hj; apply Ho.
Qed.

Lemma other_CloseConn h j n : hub_only h → other_hub h (CloseConn h j n).1.1.
Proof.
  intros Ho. unfold CloseConn. set (h1 := with_conns _ _).
  assert (other_hub h h1) as H1. { apply other_hub_sub. by intros i lx [_ ?]%lookup_delete_Some. }
  destruct (conns h !! j) as [lx|] eqn:Hl; simpl; [|done]. destruct (hub_entry h lx); simpl; [|done].
  etrans; [exact H1|]. apply other_hub_upd. intros -> e. split_and!; [done..|].
  apply Ho in Hl as ->. simpl. by rewrite lookup_delete_eq.
Qed.

Lemma other_WindowRelease h j delta : other_hub h (WindowRelease h j delta).
Proof. unfold WindowRelease. case_match; [|done]. by apply other_hub_upd. Qed.

Lemma other_CloseConnsByClient h sess : hub_only h → other_hub h (CloseConnsByClient h sess).1.
Proof.
  intros Ho. unfold CloseConnsByClient. cbn [fst]. set (vs := filter _ _). set (h1 := with_conns _ _).
  destruct (close_all_fields vs h1) as (Hc & _). assert (∀ i lx, conns h1 !! i = Some lx → conns h !! i = Some lx ∧ i ∉ vs.*1) as Hsub.
  { intros i lx. unfold h1. simpl. by rewrite lookup_foldl_delete. }
  split; rewrite ?Hc; [intros; by eapply Hsub..|].
  intros e He. rewrite hub_entry_close_all. change (hub_entry h1 loc) with (hub_entry h loc). rewrite He.
  case_decide as Hv; [|by exists e]. exists (set_done e). split_and!; [done..|].
  intros [_ []]%Hsub. apply list_elem_of_fmap in Hv as ([i lx] & E & Hx). simpl in E. subst lx. pose proof Hx as Hx'.
  apply list_elem_of_filter in Hx as [_ Hx]. apply elem_of_map_to_list, Ho in Hx as ->. by apply (list_elem_of_fmap_2 fst) in Hx'.
Qed.

(** A connection opened for another external one, before the numbers wrap. *)
Lemma other_OpenConn `{!JsonCodec ConnOpenReq} h sl entry now :
  u32 (connSeq h + 1) ≠ cid → (loc < length (hub_heap h))%nat →
  other_hub h (OpenConn_begin h sl entry now).1.1.
Proof.
  intros Hne Hl. unfold OpenConn_begin. split; simpl.
  - intros lx. by rewrite lookup_insert_ne.
  - intros i [[_ E]|[_ ?]]%lookup_insert_Some; [lia|done].
  - intros e He. exists e. unfold hub_entry in *. simpl. by rewrite lookup_app_l.
Qed.

(** ** Messages of the session *)

Context {CJ : ControlJson} (quote : string → string).

(** The feed does not take the connection's frames for a chained connection's,
    and a message does not make it. *)
Definition feeds_other (sv : CtrlProxyServer) : Prop :=
  ∀ sid feed, feeds sv !! sid = Some feed → h_conns feed !! cid = None.

Definition requests_other (m : Message) : Prop :=
  Type_ m = MsgClientConnReq → ∀ req : ClientConnReq, DecodeControl m = Ok req → cc_ConnID req ≠ cid.

Definition sv_effect (m : Message) (pick : bool) (sv sv' : CtrlProxyServer) : Prop :=
  match item_of cid m with
  | Some (Some p) => ∃ b, Downlink pick (hub sv) cid p = Some (hub sv', b)
  | Some None => hub sv' = (ClientClosed (hub sv) cid).1
  | None => other_hub (hub sv) (hub sv')
  end.

Lemma send_to_same sv sid m : hub (send_to sv sid m) = hub sv ∧ feeds (send_to sv sid m) = feeds sv.
Proof. unfold send_to. by repeat case_match. Qed.

Lemma handleClientConnReq_effect sv sid identity m :
  feeds_other sv → requests_other m → Type_ m = MsgClientConnReq →
  hub (handleClientConnReq quote sv sid identity m).1 = hub sv ∧
  feeds_other (handleClientConnReq quote sv sid identity m).1.
Proof.
  intros Hf Hm Ht. unfold handleClientConnReq. destruct (DecodeControl (A := ClientConnReq) m) as [req|] eqn:Ed; [|done].
  pose proof (Hm Ht _ Ed) as Hne.
  assert (∀ sv1 m1, hub sv1 = hub sv → feeds_other sv1 → hub (send_to sv1 sid m1) = hub sv ∧ feeds_other (send_to sv1 sid m1)) as Hs.
  { intros sv1 m1 Hh H1. unfold feeds_other. destruct (send_to_same sv1 sid m1) as [-> ->]. by split. }
  case_match; [by apply Hs|]. destruct (GetByName _ _ _); [|by apply Hs]. case_match; [by apply Hs|].
  destruct (feeds sv !! sid) as [feed|] eqn:Hfe; [|done]. unfold NewHubConn. destruct (h_dead feed); [by apply Hs|].
  apply Hs; [done|]. intros sid' feed'. simpl. intros [[<- <-]|[_ ?]]%lookup_insert_Some; [|by eapply Hf].
  simpl. rewrite lookup_insert_ne by done. by eapply Hf.
Qed.

Lemma Feed_other pick feed m feed' b :
  h_conns feed !! cid = None → Feed pick feed m = Some (feed', b) → h_conns feed' !! cid = None.
Proof.
  intros Hn. assert (∀ f lx it f', hub_deliver pick f lx it = Some f' → h_conns f' = h_conns f) as Hd.
  { intros f lx it f'. unfold hub_deliver. destruct (hub_conn f lx); [|by intros [= <-]].
    destruct (deliver _ _ _); [|done]. by intros [= <-]. }
  unfold Feed. case_bool_decide.
  { destruct (hub_get _ _); [|by intros [= <- _]]. destruct (hub_deliver _ _ _ _) as [f|] eqn:E; [|done].
    intros [= <- _]. by rewrite (Hd _ _ _ _ E). }
  case_bool_decide.
  { destruct (hub_get _ _); [|by intros [= <- _]]. destruct (hub_deliver _ _ _ _) as [f|] eqn:E; [|done].
    intros [= <- _]. rewrite (Hd _ _ _ _ E). simpl. rewrite lookup_delete_None. by right. }
  case_bool_decide; [|by intros [= <- _]].
  destruct (DecodeControl m); [|by intros [= <- _]]. case_match; by intros [= <- _].
Qed.

Lemma item_of_types m it : item_of cid m = Some it → StreamID m = cid ∧
  ((Type_ m = MsgData ∧ it = Some (Payload m)) ∨ (Type_ m = MsgStreamClose ∧ IsHalfClose m = true ∧ it = None)).
Proof.
  unfold item_of. case_bool_decide; [|done]. case_bool_decide; [intros [= <-]; auto|].
  destruct (IsHalfClose m) eqn:E; [|done]. intros [= <-]. split; [done|]. right. split_and!; try done.
  unfold IsHalfClose in E. apply andb_true_iff in E as [E _]. by apply bool_decide_eq_true in E.
Qed.

Lemma dispatch_effect pick now sv sid identity m sv' dials :
  hub_only (hub sv) → feeds_other sv → requests_other m →
  dispatch quote pick now sv sid identity m = Some (sv', dials) → feeds_other sv' ∧ sv_effect m pick sv sv'.
Proof.
  intros Ho Hf Hm Hd. unfold sv_effect. destruct (item_of cid m) as [it|] eqn:Hi.
  - apply item_of_types in Hi as [Hid [[Ht ->]|(Ht & Hh & ->)]]; unfold dispatch in Hd; rewrite Ht in Hd; simpl in Hd.
    + rewrite Hid in Hd. destruct (Downlink _ _ _ _) as [[h b]|]; [|done]. injection Hd as <- _. split; [done|]. by exists b.
    + rewrite Hh, Hid in Hd. simpl in Hd. by injection Hd as <- _.
  - assert ((Type_ m = MsgData → StreamID m ≠ cid) ∧ (IsHalfClose m = true → StreamID m ≠ cid)) as [HiD HiH].
    { unfold item_of in Hi. split; intros E Hid; rewrite bool_decide_true in Hi by done;
        [by rewrite bool_decide_true in Hi|]. case_bool_decide; [done|]. by rewrite E in Hi. }
    clear Hi. unfold dispatch in Hd. case_bool_decide as Ht0.
    { destruct (sessions sv !! sid) as [s|]; [|by injection Hd as <- _].
      destruct (ServerRegisterStream _ _ _ _) as [[tbl s'] r]. injection Hd as <- _. split; [done|]. by apply other_hub_same. }
    case_bool_decide as Ht1.
    { destruct (DecodeControl m) as [ack|]; injection Hd as <- _; (split; [done|]); [|done].
      apply other_hub_same; unfold DeliverConnAck; by case_match. }
    case_bool_decide as Ht2.
    { injection Hd as <- _. unfold feeds_other. match goal with |- context [send_to ?a ?b ?c] => destruct (send_to_same a b c) as [-> ->] end. done. }
    case_bool_decide as Ht3.
    { destruct (Downlink _ _ _ _) as [[h b]|] eqn:Ed; [|done]. injection Hd as <- _. split; [done|].
      eapply other_Downlink; [exact Ho| |exact Ed]. by apply HiD. }
    case_bool_decide as Ht4.
    { destruct (IsHalfClose m) eqn:Hh; simpl in Hd.
      - injection Hd as <- _. split; [done|]. apply other_ClientClosed; [exact Ho|]. by apply HiH.
      - destruct (HasConn _ _); injection Hd as <- _; (split; [done|]); [by apply other_CloseConn|by apply other_hub_same]. }
    case_bool_decide as Ht5.
    { destruct (DecodeControl m) as [wu|]; injection Hd as <- _; (split; [done|]); [apply other_WindowRelease|done]. }
    case_bool_decide as Ht6; [|by injection Hd as <- _].
    destruct (handleClientConnReq_effect sv sid identity m Hf Hm Ht6) as [Hh Hf'].
    destruct (handleClientConnReq _ _ _ _ _) as [sv1 ds]. injection Hd as <- _. simpl in *. by rewrite Hh.
Qed.

Lemma handle_effect pick now sv sid m sv' dials :
  hub_only (hub sv) → feeds_other sv → requests_other m → is_Some (clients sv !! sid) → is_Some (feeds sv !! sid) →
  handle quote pick now sv sid m = Some (sv', dials) → feeds_other sv' ∧ sv_effect m pick sv sv'.
Proof.
  intros Ho Hf Hm [info Hc] [feed Hfe] Hh. unfold handle in Hh. rewrite Hc, Hfe in Hh.
  pose proof (Hf _ _ Hfe) as Hn. case_match eqn:Et; [|by eapply dispatch_effect].
  destruct (Feed pick feed m) as [[feed' []]|] eqn:EF; [|by eapply dispatch_effect|done].
  injection Hh as <- _. split.
  - intros sid' f. simpl. intros [[_ <-]|[_ ?]]%lookup_insert_Some; [by eapply Feed_other|by eapply Hf].
  - unfold sv_effect. destruct (item_of cid m) as [it|] eqn:Hi; [|done]. exfalso.
    apply item_of_types in Hi as [Hid Ht]. unfold Feed, hub_get in EF. rewrite Hid, Hn in EF.
    destruct Ht as [[Ht _]|(Ht & _)]; rewrite Ht in EF; done.
Qed.

(** What the server does for others. *)
Definition other_server (sv sv' : CtrlProxyServer) : Prop :=
  other_hub (hub sv) (hub sv') ∧ feeds_other sv'.

(** A message of any session that is not about the connection, and the end of
    any session. *)
Lemma other_session_message pick now sv sid m sv' dials :
  hub_only (hub sv) → feeds_other sv → requests_other m → item_of cid m = None →
  handle quote pick now sv sid m = Some (sv', dials) → other_server sv sv'.
Proof.
  intros Ho Hf Hm Hi Hh. destruct (clients sv !! sid) eqn:Hc; [|unfold handle in Hh; rewrite Hc in Hh; by injection Hh as <- _].
  destruct (feeds sv !! sid) eqn:Hfe; [|unfold handle in Hh; rewrite Hc, Hfe in Hh; by injection Hh as <- _].
  destruct (handle_effect _ _ _ _ _ _ _ Ho Hf Hm ltac:(by eexists) ltac:(by eexists) Hh) as [H1 H2].
  unfold sv_effect in H2. rewrite Hi in H2. by split.
Qed.

Lemma other_session_end sv sid : hub_only (hub sv) → feeds_other sv → other_server sv (disconnect sv sid).
Proof.
  intros Ho Hf. split.
  - unfold disconnect. simpl. etrans; [by apply other_CloseConnsByClient|]. by apply other_hub_same.
  - intros sid' f. unfold disconnect. simpl. destruct (decide (sid' = sid)) as [->|Hne].
    + rewrite lookup_alter_eq. intros (f0 & Hf0 & ->)%fmap_Some. unfold SessionClosed. destruct (h_dead f0); [by eapply Hf|done].
    + rewrite lookup_alter_ne by done. apply Hf.
Qed.
End server.

(** ** The connection's own goroutines *)

(** Steps of the pump and of the uplink; the other events of [papply] are the
    session's messages. *)
Definition own_event (ev : pevent) : bool :=
  match ev with EvDownlink _ | EvClientHalf | EvClientFull => false | _ => true end.

Definition ext_read (ev : pevent) : list byte := match ev with EvRead p _ => p | _ => [] end.

Definition quiet_open (m : Message) : Prop := Type_ m ≠ MsgConnOpen.

Record pmono (its : list item) (p p' : pconn) : Prop := {
  pm_loc : px_loc p' = px_loc p;
  pm_id : px_connID p' = px_connID p;
  pm_sent : ∃ new, px_sent p' = px_sent p ++ new ∧ items (px_connID p) new = its ∧ Forall quiet_open new;
  pm_conns i lx : conns (px_hub p') !! i = Some lx → conns (px_hub p) !! i = Some lx;
  pm_entry e : px_entry p = Some e → ∃ e', px_entry p' = Some e' ∧ ce_RemoteClosed e' = ce_RemoteClosed e ∧
    (conns (px_hub p') !! px_connID p = Some (px_loc p) → ce_Done e' = ce_Done e);
  pm_up : px_up p ≠ UReading → px_up p' ≠ UReading;
  pm_ext : px_ext p `prefix_of` px_ext p';
}.

Lemma sent_nil p : ∃ new, px_sent p = px_sent p ++ new ∧ items (px_connID p) new = [] ∧ Forall quiet_open new.
Proof. exists []. rewrite app_nil_r. split_and!; [done..|constructor]. Qed.

#[export] Instance pmono_refl : Reflexive (pmono []).
Proof. intros p. split; try done; [apply sent_nil|by eauto]. Qed.

Lemma pmono_app a b p1 p2 p3 : pmono a p1 p2 → pmono b p2 p3 → pmono (a ++ b) p1 p3.
Proof.
  intros [Hl1 Hi1 (n1 & H1 & <- & F1) Hc1 He1 Hu1 Hx1] [Hl2 Hi2 (n2 & H2 & <- & F2) Hc2 He2 Hu2 Hx2].
  split; [congruence..| |auto| |auto|by etrans].
  - exists (n1 ++ n2). rewrite H2, H1, items_app, app_assoc, Hi1. split_and!; [done..|by apply Forall_app].
  - intros e (e1 & E1 & ? & Hd1)%He1. destruct (He2 _ E1) as (e2 & ? & ? & Hd2). exists e2.
    split_and!; [done|congruence|]. rewrite Hi1, Hl1 in Hd2. intros Hm. rewrite Hd2, Hd1; auto.
Qed.

#[export] Instance pmono_trans : Transitive (pmono []).
Proof. intros p1 p2 p3. apply (pmono_app [] []). Qed.

Lemma pmono_frame p p' :
  px_loc p' = px_loc p → px_connID p' = px_connID p → px_sent p' = px_sent p → px_hub p' = px_hub p →
  (px_up p ≠ UReading → px_up p' ≠ UReading) → px_ext p `prefix_of` px_ext p' → pmono [] p p'.
Proof.
  intros Hl Hi Hs Hh Hu Hx. unfold px_entry. split; unfold px_entry; rewrite ?Hl, ?Hh, ?Hs; try done.
  - apply sent_nil.
  - intros e He. by exists e.
Qed.

(** A change of the flags and of the events only. *)
Ltac by_frame := apply pmono_frame; try done; by eexists.

Lemma pmono_sent ms p : Forall quiet_open ms → pmono (items (px_connID p) ms) p (add_sent ms p).
Proof. intros Hq. split; simpl; try done; [by exists ms|]. intros e He. by exists e. Qed.

Lemma pmono_quiet ms p :
  Forall (λ m, item_of (px_connID p) m = None ∧ quiet_open m) ms → pmono [] p (add_sent ms p).
Proof.
  intros Hms. assert (items (px_connID p) ms = []) as <-; [|apply pmono_sent; eapply Forall_impl; [exact Hms|by intros ? [_ ?]]].
  induction Hms as [|m ms [Hm _] _ IH]; [done|]. unfold items in *. cbn [omap list_omap]. by rewrite Hm.
Qed.

Lemma pmono_hub h p :
  (∀ i lx, conns h !! i = Some lx → conns (px_hub p) !! i = Some lx) →
  (∀ e, px_entry p = Some e → ∃ e', hub_entry h (px_loc p) = Some e' ∧ ce_RemoteClosed e' = ce_RemoteClosed e ∧
     (conns h !! px_connID p = Some (px_loc p) → ce_Done e' = ce_Done e)) → pmono [] p (set_hub h p).
Proof. intros Hc He. split; simpl; try done. apply sent_nil. Qed.

Lemma pmono_upd f p :
  (∀ e, ce_RemoteClosed (f e) = ce_RemoteClosed e ∧ ce_Done (f e) = ce_Done e) →
  pmono [] p (set_hub (upd_entry f (px_loc p) (px_hub p)) p).
Proof.
  intros Hf. apply pmono_hub; [done|]. intros e He. unfold px_entry in He. exists (f e).
  rewrite hub_entry_upd, decide_True, He by done. split; [done|]. split; [apply Hf|]. intros _. apply Hf.
Qed.

Lemma pmono_teardown p : pmono [] p (teardown p).
Proof.
  unfold teardown. destruct (px_torn p); [done|].
  assert (pmono [] p (set_hub (CloseConn (px_hub p) (px_connID p) true).1.1 p) ∧
    Forall (λ m, item_of (px_connID p) m = None ∧ quiet_open m) (CloseConn (px_hub p) (px_connID p) true).2.*2) as [Hh Ho].
  { unfold CloseConn. set (h1 := with_conns _ _).
    assert (∀ i lx, conns h1 !! i = Some lx → conns (px_hub p) !! i = Some lx) as Hsub.
    { intros i lx. simpl. by intros [_ ?]%lookup_delete_Some. }
    destruct (conns (px_hub p) !! px_connID p) as [l0|] eqn:Hl; simpl; [destruct (hub_entry (px_hub p) l0); simpl|].
    2,3: split; [|constructor]; apply pmono_hub; [done|]; intros e He; by exists e.
    split; [|constructor; [split; [apply item_of_full|done]|constructor]]. apply pmono_hub; [done|].
    intros e He. unfold ConnEntry_close. rewrite hub_entry_upd. change (hub_entry h1 (px_loc p)) with (px_entry p). rewrite He.
    case_decide; eexists; (split; [reflexivity|]); (split; [done|]); [|done]. simpl. by rewrite lookup_delete_eq. }
  destruct (CloseConn _ _ _) as [[h b] out]. simpl in Hh, Ho.
  etrans; [exact Hh|]. set (p1 := set_hub h p). etrans; [apply (pmono_quiet out.*2 p1); exact Ho|]. by_frame.
Qed.

Lemma pmono_pump_exit p : pmono [] p (pump_exit p).
Proof. by_frame. Qed.

Lemma pmono_up_exit p : pmono [] p (up_exit p).
Proof. etrans; [|apply pmono_teardown]. by_frame. Qed.

Lemma pmono_bothFinished p : pmono [] p (bothFinished p).
Proof. unfold bothFinished. case_match; [apply pmono_teardown|done]. Qed.

Lemma pmono_pump_payload p d payload rest ok : pmono [] p (pump_payload p d payload rest ok).
Proof.
  unfold pump_payload. set (p1 := set_hub _ p). assert (pmono [] p p1) as H1 by by apply pmono_upd.
  etrans; [exact H1|]. destruct ok; [|etrans; [apply pmono_teardown|apply pmono_pump_exit]].
  change (px_hub (set_hub _ _)) with (px_hub p1). pose proof (ReleaseRecv_out (px_hub p1) (px_loc p1) (length payload)) as [_ Hc].
  assert (Forall (λ m, item_of (px_connID p1) m = None ∧ quiet_open m) (ReleaseRecv (px_hub p1) (px_loc p1) (length payload)).2.*2) as Ho.
  { unfold ReleaseRecv. destruct (hub_entry _ _); [|constructor]. case_match; constructor; [split; [by apply item_of_ctrl|done]|constructor]. }
  assert (∀ e, px_entry p1 = Some e → ∃ e', hub_entry (ReleaseRecv (px_hub p1) (px_loc p1) (length payload)).1 (px_loc p1) = Some e' ∧
    ce_RemoteClosed e' = ce_RemoteClosed e ∧ ce_Done e' = ce_Done e) as He.
  { intros e He. unfold px_entry in He. unfold ReleaseRecv. rewrite He.
    case_match; cbn [fst]; rewrite hub_entry_upd, decide_True, He by done; by eexists. }
  destruct (ReleaseRecv _ _ _) as [h out]. simpl in Hc, Ho, He.
  etrans; [apply (pmono_hub h p1); [by rewrite Hc|]|].
  { intros e (e' & ? & ? & ?)%He. by exists e'. }
  set (p2 := set_hub h p1). etrans; [by apply (pmono_quiet out.*2 p2)|]. by_frame.
Qed.

(** What an event of the connection's goroutines sends of it. *)
Record ext_step (ev : pevent) (p p' : pconn) (its : list item) : Prop := {
  es_read : ext_read ev ≠ [] ∨ ev = EvEOF → px_up p = UReading;
  es_eof : ev = EvEOF → px_up p' ≠ UReading ∧ its = [None];
  es_its : its = [] ∧ (ext_read ev = [] ∨ px_up p' ≠ UReading) ∨ its = [Some (ext_read ev)] ∧ ext_read ev ≠ [] ∨
    its = [None] ∧ ev = EvEOF;
}.

Lemma up_exit_up p : px_up (up_exit p) = UExit.
Proof.
  unfold up_exit, teardown. case_match; [done|]. by destruct (CloseConn _ _ _) as [[? ?] ?].
Qed.

Lemma ext_step_quiet ev p p' : ext_read ev = [] → ev ≠ EvEOF → pmono [] p p' → ∃ its, pmono its p p' ∧ ext_step ev p p' its.
Proof. intros Hr He Hm. exists []. split; [done|]. split; [by intros [|]|done|]. left. split; [done|by left]. Qed.

Lemma papply_own p ev p' :
  own_event ev = true → (∀ ok, ev ≠ EvRead [] ok) → papply p ev = Some p' →
  ∃ its, pmono its p p' ∧ ext_step ev p p' its.
Proof.
  intros Hown Hne Ha. unfold papply in Ha.
  destruct ev; try done; try (apply ext_step_quiet; [done|done|]); try (destruct (px_entry p) as [e|] eqn:He; [|done]).
  - destruct (ce_Sink e); [done|]. destruct (px_down p); step_eq; apply pmono_pump_payload.
  - destruct (px_down p); try done. destruct (ce_RemoteClosed e); step_eq. by_frame.
  - destruct (px_down p) as [|[|]|]; try done; destruct (ce_Sink e); step_eq; [|by_frame].
    etrans; [|apply pmono_bothFinished]. case_match; by_frame.
  - destruct (px_down p); destruct (ce_Done e); step_eq; (etrans; [apply pmono_teardown|apply pmono_pump_exit]).
  - destruct (px_down p); destruct (px_stopped p); step_eq; apply pmono_pump_exit.
  - assert (payload ≠ []) as Hp by (intros ->; by eapply Hne). destruct (px_up p) eqn:Eu; try done.
    assert (∀ q, pmono [] p q → ∃ its, pmono its p (up_exit q) ∧ ext_step (EvRead payload send_ok) p (up_exit q) its) as Hex.
    { intros q Hq. exists []. split; [etrans; [exact Hq|apply pmono_up_exit]|]. split; [done|done|]. left. split; [done|].
      right. by rewrite up_exit_up. }
    destruct (closed (ce_SendWin e)); [step_eq; by apply Hex|]. destruct (acquire_now _ _ _) as [w|]; [|done].
    set (p1 := set_hub (upd_entry (set_win w) (px_loc p) (px_hub p)) p) in *.
    assert (pmono [] p p1) as H1 by by apply pmono_upd. destruct send_ok; step_eq; [|by apply Hex].
    set (t := add_bytes _ _ _ _). exists [Some payload]. split; [|split; [done|done|]; right; by left].
    eapply (pmono_app [] [Some payload]); [exact H1|]. eapply (pmono_app [] [Some payload]).
    + apply (pmono_hub (with_streams (px_hub p1) t) p1); [done|]. intros e1 He1. by exists e1.
    + set (p2 := set_hub _ p1). pose proof (pmono_sent [mkMessage MsgData x00 (px_connID p) payload] p2 ltac:(by constructor)) as Hm.
      unfold items in Hm. cbn [omap list_omap] in Hm. change (px_connID p2) with (px_connID p) in Hm. rewrite item_of_data in Hm. exact Hm.
  - destruct (px_up p) eqn:Eu; step_eq. exists [None].
    set (p1 := set_finished true (px_downDone p) p). set (p2 := add_sent _ p1). split.
    + eapply (pmono_app [None] []); [|etrans; [apply pmono_bothFinished|by_frame]].
      eapply (pmono_app [] [None] p p1); [by_frame|]. pose proof (pmono_sent [HalfClose (px_connID p)] p1 ltac:(by constructor)) as Hm.
      unfold items in Hm. cbn [omap list_omap] in Hm. change (px_connID p1) with (px_connID p) in Hm. rewrite item_of_half in Hm. exact Hm.
    + split; [done|done|]. right. by right.
  - destruct (px_up p); step_eq. apply pmono_up_exit.
  - destruct (px_up p); try done. destruct (px_stopped p); step_eq. apply pmono_up_exit.
Qed.

(** * What was read from a connection and what was sent of it *)

(** [io] is what was read, with whether the end was reached; [its] what was sent.
    [alive] tells that the reader goes on. *)
Definition source (alive : Prop) (io : list byte * bool) (its : list item) : Prop :=
  ∃ chunks tail, its = (Some <$> chunks) ++ tail ∧ Forall (λ p, p ≠ []) chunks ∧ concat chunks `prefix_of` io.1 ∧
    (alive → tail = [] ∧ io.2 = false ∧ concat chunks = io.1) ∧
    (tail = [] ∨ tail = [None] ∧ io.2 = true ∧ concat chunks = io.1).

(** A step of the reader: [rd] read, the end reached if [eof], [new] sent. *)
Record source_step (alive alive' : Prop) (rd : list byte) (eof : bool) (new : list item) : Prop := {
  ss_alive : alive' → alive;
  ss_read : rd ≠ [] → alive;
  ss_eof : eof = true → alive ∧ ¬ alive' ∧ rd = [];
  ss_new : new = [] ∧ (rd = [] ∨ ¬ alive') ∨ new = [Some rd] ∧ rd ≠ [] ∨ new = [None] ∧ eof = true;
}.

Lemma item_bytes_chunks chunks tail : tail = [] ∨ tail = [None] → item_bytes ((Some <$> chunks) ++ tail) = concat chunks.
Proof.
  intros Ht. rewrite item_bytes_app. assert (item_bytes tail = []) as -> by by destruct Ht as [-> | ->].
  rewrite app_nil_r. unfold item_bytes. induction chunks as [|p chunks IH]; [done|]. simpl. by f_equal.
Qed.

Lemma source_bytes alive io its : source alive io its → item_bytes its `prefix_of` io.1 ∧ (alive → item_bytes its = io.1).
Proof.
  intros (chunks & tail & -> & _ & Hp & Ha & Ht). rewrite item_bytes_chunks by tauto. split; [done|]. intros H. by apply Ha.
Qed.

Lemma source_nonempty alive io its p : source alive io its → Some p ∈ its → p ≠ [].
Proof.
  intros (chunks & tail & -> & Hne & _ & _ & Ht) [Hin|Hin]%elem_of_app.
  - apply list_elem_of_fmap in Hin as (q & [= ->] & Hq). rewrite Forall_forall in Hne. by apply Hne.
  - destruct Ht as [-> | [-> _]]; [by apply elem_of_nil in Hin|]. by apply list_elem_of_singleton in Hin.
Qed.

Lemma source_end alive io its pre :
  source alive io its → pre `prefix_of` its → None ∈ pre → pre = its ∧ io.2 = true ∧ item_bytes its = io.1.
Proof.
  intros (chunks & tail & -> & _ & _ & _ & Ht) [rest Hpre] Hin.
  assert (None ∉ (Some <$> chunks : list item)) as Hn by by intros (? & ? & _)%list_elem_of_fmap.
  destruct Ht as [-> | (-> & H1 & H2)].
  { rewrite app_nil_r in Hpre. destruct Hn. rewrite Hpre. apply elem_of_app. by left. }
  rewrite item_bytes_chunks by by right. split; [|done].
  destruct rest as [|x rest _] using rev_ind; [by rewrite app_nil_r in Hpre|]. exfalso.
  rewrite app_assoc in Hpre. apply app_inj_tail in Hpre as [Hpre _]. destruct Hn. rewrite Hpre. apply elem_of_app. by left.
Qed.

Lemma source_next alive alive' io its rd eof new :
  source alive io its → source_step alive alive' rd eof new →
  source alive' (io.1 ++ rd, io.2 || eof) (its ++ new).
Proof.
  intros (chunks & tail & -> & Hne & Hp & Ha & Ht) [Sa Sr Se Sn]. unfold source. simpl.
  destruct Sn as [[-> Hrd]|[[-> Hrd]|[-> Heof]]].
  - exists chunks, tail. rewrite app_nil_r. split_and!; [done|done|by apply prefix_app_r| |].
    + intros H. destruct (Ha (Sa H)) as (-> & -> & ->). destruct Hrd as [-> |]; [|done]. rewrite app_nil_r.
      split_and!; try done. destruct eof; [|done]. by destruct (Se eq_refl) as (_ & ? & _).
    + destruct Ht as [?|(-> & E & Hc)]; [by left|right]. rewrite E. split_and!; [done|done|].
      destruct (decide (rd = [])) as [->|Hr]; [by rewrite app_nil_r|]. destruct (Ha (Sr Hr)) as (? & _). done.
  - destruct (Ha (Sr Hrd)) as (-> & E & Hc). exists (chunks ++ [rd]), []. rewrite fmap_app, concat_app, !app_nil_r, Hc, E.
    simpl. rewrite app_nil_r. split_and!; [done|by apply Forall_app; split; [|constructor]|done| |by left].
    intros _. split_and!; try done. destruct eof; [|done]. by destruct (Se eq_refl) as (_ & _ & ?).
  - destruct (Se Heof) as (H & Hn & ->). destruct (Ha H) as (-> & _ & Hc). exists chunks, [None].
    rewrite !app_nil_r, Heof, orb_true_r, Hc. split_and!; try done. by right.
Qed.

Lemma up_source_step l ev k k' its :
  same_up k k' → up_step l ev k k' its →
  source_step (lc_up k ≠ UpEnd) (lc_up k' ≠ UpEnd) (read_at l ev) (match ev with CUpEOF i => bool_decide (i = l) | _ => false end) its.
Proof.
  intros (_ & Hu & _) [Ur Ue Ui]. split.
  - intros H E. by apply H, Hu.
  - exact Ur.
  - destruct ev; try done. intros ->%bool_decide_eq_true. destruct (Ue eq_refl). split_and!; [done| |done]. by intros [].
  - destruct Ui as [[-> [H|H]]|[H|[-> ->]]]; [left..|right; by left|right; right].
    + split; [done|by left].
    + split; [done|]. right. by intros [].
    + split; [done|]. by apply bool_decide_eq_true.
Qed.

Lemma ext_source_step ev p p' its :
  pmono its p p' → ext_step ev p p' its →
  source_step (px_up p = UReading) (px_up p' = UReading) (ext_read ev) (match ev with EvEOF => true | _ => false end) its.
Proof.
  intros Hm [Er Ee Ei]. split.
  - intros H. destruct (px_up p) eqn:E; [done|..]; exfalso; apply (pm_up _ _ _ Hm); congruence.
  - intros H. apply Er. by left.
  - destruct ev; try done. intros _. destruct (Ee eq_refl) as [? _]. split_and!; [|done|done]. apply Er. by right.
  - destruct Ei as [[-> H]|[H|[-> ->]]]; [by left|right; by left|right; by right].
Qed.

(** * The system *)

(** The connection with the server's hub, the rest of the server, the client,
    the two directions of the session's link, and what was read so far from the
    external and from the local connection. *)
Record tunnel := mkTunnel {
  tn_px : pconn;
  tn_sv : CtrlProxyServer;
  tn_client : CtrlClient;
  tn_down : list Message;
  tn_up : list Message;
  tn_ext : list byte * bool;
  tn_local : list byte * bool;
}.

(** The server: [px_hub] is its hub. *)
Definition tn_server (t : tunnel) : CtrlProxyServer := with_hub (tn_sv t) (px_hub (tn_px t)).

(** What was appended to a log. *)
Definition news {A} (before after : list A) : list A := drop (length before) after.

Lemma news_app {A} (a b : list A) : news a (a ++ b) = b.
Proof. apply drop_app_length. Qed.

(** ** The abstract tunnel: a pipe in each direction *)

(** What went in, whether its end was seen; what came out, whether the end was
    passed on. *)
Record pipe := mkPipe { p_in : list byte; p_eof : bool; p_out : list byte; p_end : bool }.

Inductive pipe_step : pipe → pipe → Prop :=
  | pipe_write a bs o e : pipe_step (mkPipe a false o e) (mkPipe (a ++ bs) false o e)
  | pipe_close a o e : pipe_step (mkPipe a false o e) (mkPipe a true o e)
  | pipe_deliver o bs rest f e : pipe_step (mkPipe (o ++ bs ++ rest) f o e) (mkPipe (o ++ bs ++ rest) f (o ++ bs) e)
  | pipe_finish a e : pipe_step (mkPipe a true a e) (mkPipe a true a true).

(** Nothing comes out that did not go in, in another order or after the end. *)
Definition pipe_ok (p : pipe) : Prop :=
  p_out p `prefix_of` p_in p ∧ (p_end p = true → p_eof p = true ∧ p_out p = p_in p).

Lemma pipe_step_ok p p' : pipe_step p p' → pipe_ok p → pipe_ok p'.
Proof.
  intros [a bs o e|a o e|o bs rest f e|a e] [Hp He]; simpl in *.
  - split; simpl; [by apply prefix_app_r|]. intros H. by destruct (He H).
  - split; simpl; [done|]. intros H. by destruct (He H).
  - split; simpl; [exists rest; by rewrite <- app_assoc|]. intros H. destruct (He H) as [? Ho]. split; [done|].
    apply (f_equal length) in Ho. rewrite !length_app in Ho. assert (bs = []) as -> by (apply nil_length_inv; lia).
    assert (rest = []) as -> by (apply nil_length_inv; lia). by rewrite !app_nil_r.
  - by split.
Qed.

(** Growing the input, and advancing the output. *)
Lemma pipe_grow a f o e rd eof :
  (rd ≠ [] ∨ eof = true → f = false) → (eof = true → rd = []) →
  rtc pipe_step (mkPipe a f o e) (mkPipe (a ++ rd) (f || eof) o e).
Proof.
  intros Hf Hr. destruct eof.
  - rewrite (Hr eq_refl), app_nil_r, Hf by by right. apply rtc_once, pipe_close.
  - rewrite orb_false_r. destruct (decide (rd = [])) as [->|Hne]; [by rewrite app_nil_r|].
    rewrite Hf by by left. apply rtc_once, pipe_write.
Qed.

Lemma pipe_advance a f o e o' e' :
  o `prefix_of` o' → (e = true → e' = true) → pipe_ok (mkPipe a f o' e') →
  rtc pipe_step (mkPipe a f o e) (mkPipe a f o' e').
Proof.
  intros [bs ->] He [[rest Hp] Hend]. simpl in *. rewrite <- app_assoc in Hp. subst a.
  eapply rtc_l; [apply pipe_deliver|]. destruct e, e'; [done|by specialize (He eq_refl)| |done].
  destruct (Hend eq_refl) as [-> Ho]. rewrite Ho. apply rtc_once, pipe_finish.
Qed.

Section system.
Context {CJ : ControlJson} (quote : string → string).
(** The session of the client, the number of the connection, its entry in the
    hub's heap and its place in the client's. *)
Context (sid : session_id) (cid : Z) (loc : conn_loc) (l : nat).
Hypothesis cid_range : 0 ≤ cid < 2 ^ 31.
(** Numbers survive encoding/json. *)
Hypothesis json_number : ∀ v r : ClientConnReq, json_unmarshal (json_marshal v) = Some r → cc_ConnID r = cc_ConnID v.

(** What else travels on the link: messages that are not about the connection. *)
Definition down_other (m : Message) : Prop := item_of cid m = None ∧ opens_other cid m.
Definition up_other (m : Message) : Prop := item_of cid m = None ∧ asks_other cid m.

Definition add_out (ms : list Message) (c : CtrlClient) : CtrlClient := with_link c (c_link c) (c_closed c) (c_out c ++ ms).

(** One step of the system: the connection's two goroutines, the rest of the
    server, the server's read loop of this session, the client's read loop, its
    other goroutines, and the writers of its dialed connections. A client whose
    process died takes no more steps. *)
Inductive tstep (t : tunnel) : tunnel → Prop :=
  | ts_ext ev p' :
      own_event ev = true → (∀ ok, ev ≠ EvRead [] ok) → papply (tn_px t) ev = Some p' →
      tstep t (mkTunnel p' (tn_sv t) (tn_client t) (tn_down t ++ news (px_sent (tn_px t)) (px_sent p')) (tn_up t)
        ((tn_ext t).1 ++ ext_read ev, (tn_ext t).2 || match ev with EvEOF => true | _ => false end) (tn_local t))
  | ts_server sv' ms :
      other_server cid loc (tn_server t) sv' → Forall down_other ms →
      tstep t (mkTunnel (set_hub (hub sv') (tn_px t)) sv' (tn_client t) (tn_down t ++ ms) (tn_up t) (tn_ext t) (tn_local t))
  | ts_server_recv m up pick now sv' dials :
      tn_up t = m :: up → is_Some (clients (tn_sv t) !! sid) → is_Some (feeds (tn_sv t) !! sid) →
      handle quote pick now (tn_server t) sid m = Some (sv', dials) →
      tstep t (mkTunnel (set_hub (hub sv') (tn_px t)) sv' (tn_client t) (tn_down t) up (tn_ext t) (tn_local t))
  | ts_client_recv m down pick dialed c' :
      tn_down t = m :: down → capply quote (tn_client t) (CRecv pick m dialed) = Some c' → c_loop c' ≠ LoopPanic →
      tstep t (mkTunnel (tn_px t) (tn_sv t) c' down (tn_up t ++ news (c_out (tn_client t)) (c_out c')) (tn_ext t) (tn_local t))
  | ts_client ev c' :
      (∀ pick m dialed, ev ≠ CRecv pick m dialed) → capply quote (tn_client t) ev = Some c' → c_loop c' ≠ LoopPanic →
      tstep t (mkTunnel (tn_px t) (tn_sv t) c' (tn_down t) (tn_up t ++ news (c_out (tn_client t)) (c_out c')) (tn_ext t)
        ((tn_local t).1 ++ read_at l ev, (tn_local t).2 || match ev with CUpEOF i => bool_decide (i = l) | _ => false end))
  | ts_dialed ms :
      Forall up_other ms →
      tstep t (mkTunnel (tn_px t) (tn_sv t) (add_out ms (tn_client t)) (tn_down t) (tn_up t ++ ms) (tn_ext t) (tn_local t)).

(** The local connection's history. *)
Definition tn_io (t : tunnel) : list local_event := default [] (lc_io <$> c_heap (tn_client t) !! l).

Definition is_close_write (x : local_event) : bool := match x with LCloseWrite => true | _ => false end.
Definition is_ext_close_write (x : ext_event) : bool := match x with XCloseWrite => true | _ => false end.

(** The two pipes a state stands for. *)
Definition down_pipe (t : tunnel) : pipe :=
  mkPipe (tn_ext t).1 (tn_ext t).2 (item_bytes (omap io_item (tn_io t))) (existsb is_close_write (tn_io t)).
Definition up_pipe (t : tunnel) : pipe :=
  mkPipe (tn_local t).1 (tn_local t).2 (concat (px_written (tn_px t))) (existsb is_ext_close_write (px_ext (tn_px t))).

(** ** The invariant *)

(** On the server: [taken] is what the read loop has taken of the connection's
    frames, [D] what the hub has queued. *)
Record server_inv (t : tunnel) (D : list (list byte)) (taken : list item) : Prop := {
  si_id : px_connID (tn_px t) = cid;
  si_loc : px_loc (tn_px t) = loc;
  si_only : hub_only cid loc (px_hub (tn_px t));
  si_feeds : feeds_other cid (tn_sv t);
  si_pinv : pinv D (tn_px t);
  si_taken : items cid (c_out (tn_client t)) = taken ++ items cid (tn_up t);
  si_prefix : D `prefix_of` omap id taken;
  si_mapped : conns (px_hub (tn_px t)) !! cid = Some loc →
    D = omap id taken ∧ ∀ e, px_entry (tn_px t) = Some e → ce_Done e = false;
  si_closed e : px_entry (tn_px t) = Some e → ce_RemoteClosed e = true → D = omap id taken ∧ None ∈ taken;
}.

(** On the client: [R] is what the read loop has received of the connection. *)
Record client_inv (t : tunnel) (k : lconn) (R : list item) : Prop := {
  cl_heap : c_heap (tn_client t) !! l = Some k;
  cl_id : lc_id k = cid;
  cl_only : only cid l (tn_client t);
  cl_dial : dialConns (tn_client t) !! cid = None;
  cl_queue j lx : connsQ (tn_client t) !! j = Some lx → lx = l ∨ j = cid → j = cid ∧ lx = l;
  cl_prefix : R `prefix_of` items cid (px_sent (tn_px t));
  cl_mapped : connsQ (tn_client t) !! cid = Some l → items cid (px_sent (tn_px t)) = R ++ items cid (tn_down t);
  cl_flow : ∃ c0 k0, io_items k0 = [] ∧ lc_q k0 = [] ∧ pending l c0 = [] ∧ flow l R c0 k0 (tn_client t) k;
}.

Record tn_inv (t : tunnel) : Prop := {
  ti_server : ∃ D taken, server_inv t D taken;
  ti_client : ∃ k R, client_inv t k R ∧ source (lc_up k ≠ UpEnd) (tn_local t) (items cid (c_out (tn_client t)));
  ti_ext : source (px_up (tn_px t) = UReading) (tn_ext t) (items cid (px_sent (tn_px t)));
  ti_opens : Forall (opens_other cid) (tn_down t);
  ti_asks : Forall (asks_other cid) (tn_up t);
}.

(** ** Steps of the server *)

Lemma other_view h p :
  px_connID p = cid → px_loc p = loc → other_hub cid loc (px_hub p) h → view p (set_hub h p).
Proof.
  intros Hid Hl [Hc _ He]. apply view_set_hub; rewrite ?Hid, ?Hl; [done|].
  unfold px_entry. rewrite Hl. intros e (e' & ? & ? & ? & _)%He. by exists e'.
Qed.

(** Another goroutine's step, or a message about another connection. *)
Lemma server_inv_other t D taken h sv up :
  server_inv t D taken → other_hub cid loc (px_hub (tn_px t)) h → feeds_other cid sv →
  items cid up = items cid (tn_up t) →
  ∀ c down io1 io2, c_out c = c_out (tn_client t) →
  server_inv (mkTunnel (set_hub h (tn_px t)) sv c down up io1 io2) D taken.
Proof.
  intros [Hid Hl Ho _ Hp Ht Hpre Hm Hrc] Hoh Hf Hup c down io1 io2 Hc. split; cbn [tn_px tn_sv tn_client tn_up px_connID px_loc px_hub set_hub].
  - exact Hid.
  - exact Hl.
  - by eapply other_hub_only.
  - exact Hf.
  - eapply pinv_view; [exact Hp|by apply other_view|by left].
  - by rewrite Hc, Hup.
  - exact Hpre.
  - intros Hmap. destruct Hoh as [Oc _ Oe]. destruct (Hm (Oc _ Hmap)) as [-> Hd]. split; [done|].
    intros e'. unfold px_entry. cbn [px_hub px_loc set_hub]. rewrite Hl. intros He'.
    destruct (pv_entry _ _ Hp) as (e & _ & He & _). pose proof He as He0. unfold px_entry in He. rewrite Hl in He.
    destruct (Oe _ He) as (e2 & He2 & _ & _ & Hd2). assert (e2 = e') as -> by congruence. rewrite Hd2 by done. by apply Hd.
  - intros e'. unfold px_entry. cbn [px_hub px_loc set_hub]. rewrite Hl. intros He' Hr'. destruct Hoh as [_ _ Oe].
    destruct (pv_entry _ _ Hp) as (e & _ & He & _). pose proof He as He0. unfold px_entry in He. rewrite Hl in He.
    destruct (Oe _ He) as (e2 & He2 & _ & Hr2 & _). assert (e2 = e') as -> by congruence. apply (Hrc e He0). congruence.
Qed.

Lemma Downlink_mapped pick h p h' b e :
  conns h !! cid = Some loc → hub_entry h loc = Some e → ce_Done e = false →
  Downlink pick h cid p = Some (h', b) → b = true ∧ Downlink false h cid p = Some (h', true).
Proof.
  intros Hc He Hd. unfold Downlink. rewrite Hc. simpl. rewrite He. simpl. rewrite Hd. simpl.
  destruct (bool_decide _); [|done]. simpl. by intros [= <- <-].
Qed.

Lemma taken_next t taken m up :
  items cid (c_out (tn_client t)) = taken ++ items cid (tn_up t) → tn_up t = m :: up →
  items cid (c_out (tn_client t)) = (taken ++ items cid [m]) ++ items cid up.
Proof. intros -> ->. rewrite <- app_assoc, <- items_app. done. Qed.

(** The message at the head of the link reaches the server's read loop. *)
Lemma server_inv_recv t D taken alive m up pick now sv' dials :
  server_inv t D taken → source alive (tn_local t) (items cid (c_out (tn_client t))) →
  tn_up t = m :: up → requests_other cid m →
  is_Some (clients (tn_sv t) !! sid) → is_Some (feeds (tn_sv t) !! sid) →
  handle quote pick now (tn_server t) sid m = Some (sv', dials) →
  ∃ D' taken', server_inv (mkTunnel (set_hub (hub sv') (tn_px t)) sv' (tn_client t) (tn_down t) up (tn_ext t) (tn_local t)) D' taken'.
Proof.
  intros Hinv Hsrc Hup Hreq Hc Hf Hh. pose proof Hinv as [Hid Hl Ho Hfo Hp Ht Hpre Hm Hrc].
  destruct (handle_effect cid loc quote pick now (tn_server t) sid m sv' dials Ho Hfo Hreq Hc Hf Hh) as [Hfo' Heff].
  pose proof (taken_next _ _ _ _ Ht Hup) as Ht'. unfold sv_effect in Heff. change (hub (tn_server t)) with (px_hub (tn_px t)) in Heff.
  assert (items cid [m] = match item_of cid m with Some it => [it] | None => [] end) as Hit by (unfold items; simpl; by case_match).
  rewrite Hit in Ht'. clear Hit. destruct (pv_entry _ _ Hp) as (e & _ & He & _). pose proof He as He1. unfold px_entry in He1. rewrite Hl in He1.
  destruct (item_of cid m) as [[p|]|] eqn:Ei.
  - destruct Heff as [b Hd]. destruct (conns (px_hub (tn_px t)) !! cid) as [lx|] eqn:Hmap.
    + assert (lx = loc) as -> by (rewrite <- Hl; apply (pv_loc _ _ Hp); by rewrite Hid).
      destruct (Hm eq_refl) as [-> Hdone].
      destruct (Downlink_mapped _ _ _ _ _ _ Hmap He1 (Hdone _ He) Hd) as [-> Hd'].
      assert (pinv (omap id taken ++ [p]) (set_hub (hub sv') (tn_px t))) as Hp'.
      { pose proof (pinv_step _ _ (EvDownlink p) (set_hub (hub sv') (tn_px t)) Hp) as H. cbn [papply accepted] in H. rewrite Hid, Hd' in H.
        by apply H; destruct (px_entry (tn_px t)). }
      destruct (Downlink_effect _ _ _ _ _ loc e Hd' He1) as (Hcn & e' & He' & Hre & _); [congruence|].
      assert (ce_Done e' = false) as Hdn.
      { clear -Hd' Hmap He1 He' Hdone He. unfold Downlink in Hd'. rewrite Hmap in Hd'. simpl in Hd'. rewrite He1 in Hd'. simpl in Hd'.
        rewrite (Hdone _ He) in Hd'. simpl in Hd'. destruct (bool_decide _); [|done]. injection Hd' as Hd'. rewrite <- Hd' in He'.
        rewrite hub_entry_upd, decide_True in He' by done. apply fmap_Some in He' as (e2 & He2 & ->).
        unfold count_out in He2. rewrite He1 in He2. unfold hub_entry in *. simpl in He2. rewrite He1 in He2. injection He2 as <-. by apply (Hdone _ He). }
      exists (omap id taken ++ [p]), (taken ++ [Some p]).
      split; cbn [tn_px tn_sv tn_client tn_up px_connID px_loc px_hub set_hub]; try done.
      * intros i. rewrite Hcn. apply Ho.
      * by rewrite omap_app.
      * intros _. rewrite omap_app. split; [done|]. intros e2. unfold px_entry. simpl. rewrite Hl, He'. by intros [= <-].
      * intros e2. unfold px_entry. simpl. rewrite Hl, He'. intros [= <-]. rewrite Hre. intros Hr. destruct (Hrc e He Hr) as [_ Hn].
        rewrite omap_app. split; [done|]. apply elem_of_app. by left.
    + apply (f_equal (λ o, o ≫= λ r, Some r.1)) in Hd. unfold Downlink in Hd. rewrite Hmap in Hd. simpl in Hd. injection Hd as Hd.
      exists D, (taken ++ [Some p]). split; cbn [tn_px tn_sv tn_client tn_up px_connID px_loc px_hub set_hub]; rewrite <- ?Hd; try done.
      * eapply pinv_view; [exact Hp| |by left]. apply view_set_hub; [done|]. intros e1 H1. by exists e1.
      * rewrite omap_app. by apply prefix_app_r.
      * by rewrite Hmap.
      * intros e1 H1 Hr. destruct (Hrc _ H1 Hr) as [_ Hn]. exfalso.
        destruct (source_end _ _ _ taken Hsrc) as [Heq _]; [rewrite Ht; by eexists|done|].
        rewrite Ht', <- app_assoc in Heq. apply (f_equal length) in Heq. rewrite !length_app in Heq. simpl in Heq. lia.
  - exists D, (taken ++ [None]). assert (pinv D (set_hub (hub sv') (tn_px t))) as Hp'.
    { pose proof (pinv_step _ _ EvClientHalf (set_hub (hub sv') (tn_px t)) Hp) as H. cbn [papply accepted] in H. rewrite Hid, app_nil_r in H.
      apply H. rewrite Heff. by destruct (px_entry (tn_px t)). }
    assert (omap id (taken ++ [None]) = omap id taken) as Hom by (rewrite omap_app; simpl; by rewrite app_nil_r).
    assert (conns (hub sv') = delete cid (conns (px_hub (tn_px t)))) as Hcn by (rewrite Heff; unfold ClientClosed; by case_match).
    split; cbn [tn_px tn_sv tn_client tn_up px_connID px_loc px_hub set_hub]; rewrite ?Hom, ?Hcn; try done.
    + intros i. rewrite Hcn. intros [_ Hi]%lookup_delete_Some. by apply Ho.
    + by rewrite lookup_delete_eq.
    + intros e1. unfold px_entry. simpl. rewrite Hl, Heff. intros H1 Hr. split; [|apply elem_of_app; right; by apply list_elem_of_singleton].
      unfold ClientClosed in H1. destruct (conns (px_hub (tn_px t)) !! cid) as [lx|] eqn:Hmap; simpl in H1.
      * assert (lx = loc) as -> by (rewrite <- Hl; apply (pv_loc _ _ Hp); by rewrite Hid). by apply Hm.
      * apply (Hrc e1); [|done]. unfold px_entry. rewrite Hl. exact H1.
  - exists D, taken. eapply server_inv_other; try done. rewrite Hup. unfold items. simpl. by rewrite Ei.
Qed.

(** A step of the connection's own goroutines. *)
Lemma server_inv_own t D taken ev p' its :
  server_inv t D taken → own_event ev = true → papply (tn_px t) ev = Some p' → pmono its (tn_px t) p' →
  ∀ down io1 io2, server_inv (mkTunnel p' (tn_sv t) (tn_client t) down (tn_up t) io1 io2) D taken.
Proof.
  intros [Hid Hl Ho Hf Hp Ht Hpre Hm Hrc] Hown Ha [Pl Pi _ Pc Pe _ _] down io1 io2.
  destruct (pv_entry _ _ Hp) as (e & _ & He & _). destruct (Pe _ He) as (e1 & He1 & Hr1 & Hd1). rewrite Hid, Hl in Hd1.
  split; cbn [tn_px tn_sv tn_client tn_up]; try done.
  - congruence.
  - congruence.
  - intros i Hi. by apply Ho, Pc.
  - pose proof (pinv_step _ _ _ _ Hp Ha) as H. assert (accepted (tn_px t) ev = []) as E by by destruct ev.
    by rewrite E, app_nil_r in H.
  - intros Hmap. destruct (Hm (Pc _ _ Hmap)) as [-> Hd]. split; [done|]. intros e2 He2.
    assert (e2 = e1) as -> by congruence. rewrite Hd1 by done. by apply Hd.
  - intros e2 He2 Hr2. assert (e2 = e1) as -> by congruence. apply (Hrc e He). congruence.
Qed.

(** ** Steps of the client *)

Lemma received1_items c pick m dialed :
  c_loop c = LoopIdle → dialConns c !! cid = None →
  (∀ j lx, connsQ c !! j = Some lx → lx = l ∨ j = cid → j = cid ∧ lx = l) → (∀ p, item_of cid m = Some (Some p) → p ≠ []) →
  received1 l c (CRecv pick m dialed) = if bool_decide (connsQ c !! cid = Some l) then items cid [m] else [].
Proof.
  intros Hlo Hd Hq Hne. unfold received1. rewrite Hlo. unfold items. cbn [omap list_omap]. unfold item_of in *.
  destruct (decide (StreamID m = cid)) as [Hid|Hid].
  - rewrite Hid, (bool_decide_true (cid = cid)) by done. rewrite Hid, (bool_decide_true (cid = cid)) in Hne by done.
    rewrite (bool_decide_ext (dialConns c !! cid = None ∧ connsQ c !! cid = Some l) (connsQ c !! cid = Some l)) by tauto.
    destruct (bool_decide (connsQ c !! cid = Some l)); [|done]. destruct (bool_decide (Type_ m = MsgData)).
    + specialize (Hne _ eq_refl). by destruct (Payload m).
    + unfold IsHalfClose. destruct (bool_decide (Type_ m = MsgStreamClose)); [|done]. simpl. by destruct (negb _).
  - rewrite (bool_decide_false (StreamID m = cid)) by done.
    rewrite bool_decide_false; [by destruct (bool_decide (connsQ c !! cid = Some l))|].
    intros [_ Hx]. destruct (Hq _ _ Hx) as [? _]; [by left|done].
Qed.

(** What a step of the client keeps and adds. *)
Lemma client_step t k R ev c' :
  client_inv t k R → source (lc_up k ≠ UpEnd) (tn_local t) (items cid (c_out (tn_client t))) →
  (∀ pick m d, ev = CRecv pick m d → opens_other cid m) →
  capply quote (tn_client t) ev = Some c' → c_loop c' ≠ LoopPanic →
  ∃ k' new, c_out c' = c_out (tn_client t) ++ new ∧ Forall (asks_other cid) new ∧ same_up k k' ∧
    c_heap c' !! l = Some k' ∧ only cid l c' ∧ dialConns c' !! cid = None ∧
    (∀ j lx, connsQ c' !! j = Some lx → lx = l ∨ j = cid → connsQ (tn_client t) !! j = Some lx) ∧
    (∃ c0 k0, io_items k0 = [] ∧ lc_q k0 = [] ∧ pending l c0 = [] ∧ flow l (R ++ received1 l (tn_client t) ev) c0 k0 c' k') ∧
    source (lc_up k' ≠ UpEnd) ((tn_local t).1 ++ read_at l ev,
      (tn_local t).2 || match ev with CUpEOF i => bool_decide (i = l) | _ => false end) (items cid (c_out c')) ∧
    ((∃ pick m d, ev = CRecv pick m d) → items cid new = []).
Proof.
  intros [Hk Hid Ho Hdi Hq _ _ (c0 & k0 & H1 & H2 & H3 & Hfl)] Hsrc Hev Ha Hp.
  destruct (capply_crel cid l quote cid_range _ _ _ _ Ho Hk Hid Hev Ha) as (its & k1 & Hc & Hk1 & Hus).
  destruct (capply_flow quote _ _ _ _ _ Ha Hp Hk) as (k' & Hk' & Hf). assert (k1 = k') as -> by congruence.
  destruct (cr_out _ _ _ _ _ Hc) as (new & Hout & <- & Hask).
  assert (same_up k k') as Hup. { destruct (cr_up _ _ _ _ _ Hc _ _ Hk) as (k2 & Hk2 & ?). congruence. }
  exists k', new. split_and!; try done.
  - by eapply crel_only.
  - by apply (cr_dial _ _ _ _ _ Hc).
  - apply (cr_q _ _ _ _ _ Hc).
  - exists c0, k0. split_and!; try done. by eapply flow_trans.
  - rewrite Hout, items_app. eapply source_next; [exact Hsrc|]. by apply up_source_step.
  - intros (pick & m & d & ->). destruct Hus as [_ _ [[? _]|[[_ ?]|[_ ?]]]]; done.
Qed.

(** The invariant of the client's side after such a step. *)
Lemma client_inv_next t k R ev c' k' new R' p' sv down up io1 io2 :
  client_inv t k R → c_out c' = c_out (tn_client t) ++ new → same_up k k' →
  c_heap c' !! l = Some k' → only cid l c' → dialConns c' !! cid = None →
  (∀ j lx, connsQ c' !! j = Some lx → lx = l ∨ j = cid → connsQ (tn_client t) !! j = Some lx) →
  (∃ c0 k0, io_items k0 = [] ∧ lc_q k0 = [] ∧ pending l c0 = [] ∧ flow l (R ++ received1 l (tn_client t) ev) c0 k0 c' k') →
  R' = R ++ received1 l (tn_client t) ev → R' `prefix_of` items cid (px_sent p') →
  (connsQ (tn_client t) !! cid = Some l → items cid (px_sent p') = R' ++ items cid down) →
  client_inv (mkTunnel p' sv c' down up io1 io2) k' R'.
Proof.
  intros [Hk Hid Ho Hdi Hq Hpre Hmap Hf0] Hout (Hid' & _) Hk' Ho' Hdi' Hq' Hf -> Hp' Hm'. split; cbn [tn_client tn_px tn_down]; try done.
  - congruence.
  - intros j lx Hx Hor. apply Hq; [by apply Hq'|done].
  - intros Hx. apply Hm', Hq'; [done|by left].
Qed.

Lemma asks_requests m : asks_other cid m → requests_other cid m.
Proof.
  intros Ha Ht req Hd. destruct (Ha Ht) as (v & Hp & Hne). unfold DecodeControl in Hd. rewrite Hp in Hd.
  assert (cc_ConnID req = cc_ConnID v) as ->; [|done]. apply json_number.
  destruct (json_marshal v) eqn:E; [done|]. rewrite <- E in *. destruct (json_unmarshal (json_marshal v)); [|done]. by injection Hd as ->.
Qed.

Lemma client_inv_ext t k R p' its sv new up io1 io2 :
  client_inv t k R → px_sent p' = px_sent (tn_px t) ++ new → items cid new = its →
  client_inv (mkTunnel p' sv (tn_client t) (tn_down t ++ new) up io1 io2) k R.
Proof.
  intros [Hk Hid Ho Hdi Hq Hpre Hm Hf] Hs Hi. split; cbn [tn_client tn_px tn_down]; try done.
  - rewrite Hs, items_app. by apply prefix_app_r.
  - intros Hx. by rewrite Hs, !items_app, Hm, app_assoc.
Qed.

Lemma items_quiet ms : Forall (λ m, item_of cid m = None) ms → items cid ms = [].
Proof. induction 1 as [|m ms Hm _ IH]; [done|]. unfold items in *. cbn [omap list_omap]. by rewrite Hm. Qed.

(** Every step keeps the invariant. *)
Lemma tn_inv_step t t' : tn_inv t → tstep t t' → tn_inv t'.
Proof.
  intros [(D & taken & Hs) (k & R & Hc & Hsrc) Hext Hop Hask] Hstep. destruct Hstep as
    [ev p' Hown Hne Ha|sv' ms [Hoh Hf] Hms|m up pick now sv' dials Hup Hcl Hfe Hh|m down pick dialed c' Hd Ha Hp|ev c' Hev Ha Hp|ms Hms].
  - destruct (papply_own _ _ _ Hown Hne Ha) as (its & Hm & Hes). pose proof Hm as [_ _ (new & Hnew & Hits & Hq) _ _ _ _].
    rewrite Hnew, news_app. rewrite (si_id _ _ _ Hs) in Hits. split; cbn [tn_px tn_sv tn_client tn_down tn_up tn_ext tn_local].
    + exists D, taken. by eapply server_inv_own.
    + exists k, R. split; [|done]. by eapply client_inv_ext.
    + rewrite Hnew, items_app, Hits. eapply source_next; [exact Hext|]. by apply ext_source_step.
    + apply Forall_app. split; [done|]. eapply Forall_impl; [exact Hq|]. by intros m H H'.
    + done.
  - split; cbn [tn_px tn_sv tn_client tn_down tn_up tn_ext tn_local px_sent px_up set_hub]; try done.
    + exists D, taken. by eapply server_inv_other.
    + exists k, R. split; [|done]. destruct Hc as [Hk Hid Ho Hdi Hq Hpre Hm Hfl]. split; try done. cbn [tn_down tn_px px_sent set_hub tn_client].
      intros Hx. rewrite items_app, (items_quiet ms), app_nil_r; [by apply Hm|]. eapply Forall_impl; [exact Hms|by intros ? []].
    + apply Forall_app. split; [done|]. eapply Forall_impl; [exact Hms|by intros ? []].
  - rewrite Hup in Hask. apply Forall_cons in Hask as [Hm Hask].
    destruct (server_inv_recv t D taken _ m up pick now sv' dials Hs Hsrc Hup (asks_requests _ Hm) Hcl Hfe Hh) as (D' & taken' & Hs').
    split; cbn [tn_px tn_sv tn_client tn_down tn_up tn_ext tn_local px_sent px_up set_hub]; try done.
    + by exists D', taken'.
    + exists k, R. split; [|done]. destruct Hc as [Hk Hid Ho Hdi Hq Hpre Hmp Hfl]. by split.
  - rewrite Hd in Hop. apply Forall_cons in Hop as [Hm Hop].
    destruct (client_step t k R (CRecv pick m dialed) c' Hc Hsrc ltac:(by intros ??? [= _ <- _]) Ha Hp)
      as (k' & new & Hout & Hn & Hsu & Hk' & Ho' & Hd' & Hq' & Hf' & Hsrc' & Hq0).
    specialize (Hq0 ltac:(by eexists _, _, _)). cbn [read_at] in Hsrc'. rewrite app_nil_r, orb_false_r in Hsrc'.
    rewrite Hout, news_app. pose proof (cl_mapped _ _ _ Hc) as Hmap. rewrite Hd in Hmap.
    assert (received1 l (tn_client t) (CRecv pick m dialed) =
      if bool_decide (connsQ (tn_client t) !! cid = Some l) then items cid [m] else []) as Hrec.
    { simpl in Ha. destruct (c_loop (tn_client t)) eqn:El; try done. destruct (decide (connsQ (tn_client t) !! cid = Some l)) as [Hx|Hx].
      - apply received1_items; [done|apply Hc|apply Hc|]. intros p Hi. apply (source_nonempty _ _ _ _ Hext).
        rewrite (Hmap Hx). apply elem_of_app. right. unfold items. cbn [omap list_omap]. rewrite Hi. by left.
      - rewrite (bool_decide_false (connsQ _ !! _ = _)) by done. unfold received1. rewrite El. rewrite bool_decide_false; [done|].
        intros [_ Hy]. apply Hx. destruct (cl_queue _ _ _ Hc _ _ Hy) as [<- _]; [by left|done]. }
    split; cbn [tn_px tn_sv tn_client tn_down tn_up tn_ext tn_local]; try done.
    + exists D, taken. destruct Hs as [Sid Sl So Sf Sp St Spre Sm Sr]. split; cbn [tn_px tn_sv tn_client tn_up]; try done.
      by rewrite Hout, !items_app, St, app_assoc.
    + exists k', (R ++ received1 l (tn_client t) (CRecv pick m dialed)). split; [|by destruct (tn_local t)].
      eapply client_inv_next; try done; rewrite Hrec; case_bool_decide as Hx; try done.
      * rewrite (Hmap Hx). exists (items cid down). rewrite <- app_assoc, <- items_app. done.
      * rewrite app_nil_r. apply Hc.
      * intros _. rewrite (Hmap Hx), <- app_assoc, <- items_app. done.
    + by apply Forall_app.
  - destruct (client_step t k R ev c' Hc Hsrc ltac:(by intros ??? ?; destruct (Hev pick m d)) Ha Hp)
      as (k' & new & Hout & Hn & Hsu & Hk' & Ho' & Hd' & Hq' & Hf' & Hsrc' & _).
    rewrite Hout, news_app. assert (received1 l (tn_client t) ev = []) as Hrec.
    { destruct ev; try done. by edestruct Hev. }
    split; cbn [tn_px tn_sv tn_client tn_down tn_up tn_ext tn_local]; try done.
    + exists D, taken. destruct Hs as [Sid Sl So Sf Sp St Spre Sm Sr]. split; cbn [tn_px tn_sv tn_client tn_up]; try done.
      by rewrite Hout, !items_app, St, app_assoc.
    + exists k', R. split; [|done]. eapply client_inv_next; try done; rewrite ?Hrec, ?app_nil_r; try done; apply Hc.
    + by apply Forall_app.
  - split; cbn [tn_px tn_sv tn_client tn_down tn_up tn_ext tn_local]; try done.
    + exists D, taken. destruct Hs as [Sid Sl So Sf Sp St Spre Sm Sr]. split; cbn [tn_px tn_sv tn_client tn_up add_out c_out with_link]; try done.
      by rewrite !items_app, St, app_assoc.
    + exists k, R. split.
      * destruct Hc as [Hk Hid Ho Hdi Hq Hpre Hmp Hfl]. by split.
      * simpl. rewrite items_app, (items_quiet ms), app_nil_r; [done|]. eapply Forall_impl; [exact Hms|by intros ? []].
    + apply Forall_app. split; [done|]. eapply Forall_impl; [exact Hms|by intros ? []].
Qed.

(** ** The pipes *)

Lemma client_sent t k R : client_inv t k R → tn_io t = lc_io k ∧ io_items k `prefix_of` items cid (px_sent (tn_px t)) ∧
  ∃ lost, io_items k ++ lost ++ lc_q k ++ pending l (tn_client t) = R ∧ (lc_pump k = true → lost = []).
Proof.
  intros [Hk _ _ _ _ Hp _ (c0 & k0 & H1 & H2 & H3 & lost & Hf & Hlost & _)].
  rewrite H1, H2, H3 in Hf. simpl in Hf. split; [unfold tn_io; by rewrite Hk|]. split.
  - etrans; [|exact Hp]. rewrite <- Hf. by eexists.
  - exists lost. split; [done|]. intros H. by destruct (Hlost H).
Qed.

Lemma close_write_item io : existsb is_close_write io = true → None ∈ omap io_item io.
Proof.
  induction io as [|x io IH]; [done|]. simpl. destruct x; simpl; intros H; [right; by apply IH|by left|by apply IH].
Qed.

Lemma ext_close_write_elem xs : existsb is_ext_close_write xs = true → XCloseWrite ∈ xs.
Proof. rewrite existsb_exists. intros (x & Hx & H). destruct x; try done. by apply list_elem_of_In. Qed.

Lemma concat_mono {A} (l1 l2 : list (list A)) : l1 `prefix_of` l2 → concat l1 `prefix_of` concat l2.
Proof. intros [r ->]. rewrite concat_app. by eexists. Qed.

Lemma tn_inv_pipes t : tn_inv t → pipe_ok (down_pipe t) ∧ pipe_ok (up_pipe t).
Proof.
  intros [(D & taken & Hs) (k & R & Hc & Hsrc) Hext _ _]. split.
  - destruct (client_sent _ _ _ Hc) as (Hio & Hpre & _). unfold pipe_ok, down_pipe. simpl. rewrite Hio. split.
    + etrans; [apply (item_bytes_mono _ _ Hpre)|]. by apply (source_bytes _ _ _ Hext).
    + intros H%close_write_item. destruct (source_end _ _ _ _ Hext Hpre H) as (Heq & He & Hb). split; [done|].
      change (omap io_item (lc_io k)) with (io_items k). by rewrite Heq.
  - destruct (pv_entry _ _ (si_pinv _ _ _ Hs)) as (e & lost & He & HD & _ & _ & _ & Hcw).
    assert (taken `prefix_of` items cid (c_out (tn_client t))) as Htk by (rewrite (si_taken _ _ _ Hs); by eexists).
    unfold pipe_ok, up_pipe. simpl. split.
    + etrans; [|apply (source_bytes _ _ _ Hsrc)]. etrans; [|apply (item_bytes_mono _ _ Htk)]. apply concat_mono.
      etrans; [|apply (si_prefix _ _ _ Hs)]. rewrite HD. by eexists.
    + intros H%ext_close_write_elem. destruct (Hcw H) as [HDw Hrc]. destruct (si_closed _ _ _ Hs _ He Hrc) as [HDt Hn].
      destruct (source_end _ _ _ _ Hsrc Htk Hn) as (Heq & Heof & Hb). split; [done|].
      rewrite <- Hb, <- Heq. unfold item_bytes. by rewrite <- HDt, HDw.
Qed.

(** What a step reads and writes at the two ends. *)
Definition grows (io io' : list byte * bool) : Prop :=
  ∃ rd eof, io' = (io.1 ++ rd, io.2 || eof) ∧ (rd ≠ [] ∨ eof = true → io.2 = false) ∧ (eof = true → rd = []).

Lemma grows_refl io : grows io io.
Proof. exists [], false. destruct io. rewrite app_nil_r, orb_false_r. split_and!; try done. by intros [|]. Qed.

Lemma source_grows alive alive' io its rd eof new :
  source alive io its → source_step alive alive' rd eof new → grows io (io.1 ++ rd, io.2 || eof).
Proof.
  intros (chunks & tail & ? & ? & ? & Ha & ?) [_ Sr Se _]. exists rd, eof. split_and!; [done| |].
  - intros [Hx|Hx]; [by destruct (Ha (Sr Hx)) as (_ & ? & _)|]. destruct (Se Hx) as (Hx' & _). by destruct (Ha Hx') as (_ & ? & _).
  - intros Hx. by destruct (Se Hx) as (_ & _ & ?).
Qed.

Lemma tstep_grows t t' : tn_inv t → tstep t t' →
  tn_io t `prefix_of` tn_io t' ∧ px_ext (tn_px t) `prefix_of` px_ext (tn_px t') ∧
  (grows (tn_ext t) (tn_ext t') ∧ tn_io t' = tn_io t ∨ tn_ext t' = tn_ext t) ∧
  (grows (tn_local t) (tn_local t') ∧ px_ext (tn_px t') = px_ext (tn_px t) ∨ tn_local t' = tn_local t).
Proof.
  intros [_ (k & R & Hc & Hsrc) Hext Hop _] Hstep. destruct (client_sent _ _ _ Hc) as (Hio & _). destruct Hstep as
    [ev p' Hown Hne Ha|sv' ms [Hoh Hf] Hms|m up pick now sv' dials Hup Hcl Hfe Hh|m down pick dialed c' Hd Ha Hp|ev c' Hev Ha Hp|ms Hms];
    cbn [tn_px tn_sv tn_client tn_down tn_up tn_ext tn_local]; try by (split_and!; [done|done|right|right]).
  - destruct (papply_own _ _ _ Hown Hne Ha) as (its & Hm & Hes). split_and!; [done|apply Hm| |by right].
    left. split; [|done]. eapply source_grows; [exact Hext|by apply ext_source_step].
  - rewrite Hd in Hop. apply Forall_cons in Hop as [Hm _].
    destruct (client_step t k R (CRecv pick m dialed) c' Hc Hsrc ltac:(by intros ??? [= _ <- _]) Ha Hp)
      as (k' & new & _ & _ & (_ & _ & Hsu) & Hk' & _). rewrite Hio. unfold tn_io. simpl. rewrite Hk'.
    split_and!; [done|done|by right|by right].
  - destruct (client_step t k R ev c' Hc Hsrc ltac:(by intros ??? ?; destruct (Hev pick m d)) Ha Hp)
      as (k' & new & _ & _ & (_ & _ & Hsu) & Hk' & _). rewrite Hio. unfold tn_io at 1. simpl. rewrite Hk'.
    split_and!; [done|done|by right|]. left. split; [|done].
    destruct (capply_crel cid l quote cid_range _ _ _ _ (cl_only _ _ _ Hc) (cl_heap _ _ _ Hc) (cl_id _ _ _ Hc)
      ltac:(by intros ??? ?; destruct (Hev pick m d)) Ha) as (its & k1 & Hcr & Hk1 & Hus).
    destruct (cr_up _ _ _ _ _ Hcr _ _ (cl_heap _ _ _ Hc)) as (k2 & Hk2 & Hsu2). assert (k2 = k1) as -> by congruence.
    eapply source_grows; [exact Hsrc|by eapply up_source_step].
Qed.

(** One pipe over a step that grows its input or advances its output. *)
Lemma pipe_simulates io io' o e o' e' :
  (grows io io' ∧ (o', e') = (o, e) ∨ io' = io) → o `prefix_of` o' → (e = true → e' = true) →
  pipe_ok (mkPipe io'.1 io'.2 o' e') → rtc pipe_step (mkPipe io.1 io.2 o e) (mkPipe io'.1 io'.2 o' e').
Proof.
  intros [[(rd & eof & -> & Hf & Hr) [= -> ->]]| ->] Ho He Hok; [by apply pipe_grow|by apply pipe_advance].
Qed.

Lemma existsb_mono {A} (f : A → bool) xs ys : xs `prefix_of` ys → existsb f xs = true → existsb f ys = true.
Proof. intros [r ->] H. by rewrite existsb_app, H. Qed.

Lemma omap_mono {A B} (f : A → option B) xs ys : xs `prefix_of` ys → omap f xs `prefix_of` omap f ys.
Proof. intros [r ->]. rewrite omap_app. by eexists. Qed.

Lemma tstep_simulates t t' : tn_inv t → tstep t t' →
  rtc pipe_step (down_pipe t) (down_pipe t') ∧ rtc pipe_step (up_pipe t) (up_pipe t').
Proof.
  intros Hi Hs. destruct (tn_inv_pipes t' (tn_inv_step _ _ Hi Hs)) as [Hd Hu].
  destruct (tstep_grows _ _ Hi Hs) as (Hio & Hx & He & Hl). split.
  - apply pipe_simulates; [|by apply item_bytes_mono, omap_mono|by apply existsb_mono|exact Hd].
    destruct He as [[? E]|?]; [left|by right]. by rewrite E.
  - apply pipe_simulates; [|by apply concat_mono, omap_mono|by apply existsb_mono|exact Hu].
    destruct Hl as [[? E]|?]; [left|by right]. unfold px_written. by rewrite E.
Qed.

Lemma tunnel_steps t t' : tn_inv t → rtc tstep t t' →
  tn_inv t' ∧ rtc pipe_step (down_pipe t) (down_pipe t') ∧ rtc pipe_step (up_pipe t) (up_pipe t').
Proof.
  intros Hi Hr. induction Hr as [t|t1 t2 t3 Hs Hr IH]; [done|].
  destruct (tstep_simulates _ _ Hi Hs) as [Hd Hu]. destruct (IH (tn_inv_step _ _ Hi Hs)) as (? & ? & ?).
  split_and!; [done|by etrans|by etrans].
Qed.

(** ** Freshly opened *)

(** A tunnel whose connection was just opened on both sides. *)
Record fresh_tunnel (t : tunnel) : Prop := {
  ft_px : ∃ cw, tn_px t = start_conn (px_hub (tn_px t)) loc cid cw;
  ft_hub : hub_inv (px_hub (tn_px t));
  ft_mapped : conns (px_hub (tn_px t)) !! cid = Some loc;
  ft_sink e : hub_entry (px_hub (tn_px t)) loc = Some e → ce_Sink e = [];
  ft_feeds : feeds_other cid (tn_sv t);
  ft_client : cinv (tn_client t);
  ft_open : c_closed (tn_client t) = false;
  ft_queue : connsQ (tn_client t) !! cid = Some l;
  ft_conn : ∃ k, c_heap (tn_client t) !! l = Some k ∧ lc_io k = [] ∧ lc_q k = [] ∧ lc_up k ≠ UpEnd;
  ft_only : only cid l (tn_client t);
  ft_dial : dialConns (tn_client t) !! cid = None;
  ft_pending : pending l (tn_client t) = [];
  ft_out : items cid (c_out (tn_client t)) = [] ∧ items cid (tn_up t) = [] ∧ items cid (tn_down t) = [];
  ft_links : Forall (opens_other cid) (tn_down t) ∧ Forall (asks_other cid) (tn_up t);
  ft_io : tn_ext t = ([], false) ∧ tn_local t = ([], false);
}.

Lemma fresh_tunnel_inv t : fresh_tunnel t → tn_inv t ∧
  down_pipe t = mkPipe [] false [] false ∧ up_pipe t = mkPipe [] false [] false.
Proof.
  intros [[cw Hpx] Hh Hm Hsink Hf Hc Hcl Hq (k & Hk & Hio & Hqk & Hup) Ho Hdi Hpe (H1 & H2 & H3) [H4 H5] [He Hl]].
  assert (∀ a, source a ([], false) []) as Hsrc. { intros a. exists [], []. split_and!; try done; by left. }
  pose proof (ci_queues _ Hc Hcl) as Hqs. destruct (hi_conns _ Hh _ _ Hm) as (e & Hent & _ & _ & Hopen).
  assert (px_sent (tn_px t) = [] ∧ px_ext (tn_px t) = [] ∧ px_loc (tn_px t) = loc ∧ px_connID (tn_px t) = cid ∧ px_down (tn_px t) = DPump)
    as (Hs & Hx & Hlc & Hid & Hdn) by (rewrite Hpx; done).
  split; [split|].
  - exists [], []. split; try done.
    + intros i Hi. by eapply hi_conns_inj.
    + split; [|rewrite Hid, Hlc; intros lx; congruence]. exists e, []. unfold px_entry, px_written. rewrite Hlc, Hx, Hid, Hdn, Hent, (Hsink _ Hent).
      destruct Hopen as (_ & Hrc & _). rewrite Hrc. split_and!; try done. by intros ?%elem_of_nil.
    + by rewrite H1, H2.
    + intros _. split; [done|]. unfold px_entry. rewrite Hlc, Hent. intros e' [= <-]. apply Hopen.
    + unfold px_entry. rewrite Hlc, Hent. intros e' [= <-]. destruct Hopen as (_ & -> & _). done.
  - destruct (ci_loc _ Hc cid l) as (k' & Hk' & Hid' & _); [congruence|]. assert (k' = k) as -> by congruence.
    exists k, []. rewrite Hl, H1. split; [|done]. split; try done.
    + intros j lx Hj Hor. rewrite Hqs in Hj. destruct (ci_loc _ Hc _ _ Hj) as (k2 & Hk2 & Hid2 & _). destruct Hor as [-> | ->].
      * split; [congruence|done].
      * split; [done|]. by apply (Ho lx k2).
    + apply prefix_nil.
    + intros _. by rewrite Hs, H3.
    + exists (tn_client t), k. unfold io_items. rewrite Hio. split_and!; try done. exists []. rewrite Hpe, Hqk. by split_and!.
  - rewrite He, Hs. apply Hsrc.
  - done.
  - done.
  - unfold down_pipe, up_pipe, tn_io, px_written. rewrite He, Hl, Hk, Hx. simpl. by rewrite Hio.
Qed.

(** Nothing is under way for the connection, and both of its sides live. *)
Record drained (t : tunnel) : Prop := {
  dr_links : items cid (tn_down t) = [] ∧ items cid (tn_up t) = [];
  dr_server : conns (px_hub (tn_px t)) !! cid = Some loc ∧ px_down (tn_px t) ≠ DExit;
  dr_sink e : px_entry (tn_px t) = Some e → ce_Sink e = [];
  dr_client : connsQ (tn_client t) !! cid = Some l ∧ pending l (tn_client t) = [];
  dr_queue k : c_heap (tn_client t) !! l = Some k → lc_pump k = true ∧ lc_q k = [];
}.

Lemma drained_complete t : tn_inv t → drained t →
  (px_up (tn_px t) = UReading → p_out (down_pipe t) = p_in (down_pipe t)) ∧
  ((∃ k, c_heap (tn_client t) !! l = Some k ∧ lc_up k ≠ UpEnd) → p_out (up_pipe t) = p_in (up_pipe t)).
Proof.
  intros [(D & taken & Hs) (k & R & Hc & Hsrc) Hext _ _] [[Hd Hu] [Hm Hdn] Hsink [Hq Hpe] Hqu]. split.
  - intros Hr. destruct (client_sent _ _ _ Hc) as (Hio & _ & lost & HR & Hlost).
    destruct (Hqu _ (cl_heap _ _ _ Hc)) as [Hp Hqn]. rewrite (Hlost Hp), Hqn, Hpe in HR. simpl in HR. rewrite app_nil_r in HR.
    unfold down_pipe. simpl. rewrite Hio. change (omap io_item (lc_io k)) with (io_items k).
    pose proof (cl_mapped _ _ _ Hc Hq) as Hsent. rewrite Hd, app_nil_r in Hsent. rewrite HR, <- Hsent. by apply (source_bytes _ _ _ Hext).
  - intros (k' & Hk' & Hup). assert (k' = k) as -> by (pose proof (cl_heap _ _ _ Hc); congruence).
    destruct (pv_entry _ _ (si_pinv _ _ _ Hs)) as (e & lost & He & HD & Hlost & _). destruct (si_mapped _ _ _ Hs Hm) as [HDt _].
    rewrite (Hlost Hdn), (Hsink _ He) in HD. simpl in HD. rewrite app_nil_r in HD.
    unfold up_pipe. simpl. rewrite <- HD, HDt. pose proof (si_taken _ _ _ Hs) as Ht. rewrite Hu, app_nil_r in Ht.
    change (item_bytes taken = (tn_local t).1). rewrite <- Ht. by apply (source_bytes _ _ _ Hsrc).
Qed.
End system.

(** * Opening *)

Section opening.
Context {CJ : ControlJson} {OL : JsonLaws ConnOpenReq} {AL : JsonLaws ConnOpenAck}.
Variable quote : string → string.

(** The client accepts the connection it is asked for. *)
Lemma handleConnOpen_accepts c req m streamId :
  @DecodeControl ConnOpenReq _ m = Ok req → streamIDs c !! cr_StreamID req = Some streamId → c_dialer c = true → c_link c = true →
  Z.of_nat (length (json_marshal (mkConnOpenAck (cr_ConnID req) true ""))) ≤ MaxPayloadSize →
  handleConnOpen quote c m (Ok tt) =
    let c1 := with_link c true (c_closed c) (c_out c ++ [control_message MsgConnOpenAck (mkConnOpenAck (cr_ConnID req) true "")]) in
    let id := cr_ConnID req in let n := length (c_heap c) in
    CtrlClient.with_conns (with_heap c1 (c_heap c ++ [mkLconn id [] false [] (NewWindow DefaultStreamWindow) true UpStart]))
      (<[id := n]> (CtrlClient.conns c)) (<[id := n]> (connsWin c)) (<[id := n]> (connsQ c)).
Proof.
  intros Hd Hs Hdial Hl Hlen. unfold handleConnOpen. rewrite Hd, Hs, Hdial. cbn [negb]. unfold send. rewrite Hl.
  rewrite (proj2 (Z.leb_le _ _)) by exact Hlen. done.
Qed.

(** The acknowledgement reaches [OpenConn]. *)
Lemma handle_conn_ack pick now sv sid ack :
  sendable ack → is_Some (clients sv !! sid) → is_Some (feeds sv !! sid) →
  handle quote pick now sv sid (control_message MsgConnOpenAck ack) = Some (with_hub sv (DeliverConnAck (hub sv) ack), []).
Proof.
  intros Hs [info Hc] [feed Hf]. unfold handle. rewrite Hc, Hf. simpl. unfold dispatch. simpl.
  by rewrite DecodeControl_control.
Qed.

Lemma DeliverConnAck_same h ack :
  CtrlHub.conns (DeliverConnAck h ack) = CtrlHub.conns h ∧ hub_heap (DeliverConnAck h ack) = hub_heap h.
Proof. unfold DeliverConnAck. by case_match. Qed.

(** A server and a client between which a connection can be opened: the session
    works, the stream is the client's, the hub's next number was not used in this
    session. *)
Record openable (sv : CtrlProxyServer) (sid : session_id) (entry : StreamEntry) (c : CtrlClient) (cid : Z) : Prop := {
  op_cid : cid = connSeq (hub sv) + 1 ∧ cid < 2 ^ 31;
  op_hub : hub_inv (hub sv);
  op_session : se_Client entry = sid ∧ is_Some (clients sv !! sid) ∧ is_Some (feeds sv !! sid);
  op_feeds : feeds_other cid sv;
  op_client : cinv c ∧ c_closed c = false ∧ c_loop c = LoopIdle ∧ c_link c = true ∧ c_dialer c = true;
  op_stream : is_Some (streamIDs c !! se_AssignID entry);
  op_fresh : ¬ cid ∈ (lc_id <$> c_heap c) ∧ dialConns c !! cid = None ∧ items cid (c_out c) = [];
  op_json : sendable (mkConnOpenReq (se_AssignID entry) cid) ∧ sendable (mkConnOpenAck cid true "");
}.

Lemma only_grow cid c h : ¬ cid ∈ (lc_id <$> c_heap c) → c_heap c = h →
  ∀ c' k, c_heap c' = h ++ [k] → only cid (length h) c'.
Proof.
  intros Hn <- c' k Hc' i k' Hk' Hid. rewrite Hc' in Hk'. apply lookup_app_Some in Hk' as [Hk'|[Hle Hk']].
  - destruct Hn. apply list_elem_of_fmap. exists k'. split; [done|]. by eapply list_elem_of_lookup_2.
  - apply list_lookup_singleton_Some in Hk' as [? _]. lia.
Qed.

Lemma opening_fresh pick now now' sv sid sl entry c cid cw :
  openable sv sid entry c cid →
  let '(h1, loc, (dst, m)) := OpenConn_begin (hub sv) sl entry now in
  let c' := handleConnOpen quote c m (Ok tt) in
  let ack := mkConnOpenAck cid true "" in
  dst = sid ∧ c_out c' = c_out c ++ [control_message MsgConnOpenAck ack] ∧
  ∃ sv', handle quote pick now' (with_hub sv h1) sid (control_message MsgConnOpenAck ack) = Some (sv', []) ∧
    OpenConn_end (hub sv') cid loc (OpenAck ack) = (hub sv', Ok loc) ∧
    fresh_tunnel cid loc (length (c_heap c))
      (mkTunnel (start_conn (hub sv') loc cid cw) sv' c' [] [] ([], false) ([], false)).
Proof.
  intros [[Hcid Hmax] Hh (Hse & Hcl & Hfe) Hf (Hc & Hop & Hlo & Hli & Hdi) [streamId Hst] (Hfr & Hdc & Hout) [Hj1 Hj2]].
  pose proof (hi_seq _ Hh) as Hseq. pose proof (hub_inv_OpenConn (hub sv) sl entry now Hh ltac:(lia)) as Hh1.
  unfold OpenConn_begin in *. rewrite u32_small in * by lia. rewrite <- Hcid in *. cbn zeta. cbn [fst] in Hh1.
  set (loc := length (hub_heap (hub sv))) in *. set (h1 := mkCtrlHub _ _ _ _ _ _) in *. set (ack := mkConnOpenAck cid true "").
  set (m := conn_open_frame (se_AssignID entry) cid).
  assert (@DecodeControl ConnOpenReq _ m = Ok (mkConnOpenReq (se_AssignID entry) cid)) as Hd.
  { exact (DecodeControl_control MsgConnOpen (mkConnOpenReq (se_AssignID entry) cid) Hj1). }
  pose proof (handleConnOpen_accepts c _ m streamId Hd Hst Hdi Hli (proj2 Hj2)) as Hacc. cbn zeta in Hacc. cbn [cr_ConnID] in Hacc.
  assert (cinv (handleConnOpen quote c m (Ok tt))) as Hc'.
  { apply handleConnOpen_cinv; [done..|]. intros req Hr. assert (req = mkConnOpenReq (se_AssignID entry) cid) as -> by congruence. exact Hfr. }
  rewrite Hacc in *. split; [exact Hse|]. split; [done|]. exists (with_hub (with_hub sv h1) (DeliverConnAck h1 ack)).
  destruct (DeliverConnAck_same h1 ack) as [Hcn Hhp]. split; [|split; [done|]].
  { by apply (handle_conn_ack pick now' (with_hub sv h1) sid ack). }
  set (h2 := DeliverConnAck h1 ack) in *.
  split; cbn [tn_px tn_sv tn_client tn_up tn_down tn_ext tn_local px_hub start_conn hub with_hub]; try done.
  - by exists cw.
  - by apply hub_inv_DeliverConnAck.
  - rewrite Hcn. apply lookup_insert_eq.
  - unfold hub_entry. rewrite Hhp. intros e. simpl. rewrite list_lookup_middle by done. by intros [= <-].
  - simpl. apply lookup_insert_eq.
  - simpl. rewrite list_lookup_middle by done. by eexists.
  - by eapply only_grow.
  - unfold pending. simpl. by rewrite Hlo.
  - split; [|done]. simpl. rewrite items_app, Hout. unfold items. cbn [omap list_omap app]. by rewrite item_of_ctrl.
Qed.
End opening.

(** ** An executable history *)

(** The steps but those of others, with what they need decided. *)
Inductive tevent :=
  | TExt (ev : pevent)
  | TServerRecv (pick : bool) (now : Z)
  | TClientRecv (pick : bool) (dialed : result string unit)
  | TClient (ev : cevent).

Definition is_panic (s : loop_state) : bool := match s with LoopPanic => true | _ => false end.
Definition is_empty_read (ev : pevent) : bool := match ev with EvRead [] _ => true | _ => false end.
Definition is_recv (ev : cevent) : bool := match ev with CRecv _ _ _ => true | _ => false end.

Section run.
Context {CJ : ControlJson} (quote : string → string).
Context (sid : session_id) (cid : Z) (loc : conn_loc) (l : nat).

Definition client_next (t : tunnel) (c' : CtrlClient) (down : list Message) (io : list byte * bool) : option tunnel :=
  if is_panic (c_loop c') then None
  else Some (mkTunnel (tn_px t) (tn_sv t) c' down (tn_up t ++ news (c_out (tn_client t)) (c_out c')) (tn_ext t) io).

Definition tapply (t : tunnel) (ev : tevent) : option tunnel :=
  match ev with
  | TExt ev =>
      if negb (own_event ev) || is_empty_read ev then None
      else
        (λ p', mkTunnel p' (tn_sv t) (tn_client t) (tn_down t ++ news (px_sent (tn_px t)) (px_sent p')) (tn_up t)
          ((tn_ext t).1 ++ ext_read ev, (tn_ext t).2 || match ev with EvEOF => true | _ => false end) (tn_local t))
        <$> papply (tn_px t) ev
  | TServerRecv pick now =>
      match tn_up t, clients (tn_sv t) !! sid, feeds (tn_sv t) !! sid with
      | m :: up, Some _, Some _ =>
          (λ r, mkTunnel (set_hub (hub r.1) (tn_px t)) r.1 (tn_client t) (tn_down t) up (tn_ext t) (tn_local t))
          <$> handle quote pick now (tn_server t) sid m
      | _, _, _ => None
      end
  | TClientRecv pick dialed =>
      match tn_down t with
      | m :: down => capply quote (tn_client t) (CRecv pick m dialed) ≫= λ c', client_next t c' down (tn_local t)
      | [] => None
      end
  | TClient ev =>
      if is_recv ev then None
      else
        capply quote (tn_client t) ev ≫= λ c', client_next t c' (tn_down t)
          ((tn_local t).1 ++ read_at l ev, (tn_local t).2 || match ev with CUpEOF i => bool_decide (i = l) | _ => false end)
  end.

Fixpoint trun (t : tunnel) (evs : list tevent) : option tunnel :=
  match evs with
  | [] => Some t
  | ev :: evs => tapply t ev ≫= λ t, trun t evs
  end.

Lemma tapply_step t ev t' : tapply t ev = Some t' → tstep quote sid cid loc l t t'.
Proof.
  destruct ev as [ev|pick now|pick dialed|ev]; simpl.
  - destruct (own_event ev) eqn:Eo; [|done]. destruct (is_empty_read ev) eqn:Er; [done|]. simpl.
    destruct (papply _ _) eqn:Ea; [|done]. intros [= <-]. apply ts_ext; [done| |done]. by intros ok ->.
  - destruct (tn_up t) eqn:Eu; [done|]. destruct (clients _ !! _) eqn:Ec; [|done]. destruct (feeds _ !! _) eqn:Ef; [|done].
    destruct (handle _ _ _ _ _ _) as [[sv' ds]|] eqn:Eh; [|done]. intros [= <-].
    eapply ts_server_recv; [exact Eu|by eexists|by eexists|exact Eh].
  - destruct (tn_down t) eqn:Ed; [done|]. intros (c' & Ha & Hn)%bind_Some. unfold client_next in Hn.
    destruct (is_panic _) eqn:Ep; [done|]. injection Hn as <-. eapply ts_client_recv; [exact Ed|exact Ha|]. by intros E; rewrite E in Ep.
  - destruct (is_recv ev) eqn:Er; [done|]. intros (c' & Ha & Hn)%bind_Some. unfold client_next in Hn.
    destruct (is_panic _) eqn:Ep; [done|]. injection Hn as <-. eapply ts_client; [|exact Ha|].
    + by intros ??? ->.
    + by intros E; rewrite E in Ep.
Qed.

Lemma trun_steps t evs t' : trun t evs = Some t' → rtc (tstep quote sid cid loc l) t t'.
Proof.
  revert t. induction evs as [|ev evs IH]; intros t; simpl; [by intros [= ->]|].
  intros (t1 & Ha & Hr)%bind_Some. eapply rtc_l; [by eapply tapply_step|by apply IH].
Qed.
End run.

(** ** Properties *)

(** C1: From the external connection to the local one and back, a tunnelled
    connection is two pipes. Whatever the interleaving (of the connection's two
    goroutines, the read loops of the two ends of the session, the write pump and
    the uplink of the client, the link's delays, the other connections of the
    session, the other sessions and the other goroutines of the server, failures
    and teardowns included), every step is matched, in each direction, by steps of
    an ordered pipe of bytes with an end of file: what comes out is a prefix of
    what went in, and the end comes out only when it went in and all bytes before
    it are out. *)
Theorem tunnel_refines_pipes {CJ : ControlJson} quote sid cid loc l t0 t :
  0 ≤ cid < 2 ^ 31 → (∀ v r : ClientConnReq, json_unmarshal (json_marshal v) = Some r → cc_ConnID r = cc_ConnID v) →
  fresh_tunnel cid loc l t0 → rtc (tstep quote sid cid loc l) t0 t →
  (rtc pipe_step (mkPipe [] false [] false) (down_pipe l t) ∧ pipe_ok (down_pipe l t)) ∧
  (rtc pipe_step (mkPipe [] false [] false) (up_pipe t) ∧ pipe_ok (up_pipe t)).
Proof.
  intros Hcid Hj Hf Hr. destruct (fresh_tunnel_inv cid loc l t0 Hf) as (Hi & Ed & Eu).
  destruct (tunnel_steps quote sid cid loc l Hcid Hj t0 t Hi Hr) as (Hi' & Hd & Hu). rewrite Ed in Hd. rewrite Eu in Hu.
  destruct (tn_inv_pipes cid loc l t Hi') as [? ?]. done.
Qed.



(** Any client can write into another client's connections. The server's
    read loop does not check that the connection a data frame names belongs to the
    session it came from: a frame of any connected session, with the number of a
    connection that another client serves, is queued for the external user of that
    connection like the client's own data. *)
Theorem foreign_data_injected {CJ : ControlJson} quote pick now sv sid cid p info feed loc e :
  clients sv !! sid = Some info → feeds sv !! sid = Some feed → h_conns feed !! cid = None →
  conns (hub sv) !! cid = Some loc → hub_entry (hub sv) loc = Some e → ce_Client e ≠ sid →
  ce_Done e = false → (length (ce_Sink e) < downlinkQueue)%nat →
  ∃ sv' e', handle quote pick now sv sid (mkMessage MsgData x00 cid p) = Some (sv', []) ∧
    hub_entry (hub sv') loc = Some e' ∧ ce_Sink e' = ce_Sink e ++ [p].
Proof.
  intros Hc Hf Hn Hm He _ Hd Hroom. unfold handle. rewrite Hc, Hf. simpl. unfold Feed, hub_get. simpl. rewrite Hn.
  unfold dispatch. simpl. unfold Downlink. rewrite Hm. simpl. rewrite He. simpl. rewrite bool_decide_true by done. rewrite Hd. simpl.
  eexists _, _. split; [done|]. simpl. rewrite hub_entry_upd, decide_True by done. unfold count_out. rewrite He.
  unfold hub_entry in *. simpl. rewrite He. simpl. done.
Qed.

(** * A concrete tunnel *)

Definition demo_cid : Z := 1.
Definition demo_entry : StreamEntry := default (mkStreamEntry 0 "" "" 0 0 0 0) (Get (Streams (hub demo_sv3)) 1).
Definition demo_ack : Message := control_message MsgConnOpenAck (mkConnOpenAck demo_cid true "").
Definition demo_h1 : CtrlHub := (OpenConn_begin (hub demo_sv3) 0 demo_entry 0).1.1.
Definition demo_request_frame : Message := (OpenConn_begin (hub demo_sv3) 0 demo_entry 0).2.2.
Definition demo_server : CtrlProxyServer :=
  match handle id false 0 (with_hub demo_sv3 demo_h1) 1 demo_ack with Some (sv, _) => sv | None => demo_sv3 end.
Definition demo_tunnel : tunnel :=
  mkTunnel (start_conn (hub demo_server) 0 demo_cid true) demo_server (handleConnOpen id demo_dialed demo_request_frame (Ok tt))
    [] [] ([], false) ([], false).

Lemma demo_openable : openable demo_sv3 1 demo_entry demo_dialed demo_cid.
Proof.
  split.
  - split; [reflexivity|reflexivity].
  - apply demo_sv3_inv.
  - split_and!; [reflexivity|vm_compute; eexists; reflexivity|vm_compute; eexists; reflexivity].
  - intros sid feed Hf. assert (map_Forall (λ _ f, h_conns f !! demo_cid = None) (feeds demo_sv3)) as H.
    { apply (bool_decide_unpack _). vm_compute. exact I. }
    exact (H sid feed Hf).
  - destruct (dialed_client_inv _ demo_dialed_client) as [Hc _]. split; [exact Hc|]. vm_compute. by split_and!.
  - vm_compute. eexists. reflexivity.
  - split_and!; [|vm_compute; reflexivity|vm_compute; reflexivity]. vm_compute. apply not_elem_of_nil.
  - split; apply text_sendable; vm_compute; discriminate.
Qed.


(** Two bytes go out to the local service and one comes back, then both sides end. *)
Definition demo_history : list tevent :=
  [TExt (EvRead [x61; x62] true); TClientRecv false (Ok tt); TClient CEnqueue; TClient (CPump 0 true);
   TClient (CUpStart 0); TClient (CUpRead 0 [x63]); TServerRecv false 0; TServerRecv false 0; TExt (EvSink true)].

Definition demo_ending : list tevent :=
  [TExt EvEOF; TClientRecv false (Ok tt); TClient CEnqueue; TClient (CPump 0 true); TClient (CUpEOF 0);
   TServerRecv false 0; TExt EvRemoteClosed; TExt EvTick; TExt EvTick].

Definition demo_after (evs : list tevent) : tunnel := default demo_tunnel (trun id 1 0 demo_tunnel evs).

Lemma demo_fresh : fresh_tunnel demo_cid 0 0 demo_tunnel.
Proof.
  pose proof (opening_fresh id false 0 0 demo_sv3 1 0 demo_entry demo_dialed demo_cid true demo_openable) as H.
  unfold demo_tunnel, demo_server, demo_h1, demo_request_frame.
  assert ((OpenConn_begin (hub demo_sv3) 0 demo_entry 0).1.2 = 0%nat) as Hl by (vm_compute; reflexivity).
  assert (length (c_heap demo_dialed) = 0%nat) as Hh by (vm_compute; reflexivity). rewrite Hh in H.
  destruct (OpenConn_begin (hub demo_sv3) 0 demo_entry 0) as [[h1 loc] [dst m]].
  cbn [fst snd] in Hl. subst loc. cbn [fst snd]. destruct H as (_ & _ & sv' & E & _ & Hf).
  unfold demo_ack. rewrite E. exact Hf.
Qed.

Lemma demo_steps evs : trun id 1 0 demo_tunnel evs = Some (demo_after evs) →
  rtc (tstep id 1 demo_cid 0 0) demo_tunnel (demo_after evs).
Proof. apply trun_steps. Qed.

Lemma text_number (v r : ClientConnReq) : json_unmarshal (json_marshal v) = Some r → cc_ConnID r = cc_ConnID v.
Proof. intros H. pose proof (@json_roundtrip _ _ ClientConnReq_text_laws v I) as Hr.
  assert (Some r = Some v) as [= ->] by exact (eq_trans (eq_sym H) Hr). done. Qed.

Lemma tunnel_refines_pipes_witness :
  let t := demo_after (demo_history ++ demo_ending) in
  down_pipe 0 t = mkPipe [x61; x62] true [x61; x62] true ∧ up_pipe t = mkPipe [x63] true [x63] true ∧
  rtc pipe_step (mkPipe [] false [] false) (down_pipe 0 t) ∧ rtc pipe_step (mkPipe [] false [] false) (up_pipe t).
Proof.
  intros t. assert (trun id 1 0 demo_tunnel (demo_history ++ demo_ending) = Some t) as Hr by (vm_compute; reflexivity).
  split; [vm_compute; reflexivity|]. split; [vm_compute; reflexivity|].
  destruct (tunnel_refines_pipes id 1 demo_cid 0 0 demo_tunnel t) as [[H1 _] [H2 _]].
  - split; [discriminate|reflexivity].
  - apply text_number.
  - apply demo_fresh.
  - apply demo_steps, Hr.
  - split; [exact H1|exact H2].
Defined.


Lemma foreign_data_injected_witness :
  ∃ sv' e', handle id false 0 demo_server 2 (mkMessage MsgData x00 demo_cid [x21]) = Some (sv', []) ∧
    hub_entry (hub sv') 0 = Some e' ∧ ce_Sink e' = [[x21]].
Proof.
  destruct (clients demo_server !! 2%nat) as [info|] eqn:Hc; [|vm_compute in Hc; discriminate].
  destruct (feeds demo_server !! 2%nat) as [feed|] eqn:Hf; [|vm_compute in Hf; discriminate].
  destruct (hub_entry (hub demo_server) 0) as [e|] eqn:He; [|vm_compute in He; discriminate].
  assert (ce_Sink e = [] ∧ ce_Client e = 1%nat ∧ ce_Done e = false) as (Hs & Hcl & Hd)
    by (vm_compute in He; injection He as <-; vm_compute; by split_and!).
  destruct (foreign_data_injected id false 0 demo_server 2 demo_cid [x21] info feed 0 e Hc Hf) as (sv' & e' & H1 & H2 & H3).
  - vm_compute in Hf. injection Hf as <-. reflexivity.
  - vm_compute. reflexivity.
  - exact He.
  - rewrite Hcl. discriminate.
  - exact Hd.
  - rewrite Hs. unfold downlinkQueue. simpl. lia.
  - exists sv', e'. rewrite Hs in H3. split; [exact H1|split; [exact H2|exact H3]].
Defined.
