(* ===== verification/Custom.v ===== *)
(** The custom server: its protocol server (protocol/custom), its plugins
    (internal/custom/plugin), and its server type (internal/custom/customserver)
    as an instance of the framework of [Pluginer]. Sockets and files are those of
    [StarRun.Os]. *)
From S2P Require Import Prelude Pluginer Config StarRun Frame.
From Stdlib Require Import ZArith Lia.

(** * The protocol server *)

Record Msg := mkMsg { Header : string; Body : list byte }.

(** [response]: the sender of a datagram and the socket it came from, or a
    connection; the sockets by whether they are set. *)
Record response := mkResponse { pcSession : string; r_udp : option string; r_tcp : option string }.

(** [LocalAddr]; the sockets are given by their own addresses. *)
Definition LocalAddr (w : response) : outcome string :=
  match r_udp w, r_tcp w with
  | Some a, _ => Ret a
  | None, Some a => Ret a
  | None, None => Panic
  end.

(** A datagram on its way out: to whom, and what. *)
Definition datagram : Type := string * list byte.

Definition echo : list byte := String.list_byte_of_string "echo".

Section server.
(** [Handler.ServeCustom]: what it prints, or its panic. *)
Variable Handler : response → Msg → outcome (list string).

(** [serveCustom]: the answer goes to [w.udp] first; there is none for a
    connection, where the call is one on a nil interface. *)
Definition serveCustom (m : list byte) (w : response) : outcome (list datagram * list string) :=
  let req := mkMsg "" m in
  match r_udp w with
  | None => Panic
  | Some _ => printed ← Handler w req; Ret ([(pcSession w, echo)], printed)
  end.

Definition buffer_size : nat := 1024.

(** [serveTCPConn]: every turn makes a new [bufio.Reader], so what the last one
    had buffered beyond the message is gone. Returns the messages served. *)
Fixpoint serveTCPConn (fuel : nat) (local : string) (segs : list (list byte)) : outcome (list (list byte)) :=
  match fuel with
  | O => Hang
  | S fuel =>
      match rd_Read buffer_size (mkReader [] segs) with
      | (_, None) => Ret []
      | (rd, Some data) =>
          _ ← serveCustom data (mkResponse "" None (Some local));
          ms ← serveTCPConn fuel local (rd_segs rd);
          Ret (data :: ms)
      end
  end.

(** [serveTCP] over the results of [Accept]. *)
Fixpoint serveTCP {C} (accepts : list (result string C)) : list C * option string :=
  match accepts with
  | [] => ([], None)
  | Err e :: _ => ([], Some e)
  | Ok c :: accepts => let '(cs, e) := serveTCP accepts in (c :: cs, e)
  end.

(** [serveUDPPacket]: what the goroutine of a datagram does; an error is printed. *)
Definition serveUDPPacket (local : string) (r : result string (list byte * string))
    : option (outcome (list datagram * list string)) :=
  match r with
  | Err _ => None
  | Ok (data, addr) => Some (serveCustom (take buffer_size data) (mkResponse addr (Some local) None))
  end.

(** [serveUDP] over the successive reads: the goroutines of the first [fuel] of
    them, and the error it returns. *)
Fixpoint serveUDP (fuel : nat) (local : string) (reads : nat → result string (list byte * string))
    : list (outcome (list datagram * list string)) * option string :=
  match fuel with
  | O => ([], None)
  | S fuel =>
      let g := serveUDPPacket local (reads 0%nat) in
      let '(gs, ret) := serveUDP fuel local (λ i, reads (S i)) in
      (match g with Some g => g :: gs | None => gs end, ret)
  end.

(** [ActivateAndServe]: the packet socket if there is one, and when that is done the
    listener. The last component is what it returns, [None] while it serves. *)
Definition ActivateAndServe {C} (fuel : nat) (local : string)
    (PacketConn : option (nat → result string (list byte * string))) (Listener : option (list (result string C)))
    : list (outcome (list datagram * list string)) * list C * option (option string) :=
  let listener := match Listener with
                  | Some accepts => let '(cs, e) := serveTCP accepts in (cs, Some <$> e)
                  | None => ([], Some None)
                  end in
  match PacketConn with
  | Some reads =>
      match serveUDP fuel local reads with
      | (gs, None) => (gs, [], None)
      | (gs, Some _) => (gs, listener.1, listener.2)
      end
  | None => ([], listener.1, listener.2)
  end.
End server.

(** What [ListenAndServe] ends up serving. *)
Inductive serving := ServingTCP (k : nat) | ServingUDP (k : nat).

Definition tcp_net (n : string) : bool := existsb (String.eqb n) ["tcp"%string; "tcp4"%string; "tcp6"%string].
Definition udp_net (n : string) : bool := existsb (String.eqb n) ["udp"%string; "udp4"%string; "udp6"%string].

Definition ListenAndServe {W} `{!Os W} (Net Addr : string) (w : W) : W * result string serving :=
  if tcp_net Net then let '(w, r) := os_listen Net Addr (""%string, ""%string) w in (w, ServingTCP <$> r)
  else if udp_net Net then let '(w, r) := os_listen_udp Addr w in (w, ServingUDP <$> r)
  else (w, Err "bad network"%string).

(** [star.Server] (protocol/star/server.go) has the same method, line by line; what
    it serves is [Frame]. *)
Definition star_ListenAndServe {W} `{!Os W} (Net Addr : string) (w : W) : W * result string serving :=
  if tcp_net Net then let '(w, r) := os_listen Net Addr (""%string, ""%string) w in (w, ServingTCP <$> r)
  else if udp_net Net then let '(w, r) := os_listen_udp Addr w in (w, ServingUDP <$> r)
  else (w, Err "bad network"%string).

(** * The plugins *)

Inductive handler := HPrinter (next : option handler) | HWriter (next : option handler).

Definition handler_Name (h : handler) : string := match h with HPrinter _ => "printer" | HWriter _ => "writer" end.
Definition handler_Next (h : handler) : option handler := match h with HPrinter n | HWriter n => n end.

(** Both plugins print the same line and do not call the next one. *)
Definition handler_ServeCustom (h : handler) (m : Msg) : outcome (list string) := Ret ["custom printer"%string].

Definition plugin : Type := option handler → handler.

(** * Configuration *)

Record Host := mkHost { ho_Key : string; ho_Network : string; ho_Address : string; ho_Plugin : list string }.
Record Service := mkService { sv_Name : string; sv_Protocol : string; sv_Host : list Host }.

(** The parts of [Config]: the services that were read, and what the plugins fill
    for one zone. *)
Record zone := mkZone { z_Plugin : list plugin; z_Registry : gmap string handler }.
Definition empty_zone : zone := mkZone [] ∅.

Definition AddPlugin (m : plugin) (z : zone) : zone := mkZone (z_Plugin z ++ [m]) (z_Registry z).
Definition RegisterHandler (h : handler) (z : zone) : zone :=
  mkZone (z_Plugin z) (<[handler_Name h := h]> (z_Registry z)).
Definition Handler (name : string) (z : zone) : option handler := z_Registry z !! name.
Definition Directives : list string := ["printer"%string; "writer"%string].
Definition Handlers (z : zone) : list handler := omap (λ k, Handler k z) Directives.

Definition keyForConfig (blocIndex blocKeyIndex : string) : string := blocIndex +:+ "://" +:+ blocKeyIndex.

Record customContext := mkCustomContext { Configs : list Service; ZoneToConfigs : gmap string zone }.

(** [GetConfig(c)], followed by an update of what it returns. *)
Definition with_zone (c : Controller) (f : zone → zone) (ctx : customContext) : customContext :=
  let key := keyForConfig (ServerBlockNetwork c) (ServerBlockAddress c) in
  mkCustomContext (Configs ctx) (<[key := f (default empty_zone (ZoneToConfigs ctx !! key))]> (ZoneToConfigs ctx)).

(** [GetConfig] of the configuration and of the context. *)
Definition host_config (h : Host) : Pluginer.Host := Pluginer.mkHost (ho_Network h) (ho_Address h) (ho_Plugin h).
Definition custom_GetConfig (ctx : customContext) : Pluginer.Config :=
  Pluginer.mkConfig ((λ s, Pluginer.mkService (sv_Name s) (sv_Protocol s) (host_config <$> sv_Host s)) <$> Configs ctx).

(** * Servers *)

Record Server := mkServer {
  srv_Key : string; srv_Addr : string; srv_Net : string; srv_Service : string; srv_PluginChain : option handler }.

Definition plugin_chain (ps : list plugin) : option handler := foldr (λ p next, Some (p next)) None ps.

(** Without a zone the server is nil, and so is the error. *)
Definition NewServer (serviceName : string) (host : Host) (config : option zone) : option Server :=
  (λ z, mkServer (ho_Key host) (ho_Address host) (ho_Network host) serviceName (plugin_chain (z_Plugin z))) <$> config.

(** The handler [Serve] and [ServePacket] give to the protocol server. *)
Definition server_ServeCustom (s : Server) (w : response) (m : Msg) : outcome (list string) :=
  match srv_PluginChain s with
  | None => Panic
  | Some h => printed ← handler_ServeCustom h m; Ret (("handle: " +:+ handler_Name h) :: printed)
  end.

(** The two goroutines of a server share the field [server] as those of the chain
    server do; [l] and [p] are its sockets. *)
Definition Serve_step (l p : option nat) : sstate → which → option sstate := serve_step l p.

Definition serverType : string := "custom".

Definition makeServersForGroup (zones : gmap string zone) (srvList : list Service) : list (option Server) :=
  concat ((λ srv,
    if negb (String.eqb (sv_Protocol srv) serverType) then []
    else omap (λ host,
      if String.eqb (ho_Network host) "tcp" || String.eqb (ho_Network host) "udp"
      then Some (NewServer (sv_Name srv) host (zones !! keyForConfig (ho_Network host) (ho_Address host)))
      else None) (sv_Host srv)) <$> srvList).

Section custom.
Context {W : Type} `{!Os W}.
(** The YAML decoding of the file. *)
Context (unmarshal : list byte → option (list Service)).

(** The methods of a nil [*Server] read its fields. *)
Definition custom_Listen (s : option Server) (w : W) : outcome (W * result string (option nat)) :=
  match s with
  | None => Panic
  | Some s => if negb (String.eqb (srv_Net s) "tcp") then no_socket w
              else listened (os_listen "tcp" (srv_Addr s) (""%string, ""%string) w)
  end.

Definition custom_ListenPacket (s : option Server) (w : W) : outcome (W * result string (option nat)) :=
  match s with
  | None => Panic
  | Some s => if negb (String.eqb (srv_Net s) "udp") then no_socket w else listened (os_listen_udp (srv_Addr s) w)
  end.

Definition custom_MakeServers (ctx : customContext) (w : W) : outcome (W * result string (list (option Server))) :=
  match Configs ctx with
  | [] => Ret (w, Err "service is empty"%string)
  | cfg => Ret (w, Ok (makeServersForGroup (ZoneToConfigs ctx) cfg))
  end.

(** A packet socket is served for ever. *)
Definition custom_serve_ends (s : option Server) (ln pc : option nat) : bool := bool_decide (pc = None).

#[export] Instance custom_components : Components W customContext (option Server) nat Empty_set := {
  Pluginer.GetConfig := custom_GetConfig;
  Pluginer.MakeServers := custom_MakeServers;
  Pluginer.Listen := custom_Listen;
  Pluginer.ListenPacket := custom_ListenPacket;
  Pluginer.Close := os_close;
  Pluginer.serve_ends := custom_serve_ends;
  Pluginer.call fn w := match fn with end;
}.

Definition custom_registry_t : Type := Registry W customContext (option Server) nat Empty_set.
Definition custom_setup : Type := @SetupFunc W customContext Empty_set.

Definition newDefaultInput : Input := mkInput "etc/custom.yaml" (String.list_byte_of_string "default") serverType.

(** The context always comes from the default file. *)
Definition newContext (i : Instance customContext (option Server) nat Empty_set) (w : W) : outcome (customContext * W) :=
  match os_ReadFile (Filepath newDefaultInput) w with
  | Err _ => Panic
  | Ok data => match unmarshal data with None => Panic | Some cfg => Ret (mkCustomContext cfg ∅, w) end
  end.

Definition newDirectives : list string := ["test1"%string].
Definition custom_type : ServerTypeDef := mkServerType newDirectives newDefaultInput newContext.

Definition add_handler (p : plugin) : custom_setup := λ c '(h, ctx, w),
  Ret (h, with_zone c (AddPlugin p) ctx, w, None).
Definition printer_setup : custom_setup := add_handler HPrinter.
Definition writer_setup : custom_setup := add_handler HWriter.

Definition Register (name : string) (action : custom_setup) (r : custom_registry_t) : outcome custom_registry_t :=
  RegisterPlugin name (mkPlugin serverType action) r.

(** The packages zplugin imports. *)
Definition zdirector : outcome custom_registry_t :=
  r ← RegisterServerType serverType custom_type (mkRegistry ∅ ∅);
  r ← Register "printer" printer_setup r;
  Register "writer" writer_setup r.

Definition custom_registry : custom_registry_t := match zdirector with Ret r => r | _ => mkRegistry ∅ ∅ end.

(** [Run] up to its wait: panics when the start fails, and returns the instance it
    waits for. *)
Definition Run_input : Input := mkInput "etc/custom.yaml" (String.list_byte_of_string "custom") serverType.

Definition Run (p : Proc W customContext (option Server) nat Empty_set)
    : outcome (Proc W customContext (option Server) nat Empty_set * nat) :=
  '(p, i, err) ← Start custom_registry Run_input p;
  match err, i with
  | None, Some i => Ret (p, i)
  | _, _ => Panic
  end.
End custom.

(** * What the binary registers *)

Definition plugin_of (name : string) : option plugin :=
  if String.eqb name "printer" then Some HPrinter else if String.eqb name "writer" then Some HWriter else None.

Section laws.
Context {W : Type} `{!Os W}.
Context (unmarshal : list byte → option (list Service)).

Lemma zdirector_registry : zdirector (W := W) unmarshal = Ret (custom_registry unmarshal).
Proof. reflexivity. Qed.

Lemma custom_plugins st dir :
  DirectiveAction (custom_registry (W := W) unmarshal) st dir =
  match (if String.eqb st serverType then plugin_of dir else None) with
  | Some p => Ok (add_handler p)
  | None => Err ("no action found for directive '" +:+ dir +:+ "' with server type '" +:+ st +:+ "' (missing a plugin?)")
  end.
Proof.
  unfold DirectiveAction. change (Plugins (custom_registry (W := W) unmarshal)) with
    (<["custom":=<["writer":=mkPlugin (W := W) "custom" writer_setup]>
      (<["printer":=mkPlugin "custom" printer_setup]> ∅)]> ∅ : gmap string (gmap string (Plugin W customContext Empty_set)))%string.
  rewrite (lookup_insert_ne _ "custom" "")%string by done. rewrite lookup_empty. simpl.
  destruct (String.eqb_spec st serverType) as [->|Hst].
  2:{ rewrite lookup_insert_ne by done. by rewrite lookup_empty. }
  rewrite lookup_insert_eq. simpl. unfold plugin_of.
  destruct (String.eqb_spec dir "printer") as [->|?].
  { rewrite lookup_insert_ne by done. by rewrite lookup_insert_eq. }
  destruct (String.eqb_spec dir "writer") as [->|?]; [by rewrite lookup_insert_eq|].
  rewrite !lookup_insert_ne by done. by rewrite lookup_empty.
Qed.

Lemma custom_type_only name st :
  serverTypes (custom_registry (W := W) unmarshal) !! name = Some st → name = serverType ∧ st = custom_type unmarshal.
Proof.
  change (serverTypes (custom_registry (W := W) unmarshal)) with
    (<["custom":=custom_type unmarshal]> ∅ : gmap string (ServerTypeDef (W := W) (Sock := nat)))%string.
  intros [[<- <-]|[_ ?]]%lookup_insert_Some; [done|by rewrite lookup_empty in *].
Qed.

(** ** Sockets *)

Context (open : W → gset nat) `{!OsLaws open}.

(** The custom servers are servers of the framework like the others: what it
    proves of the sockets of an instance holds of them. *)
Lemma custom_laws : SocketLaws open.
Proof.
  split.
  - intros [s|] w w' r; [|done]. simpl. case_match; [by apply no_socket_open|]. unfold listened.
    intros [= <- <-]. apply os_listen_open.
  - intros [s|] w w' r; [|done]. simpl. case_match; [by apply no_socket_open|]. unfold listened.
    intros [= <- <-]. apply os_listen_udp_open.
  - apply os_close_open.
  - intros ctx w w' r. simpl. unfold custom_MakeServers. case_match; by intros [= <- <-].
  - intros [].
Qed.

Lemma custom_quiet : quiet open (custom_registry unmarshal).
Proof.
  split.
  - intros name st inst w ctx w' [-> ->]%custom_type_only. simpl. unfold newContext.
    repeat case_match; try done. by intros [= <- <-].
  - intros st dir f c h ctx w h' ctx' w' e. rewrite custom_plugins. case_match; [|done]. intros [= <-]. simpl.
    by intros [= _ _ <- _].
Qed.
End laws.

(** * From the configuration to the servers *)

Definition block_key (h : Pluginer.Host) : string := keyForConfig (Network h) (Address h).

(** The plugins that the directives [ds] put into the zone [key], in order. *)
Definition zone_plugins (key : string) (ds : list (Pluginer.Host * string)) : list plugin :=
  omap (λ hd, if String.eqb (block_key hd.1) key then plugin_of hd.2 else None) ds.

Definition cfg_directives (cfg : list Service) : list (Pluginer.Host * string) :=
  directives serverType (custom_GetConfig (mkCustomContext cfg ∅)).

(** The servers that a configuration calls for. *)
Definition host_server (cfg : list Service) (name : string) (host : Host) : option Server :=
  match zone_plugins (keyForConfig (ho_Network host) (ho_Address host)) (cfg_directives cfg) with
  | [] => None
  | ps => Some (mkServer (ho_Key host) (ho_Address host) (ho_Network host) name (plugin_chain ps))
  end.

Definition cfg_servers (cfg : list Service) : list (option Server) :=
  concat ((λ srv,
    if negb (String.eqb (sv_Protocol srv) serverType) then []
    else omap (λ host,
      if String.eqb (ho_Network host) "tcp" || String.eqb (ho_Network host) "udp"
      then Some (host_server cfg (sv_Name srv) host) else None) (sv_Host srv)) <$> cfg).

Section servers.
Context {W : Type} `{!Os W}.
Context (unmarshal : list byte → option (list Service)).

(** What a zone holds; no zone is like an empty one. *)
Definition zone_of (zs : gmap string zone) (key : string) : list plugin := default [] (z_Plugin <$> zs !! key).

Lemma run_directive_known host d p h cfg zs (w : W) :
  plugin_of d = Some p →
  run_directive (custom_registry unmarshal) serverType host d (h, mkCustomContext cfg zs, w) =
    Ret (h, mkCustomContext cfg (<[block_key host := AddPlugin p (default empty_zone (zs !! block_key host))]> zs), w, None).
Proof. intros Hp. unfold run_directive. rewrite custom_plugins. simpl. by rewrite Hp. Qed.

Lemma set_up_zones (ds : list (Pluginer.Host * string)) h cfg zs (w : W) :
  Forall (λ hd, is_Some (plugin_of hd.2)) ds → (∀ key z, zs !! key = Some z → z_Plugin z ≠ []) →
  ∃ zs', each (λ hd, run_directive (custom_registry unmarshal) serverType hd.1 hd.2) ds (h, mkCustomContext cfg zs, w)
      = Ret (h, mkCustomContext cfg zs', w, None) ∧
    (∀ key z, zs' !! key = Some z → z_Plugin z ≠ []) ∧
    ∀ key, zone_of zs' key = zone_of zs key ++ zone_plugins key ds.
Proof.
  intros Hds. revert zs. induction Hds as [|[host d] ds [p Hp] _ IH]; intros zs Hne; cbn [each].
  { exists zs. split_and!; [done..|]. intros key. by rewrite app_nil_r. }
  cbn [fst snd] in *. rewrite (run_directive_known host d p h cfg zs w Hp). cbn [mbind outcome_bind].
  set (zs1 := <[block_key host := _]> zs).
  assert (∀ key, zone_of zs1 key = zone_of zs key ++ (if String.eqb (block_key host) key then [p] else [])) as H1.
  { intros key. unfold zone_of, zs1. destruct (String.eqb_spec (block_key host) key) as [<-|Hk].
    - rewrite lookup_insert_eq. simpl. by destruct (zs !! block_key host).
    - by rewrite lookup_insert_ne, app_nil_r by done. }
  destruct (IH zs1) as (zs' & He & Hn' & Hz).
  { intros key z [[<- <-]|[_ Hz]]%lookup_insert_Some; [simpl; by destruct (z_Plugin _)|by eapply Hne]. }
  exists zs'. split_and!; [exact He|exact Hn'|]. intros key. rewrite Hz, H1. unfold zone_plugins. cbn [omap list_omap fst snd].
  rewrite Hp. destruct (String.eqb _ _); [by rewrite <- app_assoc|by rewrite app_nil_r].
Qed.

(** From the configuration to the servers: when every plugin of the custom
    services is the printer or the writer, the set-up succeeds and the servers are
    exactly the tcp and udp hosts of the custom services, in order. Each has the
    chain of all the plugins listed for its network and address, wherever they are
    listed; a host for which none is listed makes a nil server. Without a service
    there is an error, and no server. *)
Theorem custom_servers h cfg (w : W) :
  Forall (λ hd, is_Some (plugin_of hd.2)) (cfg_directives cfg) →
  ∃ zs, executeDirectives (custom_registry unmarshal) serverType (h, mkCustomContext cfg ∅, w)
      = Ret (h, mkCustomContext cfg zs, w, None) ∧
    custom_MakeServers (mkCustomContext cfg zs) w
      = Ret (w, match cfg with [] => Err "service is empty"%string | _ => Ok (cfg_servers cfg) end).
Proof.
  intros Hds. destruct (set_up_zones (cfg_directives cfg) h cfg ∅ w Hds) as (zs & He & Hne & Hz).
  { intros key z. by rewrite lookup_empty. }
  exists zs. split; [by rewrite executeDirectives_each|].
  assert (∀ name host, NewServer name host (zs !! keyForConfig (ho_Network host) (ho_Address host)) = host_server cfg name host) as HS.
  { intros name host. unfold NewServer, host_server.
    specialize (Hz (keyForConfig (ho_Network host) (ho_Address host))). unfold zone_of at 2 in Hz. rewrite lookup_empty in Hz. simpl in Hz.
    unfold zone_of in Hz. destruct (zs !! _) as [z|] eqn:Ez; simpl in Hz; rewrite <- Hz; [|done].
    pose proof (Hne _ _ Ez). simpl. by destruct (z_Plugin z). }
  assert (makeServersForGroup zs cfg = cfg_servers cfg) as Hm.
  { unfold makeServersForGroup, cfg_servers. f_equal. apply list_fmap_ext. intros _ srv _. case_match; [done|].
    induction (sv_Host srv) as [|host hs IHh]; [done|]. cbn [omap list_omap]. by rewrite HS, IHh. }
  unfold custom_MakeServers. cbn [Configs ZoneToConfigs]. rewrite <- Hm. by destruct cfg.
Qed.

(** A host without plugins stops the process: its nil server is listened on,
    whatever comes after it. *)
Theorem unplugged_host_crashes srvs sls (w : W) :
  listen_all (Srv := option Server) (None :: srvs) sls w = Panic.
Proof. reflexivity. Qed.
End servers.

(** * What the servers answer *)

(** The first bytes on any connection stop the process: the answer is written
    to the packet socket, which a connection does not have. *)
Theorem tcp_message_crashes h fuel local seg segs : serveTCPConn h (S fuel) local (seg :: segs) = Panic.
Proof. cbn [serveTCPConn]. unfold rd_Read. simpl. done. Qed.

Definition received (r : result string (list byte * string)) : option (list byte * string) :=
  match r with Ok x => Some x | Err _ => None end.

(** The two servers listen alike; an unknown network opens no socket. *)
Lemma star_listens_alike {W} `{!Os W} Net Addr (w : W) : star_ListenAndServe Net Addr w = ListenAndServe Net Addr w.
Proof. done. Qed.

Lemma unknown_network {W} `{!Os W} Net Addr (w : W) :
  tcp_net Net = false → udp_net Net = false → ListenAndServe Net Addr w = (w, Err "bad network"%string).
Proof. unfold ListenAndServe. by intros -> ->. Qed.

(** Every datagram is answered with "echo", to its sender, whatever it holds,
    before its handler runs; the handler gets its first 1024 bytes; the loop never
    returns. *)
Theorem udp_echoes h fuel local reads :
  (∀ w m, ∃ printed, h w m = Ret printed) →
  (serveUDP h fuel local reads).2 = None ∧
  Forall2 (λ r g, ∃ printed, g = Ret ([(r.2, echo)], printed) ∧
      h (mkResponse r.2 (Some local) None) (mkMsg "" (take buffer_size r.1)) = Ret printed)
    (omap received (reads <$> seq 0 fuel)) (serveUDP h fuel local reads).1.
Proof.
  intros Hh. revert reads. induction fuel as [|fuel IH]; intros reads; [by split|].
  destruct (IH (λ i, reads (S i))) as [Hr Hg]. cbn [serveUDP seq]. destruct (serveUDP h fuel local _) as [gs ret].
  cbn [fst snd] in *. split; [done|]. rewrite <- fmap_S_seq. rewrite fmap_cons, <- list_fmap_compose.
  change (omap received ((reads ∘ S) <$> seq 0 fuel)) with (omap received ((λ i, reads (S i)) <$> seq 0 fuel)).
  cbn [omap list_omap]. unfold serveUDPPacket.
  destruct (reads 0%nat) as [[data addr]|e]; [|exact Hg]. constructor; [|exact Hg].
  unfold serveCustom. cbn [r_udp]. destruct (Hh (mkResponse addr (Some local) None) (mkMsg "" (take buffer_size data))) as [printed Hp].
  exists printed. cbn [fst snd]. rewrite Hp. done.
Qed.

Lemma serve_packets_forever h fuel local reads : (serveUDP h fuel local reads).2 = None.
Proof.
  revert reads. induction fuel as [|fuel IH]; intros reads; [done|]. cbn [serveUDP].
  specialize (IH (λ i, reads (S i))). by destruct (serveUDP h fuel local _).
Qed.

(** A server with both sockets serves its packet socket only: nothing is accepted
    from the listener, however long it runs and whatever the reads return. *)
Theorem packet_socket_only {C} h fuel local reads (ln : option (list (result string C))) :
  ActivateAndServe h fuel local (Some reads) ln = ((serveUDP h fuel local reads).1, [], None).
Proof.
  unfold ActivateAndServe. pose proof (serve_packets_forever h fuel local reads) as H.
  destruct (serveUDP h fuel local reads) as [gs ret]. by simpl in H; subst.
Qed.

(** With a listener alone it returns the error that ends [Accept], after a goroutine
    for every connection before it. *)
Theorem listener_only {C} h fuel local (conns : list C) e rest :
  ActivateAndServe h fuel local None (Some ((Ok <$> conns) ++ Err e :: rest)) = ([], conns, Some (Some e)).
Proof.
  unfold ActivateAndServe. assert (serveTCP ((Ok <$> conns) ++ Err e :: rest) = (conns, Some e)) as ->; [|done].
  induction conns as [|c conns IH]; [done|]. cbn [fmap list_fmap app serveTCP]. by rewrite IH.
Qed.

(** Only the first plugin of a chain runs: whatever comes after it, a message
    makes the server print the same two lines. *)
Theorem only_first_plugin key addr net name n p ps w m :
  plugin_of n = Some p →
  server_ServeCustom (mkServer key addr net name (plugin_chain (p :: ps))) w m = Ret ["handle: " +:+ n; "custom printer"%string].
Proof.
  unfold plugin_of. destruct (String.eqb_spec n "printer") as [->|_]; [by intros [= <-]|].
  destruct (String.eqb_spec n "writer") as [->|_]; [by intros [= <-]|done].
Qed.

(** * The sample configuration *)

Definition demo_cfg : list Service :=
  [mkService "test-1" "custom"
     [mkHost "node-1" "tcp" "0.0.0.0:8080" ["printer"; "writer"]%string; mkHost "node-2" "udp" "0.0.0.0:8081" ["printer"; "writer"]%string]].

Definition demo_chain : option handler := Some (HPrinter (Some (HWriter None))).

Lemma custom_servers_witness :
  cfg_servers demo_cfg =
    [Some (mkServer "node-1" "0.0.0.0:8080" "tcp" "test-1" demo_chain);
     Some (mkServer "node-2" "0.0.0.0:8081" "udp" "test-1" demo_chain)] ∧
  ∃ zs, custom_MakeServers (mkCustomContext demo_cfg zs) tt = Ret (tt, Ok (cfg_servers demo_cfg)).
Proof.
  split; [vm_compute; reflexivity|].
  set (os := Build_Os unit (λ _ _, Ok []) (λ _ _ _ w, (w, Ok 1%nat)) (λ _ w, (w, Ok 2%nat)) (λ _ w, w)).
  destruct (@custom_servers unit os (λ _, Some demo_cfg) no_hooks demo_cfg tt) as (zs & _ & H).
  - unfold cfg_directives. vm_compute. repeat constructor; eexists; reflexivity.
  - exists zs. exact H.
Defined.

Lemma udp_echoes_witness :
  ∃ printed, (serveUDP (server_ServeCustom (mkServer "" "" "" "" demo_chain)) 1 "l" (λ _, Ok ([x61], "a"%string))).1
    = [Ret ([("a"%string, echo)], printed)].
Proof.
  destruct (udp_echoes (server_ServeCustom (mkServer "" "" "" "" demo_chain)) 1 "l" (λ _, Ok ([x61], "a"%string))) as [_ H].
  - intros w m. eexists. reflexivity.
  - apply Forall2_cons_1 in H as [(printed & Hg & _) _]. exists printed. exact (f_equal (λ g, [g]) Hg).
Defined.
