(* ===== verification/Facade.v ===== *)
(** The listeners and dials of the transports (internal/transport: tcp, tls, ws,
    h2, quic, kcp). A listener that carries several logical connections over one
    socket is a facade: goroutines accept from the socket, take requests or
    streams from what they accepted and offer them to the accept queue of
    [Transport.Listener]; a goroutine watches the context. Dials are functions of
    what the packages underneath answer. *)
From S2P Require Import Prelude Message Transport Sniff.
From S2P Require H2.
From Stdlib Require Import ZArith Lia.

(** * Listeners over the socket itself *)

(** tcp and tls hand out the socket's connections; [WatchClose] starts a goroutine
    only for a context that can be cancelled. *)
Record plain := mkPlain { pl_open : bool; pl_watched : bool; pl_cancelled : bool }.

Definition WatchClose (cancellable : bool) : plain := mkPlain true cancellable false.

Inductive plain_event := PlCancel | PlWatch | PlClose.

Definition plapply (l : plain) (ev : plain_event) : option plain :=
  match ev with
  | PlCancel => Some (mkPlain (pl_open l) (pl_watched l) true)
  | PlWatch => if pl_watched l && pl_cancelled l then Some (mkPlain false false true) else None
  | PlClose => Some (mkPlain false (pl_watched l) (pl_cancelled l))
  end.

(** [Listen] of tcp and tls: [listen] is what the operating system answers. *)
Definition tcp_Listen (listen : result string unit) (cancellable : bool) : result string plain :=
  match listen with Err e => Err e | Ok _ => Ok (WatchClose cancellable) end.

Inductive tls_listen_err := TlsNeedsCert | TlsListen (e : string).

Definition tls_Listen {cert : Type} (c : option cert) (listen : result string unit) (cancellable : bool)
    : result tls_listen_err plain :=
  match c with
  | None => Err TlsNeedsCert
  | Some _ => match listen with Err e => Err (TlsListen e) | Ok _ => Ok (WatchClose cancellable) end
  end.

(** * Facades *)

Inductive kind := KWs | KH2 | KQuic | KKcp.
#[export] Instance kind_eq_dec : EqDecision kind.
Proof. solve_decision. Defined.

(** What the goroutine of an accepted session does: it waits for a request or a
    stream, or, in quic and kcp, offers one itself and takes no other meanwhile; a
    session whose goroutine has returned, or whose connection was hijacked by a
    websocket, is not served any more. *)
Inductive session := SServing | SOffering (c : nat) | SEnded.
#[export] Instance session_eq_dec : EqDecision session.
Proof. solve_decision. Defined.

(** [f_path] is the path ws and h2 serve. [f_sock]: the socket is open (in quic, the
    package's listener); [f_serving]: its accept loop runs. [f_ctx]: the context was cancelled;
    [f_watched]: its goroutine has closed the listener. [f_guard]: the [sync.Once]
    of the guard, or of the listener, has run. [f_next] numbers the logical
    connections. *)
Record facade := mkFacade {
  f_kind : kind;
  f_path : string;
  f_sock : bool;
  f_serving : bool;
  f_sessions : list session;
  f_queue : Listener.listener;
  f_ctx : bool;
  f_watched : bool;
  f_guard : bool;
  f_next : nat;
  f_notfound : nat;
}.

Definition room (k : kind) : nat := match k with KKcp => 16 | _ => 0 end.

(** [Listen] of the facades, the socket being open. *)
Definition facade_Listen (k : kind) (path : string) : facade :=
  mkFacade k path true true [] (Listener.start (room k) 0) false false false 0 0.

Definition with_queue (q : Listener.listener) (f : facade) : facade :=
  mkFacade (f_kind f) (f_path f) (f_sock f) (f_serving f) (f_sessions f) q (f_ctx f) (f_watched f) (f_guard f) (f_next f) (f_notfound f).
Definition with_sessions (l : list session) (f : facade) : facade :=
  mkFacade (f_kind f) (f_path f) (f_sock f) (f_serving f) l (f_queue f) (f_ctx f) (f_watched f) (f_guard f) (f_next f) (f_notfound f).
Definition with_socket (sock serving : bool) (f : facade) : facade :=
  mkFacade (f_kind f) (f_path f) sock serving (f_sessions f) (f_queue f) (f_ctx f) (f_watched f) (f_guard f) (f_next f) (f_notfound f).
Definition with_flags (ctx watched guard : bool) (f : facade) : facade :=
  mkFacade (f_kind f) (f_path f) (f_sock f) (f_serving f) (f_sessions f) (f_queue f) ctx watched guard (f_next f) (f_notfound f).
Definition not_found (f : facade) : facade :=
  mkFacade (f_kind f) (f_path f) (f_sock f) (f_serving f) (f_sessions f) (f_queue f) (f_ctx f) (f_watched f) (f_guard f) (f_next f)
    (S (f_notfound f)).

(** A logical connection comes into being in the session [s], which [st] becomes. *)
Definition arrive (s : nat) (st : nat → session) (q : Listener.listener) (f : facade) : facade :=
  mkFacade (f_kind f) (f_path f) (f_sock f) (f_serving f) (<[s := st (f_next f)]> (f_sessions f)) q (f_ctx f) (f_watched f)
    (f_guard f) (S (f_next f)) (f_notfound f).

(** A goroutine enters the two-step [Close] of ws and h2. *)
Definition spawn_closer (q : Listener.listener) : Listener.listener :=
  Listener.mkListener (Listener.l_room q) (Listener.l_offers q) (Listener.l_conns q) (Listener.l_accepted q)
    (Listener.l_refused q) (Listener.l_done q) (Listener.l_closers q ++ [Listener.CTest]) (Listener.l_panic q).

(** A call of the facade's [Close]: in ws and h2 it only closes [done], in steps of
    the queue; in quic and kcp it closes [done] and the socket. *)
Definition close_facade (f : facade) : facade :=
  match f_kind f with
  | KWs | KH2 => with_queue (spawn_closer (f_queue f)) f
  | KQuic | KKcp => with_flags (f_ctx f) (f_watched f) true (with_socket false (f_serving f) (with_queue (Listener.set_done (f_queue f)) f))
  end.

Definition end_serving (x : session) : session := match x with SServing => SEnded | _ => x end.

(** The [Close] its user calls. The guard of ws closes the HTTP server, with the
    connections that were not hijacked, and the socket, that of h2 the socket, both once; the facade is closed after (in h2
    before as well, by the same goroutine). *)
Definition user_close (f : facade) : facade :=
  match f_kind f with
  | KWs => close_facade (with_flags (f_ctx f) (f_watched f) true
             (if f_guard f then f else with_socket false false (with_sessions (end_serving <$> f_sessions f) f)))
  | KH2 => close_facade (with_flags (f_ctx f) (f_watched f) true (if f_guard f then f else with_socket false (f_serving f) f))
  | _ => close_facade f
  end.

(** A session goroutine of quic or kcp goes on, or returns, when its offer is over. *)
Definition settle (c : nat) (st : session) (f : facade) : facade :=
  with_sessions ((λ x, if decide (x = SOffering c) then st else x) <$> f_sessions f) f.

Inductive fevent :=
  | FAccept                                (* the accept loop gets a session *)
  | FAcceptErr                             (* or an error, which ends it *)
  | FRequest (s : nat) (path : string) (ok : bool) (* a request (ws, h2) or a stream; [ok]: upgraded, or no error *)
  | FQueue (ev : Listener.levent)
  | FCancel
  | FWatch                                 (* the goroutine that watches the context *)
  | FClose.

Definition fapply (f : facade) (ev : fevent) : option facade :=
  match ev with
  | FAccept =>
      if f_sock f && f_serving f then Some (with_sessions (f_sessions f ++ [SServing]) f) else None
  | FAcceptErr =>
      if f_serving f then
        let f := with_socket (f_sock f) false f in
        Some (match f_kind f with KWs => f | _ => close_facade f end)
      else None
  | FRequest s path ok =>
      match f_sessions f !! s with
      | Some SServing =>
          let offer st := Some (arrive s st (Listener.upd (Listener.l_offers (f_queue f) ++ [f_next f])
                                  (Listener.l_conns (f_queue f)) (Listener.l_accepted (f_queue f))
                                  (Listener.l_refused (f_queue f)) (f_queue f)) f) in
          match f_kind f with
          | KWs => if negb (String.eqb path (f_path f)) then Some (not_found f)
                   else if ok then offer (λ _, SEnded) else Some f
          | KH2 => if negb (String.eqb path (f_path f)) then Some (not_found f) else offer (λ _, SServing)
          | KQuic | KKcp => if ok then offer SOffering else Some (with_sessions (<[s := SEnded]> (f_sessions f)) f)
          end
      | _ => None
      end
  | FQueue ev =>
      match ev with
      | Listener.LOffer _ | Listener.LOnce => None
      | Listener.LSend i | Listener.LTake i =>
          c ← Listener.l_offers (f_queue f) !! i;
          q ← Listener.lapply (f_queue f) ev;
          Some (settle c SServing (with_queue q f))
      | Listener.LRefuse i =>
          c ← Listener.l_offers (f_queue f) !! i;
          q ← Listener.lapply (f_queue f) ev;
          Some (settle c SEnded (with_queue q f))
      | Listener.LAccept | Listener.LClose _ => q ← Listener.lapply (f_queue f) ev; Some (with_queue q f)
      end
  | FCancel => Some (with_flags true (f_watched f) (f_guard f) f)
  | FWatch =>
      if f_ctx f && negb (f_watched f) then Some (close_facade (with_flags true true (f_guard f) f)) else None
  | FClose => Some (user_close f)
  end.

Fixpoint frun (f : facade) (evs : list fevent) : option facade :=
  match evs with
  | [] => Some f
  | ev :: evs => fapply f ev ≫= λ f, frun f evs
  end.

(** * Nothing is lost *)

Definition single (k : kind) : bool := match k with KQuic | KKcp => true | _ => false end.

Record finv (f : facade) : Prop := {
  fi_holds : Listener.holds (f_queue f) ≡ₚ seq 0 (f_next f);
  fi_offers : if single (f_kind f)
              then ∀ c, c ∈ Listener.l_offers (f_queue f) ↔ SOffering c ∈ f_sessions f
              else ∀ c, SOffering c ∉ f_sessions f;
  fi_closers : if single (f_kind f) then Listener.l_closers (f_queue f) = []
               else (Listener.CBack ∈ Listener.l_closers (f_queue f) → Listener.l_done (f_queue f) = true) ∧
                    (Listener.l_closers (f_queue f) = [] → Listener.l_done (f_queue f) = false);
}.

(** The parts of a queue that closing leaves alone. *)
Lemma finv_close f f' :
  finv f → f_kind f' = f_kind f → f_next f' = f_next f →
  Listener.l_offers (f_queue f') = Listener.l_offers (f_queue f) → Listener.holds (f_queue f') = Listener.holds (f_queue f) →
  (∀ c, SOffering c ∈ f_sessions f' ↔ SOffering c ∈ f_sessions f) →
  (if single (f_kind f) then Listener.l_closers (f_queue f') = []
   else (Listener.CBack ∈ Listener.l_closers (f_queue f') → Listener.l_done (f_queue f') = true) ∧
        (Listener.l_closers (f_queue f') = [] → Listener.l_done (f_queue f') = false)) →
  finv f'.
Proof.
  intros [H1 H2 H3] Hk Hn Ho Hh Hs Hc. split; rewrite ?Hk, ?Hn, ?Hh, ?Ho; try done.
  destruct (single (f_kind f)); intros c; [rewrite Hs|rewrite Hs]; apply H2.
Qed.

Lemma finv_close_facade f : finv f → finv (close_facade f).
Proof.
  intros Hi. pose proof Hi as [_ _ H3]. unfold close_facade. destruct (f_kind f) eqn:Ek; simpl in H3;
    (eapply finv_close; [exact Hi|done..|]); rewrite Ek; simpl; try done.
  all: split; [intros [H|H%list_elem_of_singleton]%elem_of_app; [by apply H3|done]|by intros []%app_nil].
Qed.

Lemma finv_flags ctx w g f : finv f → finv (with_flags ctx w g f).
Proof. by intros []. Qed.
Lemma finv_socket s v f : finv f → finv (with_socket s v f).
Proof. by intros []. Qed.

Lemma end_serving_offering (l : list session) c : SOffering c ∈ end_serving <$> l ↔ SOffering c ∈ l.
Proof.
  rewrite list_elem_of_fmap. split; [|by intros; exists (SOffering c)]. intros ([|c'|] & Hc & Hin); simpl in Hc; by simplify_eq.
Qed.

Lemma finv_user_close f : finv f → finv (user_close f).
Proof.
  intros Hi. unfold user_close. destruct (f_kind f) eqn:Ek; try by apply finv_close_facade.
  - apply finv_close_facade, finv_flags. destruct (f_guard f); [done|]. apply finv_socket.
    eapply finv_close; [exact Hi|done..| |exact (fi_closers _ Hi)]. apply end_serving_offering.
  - apply finv_close_facade, finv_flags. destruct (f_guard f); [done|]. by apply finv_socket.
Qed.

Lemma settle_offering c st (l : list session) c' :
  (∀ d, st ≠ SOffering d) →
  SOffering c' ∈ ((λ x, if decide (x = SOffering c) then st else x) <$> l) ↔ SOffering c' ∈ l ∧ c' ≠ c.
Proof.
  intros Hst. rewrite list_elem_of_fmap. split.
  - intros (x & Hx & Hin). destruct (decide (x = SOffering c)) as [->|Hne]; [by destruct (Hst c')|].
    subst x. split; [done|]. by intros ->.
  - intros [Hin Hne]. exists (SOffering c'). split; [|done]. rewrite decide_False; [done|]. congruence.
Qed.

(** One offer is over. *)
Lemma finv_settle f q i c st :
  finv f → Listener.l_offers (f_queue f) !! i = Some c → (∀ d, st ≠ SOffering d) →
  Listener.l_offers q = delete i (Listener.l_offers (f_queue f)) →
  Listener.holds q ≡ₚ Listener.holds (f_queue f) →
  Listener.l_closers q = Listener.l_closers (f_queue f) → Listener.l_done q = Listener.l_done (f_queue f) →
  finv (settle c st (with_queue q f)).
Proof.
  intros [H1 H2 H3] Hc Hst Ho Hh Hcl Hd. split; simpl; rewrite ?Hcl, ?Hd; [by rewrite Hh| |done].
  assert (NoDup (Listener.l_offers (f_queue f))) as Hnd.
  { assert (NoDup (Listener.holds (f_queue f))) as H by (rewrite H1; apply NoDup_seq).
    unfold Listener.holds in H. by apply NoDup_app in H as [? _]. }
  pose proof (delete_Permutation _ _ _ Hc) as Hp. rewrite Hp in Hnd. apply NoDup_cons in Hnd as [Hnc _].
  destruct (single (f_kind f)); intros c'; rewrite settle_offering by done.
  - rewrite Ho, <- H2. split.
    + intros Hin. split; [rewrite Hp; by right|]. by intros ->.
    + intros [Hin Hne]. rewrite Hp in Hin. by apply elem_of_cons in Hin as [?|?].
  - intros [Hin _]. by apply (H2 c').
Qed.

Lemma elem_of_insert_cases {A} (l : list A) i (x y : A) : x ∈ <[i := y]> l → x = y ∨ x ∈ l.
Proof.
  intros [j Hj]%list_elem_of_lookup_1. apply list_lookup_insert_Some in Hj as [(_ & -> & _)|[_ Hj]]; [by left|right].
  by eapply list_elem_of_lookup_2.
Qed.

Lemma queue_step_fields q ev q' :
  Listener.lapply q ev = Some q' →
  match ev with
  | Listener.LSend i | Listener.LTake i | Listener.LRefuse i =>
      Listener.l_offers q' = delete i (Listener.l_offers q) ∧ Listener.l_closers q' = Listener.l_closers q ∧
      Listener.l_done q' = Listener.l_done q
  | Listener.LAccept =>
      Listener.l_offers q' = Listener.l_offers q ∧ Listener.l_closers q' = Listener.l_closers q ∧
      Listener.l_done q' = Listener.l_done q
  | Listener.LClose i =>
      Listener.l_offers q' = Listener.l_offers q ∧ length (Listener.l_closers q') = length (Listener.l_closers q) ∧
      (Listener.l_done q = true → Listener.l_done q' = true) ∧ Listener.l_closers q ≠ [] ∧
      (Listener.CBack ∈ Listener.l_closers q' → Listener.CBack ∈ Listener.l_closers q ∨ Listener.l_done q' = true)
  | _ => True
  end.
Proof.
  unfold Listener.lapply. destruct (Listener.l_panic q); [done|]. intros Hs. destruct ev as [c|i|i| |i| |i]; try done.
  - apply bind_Some in Hs as (c&Hc&Hs). destruct (Nat.ltb _ _); by simplify_eq.
  - apply bind_Some in Hs as (c&Hc&Hs). destruct (Listener.l_done q) eqn:Hd; by simplify_eq.
  - unfold Listener.Accept in Hs. destruct (Listener.l_conns q); simpl in Hs; [by destruct (Listener.l_done q)|by simplify_eq].
  - apply bind_Some in Hs as (c&Hc&Hs). destruct (Listener.l_conns q) eqn:?; by simplify_eq.
  - unfold Listener.close_step in Hs. destruct (Listener.l_closers q !! i) as [[]|] eqn:Ei; try done.
    + assert (Listener.l_closers q ≠ []) as Hne by (intros E; by rewrite E in Ei). simplify_eq. simpl.
      rewrite length_insert. split_and!; try done. destruct (Listener.l_done q) eqn:Hd; [by right|].
      intros [?|?]%elem_of_insert_cases; [done|by left].
    + assert (Listener.l_closers q ≠ []) as Hne by (intros E; by rewrite E in Ei).
      destruct (Listener.l_done q) eqn:Hd; simplify_eq; simpl; rewrite ?length_insert; split_and!; try done; auto.
Qed.

Lemma finv_queue f ev f' : finv f → fapply f (FQueue ev) = Some f' → finv f'.
Proof.
  intros Hi Ha. pose proof Hi as [H1 H2 H3].
  assert (∀ q, Listener.lapply (f_queue f) ev = Some q → (∀ c, ev ≠ Listener.LOffer c) →
    Listener.holds q ≡ₚ Listener.holds (f_queue f)) as Hh.
  { intros q Hq Hn. rewrite (Listener.holds_step _ _ _ Hq). destruct ev; try (by rewrite app_nil_r); by destruct (Hn c). }
  destruct ev as [c|i|i| |i| |i]; cbn [fapply] in Ha; try done.
  - apply bind_Some in Ha as (c & Hc & (q & Hq & [= <-])%bind_Some). pose proof (Hh _ Hq ltac:(done)).
    apply queue_step_fields in Hq as (? & ? & ?). by eapply finv_settle.
  - apply bind_Some in Ha as (c & Hc & (q & Hq & [= <-])%bind_Some). pose proof (Hh _ Hq ltac:(done)).
    apply queue_step_fields in Hq as (? & ? & ?). by eapply finv_settle.
  - apply bind_Some in Ha as (q & Hq & [= <-]). pose proof (Hh _ Hq ltac:(done)) as Hq1.
    apply queue_step_fields in Hq as (Ho & Hc & Hd). split; simpl; rewrite ?Ho, ?Hc, ?Hd; [by rewrite Hq1|done..].
  - apply bind_Some in Ha as (c & Hc & (q & Hq & [= <-])%bind_Some). pose proof (Hh _ Hq ltac:(done)).
    apply queue_step_fields in Hq as (? & ? & ?). by eapply finv_settle.
  - apply bind_Some in Ha as (q & Hq & [= <-]). pose proof (Hh _ Hq ltac:(done)) as Hq1.
    apply queue_step_fields in Hq as (Ho & Hc & Hd & Hne & Hb). split; simpl; rewrite ?Ho; [by rewrite Hq1|done|].
    destruct (single (f_kind f)); [by rewrite H3 in Hne|]. destruct H3 as [H3 _]. split.
    + intros Hin. destruct (Hb Hin) as [?|?]; auto.
    + intros E. rewrite E in Hc. by destruct Hne, (Listener.l_closers (f_queue f)).
Qed.

Lemma finv_arrive f s st q :
  finv f → f_sessions f !! s = Some SServing →
  q = Listener.upd (Listener.l_offers (f_queue f) ++ [f_next f]) (Listener.l_conns (f_queue f))
        (Listener.l_accepted (f_queue f)) (Listener.l_refused (f_queue f)) (f_queue f) →
  (if single (f_kind f) then st = SOffering else st = (λ _, SServing) ∨ st = (λ _, SEnded)) → finv (arrive s st q f).
Proof.
  intros [H1 H2 H3] Hs -> Hst. split; cbn [f_queue f_next f_sessions f_kind arrive Listener.upd Listener.l_offers Listener.l_closers Listener.l_done];
    [|destruct (single (f_kind f))|done].
  - rewrite seq_S, <- H1. unfold Listener.holds. cbn. rewrite <- !app_assoc. solve_Permutation.
  - subst st. intros c. rewrite elem_of_app, H2, list_elem_of_singleton. split.
    + intros [Hin| ->].
      * apply list_elem_of_lookup_1 in Hin as [j Hj]. apply (list_elem_of_lookup_2 _ j). rewrite list_lookup_insert_ne; [done|].
        intros ->. congruence.
      * apply (list_elem_of_lookup_2 _ s). rewrite list_lookup_insert_eq; [done|by eapply lookup_lt_Some].
    + intros [[= ->]|?]%elem_of_insert_cases; [by right|by left].
  - intros c [Hc|Hc]%elem_of_insert_cases; [|by apply (H2 c)]. destruct Hst; by subst.
Qed.

Lemma sessions_shrink f l :
  finv f → (∀ c, SOffering c ∈ l ↔ SOffering c ∈ f_sessions f) → finv (with_sessions l f).
Proof. intros Hi Hl. eapply finv_close; [exact Hi|done..|exact (fi_closers _ Hi)]. Qed.

Lemma finv_step f ev f' : finv f → fapply f ev = Some f' → finv f'.
Proof.
  intros Hi Ha. destruct ev as [| |s path ok|ev| | |]; [| | |by eapply finv_queue|..]; cbn [fapply] in Ha.
  - destruct (_ && _); [|done]. injection Ha as <-. apply sessions_shrink; [done|]. intros c.
    rewrite elem_of_app, list_elem_of_singleton. naive_solver.
  - destruct (f_serving f); [|done]. injection Ha as <-. simpl. destruct (f_kind f); [|apply finv_close_facade..]; by apply finv_socket.
  - destruct (f_sessions f !! s) as [[]|] eqn:Es; try done. destruct (f_kind f) eqn:Ek.
    + destruct (negb _); [injection Ha as <-; by destruct Hi|]. destruct ok; [|by injection Ha as <-].
      injection Ha as <-. apply finv_arrive; try done. rewrite Ek. by right.
    + destruct (negb _); [injection Ha as <-; by destruct Hi|]. injection Ha as <-. apply finv_arrive; try done. rewrite Ek. by left.
    + destruct ok; injection Ha as <-; [apply finv_arrive; try done; by rewrite Ek|].
      apply sessions_shrink; [done|]. intros c. split; [by intros [?|?]%elem_of_insert_cases|].
      intros [j Hj]%list_elem_of_lookup_1. apply (list_elem_of_lookup_2 _ j). rewrite list_lookup_insert_ne; [done|congruence].
    + destruct ok; injection Ha as <-; [apply finv_arrive; try done; by rewrite Ek|].
      apply sessions_shrink; [done|]. intros c. split; [by intros [?|?]%elem_of_insert_cases|].
      intros [j Hj]%list_elem_of_lookup_1. apply (list_elem_of_lookup_2 _ j). rewrite list_lookup_insert_ne; [done|congruence].
  - injection Ha as <-. by apply finv_flags.
  - destruct (_ && _); [|done]. injection Ha as <-. by apply finv_close_facade, finv_flags.
  - injection Ha as <-. by apply finv_user_close.
Qed.

Lemma finv_start k path : finv (facade_Listen k path).
Proof. split; simpl; [done| |]; destruct (single k) eqn:E; rewrite ?E; simpl; try done; set_solver. Qed.

Lemma frun_finv evs f f' : finv f → frun f evs = Some f' → finv f'.
Proof.
  revert f. induction evs as [|ev evs IH]; intros f Hi Hr; simpl in Hr; [by injection Hr as <-|].
  apply bind_Some in Hr as (f1 & Ha & Hr). eapply IH; [|done]. by eapply finv_step.
Qed.

(** * Closing *)

(** The events that call the facade's [Close], and those that close the socket. *)
Definition calls_close (k : kind) (ev : fevent) : bool :=
  match ev with FClose | FWatch => true | FAcceptErr => negb (bool_decide (k = KWs)) | _ => false end.
Definition closes_socket (k : kind) (ev : fevent) : bool :=
  match ev with FClose => true | FWatch | FAcceptErr => single k | _ => false end.

(** Whether the facade's [Close] was called. *)
Definition closing (f : facade) : bool :=
  if single (f_kind f) then Listener.l_done (f_queue f) else bool_decide (Listener.l_closers (f_queue f) ≠ []).

Definition guard_ok (f : facade) : Prop := f_guard f = true → f_sock f = false.

Lemma closing_spawn q : bool_decide (Listener.l_closers (spawn_closer q) ≠ []) = true.
Proof. apply bool_decide_true. simpl. by destruct (Listener.l_closers q). Qed.

Lemma close_facade_closing f :
  closing (close_facade f) = true ∧ f_kind (close_facade f) = f_kind f ∧
  f_sock (close_facade f) = (if single (f_kind f) then false else f_sock f) ∧ (guard_ok f → guard_ok (close_facade f)).
Proof.
  unfold closing, close_facade, guard_ok. destruct (f_kind f) eqn:E; simpl; rewrite ?E; simpl; split_and!; try done; try apply closing_spawn; try (by intros H; apply H).
Qed.

(** What does not call [Close] leaves its traces alone. *)
Lemma queue_step_closing q ev q' :
  Listener.lapply q ev = Some q' → match ev with Listener.LOffer _ | Listener.LOnce => False | _ => True end →
  Listener.l_closers q' = [] ↔ Listener.l_closers q = [].
Proof.
  intros Hq Hev. apply queue_step_fields in Hq. destruct ev; try done; try (by destruct Hq as (_ & -> & _)).
  destruct Hq as (_ & Hl & _ & Hne & _). split; [|done]. intros E. rewrite E in Hl. by apply nil_length_inv.
Qed.

Lemma closing_same f f' :
  f_kind f' = f_kind f → Listener.l_done (f_queue f') = Listener.l_done (f_queue f) →
  (Listener.l_closers (f_queue f') = [] ↔ Listener.l_closers (f_queue f) = []) → closing f' = closing f.
Proof. intros Hk Hd Hc. unfold closing. rewrite Hk, Hd. destruct (single _); [done|]. apply bool_decide_ext. by rewrite Hc. Qed.

Lemma fapply_closing f ev f' :
  finv f → guard_ok f → fapply f ev = Some f' →
  f_kind f' = f_kind f ∧ closing f' = closing f || calls_close (f_kind f) ev ∧
  f_sock f' = f_sock f && negb (closes_socket (f_kind f) ev) ∧ guard_ok f'.
Proof.
  intros Hi Hg Ha.
  assert (f_kind f' = f_kind f → closing f' = closing f → f_sock f' = f_sock f → f_guard f' = f_guard f →
    calls_close (f_kind f) ev = false → closes_socket (f_kind f) ev = false →
    f_kind f' = f_kind f ∧ closing f' = closing f || calls_close (f_kind f) ev ∧
    f_sock f' = f_sock f && negb (closes_socket (f_kind f) ev) ∧ guard_ok f') as Hsame.
  { intros Hk Hc Hs Hgd H1 H2. rewrite H1, H2, orb_false_r, andb_true_r. split_and!; try done. unfold guard_ok. by rewrite Hgd, Hs. }
  destruct ev as [| |s path ok|ev| | |]; cbn [fapply] in Ha.
  - destruct (_ && _); [|done]. injection Ha as <-. by apply Hsame.
  - destruct (f_serving f); [|done]. injection Ha as <-. cbn zeta. cbn [f_kind with_socket]. destruct (decide (f_kind f = KWs)) as [E|E].
    + rewrite E. simpl. unfold closing. simpl. rewrite E. simpl. by rewrite orb_false_r, andb_true_r.
    + pose proof (close_facade_closing (with_socket (f_sock f) false f)) as (H1 & H2 & H3 & H4).
      assert (∀ x : facade, match f_kind f with KWs => x | _ => close_facade (with_socket (f_sock f) false f) end
        = close_facade (with_socket (f_sock f) false f)) as -> by (intros; by destruct (f_kind f)).
      rewrite H1, H2, H3. simpl. rewrite (bool_decide_false _ E), orb_true_r. split_and!; try done; [|by apply H4].
      destruct (single _); by rewrite ?andb_true_r, ?andb_false_r.
  - destruct (f_sessions f !! s) as [[]|]; try done.
    destruct (f_kind f) in Ha; [destruct (negb _); [|destruct ok]|destruct (negb _)|destruct ok|destruct ok]; injection Ha as <-; by apply Hsame.
  - destruct ev as [c|i|i| |i| |i]; try done.
    1, 2, 4: apply bind_Some in Ha as (c & Hc & (q & Hq & [= <-])%bind_Some); apply Hsame; try done;
      (apply closing_same; [done| |by eapply queue_step_closing]); by apply queue_step_fields in Hq as (_ & _ & ?).
    + apply bind_Some in Ha as (q & Hq & [= <-]). apply Hsame; try done.
      apply closing_same; [done| |by eapply queue_step_closing]. by apply queue_step_fields in Hq as (_ & _ & ?).
    + apply bind_Some in Ha as (q & Hq & [= <-]). apply Hsame; try done. unfold closing. simpl.
      pose proof (queue_step_closing _ _ _ Hq I) as Hcl. pose proof (fi_closers _ Hi) as Hcs.
      apply queue_step_fields in Hq as (_ & _ & _ & Hne & _). destruct (single (f_kind f)); [by rewrite Hcs in Hne|].
      apply bool_decide_ext. by rewrite Hcl.
  - injection Ha as <-. by apply Hsame.
  - destruct (_ && _); [|done]. injection Ha as <-. set (g := with_flags _ _ _ f).
    pose proof (close_facade_closing g) as (H1 & H2 & H3 & H4). rewrite H1, H2, H3. simpl. rewrite orb_true_r. split_and!; try done; [|by apply H4].
    destruct (single _); by rewrite ?andb_true_r, ?andb_false_r.
  - injection Ha as <-. unfold user_close. simpl. rewrite orb_true_r, andb_false_r.
    assert (∀ g, f_kind g = f_kind f → (single (f_kind f) = false → f_sock g = false) →
      f_kind (close_facade g) = f_kind f ∧ closing (close_facade g) = true ∧ f_sock (close_facade g) = false ∧ guard_ok (close_facade g)) as Hc.
    { intros g Hk Hs. pose proof (close_facade_closing g) as (H1 & H2 & H3 & _). rewrite Hk in *. 
      assert (f_sock (close_facade g) = false) as Hs2 by (rewrite H3; destruct (single _); auto). split_and!; try done. by intros _. }
    destruct (f_kind f) eqn:E; apply Hc; try done; simpl; try (by destruct (f_guard f)).
    all: intros _; destruct (f_guard f) eqn:Eg; [by apply Hg|done].
Qed.

Lemma frun_closing evs f f' :
  finv f → guard_ok f → frun f evs = Some f' →
  f_kind f' = f_kind f ∧ closing f' = closing f || existsb (calls_close (f_kind f)) evs ∧
  f_sock f' = f_sock f && negb (existsb (closes_socket (f_kind f)) evs).
Proof.
  revert f. induction evs as [|ev evs IH]; intros f Hi Hg Hr; simpl in Hr.
  { injection Hr as <-. simpl. by rewrite orb_false_r, andb_true_r. }
  apply bind_Some in Hr as (f1 & Ha & Hr). destruct (fapply_closing _ _ _ Hi Hg Ha) as (H1 & H2 & H3 & H4).
  destruct (IH f1 (finv_step _ _ _ Hi Ha) H4 Hr) as (K1 & K2 & K3). rewrite K1, K2, K3, H1, H2, H3. simpl.
  split_and!; [done|by rewrite orb_assoc|by rewrite negb_orb, andb_assoc].
Qed.

(** * Properties *)

(** A facade hands out every connection once. In every interleaving of its
    goroutines, each request or stream that became a logical connection is in
    exactly one place: offered by its goroutine, in the channel, returned by one
    [Accept], or closed by its goroutine; and in quic and kcp a session offers one
    at a time, so that it is exactly the offering sessions that wait. *)
Theorem facade_conserves k path evs f :
  frun (facade_Listen k path) evs = Some f →
  Listener.holds (f_queue f) ≡ₚ seq 0 (f_next f) ∧
  (single k = true → ∀ c, c ∈ Listener.l_offers (f_queue f) ↔ SOffering c ∈ f_sessions f).
Proof.
  intros Hr. destruct (frun_closing _ _ _ (finv_start k path) ltac:(done) Hr) as (Hk & _).
  pose proof (frun_finv _ _ _ (finv_start k path) Hr) as [H1 H2 _]. rewrite Hk in H2. simpl in H2. split; [done|].
  intros Hs. by rewrite Hs in H2.
Qed.

(** C28: Closing a facade ends its [Accept], and the contract of [Listen] about the
    context holds. Once a close has gone through (the user's, the one of the goroutine
    that watches the context, or but for ws the one after the socket failed),
    [Accept] does not block, and every goroutine that still offers a connection can
    close it and return. The socket is then closed if the user closed the listener;
    in ws and h2 by nothing else, in quic and kcp by each of the others too. *)
Theorem facade_closed k path evs f :
  frun (facade_Listen k path) evs = Some f → existsb (calls_close k) evs = true →
  Forall (eq Listener.CBack) (Listener.l_closers (f_queue f)) → Listener.l_panic (f_queue f) = false →
  Listener.l_done (f_queue f) = true ∧ (∀ first, Listener.Accept first (f_queue f) ≠ None) ∧
  (∀ i c, Listener.l_offers (f_queue f) !! i = Some c → is_Some (fapply f (FQueue (Listener.LRefuse i)))) ∧
  (f_sock f = false ↔ FClose ∈ evs ∨ single k = true).
Proof.
  intros Hr Hc Hb Hp. destruct (frun_closing _ _ _ (finv_start k path) ltac:(done) Hr) as (Hk & Hcl & Hs).
  pose proof (frun_finv _ _ _ (finv_start k path) Hr) as [_ _ H3]. simpl in *. rewrite Hk in H3.
  rewrite Hc, orb_true_r in Hcl. unfold closing in Hcl. rewrite Hk in Hcl.
  assert (Listener.l_done (f_queue f) = true) as Hd.
  { destruct (single k); [done|]. apply H3. apply bool_decide_eq_true in Hcl.
    destruct (Listener.l_closers (f_queue f)) as [|c cs]; [done|]. apply Forall_cons in Hb as [<- _]. by left. }
  split_and!; [done|intros first; by apply Listener.Accept_after_close| |].
  - intros i c Hic. cbn [fapply]. rewrite Hic. cbn [mbind option_bind]. unfold Listener.lapply. rewrite Hp, Hic. cbn [mbind option_bind]. rewrite Hd. by eexists.
  - rewrite Hs. rewrite negb_false_iff, existsb_exists. split.
    + intros (ev & Hin%list_elem_of_In & He). destruct ev; try done; [by right|by right|by left].
    + intros [Hin|Hk1].
      * exists FClose. split; [by apply list_elem_of_In|done].
      * apply existsb_exists in Hc as (ev & Hin & He). exists ev. split; [done|]. destruct ev; try done; by destruct k.
Qed.

(** A ws listener does not notice that its socket failed. [Serve]'s error is thrown
    away: unless the listener is closed or its context cancelled, [done] stays open
    and [Accept] waits for ever, whatever failed. *)
Theorem ws_failure_unnoticed path evs f :
  frun (facade_Listen KWs path) evs = Some f → FClose ∉ evs → FWatch ∉ evs →
  (f_serving f = false → fapply f FAccept = None) ∧
  (Listener.l_conns (f_queue f) = [] → ∀ first, Listener.Accept first (f_queue f) = None).
Proof.
  intros Hr H1 H2. destruct (frun_closing _ _ _ (finv_start KWs path) ltac:(done) Hr) as (Hk & Hcl & _). simpl in *.
  split; [by intros ->; rewrite andb_false_r|]. intros Hempty first. unfold Listener.Accept. rewrite Hempty.
  pose proof (frun_finv _ _ _ (finv_start KWs path) Hr) as [_ _ H3]. rewrite Hk in H3. destruct H3 as [_ H3].
  rewrite H3; [done|]. unfold closing in Hcl. rewrite Hk in Hcl. simpl in Hcl.
  
  destruct (existsb (calls_close KWs) evs) eqn:E.
  - apply existsb_exists in E as (ev & Hin%list_elem_of_In & He). by destruct ev.
  - apply bool_decide_eq_false in Hcl. by apply dec_stable.
Qed.

(** * Dials *)

(** ** tls: the name the server's certificate is checked for *)

Definition tls_server_name (addr : list byte) : list byte := default addr (split_host_port addr).

Inductive tls_conn := mkTlsConn (serverName : list byte) (skipVerify : bool).

Definition tls_Dial (skipVerify : bool) (addr : list byte) (dial : result string unit) : result string tls_conn :=
  match dial with Err e => Err e | Ok _ => Ok (mkTlsConn (tls_server_name addr) skipVerify) end.

(** ** tcp and ws *)

Definition tcp_Dial {C : Type} (dial : string → result string C) (addr : string) : result string C := dial addr.

Definition ws_url (path addr : string) : string := "ws://" +:+ addr +:+ handshakePath path.

(** [dial] is [ws.Dial] of gobwas/ws; the connection is made by [newClientConn]. *)
Definition ws_Dial {C : Type} (dial : string → result string C) (path addr : string) : result string C :=
  map_err (λ e, "ws: dial " +:+ addr +:+ ": " +:+ e) (dial (ws_url path addr)).

(** ** h2 *)

(** What a dial leaves behind: whether the request's context was cancelled, whether
    the body of a response was closed, and whether its watcher has been told to go. *)
Record h2_dial_state := mkH2Dial { hd_cancelled : bool; hd_bodyClosed : bool; hd_watchDone : bool }.

Inductive do_result := DoErr (e : string) | DoResp (status : Z).

(** [Dial]: [built] tells whether the request could be built, [ctx_done] whether the
    watcher saw the caller's context done before [Do] returned. *)
Definition h2_Dial (built : result string unit) (ctx_done : bool) (r : do_result) : h2_dial_state * result string unit :=
  match built with
  | Err e => (mkH2Dial true false true, Err ("h2: build request: " +:+ e))
  | Ok _ =>
      match r with
      | DoErr e => (mkH2Dial true false true, Err ("h2: dial: " +:+ e))
      | DoResp status =>
          if status =? 200 then (mkH2Dial ctx_done false true, Ok tt)
          else (mkH2Dial true true true, Err ("h2: dial: unexpected status " +:+ pretty status))
      end
  end.

(** A failed dial of h2 leaves nothing behind: its request is cancelled, a
    response's body is closed and its watcher is gone. A successful one has left
    the request alone unless the caller's context was done in the meantime. *)
Lemma h2_Dial_clean built ctx_done r s res :
  h2_Dial built ctx_done r = (s, res) →
  hd_watchDone s = true ∧
  match res with
  | Err _ => hd_cancelled s = true ∧ (∀ status, built = Ok tt → r = DoResp status → hd_bodyClosed s = true)
  | Ok _ => hd_cancelled s = ctx_done ∧ hd_bodyClosed s = false
  end.
Proof.
  unfold h2_Dial. destruct built as [[]|e]; [|intros [= <- <-]; naive_solver]. destruct r as [e|status]; [intros [= <- <-]; naive_solver|].
  destruct (Z.eqb_spec status 200); intros [= <- <-]; simpl; split_and!; done.
Qed.

(** ** kcp: the dial and its context race *)

(** The goroutine that dials and the select that waits for it. [kd_conn]: the result
    in the channel; [kd_ret]: what [dialKCP] returned. *)
Inductive kcp_ret := KdConn (r : result string nat) | KdCtx.
Record kcp_dial := mkKcpDial { kd_chan : option (result string nat); kd_dialed : bool; kd_ctx : bool; kd_ret : option kcp_ret }.

Inductive kcp_event := KdDialed (r : result string nat) | KdCancel | KdTake | KdDone.

Definition kcp_apply (s : kcp_dial) (ev : kcp_event) : option kcp_dial :=
  match ev with
  | KdDialed r => if kd_dialed s then None else Some (mkKcpDial (Some r) true (kd_ctx s) (kd_ret s))
  | KdCancel => Some (mkKcpDial (kd_chan s) (kd_dialed s) true (kd_ret s))
  | KdTake =>
      match kd_ret s, kd_chan s with
      | None, Some r => Some (mkKcpDial None (kd_dialed s) (kd_ctx s) (Some (KdConn r)))
      | _, _ => None
      end
  | KdDone =>
      match kd_ret s with
      | None => if kd_ctx s then Some (mkKcpDial (kd_chan s) (kd_dialed s) (kd_ctx s) (Some KdCtx)) else None
      | _ => None
      end
  end.

Fixpoint kcp_run (s : kcp_dial) (evs : list kcp_event) : option kcp_dial :=
  match evs with [] => Some s | ev :: evs => kcp_apply s ev ≫= λ s, kcp_run s evs end.

Definition kcp_start : kcp_dial := mkKcpDial None false false None.

(** A kcp dial given up for its context leaks its connection. Once [dialKCP] has
    returned the context's error, a connection that the goroutine dials, then or
    before, stays in the channel: nobody receives it and nobody closes it. *)
Theorem kcp_abandoned_dial_leaks evs s c :
  kcp_run kcp_start evs = Some s → kd_ret s = Some KdCtx →
  (kd_dialed s = false → ∃ s', kcp_apply s (KdDialed (Ok c)) = Some s' ∧ kd_chan s' = Some (Ok c)) ∧
  (∀ evs' s' r, kd_chan s = Some r → kcp_run s evs' = Some s' → kd_chan s' = Some r).
Proof.
  intros Hr Hret. split.
  - intros Hd. simpl. rewrite Hd. by eexists.
  - intros evs' s' r Hch Hr'. assert (kd_dialed s = true) as Hd.
    { assert (∀ evs s0, (is_Some (kd_chan s0) → kd_dialed s0 = true) → kcp_run s0 evs = Some s → is_Some (kd_chan s) → kd_dialed s = true) as Hg.
      { clear. induction evs as [|ev evs IH]; intros s0 H0 Hr Hs; simpl in Hr; [injection Hr as <-; auto|].
        apply bind_Some in Hr as (s1 & Ha & Hr). eapply IH; [|exact Hr|done].
        destruct ev; simpl in Ha; destruct (kd_ret s0), (kd_chan s0), (kd_dialed s0) eqn:?, (kd_ctx s0); simplify_eq/=; auto;
          intros [? ?]; done. }
      eapply Hg; [|exact Hr|by eexists]. by intros [? ?]. }
    clear Hr. revert s Hret Hch Hd Hr'. induction evs' as [|ev evs' IH]; intros s Hret Hch Hd Hr'; simpl in Hr'; [by injection Hr' as <-|].
    apply bind_Some in Hr' as (s1 & Ha & Hr'). destruct ev; simpl in Ha; rewrite ?Hret, ?Hd in Ha; try done.
    injection Ha as <-. by eapply IH; [| | |exact Hr'].
Qed.

(** * Connections *)

(** ** quic streams: each side is ended once *)

Record quic_stream := mkQuicStream { qs_writeOnce : bool; qs_closeOnce : bool; qs_finished : nat; qs_readCancelled : nat }.

Definition newStreamConn : quic_stream := mkQuicStream false false 0 0.

Definition stream_CloseWrite (s : quic_stream) : quic_stream :=
  if qs_writeOnce s then s else mkQuicStream true (qs_closeOnce s) (S (qs_finished s)) (qs_readCancelled s).

Definition stream_Close (s : quic_stream) : quic_stream :=
  let s := stream_CloseWrite s in
  if qs_closeOnce s then s else mkQuicStream (qs_writeOnce s) true (qs_finished s) (S (qs_readCancelled s)).

(** However often and in whatever order a quic stream is half closed and closed,
    its write side is finished once and its read side cancelled at most once, which
    it is exactly if [Close] was called. *)
Lemma quic_stream_once (l : list bool) :
  let s := foldl (λ s full, if full : bool then stream_Close s else stream_CloseWrite s) newStreamConn l in
  qs_finished s = (if bool_decide (l = []) then 0 else 1)%nat ∧
  qs_readCancelled s = (if existsb id l then 1 else 0)%nat.
Proof.
  intros s. assert (∀ l s0, (qs_finished s0 = if qs_writeOnce s0 then 1 else 0)%nat → (qs_readCancelled s0 = if qs_closeOnce s0 then 1 else 0)%nat →
    let s1 := foldl (λ s full, if full : bool then stream_Close s else stream_CloseWrite s) s0 l in
    qs_writeOnce s1 = qs_writeOnce s0 || bool_decide (l ≠ []) ∧ qs_closeOnce s1 = qs_closeOnce s0 || existsb id l ∧
    qs_finished s1 = (if qs_writeOnce s1 then 1 else 0)%nat ∧ qs_readCancelled s1 = (if qs_closeOnce s1 then 1 else 0)%nat) as H.
  { clear. induction l as [|b l IH]; intros s0 H1 H2 s1.
    { subst s1. simpl. by rewrite !orb_false_r. }
    assert (∀ s', qs_writeOnce s' = true → qs_closeOnce s' = qs_closeOnce s0 || b →
      qs_finished s' = 1%nat → (qs_readCancelled s' = if qs_closeOnce s' then 1 else 0)%nat →
      s1 = foldl (λ s full, if full : bool then stream_Close s else stream_CloseWrite s) s' l →
      qs_writeOnce s1 = qs_writeOnce s0 || bool_decide (b :: l ≠ []) ∧ qs_closeOnce s1 = qs_closeOnce s0 || existsb id (b :: l) ∧
      qs_finished s1 = (if qs_writeOnce s1 then 1 else 0)%nat ∧ qs_readCancelled s1 = (if qs_closeOnce s1 then 1 else 0)%nat) as Hs.
    { intros s' K1 K2 K3 K4 ->. destruct (IH s') as (J1 & J2 & J3 & J4); [by rewrite K1|done|]. rewrite J3, J4, J1, J2, K1, K2.
      rewrite (bool_decide_true (b :: l ≠ [])) by done. rewrite orb_true_r. simpl. by rewrite orb_assoc. }
    apply (Hs (if b then stream_Close s0 else stream_CloseWrite s0)); try done;
      destruct s0 as [[] [] fin rc], b; simpl in *; by subst. }
  destruct (H l newStreamConn) as (H1 & H2 & H3 & H4); [done|done|]. fold s in H1, H2, H3, H4. simpl in H1, H2.
  rewrite H3, H4, H1, H2. split; [|done]. by destruct l.
Qed.

(** ** The sockets under the facades *)

(** What [Listen] of a facade can fail with; the text of the system's errors. *)
Inductive listen_err := NeedsCert | Resolve (e : string) | Socket (e : string) | Package (e : string).

Definition ws_Listen (listen : result string unit) (path : string) : result listen_err facade :=
  match listen with Err e => Err (Socket e) | Ok _ => Ok (facade_Listen KWs (handshakePath path)) end.

Definition h2_Listen (listen : result string unit) (path : string) : result listen_err facade :=
  match listen with Err e => Err (Socket e) | Ok _ => Ok (facade_Listen KH2 path) end.

Definition kcp_Listen (listen : result string unit) : result listen_err facade :=
  match listen with Err e => Err (Package e) | Ok _ => Ok (facade_Listen KKcp "") end.

(** [quic]'s, with the number of UDP sockets it leaves open. *)
Definition quic_Listen {cert : Type} (c : option cert) (resolve udp listen : result string unit) : nat * result listen_err facade :=
  match c with
  | None => (0%nat, Err NeedsCert)
  | Some _ =>
      match resolve with
      | Err e => (0%nat, Err (Resolve e))
      | Ok _ =>
          match udp with
          | Err e => (0%nat, Err (Socket e))
          | Ok _ => match listen with Err e => (0%nat, Err (Package e)) | Ok _ => (1%nat, Ok (facade_Listen KQuic "")) end
          end
      end
  end.

(** A failed [Listen] of quic leaves no socket, a successful one leaves one. *)
Lemma quic_Listen_socket {cert : Type} (c : option cert) resolve udp listen n r :
  quic_Listen c resolve udp listen = (n, r) → n = match r with Ok _ => 1%nat | Err _ => 0%nat end.
Proof. unfold quic_Listen. intros H. destruct c, resolve, udp, listen; by injection H as <- <-. Qed.

(** The UDP socket that the dials of quic share: [clientOnce], and whether there is
    a client. *)
Record quic_client := mkQuicClient { qc_once : bool; qc_client : bool }.

(** [udp]: whether [ListenUDP] succeeds, should it be called. *)
Definition clientTransport (udp : bool) (c : quic_client) : quic_client :=
  if qc_once c then c else mkQuicClient true udp.

(** The shared socket of quic is tried once. When it could not be opened at the
    first dial of a transport, every later dial finds no client, whatever the
    system would answer by then; when it was, every dial has it. *)
Theorem client_tried_once udp udps :
  let c := foldl (λ c udp, clientTransport udp c) (clientTransport udp (mkQuicClient false false)) udps in
  qc_client c = udp.
Proof.
  simpl. assert (∀ c, qc_once c = true → foldl (λ c udp, clientTransport udp c) c udps = c) as ->; [|done|done].
  induction udps as [|u udps IH]; intros c Hc; simpl; [done|]. unfold clientTransport at 2. rewrite Hc. by apply IH.
Qed.

(** ** Addresses and deadlines *)

(** The deadlines of h2: the dialing side keeps one for reading only, the serving
    side none. *)
Definition h2_SetDeadline (t : option Z) (c : H2.clientStreamConn) : H2.clientStreamConn := H2.SetReadDeadline t c.
Definition h2_SetWriteDeadline (t : option Z) (c : H2.clientStreamConn) : H2.clientStreamConn := c.
Definition h2_server_SetDeadline (t : option Z) (c : H2.serverStreamConn) : H2.serverStreamConn := c.

(** The addresses of ws and h2. *)
Inductive facade_addr := WsAddr (addr : string) | H2Addr (network : string).
Definition Network (a : facade_addr) : string := match a with WsAddr _ => "ws" | H2Addr n => n end.
Definition addr_String (a : facade_addr) : string := match a with WsAddr s => s | H2Addr _ => "h2-stream" end.

(** * Witnesses *)

(** A ws listener: two upgrades and a request for another path, one connection
    accepted, the user's close. *)
Definition demo_ws : list fevent :=
  [FAccept; FAccept; FAccept; FRequest 0 "/" true; FRequest 1 "/x" true; FRequest 2 "/" true; FQueue (Listener.LTake 0);
   FClose; FQueue (Listener.LClose 0); FQueue (Listener.LClose 0)].

Lemma facade_conserves_witness :
  ∃ f, frun (facade_Listen KWs "/") demo_ws = Some f ∧ f_notfound f = 1%nat ∧ Listener.l_accepted (f_queue f) = [0%nat] ∧
    Listener.l_offers (f_queue f) = [1%nat] ∧ Listener.holds (f_queue f) ≡ₚ [0; 1]%nat.
Proof.
  eexists. split; [vm_compute; reflexivity|]. split; [reflexivity|]. split; [reflexivity|]. split; [reflexivity|].
  apply (facade_conserves KWs "/" demo_ws). vm_compute. reflexivity.
Defined.

Lemma facade_closed_witness :
  ∃ f, frun (facade_Listen KWs "/") demo_ws = Some f ∧ Listener.Accept true (f_queue f) ≠ None ∧
    is_Some (fapply f (FQueue (Listener.LRefuse 0))).
Proof.
  destruct (frun (facade_Listen KWs "/") demo_ws) as [f|] eqn:Hr; [|vm_compute in Hr; discriminate Hr].
  assert (Listener.l_closers (f_queue f) = [Listener.CBack] ∧ Listener.l_panic (f_queue f) = false ∧
    Listener.l_offers (f_queue f) !! 0%nat = Some 1%nat) as (H1 & H2 & H3)
    by (vm_compute in Hr; injection Hr as <-; split; [reflexivity|split; reflexivity]).
  destruct (facade_closed KWs "/" demo_ws f Hr) as (_ & Ha & Ho & _).
  - vm_compute. reflexivity.
  - rewrite H1. constructor; [reflexivity|constructor].
  - exact H2.
  - exists f. split; [reflexivity|]. split; [apply Ha|exact (Ho _ _ H3)].
Defined.

Lemma ws_failure_unnoticed_witness :
  ∃ f, frun (facade_Listen KWs "/") [FAccept; FAcceptErr] = Some f ∧ f_serving f = false ∧
    Listener.Accept true (f_queue f) = None.
Proof.
  eexists. split; [vm_compute; reflexivity|]. split; [reflexivity|].
  refine (proj2 (ws_failure_unnoticed "/" [FAccept; FAcceptErr] _ _ _ _) _ true).
  - vm_compute. reflexivity.
  - intros H. repeat (apply elem_of_cons in H as [H|H]; [discriminate H|]). exact (not_elem_of_nil _ H).
  - intros H. repeat (apply elem_of_cons in H as [H|H]; [discriminate H|]). exact (not_elem_of_nil _ H).
  - reflexivity.
Defined.

Lemma kcp_abandoned_dial_leaks_witness :
  ∃ s s', kcp_run kcp_start [KdCancel; KdDone] = Some s ∧ kcp_apply s (KdDialed (Ok 7%nat)) = Some s' ∧ kd_chan s' = Some (Ok 7%nat).
Proof.
  eexists. destruct (kcp_abandoned_dial_leaks [KdCancel; KdDone] (mkKcpDial None false true (Some KdCtx)) 7 eq_refl eq_refl) as [H _].
  destruct (H eq_refl) as (s' & H1 & H2). exists s'. split; [reflexivity|]. split; [exact H1|exact H2].
Defined.
