(* ===== verification/Ingress.v ===== *)
(** The ingress of the star server around one proxied connection
    (internal/star/starserver/proxy_server.go): its construction, its listener,
    the embedded dialers of its outbound chains, what happens to a connection
    before it is proxied ([Proxy]), and the chain gateway, which carries a
    connection through the tunnel of one of those dialers. *)
From S2P Require Import Prelude Message TextCodec Window StreamTable CtrlHub Handshake Config Register Proxy.
From S2P Require Import Adapter CtrlClient Bridge BridgeEnd Dialer.
From S2P Require Import Transport Codec.
From Stdlib Require Import ZArith Lia.

(** * The server *)

Definition ms : Z := 10 ^ 6.

(** A codec as the server uses it: its name, and [Accept], which makes a message
    connection ([M]) of a connection ([C]) or fails. *)
Record codec (C M : Type) := mkCodec { cd_Name : string; cd_Accept : C → result string M }.
Arguments mkCodec {C M}.
Arguments cd_Name {C M}.
Arguments cd_Accept {C M}.

(** The connect table and the hub are shared: they are arguments. The running
    dialers live on a heap of the process; [ps_chainDialers] points into it. [L]
    is the type of listeners. *)
Record ProxyServer (C M L : Type) := mkProxyServer {
  ps_Name : string;
  ps_Net : string;
  ps_Addr : string;
  ps_ReadTimeout : Z;
  ps_WriteTimeout : Z;
  ps_proxyName : string;
  ps_inCodec : codec C M;
  ps_settings : Settings;
  ps_rr : Z;
  ps_chainRoutes : list ChainRoute;
  ps_chainSpecs : gmap string DialerSpec;
  ps_chainDialers : gmap string nat;
  ps_chainRR : Z;
  ps_injected : option L;
}.
Arguments mkProxyServer {C M L}.
Arguments ps_Name {C M L}.
Arguments ps_Net {C M L}.
Arguments ps_Addr {C M L}.
Arguments ps_ReadTimeout {C M L}.
Arguments ps_WriteTimeout {C M L}.
Arguments ps_proxyName {C M L}.
Arguments ps_inCodec {C M L}.
Arguments ps_settings {C M L}.
Arguments ps_rr {C M L}.
Arguments ps_chainRoutes {C M L}.
Arguments ps_chainSpecs {C M L}.
Arguments ps_chainDialers {C M L}.
Arguments ps_chainRR {C M L}.
Arguments ps_injected {C M L}.

Section server.
Context {C M L : Type}.
Abbreviation server := (ProxyServer C M L).

Definition with_chain (routes : list ChainRoute) (specs : gmap string DialerSpec) (p : server) : server :=
  mkProxyServer (ps_Name p) (ps_Net p) (ps_Addr p) (ps_ReadTimeout p) (ps_WriteTimeout p) (ps_proxyName p)
    (ps_inCodec p) (ps_settings p) (ps_rr p) routes specs (ps_chainDialers p) (ps_chainRR p) (ps_injected p).
Definition with_counters (rr chainRR : Z) (p : server) : server :=
  mkProxyServer (ps_Name p) (ps_Net p) (ps_Addr p) (ps_ReadTimeout p) (ps_WriteTimeout p) (ps_proxyName p)
    (ps_inCodec p) (ps_settings p) rr (ps_chainRoutes p) (ps_chainSpecs p) (ps_chainDialers p) chainRR (ps_injected p).
Definition with_chainDialers (ds : gmap string nat) (p : server) : server :=
  mkProxyServer (ps_Name p) (ps_Net p) (ps_Addr p) (ps_ReadTimeout p) (ps_WriteTimeout p) (ps_proxyName p)
    (ps_inCodec p) (ps_settings p) (ps_rr p) (ps_chainRoutes p) (ps_chainSpecs p) ds (ps_chainRR p) (ps_injected p).
Definition UseListener (ln : L) (p : server) : server :=
  mkProxyServer (ps_Name p) (ps_Net p) (ps_Addr p) (ps_ReadTimeout p) (ps_WriteTimeout p) (ps_proxyName p)
    (ps_inCodec p) (ps_settings p) (ps_rr p) (ps_chainRoutes p) (ps_chainSpecs p) (ps_chainDialers p) (ps_chainRR p)
    (Some ln).

Definition ProxyOption : Type := server → server.
Definition WithChainRoutes (routes : list ChainRoute) (specs : gmap string DialerSpec) : ProxyOption :=
  with_chain routes specs.

Definition NewProxyServer (codecs : gmap string (codec C M)) (serviceName : string) (listener : ListenerList)
    (opts : list ProxyOption) : result Codec.codec_err server :=
  c ← Codec.Get (InCodec (ll_Settings listener)) codecs;
  let p := mkProxyServer serviceName (ll_Transport listener) (ll_Addr listener) (3 * second) (5 * second)
             (ProxyName (ll_Settings listener)) c (ll_Settings listener) 0 [] ∅ ∅ 0 None in
  Ok (foldl (λ p opt, opt p) p opts).

(** ** Listening *)

Section listen.
Context {cert : Type} (registry : gmap string (@BuildFunc cert)).
(** What [Listen] of a built transport gives at an address. *)
Variable tr_listen : Transport cert → string → result string L.

Inductive listen_err := ErrBuild (e : tr_err) | ErrListen (e : string).

Definition Listen (s : server) : result listen_err (option L) :=
  match ps_injected s with
  | Some ln => Ok (Some ln)
  | None =>
      if String.eqb (ps_Net s) "udp" then Ok None
      else
        tr ← map_err ErrBuild
               (Build (ps_Net s) (mkOptions (Config.CertFile (ps_settings s)) (Config.KeyFile (ps_settings s)) false "") registry);
        ln ← map_err ErrListen (tr_listen tr (ps_Addr s));
        Ok (Some ln)
  end.
End listen.

(** ** The embedded dialers *)

(** What the chain routes register at the far node through the dialer [name]. *)
Definition chain_streams (routes : list ChainRoute) (name : string) : list RegisterStreamReq :=
  (λ cr, mkRegisterStreamReq (cr_Identity cr) (cr_StreamId cr)) <$> filter (λ cr, cr_Dialer cr = name) routes.

(** The dialer of a specification. It has a [LocalDialer], which serves nothing. *)
Definition chain_dialer (routes : list ChainRoute) (name : string) (spec : DialerSpec) : dialer_conf :=
  let d := NewDialer name (dl_Addr spec) (dl_KeyPassword spec) (chain_streams routes name) in
  mkDialerConf (dc_Name d) (dc_Addr d) (dc_KeyPassword d) (dc_Streams d) true
    (String.eqb (dl_Transport spec) "tls") true (dc_KeepAlive d).

Definition chain_local_dialer (_ : string) : result string unit :=
  Err "chain dialer does not serve local streams"%string.

(** The dialers of the process, each with the state of its [Run]. *)
Abbreviation dialers := (list (dialer_conf * dialer)).

(** One turn of [Serve]'s loop over [chainSpecs]. *)
Definition start_dialer (acc : server * dialers) (x : string * DialerSpec) : server * dialers :=
  let '(s, heap) := acc in
  match ps_chainDialers s !! x.1 with
  | Some _ => (s, heap)
  | None =>
      (with_chainDialers (<[x.1 := length heap]> (ps_chainDialers s)) s,
       heap ++ [(chain_dialer (ps_chainRoutes s) x.1 x.2, dialer0)])
  end.

(** [Serve] up to its first [Accept]: [order] is the order in which the map yields
    its entries. *)
Definition start_dialers (order : list (string * DialerSpec)) (s : server) (heap : dialers) : server * dialers :=
  foldl start_dialer (s, heap) order.

(** The accept loop: the connections it hands to [handleConn], up to the error it
    returns; [None] while it goes on. *)
Fixpoint accept_loop (accepts : list (result string C)) : list C * option string :=
  match accepts with
  | [] => ([], None)
  | Err e :: _ => ([], Some e)
  | Ok conn :: accepts => let '(conns, e) := accept_loop accepts in (conn :: conns, e)
  end.

(** There is no packet side. *)
Definition ListenPacket (_ : server) : result string (option L) := Ok None.
Definition ServePacket {P : Type} (_ : server) (_ : P) : option string := None.

(** ** A connection before it is proxied *)

(** What becomes of an accepted connection: it goes to the chain gateway, the
    codec refuses it and it is closed, there is no stream and the message
    connection is closed, or a connection is being opened in the hub. *)
Inductive front :=
  | FrontChain
  | FrontRefused (err : string)
  | FrontNoStream (mc : M)
  | FrontOpening (mc : M) (entry : StreamEntry) (connID : Z) (l : conn_loc) (req : outgoing).

(** The pointer to an entry that [pickEntry] found. *)
Definition entry_ptr (t : StreamTable) (e : StreamEntry) : entry_loc := default 0%nat (byID t !! se_AssignID e).

Context `{!JsonCodec ConnOpenReq}.

Definition handleConn_begin (s : server) (connects : ConnectTable) (h : CtrlHub) (conn : C) (now : Z)
    : server * CtrlHub * front :=
  match ps_chainRoutes s with
  | _ :: _ => (s, h, FrontChain)
  | [] =>
      match cd_Accept (ps_inCodec s) conn with
      | Err e => (s, h, FrontRefused e)
      | Ok mc =>
          let '(rr, entry) := pickEntry (CtrlHub.Streams h) connects (ps_proxyName s) (ps_rr s) in
          let s := with_counters rr (ps_chainRR s) s in
          match entry with
          | None => (s, h, FrontNoStream mc)
          | Some entry =>
              let '(h, l, req) := OpenConn_begin h (entry_ptr (CtrlHub.Streams h) entry) entry now in
              (s, h, FrontOpening mc entry (connSeq h) l req)
          end
      end
  end.

(** The end of [OpenConn]: the message connection is closed ([None]), or the two
    goroutines of [Proxy] start; [cw]: whether it has a [CloseWrite]. *)
Definition handleConn_opened (h : CtrlHub) (connID : Z) (l : conn_loc) (ev : open_event) (cw : bool)
    : CtrlHub * option pconn :=
  match OpenConn_end h connID l ev with
  | (h, Ok l) => (h, Some (start_conn h l connID cw))
  | (h, Err _) => (h, None)
  end.

(** The choice of a chain: [None] for a nil dialer. *)
Definition pickChain_dialer (s : server) : server * option (ChainRoute * nat) :=
  let '(rr, cr) := pickChain (ps_chainRoutes s) (ps_chainRR s) in
  (with_counters (ps_rr s) rr s,
   cr ← cr; d ← ps_chainDialers s !! cr_Dialer cr; Some (cr, d)).
End server.

(** * The chain gateway *)

(** ** The tunnelled connection, over the socket of the client *)

(** [StreamConn.Write] from [p] on: whether all of it was sent. *)
Fixpoint tun_write_loop (fuel : nat) (c : CtrlClient) (connID : Z) (p : list byte) : CtrlClient * bool :=
  match p, fuel with
  | [], _ | _, O => (c, true)
  | _, S fuel =>
      let '(c, sent) := send c (data_frame connID (take writeChunk p)) in
      if sent then tun_write_loop fuel c connID (drop writeChunk p) else (c, false)
  end.

Definition tun_set (sc : StreamConn) (loc : nat) (c : CtrlClient) : CtrlClient :=
  with_dheap c (<[loc := sc]> (c_dheap c)) (c_chans c).

Definition tun_Write (c : CtrlClient) (sc : StreamConn) (p : list byte) : CtrlClient * bool :=
  if isClosed sc then (c, false) else tun_write_loop (length p) c (sc_connID sc) p.

Definition tun_CloseWrite (c : CtrlClient) (loc : nat) (sc : StreamConn) : CtrlClient * bool :=
  if sc_writeHalf sc then (c, true)
  else
    send (tun_set (mkStreamConn (sc_connID sc) (sc_feed sc) (sc_closed sc) (sc_readEOF sc) true (sc_pending sc)) loc c)
      (HalfClose (sc_connID sc)).

Definition tun_Close (c : CtrlClient) (loc : nat) (sc : StreamConn) : CtrlClient :=
  (send (tun_set (markClosed CauseClosed sc) loc c) (mkMessage MsgStreamClose x00 (sc_connID sc) [])).1.

(** What a goroutine that has the connection does with it. *)
Inductive tun_op := TunRead (n : nat) | TunWrite (p : list byte) | TunCloseWrite | TunClose.

Definition tun_apply (c : CtrlClient) (loc : nat) (op : tun_op) : option CtrlClient :=
  sc ← c_dheap c !! loc;
  Some (match op with
        | TunRead n => tun_set (Read sc n).1 loc c
        | TunWrite p => (tun_Write c sc p).1
        | TunCloseWrite => (tun_CloseWrite c loc sc).1
        | TunClose => tun_Close c loc sc
        end).

(** ** The machine *)

(** Where [serveChain] stands: at the condition of its loop, not before [next];
    about to dial over the session [l] of the dialer; in the wait of
    [DialIntranet]; in [Bridge], over the tunnelled connection [loc]; returned,
    after a bridge or without one. *)
Inductive gphase :=
  | GWait (deadline next : Z)
  | GDialing (l : nat)
  | GAwait (l : nat) (connID : Z) (loc ch : nat)
  | GBridging (l loc : nat) (b : bridge)
  | GEnd (b : option bridge).

(** The dialer and its sessions belong to other goroutines. [g_closed]: the
    user's connection was closed by the gateway itself. *)
Record gateway := mkGateway {
  g_route : ChainRoute;
  g_conf : dialer_conf;
  g_dialer : dialer;
  g_clients : list CtrlClient;
  g_phase : gphase;
  g_closed : bool;
}.

Definition set_gphase (ph : gphase) (g : gateway) : gateway :=
  mkGateway (g_route g) (g_conf g) (g_dialer g) (g_clients g) ph (g_closed g).
Definition set_gclient (l : nat) (c : CtrlClient) (g : gateway) : gateway :=
  mkGateway (g_route g) (g_conf g) (g_dialer g) (<[l := c]> (g_clients g)) (g_phase g) (g_closed g).
Definition return_early (g : gateway) : gateway :=
  mkGateway (g_route g) (g_conf g) (g_dialer g) (g_clients g) (GEnd None) true.

(** The tunnelled connection of the gateway, and its client. *)
Definition owns (g : gateway) : option (nat * nat) :=
  match g_phase g with GAwait l _ loc _ | GBridging l loc _ => Some (l, loc) | _ => None end.

(** [serveChain] at time [now]. *)
Definition serveChain (cr : ChainRoute) (conf : dialer_conf) (d : dialer) (clients : list CtrlClient) (now : Z) : gateway :=
  mkGateway cr conf d clients (GWait (now + 10 * second) now) false.

(** The steps of the gateway: a turn of its wait, the dial and its end (by the
    acknowledgement, or the context), what the bridge copies, its drain timer and
    its main goroutine, the deferred closes; and those of others: the dialer, the
    clients of its sessions, and the gateways of other tunnelled connections. *)
Inductive gevent :=
  | EvTurn (now : Z)
  | EvDial
  | EvDialEnd (timeout : bool)
  | EvUp (p : list byte)               (* a read of the user's connection, and the write to the tunnel *)
  | EvUpEOF
  | EvUpErr
  | EvDown (n : nat) (w : write_result) (cw : cw_result) (* a read of the tunnel, and the write to the user *)
  | EvDrain
  | EvMain
  | EvReturn
  | EvDialer (ev : devent)
  | EvClient (l : nat) (ev : cevent)
  | EvOther (l loc : nat) (op : tun_op).

Section gateway.
Context `{!ControlJson}.
Variable quote : string → string.

(** What a step of the gateway is for the bridge, with the client it leaves. *)
Definition bridge_event (ev : gevent) (b : bridge) (c : CtrlClient) (loc : nat) (sc : StreamConn)
    : option (bridge_part * CtrlClient) :=
  match ev with
  | EvUp p =>
      if bool_decide (writeChunk < length p)%nat then None
      else
        let '(c, ok) := tun_Write c sc p in Some (BStep (BCopy Fwd p (if ok then WOk else WFail 0)), c)
  | EvUpEOF =>
      let '(c, ok) := tun_CloseWrite c loc sc in Some (BStep (BEOF Fwd (if ok then CwOk else CwFail)), c)
  | EvUpErr => Some (BStep (BReadErr Fwd), c)
  | EvDown n w cw =>
      r ← read_stream Bwd n w cw b sc; Some (r.1, tun_set r.2 loc c)
  | EvDrain => Some (BStep BTimer, c)
  | EvMain => Some (BStep BMain, c)
  | _ => None
  end.

(** A step of the bridge that closes both connections closes the tunnelled one. *)
Definition bridge_step (part : bridge_part) (b : bridge) (c : CtrlClient) (loc : nat) (sc : StreamConn)
    : option (bridge * CtrlClient) :=
  match part_step Bwd part b with
  | Some (b, closes) => Some (b, if closes then tun_Close c loc sc else c)
  | None => None
  end.

Definition gapply (g : gateway) (ev : gevent) : option gateway :=
  match ev, g_phase g with
  | EvDialer ev, _ =>
      d ← dapply (g_conf g) (g_dialer g) ev;
      Some (mkGateway (g_route g) (g_conf g) d (g_clients g) (g_phase g) (g_closed g))
  | EvClient l ev, _ => c ← g_clients g !! l; c ← capply quote c ev; Some (set_gclient l c g)
  | EvOther l loc op, _ =>
      if decide (owns g = Some (l, loc)) then None
      else c ← g_clients g !! l; c ← tun_apply c loc op; Some (set_gclient l c g)
  | EvTurn now, GWait deadline next =>
      if now <? next then None
      else if now <? deadline then
        match d_client (g_dialer g) with
        | Some l => Some (set_gphase (GDialing l) g)
        | None => Some (set_gphase (GWait deadline (now + 50 * ms)) g)
        end
      else Some (return_early g)
  | EvDial, GDialing l =>
      c ← g_clients g !! l;
      match DialIntranet_begin c (cr_Identity (g_route g)) (cr_StreamId (g_route g)) with
      | (c', Ok (connID, loc)) => Some (set_gphase (GAwait l connID loc (length (c_chans c))) (set_gclient l c' g))
      | (c', Err _) => Some (return_early (set_gclient l c' g))
      end
  | EvDialEnd timeout, GAwait l connID loc ch =>
      c ← g_clients g !! l;
      let finish x :=
        match x with
        | (c, Ok loc) => set_gphase (GBridging l loc (new_bridge true)) (set_gclient l c g)
        | (c, Err _) => return_early (set_gclient l c g)
        end in
      if timeout then Some (finish (DialIntranet_end c connID loc None))
      else
        match c_chans c !! ch with
        | Some (Some ack) => Some (finish (DialIntranet_end (with_dheap c (c_dheap c) (<[ch := None]> (c_chans c))) connID loc (Some ack)))
        | _ => None
        end
  | EvReturn, GBridging l loc b =>
      c ← g_clients g !! l;
      sc ← c_dheap c !! loc;
      match b_main b with
      | Returned _ =>
          Some (mkGateway (g_route g) (g_conf g) (g_dialer g) (<[l := tun_Close c loc sc]> (g_clients g)) (GEnd (Some b)) true)
      | _ => None
      end
  | ev, GBridging l loc b =>
      c ← g_clients g !! l;
      sc ← c_dheap c !! loc;
      '(part, c) ← bridge_event ev b c loc sc;
      sc ← c_dheap c !! loc;
      '(b, c) ← bridge_step part b c loc sc;
      Some (set_gphase (GBridging l loc b) (set_gclient l c g))
  | _, _ => None
  end.

Fixpoint grun (g : gateway) (evs : list gevent) : option gateway :=
  match evs with
  | [] => Some g
  | ev :: evs => gapply g ev ≫= λ g, grun g evs
  end.
End gateway.

(** * What the client does to a tunnelled connection *)

(** The payload a message brings to the dialed connection [loc]. *)
Definition incoming (loc : nat) (c : CtrlClient) (ev : cevent) : list byte :=
  match ev with
  | CRecv _ m _ => if bool_decide (Type_ m = MsgData ∧ dialConns c !! StreamID m = Some loc) then Payload m else []
  | _ => []
  end.

Definition unmapped (loc : nat) (c : CtrlClient) : Prop := ∀ id, dialConns c !! id ≠ Some loc.

(** A client in which [loc] has received at most [inc] and nothing was unsent. It
    is not registered under another number, and when the client closes it, not any
    more. *)
Record grows (loc : nat) (inc : list byte) (c c' : CtrlClient) : Prop := {
  gw_conn : ∀ sc, c_dheap c !! loc = Some sc → ∃ sc', c_dheap c' !! loc = Some sc' ∧ held inc sc sc' ∧
              (isClosed sc = false → isClosed sc' = true → unmapped loc c');
  gw_out : c_out c `prefix_of` c_out c';
  gw_dials : (loc < length (c_dheap c))%nat → ∀ id, dialConns c' !! id = Some loc → dialConns c !! id = Some loc;
}.

Lemma grows_unmapped loc inc c c' : grows loc inc c c' → (loc < length (c_dheap c))%nat → unmapped loc c → unmapped loc c'.
Proof. intros [_ _ H] Hl Hu id Hid. by apply (Hu id), H. Qed.

#[export] Instance grows_refl loc : Reflexive (grows loc []).
Proof. intros c. split; [|done|done]. intros sc Hsc. exists sc. split_and!; [done..|congruence]. Qed.

#[export] Instance grows_trans loc : Transitive (grows loc []).
Proof.
  intros a b c [H1 H2 H3] [K1 K2 K3]. split; [|by etrans|].
  - intros sc Hsc. destruct (H1 _ Hsc) as (sc1 & Hs1 & Hh & Hc). destruct (K1 _ Hs1) as (sc2 & Hs2 & Hh2 & Hc2).
    exists sc2. split_and!; [done|by etrans|]. intros Ho Hcl. destruct (isClosed sc1) eqn:E; [|by apply Hc2].
    intros id Hid. apply (Hc Ho eq_refl id), K3; [by eapply lookup_lt_Some|done].
  - intros Hlt id Hid. apply H3, K3; [done| |done]. apply lookup_lt_is_Some in Hlt as [sc Hsc].
    destruct (H1 _ Hsc) as (sc1 & Hs1 & _). by eapply lookup_lt_Some.
Qed.

(** Only the three fields matter. *)
Lemma grows_same loc c c' :
  c_dheap c' = c_dheap c → c_out c' = c_out c → dialConns c' ⊆ dialConns c → grows loc [] c c'.
Proof.
  intros H1 H2 H3. split; rewrite ?H1, ?H2; [|done|].
  - intros sc Hsc. exists sc. split_and!; [done..|congruence].
  - intros _ id Hid. by eapply lookup_weaken.
Qed.

Ltac same_fields := first [done | apply delete_subseteq].
Ltac same_client := apply grows_same; same_fields.

Lemma grows_send loc c m : grows loc [] c (send c m).1.
Proof.
  destruct (send_spec c m) as [-> | ->]; [done|]. split; [|simpl; by apply prefix_app_r|done].
  intros sc Hsc. exists sc. split_and!; [done..|congruence].
Qed.

Lemma grows_closeConn loc c id notify : grows loc [] c (closeConn c id notify).
Proof.
  unfold closeConn. destruct (conns c !! id); [|same_client].
  assert (∀ f o d, grows loc [] d (upd_opt f o d)) as Ho by (intros f [] d; same_client).
  set (c1 := with_conns _ _ _ _). set (c2 := upd _ _ _).
  assert (grows loc [] c1 c2) as H.
  { etrans; [apply (Ho close_window (connsWin c !! id))|]. etrans; [apply (Ho close_q (connsQ c !! id))|]. same_client. }
  etrans; [apply (grows_same _ _ c1); same_fields|]. etrans; [exact H|]. destruct notify; [apply grows_send|done].
Qed.

Lemma grows_run_end loc c : grows loc [] c (run_end c).
Proof.
  assert (unmapped loc (run_end c)) as Hu by (intros id; unfold run_end, closeAllConns; simpl; by rewrite lookup_empty).
  split; [|done|intros _ id Hid; by destruct (Hu id)]. intros sc Hsc. destruct (mark_all_held (map_to_list (dialConns c)) _ _ _ Hsc) as (sc' & H1 & H2).
  by exists sc'.
Qed.

Lemma grows_end loc c connID l ack : grows loc [] c (DialIntranet_end c connID l ack).1.
Proof. destruct ack as [ack|]; [simpl; destruct (cca_OK ack)|]; same_client. Qed.

Lemma grows_begin {CJ : ControlJson} loc c name sid : grows loc [] c (DialIntranet_begin c name sid).1.
Proof.
  unfold DialIntranet_begin. destruct (negb _); [done|]. destruct (_ <=? _); [done|].
  set (c1 := with_dials _ _ _ _). assert (grows loc [] c c1) as H1.
  { split; [|done|].
    - intros sc Hsc. exists sc. split_and!; [by apply lookup_app_l_Some|done|congruence].
    - intros Hlt id. simpl. by intros [[_ Heq]|[_ Hid]]%lookup_insert_Some; [lia|]. }
  pose proof (grows_send loc c1) as Hs.
  match goal with |- context [send c1 ?m] => specialize (Hs m); destruct (send c1 m) as [c2 []] end;
    simpl in *; (etrans; [exact H1|]); [exact Hs|]. etrans; [exact Hs|same_client].
Qed.

Section client.
Context {CJ : ControlJson}.
Variable quote : string → string.

Lemma grows_handleConnOpen loc c m dialed : grows loc [] c (handleConnOpen quote c m dialed).
Proof.
  unfold handleConnOpen. destruct (DecodeControl (A := ConnOpenReq) m) as [req|e]; [|done].
  set (reply := match streamIDs c !! _ with Some _ => _ | None => _ end). destruct reply as [ok reason].
  pose proof (grows_send loc c (control_message MsgConnOpenAck (mkConnOpenAck (cr_ConnID req) ok reason))) as Hs.
  destruct (send c _) as [c1 sent]; simpl in Hs. destruct ok; [|done]. simpl.
  destruct sent; (etrans; [exact Hs|same_client]).
Qed.

Lemma grows_deliver loc pick c l it c' :
  dial_deliver pick c l it = Some c' →
  grows loc (if decide (l = loc) then item_data it else []) c c'.
Proof.
  unfold dial_deliver. destruct (c_dheap c !! l) as [sc|] eqn:El.
  - destruct (deliver pick sc it) as [sc1|] eqn:Ed; [|done]. intros [= <-]. split; [|done|done]. simpl. intros sc0 Hsc0.
    destruct (decide (l = loc)) as [->|Hne].
    + assert (sc0 = sc) as -> by congruence. exists sc1. rewrite list_lookup_alter_eq, El.
      split_and!; [done|by eapply deliver_held|]. apply deliver_closed in Ed. congruence.
    + exists sc0. rewrite list_lookup_alter_ne by done. split_and!; [done..|congruence].
  - intros [= <-]. split; [|done|done]. intros sc Hsc. destruct (decide (l = loc)) as [->|]; [congruence|].
    exists sc. split_and!; [done..|congruence].
Qed.

Lemma grows_run_msg loc pick c m dialed c' :
  run_msg quote pick c m dialed = Some c' → grows loc (incoming loc c (CRecv pick m dialed)) c c'.
Proof.
  unfold run_msg, incoming. case_bool_decide as Ho.
  { intros [= <-]. rewrite bool_decide_false by (intros [Hm _]; by rewrite Ho in Hm). apply grows_handleConnOpen. }
  case_bool_decide as Hd.
  { destruct (dialConns c !! _) as [l|] eqn:El.
    - intros H%(grows_deliver loc). simpl in H. destruct (decide (l = loc)) as [->|Hne].
      + by rewrite bool_decide_true.
      + rewrite bool_decide_false; [done|]. intros [_ ?]. congruence.
    - rewrite bool_decide_false by (by intros [_ ?]). destruct (connsQ c !! _); intros [= <-]; [same_client|done]. }
  rewrite (bool_decide_false (Type_ m = MsgData ∧ _)) by (by intros [? _]). case_bool_decide.
  { destruct (dialConns c !! _) as [l|].
    - destruct (dial_deliver pick c l _) as [c1|] eqn:E; [|done]. intros [= <-].
      apply (grows_deliver loc) in E. unfold item_data in E. simpl in E.
      assert (fi : (if decide (l = loc) then if negb (IsHalfClose m) || IsHalfClose m then [] else [] else []) = ([] : list byte))
        by (by destruct (decide _), (IsHalfClose m)).
      rewrite fi in E. etrans; [exact E|same_client].
    - intros [= <-]. destruct (IsHalfClose m); [|apply grows_closeConn]. unfold halfCloseConn.
      destruct (connsQ c !! _); [same_client|done]. }
  case_bool_decide.
  { pose proof (grows_send loc c (mkMessage MsgPong x00 (StreamID m) (Payload m))) as Hs.
    destruct (send c _) as [c1 []]; simpl in Hs; intros [= <-]; [done|]. etrans; [exact Hs|apply grows_run_end]. }
  case_bool_decide.
  { destruct (DecodeControl (A := WindowUpdate) m) as [wu|]; intros [= <-]; [|done].
    destruct (connsWin c !! _); [same_client|done]. }
  case_bool_decide; [|by intros [= <-]].
  destruct (DecodeControl (A := ClientConnAck) m) as [ack|]; intros [= <-]; [|done].
  destruct (dialAcks c !! _); same_client.
Qed.

(** Whatever the client does, a tunnelled connection only receives. *)
Lemma grows_capply loc c ev c' : capply quote c ev = Some c' → grows loc (incoming loc c ev) c c'.
Proof.
  intros Ha.
  assert (∀ l k p c1, grows loc [] c1 (uplink_send c1 l k p)) as Hup.
  { intros l k p c1. unfold uplink_send, SendData. pose proof (grows_send loc c1 (mkMessage MsgData x00 (lc_id k) p)) as Hs.
    destruct (send c1 _) as [c2 []]; simpl in Hs; [done|]. etrans; [exact Hs|].
    etrans; [apply grows_closeConn|same_client]. }
  destruct ev; simpl in Ha; cbn [incoming].
  - destruct (c_loop c); try done. by eapply grows_run_msg.
  - destruct (c_loop c) as [|l it| |]; try done. destruct (c_heap c !! l); [|done].
    destruct (lc_qclosed _); [injection Ha as <-; same_client|]. case_bool_decide; simplify_eq; same_client.
  - destruct (c_loop c); try done. injection Ha as <-. apply grows_run_end.
  - injection Ha as <-. same_client.
  - apply bind_Some in Ha as (k & _ & Ha). unfold pump in Ha. destruct (lc_pump k); [|done]. simpl in Ha.
    destruct (lc_q k) as [|[p|] q]; [destruct (lc_qclosed k); [|done]|destruct (ok && _)|]; injection Ha as <-;
      try same_client.
    + etrans; [|apply grows_send]. same_client.
    + etrans; [|apply (grows_same _ (closeConn (upd (set_q q) l c) (lc_id k) true)); same_fields].
      etrans; [|apply grows_closeConn]. same_client.
  - apply bind_Some in Ha as (k & _ & Ha). destruct (lc_up k); simplify_eq. same_client.
  - apply bind_Some in Ha as (k & _ & Ha). destruct (lc_up k) as [|win|]; try done. destruct (_ || _); [done|].
    unfold uplink_data in Ha. destruct (win ≫= _) as [[lw w]|]; [|injection Ha as <-; apply Hup].
    destruct (closed w); [injection Ha as <-; same_client|].
    destruct (acquire_now _ _ _); [|destruct (c_closed c); simplify_eq; same_client].
    injection Ha as <-. etrans; [|apply Hup]. same_client.
  - apply bind_Some in Ha as (k & _ & Ha). destruct (lc_up k); try done. destruct (local_closed k); simplify_eq.
    etrans; [apply grows_send|same_client].
  - apply bind_Some in Ha as (k & _ & Ha). destruct (lc_up k); simplify_eq. etrans; [apply grows_closeConn|same_client].
  - injection Ha as <-. apply grows_begin.
  - destruct timeout; [injection Ha as <-; apply (grows_end _ _ _ l None)|].
    destruct (c_chans c !! _) as [[a|]|]; try done. injection Ha as <-.
    etrans; [|apply (grows_end _ _ connID l (Some a))]. same_client.
Qed.
End client.

(** * What the gateway does to the tunnelled connection *)

Lemma grows_tun_set loc c sc sc0 :
  c_dheap c !! loc = Some sc0 → held [] sc0 sc → isClosed sc = isClosed sc0 → grows loc [] c (tun_set sc loc c).
Proof.
  intros Hl Hh Hc. split; [|done|done]. intros sc1 Hsc1. assert (sc1 = sc0) as -> by congruence. exists sc. simpl.
  rewrite list_lookup_insert_eq by (by eapply lookup_lt_Some). split_and!; [done..|congruence].
Qed.

(** The gateway's own [Close]. *)
Lemma tun_Close_spec loc c sc :
  c_dheap c !! loc = Some sc →
  c_dheap (tun_Close c loc sc) !! loc = Some (markClosed CauseClosed sc) ∧ c_out c `prefix_of` c_out (tun_Close c loc sc).
Proof.
  intros Hl. unfold tun_Close. set (c1 := tun_set _ _ _).
  assert (c_dheap c1 !! loc = Some (markClosed CauseClosed sc)) as H1.
  { simpl. by rewrite list_lookup_insert_eq by (by eapply lookup_lt_Some). }
  destruct (send_spec c1 (mkMessage MsgStreamClose x00 (sc_connID sc) [])) as [-> | ->]; [done|].
  split; [done|]. simpl. by apply prefix_app_r.
Qed.

Lemma grows_tun_CloseWrite loc c sc :
  c_dheap c !! loc = Some sc → grows loc [] c (tun_CloseWrite c loc sc).1.
Proof.
  intros Hl. unfold tun_CloseWrite. destruct (sc_writeHalf sc); [done|]. etrans; [|apply grows_send].
  eapply grows_tun_set; [done| |done]. split; try done. exists []. by rewrite app_nil_r.
Qed.

(** A write of one chunk is one frame, or nothing. *)
Lemma tun_Write_frame c sc p :
  (length p ≤ writeChunk)%nat →
  tun_Write c sc p = (c, false) ∨ p = [] ∧ tun_Write c sc p = (c, true) ∨
  isClosed sc = false ∧ tun_Write c sc p = (with_link c true (c_closed c) (c_out c ++ [data_frame (sc_connID sc) p]), true).
Proof.
  intros Hl. unfold tun_Write. destruct (isClosed sc); [by left|]. destruct p as [|x p]; [right; by left|].
  assert (take writeChunk (x :: p) = x :: p) as Ht by (by apply take_ge).
  assert (drop writeChunk (x :: p) = []) as Hd by (by apply drop_ge).
  set (q := x :: p) in *. assert (tun_write_loop (length q) c (sc_connID sc) q =
    let '(c, sent) := send c (data_frame (sc_connID sc) q) in if sent then (c, true) else (c, false)) as ->.
  { change (length q) with (S (length p)). unfold q at 1. cbn [tun_write_loop]. fold q. rewrite Ht, Hd.
    destruct (send _ _) as [c1 []]; [|done]. by destruct (length p). }
  destruct (send_spec c (data_frame (sc_connID sc) q)) as [-> | ->]; [by left|by right; right].
Qed.

(** A connection that is another's. *)
Lemma grows_tun_set_ne loc loc' c sc : loc ≠ loc' → grows loc [] c (tun_set sc loc' c).
Proof.
  intros Hne. split; [|done|done]. intros sc1 Hsc1. exists sc1. simpl. rewrite list_lookup_insert_ne by done.
  split_and!; [done..|congruence].
Qed.

Lemma grows_write_loop loc fuel c id p : grows loc [] c (tun_write_loop fuel c id p).1.
Proof.
  revert c p. induction fuel as [|fuel IH]; intros c [|x p]; try done. cbn [tun_write_loop]. set (q := x :: p).
  pose proof (grows_send loc c (data_frame id (take writeChunk q))) as Hs.
  destruct (send c _) as [c1 []]; simpl in Hs; [|done]. etrans; [exact Hs|apply IH].
Qed.

Lemma grows_tun_apply loc loc' c op c' : loc ≠ loc' → tun_apply c loc' op = Some c' → grows loc [] c c'.
Proof.
  intros Hne Ha. apply bind_Some in Ha as (sc & Hsc & [= <-]). destruct op.
  - by apply grows_tun_set_ne.
  - unfold tun_Write. destruct (isClosed sc); [done|]. apply grows_write_loop.
  - unfold tun_CloseWrite. destruct (sc_writeHalf sc); [done|]. etrans; [|apply grows_send]. by apply grows_tun_set_ne.
  - unfold tun_Close. etrans; [|apply grows_send]. by apply grows_tun_set_ne.
Qed.

(** * The invariant *)

(** The bytes the frames of a log carry for a connection. *)
Definition framed (connID : Z) (ps : list (list byte)) : list Message := data_frame connID <$> ps.

(** The gateway over the tunnelled connection [loc] of the client [c] to which
    [inn] was delivered so far. *)
Record bridged (inn : list byte) (loc : nat) (b : bridge) (c : CtrlClient) (sc : StreamConn) : Prop := {
  br_over : over_stream Bwd inn (unmapped loc c) b sc;
  br_up : ∃ ps, concat ps = bc_written (b_conn b Bwd) ∧ framed (sc_connID sc) ps `sublist_of` c_out c;
}.

(** The log grows. *)
Lemma br_up_grows id bs out out' :
  (∃ ps, concat ps = bs ∧ framed id ps `sublist_of` out) → out `prefix_of` out' →
  ∃ ps, concat ps = bs ∧ framed id ps `sublist_of` out'.
Proof. intros (ps & H5 & H6) [r ->]. exists ps. split; [done|by apply sublist_inserts_r]. Qed.

Lemma bridged_grows inn inc loc b c c' sc :
  bridged inn loc b c sc → c_dheap c !! loc = Some sc → grows loc inc c c' → (unmapped loc c → inc = []) →
  ∃ sc', c_dheap c' !! loc = Some sc' ∧ sc_connID sc' = sc_connID sc ∧ bridged (inn ++ inc) loc b c' sc'.
Proof.
  intros [Hos Hup] Hl Hgr Hinc. pose proof Hgr as [Hg Ho Hd].
  destruct (Hg _ Hl) as (sc' & Hl' & Hh & Kc). exists sc'. split_and!; [done|apply Hh|]. split.
  - eapply over_stream_grows; [done..| |done]. intros Hu. eapply grows_unmapped; [done| |done]. by eapply lookup_lt_Some.
  - rewrite (hd_id _ _ _ Hh). by eapply br_up_grows.
Qed.

Lemma bridged_step inn loc ev b c sc part c1 sc1 b2 c2 :
  bridged inn loc b c sc → c_dheap c !! loc = Some sc →
  bridge_event ev b c loc sc = Some (part, c1) → c_dheap c1 !! loc = Some sc1 → bridge_step part b c1 loc sc1 = Some (b2, c2) →
  ∃ sc2, c_dheap c2 !! loc = Some sc2 ∧ sc_connID sc2 = sc_connID sc ∧ bridged inn loc b2 c2 sc2.
Proof.
  intros Hb Hl He Hl1 Hs. pose proof Hb as [Hos Hup]. unfold bridge_step in Hs.
  destruct (part_step Bwd part b) as [[b1 cl]|] eqn:Hp; [|done]. injection Hs as <- <-.
  assert (∀ bev, bapply b bev = Some b1 → binv b1) as Hinv by (intros; eapply bapply_inv; [apply Hos|done]).
  assert (∀ bev, part = BStep bev → bapply b bev = Some b1 ∧ cl = closing bev b1) as Hev.
  { intros bev ->. simpl in Hp. by apply bind_Some in Hp as (b' & Ha & [= <- <-]). }
  destruct ev; simpl in He; try done.
  - (* a write to the tunnel *)
    case_bool_decide as Hlen; [done|]. destruct (tun_Write_frame c sc p) as [Hw|[[-> Hw]|[Hc Hw]]]; [lia|..]; rewrite Hw in He;
      injection He as <- <-; destruct (Hev _ eq_refl) as [Ha ->]; cbn [closing].
    + pose proof (bapply_side Bwd _ _ _ Ha ltac:(done) ltac:(by intros ?? [= _ <-])) as Hts.
      exists sc. split_and!; [done..|]. split; [by eapply over_stream_quiet; [|by eapply Hinv|]|].
      by rewrite (ss_written _ _ _ _ _ _ Hts), app_nil_r.
    + simpl in Ha. by rewrite orb_true_r in Ha.
    + pose proof (bapply_side Bwd _ _ _ Ha ltac:(done) ltac:(done)) as Hts. exists sc. split_and!; [done..|].
      split; [by eapply over_stream_quiet; [|by eapply Hinv|]|]. rewrite (ss_written _ _ _ _ _ _ Hts). simpl.
      destruct Hup as (ps & H5 & H6). exists (ps ++ [p]). split.
      * rewrite concat_app, H5. simpl. by rewrite app_nil_r.
      * unfold framed. rewrite fmap_app. simpl. by apply sublist_app.
  - (* the end of the user's input *)
    destruct (tun_CloseWrite c loc sc) as [c0 ok] eqn:Ew. injection He as <- <-. destruct (Hev _ eq_refl) as [Ha ->]. cbn [closing].
    pose proof (grows_tun_CloseWrite loc c sc Hl) as Hg. rewrite Ew in Hg. cbn [fst] in Hg.
    destruct (bridged_grows _ _ _ _ _ _ _ Hb Hl Hg ltac:(done)) as (sc' & Hl' & Hid & [Hos' Hup']). rewrite app_nil_r in Hos'.
    pose proof (bapply_side Bwd _ _ _ Ha ltac:(done) ltac:(done)) as Hts.
    exists sc'. split_and!; [done..|]. split; [by eapply over_stream_quiet; [|by eapply Hinv|]|].
    by rewrite (ss_written _ _ _ _ _ _ Hts), app_nil_r.
  - injection He as <- <-. destruct (Hev _ eq_refl) as [Ha ->]. cbn [closing].
    pose proof (bapply_side Bwd _ _ _ Ha ltac:(done) ltac:(done)) as Hts. exists sc. split_and!; [done..|].
    split; [by eapply over_stream_quiet; [|by eapply Hinv|]|]. by rewrite (ss_written _ _ _ _ _ _ Hts), app_nil_r.
  - (* a read of the tunnel *)
    apply bind_Some in He as ([part' sc'] & Hr & [= <- <-]).
    destruct (over_stream_read _ _ _ _ _ _ _ _ _ _ _ _ Hos Hr Hp) as (Ho & -> & Hid & Hw). exists sc'.
    assert (c_dheap (tun_set sc' loc c) !! loc = Some sc') as Hl'.
    { simpl. by rewrite list_lookup_insert_eq by (by eapply lookup_lt_Some). }
    split_and!; [done..|]. split; [done|]. by rewrite Hw, Hid.
  - (* the drain timer *)
    injection He as <- <-. destruct (Hev _ eq_refl) as [Ha ->]. assert (sc1 = sc) as -> by congruence. cbn [closing].
    destruct (tun_Close_spec loc c sc Hl) as [Hl' Ho]. exists (markClosed CauseClosed sc). split; [done|].
    assert (sc_connID (markClosed CauseClosed sc) = sc_connID sc) as Hid by apply markClosed_connID. split; [done|].
    edestruct (over_stream_close _ _ _ (unmapped loc (tun_Close c loc sc)) _ _ _ _ (markClosed CauseClosed sc) Hos Ha) as [K1 K2]; [by left|done|].
    split; [done|]. rewrite K2, Hid. by eapply br_up_grows.
  - (* the main goroutine *)
    injection He as <- <-. destruct (Hev _ eq_refl) as [Ha ->]. assert (sc1 = sc) as -> by congruence.
    destruct (closing BMain b1) eqn:Hcl.
    + destruct (tun_Close_spec loc c sc Hl) as [Hl' Ho]. exists (markClosed CauseClosed sc). split; [done|].
      assert (sc_connID (markClosed CauseClosed sc) = sc_connID sc) as Hid by apply markClosed_connID. split; [done|].
      edestruct (over_stream_close _ _ _ (unmapped loc (tun_Close c loc sc)) _ _ _ _ (markClosed CauseClosed sc) Hos Ha) as [K1 K2]; [by right|done|].
      split; [done|]. rewrite K2, Hid. by eapply br_up_grows.
    + pose proof (bapply_side Bwd _ _ _ Ha ltac:(done) ltac:(done)) as Hts. rewrite Hcl in Hts. exists sc. split_and!; [done..|].
      split; [by eapply over_stream_quiet; [|by eapply Hinv|]|]. by rewrite (ss_written _ _ _ _ _ _ Hts), app_nil_r.
Qed.

(** * The life of the gateway *)

Definition ginv (inn : list byte) (g : gateway) : Prop :=
  match g_phase g with
  | GWait _ _ | GDialing _ => g_closed g = false ∧ inn = []
  | GAwait l connID loc _ => g_closed g = false ∧
      ∃ c sc, g_clients g !! l = Some c ∧ c_dheap c !! loc = Some sc ∧ sc_connID sc = connID ∧
        bridged inn loc (new_bridge true) c sc
  | GBridging l loc b => g_closed g = false ∧
      ∃ c sc, g_clients g !! l = Some c ∧ c_dheap c !! loc = Some sc ∧ bridged inn loc b c sc
  | GEnd None => g_closed g = true
  | GEnd (Some b) => g_closed g = true ∧ binv b ∧ (∃ e, b_main b = Returned e) ∧ bc_read (b_conn b Bwd) `prefix_of` inn ∧
      ∃ l c connID ps, g_clients g !! l = Some c ∧ concat ps = bc_written (b_conn b Bwd) ∧ framed connID ps `sublist_of` c_out c
  end.

(** What a step brings to the tunnelled connection of the gateway. *)
Definition gincoming (g : gateway) (ev : gevent) : list byte :=
  match ev, g_phase g with
  | EvClient l ev, (GAwait l' _ loc _ | GBridging l' loc _) =>
      if decide (l = l') then match g_clients g !! l with Some c => incoming loc c ev | None => [] end else []
  | _, _ => []
  end.

Section life.
Context {CJ : ControlJson}.
Variable quote : string → string.

Fixpoint delivered (g : gateway) (evs : list gevent) : list byte :=
  match evs with
  | [] => []
  | ev :: evs => gincoming g ev ++ match gapply quote g ev with Some g => delivered g evs | None => [] end
  end.

Lemma incoming_unmapped loc c ev : unmapped loc c → incoming loc c ev = [].
Proof. intros Hu. destruct ev; try done. simpl. case_bool_decide as H; [|done]. destruct H as [_ H]. by destruct (Hu (StreamID m)). Qed.

Lemma clients_set l c g : is_Some (g_clients g !! l) → g_clients (set_gclient l c g) !! l = Some c.
Proof. intros H. simpl. rewrite list_lookup_insert_eq; [done|by apply lookup_lt_is_Some]. Qed.

(** A client moves, and with it the connection of the gateway. *)
Lemma ginv_moves inn inc g l c c' :
  ginv inn g → g_clients g !! l = Some c → c_out c `prefix_of` c_out c' →
  (∀ loc, owns g = Some (l, loc) → grows loc inc c c' ∧ (unmapped loc c → inc = [])) →
  ((∀ loc, owns g ≠ Some (l, loc)) → inc = []) → ginv (inn ++ inc) (set_gclient l c' g).
Proof.
  intros Hi Hc Ho Hg Hn. unfold ginv, owns in *. simpl.
  assert (∀ l' c0, g_clients g !! l' = Some c0 → l ≠ l' → <[l := c']> (g_clients g) !! l' = Some c0) as Hne
    by (intros; by rewrite list_lookup_insert_ne).
  pose proof (clients_set l c' g ltac:(by eexists)) as Hset. simpl in Hset.
  assert (∀ l' loc b,
    (l = l' → grows loc inc c c' ∧ (unmapped loc c → inc = [])) → (l ≠ l' → inc = []) →
    ∀ c0 sc, g_clients g !! l' = Some c0 → c_dheap c0 !! loc = Some sc → bridged inn loc b c0 sc →
    ∃ c1 sc1, <[l := c']> (g_clients g) !! l' = Some c1 ∧ c_dheap c1 !! loc = Some sc1 ∧ sc_connID sc1 = sc_connID sc ∧
      bridged (inn ++ inc) loc b c1 sc1) as Hown.
  { intros l' loc b Heq Hinc c0 sc Hc0 Hsc Hb. destruct (decide (l = l')) as [<-|Hne'].
    - assert (c0 = c) as -> by congruence. destruct (Heq eq_refl) as [Hgr Hun].
      destruct (bridged_grows _ _ _ _ _ _ _ Hb Hsc Hgr Hun) as (sc' & K1 & K2 & K3). by exists c', sc'.
    - rewrite Hinc, app_nil_r by done. exists c0, sc. split_and!; [by apply Hne|done..]. }
  destruct (g_phase g) as [|l'|l' connID loc ch|l' loc b|[b|]].
  - by rewrite Hn, app_nil_r.
  - by rewrite Hn, app_nil_r.
  - destruct Hi as (Hcl & c0 & sc & Hc0 & Hsc & Hid & Hb). split; [done|].
    destruct (Hown l' loc (new_bridge true)) with (c0 := c0) (sc := sc) as (c1 & sc1 & K1 & K2 & K3 & K4); try done; [by intros <-; apply Hg| |].
    { intros Hnl. apply Hn. intros ? [= ? _]. congruence. }
    exists c1, sc1. split_and!; [done..|congruence|done].
  - destruct Hi as (Hcl & c0 & sc & Hc0 & Hsc & Hb). split; [done|].
    destruct (Hown l' loc b) with (c0 := c0) (sc := sc) as (c1 & sc1 & K1 & K2 & K3 & K4); try done; [by intros <-; apply Hg| |by exists c1, sc1].
    intros Hnl. apply Hn. intros ? [= ? _]. congruence.
  - rewrite Hn, app_nil_r by done. destruct Hi as (? & ? & ? & ? & l' & c0 & id & ps & Hc0 & Hp & Hs). split_and!; [done..|].
    destruct (decide (l = l')) as [<-|Hnl]; [|exists l', c0, id, ps; split_and!; [by apply Hne|done..]].
    assert (c0 = c) as -> by congruence. exists l, c', id, ps. split_and!; [done..|].
    destruct Ho as [r ->]. by apply sublist_inserts_r.
  - done.
Qed.

(** The steps of others. *)
Definition others (ev : gevent) : Prop := match ev with EvClient _ _ | EvOther _ _ _ => True | _ => False end.

Lemma ginv_others inn g ev g' :
  ginv inn g → others ev → gapply quote g ev = Some g' → ginv (inn ++ gincoming g ev) g'.
Proof.
  intros Hi Hot Ha. destruct ev as [| | | | | | | | | | |l ev|l loc op]; try done.
  - assert (∃ c c', g_clients g !! l = Some c ∧ capply quote c ev = Some c' ∧ g' = set_gclient l c' g) as (c & c' & Hc & Hca & ->).
    { simpl in Ha. destruct (g_phase g); apply bind_Some in Ha as (c & Hc & (c' & Hca & [= <-])%bind_Some); by exists c, c'. }
    apply (ginv_moves _ _ _ _ c); [done|done|by apply (gw_out 0 (incoming 0 c ev)), (grows_capply quote)| |].
    + unfold owns, gincoming. intros loc. rewrite Hc.
      destruct (g_phase g); try done; intros [= -> ->]; rewrite decide_True by done;
        (split; [by apply (grows_capply quote)|apply incoming_unmapped]).
    + unfold owns, gincoming. intros Hno.
      destruct (g_phase g); try done; rewrite decide_False; try done; intros <-; by destruct (Hno loc).
  - assert (∃ c c', g_clients g !! l = Some c ∧ owns g ≠ Some (l, loc) ∧ tun_apply c loc op = Some c' ∧ g' = set_gclient l c' g)
      as (c & c' & Hc & Hno & Hca & ->).
    { simpl in Ha. destruct (g_phase g); destruct (decide _); try done;
        apply bind_Some in Ha as (c & Hc & (c' & Hca & [= <-])%bind_Some); by exists c, c'. }
    apply (ginv_moves _ _ _ _ c); [done|done|by apply (gw_out (S loc) []), (grows_tun_apply _ _ _ _ _ (Nat.neq_succ_diag_l loc) Hca)| |done].
    intros loc' Hown. split; [|done]. eapply grows_tun_apply; [|exact Hca]. intros ->. done.
Qed.

Lemma dial_started c name sid c' connID loc :
  DialIntranet_begin c name sid = (c', Ok (connID, loc)) →
  c_dheap c' !! loc = Some (newStreamConn connID) ∧ bridged [] loc (new_bridge true) c' (newStreamConn connID).
Proof.
  unfold DialIntranet_begin. destruct (negb _); [done|]. destruct (_ <=? _); [done|]. set (c1 := with_dials _ _ _ _).
  match goal with |- context [send c1 ?m] => destruct (send_spec c1 m) as [-> | ->] end; intros [= <- <- <-].
  split; [simpl; by apply list_lookup_middle|]. split; [apply over_stream_new|].
  exists []. split; [done|apply sublist_nil_l].
Qed.

(** A step in the bridge, which is none of the client's. *)
Lemma ginv_bridging inn g l loc b ev g' :
  ginv inn g → g_phase g = GBridging l loc b → ¬ others ev → gapply quote g ev = Some g' → ginv inn g'.
Proof.
  intros Hi Hph Hnc Ha. unfold ginv in Hi. rewrite Hph in Hi. destruct Hi as (Hcl & c & sc & Hc & Hsc & Hb).
  assert (∀ part c1 sc1 b2 c2, bridge_event ev b c loc sc = Some (part, c1) → c_dheap c1 !! loc = Some sc1 →
    bridge_step part b c1 loc sc1 = Some (b2, c2) → ginv inn (set_gphase (GBridging l loc b2) (set_gclient l c2 g))) as Hstep.
  { intros part c1 sc1 b2 c2 H1 H2 H3. destruct (bridged_step _ _ _ _ _ _ _ _ _ _ _ Hb Hsc H1 H2 H3) as (sc2 & K1 & K2 & K3).
    unfold ginv. simpl. split; [done|]. exists c2, sc2. split_and!; [|done..].
    rewrite list_lookup_insert_eq; [done|by eapply lookup_lt_Some]. }
  destruct ev; try (by destruct Hnc); cbn [gapply] in Ha; rewrite Hph in Ha; rewrite ?Hc in Ha; cbn [mbind option_bind] in Ha;
    rewrite ?Hsc in Ha; cbn [mbind option_bind] in Ha; try done.
  all: try (apply bind_Some in Ha as ([part c1] & H1 & (sc1 & H2 & ([b2 c2] & H3 & [= <-])%bind_Some)%bind_Some); by eapply Hstep).
  - destruct (b_main b) eqn:Em; try done. injection Ha as <-. unfold ginv. simpl.
    destruct Hb as [[H1 _ H3 _] (ps & H5 & H6)]. destruct (tun_Close_spec loc c sc Hsc) as [_ [r Ho]].
    split_and!; [done|done|by eexists|done|]. exists l, (tun_Close c loc sc), (sc_connID sc), ps. split_and!; [|done|].
    + rewrite list_lookup_insert_eq; [done|by eapply lookup_lt_Some].
    + rewrite Ho. by apply sublist_inserts_r.
  - apply bind_Some in Ha as (d & _ & [= <-]). unfold ginv. simpl. split; [done|]. by exists c, sc.
Qed.

Lemma ginv_step inn g ev g' :
  ginv inn g → gapply quote g ev = Some g' → ginv (inn ++ gincoming g ev) g'.
Proof.
  intros Hi Ha. assert (others ev ∨ ¬ others ev) as [Hot|Hn] by (destruct ev; simpl; by auto).
  { by eapply ginv_others. }
  assert (gincoming g ev = []) as Hg0 by (destruct ev; try done; by destruct Hn).
  rewrite Hg0, app_nil_r. destruct (g_phase g) as [dl nx|l|l connID loc ch|l loc b|r] eqn:Hph.
  4: by eapply ginv_bridging.
  all: destruct ev; try (by destruct Hn); cbn [gapply] in Ha; rewrite Hph in Ha; try done.
  all: try (apply bind_Some in Ha as (d & _ & [= <-]); unfold ginv in *; simpl; rewrite Hph in Hi; exact Hi).
  - unfold ginv in Hi. rewrite Hph in Hi. destruct (_ <? _); [done|]. destruct (_ <? _); [|by injection Ha as <-].
    destruct (d_client _); injection Ha as <-; unfold ginv; simpl; done.
  - unfold ginv in Hi. rewrite Hph in Hi. destruct Hi as [Hcl ->]. apply bind_Some in Ha as (c & Hc & Ha).
    destruct (DialIntranet_begin c _ _) as [c' [[connID loc]|e]] eqn:Ed; injection Ha as <-; [|done].
    destruct (dial_started _ _ _ _ _ _ Ed) as [H1 H2]. unfold ginv. simpl. split; [done|]. exists c', (newStreamConn connID).
    split_and!; try done. rewrite list_lookup_insert_eq; [done|by eapply lookup_lt_Some].
  - unfold ginv in Hi. rewrite Hph in Hi. destruct Hi as (Hcl & c & sc & Hc & Hsc & Hid & Hb).
    apply bind_Some in Ha as (c0 & Hc0 & Ha). assert (c0 = c) as -> by congruence.
    assert (∀ c1 ack, grows loc [] c c1 → ginv inn
      match DialIntranet_end c1 connID loc ack with
      | (c, Ok loc) => set_gphase (GBridging l loc (new_bridge true)) (set_gclient l c g)
      | (c, Err _) => return_early (set_gclient l c g)
      end) as Hend.
    { intros c1 ack Hg. pose proof (grows_end loc c1 connID loc ack) as Hg2.
      assert (∀ c2, grows loc [] c1 c2 → ginv inn (set_gphase (GBridging l loc (new_bridge true)) (set_gclient l c2 g))) as Hok.
      { intros c2 Hg3. destruct (bridged_grows _ _ _ _ _ c2 _ Hb Hsc ltac:(by etrans) ltac:(done)) as (sc' & K1 & _ & K3).
        rewrite app_nil_r in K3. unfold ginv. simpl. split; [done|]. exists c2, sc'. split_and!; try done.
        rewrite list_lookup_insert_eq; [done|by eapply lookup_lt_Some]. }
      destruct ack as [ack|]; simpl in *; [destruct (cca_OK ack); [by apply Hok|done]|done]. }
    destruct timeout; [injection Ha as <-; exact (Hend c None (grows_refl loc c))|]. destruct (c_chans c !! ch) as [[ack|]|]; try done.
    injection Ha as <-. refine (Hend _ (Some ack) _). same_client.
Qed.

Lemma grun_ginv evs inn g g' : ginv inn g → grun quote g evs = Some g' → ginv (inn ++ delivered g evs) g'.
Proof.
  revert inn g. induction evs as [|ev evs IH]; intros inn g Hi Hr; simpl in *.
  { injection Hr as <-. by rewrite app_nil_r. }
  destruct (gapply quote g ev) as [g1|] eqn:Ha; [|done]. simpl in Hr. rewrite app_assoc. eapply IH; [|done].
  by eapply ginv_step.
Qed.

(** The turns of the wait. *)
Definition is_turn (ev : gevent) : Prop := match ev with EvTurn _ => True | _ => False end.
#[export] Instance is_turn_dec ev : Decision (is_turn ev).
Proof. destruct ev; simpl; apply _. Defined.

Definition turns (evs : list gevent) : Z := Z.of_nat (length (filter is_turn evs)).

(** How long the gateway has waited, in turns. *)
Definition waiting (t0 n : Z) (g : gateway) : Prop :=
  match g_phase g with
  | GWait deadline next => deadline = t0 + 10 * second ∧ t0 + n * (50 * ms) ≤ next ∧ (n = 0 ∨ next < deadline + 50 * ms)
  | _ => True
  end.

Lemma gapply_waiting t0 n g ev g' :
  waiting t0 n g → 0 ≤ n → gapply quote g ev = Some g' → waiting t0 (n + turns [ev]) g'.
Proof.
  intros Hw Hn Ha. unfold turns. rewrite filter_cons. simpl (filter _ []).
  unfold waiting in *. destruct (g_phase g) as [dl nx|l|l connID loc ch|l loc b|r] eqn:Hph.
  1: { destruct ev; cbn [gapply] in Ha; rewrite ?Hph in Ha; try done.
    - destruct (Z.ltb_spec now nx); [done|]. destruct (Z.ltb_spec now dl); [|by injection Ha as <-].
      destruct (d_client _); injection Ha as <-; [done|]. simpl. destruct Hw as (-> & ? & _). unfold ms in *. split_and!; lia.
    - apply bind_Some in Ha as (d & _ & [= <-]). simpl. by rewrite Z.add_0_r.
    - apply bind_Some in Ha as (c & _ & (c' & _ & [= <-])%bind_Some). simpl. by rewrite Hph, Z.add_0_r.
    - destruct (decide _); [done|]. apply bind_Some in Ha as (c & _ & (c' & _ & [= <-])%bind_Some). simpl. by rewrite Hph, Z.add_0_r. }
  all: assert (∀ dl nx, g_phase g' ≠ GWait dl nx) as Hno; [|by destruct (g_phase g'); [destruct (Hno deadline next)|..]].
  all: intros dl nx Hp; destruct ev; cbn [gapply] in Ha; rewrite ?Hph in Ha; try done.
  all: repeat match goal with
    | H : (_ ≫= _) = Some _ |- _ => apply bind_Some in H as (? & _ & H)
    | H : match ?x with _ => _ end = Some _ |- _ => destruct x
    | H : Some _ = Some _ |- _ => injection H as <-
    | H : g_phase (match ?x with _ => _ end) = _ |- _ => destruct x
    end; simpl in *; congruence.
Qed.

Lemma grun_waiting t0 evs n g g' :
  waiting t0 n g → 0 ≤ n → grun quote g evs = Some g' → waiting t0 (n + turns evs) g'.
Proof.
  revert n g. induction evs as [|ev evs IH]; intros n g Hw Hn Hr; simpl in Hr.
  { injection Hr as <-. unfold turns. by rewrite Z.add_0_r. }
  apply bind_Some in Hr as (g1 & Ha & Hr). pose proof (gapply_waiting _ _ _ _ _ Hw Hn Ha) as H1.
  assert (turns (ev :: evs) = turns [ev] + turns evs) as ->.
  { unfold turns. rewrite !filter_cons. destruct (decide (is_turn ev)); simpl; lia. }
  rewrite Z.add_assoc. eapply IH; [exact H1|unfold turns; lia|done].
Qed.
End life.

(** * Construction, listening and the embedded dialers *)

Section dialers.
Context {C M L : Type}.
Implicit Types (s : ProxyServer C M L).

(** [makeServersForGroup] for a proxy listener: its chain routes, the
    specifications of the dialers they name, and the option made of them. *)
Definition listener_chain (cfg : Register.Config) (l : ListenerList) : list ChainRoute :=
  filter (λ cr, cr_ProxyName cr = ll_Name l) (ChainRoutes cfg).

Definition listener_specs (cfg : Register.Config) (chain : list ChainRoute) : gmap string DialerSpec :=
  foldl (λ m cr, match DialerSpecs cfg !! cr_Dialer cr with Some spec => <[cr_Dialer cr := spec]> m | None => m end) ∅ chain.

Definition proxy_options (cfg : Register.Config) (l : ListenerList) : list (@ProxyOption C M L) :=
  match listener_chain cfg l with
  | [] => []
  | chain => [WithChainRoutes chain (listener_specs cfg chain)]
  end.

(** The proxy server of a listener. *)
Definition make_proxy (codecs : gmap string (codec C M)) (cfg : Register.Config) (srvName : string) (l : ListenerList)
    : result Codec.codec_err (ProxyServer C M L) :=
  NewProxyServer codecs srvName l (proxy_options cfg l).

Lemma start_dialer_inv s heap x s' heap' :
  start_dialer (s, heap) x = (s', heap') →
  ps_chainRoutes s' = ps_chainRoutes s ∧
  (ps_chainDialers s !! x.1 = None ∧ ps_chainDialers s' = <[x.1 := length heap]> (ps_chainDialers s) ∧
     heap' = heap ++ [(chain_dialer (ps_chainRoutes s) x.1 x.2, dialer0)] ∨
   is_Some (ps_chainDialers s !! x.1) ∧ s' = s ∧ heap' = heap).
Proof. unfold start_dialer. destruct (_ !! x.1) eqn:E; intros [= <- <-]; eauto 10. Qed.

(** The dialers started in any order: one for each name that had none. *)
Lemma start_dialers_spec order s heap s' heap' :
  NoDup order.*1 → start_dialers order s heap = (s', heap') →
  ps_chainRoutes s' = ps_chainRoutes s ∧ heap `prefix_of` heap' ∧
  (∀ name, is_Some (ps_chainDialers s !! name) ∨ name ∉ order.*1 → ps_chainDialers s' !! name = ps_chainDialers s !! name) ∧
  (∀ name spec, (name, spec) ∈ order → ps_chainDialers s !! name = None →
     ∃ l, ps_chainDialers s' !! name = Some l ∧ (length heap ≤ l)%nat ∧
       heap' !! l = Some (chain_dialer (ps_chainRoutes s) name spec, dialer0)).
Proof.
  unfold start_dialers. revert s heap. induction order as [|x order IH]; intros s heap Hnd Hs.
  { simpl in Hs. injection Hs as <- <-. split_and!; try done. by intros ? ? ?%elem_of_nil. }
  cbn [foldl] in Hs. destruct (start_dialer (s, heap) x) as [s1 heap1] eqn:E.
  rewrite fmap_cons in Hnd. apply NoDup_cons in Hnd as [Hx Hnd].
  destruct (IH _ _ Hnd Hs) as (H1 & H2 & H3 & H4). apply start_dialer_inv in E as [Hr [(Hn & Hd & ->)|(Hn & -> & ->)]].
  - split_and!; [congruence|by eapply prefix_app_l| |].
    + intros name Hname. assert (name ≠ x.1) as Hne.
      { intros ->. destruct Hname as [[? ?]|Hin]; [congruence|]. apply Hin. rewrite fmap_cons. by left. }
      rewrite H3, Hd, lookup_insert_ne by (rewrite ?Hd, ?lookup_insert_ne, ?fmap_cons, ?not_elem_of_cons in *; naive_solver). done.
    + intros name spec [<-|Hin]%elem_of_cons Hno.
      * exists (length heap). rewrite H3 by (by right). rewrite Hd, lookup_insert_eq. split_and!; [done|lia|].
        eapply prefix_lookup_Some; [|exact H2]. by apply list_lookup_middle.
      * assert (name ≠ x.1) as Hne by (intros ->; apply Hx; apply list_elem_of_fmap; by exists (x.1, spec)).
        destruct (H4 name spec Hin) as (l & K1 & K2 & K3); [by rewrite Hd, lookup_insert_ne|].
        exists l. rewrite Hr in K3. rewrite length_app in K2. split_and!; [done|lia|done].
  - split_and!; [done|done| |].
    + intros name Hname. apply H3. destruct Hname; [by left|right]. rewrite fmap_cons, not_elem_of_cons in *. naive_solver.
    + intros name spec [<-|Hin]%elem_of_cons Hno; [|by apply H4]. destruct Hn as [? ?]. simpl in *. congruence.
Qed.

Lemma start_dialers_length order s heap s' heap' :
  NoDup order.*1 → (∀ name, name ∈ order.*1 → ps_chainDialers s !! name = None) → start_dialers order s heap = (s', heap') →
  length heap' = (length heap + length order)%nat.
Proof.
  unfold start_dialers. revert s heap. induction order as [|x order IH]; intros s heap Hnd Hno Hs.
  { simpl in *. injection Hs as <- <-. lia. }
  cbn [foldl] in Hs. destruct (start_dialer (s, heap) x) as [s1 heap1] eqn:E.
  rewrite fmap_cons in Hnd. apply NoDup_cons in Hnd as [Hx Hnd]. rewrite fmap_cons in Hno.
  apply start_dialer_inv in E as [Hr [(Hn & Hd & ->)|([d Hn] & _)]]; [|rewrite Hno in Hn by (by left); done].
  assert (∀ name, name ∈ order.*1 → ps_chainDialers s1 !! name = None) as Hno1.
  { intros name Hin. rewrite Hd, lookup_insert_ne by (by intros <-). apply Hno. by right. }
  rewrite (IH _ _ Hnd Hno1 Hs), length_app. simpl. lia.
Qed.

Lemma listener_specs_lookup cfg chain name spec :
  (∃ cr, cr ∈ chain ∧ cr_Dialer cr = name) → DialerSpecs cfg !! name = Some spec → listener_specs cfg chain !! name = Some spec.
Proof.
  intros Hex Hs. unfold listener_specs.
  assert (∀ m : gmap string DialerSpec, (∃ cr, cr ∈ chain ∧ cr_Dialer cr = name) ∨ m !! name = Some spec →
    foldl (λ m cr, match DialerSpecs cfg !! cr_Dialer cr with Some spec => <[cr_Dialer cr := spec]> m | None => m end) m chain
      !! name = Some spec) as H; [|apply H; by left].
  clear Hex. induction chain as [|cr chain IH]; intros m Hm; simpl.
  { destruct Hm as [(cr & Hin & _)|?]; [by apply elem_of_nil in Hin|done]. }
  apply IH. destruct (decide (cr_Dialer cr = name)) as [Heq|Hne].
  - right. rewrite Heq, Hs. simpl. by rewrite lookup_insert_eq.
  - destruct Hm as [(cr' & [->|Hin]%elem_of_cons & Hd)|Hm]; [done|left; eauto|right].
    case_match; [by rewrite (lookup_insert_ne m)|done].
Qed.
End dialers.

(** * Properties *)

(** C9: The chain gateway carries a connection faithfully. In every run of a gateway,
    whatever its dialer, its session and the other connections do: until it
    bridges, the user's connection is open; while it bridges, what the user got is
    a prefix of what the read loop delivered for this connection, and nothing is
    missing between what was read and what is queued until the session closes it
    or its end is seen; what the user sent, as far as it was taken, went out as
    data frames of this connection in order; when it has returned, the user's
    connection is closed, and if it returned without an error, everything that was
    read at either side had been written at the other. *)
Theorem chain_gateway_copies {CJ : ControlJson} quote cr conf d clients now evs g :
  grun quote (serveChain cr conf d clients now) evs = Some g →
  let inn := delivered quote (serveChain cr conf d clients now) evs in
  match g_phase g with
  | GBridging l loc b => g_closed g = false ∧ ∃ c sc ps,
      g_clients g !! l = Some c ∧ c_dheap c !! loc = Some sc ∧
      bc_written (b_conn b Fwd) `prefix_of` bc_read (b_conn b Bwd) ∧ bc_read (b_conn b Bwd) `prefix_of` inn ∧
      (bc_closed (b_conn b Bwd) = false → isClosed sc = false → (content sc).2 = false →
         bc_read (b_conn b Bwd) ++ (content sc).1 = inn) ∧
      concat ps `prefix_of` bc_read (b_conn b Fwd) ∧ (b_done b Fwd = false → concat ps = bc_read (b_conn b Fwd)) ∧
      framed (sc_connID sc) ps `sublist_of` c_out c
  | GEnd (Some b) => g_closed g = true ∧ (∀ d, bc_closed (b_conn b d) = true) ∧
      bc_written (b_conn b Fwd) `prefix_of` inn ∧
      (b_main b = Returned None → ∀ d, bc_written (b_conn b (flip d)) = bc_read (b_conn b d)) ∧
      ∃ l c connID ps, g_clients g !! l = Some c ∧ concat ps `prefix_of` bc_read (b_conn b Fwd) ∧
        framed connID ps `sublist_of` c_out c
  | GEnd None => g_closed g = true
  | _ => g_closed g = false
  end.
Proof.
  intros Hr inn. assert (ginv [] (serveChain cr conf d clients now)) as H0 by done.
  pose proof (grun_ginv quote _ _ _ _ H0 Hr) as Hi. change ([] ++ _) with inn in Hi. unfold ginv in Hi.
  destruct (g_phase g) as [dl nx|l|l connID loc ch|l loc b|[b|]]; try apply Hi.
  - destruct Hi as (Hcl & c & sc & Hc & Hsc & [[H1 _ H3 H4] (ps & H5 & H6)]). split; [done|]. exists c, sc, ps.
    rewrite H5. split_and!; try done; [apply (bi_prefix _ H1 Bwd)| |apply (bi_prefix _ H1 Fwd)|apply (bi_running _ H1 Fwd)].
    intros Hop. by apply H4.
  - destruct Hi as (Hcl & H1 & [e He] & H3 & l & c & connID & ps & Hc & Hps & Hsub). split_and!; [done| | | |].
    + by eapply bi_closed.
    + etrans; [apply (bi_prefix _ H1 Bwd)|done].
    + by apply binv_returned.
    + exists l, c, connID, ps. rewrite Hps. split_and!; [done|apply (bi_prefix _ H1 Fwd)|done].
Qed.

(** The gateway waits for a session at most ten seconds. While it waits it has
    taken at most 200 turns; its next turn finds the session if there is one, in
    time, closes the user's connection after the deadline, and otherwise sleeps 50
    milliseconds. *)
Theorem chain_wait_bounded {CJ : ControlJson} quote cr conf d clients now evs g deadline next :
  grun quote (serveChain cr conf d clients now) evs = Some g → g_phase g = GWait deadline next →
  deadline = now + 10 * second ∧ turns evs ≤ 200 ∧
  ∀ t, next ≤ t → ∃ g', gapply quote g (EvTurn t) = Some g' ∧
    if bool_decide (t < deadline) then
      g_phase g' = match d_client (g_dialer g) with Some l => GDialing l | None => GWait deadline (t + 50 * ms) end
    else g_phase g' = GEnd None ∧ g_closed g' = true.
Proof.
  intros Hr Hp. assert (waiting now 0 (serveChain cr conf d clients now)) as H0.
  { unfold waiting. simpl. split_and!; [done|lia|by left]. }
  pose proof (grun_waiting quote _ _ _ _ _ H0 ltac:(lia) Hr) as Hw. unfold waiting in Hw. rewrite Hp in Hw.
  destruct Hw as (Hd & Hn & Hb). unfold second, ms in *. split_and!; [done|destruct Hb; unfold turns in *; lia|].
  intros t Ht. cbn [gapply]. rewrite Hp. destruct (Z.ltb_spec t next); [lia|]. case_bool_decide as Htd.
  - destruct (Z.ltb_spec t deadline); [|lia]. by destruct (d_client (g_dialer g)); eexists.
  - destruct (Z.ltb_spec t deadline); [lia|]. by eexists.
Qed.


(** A restart runs the chain dialers twice. Nothing stops the dialers of a proxy
    server, so that after a reload, which serves a new server of the same
    configuration, each chain has two running dialers that register the same
    streams at the far node; and a node that has registered a stream for the one
    session refuses it to the other, as long as the first stays connected. *)
Theorem reload_doubles_dialers {C M L} (s1 s2 : ProxyServer C M L) heap order1 order2 s1' s2' heap1 heap2 :
  ps_chainDialers s1 = ∅ → ps_chainDialers s2 = ∅ → ps_chainSpecs s2 = ps_chainSpecs s1 → ps_chainRoutes s2 = ps_chainRoutes s1 →
  order1 ≡ₚ map_to_list (ps_chainSpecs s1) → order2 ≡ₚ map_to_list (ps_chainSpecs s2) →
  start_dialers order1 s1 heap = (s1', heap1) → start_dialers order2 s2 heap1 = (s2', heap2) →
  ∀ name spec, ps_chainSpecs s1 !! name = Some spec →
  ∃ l1 l2 conf, l1 ≠ l2 ∧ ps_chainDialers s2' !! name = Some l2 ∧
    heap2 !! l1 = Some (conf, dialer0) ∧ heap2 !! l2 = Some (conf, dialer0) ∧
    ∀ req t c1 c2 t1 id now, req ∈ dc_Streams conf → Assign t c1 req now = (t1, Ok id) →
      (Assign t1 c2 req now).2 = Err (ErrDuplicateStream (streamKey (rr_ClientProxyName req) (rr_StreamId req))).
Proof.
  intros Hn1 Hn2 Hsp Hro Hp1 Hp2 Hs1 Hs2 name spec Hl.
  assert (∀ order (s : ProxyServer C M L), order ≡ₚ map_to_list (ps_chainSpecs s) → NoDup order.*1) as Hnd
    by (intros order s Hp; rewrite Hp; apply NoDup_fst_map_to_list).
  destruct (start_dialers_spec _ _ _ _ _ (Hnd _ _ Hp1) Hs1) as (_ & _ & _ & H1).
  destruct (start_dialers_spec _ _ _ _ _ (Hnd _ _ Hp2) Hs2) as (_ & Hpre & _ & H2).
  destruct (H1 name spec) as (l1 & _ & _ & K1); [rewrite Hp1; by apply elem_of_map_to_list|by rewrite Hn1, lookup_empty|].
  destruct (H2 name spec) as (l2 & D2 & Hlt & K2); [rewrite Hp2, Hsp; by apply elem_of_map_to_list|by rewrite Hn2, lookup_empty|].
  exists l1, l2, (chain_dialer (ps_chainRoutes s1) name spec). pose proof (lookup_lt_Some _ _ _ K1).
  split_and!; [lia|done|by eapply prefix_lookup_Some|by rewrite <- Hro|].
  intros req t c1 c2 t1 id now _ Ha. unfold Assign in Ha. destruct (byStreamID t !! _) eqn:E; [done|]. injection Ha as <- _.
  unfold Assign. simpl. by rewrite lookup_insert_eq.
Qed.

(** A connection that is not proxied is closed and leaves no trace in the hub.
    Without chain routes, an accepted connection is opened in the hub exactly when
    the codec accepts it and the rules give a stream; otherwise the hub is as it
    was, and an opening that fails leaves the connections that were open before. *)
Theorem front_spec {C M L} `{!JsonCodec ConnOpenReq} (s : ProxyServer C M L) connects h conn now s' h' r :
  hub_inv h → connSeq h + 1 < 2 ^ 32 → ps_chainRoutes s = [] →
  handleConn_begin s connects h conn now = (s', h', r) →
  match r with
  | FrontChain => False
  | FrontRefused e => h' = h ∧ cd_Accept (ps_inCodec s) conn = Err e
  | FrontNoStream mc => h' = h ∧ cd_Accept (ps_inCodec s) conn = Ok mc ∧
      (pickEntry (CtrlHub.Streams h) connects (ps_proxyName s) (ps_rr s)).2 = None
  | FrontOpening mc entry connID l req =>
      cd_Accept (ps_inCodec s) conn = Ok mc ∧
      (pickEntry (CtrlHub.Streams h) connects (ps_proxyName s) (ps_rr s)).2 = Some entry ∧
      connID = connSeq h + 1 ∧ CtrlHub.conns h' !! connID = Some l ∧ CtrlHub.conns h !! connID = None ∧ req.1 = se_Client entry ∧
      (∀ ev cw h2 px, handleConn_opened h' connID l ev cw = (h2, px) →
         match px with
         | Some p => h2 = h' ∧ px_loc p = l ∧ px_connID p = connID
         | None => CtrlHub.conns h2 = CtrlHub.conns h
         end)
  end.
Proof.
  intros Hinv Hseq Hro. unfold handleConn_begin. rewrite Hro. destruct (cd_Accept _ conn) as [mc|e]; [|by intros [= <- <- <-]].
  destruct (pickEntry _ _ _ _) as [rr [entry|]]; [|by intros [= <- <- <-]].
  destruct (OpenConn_begin _ _ _ _) as [[h1 l] req] eqn:Eo. intros [= <- <- <-].
  unfold OpenConn_begin in Eo. pose proof (hi_seq _ Hinv). rewrite u32_small in Eo by lia. injection Eo as <- <- <-.
  set (id := connSeq h + 1). assert (CtrlHub.conns h !! id = None) as Hid.
  { destruct (CtrlHub.conns h !! id) eqn:E; [|done]. destruct (hi_conns _ Hinv _ _ E) as (e & _ & _ & He & _). unfold id in *. lia. }
  simpl. split_and!; try done; [by rewrite lookup_insert_eq|].
  intros ev cw h2 px. unfold handleConn_opened, OpenConn_end.
  assert (∀ h0, CtrlHub.conns h0 = <[id := length (hub_heap h)]> (CtrlHub.conns h) →
    CtrlHub.conns (ConnEntry_close (removeConn h0 id) (length (hub_heap h))) = CtrlHub.conns h) as Hrm.
  { intros h0 H0. unfold removeConn. rewrite H0, lookup_insert_eq. simpl. rewrite delete_insert_id by done. done. }
  destruct ev as [|ack|]; [intros [= <- <-]; by apply Hrm| |intros [= <- <-]; by apply Hrm].
  destruct (ca_OK ack); intros [= <- <-]; [done|by apply Hrm].
Qed.

(** * Witnesses *)

(** A chain over the session of a dialer that is connected; the far node accepts,
    both sides send, and both end. *)
Definition demo_route : ChainRoute := mkChainRoute "in" "far" "cp" "ssh".
Definition demo_spec : DialerSpec := mkDialerSpec "far" "star" "outbound" "tls" "b:7000" "cp" "pw" [].
Definition demo_chain_conf : dialer_conf := chain_dialer [demo_route] "far" demo_spec.
Definition demo_chain_dialer : dialer := default dialer0 (drun demo_chain_conf dialer0 [ETop; EDial true; EPublish]).
Definition demo_gateway : gateway := serveChain demo_route demo_chain_conf demo_chain_dialer [demo_opened] 0.
Definition demo_num : Z := 2147483649.
Definition demo_from_far (m : Message) : gevent := EvClient 0 (CRecv false m (Ok tt)).

Definition demo_gevs : list gevent :=
  [EvTurn 0; EvDial; demo_from_far (control_message MsgClientConnAck (mkClientConnAck demo_num true ""));
   EvDialEnd false; EvUp [x61; x62]; demo_from_far (mkMessage MsgData x00 demo_num [x63; x64]);
   EvDown 1 WOk CwOk; EvUpEOF].
Definition demo_gevs_end : list gevent :=
  [EvDown 1 WOk CwOk; demo_from_far (HalfClose demo_num); EvDown 1 WOk CwOk; EvMain; EvMain; EvReturn].

Definition demo_bridging : gateway := default demo_gateway (grun id demo_gateway demo_gevs).
Definition demo_ended : gateway := default demo_gateway (grun id demo_gateway (demo_gevs ++ demo_gevs_end)).

Lemma chain_gateway_copies_witness :
  delivered id demo_gateway (demo_gevs ++ demo_gevs_end) = [x63; x64] ∧
  ∃ b, g_phase demo_ended = GEnd (Some b) ∧ g_closed demo_ended = true ∧
    bc_written (b_conn b Fwd) = [x63; x64] ∧ bc_written (b_conn b Bwd) = [x61; x62] ∧
    bc_written (b_conn b Bwd) = bc_read (b_conn b Fwd).
Proof.
  assert (grun id demo_gateway (demo_gevs ++ demo_gevs_end) = Some demo_ended) as Hr by (vm_compute; reflexivity).
  assert (∃ b, g_phase demo_ended = GEnd (Some b) ∧ b_main b = Returned None ∧ bc_written (b_conn b Fwd) = [x63; x64] ∧
    bc_written (b_conn b Bwd) = [x61; x62]) as (b & Hp & Hm & H1 & H2) by (eexists; vm_compute; by split_and!).
  pose proof (chain_gateway_copies id demo_route demo_chain_conf demo_chain_dialer [demo_opened] 0 _ _ Hr) as H.
  cbn zeta in H. rewrite Hp in H. destruct H as (Hc & _ & _ & He & _).
  split; [vm_compute; reflexivity|]. exists b. split; [exact Hp|]. split; [exact Hc|]. split; [exact H1|]. split; [exact H2|].
  exact (He Hm Fwd).
Defined.

Lemma chain_wait_bounded_witness :
  let g0 := serveChain demo_route demo_chain_conf dialer0 [] 0 in
  let evs := [EvTurn 0; EvTurn 50000000; EvTurn 100000000] in
  ∃ g, grun id g0 evs = Some g ∧ turns evs = 3 ∧ 3 ≤ 200.
Proof.
  intros g0 evs. destruct (grun id g0 evs) as [g|] eqn:Hr; [|vm_compute in Hr; discriminate Hr].
  assert (g_phase g = GWait (10 * second) 150000000) as Hp by (vm_compute in Hr; injection Hr as <-; reflexivity).
  destruct (chain_wait_bounded id demo_route demo_chain_conf dialer0 [] 0 evs g _ _ Hr Hp) as (_ & Ht & _).
  exists g. split; [reflexivity|]. split; [vm_compute; reflexivity|exact Ht].
Defined.

Definition demo_proxy : ProxyServer unit unit unit :=
  mkProxyServer "svc" "tcp" ":1" (3 * second) (5 * second) "in" (mkCodec "raw" Ok) empty_settings 0
    [demo_route] {["far"%string := demo_spec]} ∅ 0 None.
Definition demo_order : list (string * DialerSpec) := [("far"%string, demo_spec)].
Definition demo_served : ProxyServer unit unit unit * list (dialer_conf * dialer) := start_dialers demo_order demo_proxy [].

Lemma demo_order_ok : demo_order ≡ₚ map_to_list (ps_chainSpecs demo_proxy).
Proof. simpl. rewrite map_to_list_singleton. reflexivity. Qed.


Lemma reload_doubles_dialers_witness :
  let r2 := start_dialers demo_order demo_proxy demo_served.2 in
  ∃ l1 l2 conf, l1 ≠ l2 ∧ r2.2 !! l1 = Some (conf, dialer0) ∧ r2.2 !! l2 = Some (conf, dialer0).
Proof.
  intros r2. destruct (reload_doubles_dialers demo_proxy demo_proxy [] demo_order demo_order demo_served.1 r2.1 demo_served.2 r2.2)
    with (name := "far"%string) (spec := demo_spec) as (l1 & l2 & conf & Hne & _ & H1 & H2 & _).
  - reflexivity.
  - reflexivity.
  - reflexivity.
  - reflexivity.
  - exact demo_order_ok.
  - exact demo_order_ok.
  - vm_compute. reflexivity.
  - vm_compute. reflexivity.
  - vm_compute. reflexivity.
  - exists l1, l2, conf. split; [exact Hne|]. split; [exact H1|exact H2].
Defined.

Definition demo_plain : ProxyServer unit unit unit := with_chain [] ∅ demo_proxy.
Definition demo_rules : ConnectTable := (Add NewConnectTable (mkConnectItem "in" "" "cp" "ssh")).1.

Lemma front_spec_witness :
  ∃ s' h' l req, handleConn_begin demo_plain demo_rules demo_hub tt 0 = (s', h', FrontOpening tt demo_entry 2 l req) ∧
    CtrlHub.conns h' !! 2 = Some l ∧ CtrlHub.conns demo_hub !! 2 = None.
Proof.
  destruct (handleConn_begin demo_plain demo_rules demo_hub tt 0) as [[s' h'] r] eqn:E.
  pose proof (front_spec demo_plain demo_rules demo_hub tt 0 s' h' r demo_hub_inv ltac:(reflexivity) eq_refl E) as H.
  assert (∃ l req, r = FrontOpening tt demo_entry 2 l req) as (l & req & ->)
    by (vm_compute in E; injection E as <- <- <-; eexists _, _; reflexivity).
  exists s', h', l, req. split; [reflexivity|]. exact (conj (proj1 (proj2 (proj2 (proj2 H)))) (proj1 (proj2 (proj2 (proj2 (proj2 H)))))).
Defined.
