(* ===== verification/Chain.v ===== *)
(** Chained connections end to end. The far end is the goroutine that
    [CtrlProxyServer.handleClientConnReq] starts (internal/handler/star/ctrlproxy.go):
    it dials the target and bridges it with the stream of the session's feed. It
    runs here beside the read loops of the sessions and the other chains of the
    node ([far]). Joined to the gateway of [Ingress] by the two directions of a
    session ([chain]) it carries the user's bytes to the target and back. *)
From S2P Require Import Prelude Message TextCodec Window StreamTable CtrlHub Handshake Config Register CtrlProxy.
From S2P Require Import Adapter CtrlClient Bridge BridgeEnd Dialer Tunnel Ingress.
From Stdlib Require Import ZArith Lia.

(** * The far end *)

(** ** The stream over its session, which may have ended *)

Definition sess_Write (sv : CtrlProxyServer) (sid : session_id) (sc : StreamConn) (p : list byte) : CtrlProxyServer * bool :=
  match sessions sv !! sid with
  | Some s =>
      let '(s, _, err) := Write sc s p in
      (with_sessions sv (<[sid := s]> (sessions sv)), match err with None => true | Some _ => false end)
  | None => (sv, false)
  end.

Definition half_closed (sc : StreamConn) : StreamConn :=
  mkStreamConn (sc_connID sc) (sc_feed sc) (sc_closed sc) (sc_readEOF sc) true (sc_pending sc).

Definition sess_CloseWrite (sv : CtrlProxyServer) (sid : session_id) (sc : StreamConn) : StreamConn * CtrlProxyServer * bool :=
  match sessions sv !! sid with
  | Some s =>
      let '(sc, s, err) := CloseWrite sc s in
      (sc, with_sessions sv (<[sid := s]> (sessions sv)), match err with None => true | Some _ => false end)
  | None => (half_closed sc, sv, sc_writeHalf sc)
  end.

Definition sess_Close (sv : CtrlProxyServer) (sid : session_id) (sc : StreamConn) : StreamConn * CtrlProxyServer :=
  match sessions sv !! sid with
  | Some s => let '(sc, s, _) := StreamConn_Close sc s in (sc, with_sessions sv (<[sid := s]> (sessions sv)))
  | None => (markClosed CauseClosed sc, sv)
  end.

(** The stream [l] of the feed of a session. *)
Definition set_stream (sid : session_id) (l : stream_loc) (sc : StreamConn) (sv : CtrlProxyServer) : CtrlProxyServer :=
  with_feeds sv (alter (upd_conn (λ _, sc) l) sid (feeds sv)).

Definition close_stream (sv : CtrlProxyServer) (sid : session_id) (l : stream_loc) (sc : StreamConn) : CtrlProxyServer :=
  let '(sc, sv) := sess_Close sv sid sc in set_stream sid l sc sv.

(** ** The goroutine of a chained connection *)

(** It dials the target; it is in [Bridge], the stream its source and the target its
    destination; it has returned, after a bridge or without one. *)
Inductive tphase := TDialing | TBridging (b : bridge) | TEnd (b : option bridge).

Record chained := mkChained { ch_dial : CtrlProxy.dial; ch_phase : tphase }.

Definition set_tphase (ph : tphase) (x : chained) : chained := mkChained (ch_dial x) ph.

Inductive target_event :=
  | TDial (ok : bool)
  | TDown (n : nat) (w : write_result) (cw : cw_result) (* a read of the stream, and the write to the target *)
  | TUp (p : list byte)                                 (* a read of the target, and the write to the stream *)
  | TUpEOF
  | TUpErr
  | TDrain
  | TMain
  | TReturn.

(** What a step is for the bridge, with the server it leaves. *)
Definition chain_event (ev : target_event) (b : bridge) (sv : CtrlProxyServer) (sid : session_id) (l : stream_loc) (sc : StreamConn)
    : option (bridge_part * CtrlProxyServer) :=
  match ev with
  | TDown n w cw =>
      match read_stream Fwd n w cw b sc with
      | Some (part, sc) => Some (part, set_stream sid l sc sv)
      | None => None
      end
  | TUp p =>
      if bool_decide (writeChunk < length p)%nat then None
      else
        let '(sv, ok) := sess_Write sv sid sc p in Some (BStep (BCopy Bwd p (if ok then WOk else WFail 0)), sv)
  | TUpEOF =>
      let '(sc, sv, ok) := sess_CloseWrite sv sid sc in
      Some (BStep (BEOF Bwd (if ok then CwOk else CwFail)), set_stream sid l sc sv)
  | TUpErr => Some (BStep (BReadErr Bwd), sv)
  | TDrain => Some (BStep BTimer, sv)
  | TMain => Some (BStep BMain, sv)
  | _ => None
  end.

Definition stream_of (sv : CtrlProxyServer) (d : CtrlProxy.dial) : option StreamConn :=
  feeds sv !! d_session d ≫= λ feed, hub_conn feed (d_loc d).

(** A step of the goroutine. A failed dial closes the stream and leaves it in the
    feed; the return takes it out, and closes the target. *)
Definition target_apply (sv : CtrlProxyServer) (x : chained) (ev : target_event) : option (CtrlProxyServer * chained) :=
  let d := ch_dial x in
  let sid := d_session d in
  match stream_of sv d with
  | None => None
  | Some sc =>
      match ch_phase x, ev with
      | TDialing, TDial true => Some (sv, set_tphase (TBridging (new_bridge true)) x)
      | TDialing, TDial false => Some (close_stream sv sid (d_loc d) sc, set_tphase (TEnd None) x)
      | TBridging b, TReturn =>
          match b_main b with
          | Returned _ =>
              Some (with_feeds sv (alter (λ feed, hub_Remove feed (d_connID d)) sid (feeds sv)), set_tphase (TEnd (Some b)) x)
          | _ => None
          end
      | TBridging b, _ =>
          match chain_event ev b sv sid (d_loc d) sc with
          | None => None
          | Some (part, sv) =>
              match part_step Fwd part b with
              | None => None
              | Some (b, closes) =>
                  match stream_of sv d with
                  | None => None
                  | Some sc =>
                      Some (if closes then close_stream sv sid (d_loc d) sc else sv, set_tphase (TBridging b) x)
                  end
              end
          end
      | _, _ => None
      end
  end.

(** ** The node *)

(** The server and the goroutines of its chained connections. *)
Record far := mkFar { fr_server : CtrlProxyServer; fr_chains : list chained }.

Inductive far_event :=
  | FConnect (sid : session_id) (conn : Session) (remote : string) (now : Z)
  | FRecv (sid : session_id) (pick : bool) (now : Z) (m : Message)
  | FDisconnect (sid : session_id)
  | FChain (i : nat) (ev : target_event)
  | FProxy (h : CtrlHub) (sid : session_id) (m : Message). (* the node's own proxies: the hub they leave, a frame they send *)

Section far.
Context {CJ : ControlJson}.
Variable quote : string → string.

(** A connection's session is new, and so is its feed. *)
Definition far_apply (s : far) (ev : far_event) : option far :=
  match ev with
  | FConnect sid conn remote now =>
      match feeds (fr_server s) !! sid with
      | Some _ => None
      | None => Some (mkFar (connect (fr_server s) sid conn remote now).1 (fr_chains s))
      end
  | FRecv sid pick now m =>
      match handle quote pick now (fr_server s) sid m with
      | Some (sv, ds) => Some (mkFar sv (fr_chains s ++ ((λ d, mkChained d TDialing) <$> ds)))
      | None => None
      end
  | FDisconnect sid => Some (mkFar (disconnect (fr_server s) sid) (fr_chains s))
  | FChain i ev =>
      match fr_chains s !! i with
      | Some x =>
          match target_apply (fr_server s) x ev with
          | Some (sv, x) => Some (mkFar sv (<[i := x]> (fr_chains s)))
          | None => None
          end
      | None => None
      end
  | FProxy h sid m => Some (mkFar (send_to (with_hub (fr_server s) h) sid m) (fr_chains s))
  end.

Fixpoint far_run (s : far) (evs : list far_event) : option far :=
  match evs with
  | [] => Some s
  | ev :: evs => far_apply s ev ≫= λ s, far_run s evs
  end.
End far.

(** * What others do to a stream of a feed *)

(** Nothing is delivered to [loc] any more. *)
Definition gone (loc : stream_loc) (feed : StreamHub) : Prop := ∀ id, h_conns feed !! id ≠ Some loc.

(** A feed in which [loc] has received at most [inc]; it is not registered under
    another number, and when it is closed, not any more. *)
Record fgrows (loc : stream_loc) (inc : list byte) (feed feed' : StreamHub) : Prop := {
  fg_conn sc : hub_conn feed loc = Some sc → ∃ sc', hub_conn feed' loc = Some sc' ∧ held inc sc sc' ∧
              (isClosed sc = false → isClosed sc' = true → gone loc feed');
  fg_map : (loc < length (h_heap feed))%nat → ∀ id, h_conns feed' !! id = Some loc → h_conns feed !! id = Some loc;
}.

#[export] Instance fgrows_refl loc : Reflexive (fgrows loc []).
Proof. intros feed. split; [|done]. intros sc Hsc. exists sc. split_and!; [done..|congruence]. Qed.

Lemma fgrows_gone loc inc feed feed' :
  fgrows loc inc feed feed' → (loc < length (h_heap feed))%nat → gone loc feed → gone loc feed'.
Proof. intros [_ H] Hl Hu id Hid. by apply (Hu id), H. Qed.

#[export] Instance fgrows_trans loc : Transitive (fgrows loc []).
Proof.
  intros a b c [H1 H2] [K1 K2]. split.
  - intros sc Hsc. destruct (H1 _ Hsc) as (sc1 & Hs1 & Hh & Hc). destruct (K1 _ Hs1) as (sc2 & Hs2 & Hh2 & Hc2).
    exists sc2. split_and!; [done|by etrans|]. intros Ho Hcl. destruct (isClosed sc1) eqn:E; [|by apply Hc2].
    intros id Hid. apply (Hc Ho eq_refl id), K2; [by eapply lookup_lt_Some|done].
  - intros Hlt id Hid. apply H2, K2; [done| |done]. apply lookup_lt_is_Some in Hlt as [sc Hsc].
    destruct (H1 sc Hsc) as (sc1 & Hs1 & _). by eapply lookup_lt_Some.
Qed.

(** Only the map and the heap matter. *)
Lemma fgrows_same loc feed feed' :
  h_heap feed' = h_heap feed → h_conns feed' ⊆ h_conns feed → fgrows loc [] feed feed'.
Proof.
  intros H1 H2. split.
  - unfold hub_conn. rewrite H1. intros sc Hsc. exists sc. split_and!; [done..|congruence].
  - intros _ id Hid. by eapply lookup_weaken.
Qed.

(** An update of one stream. *)
Lemma fgrows_upd loc f l feed :
  (l = loc → ∀ sc, hub_conn feed loc = Some sc → held [] sc (f sc) ∧ (isClosed sc = false → isClosed (f sc) = true → gone loc feed)) →
  fgrows loc [] feed (upd_conn f l feed).
Proof.
  intros Hf. split; [|done]. intros sc Hsc. rewrite hub_conn_upd. case_decide as Hl.
  - rewrite Hsc. exists (f sc). destruct (Hf ltac:(done) _ Hsc). by split_and!.
  - exists sc. split_and!; [done..|congruence].
Qed.

Lemma fgrows_remove loc feed id : sh_inv feed → fgrows loc [] feed (hub_Remove feed id).
Proof.
  intros Hi. unfold hub_Remove, hub_get. destruct (h_conns feed !! id) as [l|] eqn:Hl; [|done].
  assert (fgrows loc [] feed (hub_remove feed id)) as H1 by by (apply fgrows_same; [done|apply delete_subseteq]).
  etrans; [exact H1|]. apply fgrows_upd. intros -> sc Hsc. split; [apply markClosed_held|]. intros _ _ i.
  simpl. intros [Hne Hi']%lookup_delete_Some. destruct (shi_conns _ Hi _ _ Hl) as (s1 & K1 & <-).
  destruct (shi_conns _ Hi _ _ Hi') as (s2 & K2 & <-). congruence.
Qed.

Lemma fgrows_new loc feed id : fgrows loc [] feed (NewHubConn feed id).1.
Proof.
  unfold NewHubConn. destruct (h_dead feed); [done|]. split; simpl.
  - intros sc Hsc. exists sc. split_and!; [by apply lookup_app_l_Some|done|congruence].
  - intros Hlt i. by intros [[_ E]|[_ ?]]%lookup_insert_Some; [lia|].
Qed.

Lemma fgrows_closed loc feed : fgrows loc [] feed (SessionClosed feed).
Proof.
  unfold SessionClosed. destruct (h_dead feed); [done|]. split; [|done]. unfold hub_conn. simpl. intros sc Hsc.
  destruct (mark_all_held (map_to_list (h_conns feed)) _ _ _ Hsc) as (sc' & H1 & H2). exists sc'. by split_and!.
Qed.

(** ** A message *)

(** The payload a message brings to the stream [loc] of the feed. *)
Definition feed_incoming (loc : stream_loc) (feed : StreamHub) (m : Message) : list byte :=
  if bool_decide (Type_ m = MsgData ∧ h_conns feed !! StreamID m = Some loc) then Payload m else [].

Lemma feed_incoming_gone loc feed m : gone loc feed → feed_incoming loc feed m = [].
Proof. intros Hg. unfold feed_incoming. case_bool_decide as H; [|done]. destruct H as [_ H]. by destruct (Hg (StreamID m)). Qed.

Lemma feed_incoming_other loc feed m : Type_ m ≠ MsgData → feed_incoming loc feed m = [].
Proof. intros H. unfold feed_incoming. rewrite bool_decide_false; [done|by intros [? _]]. Qed.

Lemma fgrows_deliver loc pick feed l it feed' :
  hub_deliver pick feed l it = Some feed' → fgrows loc (if decide (l = loc) then item_data it else []) feed feed'.
Proof.
  unfold hub_deliver. destruct (hub_conn feed l) as [sc|] eqn:El.
  - destruct (deliver pick sc it) as [sc1|] eqn:Ed; [|done]. intros [= <-]. split; [|done].
    intros sc0 Hsc0. rewrite hub_conn_upd. destruct (decide (l = loc)) as [->|Hne].
    + assert (sc0 = sc) as -> by congruence. exists sc1. rewrite El.
      split_and!; [done|by eapply deliver_held|]. apply deliver_closed in Ed. congruence.
    + exists sc0. split_and!; [done..|congruence].
  - intros [= <-]. split; [|done]. intros sc Hsc. destruct (decide (l = loc)) as [->|]; [congruence|].
    exists sc. split_and!; [done..|congruence].
Qed.

Lemma fgrows_Feed `{!JsonCodec ConnOpenAck} loc pick feed m feed' b :
  Feed pick feed m = Some (feed', b) → fgrows loc (if b then feed_incoming loc feed m else []) feed feed'.
Proof.
  unfold Feed, hub_get. case_bool_decide as Ht.
  { destruct (h_conns feed !! StreamID m) as [l|] eqn:El; [|by intros [= <- <-]].
    destruct (hub_deliver _ _ _ _) as [f|] eqn:Ed; [|done]. intros [= <- <-].
    apply (fgrows_deliver loc) in Ed. unfold feed_incoming. rewrite El. destruct (decide (l = loc)) as [->|Hne].
    - by rewrite bool_decide_true.
    - rewrite bool_decide_false; [done|]. intros [_ ?]. congruence. }
  rewrite feed_incoming_other by done. case_bool_decide.
  { destruct (h_conns feed !! StreamID m) as [l|] eqn:El; [|by intros [= <- <-]].
    destruct (hub_deliver _ _ _ _) as [f|] eqn:Ed; [|done]. intros [= <- <-].
    apply (fgrows_deliver loc) in Ed. unfold item_data in Ed. simpl in Ed.
    assert (E : (if decide (l = loc) then if negb (IsHalfClose m) || IsHalfClose m then [] else [] else []) = ([] : list byte))
      by (by destruct (decide _), (IsHalfClose m)).
    rewrite E in Ed. etrans; [|exact Ed]. apply fgrows_same; [done|apply delete_subseteq]. }
  case_bool_decide; [|by intros [= <- <-]].
  destruct (DecodeControl m) as [ack|]; [|by intros [= <- <-]].
  destruct (h_acks feed !! _); intros [= <- <-]; [destruct (decide (true = true)); [|done]|]; by apply fgrows_same.
Qed.

Lemma Feed_dead `{!JsonCodec ConnOpenAck} pick feed m feed' b :
  Feed pick feed m = Some (feed', b) → h_dead feed' = h_dead feed ∧ (h_dead feed = true → h_conns feed' ⊆ h_conns feed).
Proof.
  assert (∀ f l it f', hub_deliver pick f l it = Some f' → h_dead f' = h_dead f ∧ h_conns f' = h_conns f) as Hd.
  { intros f l it f'. unfold hub_deliver. destruct (hub_conn f l); [|by intros [= <-]]. destruct (deliver _ _ _); [|done]. by intros [= <-]. }
  unfold Feed, hub_get. case_bool_decide.
  { destruct (h_conns feed !! _) as [l|]; [|by intros [= <- <-]].
    destruct (hub_deliver _ _ _ _) as [f|] eqn:Ed; [|done]. intros [= <- <-]. by apply Hd in Ed as [-> ->]. }
  case_bool_decide.
  { destruct (h_conns feed !! _) as [l|]; [|by intros [= <- <-]].
    destruct (hub_deliver _ _ _ _) as [f|] eqn:Ed; [|done]. intros [= <- <-]. apply Hd in Ed as [-> ->].
    split; [done|]. intros _. apply delete_subseteq. }
  case_bool_decide; [|by intros [= <- <-]].
  destruct (DecodeControl m) as [ack|]; [|by intros [= <- <-]]. by destruct (h_acks feed !! _); intros [= <- <-].
Qed.

(** ** The rest of the server *)

Definition logs (ms : list Message) (s s' : Session) : Prop := w_log (s_out s') = w_log (s_out s) ++ (frame <$> ms).

(** A frame that is neither data nor a close, and opens nothing. *)
Definition quiet_frame (m : Message) : Prop :=
  (Type_ m ≠ MsgData ∧ Type_ m ≠ MsgStreamClose ∧ Type_ m ≠ MsgConnOpen) ∧ Z.of_nat (length (Payload m)) ≤ MaxPayloadSize.

Lemma Send_logs s m s' : Send s m = Ok s' → logs [m] s s' ∧ Z.of_nat (length (Payload m)) ≤ MaxPayloadSize.
Proof.
  unfold Send, WriteMessage, w_write. destruct (Z.ltb_spec MaxPayloadSize (Z.of_nat (length (Payload m)))); [done|].
  destruct (w_broken (s_out s)); [done|]. intros [= <-]. split; [done|lia].
Qed.

(** What the read loop of the session [s] does to the sessions and to the feeds of
    others. *)
Record node_step (s : session_id) (sv sv' : CtrlProxyServer) : Prop := {
  nd_feeds s' : s' ≠ s → feeds sv' !! s' = feeds sv !! s';
  nd_sessions s' : s' ≠ s → sessions sv' !! s' = sessions sv !! s';
  nd_none : sessions sv !! s = None → sessions sv' !! s = None;
  nd_clients : clients sv' = clients sv;
  nd_log se : sessions sv !! s = Some se →
    ∃ se' ms, sessions sv' !! s = Some se' ∧ logs ms se se' ∧ Forall quiet_frame ms;
}.

Lemma logs_nil s : logs [] s s.
Proof. unfold logs. by rewrite app_nil_r. Qed.

Lemma logs_app ms1 ms2 a b c : logs ms1 a b → logs ms2 b c → logs (ms1 ++ ms2) a c.
Proof. unfold logs. intros H1 H2. by rewrite H2, H1, fmap_app, app_assoc. Qed.

Lemma node_same s sv sv' :
  sessions sv' = sessions sv → clients sv' = clients sv → (∀ s', s' ≠ s → feeds sv' !! s' = feeds sv !! s') → node_step s sv sv'.
Proof. intros H1 H2 H3. split; rewrite ?H1; try done. intros se Hse. exists se, []. split_and!; [done|apply logs_nil|constructor]. Qed.

#[export] Instance node_refl s : Reflexive (node_step s).
Proof. intros sv. by apply node_same. Qed.

#[export] Instance node_trans s : Transitive (node_step s).
Proof.
  intros a b c [H1 H2 H3 HC H4] [K1 K2 K3 KC K4]. split; [intros; rewrite K1, H1; done|intros; rewrite K2, H2; done|auto|congruence|].
  intros se Hse. destruct (H4 _ Hse) as (se1 & ms1 & Hs1 & L1 & F1). destruct (K4 _ Hs1) as (se2 & ms2 & Hs2 & L2 & F2).
  exists se2, (ms1 ++ ms2). split_and!; [done|by eapply logs_app|by apply Forall_app].
Qed.

Lemma node_set_session s sv se se' ms :
  sessions sv !! s = Some se → logs ms se se' → Forall quiet_frame ms → node_step s sv (with_sessions sv (<[s := se']> (sessions sv))).
Proof.
  intros Hs Hl Hf. split; simpl; [done|intros s' Hne; by rewrite lookup_insert_ne|congruence|done|].
  intros se0 Hse0. assert (se0 = se) as -> by congruence. exists se', ms. by rewrite lookup_insert_eq.
Qed.

Lemma node_send_to s sv m :
  Type_ m ≠ MsgData → Type_ m ≠ MsgStreamClose → Type_ m ≠ MsgConnOpen →
  node_step s sv (send_to sv s m) ∧ feeds (send_to sv s m) = feeds sv.
Proof.
  intros H1 H2 H3. unfold send_to. destruct (sessions sv !! s) as [se|] eqn:Es; [|by split].
  destruct (Send se m) as [se'|] eqn:E; [|by split]. apply Send_logs in E as [Hl Hp]. split; [|done].
  eapply node_set_session; [done..|]. constructor; [|constructor]. by split.
Qed.

Section node.
Context {CJ : ControlJson}.
Variable quote : string → string.

(** What a message does to the feed of its session, and the chain it starts. *)
Record feed_step (s : session_id) (m : Message) (feed feed' : StreamHub) (ds : list CtrlProxy.dial) : Prop := {
  fd_inv : sh_inv feed → sh_inv feed';
  fd_grows loc : fgrows loc (feed_incoming loc feed m) feed feed';
  fd_dead : h_dead feed' = h_dead feed ∧ (h_dead feed = true → h_conns feed' ⊆ h_conns feed);
  fd_dials : ds = [] ∨ ∃ connID target, ds = [mkDial s (length (h_heap feed)) connID target] ∧
    hub_conn feed' (length (h_heap feed)) = Some (newStreamConn connID) ∧ Type_ m = MsgClientConnReq ∧
    ∃ req : ClientConnReq, DecodeControl m = Ok req ∧ cc_ConnID req = connID;
}.

Lemma feed_step_quiet s m feed : (∀ loc, feed_incoming loc feed m = []) → feed_step s m feed feed [].
Proof. intros H. split; [done| |done|by left]. intros loc. by rewrite H. Qed.

Lemma handleClientConnReq_node sv s identity m feed :
  feeds sv !! s = Some feed → Type_ m = MsgClientConnReq →
  let '(sv', ds) := handleClientConnReq quote sv s identity m in
  node_step s sv sv' ∧ ∃ feed', feeds sv' !! s = Some feed' ∧ feed_step s m feed feed' ds.
Proof.
  intros Hf Ht. unfold handleClientConnReq.
  assert (feed_step s m feed feed []) as Hq.
  { apply feed_step_quiet. intros loc. by rewrite feed_incoming_other by (by rewrite Ht). }
  destruct (DecodeControl (A := ClientConnReq) m) as [req|] eqn:Ed; [|split; [done|by exists feed]].
  assert (∀ sv0 (a : ClientConnAck), node_step s sv0 (send_to sv0 s (control_message MsgClientConnAck a)) ∧
    feeds (send_to sv0 s (control_message MsgClientConnAck a)) = feeds sv0) as Hsend by (intros; by apply node_send_to).
  assert (∀ (a : ClientConnAck), node_step s sv (send_to sv s (control_message MsgClientConnAck a)) ∧
    ∃ feed', feeds (send_to sv s (control_message MsgClientConnAck a)) !! s = Some feed' ∧ feed_step s m feed feed' []) as Hfail.
  { intros a. destruct (Hsend sv a) as [H1 ->]. split; [done|]. by exists feed. }
  destruct (forbidden _ _); [by apply Hfail|]. destruct (GetByName _ _ _); [|by apply Hfail]. destruct (str_empty _); [by apply Hfail|].
  rewrite Hf. pose proof (fgrows_new) as Hn. unfold NewHubConn in *. destruct (h_dead feed) eqn:Hd; [by apply Hfail|].
  match goal with |- context [send_to ?a _ (control_message MsgClientConnAck ?b)] => set (sv1 := a); destruct (Hsend sv1 b) as [H1 H2] end.
  split.
  - etrans; [|exact H1]. apply node_same; [done..|]. intros s' Hne. unfold sv1. simpl. by rewrite lookup_insert_ne.
  - rewrite H2. unfold sv1. simpl. rewrite lookup_insert_eq. eexists. split; [done|]. split.
    + intros Hi. rewrite <- Hd. by apply (sh_inv_alloc feed (cc_ConnID req) false).
    + intros loc. specialize (Hn loc feed (cc_ConnID req)). rewrite Hd in Hn. rewrite feed_incoming_other by (by rewrite Ht). exact Hn.
    + by rewrite Hd.
    + right. eexists _, _. split; [done|]. unfold hub_conn. simpl. split; [by rewrite list_lookup_middle|]. by eauto.
Qed.

(** The dispatch of a message that the feed did not take. *)
Lemma dispatch_node pick now sv s identity m sv' ds feed :
  feeds sv !! s = Some feed → (∀ loc, feed_incoming loc feed m = []) →
  dispatch quote pick now sv s identity m = Some (sv', ds) →
  node_step s sv sv' ∧ ∃ feed', feeds sv' !! s = Some feed' ∧ feed_step s m feed feed' ds.
Proof.
  intros Hf Hin Hd. pose proof (feed_step_quiet s m feed Hin) as Hq. unfold dispatch in Hd.
  assert (∀ h, node_step s sv (with_hub sv h)) as Hhub by (intros h; by apply node_same).
  case_bool_decide.
  { destruct (sessions sv !! s) as [se|] eqn:Es; [|injection Hd as <- <-; split; [done|by exists feed]].
    destruct (ServerRegisterStream _ _ _ _) as [[tbl se'] r] eqn:Er. injection Hd as <- <-. split; [|by exists feed].
    assert (se' = se ∨ ∃ ms, logs ms se se' ∧ Forall quiet_frame ms) as Hse.
    { unfold ServerRegisterStream in Er. destruct (negb _); [injection Er as _ <- _; by left|].
      destruct (DecodeControl m); [|injection Er as _ <- _; by left].
      set (res := assign_stream _ _ _ _ _ _) in Er. destruct res as [t0 [i|msg]]; cbv zeta in Er.
      all: match type of Er with context [SendControl ?x ?t ?a] => destruct (SendControl x t a) as [se1|] eqn:E end.
      all: injection Er as _ <- _; try (by left); right; apply Send_logs in E as [Hl Hp];
        eexists; (split; [exact Hl|]); (constructor; [split; [by split_and!|exact Hp]|constructor]). }
    etrans; [apply (Hhub (CtrlHub.with_streams (hub sv) tbl))|].
    pose proof (node_set_session s (with_hub sv (CtrlHub.with_streams (hub sv) tbl)) se se') as Hset.
    destruct Hse as [->|(ms & Hl & Hfm)]; [apply (Hset []); [done|apply logs_nil|constructor]|by apply (Hset ms)]. }
  case_bool_decide.
  { destruct (DecodeControl m); injection Hd as <- <-; (split; [done|by exists feed]). }
  case_bool_decide.
  { injection Hd as <- <-. destruct (node_send_to s sv (mkMessage MsgPong x00 (StreamID m) (Payload m)) ltac:(done) ltac:(done) ltac:(done)) as [Hn Hfe].
    split; [done|]. rewrite Hfe. by exists feed. }
  case_bool_decide.
  { destruct (Downlink _ _ _ _) as [[h b]|]; [|done]. injection Hd as <- <-. split; [done|by exists feed]. }
  case_bool_decide.
  { destruct (negb _); [destruct (HasConn _ _)|]; injection Hd as <- <-; (split; [done|by exists feed]). }
  case_bool_decide.
  { destruct (DecodeControl m); injection Hd as <- <-; (split; [done|by exists feed]). }
  case_bool_decide; [|injection Hd as <- <-; split; [done|by exists feed]].
  pose proof (handleClientConnReq_node sv s identity m feed Hf ltac:(done)) as Hreq.
  destruct (handleClientConnReq _ _ _ _ _) as [sv1 ds1]. by injection Hd as <- <-.
Qed.

(** What a message brings to the stream [loc] of the session. *)
Definition far_incoming (sid : session_id) (loc : stream_loc) (sv : CtrlProxyServer) (s : session_id) (m : Message) : list byte :=
  if decide (s = sid) then
    match clients sv !! s, feeds sv !! s with Some _, Some feed => feed_incoming loc feed m | _, _ => [] end
  else [].

Lemma handle_node pick now sv s m sv' ds :
  handle quote pick now sv s m = Some (sv', ds) →
  node_step s sv sv' ∧
  ((clients sv !! s = None ∨ feeds sv !! s = None) ∧ sv' = sv ∧ ds = [] ∨
   ∃ feed feed', is_Some (clients sv !! s) ∧ feeds sv !! s = Some feed ∧ feeds sv' !! s = Some feed' ∧ feed_step s m feed feed' ds).
Proof.
  unfold handle. destruct (clients sv !! s) as [info|] eqn:Ec; [|intros [= <- <-]; split; [done|left; by auto]].
  destruct (feeds sv !! s) as [feed|] eqn:Ef; [|intros [= <- <-]; split; [done|left; by auto]].
  intros Hd. assert (node_step s sv sv' ∧ ∃ feed', feeds sv' !! s = Some feed' ∧ feed_step s m feed feed' ds) as [H1 (feed' & H2 & H3)];
    [|split; [done|right; exists feed, feed'; by split_and!]].
  assert (Type_ m ≠ MsgData → ∀ loc, feed_incoming loc feed m = []) as Hno by (intros; by apply feed_incoming_other).
  destruct (_ || _) eqn:Et.
  2: { apply orb_false_iff in Et as [Et _]. apply bool_decide_eq_false in Et. eapply dispatch_node; [done|by apply Hno|done]. }
  destruct (Feed pick feed m) as [[feed1 b]|] eqn:EF; [|done]. destruct b.
  - injection Hd as <- <-. split.
    + apply node_same; [done..|]. intros s' Hne. simpl. by rewrite lookup_insert_ne.
    + exists feed1. simpl. rewrite lookup_insert_eq. split; [done|]. split; [by intros; eapply sh_inv_Feed| |by eapply Feed_dead|by left].
      intros loc. by apply (fgrows_Feed loc) in EF.
  - eapply dispatch_node; [done| |done]. intros loc. unfold Feed, hub_get in EF. case_bool_decide as Hm; [|by apply Hno].
    unfold feed_incoming. destruct (h_conns feed !! StreamID m); [by destruct (hub_deliver _ _ _ _)|].
    by rewrite bool_decide_false by (by intros [_ ?]).
Qed.
End node.

(** * What the goroutine does *)

(** A write of one chunk is one frame, or nothing. *)
Lemma Write_frame sc s p :
  p ≠ [] → (length p ≤ writeChunk)%nat →
  (∃ n e, Write sc s p = (s, n, Some e)) ∨
  ∃ s' n, Write sc s p = (s', n, None) ∧ isClosed sc = false ∧ Send s (data_frame (sc_connID sc) p) = Ok s'.
Proof.
  intros Hp Hl. unfold Write. destruct (isClosed sc); [left; by eauto|]. destruct p as [|x p]; [done|].
  set (q := x :: p) in *. change (length q) with (S (length p)). unfold q at 1 3. cbn [write_loop]. fold q.
  rewrite take_ge, drop_ge by lia. destruct (Send s _) as [s'|e]; [|left; by eauto]. right.
  destruct (length p); by eauto.
Qed.

(** The sessions after an operation of the stream of [sid]: [ms] was sent. *)
Record sess_step (sid : session_id) (ms : list Message) (sv sv' : CtrlProxyServer) : Prop := {
  sn_other s : s ≠ sid → sessions sv' !! s = sessions sv !! s;
  sn_none : sessions sv !! sid = None → sessions sv' !! sid = None ∧ ms = [];
  sn_log se : sessions sv !! sid = Some se → ∃ se', sessions sv' !! sid = Some se' ∧ logs ms se se';
  sn_clients : clients sv' = clients sv;
}.

Lemma sess_same sid sv sv' : sessions sv' = sessions sv → clients sv' = clients sv → sess_step sid [] sv sv'.
Proof. intros H1 H2. split; rewrite ?H1; try done. intros se Hse. exists se. split; [done|apply logs_nil]. Qed.

Lemma sess_set sid sv se se' ms :
  sessions sv !! sid = Some se → logs ms se se' → sess_step sid ms sv (with_sessions sv (<[sid := se']> (sessions sv))).
Proof.
  intros Hs Hl. split; simpl; [intros s Hne; by rewrite lookup_insert_ne|congruence| |done].
  intros se0 Hse0. assert (se0 = se) as -> by congruence. exists se'. by rewrite lookup_insert_eq.
Qed.

Lemma sess_set_nop sid sv se : sessions sv !! sid = Some se → sess_step sid [] sv (with_sessions sv (<[sid := se]> (sessions sv))).
Proof. intros Hs. eapply sess_set; [done|apply logs_nil]. Qed.

Lemma sess_trans sid ms1 ms2 a b c : sess_step sid ms1 a b → sess_step sid ms2 b c → sess_step sid (ms1 ++ ms2) a c.
Proof.
  intros [H1 H2 H3 H4] [K1 K2 K3 K4]. split; [intros; rewrite K1, H1; done| | |congruence].
  - intros Hn. destruct (H2 Hn) as [Hn1 ->]. by destruct (K2 Hn1) as [? ->].
  - intros se Hse. destruct (H3 _ Hse) as (se1 & Hs1 & L1). destruct (K3 _ Hs1) as (se2 & Hs2 & L2).
    exists se2. split; [done|by eapply logs_app].
Qed.

(** Another goroutine sends a frame on the session. *)
Lemma send_to_step sv sid m :
  feeds (send_to sv sid m) = feeds sv ∧ ∃ ms, sess_step sid ms sv (send_to sv sid m) ∧
    (ms = [] ∨ ms = [m] ∧ Z.of_nat (length (Payload m)) ≤ MaxPayloadSize).
Proof.
  unfold send_to. destruct (sessions sv !! sid) as [se|] eqn:Es; [|split; [done|]; exists []; split; [by apply sess_same|by left]].
  destruct (Send se m) as [se'|] eqn:E; [|split; [done|]; exists []; split; [by apply sess_same|by left]].
  apply Send_logs in E as [Hl Hp]. split; [done|]. exists [m]. split; [by eapply sess_set|by right].
Qed.

(** What the stream [id] may send: frames that fit. *)
Definition own_frame (id : Z) (m : Message) : Prop :=
  StreamID m = id ∧ (Type_ m = MsgData ∨ Type_ m = MsgStreamClose) ∧ Z.of_nat (length (Payload m)) ≤ MaxPayloadSize.

Lemma own_frame_close id m : StreamID m = id → Type_ m = MsgStreamClose → Payload m = [] → own_frame id m.
Proof. intros H1 H2 H3. split_and!; [done|by right|rewrite H3; done]. Qed.

Lemma sess_Write_step sv sid sc p sv' ok :
  p ≠ [] → (length p ≤ writeChunk)%nat → sess_Write sv sid sc p = (sv', ok) →
  feeds sv' = feeds sv ∧
  let ms := if ok then [data_frame (sc_connID sc) p] else [] in sess_step sid ms sv sv' ∧ Forall (own_frame (sc_connID sc)) ms.
Proof.
  intros Hp Hl. unfold sess_Write. destruct (sessions sv !! sid) as [se|] eqn:Es.
  - destruct (Write_frame sc se p Hp Hl) as [(n & e & ->)|(s' & n & -> & _ & Hs)]; intros [= <- <-]; (split; [done|]).
    + split; [by apply sess_set_nop|constructor].
    + apply Send_logs in Hs as [Hlog Hlen]. split; [by eapply sess_set|]. constructor; [|constructor]. split_and!; [done|by left|done].
  - intros [= <- <-]. split; [done|]. split; [by apply sess_same|constructor].
Qed.

(** What [send_frame] logs. *)
Lemma send_frame_logs s m s' err : send_frame s m = (s', err) → s' = s ∨ logs [m] s s'.
Proof. unfold send_frame. destruct (Send s m) eqn:E; intros [= <- <-]; [right; by apply Send_logs in E as []|by left]. Qed.

Lemma sess_CloseWrite_step sv sid sc sc' sv' ok :
  sess_CloseWrite sv sid sc = (sc', sv', ok) →
  feeds sv' = feeds sv ∧ sc' = half_closed sc ∧
  ∃ ms, sess_step sid ms sv sv' ∧ Forall (own_frame (sc_connID sc)) ms ∧ item_bytes (items (sc_connID sc) ms) = [].
Proof.
  unfold sess_CloseWrite, CloseWrite. destruct (sessions sv !! sid) as [se|] eqn:Es.
  - destruct (sc_writeHalf sc) eqn:Eh.
    { intros [= <- <- <-]. split; [done|]. split; [destruct sc; simpl in *; by subst|]. exists [].
      split_and!; [by apply sess_set_nop|constructor|done]. }
    destruct (send_frame se _) as [s' err] eqn:Ef. intros [= <- <- _]. split; [done|]. split; [done|].
    destruct (send_frame_logs _ _ _ _ Ef) as [->|Hl]; [exists []; split_and!; [by apply sess_set_nop|constructor|done]|].
    exists [HalfClose (sc_connID sc)]. split_and!; [by eapply sess_set| |].
    + constructor; [by apply own_frame_close|constructor].
    + unfold items. cbn [omap list_omap]. by rewrite item_of_half.
  - intros [= <- <- _]. split; [done|]. split; [done|]. exists []. split_and!; [by apply sess_same|constructor|done].
Qed.

Lemma sess_Close_step sv sid sc sc' sv' :
  sess_Close sv sid sc = (sc', sv') →
  feeds sv' = feeds sv ∧ sc' = markClosed CauseClosed sc ∧
  ∃ ms, sess_step sid ms sv sv' ∧ Forall (own_frame (sc_connID sc)) ms ∧ item_bytes (items (sc_connID sc) ms) = [].
Proof.
  unfold sess_Close, StreamConn_Close. destruct (sessions sv !! sid) as [se|] eqn:Es.
  - destruct (send_frame se _) as [s' err] eqn:Ef. intros [= <- <-]. split; [done|]. split; [done|].
    destruct (send_frame_logs _ _ _ _ Ef) as [->|Hl]; [exists []; split_and!; [by apply sess_set_nop|constructor|done]|].
    eexists. split_and!; [by eapply sess_set|constructor; [by apply own_frame_close|constructor]|].
    unfold items. cbn [omap list_omap]. by rewrite item_of_full.
  - intros [= <- <-]. split; [done|]. split; [done|]. exists []. split_and!; [by apply sess_same|constructor|done].
Qed.

(** ** One step of the goroutine *)

Definition phase_ok (inn : list byte) (G : Prop) (ph : tphase) (sc : StreamConn) : Prop :=
  match ph with
  | TDialing => over_stream Fwd inn G (new_bridge true) sc
  | TBridging b => over_stream Fwd inn G b sc
  | TEnd None => isClosed sc = true
  | TEnd (Some b) => binv b ∧ (∃ e, b_main b = Returned e) ∧ bc_read (b_conn b Fwd) `prefix_of` inn
  end.

(** What went into the stream so far. *)
Definition into_stream (ph : tphase) : list byte :=
  match ph with TBridging b | TEnd (Some b) => bc_written (b_conn b Fwd) | _ => [] end.

(** The bridge a phase has come to. *)
Definition bridge_of (ph : tphase) : option bridge :=
  match ph with TBridging b => Some b | TEnd b => b | TDialing => None end.

Record own_step (d : CtrlProxy.dial) (ph ph' : tphase) (sv sv' : CtrlProxyServer) (feed : StreamHub) (sc : StreamConn)
    (feed' : StreamHub) (sc' : StreamConn) (ms : list Message) : Prop := {
  ow_other s : s ≠ d_session d → feeds sv' !! s = feeds sv !! s;
  ow_feed : feeds sv' !! d_session d = Some feed';
  ow_conn : hub_conn feed' (d_loc d) = Some sc';
  ow_id : sc_connID sc' = sc_connID sc;
  ow_inv : sh_inv feed';
  ow_length : length (h_heap feed') = length (h_heap feed);
  ow_others l : l ≠ d_loc d → fgrows l [] feed feed';
  ow_map : h_conns feed' ⊆ h_conns feed;
  ow_dead : h_dead feed' = h_dead feed;
  ow_sess : sess_step (d_session d) ms sv sv';
  ow_frames : Forall (own_frame (sc_connID sc)) ms;
  ow_sent : into_stream ph' = into_stream ph ++ item_bytes (items (sc_connID sc) ms);
  ow_phase inn : phase_ok inn (gone (d_loc d) feed) ph sc → phase_ok inn (gone (d_loc d) feed') ph' sc';
}.

Section own.
Context (d : CtrlProxy.dial) (sv : CtrlProxyServer) (feed : StreamHub) (sc : StreamConn).
Hypothesis feed_at : feeds sv !! d_session d = Some feed.
Hypothesis conn_at : hub_conn feed (d_loc d) = Some sc.
Hypothesis feed_inv : sh_inv feed.

Lemma stream_at : stream_of sv d = Some sc.
Proof. unfold stream_of. by rewrite feed_at. Qed.

(** The sessions alone change. *)
Lemma own_sess ph ph' sv1 ms :
  feeds sv1 = feeds sv → sess_step (d_session d) ms sv sv1 → Forall (own_frame (sc_connID sc)) ms →
  into_stream ph' = into_stream ph ++ item_bytes (items (sc_connID sc) ms) →
  (∀ inn G, phase_ok inn G ph sc → phase_ok inn G ph' sc) → own_step d ph ph' sv sv1 feed sc feed sc ms.
Proof. intros Hf Hs Hfr Hw Hp. split; rewrite ?Hf; try done. intros inn. apply Hp. Qed.

(** The stream changes too. *)
Lemma own_set ph ph' sv1 sc' ms :
  feeds sv1 = feeds sv → sess_step (d_session d) ms sv sv1 → Forall (own_frame (sc_connID sc)) ms →
  sc_connID sc' = sc_connID sc → into_stream ph' = into_stream ph ++ item_bytes (items (sc_connID sc) ms) →
  (∀ inn G, phase_ok inn G ph sc → phase_ok inn G ph' sc') →
  own_step d ph ph' sv (set_stream (d_session d) (d_loc d) sc' sv1) feed sc (upd_conn (λ _, sc') (d_loc d) feed) sc' ms.
Proof.
  intros Hf [K1 K2 K3 K4] Hfr Hid Hw Hp. split; simpl; try done.
  - intros s Hne. by rewrite lookup_alter_ne, Hf.
  - by rewrite lookup_alter_eq, Hf, feed_at.
  - rewrite hub_conn_upd, decide_True by done. by rewrite conn_at.
  - destruct feed_inv as [Hc Ha Hi]. split; [|done..]. simpl. intros id l Hl. destruct (Hc _ _ Hl) as (s0 & Hs0 & <-).
    rewrite hub_conn_upd. case_decide as E; [|by exists s0]. rewrite <- E in *. rewrite Hs0. exists sc'. split; [done|]. congruence.
  - apply length_alter.
  - intros l Hl. apply fgrows_upd. congruence.
  - intros inn. apply Hp.
Qed.

Lemma own_close ph ph' sv1 ms :
  feeds sv1 = feeds sv → sess_step (d_session d) ms sv sv1 → Forall (own_frame (sc_connID sc)) ms →
  into_stream ph' = into_stream ph ++ item_bytes (items (sc_connID sc) ms) →
  (∀ inn G, phase_ok inn G ph sc → phase_ok inn G ph' (markClosed CauseClosed sc)) →
  ∃ ms', own_step d ph ph' sv (close_stream sv1 (d_session d) (d_loc d) sc) feed sc
           (upd_conn (λ _, markClosed CauseClosed sc) (d_loc d) feed) (markClosed CauseClosed sc) ms'.
Proof.
  intros Hf Hs Hfr Hw Hp. unfold close_stream. destruct (sess_Close sv1 _ sc) as [sc' sv2] eqn:Ec.
  destruct (sess_Close_step _ _ _ _ _ Ec) as (Hf2 & -> & ms2 & Hs2 & Hfr2 & Hi2). exists (ms ++ ms2). apply own_set; try done.
  - congruence.
  - by eapply sess_trans.
  - by apply Forall_app.
  - apply markClosed_connID.
  - by rewrite items_app, item_bytes_app, Hi2, app_nil_r.
Qed.

Lemma own_return b :
  (∃ e, b_main b = Returned e) →
  ∃ feed' sc', own_step d (TBridging b) (TEnd (Some b)) sv
    (with_feeds sv (alter (λ feed, hub_Remove feed (d_connID d)) (d_session d) (feeds sv))) feed sc feed' sc' [].
Proof.
  intros Hm. destruct (fg_conn _ _ _ _ (fgrows_remove (d_loc d) feed (d_connID d) feed_inv) _ conn_at) as (sc' & Hsc' & Hh & _).
  exists (hub_Remove feed (d_connID d)), sc'. split; simpl.
  - intros s Hne. by rewrite lookup_alter_ne.
  - by rewrite lookup_alter_eq, feed_at.
  - exact Hsc'.
  - apply Hh.
  - unfold hub_Remove. case_match; [|done]. apply sh_inv_upd; [apply markClosed_connID|by apply sh_inv_remove].
  - unfold hub_Remove. case_match; [|done]. simpl. apply length_alter.
  - intros l _. by apply fgrows_remove.
  - unfold hub_Remove. case_match; [|done]. simpl. apply delete_subseteq.
  - unfold hub_Remove. by case_match.
  - by apply sess_same.
  - constructor.
  - by rewrite app_nil_r.
  - intros inn Ho. split; [apply Ho|]. split; [done|apply Ho].
Qed.

Lemma bapply_not_empty b e p w b' : bapply b (BCopy e p w) = Some b' → p ≠ [].
Proof. intros Ha ->. simpl in Ha. by rewrite orb_true_r in Ha. Qed.

(** A step of the bridge. *)
Lemma own_bridge ev b part sv1 b' cl sc1 inn0 G0 :
  over_stream Fwd inn0 G0 b sc →
  chain_event ev b sv (d_session d) (d_loc d) sc = Some (part, sv1) → part_step Fwd part b = Some (b', cl) →
  stream_of sv1 d = Some sc1 →
  ∃ feed' sc' ms, own_step d (TBridging b) (TBridging b') sv
    (if cl then close_stream sv1 (d_session d) (d_loc d) sc1 else sv1) feed sc feed' sc' ms.
Proof.
  intros Hb0 He Hp Hst.
  assert (∀ bev, part = BStep bev → bapply b bev = Some b' ∧ cl = closing bev b') as Hev.
  { intros bev ->. simpl in Hp. by apply bind_Some in Hp as (b1 & Ha & [= <- <-]). }
  assert (∀ bev, bapply b bev = Some b' → binv b') as Hinv by (intros; eapply bapply_inv; [apply Hb0|done]).
  assert (∀ bev inn G, bapply b bev = Some b' → bev ≠ BCtxClose → (∀ p k, bev = BCopy Bwd p (WFail k) → k = 0%nat) →
    side_read Fwd bev = [] → closing bev b' = false → over_stream Fwd inn G b sc → over_stream Fwd inn G b' sc) as Hquiet.
  { intros bev inn G Ha Hx Hk Hr Hcl Ho. pose proof (bapply_side Fwd _ _ _ Ha Hx Hk) as Hs. rewrite Hr, Hcl in Hs.
    by eapply over_stream_quiet; [|by eapply Hinv|]. }
  assert (∀ bev, bapply b bev = Some b' → bev ≠ BCtxClose → (∀ p k, bev = BCopy Bwd p (WFail k) → k = 0%nat) →
    bc_written (b_conn b' Fwd) = bc_written (b_conn b Fwd) ++ side_written Fwd bev) as Hwr.
  { intros bev Ha Hx Hk. apply (bapply_side Fwd _ _ _ Ha Hx Hk). }
  destruct ev as [|n w cw|p| | | | |]; simpl in He; try done.
  - destruct (read_stream Fwd n w cw b sc) as [[part' sc']|] eqn:Er; [|done]. injection He as <- <-.
    destruct (over_stream_read _ _ _ _ _ _ _ _ _ _ _ _ Hb0 Er Hp) as (_ & -> & Hid & Hw).
    exists (upd_conn (λ _, sc') (d_loc d) feed), sc', []. apply own_set; try done; [by apply sess_same| |].
    + simpl. rewrite Hw. symmetry. apply app_nil_r.
    + intros inn G Ho. simpl in *. by destruct (over_stream_read _ _ _ _ _ _ _ _ _ _ _ _ Ho Er Hp).
  - case_bool_decide as Hlen; [done|]. destruct (sess_Write sv (d_session d) sc p) as [sv0 ok] eqn:Ew. injection He as <- <-.
    destruct (Hev _ eq_refl) as [Ha ->]. cbn [closing]. pose proof (bapply_not_empty _ _ _ _ _ Ha) as Hpn.
    destruct (sess_Write_step _ _ _ _ _ _ Hpn ltac:(lia) Ew) as (Hf & Hs & Hfr).
    assert (∀ q k, BCopy Bwd p (if ok then WOk else WFail 0) = BCopy Bwd q (WFail k) → k = 0%nat) as Hk by (by destruct ok; intros q k [=]).
    eexists _, _, _. apply own_sess; [done|exact Hs|exact Hfr| |].
    + simpl. rewrite (Hwr _ Ha) by done. f_equal. destruct ok; [|done]. simpl. unfold items. cbn [omap list_omap].
      unfold data_frame. rewrite item_of_data. symmetry. apply app_nil_r.
    + intros inn G. by apply (Hquiet _ inn G Ha).
  - destruct (sess_CloseWrite sv (d_session d) sc) as [[sc' sv0] ok] eqn:Ew. injection He as <- <-.
    destruct (Hev _ eq_refl) as [Ha ->]. cbn [closing].
    destruct (sess_CloseWrite_step _ _ _ _ _ _ Ew) as (Hf & -> & ms & Hs & Hfr & Hi).
    eexists _, _, ms. apply own_set; try done.
    + simpl. rewrite (Hwr _ Ha) by done. by rewrite Hi.
    + intros inn G Ho. eapply over_stream_same; [by apply (Hquiet _ inn G Ha)|done|done].
  - injection He as <- <-. destruct (Hev _ eq_refl) as [Ha ->]. cbn [closing]. eexists _, _, []. apply own_sess; try done.
    + by apply sess_same.
    + simpl. by rewrite (Hwr _ Ha).
    + intros inn G. by apply (Hquiet _ inn G Ha).
  - injection He as <- <-. destruct (Hev _ eq_refl) as [Ha ->]. cbn [closing].
    assert (sc1 = sc) as -> by (pose proof stream_at; congruence).
    destruct (own_close (TBridging b) (TBridging b') sv []) as [ms Ho]; [done|by apply sess_same|constructor| | |by eauto].
    + simpl. by rewrite (Hwr _ Ha).
    + intros inn G Ho. eapply over_stream_close; [exact Ho|exact Ha|by left|done].
  - injection He as <- <-. destruct (Hev _ eq_refl) as [Ha ->]. destruct (closing BMain b') eqn:Hcl.
    + assert (sc1 = sc) as -> by (pose proof stream_at; congruence).
      destruct (own_close (TBridging b) (TBridging b') sv []) as [ms Ho]; [done|by apply sess_same|constructor| | |by eauto].
      * simpl. by rewrite (Hwr _ Ha).
      * intros inn G Ho. eapply over_stream_close; [exact Ho|exact Ha|by right|done].
    + eexists _, _, []. apply own_sess; try done; [by apply sess_same| |].
      * simpl. by rewrite (Hwr _ Ha).
      * intros inn G. by apply (Hquiet _ inn G Ha).
Qed.

Lemma target_step x ev sv' x' inn0 G0 :
  d = ch_dial x → phase_ok inn0 G0 (ch_phase x) sc → target_apply sv x ev = Some (sv', x') →
  ch_dial x' = d ∧ ∃ feed' sc' ms, own_step d (ch_phase x) (ch_phase x') sv sv' feed sc feed' sc' ms.
Proof.
  intros Hd Hok Ha. unfold target_apply in Ha. rewrite <- Hd, stream_at in Ha.
  destruct (ch_phase x) as [|b|[b|]] eqn:Hph; [destruct ev as [[]| | | | | | |]; try done| |by destruct ev..].
  - injection Ha as <- <-. split; [by rewrite Hd|]. exists feed, sc, []. apply own_sess; try done; by apply sess_same.
  - injection Ha as <- <-. split; [by rewrite Hd|]. eexists _, _.
    apply (own_close _ _ sv []); try done; [by apply sess_same|]. intros. apply markClosed_isClosed.
  - assert (ev = TReturn ∨ ev ≠ TReturn) as [->|Hne] by (destruct ev; by auto).
    { destruct (b_main b) eqn:Hm; try done. injection Ha as <- <-. split; [by rewrite Hd|].
      destruct (own_return b ltac:(by eexists)) as (feed' & sc' & Ho). by exists feed', sc', []. }
    assert (∃ part sv1 b' cl sc1, chain_event ev b sv (d_session d) (d_loc d) sc = Some (part, sv1) ∧
      part_step Fwd part b = Some (b', cl) ∧ stream_of sv1 d = Some sc1 ∧
      sv' = (if cl then close_stream sv1 (d_session d) (d_loc d) sc1 else sv1) ∧ x' = set_tphase (TBridging b') x)
      as (part & sv1 & b' & cl & sc1 & H1 & H2 & H3 & -> & ->).
    { destruct ev; try done; destruct (chain_event _ b sv _ _ _) as [[part sv1]|]; try done;
        destruct (part_step Fwd part b) as [[b' cl]|] eqn:E2; try done;
        destruct (stream_of sv1 d) as [sc1|] eqn:E3; try done; injection Ha as <- <-;
        exists part, sv1, b', cl, sc1; by split_and!. }
    split; [by rewrite Hd|]. by eapply own_bridge.
Qed.
End own.

(** * The node's invariant *)

Section far_inv.
Context {CJ : ControlJson}.
Variable quote : string → string.

(** What an event brings to the stream of the chain [i]. *)
Definition chain_incoming (i : nat) (s : far) (ev : far_event) : list byte :=
  match ev, fr_chains s !! i with
  | FRecv sid _ _ m, Some x => far_incoming (d_session (ch_dial x)) (d_loc (ch_dial x)) (fr_server s) sid m
  | _, _ => []
  end.

(** Each chain has its stream in the feed of its session, and no other chain has it;
    to the chain [i] [inns i] was delivered. *)
Record far_inv (inns : nat → list byte) (s : far) : Prop := {
  fi_feed sid feed : feeds (fr_server s) !! sid = Some feed → sh_inv feed;
  fi_chain i x : fr_chains s !! i = Some x → ∃ feed sc,
    feeds (fr_server s) !! d_session (ch_dial x) = Some feed ∧ hub_conn feed (d_loc (ch_dial x)) = Some sc ∧
    sc_connID sc = d_connID (ch_dial x) ∧ phase_ok (inns i) (gone (d_loc (ch_dial x)) feed) (ch_phase x) sc;
  fi_none i : fr_chains s !! i = None → inns i = [];
  fi_distinct i j x y : fr_chains s !! i = Some x → fr_chains s !! j = Some y →
    d_session (ch_dial x) = d_session (ch_dial y) → d_loc (ch_dial x) = d_loc (ch_dial y) → i = j;
}.

(** Only the delivered bytes of the chains that exist matter. *)
Lemma far_inv_ext inns inns' s : (∀ i, inns i = inns' i) → far_inv inns s → far_inv inns' s.
Proof.
  intros He [H1 H2 H3 H4]. split; [done| |intros i Hi; rewrite <- He; by apply H3|done].
  intros i x Hx. destruct (H2 _ _ Hx) as (feed & sc & ? & ? & ? & ?). exists feed, sc. by rewrite <- He.
Qed.

(** A stream that others moved. *)
Lemma phase_ok_grows inn inc loc feed feed' ph sc :
  phase_ok inn (gone loc feed) ph sc → hub_conn feed loc = Some sc → fgrows loc inc feed feed' → (gone loc feed → inc = []) →
  ∃ sc', hub_conn feed' loc = Some sc' ∧ sc_connID sc' = sc_connID sc ∧ phase_ok (inn ++ inc) (gone loc feed') ph sc'.
Proof.
  intros Hok Hsc Hg Hinc. destruct (fg_conn _ _ _ _ Hg _ Hsc) as (sc' & Hsc' & Hh & Hc).
  exists sc'. split_and!; [done|apply Hh|].
  assert (gone loc feed → gone loc feed') as Hgg by (intros; eapply fgrows_gone; [done|by eapply lookup_lt_Some|done]).
  destruct ph as [|b|[b|]]; simpl in *; [by eapply over_stream_grows..| |].
  { destruct Hok as (? & ? & ?). split_and!; [done..|by apply prefix_app_r]. }
  destruct (isClosed sc') eqn:Ec'; [done|]. rewrite (hd_closed _ _ _ Hh Ec') in Hok. done.
Qed.

(** The feeds of a server after a step of others. *)
Lemma far_inv_feeds inns inc s sv' :
  far_inv inns s →
  (∀ sid feed, feeds (fr_server s) !! sid = Some feed → ∃ feed', feeds sv' !! sid = Some feed' ∧ (sh_inv feed → sh_inv feed') ∧
     ∀ loc, fgrows loc (inc sid loc) feed feed' ∧ (gone loc feed → inc sid loc = [])) →
  (∀ sid feed', feeds (fr_server s) !! sid = None → feeds sv' !! sid = Some feed' → sh_inv feed') →
  far_inv (λ i, inns i ++ match fr_chains s !! i with Some x => inc (d_session (ch_dial x)) (d_loc (ch_dial x)) | None => [] end)
    (mkFar sv' (fr_chains s)).
Proof.
  intros [H1 H2 H3 H4] Hf Hn. split; simpl.
  - intros sid feed' Hf'. destruct (feeds (fr_server s) !! sid) as [feed|] eqn:E; [|by eapply Hn].
    destruct (Hf _ _ E) as (feed2 & Hf2 & Hi & _). assert (feed2 = feed') as -> by congruence. by eapply Hi, H1.
  - intros i x Hx. rewrite Hx. destruct (H2 _ _ Hx) as (feed & sc & Hfe & Hsc & Hid & Hok).
    destruct (Hf _ _ Hfe) as (feed' & Hfe' & _ & Hg). destruct (Hg (d_loc (ch_dial x))) as [Hg1 Hg2].
    destruct (phase_ok_grows _ _ _ _ _ _ _ Hok Hsc Hg1 Hg2) as (sc' & K1 & K2 & K3).
    exists feed', sc'. split_and!; [done..|congruence|done].
  - intros i Hi. by rewrite H3, Hi.
  - done.
Qed.

(** New chains at the end, each over a new stream. *)
Lemma far_inv_new inns sv chains d :
  far_inv inns (mkFar sv chains) →
  (∀ feed, feeds sv !! d_session d = Some feed → hub_conn feed (d_loc d) = Some (newStreamConn (d_connID d))) →
  is_Some (feeds sv !! d_session d) →
  (∀ i x, chains !! i = Some x → d_session (ch_dial x) = d_session d → d_loc (ch_dial x) ≠ d_loc d) →
  far_inv inns (mkFar sv (chains ++ [mkChained d TDialing])).
Proof.
  intros [H1 H2 H3 H4] Hs [feed Hf] Hd. simpl in *. split; simpl; [done| | |].
  - intros i x [Hx|[Hi Hx]]%lookup_app_Some; [by apply H2|]. apply list_lookup_singleton_Some in Hx as [Hi0 <-]. simpl.
    exists feed, (newStreamConn (d_connID d)). split_and!; [done|by apply Hs|done|].
    rewrite H3; [apply over_stream_new|]. apply lookup_ge_None. lia.
  - intros i Hi. apply H3. apply lookup_ge_None in Hi. apply lookup_ge_None. rewrite length_app in Hi. simpl in Hi. lia.
  - intros i j x y [Hx|[Hi Hx]]%lookup_app_Some [Hy|[Hj Hy]]%lookup_app_Some.
    + by apply H4.
    + apply list_lookup_singleton_Some in Hy as [Hj0 <-]. simpl. intros E1 E2. by destruct (Hd _ _ Hx E1).
    + apply list_lookup_singleton_Some in Hx as [Hi0 <-]. simpl. intros E1 E2. by destruct (Hd _ _ Hy (eq_sym E1)).
    + apply list_lookup_singleton_Some in Hx as [Hi0 _]. apply list_lookup_singleton_Some in Hy as [Hj0 _]. lia.
Qed.

Lemma far_inv_connect inns s sid conn remote now s' :
  far_inv inns s → far_apply quote s (FConnect sid conn remote now) = Some s' →
  far_inv (λ i, inns i ++ chain_incoming i s (FConnect sid conn remote now)) s'.
Proof.
  intros Hinv Ha. simpl in Ha.
  destruct (feeds (fr_server s) !! sid) eqn:Ef; [done|]. injection Ha as <-.
  eapply far_inv_ext; [|eapply (far_inv_feeds inns (λ _ _, []) s _); [exact Hinv| |]].
  + intros i. simpl. by destruct (fr_chains s !! i).
  + intros sid' feed Hf. exists feed. split_and!; [|done|done]. unfold connect.
    destruct (ServerHandshakeVerify _ _) as [se [req|e]]; simpl; [|done]. by rewrite lookup_insert_ne by congruence.
  + intros sid' feed' Hn. unfold connect. destruct (ServerHandshakeVerify _ _) as [se [req|e]]; simpl; [|congruence].
    intros [[_ <-]|[_ ?]]%lookup_insert_Some; [apply sh_inv_new|congruence].
Qed.

Lemma far_inv_recv inns s sid pick now m s' :
  far_inv inns s → far_apply quote s (FRecv sid pick now m) = Some s' →
  far_inv (λ i, inns i ++ chain_incoming i s (FRecv sid pick now m)) s'.
Proof.
  intros Hinv Ha. simpl in Ha.
  destruct (handle quote pick now (fr_server s) sid m) as [[sv' ds]|] eqn:Eh; [|done]. injection Ha as <-.
  destruct (handle_node quote _ _ _ _ _ _ _ Eh) as [Hnode [(Hno & -> & ->)|(feed & feed' & Hcl & Hf & Hf' & [Hsi Hgr _ Hds])]].
  { simpl. rewrite app_nil_r. destruct s as [sv chains]. simpl in *. eapply far_inv_ext; [|exact Hinv].
    intros i. unfold far_incoming. destruct (chains !! i); [|by rewrite app_nil_r].
    case_decide; [|by rewrite app_nil_r]. destruct Hno as [-> | ->]; [|case_match]; by rewrite app_nil_r. }
  assert (far_inv (λ i, inns i ++ chain_incoming i s (FRecv sid pick now m)) (mkFar sv' (fr_chains s))) as Hinv'.
  { eapply far_inv_ext; [|eapply (far_inv_feeds inns (λ s' loc, far_incoming s' loc (fr_server s) sid m) s _); [exact Hinv| |]].
    + intros i. simpl. by destruct (fr_chains s !! i).
    + intros sid' feed0 Hf0. unfold far_incoming. destruct (decide (sid = sid')) as [<-|Hne].
      * assert (feed0 = feed) as -> by congruence. exists feed'. destruct Hcl as [info Hcl]. rewrite Hcl, Hf.
        split_and!; [done..|]. intros loc. split; [apply Hgr|apply feed_incoming_gone].
      * exists feed0. rewrite (nd_feeds _ _ _ Hnode) by done. split_and!; [done..|]. by intros.
    + intros sid' feed0 Hn Hf0. destruct (decide (sid' = sid)) as [->|Hne]; [congruence|].
      rewrite (nd_feeds _ _ _ Hnode) in Hf0 by done. congruence. }
  destruct Hds as [->|(connID & tg & -> & Hnew & _)]; [by rewrite app_nil_r|].
  apply far_inv_new; simpl; [exact Hinv'| |by eexists|].
  + intros feed0 Hf0. by assert (feed0 = feed') as -> by congruence.
  + intros i x Hx Hs Hl. destruct (fi_chain _ _ Hinv _ _ Hx) as (feed0 & sc & Hf0 & Hsc & _).
    rewrite Hs in Hf0. assert (feed0 = feed) as -> by congruence. apply lookup_lt_Some in Hsc. lia.
Qed.

Lemma far_inv_disconnect inns s sid s' :
  far_inv inns s → far_apply quote s (FDisconnect sid) = Some s' →
  far_inv (λ i, inns i ++ chain_incoming i s (FDisconnect sid)) s'.
Proof.
  intros Hinv Ha. simpl in Ha.
  injection Ha as <-. eapply far_inv_ext; [|eapply (far_inv_feeds inns (λ _ _, []) s _); [exact Hinv| |]].
  + intros i. simpl. by destruct (fr_chains s !! i).
  + intros sid' feed Hf. unfold disconnect. simpl. destruct (decide (sid = sid')) as [<-|Hne].
    * rewrite lookup_alter_eq, Hf. eexists. split; [done|]. split; [|intros loc; split; [apply fgrows_closed|done]].
      intros Hi. unfold SessionClosed. case_match; [done|]. split; simpl; intros; simplify_map_eq.
    * rewrite lookup_alter_ne by done. exists feed. by split_and!.
  + intros sid' feed' Hn. unfold disconnect. simpl. destruct (decide (sid = sid')) as [<-|Hne].
    * rewrite lookup_alter_eq, Hn. done.
    * rewrite lookup_alter_ne by done. congruence.
Qed.

Lemma far_inv_chain inns s i ev s' :
  far_inv inns s → far_apply quote s (FChain i ev) = Some s' →
  far_inv (λ j, inns j ++ chain_incoming j s (FChain i ev)) s'.
Proof.
  intros Hinv Ha. simpl in Ha.
  destruct (fr_chains s !! i) as [x|] eqn:Hx; [|done]. destruct (target_apply (fr_server s) x ev) as [[sv' x']|] eqn:Et; [|done].
  injection Ha as <-. eapply far_inv_ext; [intros j; symmetry; apply app_nil_r|].
  destruct (fi_chain _ _ Hinv _ _ Hx) as (feed & sc & Hf & Hsc & Hid & Hok).
  destruct (target_step (ch_dial x) _ feed sc Hf Hsc ltac:(by eapply fi_feed) x ev sv' x' _ _ eq_refl Hok Et)
    as (Hd & feed' & sc' & ms & Ho). destruct Hinv as [H1 H2 H3 H4]. split; simpl.
  + intros sid f Hsf. destruct (decide (sid = d_session (ch_dial x))) as [->|Hne].
    * rewrite (ow_feed _ _ _ _ _ _ _ _ _ _ Ho) in Hsf. injection Hsf as <-. apply Ho.
    * rewrite (ow_other _ _ _ _ _ _ _ _ _ _ Ho) in Hsf by done. by eapply H1.
  + intros j y [(<- & Heq & _)|[Hne Hy]]%list_lookup_insert_Some.
    * subst y. rewrite Hd. exists feed', sc'. split_and!; [apply Ho|apply Ho|rewrite (ow_id _ _ _ _ _ _ _ _ _ _ Ho); done|by apply Ho].
    * destruct (H2 _ _ Hy) as (fy & sy & Hfy & Hsy & Hidy & Hoky). destruct (decide (d_session (ch_dial y) = d_session (ch_dial x))) as [Es|Es].
      -- rewrite Es in *. assert (fy = feed) as -> by congruence.
         assert (d_loc (ch_dial y) ≠ d_loc (ch_dial x)) as Hln by (intros El; by destruct Hne; eapply H4).
         destruct (phase_ok_grows _ [] _ _ _ _ _ Hoky Hsy (ow_others _ _ _ _ _ _ _ _ _ _ Ho _ Hln) ltac:(done)) as (sc2 & K1 & K2 & K3).
         rewrite app_nil_r in K3. exists feed', sc2. split_and!; [apply Ho|done|congruence|done].
      -- exists fy, sy. rewrite (ow_other _ _ _ _ _ _ _ _ _ _ Ho) by done. by split_and!.
  + intros j Hj. apply H3. apply lookup_ge_None in Hj. rewrite length_insert in Hj. by apply lookup_ge_None.
  + intros j k y z Hy Hz. apply list_lookup_insert_Some in Hy, Hz.
    assert (∀ j y, i = j ∧ x' = y ∧ (j < length (fr_chains s))%nat ∨ i ≠ j ∧ fr_chains s !! j = Some y →
      ∃ y0, fr_chains s !! j = Some y0 ∧ ch_dial y0 = ch_dial y) as Hold.
    { intros j0 y0 [(<- & <- & _)|[_ ?]]; [by exists x|by exists y0]. }
    destruct (Hold _ _ Hy) as (y0 & Hy0 & <-), (Hold _ _ Hz) as (z0 & Hz0 & <-). by eapply H4.
Qed.

Lemma far_inv_proxy inns s h sid m s' :
  far_inv inns s → far_apply quote s (FProxy h sid m) = Some s' →
  far_inv (λ i, inns i ++ chain_incoming i s (FProxy h sid m)) s'.
Proof.
  intros Hinv Ha. simpl in Ha.
  injection Ha as <-. destruct (send_to_step (with_hub (fr_server s) h) sid m) as (Hf & _).
  eapply far_inv_ext; [|eapply (far_inv_feeds inns (λ _ _, []) s _); [exact Hinv| |]].
  + intros i. simpl. by destruct (fr_chains s !! i).
  + intros sid' feed. rewrite Hf. intros Hsf. exists feed. by split_and!.
  + intros sid' feed'. rewrite Hf. simpl. congruence.
Qed.

Lemma far_inv_step inns s ev s' :
  far_inv inns s → far_apply quote s ev = Some s' → far_inv (λ i, inns i ++ chain_incoming i s ev) s'.
Proof.
  destruct ev; [apply far_inv_connect|apply far_inv_recv|apply far_inv_disconnect|apply far_inv_chain|apply far_inv_proxy].
Qed.
End far_inv.

(** * What a chain has sent *)

Section far_sent.
Context {CJ : ControlJson}.
Variable quote : string → string.

(** The frames [ms] of the stream [id] carry [p], in order. *)
Definition carries (id : Z) (p : list byte) (ms : list Message) : Prop :=
  Forall (own_frame id) ms ∧ item_bytes (items id ms) = p.

(** What went into the stream of a chain is on the wire of its session. *)
Definition sent_ok (s : far) (x : chained) : Prop :=
  ∃ ms, carries (d_connID (ch_dial x)) (into_stream (ch_phase x)) ms ∧
    ∀ se, sessions (fr_server s) !! d_session (ch_dial x) = Some se → frame <$> ms `sublist_of` w_log (s_out se).

(** The sessions of the chains only grow. *)
Definition sess_grows (sid : session_id) (sv sv' : CtrlProxyServer) : Prop :=
  ∀ se', sessions sv' !! sid = Some se' → ∃ se ms, sessions sv !! sid = Some se ∧ logs ms se se'.

Lemma sent_ok_grows s sv' chains x :
  sess_grows (d_session (ch_dial x)) (fr_server s) sv' → sent_ok s x → sent_ok (mkFar sv' chains) x.
Proof.
  intros Hg (ms & Hc & Hs). exists ms. split; [done|]. intros se' Hse'. destruct (Hg _ Hse') as (se & ms' & Hse & Hl).
  rewrite Hl. apply sublist_inserts_r. by apply Hs.
Qed.

Lemma sess_grows_refl sid sv sv' : sessions sv' !! sid = sessions sv !! sid → sess_grows sid sv sv'.
Proof. intros He se' Hse'. exists se', []. split; [congruence|apply logs_nil]. Qed.

Lemma node_grows s sv sv' sid : node_step s sv sv' → sess_grows sid sv sv'.
Proof.
  intros [_ Ho Hn _ Hl]. destruct (decide (sid = s)) as [->|Hne]; [|by apply sess_grows_refl, Ho].
  intros se' Hse'. destruct (sessions sv !! s) as [se|] eqn:E; [|rewrite (Hn eq_refl) in Hse'; done].
  destruct (Hl _ eq_refl) as (se1 & ms & Hs1 & Hlog & _). assert (se1 = se') as -> by congruence. by exists se, ms.
Qed.

Lemma sess_step_grows s ms sv sv' sid : sess_step s ms sv sv' → sess_grows sid sv sv'.
Proof.
  intros [Ho Hn Hl _]. destruct (decide (sid = s)) as [->|Hne]; [|by apply sess_grows_refl, Ho].
  intros se' Hse'. destruct (sessions sv !! s) as [se|] eqn:E; [|destruct (Hn eq_refl); congruence].
  destruct (Hl _ eq_refl) as (se1 & Hs1 & Hlog). assert (se1 = se') as -> by congruence. by exists se, ms.
Qed.

Lemma sent_step inns s ev s' :
  far_inv inns s → far_apply quote s ev = Some s' → (∀ i x, fr_chains s !! i = Some x → sent_ok s x) →
  ∀ i x, fr_chains s' !! i = Some x → sent_ok s' x.
Proof.
  intros Hinv Ha Hs. destruct ev as [sid conn remote now|sid pick now m|sid|i ev|h sid m]; simpl in Ha.
  - destruct (feeds (fr_server s) !! sid) eqn:Ef; [done|]. injection Ha as <-. intros i x Hx. simpl in Hx.
    apply (sent_ok_grows s); [|by eapply Hs]. apply sess_grows_refl.
    destruct (fi_chain _ _ Hinv _ _ Hx) as (feed & _ & Hf & _).
    unfold connect. destruct (ServerHandshakeVerify _ _) as [se [req|e]]; simpl; [|done]. by rewrite lookup_insert_ne by congruence.
  - destruct (handle quote pick now (fr_server s) sid m) as [[sv' ds]|] eqn:Eh; [|done]. injection Ha as <-.
    destruct (handle_node quote _ _ _ _ _ _ _ Eh) as [Hnode _].
    intros i x [Hx|[_ Hx]]%lookup_app_Some; simpl in *.
    + apply (sent_ok_grows s); [by apply (node_grows _ _ _ _ Hnode)|by eapply Hs].
    + rewrite list_lookup_fmap in Hx. destruct (ds !! _) as [d|]; simplify_eq/=. exists []. split; [split; [constructor|done]|].
      intros. apply sublist_nil_l.
  - injection Ha as <-. intros i x Hx. simpl in Hx. apply (sent_ok_grows s); [|by eapply Hs].
    intros se'. unfold disconnect. simpl. intros [_ Hse]%lookup_delete_Some. exists se', []. split; [done|apply logs_nil].
  - destruct (fr_chains s !! i) as [x|] eqn:Hx; [|done]. destruct (target_apply (fr_server s) x ev) as [[sv' x']|] eqn:Et; [|done].
    injection Ha as <-. destruct (fi_chain _ _ Hinv _ _ Hx) as (feed & sc & Hf & Hsc & Hid & Hok).
    destruct (target_step (ch_dial x) _ feed sc Hf Hsc ltac:(by eapply fi_feed) x ev sv' x' _ _ eq_refl Hok Et)
      as (Hd & feed' & sc' & ms & Ho). pose proof (ow_sess _ _ _ _ _ _ _ _ _ _ Ho) as Hss.
    intros j y [(<- & Heq & _)|[Hne Hy]]%list_lookup_insert_Some.
    + subst y. destruct (Hs _ _ Hx) as (ms0 & [Hf0 Hb0] & Hl0). exists (ms0 ++ ms). rewrite Hd, <- Hid in *. split; [split|].
      * apply Forall_app. split; [done|apply Ho].
      * rewrite items_app, item_bytes_app, Hb0. symmetry. apply Ho.
      * intros se' Hse'. simpl in Hse'. destruct (sessions (fr_server s) !! d_session (ch_dial x)) as [se|] eqn:Ese.
        -- destruct (sn_log _ _ _ _ Hss _ Ese) as (se1 & Hs1 & Hlog). assert (se1 = se') as -> by congruence.
           rewrite Hlog, fmap_app. apply sublist_app; [by apply Hl0|done].
        -- destruct (sn_none _ _ _ _ Hss Ese). congruence.
    + apply (sent_ok_grows s); [|by eapply Hs]. by eapply sess_step_grows.
  - injection Ha as <-. intros i x Hx. simpl in Hx. apply (sent_ok_grows s); [|by eapply Hs].
    destruct (send_to_step (with_hub (fr_server s) h) sid m) as (_ & ms & Hst & _).
    exact (sess_step_grows _ _ _ _ _ Hst).
Qed.

(** What the read loop of its session has delivered to a chain. *)
Fixpoint far_delivered (i : nat) (s : far) (evs : list far_event) : list byte :=
  match evs with
  | [] => []
  | ev :: evs =>
      chain_incoming i s ev ++ match far_apply quote s ev with Some s => far_delivered i s evs | None => [] end
  end.

Lemma far_run_inv inns s evs s' :
  far_inv inns s → (∀ i x, fr_chains s !! i = Some x → sent_ok s x) → far_run quote s evs = Some s' →
  far_inv (λ i, inns i ++ far_delivered i s evs) s' ∧ ∀ i x, fr_chains s' !! i = Some x → sent_ok s' x.
Proof.
  revert inns s. induction evs as [|ev evs IH]; intros inns s Hi Hs; simpl.
  - intros [= <-]. split; [|done]. eapply far_inv_ext; [|exact Hi]. intros i. simpl. by rewrite app_nil_r.
  - destruct (far_apply quote s ev) as [s1|] eqn:Ea; [|done]. simpl. intros Hr.
    pose proof (far_inv_step quote _ _ _ _ Hi Ea) as Hi1.
    destruct (IH _ _ Hi1 (sent_step _ _ _ _ Hi Ea Hs) Hr) as [H1 H2]. split; [|done].
    eapply far_inv_ext; [|exact H1]. intros i. simpl. by rewrite <- app_assoc.
Qed.

Lemma far_inv_new_node sv : feeds sv = ∅ → far_inv (λ _, []) (mkFar sv []).
Proof. intros Hf. split; simpl; rewrite ?Hf; done. Qed.
End far_sent.

(** * Properties *)

(** C10: The far end of a chained connection carries it faithfully. In every run of
    a node, whatever its sessions receive, lose and start anew and whatever the
    goroutines of its chains do, in any order: a chain has its stream in the feed
    of the session it came over; what it has read from its target is, as far as
    it was written to the stream, on the wire of that session, in order, in frames
    of the connection's own number; until it bridges, nothing delivered is lost;
    while it bridges, what the target got is a prefix of what the read loop
    delivered for this connection, and nothing is missing between what was read
    and what is queued until the stream is closed or its end is seen; when its
    bridge has returned, both sides are closed, and if it returned without an error,
    everything read at either side had been written at the other. *)
Theorem chain_target_copies {CJ : ControlJson} quote sv evs s i x :
  feeds sv = ∅ → far_run quote (mkFar sv []) evs = Some s → fr_chains s !! i = Some x →
  let inn := far_delivered quote i (mkFar sv []) evs in
  let d := ch_dial x in
  ∃ feed sc ms, feeds (fr_server s) !! d_session d = Some feed ∧ hub_conn feed (d_loc d) = Some sc ∧ sc_connID sc = d_connID d ∧
    carries (d_connID d) (into_stream (ch_phase x)) ms ∧
    (∀ se, sessions (fr_server s) !! d_session d = Some se → frame <$> ms `sublist_of` w_log (s_out se)) ∧
    match ch_phase x with
    | TDialing => (content sc).1 `prefix_of` inn ∧ (isClosed sc = false → (content sc).2 = false → (content sc).1 = inn)
    | TBridging b =>
        bc_written (b_conn b Bwd) `prefix_of` bc_read (b_conn b Fwd) ∧ bc_read (b_conn b Fwd) `prefix_of` inn ∧
        (bc_closed (b_conn b Fwd) = false → isClosed sc = false → (content sc).2 = false →
           bc_read (b_conn b Fwd) ++ (content sc).1 = inn) ∧
        bc_written (b_conn b Fwd) `prefix_of` bc_read (b_conn b Bwd)
    | TEnd (Some b) =>
        (∀ e, bc_closed (b_conn b e) = true) ∧ bc_written (b_conn b Bwd) `prefix_of` inn ∧
        bc_written (b_conn b Fwd) `prefix_of` bc_read (b_conn b Bwd) ∧
        (b_main b = Returned None → ∀ e, bc_written (b_conn b (flip e)) = bc_read (b_conn b e))
    | TEnd None => isClosed sc = true
    end.
Proof.
  intros Hf Hr Hx inn d.
  destruct (far_run_inv quote (λ _, []) _ _ _ (far_inv_new_node _ Hf) ltac:(done) Hr) as [Hi Hs].
  destruct (fi_chain _ _ Hi _ _ Hx) as (feed & sc & H1 & H2 & H3 & Hok). destruct (Hs _ _ Hx) as (ms & Hc & Hw).
  exists feed, sc, ms. split_and!; [done..|]. simpl in Hok. fold inn in Hok.
  destruct (ch_phase x) as [|b|[b|]]; [| | |done].
  - destruct (os_open _ _ _ _ _ Hok eq_refl) as (K1 & K2 & _). by split.
  - destruct Hok as [K1 _ K3 K4]. split_and!; [apply (bi_prefix _ K1 Fwd)|done| |apply (bi_prefix _ K1 Bwd)].
    intros Ho. by apply K4.
  - destruct Hok as (K1 & [e He] & K3).
    split_and!; [by eapply bi_closed|etrans; [apply (bi_prefix _ K1 Fwd)|done]|apply (bi_prefix _ K1 Bwd)|by apply binv_returned].
Qed.

(** * Witnesses *)

(** The first client of [CtrlProxy]'s server chains a connection to its stream;
    both sides send and end. *)
Definition demo_node : far := mkFar demo_sv0 [].
Definition demo_recv (m : Message) : far_event := FRecv 1 false 0 m.
Definition demo_target_evs : list far_event :=
  [FConnect 1 (demo_hello "pw-a") "c1" 0;
   demo_recv (control_message MsgRegisterStream (mkRegisterStreamReq "a" "ssh"));
   demo_recv demo_conn_req; FChain 0 (TDial true);
   demo_recv (mkMessage MsgData x00 demo_num [x63; x64]);
   FChain 0 (TDown 1 WOk CwOk); FChain 0 (TUp [x61; x62]); FChain 0 (TDown 1 WOk CwOk)].
Definition demo_target_end : list far_event :=
  [demo_recv (HalfClose demo_num); FChain 0 (TDown 1 WOk CwOk); FChain 0 TUpEOF; FChain 0 TMain; FChain 0 TMain; FChain 0 TReturn].
Definition demo_far (evs : list far_event) : far := default demo_node (far_run demo_quote demo_node evs).

Lemma chain_target_copies_witness :
  far_delivered demo_quote 0 demo_node (demo_target_evs ++ demo_target_end) = [x63; x64] ∧
  ∃ x b, fr_chains (demo_far (demo_target_evs ++ demo_target_end)) = [x] ∧ ch_phase x = TEnd (Some b) ∧
    bc_written (b_conn b Bwd) = [x63; x64] ∧ bc_written (b_conn b Fwd) = [x61; x62] ∧
    bc_written (b_conn b Fwd) = bc_read (b_conn b Bwd).
Proof.
  assert (far_run demo_quote demo_node (demo_target_evs ++ demo_target_end) = Some (demo_far (demo_target_evs ++ demo_target_end))) as Hr
    by (vm_compute; reflexivity).
  assert (∃ x b, fr_chains (demo_far (demo_target_evs ++ demo_target_end)) = [x] ∧ ch_phase x = TEnd (Some b) ∧
    b_main b = Returned None ∧ bc_written (b_conn b Bwd) = [x63; x64] ∧ bc_written (b_conn b Fwd) = [x61; x62])
    as (x & b & Hx & Hp & Hm & H1 & H2) by (eexists _, _; vm_compute; by split_and!).
  pose proof (chain_target_copies demo_quote demo_sv0 _ _ 0 x eq_refl Hr ltac:(rewrite Hx; reflexivity)) as H.
  cbn zeta in H. rewrite Hp in H. destruct H as (feed & sc & ms & _ & _ & _ & _ & _ & _ & _ & _ & He).
  split; [vm_compute; reflexivity|]. exists x, b. split; [exact Hx|]. split; [exact Hp|]. split; [exact H1|]. split; [exact H2|].
  exact (He Hm Bwd).
Defined.
