(* ===== verification/EndToEnd.v ===== *)
(** Chained connections end to end: the gateway of [Ingress] and the node of
    [Chain] joined by the two directions of a session. The user's bytes come to
    the target and the target's to the user, each in order and none invented,
    whatever else shares the session. *)
From S2P Require Import Prelude Message TextCodec Window StreamTable CtrlHub Handshake Config Register CtrlProxy.
From S2P Require Import Adapter CtrlClient Bridge BridgeEnd Dialer Tunnel Ingress Chain.
From Stdlib Require Import ZArith Lia.

(** * What the near side sends *)

(** ** The client, apart from its dials *)

(** Neither a request of a chained connection nor one of its frames: their numbers
    have the highest bit. *)
Definition plain (m : Message) : Prop :=
  Type_ m ≠ MsgClientConnReq ∧ (Type_ m = MsgData ∨ Type_ m = MsgStreamClose → 0 ≤ StreamID m < 2 ^ 31).

Definition low (c : CtrlClient) : Prop := Forall (λ id, 0 ≤ id < 2 ^ 31) (lc_id <$> c_heap c).

(** The connection that a message opens is one of the server's own. *)
Definition opens_low {CJ : ControlJson} (m : Message) : Prop :=
  Type_ m = MsgConnOpen → ∀ req : ConnOpenReq, DecodeControl m = Ok req → 0 ≤ cr_ConnID req < 2 ^ 31.

(** A step that dials nothing: it sends plain messages only. *)
Definition nrel (c c' : CtrlClient) : Prop :=
  low c → low c' ∧ (∃ new, c_out c' = c_out c ++ new ∧ Forall plain new) ∧
  sc_connID <$> c_dheap c' = sc_connID <$> c_dheap c ∧ dialSeq c' = dialSeq c ∧ dialConns c' ⊆ dialConns c.

#[export] Instance nrel_refl : Reflexive nrel.
Proof. intros c Hl. split_and!; try done. exists []. rewrite app_nil_r. by split. Qed.

#[export] Instance nrel_trans : Transitive nrel.
Proof.
  intros a b c H K Hl. destruct (H Hl) as (L1 & (n1 & E1 & F1) & D1 & S1 & M1). destruct (K L1) as (L2 & (n2 & E2 & F2) & D2 & S2 & M2).
  split_and!; [done| |congruence|congruence|by etrans]. exists (n1 ++ n2). rewrite E2, E1, app_assoc. split; [done|by apply Forall_app].
Qed.

Lemma fmap_alter_id {A B} (g : A → B) (f : A → A) (i : nat) (l : list A) : (∀ x, g (f x) = g x) → g <$> alter f i l = g <$> l.
Proof. intros H. revert i. induction l as [|x l IH]; intros [|i]; try done; cbn; f_equal; [apply H|apply IH]. Qed.

Lemma fmap_foldl_alter {A B X} (g : A → B) (f : A → A) (k : X → nat) (xs : list X) (l : list A) :
  (∀ x, g (f x) = g x) → g <$> foldl (λ h x, alter f (k x) h) l xs = g <$> l.
Proof. intros H. revert l. induction xs as [|x xs IH]; intros l; simpl; [done|]. by rewrite IH, fmap_alter_id. Qed.

Lemma nrel_same c c' :
  c_out c' = c_out c → lc_id <$> c_heap c' = lc_id <$> c_heap c → sc_connID <$> c_dheap c' = sc_connID <$> c_dheap c →
  dialSeq c' = dialSeq c → dialConns c' ⊆ dialConns c → nrel c c'.
Proof.
  intros H1 H2 H3 H4 H5 Hl. split_and!; try done; [by unfold low in *; rewrite H2|].
  exists []. rewrite app_nil_r. by split.
Qed.

Ltac near_same := apply nrel_same; first [done | apply delete_subseteq | by apply fmap_alter_id].

Lemma nrel_upd f i c : (∀ k, lc_id (f k) = lc_id k) → nrel c (upd f i c).
Proof. intros Hf. apply nrel_same; try done. by apply fmap_alter_id. Qed.

Lemma nrel_upd_opt f o c : (∀ k, lc_id (f k) = lc_id k) → nrel c (upd_opt f o c).
Proof. intros Hf. destruct o; [by apply nrel_upd|done]. Qed.

Lemma nrel_send c m : plain m → nrel c (send c m).1.
Proof.
  intros Hm Hl. destruct (send_spec c m) as [-> | ->]; [by apply nrel_refl|]. simpl. split_and!; try done.
  exists [m]. split; [done|by constructor].
Qed.

Lemma plain_ctrl m : Type_ m ≠ MsgClientConnReq → Type_ m ≠ MsgData → Type_ m ≠ MsgStreamClose → plain m.
Proof. intros H1 H2 H3. split; [done|]. by intros [?|?]. Qed.

Lemma plain_close id : 0 ≤ id < 2 ^ 31 → plain (mkMessage MsgStreamClose x00 id []).
Proof. by intros H. Qed.

Lemma nrel_closeConn c id notify : (notify = true → 0 ≤ id < 2 ^ 31) → nrel c (closeConn c id notify).
Proof.
  intros Hid. unfold closeConn. set (c1 := with_conns _ _ _ _). assert (nrel c c1) as H1 by near_same.
  destruct (conns c !! id); [|done]. etrans; [exact H1|]. set (c2 := upd (add_io LClose) _ _).
  assert (nrel c1 c2) as H2.
  { etrans; [|by apply nrel_upd]. etrans; by apply nrel_upd_opt. }
  etrans; [exact H2|]. destruct notify; [|done]. unfold CloseStream. apply nrel_send. by apply plain_close, Hid.
Qed.

Lemma nrel_run_end c : nrel c (run_end c).
Proof.
  unfold run_end, closeAllConns. apply nrel_same; simpl; try done; [|apply fmap_foldl_alter; apply markClosed_connID|apply map_empty_subseteq].
  by rewrite !fmap_foldl_alter.
Qed.

Section near.
Context {CJ : ControlJson}.
Variable quote : string → string.

Lemma nrel_handleConnOpen c m dialed : Type_ m = MsgConnOpen → opens_low m → nrel c (handleConnOpen quote c m dialed).
Proof.
  intros Ht Ho. unfold handleConnOpen. destruct (DecodeControl (A := ConnOpenReq) m) as [req|e] eqn:Ed; [|done].
  pose proof (Ho Ht req Ed) as Hid. set (reply := match streamIDs c !! _ with Some _ => _ | None => _ end). destruct reply as [ok reason].
  pose proof (nrel_send c (control_message MsgConnOpenAck (mkConnOpenAck (cr_ConnID req) ok reason))) as Hs.
  destruct (send c _) as [c1 sent]; simpl in Hs. specialize (Hs ltac:(by apply plain_ctrl)). destruct ok; [|done]. simpl.
  assert (∀ k, lc_id k = cr_ConnID req → nrel c1 (with_heap c1 (c_heap c1 ++ [k]))) as Hk.
  { intros k Hk Hl. split_and!; try done.
    - unfold low in *. simpl. rewrite fmap_app. apply Forall_app. split; [done|]. constructor; [by rewrite Hk|constructor].
    - exists []. rewrite app_nil_r. by split. }
  destruct sent; (etrans; [exact Hs|]); [|by apply Hk]. simpl.
  match goal with |- context [with_heap c1 (_ ++ [?k])] => transitivity (with_heap c1 (c_heap c1 ++ [k])); [by apply Hk|near_same] end.
Qed.

Lemma nrel_dial_deliver pick c l it c' : dial_deliver pick c l it = Some c' → nrel c c'.
Proof.
  unfold dial_deliver. destruct (c_dheap c !! l) as [sc|] eqn:El; [|by intros [= <-]].
  destruct (deliver pick sc it) as [sc'|] eqn:E; [|done]. intros [= <-]. apply nrel_same; try done. simpl.
  apply deliver_held in E as [Hid _ _ _]. apply list_eq. intros i. rewrite !list_lookup_fmap.
  destruct (decide (l = i)) as [<-|Hne]; [|by rewrite list_lookup_alter_ne]. rewrite list_lookup_alter_eq, El. simpl. by rewrite Hid.
Qed.

Lemma nrel_run_msg pick c m dialed c' : opens_low m → run_msg quote pick c m dialed = Some c' → nrel c c'.
Proof.
  intros Ho. unfold run_msg. case_bool_decide as Ht; [intros [= <-]; by apply nrel_handleConnOpen|].
  case_bool_decide as Ht1.
  { destruct (dialConns c !! _); [apply nrel_dial_deliver|]. destruct (connsQ c !! _); intros [= <-]; [near_same|done]. }
  case_bool_decide as Ht2.
  { destruct (dialConns c !! _).
    - destruct (dial_deliver _ _ _ _) as [c1|] eqn:E; [|done]. intros [= <-]. etrans; [by eapply nrel_dial_deliver|near_same].
    - intros [= <-]. destruct (IsHalfClose m); [|by apply nrel_closeConn].
      unfold halfCloseConn. destruct (connsQ c !! _); [near_same|done]. }
  case_bool_decide.
  { pose proof (nrel_send c (mkMessage MsgPong x00 (StreamID m) (Payload m)) ltac:(by apply plain_ctrl)) as Hs.
    destruct (send c _) as [c1 []]; intros [= <-]; [exact Hs|]. etrans; [exact Hs|apply nrel_run_end]. }
  case_bool_decide.
  { destruct (DecodeControl (A := WindowUpdate) m) as [wu|]; intros [= <-]; [|done]. by apply nrel_upd_opt. }
  case_bool_decide; [|by intros [= <-]].
  destruct (DecodeControl (A := ClientConnAck) m) as [ack|]; intros [= <-]; [|done].
  destruct (dialAcks c !! _); near_same.
Qed.

(** What an event of the client may be: it dials nothing, and the server opens
    connections under its own numbers. *)
Definition near_event (ev : cevent) : Prop :=
  match ev with CDial _ _ => False | CRecv _ m _ => opens_low m | _ => True end.

Lemma nrel_capply c ev c' : near_event ev → capply quote c ev = Some c' → nrel c c'.
Proof.
  intros Hev Ha.
  assert (∀ l k, low c → c_heap c !! l = Some k → 0 ≤ lc_id k < 2 ^ 31) as Hlow.
  { intros l k Hl Hk. unfold low in Hl. rewrite Forall_lookup in Hl. apply (Hl l). by rewrite list_lookup_fmap, Hk. }
  assert (∀ l k p c1, 0 ≤ lc_id k < 2 ^ 31 → nrel c1 (uplink_send c1 l k p)) as Hup.
  { intros l k p c1 Hk. unfold uplink_send, SendData. pose proof (nrel_send c1 (mkMessage MsgData x00 (lc_id k) p) ltac:(done)) as Hs.
    destruct (send c1 _) as [c2 []]; simpl in Hs; [done|]. etrans; [exact Hs|]. etrans; [by apply nrel_closeConn|by apply nrel_upd]. }
  destruct ev; simpl in Ha; try done.
  - destruct (c_loop c); try done. by eapply nrel_run_msg.
  - destruct (c_loop c) as [|l it| |]; try done. destruct (c_heap c !! l); [|done].
    destruct (lc_qclosed _); [injection Ha as <-; near_same|]. case_bool_decide; simplify_eq; near_same.
  - destruct (c_loop c); try done. injection Ha as <-. apply nrel_run_end.
  - injection Ha as <-. near_same.
  - apply bind_Some in Ha as (k & Hk & Ha). unfold pump in Ha. destruct (lc_pump k); [|done]. simpl in Ha.
    intros Hl. pose proof (Hlow _ _ Hl Hk) as Hid. revert Hl. change (nrel c c').
    destruct (lc_q k) as [|[p|] q]; [destruct (lc_qclosed k); [|done]|destruct (ok && _)|]; injection Ha as <-; try near_same.
    + etrans; [|by apply nrel_send, plain_ctrl]. etrans; by apply nrel_upd.
    + etrans; [|by apply nrel_upd]. etrans; [|by apply nrel_closeConn]. by apply nrel_upd.
    + etrans; by apply nrel_upd.
  - apply bind_Some in Ha as (k & _ & Ha). destruct (lc_up k); simplify_eq. by apply nrel_upd.
  - apply bind_Some in Ha as (k & Hk & Ha). destruct (lc_up k) as [|win|]; try done. destruct (_ || _); [done|].
    intros Hl. pose proof (Hlow _ _ Hl Hk) as Hid. revert Hl. change (nrel c c').
    unfold uplink_data in Ha. destruct (win ≫= _) as [[lw w]|]; [|injection Ha as <-; by apply Hup].
    destruct (closed w); [injection Ha as <-; by apply nrel_upd|].
    destruct (acquire_now _ _ _); [|destruct (c_closed c); simplify_eq; by apply nrel_upd].
    injection Ha as <-. etrans; [|by apply Hup]. by apply nrel_upd.
  - apply bind_Some in Ha as (k & Hk & Ha). destruct (lc_up k); try done. destruct (local_closed k); simplify_eq.
    intros Hl. pose proof (Hlow _ _ Hl Hk) as Hid. revert Hl. apply (nrel_trans _ (send c (HalfClose (lc_id k))).1); [|by apply nrel_upd].
    by apply nrel_send.
  - apply bind_Some in Ha as (k & Hk & Ha). destruct (lc_up k); simplify_eq.
    intros Hl. pose proof (Hlow _ _ Hl Hk) as Hid. revert Hl. apply (nrel_trans _ (closeConn c (lc_id k) true)); [|by apply nrel_upd].
    by apply nrel_closeConn.
  - assert (∀ c1 ack, nrel c1 (DialIntranet_end c1 connID l ack).1) as Hend.
    { intros c1 [ack|]; simpl; [destruct (cca_OK ack); [done|]|]; near_same. }
    destruct timeout; [injection Ha as <-; apply (Hend c None)|].
    destruct (c_chans c !! _) as [[a|]|]; try done. injection Ha as <-. etrans; [|apply (Hend _ (Some a))]. near_same.
Qed.
End near.

(** ** The tunnelled connections of the client *)

(** A goroutine that has the stream [id]: it sends frames of it only. *)
Record trel (id : Z) (new : list Message) (c c' : CtrlClient) : Prop := {
  tr_out : c_out c' = c_out c ++ new;
  tr_frames : Forall (λ m, StreamID m = id ∧ (Type_ m = MsgData ∨ Type_ m = MsgStreamClose)) new;
  tr_heap : c_heap c' = c_heap c;
  tr_ids : sc_connID <$> c_dheap c' = sc_connID <$> c_dheap c;
  tr_seq : dialSeq c' = dialSeq c;
  tr_map : dialConns c' = dialConns c;
}.

Lemma trel_refl id c : trel id [] c c.
Proof. split; rewrite ?app_nil_r; done. Qed.

Lemma trel_trans id n1 n2 a b c : trel id n1 a b → trel id n2 b c → trel id (n1 ++ n2) a c.
Proof. intros [] []. split; [by rewrite app_assoc; congruence|by apply Forall_app|congruence..]. Qed.

Lemma trel_send id c m :
  StreamID m = id → Type_ m = MsgData ∨ Type_ m = MsgStreamClose →
  trel id (if (send c m).2 then [m] else []) c (send c m).1.
Proof.
  intros Hi Ht. destruct (send_spec c m) as [-> | ->]; [apply trel_refl|]. split; try done. simpl. by constructor.
Qed.

Lemma trel_set id c loc sc sc0 : c_dheap c !! loc = Some sc0 → sc_connID sc = sc_connID sc0 → trel id [] c (tun_set sc loc c).
Proof.
  intros Hl Hid. split; simpl; rewrite ?app_nil_r; try done. rewrite list_fmap_insert, Hid. apply list_insert_id.
  by rewrite list_lookup_fmap, Hl.
Qed.

Lemma trel_write_loop id fuel c p : ∃ new, trel id new c (tun_write_loop fuel c id p).1.
Proof.
  revert c p. induction fuel as [|fuel IH]; intros c [|x p]; try (eexists; apply trel_refl). cbn [tun_write_loop]. set (q := x :: p).
  pose proof (trel_send id c (data_frame id (take writeChunk q)) eq_refl ltac:(by left)) as Hs.
  destruct (send c _) as [c1 []]; cbn [fst snd] in *; [|eexists; exact Hs]. destruct (IH c1 (drop writeChunk q)) as [n Hn].
  eexists. exact (trel_trans _ _ _ _ _ _ Hs Hn).
Qed.

Lemma trel_CloseWrite c loc sc :
  c_dheap c !! loc = Some sc →
  ∃ new, trel (sc_connID sc) new c (tun_CloseWrite c loc sc).1 ∧ item_bytes (items (sc_connID sc) new) = [].
Proof.
  intros Hl. unfold tun_CloseWrite. destruct (sc_writeHalf sc); [exists []; split; [apply trel_refl|done]|].
  set (c1 := tun_set _ _ _). assert (trel (sc_connID sc) [] c c1) as H1 by by eapply trel_set.
  pose proof (trel_send _ c1 (HalfClose (sc_connID sc)) eq_refl ltac:(by right)) as H2.
  destruct (send c1 _) as [c2 b]. eexists. split; [by eapply trel_trans|]. simpl. destruct b; [|done].
  unfold items. cbn [omap list_omap]. by rewrite item_of_half.
Qed.

Lemma trel_Close c loc sc :
  c_dheap c !! loc = Some sc →
  ∃ new, trel (sc_connID sc) new c (tun_Close c loc sc) ∧ item_bytes (items (sc_connID sc) new) = [].
Proof.
  intros Hl. unfold tun_Close. set (c1 := tun_set _ _ _).
  assert (trel (sc_connID sc) [] c c1) as H1 by (eapply trel_set; [done|apply markClosed_connID]).
  pose proof (trel_send _ c1 (mkMessage MsgStreamClose x00 (sc_connID sc) []) eq_refl ltac:(by right)) as H2.
  destruct (send c1 _) as [c2 b]. eexists. split; [by eapply trel_trans|]. simpl. destruct b; [|done].
  unfold items. cbn [omap list_omap]. by rewrite item_of_full.
Qed.

Lemma Read_connID sc n : sc_connID (Read sc n).1 = sc_connID sc.
Proof.
  unfold Read. destruct (sc_readEOF sc); [done|]. destruct (sc_pending sc); [|done].
  assert (∀ feed, sc_connID (read_loop sc n feed).1 = sc_connID sc) as H; [|apply H].
  intros feed. induction feed as [|it feed IH]; cbn [read_loop]; [by destruct (recv _ _)|].
  destruct (recv _ _); try done. destruct (fi_full it), (fi_half it), (fi_data it); try done; apply IH.
Qed.

Lemma trel_tun_apply c loc sc op c' :
  c_dheap c !! loc = Some sc → tun_apply c loc op = Some c' → ∃ new, trel (sc_connID sc) new c c'.
Proof.
  intros Hl Ha. unfold tun_apply in Ha. rewrite Hl in Ha. injection Ha as <-. destruct op.
  - exists []. eapply trel_set; [done|apply Read_connID].
  - unfold tun_Write. destruct (isClosed sc); [exists []; apply trel_refl|apply trel_write_loop].
  - destruct (trel_CloseWrite c loc sc Hl) as (new & H & _). by exists new.
  - destruct (trel_Close c loc sc Hl) as (new & H & _). by exists new.
Qed.

(** A step of the gateway's own bridge: what its pump wrote is what it sent. *)
Lemma trel_own inn G ev b c loc sc part c1 sc1 b2 c2 :
  over_stream Bwd inn G b sc → c_dheap c !! loc = Some sc →
  bridge_event ev b c loc sc = Some (part, c1) → c_dheap c1 !! loc = Some sc1 → bridge_step part b c1 loc sc1 = Some (b2, c2) →
  ∃ new, trel (sc_connID sc) new c c2 ∧
    bc_written (b_conn b2 Bwd) = bc_written (b_conn b Bwd) ++ item_bytes (items (sc_connID sc) new).
Proof.
  intros Hos Hl He Hl1 Hs. unfold bridge_step in Hs.
  destruct (part_step Bwd part b) as [[b1 cl]|] eqn:Hp; [|done]. injection Hs as <- <-.
  assert (∀ bev, part = BStep bev → bapply b bev = Some b1 ∧ cl = closing bev b1) as Hev.
  { intros bev ->. simpl in Hp. by apply bind_Some in Hp as (b' & Ha & [= <- <-]). }
  assert (∀ bev, part = BStep bev → bev ≠ BCtxClose → (∀ p k, bev = BCopy Fwd p (WFail k) → k = 0%nat) →
    bc_written (b_conn b1 Bwd) = bc_written (b_conn b Bwd) ++ side_written Bwd bev) as Hwr.
  { intros bev Hb Hx Hk. destruct (Hev _ Hb) as [Ha _]. apply (bapply_side Bwd _ _ _ Ha Hx Hk). }
  assert (∀ id new, item_bytes (items id new) = [] →
    bc_written (b_conn b1 Bwd) = bc_written (b_conn b Bwd) ++ [] →
    bc_written (b_conn b1 Bwd) = bc_written (b_conn b Bwd) ++ item_bytes (items id new)) as Hnil by (intros id new ->; done).
  assert (∀ bev, part = BStep bev → bev = BTimer ∨ bev = BMain → c1 = c → ∃ new, trel (sc_connID sc) new c (if cl then tun_Close c1 loc sc1 else c1) ∧
    bc_written (b_conn b1 Bwd) = bc_written (b_conn b Bwd) ++ item_bytes (items (sc_connID sc) new)) as Hclose.
  { intros bev Hb Hor ->. assert (sc1 = sc) as -> by congruence.
    pose proof (Hwr bev Hb ltac:(by destruct Hor as [-> | ->]) ltac:(by intros p k; destruct Hor as [-> | ->])) as Hw.
    assert (side_written Bwd bev = []) as Hsw by (by destruct Hor as [-> | ->]). rewrite Hsw in Hw.
    destruct cl; [|exists []; split; [apply trel_refl|exact Hw]].
    destruct (trel_Close c loc sc Hl) as (new & K1 & K2). exists new. split; [done|by apply Hnil]. }
  destruct ev; simpl in He; try done.
  - case_bool_decide as Hlen; [done|]. destruct (tun_Write_frame c sc p) as [Hw|[[-> Hw]|[Hc Hw]]]; [lia|..]; rewrite Hw in He;
      injection He as <- <-; destruct (Hev _ eq_refl) as [Ha ->]; cbn [closing].
    + exists []. split; [apply trel_refl|]. rewrite (Hwr _ eq_refl) by (done || by intros ?? [= _ <-]). done.
    + simpl in Ha. by rewrite orb_true_r in Ha.
    + exists [data_frame (sc_connID sc) p]. split; [split; try done; constructor; [by split; [|left]|constructor]|].
      rewrite (Hwr _ eq_refl) by done. unfold items. cbn [omap list_omap]. unfold data_frame. rewrite item_of_data.
      unfold item_bytes. simpl. by rewrite app_nil_r.
  - destruct (tun_CloseWrite c loc sc) as [c0 ok] eqn:Ew. injection He as <- <-. destruct (Hev _ eq_refl) as [Ha ->]. cbn [closing].
    destruct (trel_CloseWrite c loc sc Hl) as (new & K1 & K2). rewrite Ew in K1. exists new. split; [done|].
    apply Hnil; [done|]. by rewrite (Hwr _ eq_refl).
  - injection He as <- <-. destruct (Hev _ eq_refl) as [Ha ->]. cbn [closing]. exists []. split; [apply trel_refl|].
    by rewrite (Hwr _ eq_refl).
  - apply bind_Some in He as ([part' sc'] & Hr & [= <- <-]).
    destruct (over_stream_read _ _ _ _ _ _ _ _ _ _ _ _ Hos Hr Hp) as (Ho & -> & Hid & Hw). exists [].
    split; [by eapply trel_set|]. by rewrite Hw, app_nil_r.
  - injection He as <- <-. eapply Hclose; [done|by left|done].
  - injection He as <- <-. eapply Hclose; [done|by right|done].
Qed.

(** ** The numbers of chained connections *)

(** The number of the [k]-th connection a client dials. *)
Definition num (k : nat) : Z := 2 ^ 31 + 1 + Z.of_nat k.

Section asks.
Context {CJ : ControlJson}.

Definition asks (z : Z) (m : Message) : Prop :=
  Type_ m = MsgClientConnReq ∧ ∃ req : ClientConnReq, DecodeControl m = Ok req ∧ cc_ConnID req = z.

(** A message of a client that has dialed [n] connections. *)
Definition dials_one (k : nat) (m : Message) : Prop :=
  ∃ name sid, m = control_message MsgClientConnReq (mkClientConnReq (num k) name sid).

Definition out_ok (n : nat) (m : Message) : Prop :=
  plain m ∨ ∃ k, (k < n)%nat ∧ (dials_one k m ∨ StreamID m = num k ∧ (Type_ m = MsgData ∨ Type_ m = MsgStreamClose)).

(** When a connection is asked for, nothing of its number has been sent. *)
Definition fresh (z : Z) (ms : list Message) : Prop :=
  ∀ ms1 m ms2, ms = ms1 ++ m :: ms2 → asks z m → Forall (λ m', item_of z m' = None ∧ ¬ asks z m') ms1.

(** A number is read back as it was written. *)
Definition number_kept : Prop :=
  ∀ id name sid (req : ClientConnReq), json_unmarshal (json_marshal (mkClientConnReq id name sid)) = Some req → cc_ConnID req = id.

Lemma num_inj j k : num j = num k → j = k.
Proof. unfold num. lia. Qed.

Lemma item_of_plain z m : 2 ^ 31 ≤ z → plain m → item_of z m = None.
Proof.
  intros Hz [_ Hm]. destruct (item_of z m) as [it|] eqn:E; [|done]. apply item_of_types in E as [<- E]. exfalso.
  destruct E as [[? _]|[? _]]; lia || (assert (0 ≤ StreamID m < 2 ^ 31) by (apply Hm; auto); lia).
Qed.

Lemma asks_request (Hjson : number_kept) z k m : dials_one k m → asks z m → z = num k.
Proof.
  intros (name & sid & ->) (_ & req & Hd & <-). unfold DecodeControl in Hd. cbn [control_message Payload] in Hd.
  destruct (json_marshal _) as [|x p] eqn:Ej; [done|]. destruct (json_unmarshal _) as [r|] eqn:Eu; [|done]. injection Hd as <-.
  rewrite <- Ej in Eu. by eapply Hjson.
Qed.

Lemma out_ok_asks (Hjson : number_kept) n z m : out_ok n m → asks z m → ∃ k, (k < n)%nat ∧ z = num k ∧ dials_one k m.
Proof.
  intros [[Hm _]|(k & Hk & [Hr|[_ Ht]])] Ha.
  - by destruct Ha.
  - exists k. split_and!; [done|by eapply asks_request|done].
  - destruct Ha as [Ha _]. rewrite Ha in Ht. by destruct Ht.
Qed.

Lemma out_ok_item n k m : out_ok n m → item_of (num k) m ≠ None → (k < n)%nat.
Proof.
  intros [Hm|(j & Hj & [(name & sid & ->)|[Hid _]])] Hi.
  - destruct Hi. apply item_of_plain; [unfold num; lia|done].
  - destruct Hi. by apply item_of_ctrl.
  - destruct (decide (StreamID m = num k)) as [He|Hne]; [|by destruct Hi; apply item_of_other].
    assert (j = k) as -> by (apply num_inj; congruence). done.
Qed.

Lemma out_ok_mono n n' m : (n ≤ n')%nat → out_ok n m → out_ok n' m.
Proof. intros Hn [?|(k & Hk & ?)]; [by left|right]. exists k. split; [lia|done]. Qed.

Lemma fresh_app z ms new : fresh z ms → (∀ m, m ∈ new → ¬ asks z m) → fresh z (ms ++ new).
Proof.
  intros Hf Hn ms1 m ms2 He Ha. destruct (decide (length ms1 < length ms)%nat) as [Hlt|Hge].
  - apply (f_equal (take (S (length ms1)))) in He. rewrite take_app_le in He by lia.
    replace (ms1 ++ m :: ms2) with ((ms1 ++ [m]) ++ ms2) in He by by rewrite <- app_assoc.
    rewrite (take_app_length' (ms1 ++ [m])) in He by (rewrite length_app; simpl; lia).
    apply (Hf ms1 m (drop (S (length ms1)) ms)); [|done]. rewrite <- (take_drop (S (length ms1)) ms) at 1. rewrite He. by rewrite <- app_assoc.
  - exfalso. apply (Hn m); [|done]. apply (f_equal (drop (length ms))) in He. rewrite drop_app_length in He.
    rewrite drop_app_le in He by lia. rewrite He. apply elem_of_app. right. by left.
Qed.

Lemma fresh_prefix z ms ms' : ms `prefix_of` ms' → fresh z ms' → fresh z ms.
Proof. intros [r ->] Hf ms1 m ms2 -> Ha. apply (Hf ms1 m (ms2 ++ r)); [by rewrite <- app_assoc|done]. Qed.

(** ** The client's invariant *)

Record near_ok (c : CtrlClient) : Prop := {
  no_low : low c;
  no_seq : dialSeq c = Z.of_nat (length (c_dheap c)) ∧ dialSeq c < 2 ^ 31;
  no_ids loc sc : c_dheap c !! loc = Some sc → sc_connID sc = num loc;
  no_map id loc : dialConns c !! id = Some loc → id = num loc ∧ (loc < length (c_dheap c))%nat;
  no_out : Forall (out_ok (length (c_dheap c))) (c_out c);
  no_fresh k : fresh (num k) (c_out c);
}.

Lemma near_ok_grow c c' new :
  near_ok c → low c' → c_out c' = c_out c ++ new → Forall (λ m, out_ok (length (c_dheap c)) m ∧ Type_ m ≠ MsgClientConnReq) new →
  sc_connID <$> c_dheap c' = sc_connID <$> c_dheap c → dialSeq c' = dialSeq c → dialConns c' ⊆ dialConns c → near_ok c'.
Proof.
  intros [H1 H2 H3 H4 H5 H6] Hl Ho Hn Hi Hs Hm. pose proof (f_equal length Hi) as Hlen. rewrite !length_fmap in Hlen.
  split; rewrite ?Hlen, ?Hs; [done|done| | | |].
  - intros loc sc Hsc. apply (f_equal (.!! loc)) in Hi. rewrite !list_lookup_fmap, Hsc in Hi.
    destruct (c_dheap c !! loc) as [sc0|] eqn:E; [|done]. injection Hi as ->. by eapply H3.
  - intros id loc Hid. apply H4. by eapply lookup_weaken.
  - rewrite Ho. apply Forall_app. split; [done|]. eapply Forall_impl; [exact Hn|]. by intros m [? _].
  - intros k. rewrite Ho. apply fresh_app; [done|]. intros m Hin [Ht _]. rewrite Forall_forall in Hn. by destruct (Hn m Hin).
Qed.

Lemma near_ok_nrel c c' : near_ok c → nrel c c' → near_ok c'.
Proof.
  intros Hi Hr. destruct (Hr (no_low _ Hi)) as (Hl & (new & Ho & Hp) & Hd & Hs & Hm).
  eapply near_ok_grow; try done. eapply Forall_impl; [exact Hp|]. intros m Hm'. split; [by left|apply Hm'].
Qed.

Lemma near_ok_trel c c' loc new : near_ok c → (loc < length (c_dheap c))%nat → trel (num loc) new c c' → near_ok c'.
Proof.
  intros Hi Hl [Ho Hf Hh Hd Hs Hm]. eapply near_ok_grow; try done; [|..|by rewrite Hm].
  - unfold low. rewrite Hh. apply Hi.
  - eapply Forall_impl; [exact Hf|]. intros m [Hid Ht]. split; [right; exists loc; by split; [|right]|].
    intros He. rewrite He in Ht. by destruct Ht.
Qed.

(** A client that asks for the next connection has sent nothing of it. *)
Lemma fresh_request (Hjson : number_kept) n ms m : Forall (out_ok n) ms → fresh (num n) (ms ++ [m]).
Proof.
  intros Ho ms1 m' ms2 He Ha.
  assert (∀ m0, m0 ∈ ms → item_of (num n) m0 = None ∧ ¬ asks (num n) m0) as Hnone.
  { intros m0 Hin. rewrite Forall_forall in Ho. pose proof (Ho _ Hin) as Hm0. split.
    - destruct (item_of (num n) m0) eqn:E; [|done]. assert (n < n)%nat by (eapply out_ok_item; [exact Hm0|by rewrite E]). lia.
    - intros Ha0. destruct (out_ok_asks Hjson _ _ _ Hm0 Ha0) as (j & Hj & Hjn & _). apply num_inj in Hjn. lia. }
  destruct ms2 as [|x ms2 _] using rev_ind.
  - apply app_inj_tail in He as [-> ->]. by apply Forall_forall.
  - rewrite app_comm_cons, app_assoc in He. apply app_inj_tail in He as [-> _].
    by destruct (Hnone m') as [_ []]; [apply elem_of_app; right; left|].
Qed.

(** A dial takes the next number. *)
Record dialed (c c' : CtrlClient) : Prop := {
  di_ok : near_ok c';
  di_out : ∃ new, c_out c' = c_out c ++ new ∧ ∀ k, items (num k) new = [];
  di_heap : (length (c_dheap c) ≤ length (c_dheap c'))%nat;
  di_map id loc : dialConns c' !! id = Some loc → (loc < length (c_dheap c))%nat → dialConns c !! id = Some loc;
}.

Lemma near_ok_dial (Hjson : number_kept) c name sid c' r :
  near_ok c → DialIntranet_begin c name sid = (c', r) →
  dialed c c' ∧ ∀ id loc, r = Ok (id, loc) → loc = length (c_dheap c) ∧ id = num loc ∧ (loc < length (c_dheap c'))%nat.
Proof.
  intros Hi. pose proof Hi as [Hl [Hs Hb] Hd Hm Ho Hf]. unfold DialIntranet_begin.
  assert (∀ e : dial_err, dialed c c ∧ ∀ id loc, Err (A := Z * nat) e = Ok (id, loc) →
    loc = length (c_dheap c) ∧ id = num loc ∧ (loc < length (c_dheap c))%nat) as Hsame.
  { intros e. split; [|done]. split; [done| |lia|done]. exists []. by rewrite app_nil_r. }
  destruct (negb _); [intros [= <- <-]; eapply (Hsame ErrNotRegistered)|].
  destruct (Z.leb_spec 2147483647 (dialSeq c)) as [|Hlt]; [intros [= <- <-]; eapply (Hsame ErrExhausted)|]. clear Hsame.
  rewrite (u32_small (dialSeq c + 1)) by lia. rewrite high_number by lia. set (n := length (c_dheap c)) in *.
  assert (2 ^ 31 + (dialSeq c + 1) = num n) as -> by (unfold num; lia).
  set (c1 := with_dials _ _ _ _). set (m := control_message _ _).
  assert (dials_one n m) as Hreq by (by exists name, sid).
  assert (∀ k, item_of (num k) m = None) as Him by (intros k; by apply item_of_ctrl).
  (* the client after the bookkeeping, with or without the request sent and the entries *)
  assert (∀ c2, c_heap c2 = c_heap c → c_dheap c2 = c_dheap c1 → dialSeq c2 = dialSeq c1 → dialConns c2 ⊆ dialConns c1 →
    (c_out c2 = c_out c ∨ c_out c2 = c_out c ++ [m]) → dialed c c2) as Hdial.
  { intros c2 K1 K2 K3 K4 K5.
    assert (length (c_dheap c2) = S n) as Hlen by (rewrite K2; simpl; rewrite length_app; simpl; unfold n; lia).
    assert (∀ id loc, dialConns c2 !! id = Some loc → id = num n ∧ loc = n ∨ dialConns c !! id = Some loc) as Hmap.
    { intros id loc Hid. eapply lookup_weaken in Hid; [|exact K4]. simpl in Hid.
      apply lookup_insert_Some in Hid as [[<- <-]|[_ Hid]]; [by left|by right]. }
    split; [split; rewrite ?Hlen| |rewrite Hlen; unfold n; lia|].
    - unfold low. by rewrite K1.
    - rewrite K3. simpl. unfold n. lia.
    - intros loc sc. rewrite K2. simpl. intros [Hsc|[Hge Hsc]]%lookup_app_Some; [by apply Hd|].
      apply list_lookup_singleton_Some in Hsc as [? <-]. simpl. f_equal. unfold n. lia.
    - intros id loc [[-> ->]|Hid]%Hmap; [split; [done|lia]|]. destruct (Hm _ _ Hid). split; [done|unfold n; lia].
    - assert (Forall (out_ok (S n)) (c_out c)) as Ho' by (eapply Forall_impl; [exact Ho|]; intros m'; apply out_ok_mono; lia).
      destruct K5 as [-> | ->]; [done|]. apply Forall_app. split; [done|]. constructor; [|constructor].
      right. exists n. split; [lia|by left].
    - intros k. destruct K5 as [-> | ->]; [done|]. destruct (decide (k = n)) as [->|Hne].
      + by apply fresh_request.
      + apply fresh_app; [done|]. intros m' Hin Ha. apply list_elem_of_singleton in Hin as ->.
        by apply Hne, num_inj, (asks_request Hjson _ _ m).
    - destruct K5 as [-> | ->]; [exists []; by rewrite app_nil_r|]. exists [m]. split; [done|]. intros k. unfold items. simpl. by rewrite Him.
    - intros id loc [[-> ->]|?]%Hmap Hlt'; [unfold n in Hlt'; lia|done]. }
  destruct (send_spec c1 m) as [-> | ->]; intros [= <- <-].
  - split; [|done]. apply Hdial; try done; [|by left]. simpl. apply delete_subseteq.
  - split; [apply Hdial; try done; by right|]. intros id loc [= <- <-]. split_and!; [done..|]. simpl. rewrite length_app. simpl. unfold n. lia.
Qed.
End asks.

(** ** The gateway over the session [l] *)

Section near_side.
Context {CJ : ControlJson} (quote : string → string) (l : nat).
Hypothesis Hjson : number_kept.

(** The gateway's connection, and what its pump has written to it. *)
Definition own_written (g : gateway) : option (nat * nat * list byte) :=
  match g_phase g with
  | GAwait l _ loc _ => Some (l, loc, [])
  | GBridging l loc b => Some (l, loc, bc_written (b_conn b Bwd))
  | _ => None
  end.

(** That is what the session carries of its number. *)
Definition own_sent (g : gateway) (c : CtrlClient) : Prop :=
  ∀ loc w, own_written g = Some (l, loc, w) → (loc < length (c_dheap c))%nat ∧ item_bytes (items (num loc) (c_out c)) = w.

(** A step of the near side: it has the connection it had, or has just dialed one. *)
Record near_move (g g' : gateway) (c c' : CtrlClient) : Prop := {
  nm_client : g_clients g' !! l = Some c';
  nm_ok : near_ok c';
  nm_out : c_out c `prefix_of` c_out c';
  nm_sent : own_sent g' c';
  nm_own loc w' : own_written g' = Some (l, loc, w') →
    (∃ w, own_written g = Some (l, loc, w)) ∧ (dialConns c' !! num loc = Some loc → dialConns c !! num loc = Some loc) ∨
    g_phase g = GDialing l ∧ loc = length (c_dheap c);
}.

Lemma near_move_gen g g' c c' new :
  g_clients g' !! l = Some c' → near_ok c' → c_out c' = c_out c ++ new → (length (c_dheap c) ≤ length (c_dheap c'))%nat →
  (∀ id loc, dialConns c' !! id = Some loc → (loc < length (c_dheap c))%nat → dialConns c !! id = Some loc) →
  (∀ loc w', own_written g' = Some (l, loc, w') →
     ∃ w, own_written g = Some (l, loc, w) ∧ w' = w ++ item_bytes (items (num loc) new)) →
  own_sent g c → near_move g g' c c'.
Proof.
  intros Hc Hi Ho Hlen Hmap Hw Hs. split; [done|done|by rewrite Ho; eexists| |].
  - intros loc w' Hw'. destruct (Hw _ _ Hw') as (w & Hw0 & ->). destruct (Hs _ _ Hw0) as [Hl <-]. split; [lia|].
    by rewrite Ho, items_app, item_bytes_app.
  - intros loc w' Hw'. destruct (Hw _ _ Hw') as (w & Hw0 & _). destruct (Hs _ _ Hw0) as [Hl _].
    left. split; [by eexists|]. intros Hm. by apply Hmap.
Qed.

(** The session of the client is not concerned. *)
Lemma near_move_quiet g g' c :
  g_clients g' !! l = Some c → near_ok c → own_sent g c →
  (∀ loc w, own_written g' = Some (l, loc, w) → own_written g = Some (l, loc, w)) → near_move g g' c c.
Proof.
  intros Hc Hi Hs Hw. eapply (near_move_gen _ _ _ _ []); try done; [by rewrite app_nil_r|].
  intros loc w' Hw'. exists w'. split; [by apply Hw|by rewrite app_nil_r].
Qed.

Lemma items_plain k new : Forall plain new → items (num k) new = [].
Proof.
  intros Hp. apply items_quiet. eapply Forall_impl; [exact Hp|]. intros m Hm. apply item_of_plain; [unfold num; lia|done].
Qed.

(** A client that dials nothing. *)
Lemma near_move_nrel g g' c c' :
  near_ok c → nrel c c' → g_clients g' !! l = Some c' →
  (∀ loc w, own_written g' = Some (l, loc, w) → own_written g = Some (l, loc, w)) → own_sent g c → near_move g g' c c'.
Proof.
  intros Hi Hr Hc Hw Hs. pose proof (near_ok_nrel _ _ Hi Hr) as Hi'.
  destruct (Hr (no_low _ Hi)) as (_ & (new & Ho & Hp) & Hd & _ & Hm).
  apply (f_equal length) in Hd. rewrite !length_fmap in Hd. apply (near_move_gen _ _ _ _ new); try done; [lia| |].
  - intros id loc Hid _. by eapply lookup_weaken.
  - intros loc w' Hw'. exists w'. split; [by apply Hw|]. rewrite (items_plain _ _ Hp). by rewrite app_nil_r.
Qed.

(** The goroutine of a tunnelled connection. *)
Lemma near_move_trel g g' c c' loc0 new :
  near_ok c → (loc0 < length (c_dheap c))%nat → trel (num loc0) new c c' → g_clients g' !! l = Some c' →
  (∀ loc w', own_written g' = Some (l, loc, w') →
     ∃ w, own_written g = Some (l, loc, w) ∧ w' = w ++ item_bytes (items (num loc) new)) → own_sent g c → near_move g g' c c'.
Proof.
  intros Hi Hl Ht Hc Hw Hs. pose proof (near_ok_trel _ _ _ _ Hi Hl Ht) as Hi'. destruct Ht as [Ho _ _ Hd _ Hm].
  apply (f_equal length) in Hd. rewrite !length_fmap in Hd. apply (near_move_gen _ _ _ _ new); try done; [lia|]. intros id loc. by rewrite Hm.
Qed.

Lemma items_trel_other j k new c c' : trel (num j) new c c' → j ≠ k → items (num k) new = [].
Proof.
  intros [_ Hf _ _ _ _] Hne. apply items_quiet. eapply Forall_impl; [exact Hf|]. intros m [Hid _]. apply item_of_other.
  rewrite Hid. intros He. by apply Hne, num_inj.
Qed.

(** The server opens connections under its own numbers. *)
Definition received_low (ev : gevent) : Prop :=
  match ev with EvClient l' (CRecv _ m _) => l' = l → opens_low m | _ => True end.

Lemma near_others g c ev g' :
  near_ok c → own_sent g c → g_clients g !! l = Some c → received_low ev → others ev → gapply quote g ev = Some g' →
  ∃ c', near_move g g' c c'.
Proof.
  intros Hi Hs Hc Hlow Hot Ha.
  assert (∀ l' c', own_written (set_gclient l' c' g) = own_written g) as Hown by done.
  assert (∀ l' c', l' ≠ l → near_move g (set_gclient l' c' g) c c) as Hne.
  { intros l' c' Hne. apply near_move_quiet; try done. simpl. by rewrite list_lookup_insert_ne. }
  assert (∀ c', g_clients (set_gclient l c' g) !! l = Some c') as Hset by (intros; apply clients_set; by eexists).
  destruct ev as [| | | | | | | | | | |l' ev|l' loc op]; try done.
  - assert (∃ c0 c', g_clients g !! l' = Some c0 ∧ capply quote c0 ev = Some c' ∧ g' = set_gclient l' c' g) as (c0 & c' & Hc0 & Hca & ->).
    { simpl in Ha. destruct (g_phase g); apply bind_Some in Ha as (c0 & Hc0 & (c' & Hca & [= <-])%bind_Some); by exists c0, c'. }
    destruct (decide (l' = l)) as [->|Hn]; [|exists c; by apply Hne]. assert (c0 = c) as -> by congruence. exists c'.
    assert (near_event ev ∨ ∃ name sid, ev = CDial name sid) as [Hev|(name & sid & ->)].
    { destruct ev; simpl in *; eauto. }
    + apply near_move_nrel; try done. by eapply nrel_capply.
    + simpl in Hca. injection Hca as <-. destruct (DialIntranet_begin c name sid) as [c' r] eqn:Ed.
      destruct (near_ok_dial Hjson _ _ _ _ _ Hi Ed) as [[H1 (new & H2 & H3) H4 H5] _].
      apply (near_move_gen _ _ _ _ new); try done. intros loc w' Hw'. exists w'. split; [done|]. rewrite H3. by rewrite app_nil_r.
  - assert (∃ c0 c', g_clients g !! l' = Some c0 ∧ owns g ≠ Some (l', loc) ∧ tun_apply c0 loc op = Some c' ∧ g' = set_gclient l' c' g)
      as (c0 & c' & Hc0 & Hno & Hca & ->).
    { simpl in Ha. destruct (g_phase g); destruct (decide _); try done;
        apply bind_Some in Ha as (c0 & Hc0 & (c' & Hca & [= <-])%bind_Some); by exists c0, c'. }
    destruct (decide (l' = l)) as [->|Hn]; [|exists c; by apply Hne]. assert (c0 = c) as -> by congruence. exists c'.
    pose proof Hca as Hca'. apply bind_Some in Hca' as (sc & Hsc & _).
    destruct (trel_tun_apply _ _ _ _ _ Hsc Hca) as [new Ht]. rewrite (no_ids _ Hi _ _ Hsc) in Ht.
    eapply near_move_trel; [done|by eapply lookup_lt_Some|done|done| |done].
    intros loc' w' Hw'. exists w'. split; [done|]. rewrite (items_trel_other _ _ _ _ _ Ht); [by rewrite app_nil_r|]. intros ->.
    apply Hno. rewrite Hown in Hw'. revert Hw'. unfold own_written, owns. destruct (g_phase g); by intros [= -> -> _].
Qed.

Section step.
Context (g : gateway) (c : CtrlClient).
Hypothesis near_inv : near_ok c.
Hypothesis near_sent : own_sent g c.
Hypothesis client_at : g_clients g !! l = Some c.

Lemma client_set c' : <[l := c']> (g_clients g) !! l = Some c'.
Proof. rewrite list_lookup_insert_eq; [done|by eapply lookup_lt_Some]. Qed.

(** The gateway is over another session. *)
Lemma near_move_ne g' l' c' :
  l' ≠ l → g_clients g' = <[l' := c']> (g_clients g) → (∀ loc w, own_written g' ≠ Some (l, loc, w)) → near_move g g' c c.
Proof.
  intros Hne Hcl Hno. apply near_move_quiet; [by rewrite Hcl, list_lookup_insert_ne|done..|]. intros loc w Hw. by destruct (Hno loc w).
Qed.

Lemma near_dial l' g' : g_phase g = GDialing l' → gapply quote g EvDial = Some g' → ∃ c', near_move g g' c c'.
Proof.
  intros Hph Ha. cbn [gapply] in Ha. rewrite Hph in Ha. apply bind_Some in Ha as (c0 & Hc0 & Ha).
  destruct (DialIntranet_begin c0 _ _) as [c' r] eqn:Ed. destruct (decide (l' = l)) as [->|Hne'].
  2: { exists c. destruct r as [[connID loc]|e]; injection Ha as <-; (eapply near_move_ne; [done|done|]); [by intros ?? [= ? _ _]|done]. }
  assert (c0 = c) as -> by congruence. destruct (near_ok_dial Hjson _ _ _ _ _ near_inv Ed) as [[H1 (new & H2 & H3) H4 H5] H6].
  exists c'. destruct r as [[connID loc]|e]; injection Ha as <-; [|apply (near_move_gen _ _ _ _ new); try done; apply client_set].
  destruct (H6 _ _ eq_refl) as (-> & -> & Hlt). split; simpl; [apply client_set|done|by rewrite H2; eexists| |].
  - intros loc w [= <- <-]. split; [done|]. rewrite H2, items_app, H3, app_nil_r.
    assert (items (num (length (c_dheap c))) (c_out c) = []) as ->; [|done]. apply items_quiet.
    eapply Forall_impl; [apply (no_out _ near_inv)|]. intros m Hm. destruct (item_of _ m) eqn:E; [|done].
    assert (length (c_dheap c) < length (c_dheap c))%nat by (eapply out_ok_item; [exact Hm|by rewrite E]). lia.
  - intros loc w [= <- <-]. right. by rewrite Hph.
Qed.

Lemma near_dial_end l' connID loc ch timeout g' :
  g_phase g = GAwait l' connID loc ch → gapply quote g (EvDialEnd timeout) = Some g' → ∃ c', near_move g g' c c'.
Proof.
  intros Hph Ha. cbn [gapply] in Ha. rewrite Hph in Ha. apply bind_Some in Ha as (c0 & Hc0 & Ha).
  assert (∀ c2 g2, nrel c0 c2 → g_clients g2 = <[l' := c2]> (g_clients g) →
    (own_written g2 = None ∨ own_written g2 = Some (l', loc, [])) → ∃ c', near_move g g2 c c') as Hor.
  { intros c2 g2 Hr Hcl Hw. destruct (decide (l' = l)) as [->|Hne'].
    - assert (c0 = c) as -> by congruence. exists c2. apply near_move_nrel; try done; [rewrite Hcl; apply client_set|].
      assert (own_written g = Some (l, loc, [])) as -> by (unfold own_written; by rewrite Hph). by destruct Hw as [-> | ->].
    - exists c. eapply near_move_ne; [done|done|]. by destruct Hw as [-> | ->]; [|intros ?? [= ? _ _]]. }
  assert (∀ c1 ack, nrel c0 c1 → ∃ c',
    near_move g match DialIntranet_end c1 connID loc ack with
      | (c, Ok loc) => set_gphase (GBridging l' loc (new_bridge true)) (set_gclient l' c g)
      | (c, Err _) => return_early (set_gclient l' c g)
      end c c') as Hend.
  { intros c1 ack Hr. assert (nrel c1 (cleanup c1 connID)) as Hcl by near_same.
    destruct ack as [ack|]; simpl; [destruct (cca_OK ack)|]; (eapply Hor; [|reflexivity|first [by left|by right]]); first [done|by etrans]. }
  destruct timeout; [injection Ha as <-; exact (Hend c0 None (nrel_refl c0))|]. destruct (c_chans c0 !! ch) as [[ack|]|]; try done.
  injection Ha as <-. refine (Hend _ (Some ack) _). near_same.
Qed.

Lemma near_bridging inn l' loc b ev g' :
  ginv inn g → g_phase g = GBridging l' loc b → ¬ others ev → (∀ d, ev ≠ EvDialer d) → gapply quote g ev = Some g' →
  ∃ c', near_move g g' c c'.
Proof.
  intros Hg Hph Hn Hd Ha. unfold ginv in Hg. rewrite Hph in Hg. destruct Hg as (_ & c0 & sc & Hc0 & Hsc & [Hos _]).
  destruct ev; try (by destruct Hn); try (by destruct (Hd ev)); cbn [gapply] in Ha; rewrite Hph in Ha; try done;
    rewrite Hc0 in Ha; cbn [mbind option_bind] in Ha; rewrite Hsc in Ha; cbn [mbind option_bind] in Ha.
  all: try (apply bind_Some in Ha as ([part c1] & H1 & (sc1 & H2 & ([b2 c2] & H3 & [= <-])%bind_Some)%bind_Some);
    destruct (decide (l' = l)) as [->|Hne']; [|exists c; eapply near_move_ne; [done|done|]; by intros ?? [= ? _ _]];
    assert (c0 = c) as -> by congruence; destruct (trel_own _ _ _ _ _ _ _ _ _ _ _ _ Hos Hsc H1 H2 H3) as (new & K1 & K2);
    rewrite (no_ids _ near_inv _ _ Hsc) in K1, K2; exists c2;
    eapply near_move_trel; [done|by eapply lookup_lt_Some|exact K1|apply client_set| |done];
    unfold own_written; rewrite Hph; simpl; intros loc' w' [= <- <-]; eexists; by split).
  destruct (b_main b); try done. injection Ha as <-. destruct (decide (l' = l)) as [->|Hne'].
  - assert (c0 = c) as -> by congruence. destruct (trel_Close c loc sc Hsc) as (new & K1 & _). rewrite (no_ids _ near_inv _ _ Hsc) in K1.
    eexists. eapply near_move_trel; [done|by eapply lookup_lt_Some|exact K1|apply client_set|done|done].
  - exists c. by eapply near_move_ne.
Qed.
End step.

Lemma near_step inn g c ev g' :
  ginv inn g → near_ok c → own_sent g c → g_clients g !! l = Some c → received_low ev → gapply quote g ev = Some g' →
  ∃ c', near_move g g' c c'.
Proof.
  intros Hg Hi Hs Hc Hlow Ha. assert (others ev ∨ ¬ others ev) as [Hot|Hn] by (destruct ev; simpl; by auto).
  { by eapply near_others. }
  assert (∀ g', g_clients g' = g_clients g → own_written g' = None ∨ own_written g' = own_written g → ∃ c', near_move g g' c c') as Hq.
  { intros g1 H1 H2. exists c. apply near_move_quiet; [by rewrite H1|done..|]. destruct H2 as [-> | ->]; done. }
  assert ((∃ d, ev = EvDialer d) ∨ ∀ d, ev ≠ EvDialer d) as [[d ->]|Hd] by (destruct ev; by eauto).
  { simpl in Ha. apply Hq; destruct (g_phase g) eqn:E; apply bind_Some in Ha as (d' & _ & [= <-]); try done;
      right; unfold own_written; simpl; by rewrite E. }
  destruct (g_phase g) as [dl nx|l'|l' connID loc ch|l' loc b|r] eqn:Hph; [| | |by eapply near_bridging|];
    destruct ev; try (by destruct Hn); try (by destruct (Hd ev)); try (cbn [gapply] in Ha; rewrite Hph in Ha; done).
  - cbn [gapply] in Ha. rewrite Hph in Ha. destruct (_ <? _); [done|]. destruct (_ <? _); [|injection Ha as <-; apply Hq; [done|by left]].
    destruct (d_client _); injection Ha as <-; apply Hq; try done; by left.
  - by eapply near_dial.
  - by eapply near_dial_end.
Qed.
End near_side.

(** * What comes out of a session *)

(** The message that a frame is read as, when the frame is one message. *)
Definition decode (fr : list byte) : option Message :=
  match ReadMessage fr with Ok (m, []) => Some m | _ => None end.
Definition decoded (frs : list (list byte)) : list Message := omap decode frs.

Lemma decoded_app a b : decoded (a ++ b) = decoded a ++ decoded b.
Proof. apply omap_app. Qed.

Definition norm (m : Message) : Message := mkMessage (Type_ m) (Flags m) (u32 (StreamID m)) (Payload m).

Lemma be_get_put_u32 z : be_get (be_put 4 z) = u32 z.
Proof. unfold be_get. by rewrite be_fold_put. Qed.

Lemma decode_frame m m' : decode (frame m) = Some m' → m' = norm m.
Proof.
  unfold decode, frame. rewrite ReadMessage_header by apply length_be_put. rewrite bool_decide_true by done. cbn [negb].
  rewrite !be_get_put_u32. set (n := u32 (u32 _)). destruct (_ <? n); [done|]. destruct (Z.ltb_spec 0 n) as [Hn|Hn].
  - destruct (read_full (Z.to_nat n) (Payload m)) as [[p r]|] eqn:E; [|done]. simpl. destruct r; [|done]. intros [= <-].
    apply read_full_Ok in E as [E _]. rewrite app_nil_r in E. unfold norm. by rewrite E.
  - destruct (Payload m) eqn:E; [|done]. intros [= <-]. unfold norm. by rewrite E.
Qed.

Lemma decode_fits m : Z.of_nat (length (Payload m)) ≤ MaxPayloadSize → decode (frame m) = Some (norm m).
Proof.
  intros Hl. assert (frame m = frame (norm m) ++ []) as ->.
  { rewrite app_nil_r. unfold frame. cbn [norm Type_ Flags StreamID Payload].
    by rewrite <- (be_get_put_u32 (StreamID m)), <- (be_put_get (be_put 4 (StreamID m))), length_be_put at 1. }
  unfold decode. rewrite ReadMessage_frame; [done|]. split; [apply u32_range|done].
Qed.

(** ** The frames of a number *)

Definition frame_bytes (z : Z) (ws : list (list byte)) : list byte := item_bytes (items z (decoded ws)).

Lemma frame_bytes_app z a b : frame_bytes z (a ++ b) = frame_bytes z a ++ frame_bytes z b.
Proof. unfold frame_bytes. by rewrite decoded_app, items_app, item_bytes_app. Qed.

(** Frames without data of the number. *)
Lemma frame_bytes_none z ms : Forall (λ m, item_of z (norm m) = None) ms → frame_bytes z (frame <$> ms) = [].
Proof.
  intros Hn. unfold frame_bytes. assert (items z (decoded (frame <$> ms)) = []) as ->; [|done]. apply items_quiet.
  induction Hn as [|m ms Hm _ IH]; [constructor|]. unfold decoded in *. cbn [fmap list_fmap omap list_omap].
  destruct (decode (frame m)) as [m'|] eqn:E; [|done]. constructor; [|done]. by rewrite (decode_frame _ _ E).
Qed.

Lemma frame_bytes_quiet z ms : Forall quiet_frame ms → frame_bytes z (frame <$> ms) = [].
Proof. intros Hq. apply frame_bytes_none. eapply Forall_impl; [exact Hq|]. intros m ((? & ? & _) & _). by apply item_of_ctrl. Qed.

Lemma frame_bytes_other z z' ms : 0 ≤ z' < 2 ^ 32 → z' ≠ z → Forall (own_frame z') ms → frame_bytes z (frame <$> ms) = [].
Proof.
  intros Hr Hne Hf. apply frame_bytes_none. eapply Forall_impl; [exact Hf|]. intros m (Hid & _). apply item_of_other.
  simpl. by rewrite Hid, u32_small.
Qed.

Lemma norm_id m : 0 ≤ StreamID m < 2 ^ 32 → norm m = m.
Proof. intros Hr. destruct m. unfold norm. simpl in *. by rewrite u32_small. Qed.

Lemma frame_bytes_own z ms : 0 ≤ z < 2 ^ 32 → Forall (own_frame z) ms → frame_bytes z (frame <$> ms) = item_bytes (items z ms).
Proof.
  intros Hr Hf. unfold frame_bytes. f_equal. f_equal. induction Hf as [|m ms (Hid & _ & Hl) _ IH]; [done|].
  unfold decoded in *. cbn [fmap list_fmap omap list_omap]. rewrite decode_fits by done. rewrite IH, norm_id by (rewrite Hid; lia). done.
Qed.

(** What messages open once they are read. *)
Lemma opens_low_frames {CJ : ControlJson} ms : Forall (λ m, Type_ m ≠ MsgConnOpen ∨ opens_low m) ms → Forall opens_low (decoded (frame <$> ms)).
Proof.
  induction 1 as [|m ms Hm _ IH]; [constructor|]. unfold decoded in *. cbn [fmap list_fmap omap list_omap].
  destruct (decode (frame m)) as [m'|] eqn:E; [|done]. apply decode_frame in E as ->. constructor; [|done].
  intros Ht req Hd. destruct Hm as [Hm|Hm]; [done|]. by apply (Hm Ht req).
Qed.

(** ** The chains of the session *)

#[export] Instance opens_low_dec {CJ : ControlJson} m : Decision (opens_low m).
Proof.
  unfold opens_low. destruct (decide (Type_ m = MsgConnOpen)) as [Ht|Ht]; [|by left].
  destruct (DecodeControl (A := ConnOpenReq) m) as [req|e]; [|by left].
  destruct (decide (0 ≤ cr_ConnID req < 2 ^ 31)) as [Hr|Hr]; [left; by intros _ req' [= <-]|].
  right. intros H. by apply Hr, (H Ht req).
Defined.

Section far_side.
Context {CJ : ControlJson} (quote : string → string) (sid : session_id).

(** The chain [i] of the session has the number [z]. *)
Definition chain_at (s : far) (z : Z) (i : nat) (x : chained) : Prop :=
  fr_chains s !! i = Some x ∧ d_session (ch_dial x) = sid ∧ d_connID (ch_dial x) = z.

(** The node after [r] was received over the session and [ws] sent: each chain was
    asked for, has a number of its own and sends under it what went into its stream;
    it has received what came under it, all of it while its stream is registered. *)
Record far_ok (r : list Message) (ws : list (list byte)) (inns : nat → list byte) (s : far) : Prop := {
  fo_inv : far_inv inns s;
  fo_feed : ∃ feed, feeds (fr_server s) !! sid = Some feed ∧ (clients (fr_server s) !! sid = None → h_dead feed = true) ∧
    (h_dead feed = true → h_conns feed = ∅);
  fo_asked z i x : chain_at s z i x → ∃ k m, z = num k ∧ z < 2 ^ 32 ∧ m ∈ r ∧ asks z m;
  fo_unique z i j x y : chain_at s z i x → chain_at s z j y → i = j;
  fo_out z i x : chain_at s z i x → frame_bytes z ws = into_stream (ch_phase x);
  fo_none k : (∀ i x, ¬ chain_at s (num k) i x) → frame_bytes (num k) ws = [];
  fo_in z i x : chain_at s z i x → inns i `prefix_of` item_bytes (items z r) ∧
    ∀ feed, feeds (fr_server s) !! sid = Some feed → h_conns feed !! z = Some (d_loc (ch_dial x)) → inns i = item_bytes (items z r);
  fo_opens : Forall opens_low (decoded ws);
}.

(** A step that starts no chain of the session: it sends [new] over it, and the
    chains receive what [rn] brings. *)
Record far_move (rn : list Message) (new : list (list byte)) (inns inns' : nat → list byte) (s s' : far) : Prop := {
  fm_inv : far_inv inns' s';
  fm_feed feed : feeds (fr_server s) !! sid = Some feed → ∃ feed', feeds (fr_server s') !! sid = Some feed' ∧
    (clients (fr_server s') !! sid = None → clients (fr_server s) !! sid = None ∨ h_dead feed' = true) ∧
    (h_dead feed = true → h_dead feed' = true) ∧ (h_dead feed' = true → (h_dead feed = true → h_conns feed = ∅) → h_conns feed' = ∅) ∧
    ∀ z i x, chain_at s z i x → h_conns feed' !! z = Some (d_loc (ch_dial x)) → h_conns feed !! z = Some (d_loc (ch_dial x));
  fm_old z i x : chain_at s z i x → ∃ x', chain_at s' z i x' ∧ d_loc (ch_dial x') = d_loc (ch_dial x) ∧
    into_stream (ch_phase x') = into_stream (ch_phase x) ++ frame_bytes z new;
  fm_new z i x' : chain_at s' z i x' → ∃ x, chain_at s z i x;
  fm_none k : (∀ i x, ¬ chain_at s (num k) i x) → frame_bytes (num k) new = [];
  fm_in z i x feed : chain_at s z i x → feeds (fr_server s) !! sid = Some feed →
    (h_conns feed !! z = Some (d_loc (ch_dial x)) → inns' i = inns i ++ item_bytes (items z rn)) ∧
    (h_conns feed !! z ≠ Some (d_loc (ch_dial x)) → inns' i = inns i);
  fm_opens : Forall opens_low (decoded new);
}.

Lemma chain_at_fun s z z' i x y : chain_at s z i x → chain_at s z' i y → x = y ∧ z = z'.
Proof. intros (H1 & _ & <-) (H2 & _ & <-). split; congruence. Qed.

Lemma far_ok_move r rn ws new inns inns' s s' :
  far_ok r ws inns s → far_move rn new inns inns' s s' → far_ok (r ++ rn) (ws ++ new) inns' s'.
Proof.
  intros [H1 (feed & Hf & Hc & Hd) H3 H4 H5 H6 H7 H8] [K1 K2 K3 K4 K5 K6 K7].
  destruct (K2 _ Hf) as (feed' & Hf' & Hc' & Hd1 & Hd2 & Hm).
  assert (∀ z i x', chain_at s' z i x' → ∃ x, chain_at s z i x ∧ d_loc (ch_dial x') = d_loc (ch_dial x) ∧
    into_stream (ch_phase x') = into_stream (ch_phase x) ++ frame_bytes z new) as Hold.
  { intros z i x' Hx'. destruct (K4 _ _ _ Hx') as (x & Hx). exists x. split; [done|].
    destruct (K3 _ _ _ Hx) as (x2 & Hx2 & E1 & E2). by destruct (chain_at_fun _ _ _ _ _ _ Hx' Hx2) as [-> _]. }
  split; [done| | | | | | |].
  - exists feed'. split; [done|]. split.
    + intros Hn. destruct (Hc' Hn) as [Hn'|?]; [|done]. by apply Hd1, Hc.
    + intros Hde. by apply (Hd2 Hde).
  - intros z i x' Hx'. destruct (Hold _ _ _ Hx') as (x & Hx & _). destruct (H3 _ _ _ Hx) as (k & m & E & Hr & Hin & Ha).
    exists k, m. split_and!; [done..| |done]. apply elem_of_app. by left.
  - intros z i j x y Hx Hy. destruct (Hold _ _ _ Hx) as (x0 & Hx0 & _), (Hold _ _ _ Hy) as (y0 & Hy0 & _). by eapply H4.
  - intros z i x' Hx'. destruct (Hold _ _ _ Hx') as (x & Hx & _ & E). by rewrite frame_bytes_app, (H5 _ _ _ Hx), E.
  - intros k Hno. assert (∀ i x, ¬ chain_at s (num k) i x) as Hno'.
    { intros i x Hx. destruct (K3 _ _ _ Hx) as (x' & Hx' & _). by destruct (Hno i x'). }
    by rewrite frame_bytes_app, H6, K5.
  - intros z i x' Hx'. destruct (Hold _ _ _ Hx') as (x & Hx & El & _). destruct (H7 _ _ _ Hx) as [Hp He].
    destruct (K6 _ _ _ _ Hx Hf) as [Hy Hn]. rewrite items_app, item_bytes_app. rewrite El.
    destruct (decide (h_conns feed !! z = Some (d_loc (ch_dial x)))) as [Hmap|Hno].
    + rewrite (Hy Hmap), (He _ Hf Hmap). done.
    + rewrite (Hn Hno). split; [by apply prefix_app_r|]. intros feed2 Hf2 Hmap. destruct Hno.
      assert (feed2 = feed') as -> by congruence. by eapply Hm.
  - rewrite decoded_app. by apply Forall_app.
Qed.

(** A message starts a chain of the session. *)
Lemma far_ok_new r ws inns sv chains d :
  far_ok r ws inns (mkFar sv chains) → far_inv inns (mkFar sv (chains ++ [mkChained d TDialing])) → d_session d = sid →
  (∃ k m, d_connID d = num k ∧ d_connID d < 2 ^ 32 ∧ m ∈ r ∧ asks (d_connID d) m) →
  (∀ i x, ¬ chain_at (mkFar sv chains) (d_connID d) i x) → items (d_connID d) r = [] →
  far_ok r ws inns (mkFar sv (chains ++ [mkChained d TDialing])).
Proof.
  intros [H1 H2 H3 H4 H5 H6 H7 H8] Hinv Hs Hd Hno Hit. set (s := mkFar sv chains) in *. set (x0 := mkChained d TDialing).
  assert (∀ z i x, chain_at (mkFar sv (chains ++ [x0])) z i x → chain_at s z i x ∨ i = length chains ∧ x = x0 ∧ z = d_connID d) as Hc.
  { intros z i x (Hx & Hsx & Hz). simpl in Hx. apply lookup_app_Some in Hx as [Hx|[Hge Hx]]; [by left|right].
    apply list_lookup_singleton_Some in Hx as [E <-]. split_and!; [lia|done|done]. }
  assert (∀ z i x, chain_at s z i x → chain_at (mkFar sv (chains ++ [x0])) z i x) as Hold.
  { intros z i x (Hx & Hsx & Hz). split_and!; try done. simpl. by apply lookup_app_l_Some. }
  split; try done.
  - intros z i x [Hx|(-> & -> & ->)]%Hc; [by eapply H3|done].
  - intros z i j x y [Hx|(-> & -> & ->)]%Hc [Hy|(-> & -> & ?)]%Hc; [by eapply H4| | |done].
    + subst z. by destruct (Hno i x).
    + by destruct (Hno j y).
  - intros z i x [Hx|(-> & -> & ->)]%Hc; [by eapply H5|]. simpl. destruct Hd as (k & m & E & _). rewrite E in *. by apply H6.
  - intros k Hk. apply H6. intros i x Hx. by destruct (Hk i x); apply Hold.
  - intros z i x [Hx|(-> & -> & ->)]%Hc; [by apply H7|]. rewrite Hit.
    assert (inns (length chains) = []) as -> by (eapply (fi_none _ _ H1); simpl; apply lookup_ge_None; lia). done.
Qed.

(** What the session has sent. *)
Definition far_log (s : far) : list (list byte) :=
  match sessions (fr_server s) !! sid with Some se => w_log (s_out se) | None => [] end.

Lemma far_log_logs s s' se se' ms :
  sessions (fr_server s) !! sid = Some se → sessions (fr_server s') !! sid = Some se' → logs ms se se' →
  news (far_log s) (far_log s') = frame <$> ms.
Proof. intros H1 H2 Hl. unfold far_log. rewrite H1, H2, Hl. apply news_app. Qed.

Lemma far_log_same s s' : sessions (fr_server s') !! sid = sessions (fr_server s) !! sid → news (far_log s) (far_log s') = [].
Proof. intros H. unfold far_log, news. rewrite H. apply drop_all. Qed.

Lemma far_log_gone s s' : sessions (fr_server s') !! sid = None → news (far_log s) (far_log s') = [].
Proof. intros H. unfold far_log at 2. rewrite H. apply drop_nil. Qed.

(** The session sent [ms], or it has ended. *)
Lemma far_log_step ms sv sv' chains chains' :
  sess_step sid ms sv sv' → news (far_log (mkFar sv chains)) (far_log (mkFar sv' chains')) = frame <$> ms.
Proof.
  intros [_ Hn Hl _]. destruct (sessions sv !! sid) as [se|] eqn:E.
  - destruct (Hl _ eq_refl) as (se' & Hs' & Hlog). by apply (far_log_logs _ _ se se').
  - destruct (Hn eq_refl) as [Hn' ->]. by apply far_log_gone.
Qed.

(** The steps that the chains of the session do not see, but for the frames that
    others send over it. *)
Lemma far_move_quiet inns inns' s s' new :
  far_inv inns' s' → feeds (fr_server s') !! sid = feeds (fr_server s) !! sid →
  (clients (fr_server s') !! sid = None → clients (fr_server s) !! sid = None) →
  (∀ z i x, chain_at s' z i x ↔ chain_at s z i x) → (∀ z i x, chain_at s z i x → inns' i = inns i) →
  (∀ k, frame_bytes (num k) new = []) → (∀ z i x, chain_at s z i x → ∃ k, z = num k) → Forall opens_low (decoded new) →
  far_move [] new inns inns' s s'.
Proof.
  intros Hi Hf Hc Hch Hin Hnone Hnum Ho. split; try done.
  - intros feed Hfe. exists feed. rewrite Hf. split_and!; [done|intros Hn; left; by apply Hc|done|by auto|done].
  - intros z i x Hx. exists x. destruct (Hnum _ _ _ Hx) as [k ->]. rewrite Hnone, app_nil_r. split_and!; [by apply Hch|done..].
  - intros z i x' Hx'. exists x'. by apply Hch.
  - intros z i x feed Hx _. rewrite (Hin _ _ _ Hx). cbn. rewrite app_nil_r. by split.
Qed.

Lemma chain_at_app s sv' ds z i x :
  (∀ d, d ∈ ds → d_session d ≠ sid) →
  chain_at (mkFar sv' (fr_chains s ++ ((λ d, mkChained d TDialing) <$> ds))) z i x ↔ chain_at s z i x.
Proof.
  intros Hd. unfold chain_at. simpl. split; [|intros (H1 & H2 & H3); split_and!; try done; by apply lookup_app_l_Some].
  intros (H1 & H2 & H3). apply lookup_app_Some in H1 as [H1|[_ H1]]; [done|]. rewrite list_lookup_fmap in H1.
  destruct (ds !! _) as [d|] eqn:E; [|done]. injection H1 as <-. simpl in H2. apply list_elem_of_lookup_2 in E. by destruct (Hd _ E).
Qed.

Definition proxies_low (ev : far_event) : Prop :=
  match ev with
  | FProxy _ s m => s = sid → (Type_ m = MsgData ∨ Type_ m = MsgStreamClose → 0 ≤ StreamID m < 2 ^ 31) ∧ opens_low m
  | _ => True
  end.

#[export] Instance proxies_low_dec ev : Decision (proxies_low ev).
Proof. destruct ev; simpl; apply _. Defined.

Definition far_received (ev : far_event) : list Message :=
  match ev with FRecv s _ _ m => if decide (s = sid) then [m] else [] | _ => [] end.

(** A step of others, seen from the session. *)
Lemma far_move_ok r ws inns s ev s' new :
  far_ok r ws inns s → far_apply quote s ev = Some s' → feeds (fr_server s') !! sid = feeds (fr_server s) !! sid →
  (clients (fr_server s') !! sid = None → clients (fr_server s) !! sid = None) →
  (∀ z i x, chain_at s' z i x ↔ chain_at s z i x) → (∀ z i x, chain_at s z i x → chain_incoming i s ev = []) →
  (∀ k, frame_bytes (num k) new = []) → Forall opens_low (decoded new) →
  far_move [] new inns (λ i, inns i ++ chain_incoming i s ev) s s'.
Proof.
  intros Hok Ha Hf Hc Hch Hin Hnone Ho. apply far_move_quiet; try done.
  - apply (far_inv_step quote _ _ _ _ (fo_inv _ _ _ _ Hok) Ha).
  - intros z i x Hx. rewrite (Hin _ _ _ Hx). apply app_nil_r.
  - intros z i x Hx. destruct (fo_asked _ _ _ _ Hok _ _ _ Hx) as (k & _ & -> & _). by exists k.
Qed.

Lemma far_move_connect r ws inns s s1 conn remote now s' :
  far_ok r ws inns s → far_apply quote s (FConnect s1 conn remote now) = Some s' →
  far_move [] (news (far_log s) (far_log s')) inns (λ j, inns j ++ chain_incoming j s (FConnect s1 conn remote now)) s s'.
Proof.
  intros Hok Ha. pose proof Ha as Ha0. simpl in Ha.
  destruct (fo_feed _ _ _ _ Hok) as (feed & Hfeed & _).
  destruct (feeds (fr_server s) !! s1) eqn:Ef; [done|]. injection Ha as <-. assert (s1 ≠ sid) as Hne by congruence.
  assert (clients (connect (fr_server s) s1 conn remote now).1 !! sid = clients (fr_server s) !! sid ∧
    sessions (connect (fr_server s) s1 conn remote now).1 !! sid = sessions (fr_server s) !! sid ∧
    feeds (connect (fr_server s) s1 conn remote now).1 !! sid = feeds (fr_server s) !! sid) as (E1 & E2 & E3).
  { unfold connect. destruct (ServerHandshakeVerify _ _) as [se [req|e]]; simpl; [|done]. split_and!; by rewrite lookup_insert_ne. }
  rewrite far_log_same by done. apply (far_move_ok r ws); try done; cbn [fr_server]; by rewrite E1.
Qed.

Lemma far_move_recv_other r ws inns s s1 pick now m s' :
  far_ok r ws inns s → s1 ≠ sid → far_apply quote s (FRecv s1 pick now m) = Some s' →
  far_move [] (news (far_log s) (far_log s')) inns (λ j, inns j ++ chain_incoming j s (FRecv s1 pick now m)) s s'.
Proof.
  intros Hok Hev Ha. pose proof Ha as Ha0. simpl in Ha.
  destruct (handle quote pick now (fr_server s) s1 m) as [[sv' ds]|] eqn:Eh; [|done]. injection Ha as <-.
  destruct (handle_node quote _ _ _ _ _ _ _ Eh) as [Hnode Hds].
  assert (∀ d, d ∈ ds → d_session d ≠ sid) as Hd.
  { intros d Hin. destruct Hds as [(_ & _ & ->)|(? & ? & _ & _ & _ & [_ _ _ [->|(? & ? & -> & _)]])]; [by apply elem_of_nil in Hin..|].
    by apply list_elem_of_singleton in Hin as ->. }
  rewrite far_log_same by (simpl; by apply (nd_sessions _ _ _ Hnode)).
  apply (far_move_ok r ws); try done.
  - simpl. by rewrite (nd_feeds _ _ _ Hnode).
  - simpl. by rewrite (nd_clients _ _ _ Hnode).
  - intros z i x. by apply chain_at_app.
  - intros z i x (Hx & Hs & _). simpl. rewrite Hx. unfold far_incoming. rewrite decide_False by congruence. done.
Qed.

Lemma far_move_disconnect_other r ws inns s s1 s' :
  far_ok r ws inns s → s1 ≠ sid → far_apply quote s (FDisconnect s1) = Some s' →
  far_move [] (news (far_log s) (far_log s')) inns (λ j, inns j ++ chain_incoming j s (FDisconnect s1)) s s'.
Proof.
  intros Hok Hev Ha. pose proof Ha as Ha0. simpl in Ha.
  injection Ha as <-. assert (news (far_log s) (far_log (mkFar (disconnect (fr_server s) s1) (fr_chains s))) = []) as ->.
  { apply far_log_same. unfold disconnect. simpl. by rewrite lookup_delete_ne. }
  apply (far_move_ok r ws); try done.
  - unfold disconnect. simpl. by rewrite lookup_alter_ne.
  - unfold disconnect. simpl. by rewrite lookup_delete_ne.
Qed.

Lemma far_move_chain_other r ws inns s i ev s' :
  far_ok r ws inns s → (∀ x, fr_chains s !! i = Some x → d_session (ch_dial x) ≠ sid) → far_apply quote s (FChain i ev) = Some s' →
  far_move [] (news (far_log s) (far_log s')) inns (λ j, inns j ++ chain_incoming j s (FChain i ev)) s s'.
Proof.
  intros Hok Hev Ha. pose proof Ha as Ha0. simpl in Ha. pose proof (fo_inv _ _ _ _ Hok) as Hinv.
  destruct (fr_chains s !! i) as [x|] eqn:Hx; [|done]. destruct (target_apply (fr_server s) x ev) as [[sv' x']|] eqn:Et; [|done].
  injection Ha as <-. specialize (Hev _ eq_refl). apply not_eq_sym in Hev. destruct (fi_chain _ _ Hinv _ _ Hx) as (fd & sc & Hf & Hsc & Hid & Hphase).
  destruct (target_step (ch_dial x) _ fd sc Hf Hsc (fi_feed _ _ Hinv _ _ Hf) x ev sv' x' _ _ eq_refl Hphase Et)
    as (Hd & feed' & sc' & ms & Ho). pose proof (ow_sess _ _ _ _ _ _ _ _ _ _ Ho) as Hss.
  rewrite far_log_same by (simpl; by apply (sn_other _ _ _ _ Hss)).
  apply (far_move_ok r ws); try done.
  - simpl. by apply (ow_other _ _ _ _ _ _ _ _ _ _ Ho).
  - simpl. by rewrite (sn_clients _ _ _ _ Hss).
  - intros z j y. unfold chain_at. simpl. destruct (decide (i = j)) as [<-|Hne]; [|by rewrite list_lookup_insert_ne].
    rewrite list_lookup_insert_eq, Hx by (by eapply lookup_lt_Some). split; intros (E & Hs & _); simplify_eq; congruence.
Qed.

Lemma far_move_proxy r ws inns s h s1 m s' :
  far_ok r ws inns s → proxies_low (FProxy h s1 m) → far_apply quote s (FProxy h s1 m) = Some s' →
  far_move [] (news (far_log s) (far_log s')) inns (λ j, inns j ++ chain_incoming j s (FProxy h s1 m)) s s'.
Proof.
  intros Hok Hlow Ha. pose proof Ha as Ha0. simpl in Ha.
  injection Ha as <-. destruct (send_to_step (with_hub (fr_server s) h) s1 m) as (Hf & ms & Hst & Hms).
  assert (news (far_log s) (far_log (mkFar (send_to (with_hub (fr_server s) h) s1 m) (fr_chains s))) =
    if decide (s1 = sid) then frame <$> ms else []) as ->.
  { case_decide as E; [subst s1; destruct s as [sv ch]; exact (far_log_step ms _ _ ch ch Hst)|].
    apply far_log_same. simpl. by rewrite (sn_other _ _ _ _ Hst) by congruence. }
  apply (far_move_ok r ws); try done.
  - simpl. by rewrite Hf.
  - simpl. by rewrite (sn_clients _ _ _ _ Hst).
  - intros k. case_decide as E; [|done]. destruct (Hlow E) as [Hm _]. apply frame_bytes_none.
    destruct Hms as [->|[-> _]]; [constructor|]. constructor; [|constructor].
    destruct (item_of (num k) (norm m)) eqn:Ei; [|done]. apply item_of_types in Ei as [Hid Ht]. simpl in Hid, Ht.
    assert (0 ≤ StreamID m < 2 ^ 31) as Hr by (apply Hm; destruct Ht as [[? _]|[? _]]; by auto).
    rewrite u32_small in Hid by lia. unfold num in Hid. lia.
  - case_decide as E; [|constructor]. destruct (Hlow E) as [_ Hm]. apply opens_low_frames.
    destruct Hms as [->|[-> _]]; [constructor|]. constructor; [by right|constructor].
Qed.

(** A goroutine of a chain of the session. *)
Lemma far_move_chain r ws inns s i ev x s' :
  far_ok r ws inns s → fr_chains s !! i = Some x → d_session (ch_dial x) = sid → far_apply quote s (FChain i ev) = Some s' →
  far_move [] (news (far_log s) (far_log s')) inns (λ j, inns j ++ chain_incoming j s (FChain i ev)) s s'.
Proof.
  intros Hok Hx Hsid Ha. pose proof (fo_inv _ _ _ _ Hok) as Hinv. pose proof (far_inv_step quote _ _ _ _ Hinv Ha) as Hinv'.
  simpl in Ha. rewrite Hx in Ha. destruct (target_apply (fr_server s) x ev) as [[sv' x']|] eqn:Et; [|done]. injection Ha as <-.
  destruct (fi_chain _ _ Hinv _ _ Hx) as (feed & sc & Hf & Hsc & Hid & Hphase).
  destruct (target_step (ch_dial x) _ feed sc Hf Hsc (fi_feed _ _ Hinv _ _ Hf) x ev sv' x' _ _ eq_refl Hphase Et)
    as (Hd & feed' & sc' & ms & Ho). pose proof (ow_sess _ _ _ _ _ _ _ _ _ _ Ho) as Hss. rewrite Hsid in Hss, Hf.
  assert (news (far_log s) (far_log (mkFar sv' (<[i:=x']> (fr_chains s)))) = frame <$> ms) as ->.
  { destruct s as [sv ch]. exact (far_log_step ms _ _ ch _ Hss). }
  set (s' := mkFar sv' (<[i:=x']> (fr_chains s))). set (z0 := d_connID (ch_dial x)).
  assert (chain_at s z0 i x) as Hx0 by done.
  destruct (fo_asked _ _ _ _ Hok _ _ _ Hx0) as (k0 & _ & Ek & Hr & _). assert (0 ≤ z0 < 2 ^ 32) as Hz0 by (rewrite Ek in *; unfold num in *; lia).
  pose proof (ow_frames _ _ _ _ _ _ _ _ _ _ Ho) as Hfr. pose proof (ow_sent _ _ _ _ _ _ _ _ _ _ Ho) as Hsent.
  rewrite Hid in Hfr, Hsent. fold z0 in Hfr, Hsent.
  assert (∀ z j y, chain_at s' z j y → ∃ y0, chain_at s z j y0 ∧ (j ≠ i → y0 = y) ∧ (j = i → y0 = x ∧ y = x' ∧ z = z0)) as Hnew.
  { intros z j y (Hy & Hs & Hz). simpl in Hy. apply list_lookup_insert_Some in Hy as [(<- & <- & _)|[Hne Hy]].
    - exists x. split_and!; [|done|intros _; split_and!; [done..|by rewrite <- Hz, Hd]]. split_and!; [done..|by rewrite <- Hd].
    - exists y. split_and!; [by split_and!|done|]. by intros <-. }
  split; try done.
  - intros feed0 Hf0. assert (feed0 = feed) as -> by congruence. exists feed'. rewrite <- Hsid. simpl. split; [apply Ho|].
    rewrite (sn_clients _ _ _ _ Hss), (ow_dead _ _ _ _ _ _ _ _ _ _ Ho). pose proof (ow_map _ _ _ _ _ _ _ _ _ _ Ho) as Hm.
    split_and!; [by left|done| |by intros; eapply lookup_weaken].
    intros Hde Hem. apply map_eq. intros j. rewrite lookup_empty. destruct (h_conns feed' !! j) as [lj|] eqn:Ej; [|done].
    eapply lookup_weaken in Ej; [|exact Hm]. rewrite (Hem Hde), lookup_empty in Ej. done.
  - intros z j y Hy. destruct (decide (i = j)) as [<-|Hne].
    + destruct (chain_at_fun _ _ _ _ _ _ Hx0 Hy) as [<- <-]. exists x'. rewrite Hd. split_and!; [|done|].
      * split_and!; [simpl; by rewrite list_lookup_insert_eq by (by eapply lookup_lt_Some)|by rewrite Hd..].
      * by rewrite frame_bytes_own.
    + exists y. split_and!; [|done|].
      * destruct Hy as (H1 & H2 & H3). split_and!; [simpl; by rewrite list_lookup_insert_ne|done..].
      * rewrite (frame_bytes_other z z0), app_nil_r; try done. intros Heq. apply Hne. rewrite Heq in Hx0. by eapply (fo_unique _ _ _ _ Hok).
  - intros z j y Hy. destruct (Hnew _ _ _ Hy) as (y0 & ? & _). by exists y0.
  - intros k Hno. rewrite (frame_bytes_other _ z0); try done. intros Heq. rewrite Heq in Hx0. by destruct (Hno i x).
  - intros z j y feed0 _ _. simpl. rewrite !app_nil_r. by split.
  - apply opens_low_frames. eapply Forall_impl; [exact Hfr|]. intros m (_ & Ht & _). left. intros E. rewrite E in Ht. by destruct Ht.
Qed.

(** The session ends. *)
Lemma far_move_disconnect r ws inns s :
  far_ok r ws inns s →
  far_move [] [] inns (λ i, inns i ++ chain_incoming i s (FDisconnect sid)) s (mkFar (disconnect (fr_server s) sid) (fr_chains s)).
Proof.
  intros Hok. pose proof (far_inv_step quote _ _ (FDisconnect sid) _ (fo_inv _ _ _ _ Hok) eq_refl) as Hinv'.
  destruct (fo_feed _ _ _ _ Hok) as (feed & Hf & _ & Hdead). split; try done.
  - intros feed0 Hf0. assert (feed0 = feed) as -> by congruence. exists (SessionClosed feed). unfold disconnect. simpl.
    rewrite lookup_alter_eq, Hf. assert (h_dead (SessionClosed feed) = true) as Hd by (unfold SessionClosed; by destruct (h_dead feed) eqn:E).
    assert (h_conns (SessionClosed feed) = ∅) as He.
    { unfold SessionClosed. destruct (h_dead feed) eqn:E; [by apply Hdead|done]. }
    rewrite Hd, He. split_and!; try done; by right.
  - intros z i x Hx. exists x. by rewrite app_nil_r.
  - intros z i x Hx. by exists x.
  - intros z i x feed0 _ _. simpl. rewrite !app_nil_r. by split.
Qed.

(** A message of the session, apart from the chain it may start. *)
Lemma far_move_recv r ws inns s pick now m sv' ds :
  far_ok r ws inns s → handle quote pick now (fr_server s) sid m = Some (sv', ds) →
  far_inv (λ i, inns i ++ chain_incoming i s (FRecv sid pick now m)) (mkFar sv' (fr_chains s)) →
  far_move [m] (news (far_log s) (far_log (mkFar sv' (fr_chains s)))) inns
    (λ i, inns i ++ chain_incoming i s (FRecv sid pick now m)) s (mkFar sv' (fr_chains s)).
Proof.
  intros Hok Ha Hinv'. pose proof (fo_inv _ _ _ _ Hok) as Hinv. destruct (fo_feed _ _ _ _ Hok) as (feed & Hf & Hcl & Hdead).
  destruct (handle_node quote _ _ _ _ _ _ _ Ha) as [Hnode Hfeed].
  assert (∃ ms, news (far_log s) (far_log (mkFar sv' (fr_chains s))) = frame <$> ms ∧ Forall quiet_frame ms) as (ms & Hms & Hq).
  { destruct (sessions (fr_server s) !! sid) as [se|] eqn:E.
    - destruct (nd_log _ _ _ Hnode _ E) as (se' & ms & Hs' & Hl & Hq). exists ms. split; [by apply (far_log_logs _ _ se se')|done].
    - exists []. split; [|constructor]. apply far_log_gone. simpl. by apply (nd_none _ _ _ Hnode). }
  rewrite Hms. split; try done.
  - intros feed0 Hf0. assert (feed0 = feed) as -> by congruence. simpl. rewrite (nd_clients _ _ _ Hnode).
    destruct Hfeed as [(Hno & -> & _)|(fd & feed' & _ & Hfd & Hf' & [_ Hg [Hd1 Hd2] _])].
    + exists feed. split_and!; auto.
    + assert (fd = feed) as -> by congruence. exists feed'. rewrite Hd1. split_and!; auto.
      * intros Hde Hem. apply map_eq. intros j. rewrite lookup_empty. destruct (h_conns feed' !! j) as [lj|] eqn:Ej; [|done].
        eapply lookup_weaken in Ej; [|by apply Hd2]. rewrite (Hem Hde), lookup_empty in Ej. done.
      * intros z i x (Hx & Hs & _). destruct (fi_chain _ _ Hinv _ _ Hx) as (fd & sc & Hfx & Hsc & _). rewrite Hs in Hfx.
        assert (fd = feed) as -> by congruence. apply (fg_map _ _ _ _ (Hg _)). by eapply lookup_lt_Some.
  - intros z i x Hx. exists x. by rewrite frame_bytes_quiet, app_nil_r.
  - intros z i x Hx. by exists x.
  - intros k _. by apply frame_bytes_quiet.
  - intros z i x feed0 (Hx & Hs & Hz) Hf0. assert (feed0 = feed) as -> by congruence. simpl. rewrite Hx. unfold far_incoming.
    rewrite decide_True, Hf by done.
    assert (h_conns feed !! z = Some (d_loc (ch_dial x)) → feed_incoming (d_loc (ch_dial x)) feed m = item_bytes (items z [m])) as Hin.
    { intros Hm. destruct (fi_feed _ _ Hinv _ _ Hf) as [Hconns _ _].
      unfold feed_incoming, items. cbn [omap list_omap]. unfold item_of.
      destruct (decide (StreamID m = z)) as [E|Hne].
      - rewrite E, Hm. rewrite (bool_decide_true (z = z)) by done. destruct (decide (Type_ m = MsgData)) as [Ht|Ht].
        + rewrite !bool_decide_true by done. unfold item_bytes. simpl. by rewrite app_nil_r.
        + rewrite !bool_decide_false by (done || by intros [? _]). by destruct (IsHalfClose m).
      - rewrite (bool_decide_false (StreamID m = z)) by done. rewrite bool_decide_false; [done|]. intros [_ H].
        destruct (Hconns _ _ H) as (s1 & K1 & E1), (Hconns _ _ Hm) as (s2 & K2 & E2). congruence. }
    destruct (clients (fr_server s) !! sid) as [info|] eqn:Ec.
    + split; [intros Hm; by rewrite Hin|]. intros Hno. rewrite feed_incoming_gone; [by rewrite app_nil_r|]. intros id Hid.
      destruct (fi_feed _ _ Hinv _ _ Hf) as [Hconns _ _]. destruct (Hconns _ _ Hid) as (s1 & K1 & E1).
      destruct (fi_chain _ _ Hinv _ _ Hx) as (fd & sc & Hfx & Hsc & Hidx & _). rewrite Hs in Hfx. assert (fd = feed) as -> by congruence.
      destruct Hno. congruence.
    + rewrite (Hdead (Hcl eq_refl)), lookup_empty. split; [done|]. intros _. apply app_nil_r.
  - apply opens_low_frames. eapply Forall_impl; [exact Hq|]. intros m0 ((_ & _ & ?) & _). by left.
Qed.

Lemma far_ok_step r ws inns s ev s' :
  far_ok r ws inns s → proxies_low ev → far_apply quote s ev = Some s' →
  (∀ k, fresh (num k) (r ++ far_received ev)) → (∀ z m, m ∈ r ++ far_received ev → asks z m → ∃ k, z = num k ∧ z < 2 ^ 32) →
  ∃ inns', far_ok (r ++ far_received ev) (ws ++ news (far_log s) (far_log s')) inns' s'.
Proof.
  intros Hok Hlow Ha Hfr Hasks. pose proof (far_inv_step quote _ _ _ _ (fo_inv _ _ _ _ Hok) Ha) as Hinv'.
  assert (far_move [] (news (far_log s) (far_log s')) inns (λ i, inns i ++ chain_incoming i s ev) s s' →
    far_received ev = [] → ∃ inns', far_ok (r ++ far_received ev) (ws ++ news (far_log s) (far_log s')) inns' s') as Hmove.
  { intros Hm ->. eexists. by eapply far_ok_move. }
  destruct ev as [s1 conn remote now|s1 pick now m|s1|i ev|h s1 m].
  - by apply Hmove; [eapply far_move_connect|].
  - destruct (decide (s1 = sid)) as [->|Hne].
    2: { apply Hmove; [by eapply far_move_recv_other|]. unfold far_received. by rewrite decide_False. }
    simpl in Ha. destruct (handle quote pick now (fr_server s) sid m) as [[sv' ds]|] eqn:Eh; [|done]. injection Ha as <-.
    unfold far_received in *. rewrite decide_True in * by done.
    set (inns' := λ i, inns i ++ chain_incoming i s (FRecv sid pick now m)) in *.
    assert (far_inv inns' (mkFar sv' (fr_chains s))) as Hinv1.
    { destruct Hinv' as [H1 H2 H3 H4]. split; simpl in *; [done|intros i x Hx; by apply H2, lookup_app_l_Some| |].
      - intros i Hi. unfold inns'. simpl. rewrite Hi, (fi_none _ _ (fo_inv _ _ _ _ Hok)) by done. done.
      - intros i j x y Hx Hy. by eapply H4; apply lookup_app_l_Some. }
    pose proof (far_ok_move _ _ _ _ _ _ _ _ Hok (far_move_recv _ _ _ _ _ _ _ _ _ Hok Eh Hinv1)) as Hok1.
    destruct (handle_node quote _ _ _ _ _ _ _ Eh) as [_ Hds]. exists inns'.
    assert (ds = [] ∨ ∃ d, ds = [d] ∧ d_session d = sid ∧ asks (d_connID d) m) as [->|(d & -> & Hs & Hm)].
    { destruct Hds as [(_ & _ & ->)|(fd & fd' & _ & _ & _ & [_ _ _ [->|(id & tg & -> & _ & Ht & req & Hd & Hid)]])]; [by left..|].
      right. eexists. split; [done|]. split; [done|]. split; [done|]. by exists req. }
    { simpl. rewrite app_nil_r. exact Hok1. }
    destruct (Hasks _ _ ltac:(apply elem_of_app; right; by left) Hm) as (k & Ek & Hk).
    pose proof (Hfr k r m [] eq_refl ltac:(by rewrite <- Ek)) as Hnone. rewrite Forall_forall in Hnone.
    apply (far_ok_new _ _ _ _ _ d Hok1 Hinv' Hs).
    + exists k, m. split_and!; try done. apply elem_of_app. right. by left.
    + intros i x Hx. destruct (fo_asked _ _ _ _ Hok (d_connID d) i x Hx) as (_ & m0 & _ & _ & Hin & Ha0).
      destruct (Hnone _ Hin) as [_ []]. by rewrite <- Ek.
    + rewrite Ek, items_app, items_quiet by (apply Forall_forall; intros m0 Hin; by apply Hnone).
      unfold items. simpl. destruct Hm as [Ht _]. by rewrite item_of_ctrl by (by rewrite Ht).
  - destruct (decide (s1 = sid)) as [->|Hne].
    + simpl in Ha. injection Ha as <-. apply Hmove; [|done]. rewrite far_log_gone; [by eapply far_move_disconnect|].
      unfold disconnect. simpl. apply lookup_delete_eq.
    + by apply Hmove; [eapply far_move_disconnect_other|].
  - destruct (fr_chains s !! i) as [x|] eqn:Hx; [|simpl in Ha; by rewrite Hx in Ha].
    apply Hmove; [|done]. destruct (decide (d_session (ch_dial x) = sid)) as [E|Hne]; [by eapply far_move_chain|].
    eapply far_move_chain_other; [done| |done]. intros y Hy. congruence.
  - by apply Hmove; [eapply far_move_proxy|].
Qed.
End far_side.

(** * The two sides, joined *)

Section joined.
Context {CJ : ControlJson} (quote : string → string) (l : nat) (sid : session_id).

(** The gateway, the node, the frames the node has sent over the session [sid],
    and how many messages of the client [l] and frames of the session the other
    side has read. *)
Record chain := mkChain {
  cn_near : gateway;
  cn_far : far;
  cn_wire : list (list byte);
  cn_up : nat;
  cn_down : nat;
}.

(** Each side does what it does; a message it receives over the session is the
    next one the other side has sent, as it is read. The node's own proxies use
    numbers below [2^31]. *)
Inductive chain_ev :=
  | CNear (ev : gevent)
  | CNearRecv (pick : bool) (dialed : result string unit)
  | CFar (ev : far_event)
  | CFarRecv (pick : bool) (now : Z).

Definition near_free (ev : gevent) : bool :=
  match ev with EvClient l' (CRecv _ _ _) => negb (bool_decide (l' = l)) | _ => true end.
Definition far_free (ev : far_event) : bool :=
  match ev with FRecv s _ _ _ => negb (bool_decide (s = sid)) | _ => true end.

(** The node moves, having read [up] messages of the client. *)
Definition chain_far (t : chain) (up : nat) (ev : far_event) : option chain :=
  match far_apply quote (cn_far t) ev with
  | Some s => Some (mkChain (cn_near t) s (cn_wire t ++ news (far_log sid (cn_far t)) (far_log sid s)) up (cn_down t))
  | None => None
  end.

(** The gateway moves, having read [down] frames of the session. *)
Definition chain_near (t : chain) (down : nat) (ev : gevent) : option chain :=
  match gapply quote (cn_near t) ev with
  | Some g => Some (mkChain g (cn_far t) (cn_wire t) (cn_up t) down)
  | None => None
  end.

Definition chain_apply (t : chain) (ev : chain_ev) : option chain :=
  match ev with
  | CNear ev => if near_free ev then chain_near t (cn_down t) ev else None
  | CNearRecv pick dialed =>
      match cn_wire t !! cn_down t ≫= decode with
      | Some m => chain_near t (S (cn_down t)) (EvClient l (CRecv pick m dialed))
      | None => None
      end
  | CFar ev => if far_free ev && bool_decide (proxies_low sid ev) then chain_far t (cn_up t) ev else None
  | CFarRecv pick now =>
      match g_clients (cn_near t) !! l ≫= λ c, c_out c !! cn_up t ≫= λ m, decode (frame m) with
      | Some m => chain_far t (S (cn_up t)) (FRecv sid pick now m)
      | None => None
      end
  end.

Fixpoint chain_run (t : chain) (evs : list chain_ev) : option chain :=
  match evs with
  | [] => Some t
  | ev :: evs => chain_apply t ev ≫= λ t, chain_run t evs
  end.

(** A gateway that has just been started, over a client that has just been dialed,
    and a node that has the other end of the session, over which nothing was asked. *)
Record chain_start (t : chain) : Prop := {
  cs_gateway : ∃ cr conf d clients now c, cn_near t = serveChain cr conf d clients now ∧ clients !! l = Some c ∧ dialed_client c;
  cs_node : ∃ sv evs, feeds sv = ∅ ∧ far_run quote (mkFar sv []) evs = Some (cn_far t);
  cs_session : is_Some (clients (fr_server (cn_far t)) !! sid) ∧
    ∃ feed, feeds (fr_server (cn_far t)) !! sid = Some feed ∧ h_conns feed = ∅;
  cs_unasked x : x ∈ fr_chains (cn_far t) → d_session (ch_dial x) ≠ sid;
  cs_silent : cn_wire t = [] ∧ cn_up t = 0%nat ∧ cn_down t = 0%nat;
}.

(** ** The invariant *)

Record linked_by (inn : list byte) (inns : nat → list byte) (c : CtrlClient) (t : chain) : Prop := {
  lk_client : g_clients (cn_near t) !! l = Some c;
  lk_near : near_ok c;
  lk_sent : own_sent l (cn_near t) c;
  lk_ginv : ginv inn (cn_near t);
  lk_far : far_ok sid (norm <$> take (cn_up t) (c_out c)) (cn_wire t) inns (cn_far t);
  lk_up : (cn_up t ≤ length (c_out c))%nat;
  lk_own loc w : own_written (cn_near t) = Some (l, loc, w) →
    inn `prefix_of` frame_bytes (num loc) (take (cn_down t) (cn_wire t)) ∧
    (dialConns c !! num loc = Some loc → inn = frame_bytes (num loc) (take (cn_down t) (cn_wire t)));
}.

Definition linked (t : chain) : Prop := ∃ inn inns c, linked_by inn inns c t ∧ (cn_down t ≤ length (cn_wire t))%nat.

Hypothesis Hjson : number_kept.

(** *** Messages as they are read *)

Lemma near_ok_small c : near_ok c → Z.of_nat (length (c_dheap c)) < 2 ^ 31.
Proof. intros [_ [-> ?] _ _ _ _]. done. Qed.

Lemma item_of_norm n z m : Z.of_nat n < 2 ^ 31 → out_ok n m → item_of z (norm m) = item_of z m.
Proof.
  intros Hn Hm. assert (Type_ m = MsgData ∨ Type_ m = MsgStreamClose → norm m = m) as Hid.
  { intros Ht. apply norm_id. destruct Hm as [[_ Hp]|(k & Hk & [(name & id & ->)|[-> _]])]; [specialize (Hp Ht); lia| |unfold num; lia].
    by destruct Ht. }
  destruct (decide (Type_ m = MsgData)); [by rewrite Hid by auto|].
  destruct (decide (Type_ m = MsgStreamClose)); [by rewrite Hid by auto|]. by rewrite !item_of_ctrl.
Qed.

Lemma items_norm n z ms : Z.of_nat n < 2 ^ 31 → Forall (out_ok n) ms → items z (norm <$> ms) = items z ms.
Proof.
  intros Hn. induction 1 as [|m ms Hm _ IH]; [done|]. unfold items in *. cbn [fmap list_fmap omap list_omap].
  by rewrite (item_of_norm n), IH.
Qed.

Lemma asks_norm z m : asks z (norm m) ↔ asks z m.
Proof. done. Qed.

Lemma fresh_norm n k ms : Z.of_nat n < 2 ^ 31 → Forall (out_ok n) ms → fresh (num k) ms → fresh (num k) (norm <$> ms).
Proof.
  intros Hn Hok Hf ms1 m ms2 He Ha. apply fmap_app_inv in He as (a & b & -> & Hb & ->).
  destruct b as [|m0 b]; [done|]. injection Hb as -> _. specialize (Hf a m0 b eq_refl Ha). apply Forall_app in Hok as [Hok _].
  apply Forall_fmap. rewrite Forall_forall in *. intros m' Hin. simpl. rewrite (item_of_norm n) by auto. rewrite asks_norm. by apply Hf.
Qed.

(** The messages of the client that the node has read. *)
Lemma up_read c n :
  near_ok c → (∀ k, fresh (num k) (norm <$> take n (c_out c))) ∧
  (∀ z m, m ∈ norm <$> take n (c_out c) → asks z m → ∃ k, (k < length (c_dheap c))%nat ∧ z = num k ∧ z < 2 ^ 32) ∧
  ∀ z, items z (norm <$> take n (c_out c)) = items z (take n (c_out c)).
Proof.
  intros Hi. pose proof (near_ok_small _ Hi) as Hs.
  assert (Forall (out_ok (length (c_dheap c))) (take n (c_out c))) as Hok by by apply Forall_take, no_out.
  split_and!.
  - intros k. eapply fresh_norm; [done..|]. eapply fresh_prefix; [|by apply no_fresh]. apply prefix_take.
  - intros z m Hin Ha. apply list_elem_of_fmap in Hin as (m0 & -> & Hin). rewrite Forall_forall in Hok.
    destruct (out_ok_asks Hjson _ _ _ (Hok _ Hin) Ha) as (k & Hk & -> & _). exists k. split_and!; [done..|]. unfold num. lia.
  - intros z. by eapply items_norm.
Qed.

(** *** The near side moves *)

Lemma frame_bytes_prefix z a b : a `prefix_of` b → frame_bytes z a `prefix_of` frame_bytes z b.
Proof. intros [r ->]. rewrite frame_bytes_app. by eexists. Qed.

(** Nothing came back under a number that was not dialed. *)
Lemma frame_bytes_undialed r ws inns s c k n :
  far_ok sid r ws inns s → (∀ z m, m ∈ r → asks z m → ∃ k, (k < length (c_dheap c))%nat ∧ z = num k ∧ z < 2 ^ 32) →
  (length (c_dheap c) ≤ k)%nat → frame_bytes (num k) (take n ws) = [].
Proof.
  intros Hok Hr Hk. assert (frame_bytes (num k) ws = []) as Hn.
  { apply (fo_none _ _ _ _ _ Hok). intros i x Hx. destruct (fo_asked _ _ _ _ _ Hok _ _ _ Hx) as (j & m & _ & _ & Hin & Ha).
    destruct (Hr _ _ Hin Ha) as (k' & Hlt & E & _). apply num_inj in E. lia. }
  apply prefix_nil_inv. rewrite <- Hn. apply frame_bytes_prefix, prefix_take.
Qed.

(** What a step of the near side brings to the gateway's connection. *)
Lemma gincoming_own g c ev loc w :
  near_ok c → g_clients g !! l = Some c → own_written g = Some (l, loc, w) →
  let rn := match ev with EvClient l' (CRecv _ m _) => if decide (l' = l) then [m] else [] | _ => [] end in
  gincoming g ev = if decide (dialConns c !! num loc = Some loc) then item_bytes (items (num loc) rn) else [].
Proof.
  intros Hi Hc Hw rn. assert (gincoming g ev = match ev with EvClient l' ev => if decide (l' = l) then incoming loc c ev else [] | _ => [] end) as ->.
  { unfold own_written, gincoming in *. destruct (g_phase g); try done; injection Hw as -> -> _; destruct ev; try done; (case_decide; [|done]); subst; by rewrite Hc. }
  assert (∀ ev', incoming loc c ev' = if decide (dialConns c !! num loc = Some loc) then
    item_bytes (items (num loc) (match ev' with CRecv _ m _ => [m] | _ => [] end)) else []) as Hin.
  { intros [pick m dialed| | | | | | | | | |]; try (by case_decide). cbn [incoming]. unfold items. cbn [omap list_omap]. unfold item_of.
    case_decide as Hm.
    - destruct (decide (StreamID m = num loc)) as [E|Hne].
      + rewrite E, Hm, (bool_decide_true (num loc = num loc)) by done. destruct (decide (Type_ m = MsgData)) as [Ht|Ht].
        * rewrite !bool_decide_true by done. unfold item_bytes. simpl. by rewrite app_nil_r.
        * rewrite !bool_decide_false by (done || by intros [? _]). by destruct (IsHalfClose m).
      + rewrite (bool_decide_false (StreamID m = num loc)) by done. rewrite bool_decide_false; [done|]. intros [_ H].
        destruct (no_map _ Hi _ _ H). congruence.
    - rewrite bool_decide_false; [done|]. intros [_ H]. destruct (no_map _ Hi _ _ H) as [E _]. congruence. }
  destruct ev as [| | | | | | | | | | |l' ev|]; try (by case_decide). subst rn. destruct (decide (l' = l)) as [->|Hne].
  - rewrite Hin. destruct ev; try done; by rewrite decide_True.
  - destruct ev; try (by destruct (decide (dialConns c !! _ = _))); rewrite (decide_False (P := l' = l)) by done; by case_decide.
Qed.

Lemma linked_near t ev g' n :
  linked t → gapply quote (cn_near t) ev = Some g' →
  let rn := match ev with EvClient l' (CRecv _ m _) => if decide (l' = l) then [m] else [] | _ => [] end in
  decoded (take n (cn_wire t)) = decoded (take (cn_down t) (cn_wire t)) ++ rn → (n ≤ length (cn_wire t))%nat →
  linked (mkChain g' (cn_far t) (cn_wire t) (cn_up t) n).
Proof.
  intros (inn & inns & c & [H1 H2 H3 H4 H5 H6 H7] & _) Ha rn Hn Hlen.
  assert (received_low l ev) as Hlow.
  { destruct ev as [| | | | | | | | | | |l' []|]; try done. intros ->. subst rn. rewrite decide_True in Hn by done.
    pose proof (fo_opens _ _ _ _ _ H5) as Ho. rewrite Forall_forall in Ho. apply Ho.
    rewrite <- (take_drop n (cn_wire t)), decoded_app, Hn. apply elem_of_app. left. apply elem_of_app. right. by left. }
  destruct (near_step quote l Hjson _ _ _ _ _ H4 H2 H3 H1 Hlow Ha) as (c' & [K1 K2 [new K3] K4 K5]).
  exists (inn ++ gincoming (cn_near t) ev), inns, c'. split; [|done]. split; simpl; try done.
  - by eapply ginv_step.
  - rewrite K3, take_app_le by done. done.
  - rewrite K3, length_app. lia.
  - intros loc w' Hw'. destruct (up_read c (cn_up t) H2) as (_ & Hasks & _).
    unfold frame_bytes. rewrite Hn, items_app, item_bytes_app. fold (frame_bytes (num loc) (take (cn_down t) (cn_wire t))).
    destruct (K5 _ _ Hw') as [[[w Hw] Hmap]|[Hph ->]].
    + rewrite (gincoming_own _ _ _ _ _ H2 H1 Hw). fold rn. destruct (H7 _ _ Hw) as [Hp He].
      destruct (decide (dialConns c !! num loc = Some loc)) as [Hm|Hm]; [by rewrite (He Hm)|]. rewrite app_nil_r.
      split; [by apply prefix_app_r|]. intros Hm'. by destruct Hm; apply Hmap.
    + rewrite (frame_bytes_undialed _ _ _ _ _ _ _ H5 Hasks) by done.
      unfold ginv in H4. rewrite Hph in H4. destruct H4 as [_ ->].
      assert (rn = []) as ->.
      { subst rn. destruct ev as [| | | | | | | | | | |l' ev|]; try done. exfalso. simpl in Ha.
        apply bind_Some in Ha as (c0 & Hc0 & (c1 & Hc1 & [= <-])%bind_Some). unfold own_written in Hw'. simpl in Hw'. by rewrite Hph in Hw'. }
      assert (gincoming (cn_near t) ev = []) as -> by (unfold gincoming; rewrite Hph; by destruct ev). done.
Qed.

(** *** The far side moves *)

Lemma linked_far t ev s' n :
  linked t → proxies_low sid ev → far_apply quote (cn_far t) ev = Some s' →
  (∀ c, g_clients (cn_near t) !! l = Some c → (cn_up t ≤ length (c_out c))%nat →
     norm <$> take n (c_out c) = (norm <$> take (cn_up t) (c_out c)) ++ far_received sid ev ∧ (n ≤ length (c_out c))%nat) →
  linked (mkChain (cn_near t) s' (cn_wire t ++ news (far_log sid (cn_far t)) (far_log sid s')) n (cn_down t)).
Proof.
  intros (inn & inns & c & [H1 H2 H3 H4 H5 H6 H7] & Hd) Hlow Ha Hn. destruct (Hn _ H1 H6) as [Hr Hlen].
  destruct (up_read c n H2) as (Hfr & Hasks & _). rewrite Hr in Hfr, Hasks.
  destruct (far_ok_step quote sid _ _ _ _ _ _ H5 Hlow Ha Hfr) as [inns' Hok].
  { intros z m Hin Hz. destruct (Hasks _ _ Hin Hz) as (k & _ & ? & ?). by exists k. }
  exists inn, inns', c. split; [|simpl; rewrite length_app; lia]. split; simpl; try done.
  - by rewrite Hr.
  - by rewrite take_app_le.
Qed.

Lemma linked_step t ev t' : linked t → chain_apply t ev = Some t' → linked t'.
Proof.
  intros Hl Ha. pose proof Hl as (_ & _ & _ & _ & Hd). destruct ev as [ev|pick dialed|ev|pick now]; unfold chain_apply, chain_near, chain_far in Ha.
  - destruct (near_free ev) eqn:Hev; [|done]. destruct (gapply _ _ ev) as [g'|] eqn:Eg; [|done]. injection Ha as <-.
    eapply linked_near; [done|done| |done]. destruct ev as [| | | | | | | | | | |l' [pick m dialed| | | | | | | | | |]|]; try (by rewrite app_nil_r).
    simpl in Hev. apply negb_true_iff, bool_decide_eq_false in Hev. cbv beta iota zeta. by rewrite decide_False, app_nil_r.
  - destruct (cn_wire t !! cn_down t) as [fr|] eqn:Hfr; [|done]. cbn [mbind option_bind andb] in Ha. destruct (decode fr) as [m|] eqn:Hm; [|done].
    destruct (gapply _ _ _) as [g'|] eqn:Eg; [|done]. injection Ha as <-.
    eapply linked_near; [done|done| |by eapply lookup_lt_Some]. cbv beta iota zeta. rewrite decide_True by done.
    rewrite (take_S_r _ _ _ Hfr), decoded_app. unfold decoded at 2. cbn [omap list_omap]. by rewrite Hm.
  - destruct (far_free ev) eqn:Hev; [|done]. case_bool_decide as Hlow; [|done]. cbn [mbind option_bind andb] in Ha.
    destruct (far_apply _ _ ev) as [s'|] eqn:Es; [|done]. injection Ha as <-.
    apply (linked_far _ ev); [done..|]. intros c Hc Hup. split; [|done].
    destruct ev as [|s1 pick now m| | |]; try (by rewrite app_nil_r). simpl in Hev. apply negb_true_iff, bool_decide_eq_false in Hev.
    simpl. by rewrite decide_False, app_nil_r.
  - destruct (g_clients (cn_near t) !! l) as [c|] eqn:Hc; [|done]. cbn [mbind option_bind andb] in Ha.
    destruct (c_out c !! cn_up t) as [m|] eqn:Hm; [|done]. cbn [mbind option_bind andb] in Ha. destruct (decode (frame m)) as [m'|] eqn:Hm'; [|done].
    destruct (far_apply _ _ _) as [s'|] eqn:Es; [|done]. injection Ha as <-.
    apply (linked_far _ (FRecv sid pick now m')); [done..|]. intros c0 Hc0 Hup. assert (c0 = c) as -> by congruence.
    split; [|by eapply lookup_lt_Some]. simpl. rewrite decide_True by done. apply decode_frame in Hm' as ->.
    by rewrite (take_S_r _ _ _ Hm), fmap_app.
Qed.

Lemma linked_run t evs t' : linked t → chain_run t evs = Some t' → linked t'.
Proof.
  revert t. induction evs as [|ev evs IH]; intros t Hl Hr; simpl in Hr; [by injection Hr as <-|].
  apply bind_Some in Hr as (t1 & Ha & Hr). eapply IH; [|done]. by eapply linked_step.
Qed.

(** *** The start *)

Lemma register_streams_silent sts s c s' c' :
  register_streams s c sts = (s', Ok c') →
  c_out c' = c_out c ∧ c_heap c' = c_heap c ∧ c_dheap c' = c_dheap c ∧ dialSeq c' = dialSeq c ∧ dialConns c' = dialConns c.
Proof.
  revert s c. induction sts as [|st sts IH]; intros s c; cbn [register_streams]; [by intros [= <- <-]|].
  destruct (ClientRegisterStream s st) as [s1 [rack|e]]; [|done]. destruct (negb _); [done|]. intros H. apply IH in H. exact H.
Qed.

Lemma dialed_client_ok c : dialed_client c → near_ok c.
Proof.
  intros (s & d & req & sts & s' & H). unfold DialCtrl in H. destruct (ClientHandshake s req) as [s1 [ack|e]]; [|done].
  destruct (negb _); [done|]. apply register_streams_silent in H as (Ho & Hh & Hd & Hs & Hm). simpl in *.
  split; unfold low; rewrite ?Ho, ?Hh, ?Hd, ?Hs, ?Hm; try done.
  by intros k [|] ? ?.
Qed.

Lemma linked_start t : chain_start t → linked t.
Proof.
  intros [(cr & conf & d & cs & now & c & Hg & Hc & Hd) (sv & evs & Hsv & Hrun) [Hcl (feed & Hf & Hem)] Hno (Hw & Hu & Hdn)].
  destruct (far_run_inv quote (λ _, []) _ _ _ (far_inv_new_node _ Hsv) ltac:(done) Hrun) as [Hinv _].
  assert (∀ z i x, ¬ chain_at sid (cn_far t) z i x) as Hnone.
  { intros z i x (Hx & Hs & _). apply list_elem_of_lookup_2 in Hx. by destruct (Hno _ Hx). }
  eexists [], _, c. split; [|rewrite Hdn; lia]. split; rewrite ?Hw, ?Hu, ?Hdn.
  - by rewrite Hg.
  - by apply dialed_client_ok.
  - rewrite Hg. by intros loc w.
  - by rewrite Hg.
  - split; [exact Hinv|..]; try (intros; by edestruct Hnone); [|done|constructor].
    exists feed. split; [done|]. split; [intros Hn; rewrite Hn in Hcl; by destruct Hcl|done].
  - lia.
  - rewrite Hg. by intros loc w.
Qed.
End joined.

(** * Properties *)

(** A stream that is open, whose end is not queued and that has nothing left to read. *)
Definition drained (sc : StreamConn) : Prop := isClosed sc = false ∧ content sc = ([], false).

(** What the bridge of a chain has written and read. *)
Lemma chain_bridge inn G x sc b :
  phase_ok inn G (ch_phase x) sc → bridge_of (ch_phase x) = Some b →
  binv b ∧ into_stream (ch_phase x) = bc_written (b_conn b Fwd) ∧ bc_read (b_conn b Fwd) `prefix_of` inn ∧
  (bc_closed (b_conn b Fwd) = false → drained sc → bc_read (b_conn b Fwd) = inn).
Proof.
  intros Hok Hb. destruct (ch_phase x) as [|b0|[b0|]]; simplify_eq/=.
  - destruct Hok as [H1 _ H3 H4]. split_and!; try done. intros Hop [Hc He]. destruct (H4 Hop) as (_ & Heq & _).
    rewrite He in Heq. simpl in Heq. rewrite app_nil_r in Heq. by apply Heq.
  - destruct Hok as (H1 & [e He] & H3). split_and!; try done. intros Hop. by rewrite (bi_closed _ H1 e He) in Hop.
Qed.

(** C2: A chained connection carries the user's bytes to the target and back. Join a
    gateway, just started over a client just dialed, to any node that has the other
    end of that client's session; each side receives over the session what the
    other has sent, in order, as it is read from the wire. Then, in every
    interleaving of the two, of the other sessions, of the other connections that
    share this one and of their ends, while the gateway bridges: the number of its
    connection belongs to one chain of the session only; what that chain's target
    got is a prefix of what was read from the user, and what the user got a prefix
    of what was read from the target; and a direction that is at rest, nothing on
    the way, the receiving stream registered, open and read out and both pumps at
    work, has delivered everything. *)
Theorem chain_end_to_end {CJ : ControlJson} quote l sid t0 evs t loc b c sc i x b' :
  number_kept → chain_start quote l sid t0 → chain_run quote l sid t0 evs = Some t →
  g_phase (cn_near t) = GBridging l loc b → g_clients (cn_near t) !! l = Some c → c_dheap c !! loc = Some sc →
  chain_at sid (cn_far t) (sc_connID sc) i x → bridge_of (ch_phase x) = Some b' →
  (∀ j y, chain_at sid (cn_far t) (sc_connID sc) j y → j = i) ∧
  bc_written (b_conn b' Bwd) `prefix_of` bc_read (b_conn b Fwd) ∧
  bc_written (b_conn b Fwd) `prefix_of` bc_read (b_conn b' Bwd) ∧
  (∀ feed scf, feeds (fr_server (cn_far t)) !! sid = Some feed → hub_conn feed (d_loc (ch_dial x)) = Some scf →
     cn_up t = length (c_out c) → h_conns feed !! sc_connID sc = Some (d_loc (ch_dial x)) → drained scf →
     bc_closed (b_conn b' Fwd) = false → b_done b Fwd = false → b_done b' Fwd = false →
     bc_written (b_conn b' Bwd) = bc_read (b_conn b Fwd)) ∧
  (cn_down t = length (cn_wire t) → dialConns c !! sc_connID sc = Some loc → drained sc →
     bc_closed (b_conn b Bwd) = false → b_done b Bwd = false → b_done b' Bwd = false →
     bc_written (b_conn b Fwd) = bc_read (b_conn b' Bwd)).
Proof.
  intros Hjson Hst Hr Hph Hc Hsc Hx Hb. assert (linked l sid t) as (inn & inns & c0 & Hlk & _).
  { eapply linked_run; [done| |done]. by eapply linked_start. }
  destruct Hlk as [H1 H2 H3 H4 H5 H6 H7]. assert (c0 = c) as -> by congruence.
  rewrite (no_ids _ H2 _ _ Hsc) in *.
  assert (own_written (cn_near t) = Some (l, loc, bc_written (b_conn b Bwd))) as Hown by (unfold own_written; by rewrite Hph).
  destruct (H3 _ _ Hown) as [_ Hsent]. destruct (H7 _ _ Hown) as [Hin Hall].
  unfold ginv in H4. rewrite Hph in H4. destruct H4 as (_ & c1 & sc1 & Hc1 & Hsc1 & [[B1 _ B3 B4] _]).
  assert (c1 = c) as -> by congruence. assert (sc1 = sc) as -> by congruence.
  destruct (fi_chain _ _ (fo_inv _ _ _ _ _ H5) i x (proj1 Hx)) as (feed & scf & Hf & Hscf & _ & Hok).
  rewrite (proj1 (proj2 Hx)) in Hf.
  destruct (chain_bridge _ _ _ _ _ Hok Hb) as (C1 & C2 & C3 & C4).
  destruct (fo_in _ _ _ _ _ H5 _ _ _ Hx) as [Fp Fe]. pose proof (fo_out _ _ _ _ _ H5 _ _ _ Hx) as Fo. rewrite C2 in Fo.
  destruct (up_read Hjson c (cn_up t) H2) as (_ & _ & Hit). rewrite Hit in Fp, Fe.
  split_and!.
  - intros j y Hy. by eapply (fo_unique _ _ _ _ _ H5).
  - etrans; [apply (bi_prefix _ C1 Fwd)|]. etrans; [exact C3|]. etrans; [exact Fp|]. etrans; [|apply (bi_prefix _ B1 Fwd)].
    cbn [flip]. rewrite <- Hsent.
    rewrite <- (take_drop (cn_up t) (c_out c)) at 2. rewrite items_app, item_bytes_app. by eexists.
  - etrans; [apply (bi_prefix _ B1 Bwd)|]. etrans; [exact B3|]. etrans; [exact Hin|]. etrans; [|apply (bi_prefix _ C1 Bwd)].
    cbn [flip]. rewrite <- Fo.
    apply frame_bytes_prefix, prefix_take.
  - intros feed0 scf0 Hf0 Hscf0 Hup Hm Hdr Hop D1 D2. assert (feed0 = feed) as -> by congruence. assert (scf0 = scf) as -> by congruence.
    rewrite (bi_running _ C1 Fwd D2 : bc_written (b_conn b' Bwd) = bc_read (b_conn b' Fwd)), (C4 Hop Hdr), (Fe _ Hf Hm), Hup, firstn_all.
    rewrite Hsent. exact (bi_running _ B1 Fwd D1).
  - intros Hdn Hm [Hcl He] Hop D1 D2. destruct (B4 Hop) as (_ & Heq & _). rewrite He in Heq. simpl in Heq. rewrite app_nil_r in Heq.
    rewrite (bi_running _ B1 Bwd D1 : bc_written (b_conn b Fwd) = bc_read (b_conn b Bwd)), Heq, (Hall Hm), Hdn, firstn_all by done.
    rewrite Fo. exact (bi_running _ C1 Bwd D2).
Qed.

(** * Witnesses *)

(** A client that registered the stream of [CtrlProxy]'s first identity, and the
    node of [Chain] after its session was set up. *)
Definition demo_node_replies : list (list byte) := far_log 1 (demo_far (take 2 demo_target_evs)).
Definition demo_near_session : Session := NewSession (concat demo_node_replies).
Definition demo_near_dial : Session * result dial_ctrl_err CtrlClient :=
  DialCtrl demo_near_session true (mkHandshakeReq 1 "host" "pw-a") [mkRegisterStreamReq "a" "ssh"].
Definition demo_near_client : CtrlClient := match demo_near_dial.2 with Ok c => c | Err _ => empty_client true end.
Definition demo_chain_start : chain :=
  mkChain (serveChain (mkChainRoute "in" "far" "a" "ssh") demo_chain_conf demo_chain_dialer [demo_near_client] 0)
    (demo_far (take 2 demo_target_evs)) [] 0 0.

Definition demo_chain_evs : list chain_ev :=
  [CNear (EvTurn 0); CNear EvDial; CFarRecv false 0; CFar (FChain 0 (TDial true)); CNearRecv false (Ok tt);
   CNear (EvDialEnd false); CNear (EvUp [x61; x62]); CFarRecv false 0; CFar (FChain 0 (TDown 2 WOk CwOk));
   CFar (FChain 0 (TUp [x63])); CNearRecv false (Ok tt); CNear (EvDown 1 WOk CwOk)].
Definition demo_chain : chain := default demo_chain_start (chain_run demo_quote 0 1 demo_chain_start demo_chain_evs).

Lemma demo_number_kept : number_kept.
Proof.
  intros id name sid req Hu. pose proof (json_roundtrip (mkClientConnReq id name sid) I) as Hr. rewrite Hr in Hu. by injection Hu as <-.
Qed.

Lemma demo_chain_start_ok : chain_start demo_quote 0 1 demo_chain_start.
Proof.
  split.
  - eexists _, _, _, _, _, demo_near_client. split; [reflexivity|]. split; [reflexivity|].
    exists demo_near_session, true, (mkHandshakeReq 1 "host" "pw-a"), [mkRegisterStreamReq "a" "ssh"], demo_near_dial.1.
    vm_compute. reflexivity.
  - exists demo_sv0, (take 2 demo_target_evs). split; [reflexivity|]. vm_compute. reflexivity.
  - split; [apply (bool_decide_unpack _); vm_compute; exact I|]. eexists. split; vm_compute; reflexivity.
  - assert (fr_chains (cn_far demo_chain_start) = []) as -> by (vm_compute; reflexivity). by intros x ?%elem_of_nil.
  - by split_and!.
Qed.

Lemma chain_end_to_end_witness :
  ∃ b b' x, g_phase (cn_near demo_chain) = GBridging 0 0 b ∧ fr_chains (cn_far demo_chain) = [x] ∧ ch_phase x = TBridging b' ∧
    bc_written (b_conn b' Bwd) = [x61; x62] ∧ bc_written (b_conn b' Bwd) = bc_read (b_conn b Fwd) ∧
    bc_written (b_conn b Fwd) = [x63] ∧ bc_written (b_conn b Fwd) = bc_read (b_conn b' Bwd).
Proof.
  assert (chain_run demo_quote 0 1 demo_chain_start demo_chain_evs = Some demo_chain) as Hr by (vm_compute; reflexivity).
  assert (∃ b b' x c sc feed scf, g_phase (cn_near demo_chain) = GBridging 0 0 b ∧ fr_chains (cn_far demo_chain) = [x] ∧
    ch_phase x = TBridging b' ∧ bc_written (b_conn b' Bwd) = [x61; x62] ∧ bc_written (b_conn b Fwd) = [x63] ∧
    g_clients (cn_near demo_chain) !! 0%nat = Some c ∧ c_dheap c !! 0%nat = Some sc ∧
    d_session (ch_dial x) = 1%nat ∧ d_connID (ch_dial x) = sc_connID sc ∧
    feeds (fr_server (cn_far demo_chain)) !! 1%nat = Some feed ∧ hub_conn feed (d_loc (ch_dial x)) = Some scf ∧
    (cn_up demo_chain = length (c_out c) ∧ h_conns feed !! sc_connID sc = Some (d_loc (ch_dial x)) ∧ drained scf ∧
     bc_closed (b_conn b' Fwd) = false ∧ b_done b Fwd = false ∧ b_done b' Fwd = false) ∧
    (cn_down demo_chain = length (cn_wire demo_chain) ∧ dialConns c !! sc_connID sc = Some 0%nat ∧ drained sc ∧
     bc_closed (b_conn b Bwd) = false ∧ b_done b Bwd = false ∧ b_done b' Bwd = false))
    as (b & b' & x & c & sc & feed & scf & H1 & H2 & H3 & H4 & H5 & H6 & H7 & H8 & H9 & H10 & H11 & (U1 & U2 & U3 & U4 & U5 & U6) & (D1 & D2 & D3 & D4 & D5 & D6)).
  { eexists _, _, _, _, _, _, _. vm_compute. by split_and!. }
  assert (chain_at 1 (cn_far demo_chain) (sc_connID sc) 0 x) as Hx by (split; [rewrite H2; reflexivity|by split]).
  assert (bridge_of (ch_phase x) = Some b') as Hb by (rewrite H3; reflexivity).
  destruct (chain_end_to_end demo_quote 0 1 _ _ _ 0 b c sc 0 x b' demo_number_kept demo_chain_start_ok Hr H1 H6 H7 Hx Hb)
    as (_ & _ & _ & Hup & Hdown).
  exists b, b', x. split; [exact H1|]. split; [exact H2|]. split; [exact H3|]. split; [exact H4|].
  split; [exact (Hup feed scf H10 H11 U1 U2 U3 U4 U5 U6)|]. split; [exact H5|]. exact (Hdown D1 D2 D3 D4 D5 D6).
Defined.
