(* ===== verification/Servers.v ===== *)
(** What the servers of the process share: the interface through which the plugin
    framework serves them (pluginer/server.go) as a class with its laws, its
    instances, and the physical port they share under the sniffer
    (internal/ingress/sniff/sniff.go), whose facades are served through that
    interface. *)
From S2P Require Import Prelude Message TextCodec Window StreamTable CtrlHub Handshake Config Register.
From S2P Require Import Bridge Transport Codec Ingress.
From S2P Require Import Sniff Pluginer.
From Stdlib Require Import ZArith Lia.

(** * Servers as the framework sees them *)

(** What [Serve] does with what [Accept] answers: it crashes, goes on with the
    connections handed to goroutines so far, or returns. *)
Inductive serve_result (C : Type) :=
  | ServePanic
  | ServeRunning (conns : list C)
  | ServeReturned (conns : list C) (err : option string).
Arguments ServePanic {C}.
Arguments ServeRunning {C}.
Arguments ServeReturned {C}.

(** The accept loop they all have; it goes on after an error that [retries] names. *)
Fixpoint serve_accepts {C : Type} (retries : string → bool) (accepts : list (result string C)) : serve_result C :=
  match accepts with
  | [] => ServeRunning []
  | Ok c :: accepts =>
      match serve_accepts retries accepts with
      | ServePanic => ServePanic
      | ServeRunning conns => ServeRunning (c :: conns)
      | ServeReturned conns err => ServeReturned (c :: conns) err
      end
  | Err e :: accepts => if retries e then serve_accepts retries accepts else ServeReturned [] (Some e)
  end.

Definition no_retries (_ : string) : bool := false.

(** The error of [Accept] on a closed listener, [net.ErrClosed]. *)
Definition ErrClosed : string := "use of closed network connection".

(** [pluginer.Server]; [UseListener] injects a listener of type [L]; [C] is the type
    of connections. [ns_ready]: [Serve] gets as far as its accept loop. *)
Class NetServer (S L C : Type) := {
  ns_UseListener : L → S → S;
  ns_Listen : S → result string (option L);
  ns_ListenPacket : S → result string (option L);
  ns_Serve : S → option L → list (result string C) → serve_result C;
  ns_ServePacket : S → option L → option string;
  ns_retries : S → string → bool;
  ns_ready : S → bool;
}.

(** What a server promises: an injected listener takes precedence, a listener is
    served by the accept loop, which a closed listener ends, and there is no packet
    side. *)
Class NetServerLaws (S L C : Type) `{!NetServer S L C} : Prop := {
  ns_injected ln s : ns_Listen (ns_UseListener ln s) = Ok (Some ln) ∧ ns_ready (ns_UseListener ln s) = ns_ready s;
  ns_accepts s ln accepts : ns_ready s = true → ns_Serve s (Some ln) accepts = serve_accepts (ns_retries s) accepts;
  ns_closed s : ns_retries s ErrClosed = false;
  ns_no_packets s p : ns_ListenPacket s = Ok None ∧ ns_ServePacket s p = None;
}.

(** The loop of the ingress (Ingress.v) is this loop. *)
Lemma serve_accept_loop {C} (accepts : list (result string C)) :
  serve_accepts no_retries accepts =
    match accept_loop accepts with (conns, Some e) => ServeReturned conns (Some e) | (conns, None) => ServeRunning conns end.
Proof.
  induction accepts as [|[c|e] accepts IH]; simpl; [done| |done]. rewrite IH. by destruct (accept_loop accepts) as [conns [e|]].
Qed.

(** The connections handled are those accepted before the first error that is not
    retried. *)
Definition oks {C : Type} : list (result string C) → list C := omap (λ a, match a with Ok c => Some c | Err _ => None end).

Lemma serve_accepts_spec {C} retries (l : list (result string C)) :
  match serve_accepts retries l with
  | ServePanic => False
  | ServeRunning conns => conns = oks l ∧ ∀ e, Err e ∈ l → retries e = true
  | ServeReturned conns err => ∃ l1 l2 e, l = l1 ++ Err e :: l2 ∧ conns = oks l1 ∧ err = Some e ∧ retries e = false
  end.
Proof.
  induction l as [|[c|e] l IH]; cbn [serve_accepts].
  - split; [done|]. by intros e ?%elem_of_nil.
  - destruct (serve_accepts retries l) as [|conns|conns err]; [done| |].
    + destruct IH as [-> IH]. split; [done|]. by intros e [?|?]%elem_of_cons; [|apply IH].
    + destruct IH as (l1 & l2 & e & -> & -> & -> & ?). by exists (Ok c :: l1), l2, e.
  - destruct (retries e) eqn:Er; [|by exists [], l, e].
    destruct (serve_accepts retries l) as [|conns|conns err]; [done| |].
    + destruct IH as [-> IH]. split; [done|]. by intros e' [[= ->]|?]%elem_of_cons; [|apply IH].
    + destruct IH as (l1 & l2 & e' & -> & -> & -> & ?). by exists (Err e :: l1), l2, e'.
Qed.

Section instances.
Context {L C : Type}.

(** *** The star and administration servers *)

(** What the operating system answers: plain and TLS listeners, and whether a key
    pair loads. *)
Record tcp_env := mkTcpEnv {
  te_listen : string → result string L;
  te_tls_listen : string → string * string → result string L;
  te_key_pair : string → string → option string;   (* the error, if any *)
}.

Definition listenTCP (env : tcp_env) (addr : string) (settings : Settings) : result string L :=
  if negb (TLS settings) then te_listen env addr
  else
    match te_key_pair env (Config.CertFile settings) (Config.KeyFile settings) with
    | Some e => Err ("load tls cert: " +:+ e)
    | None => te_tls_listen env addr (Config.CertFile settings, Config.KeyFile settings)
    end.

(** The fields of [CtrlProxyServer] and [AdminServer] that listening depends on. *)
Record tcp_server := mkTcpServer { ts_Addr : string; ts_settings : Settings; ts_injected : option L }.

Definition tcp_UseListener (ln : L) (s : tcp_server) : tcp_server := mkTcpServer (ts_Addr s) (ts_settings s) (Some ln).
Definition tcp_Listen (env : tcp_env) (s : tcp_server) : result string (option L) :=
  match ts_injected s with
  | Some ln => Ok (Some ln)
  | None => Some <$> listenTCP env (ts_Addr s) (ts_settings s)
  end.

#[export] Instance star_net_server (env : tcp_env) : NetServer tcp_server L C := {
  ns_UseListener := tcp_UseListener;
  ns_Listen := tcp_Listen env;
  ns_ListenPacket _ := Ok None;
  ns_Serve _ ln accepts := match ln with Some _ => serve_accepts no_retries accepts | None => ServePanic end;
  ns_ServePacket _ _ := None;
  ns_retries _ := no_retries;
  ns_ready _ := true;
}.

#[export] Instance star_net_server_laws env : @NetServerLaws tcp_server L C (star_net_server env).
Proof. by split. Qed.

(** The administration server registers its routes, which can panic; [net/http]
    accepts for it, and goes on after the errors that are [temporary]. *)
Record admin_server := mkAdminServer { as_tcp : tcp_server; as_routes_ok : bool }.

#[export] Instance admin_net_server (env : tcp_env) (temporary : string → bool) : NetServer admin_server L C := {
  ns_UseListener ln s := mkAdminServer (tcp_UseListener ln (as_tcp s)) (as_routes_ok s);
  ns_Listen s := tcp_Listen env (as_tcp s);
  ns_ListenPacket _ := Ok None;
  ns_Serve s ln accepts :=
    match ln with
    | Some _ => if as_routes_ok s then serve_accepts temporary accepts else ServePanic
    | None => ServePanic
    end;
  ns_ServePacket _ _ := None;
  ns_retries _ := temporary;
  ns_ready := as_routes_ok;
}.

Lemma admin_net_server_laws env temporary :
  temporary ErrClosed = false → @NetServerLaws admin_server L C (admin_net_server env temporary).
Proof. intros. split; try done. intros s ln accepts Hr; simpl in *; by rewrite Hr. Qed.

(** *** The DNS server, which opens no socket of its own *)

Record dns_server := mkDnsServer { ds_injected : option L }.

#[export] Instance dns_net_server : NetServer dns_server L C := {
  ns_UseListener ln _ := mkDnsServer (Some ln);
  ns_Listen s := Ok (ds_injected s);
  ns_ListenPacket _ := Ok None;
  ns_Serve _ ln accepts := match ln with Some _ => serve_accepts no_retries accepts | None => ServeReturned [] None end;
  ns_ServePacket _ _ := None;
  ns_retries _ := no_retries;
  ns_ready _ := true;
}.

#[export] Instance dns_net_server_laws : NetServerLaws dns_server L C.
Proof. by split. Qed.

(** *** The ingress *)

Definition listen_err_text (show : tr_err → string) (e : listen_err) : string :=
  match e with ErrBuild e => show e | ErrListen e => e end.

Definition proxy_serve (ln : option L) (accepts : list (result string C)) : serve_result C :=
  match ln with
  | Some _ => match accept_loop accepts with
              | (conns, Some e) => ServeReturned conns (Some e)
              | (conns, None) => ServeRunning conns
              end
  | None => ServePanic
  end.

#[export] Instance proxy_net_server {M cert : Type} (registry : gmap string (@BuildFunc cert))
    (tr_listen : Transport cert → string → result string L) (show : tr_err → string) :
    NetServer (ProxyServer C M L) L C := {
  ns_UseListener := UseListener;
  ns_Listen s := map_err (listen_err_text show) (Ingress.Listen registry tr_listen s);
  ns_ListenPacket := Ingress.ListenPacket;
  ns_Serve _ := proxy_serve;
  ns_ServePacket := Ingress.ServePacket;
  ns_retries _ := no_retries;
  ns_ready _ := true;
}.

#[export] Instance proxy_net_server_laws {M cert : Type} registry tr_listen show :
  @NetServerLaws (ProxyServer C M L) L C (@proxy_net_server M cert registry tr_listen show).
Proof. split; try done. intros s ln accepts _. simpl. by rewrite serve_accept_loop. Qed.
End instances.

(** * The shared port *)

(** The dispatcher over its physical listener: the accept loop, the goroutine that
    watches the context, one goroutine for each accepted connection, the facades'
    [Accept]s. [po_sniffing]: connections that are being looked at, each with what
    arrives on it; [po_waiting]: those whose hand-over waits for room; [po_in]:
    those that were queued; [po_log]: what the [Accept]s answered. *)
Record port := mkPort {
  po_disp : Dispatcher;
  po_base : bool;
  po_loop : bool;
  po_ctx : bool;
  po_watched : bool;
  po_accepted : nat;
  po_sniffing : list (list (list byte));
  po_waiting : list (string * replayConn);
  po_in : list (string * replayConn);
  po_log : list (string * result string replayConn);
  po_closed : nat;
}.

Definition open_port (d : Dispatcher) : port := mkPort d true true false false 0 [] [] [] [] 0.

(** [d.Listener]: the facade of a target is its name; closing it does nothing. *)
Definition Listener_ (d : Dispatcher) (name : string) : result string string :=
  match targets d !! name with Some _ => Ok name | None => Err ("sniff: unknown target " +:+ name) end.

Definition with_flow (acc : nat) (sn : list (list (list byte))) (wt : list (string * replayConn)) (cl : nat) (p : port) : port :=
  mkPort (po_disp p) (po_base p) (po_loop p) (po_ctx p) (po_watched p) acc sn wt (po_in p) (po_log p) cl.
Definition with_flags (loop ctx watched : bool) (p : port) : port :=
  mkPort (po_disp p) (po_base p) loop ctx watched (po_accepted p) (po_sniffing p) (po_waiting p) (po_in p) (po_log p) (po_closed p).
Definition close_port (p : port) : port :=
  mkPort (Sniff.Close (po_disp p)) false (po_loop p) (po_ctx p) (po_watched p) (po_accepted p) (po_sniffing p) (po_waiting p)
    (po_in p) (po_log p) (po_closed p).
Definition log_accept (d : Dispatcher) (t : string) (a : result string replayConn) (p : port) : port :=
  mkPort d (po_base p) (po_loop p) (po_ctx p) (po_watched p) (po_accepted p) (po_sniffing p) (po_waiting p)
    (po_in p) (po_log p ++ [(t, a)]) (po_closed p).

Inductive port_event :=
  | PoAccept (input : list (list byte))
  | PoAcceptErr
  | PoSniff (i : nat)
  | PoQueue (i : nat)
  | PoTimeout (i : nat)
  | PoCancel
  | PoWatch
  | PoClose
  | PoTake (pick : bool) (t : string).        (* a facade's [Accept] *)

Definition port_step (p : port) (ev : port_event) : option port :=
  match ev with
  | PoAccept input =>
      if po_base p && po_loop p
      then Some (with_flow (S (po_accepted p)) (po_sniffing p ++ [input]) (po_waiting p) (po_closed p) p) else None
  | PoAcceptErr => if po_loop p then Some (with_flags false (po_ctx p) (po_watched p) (close_port p)) else None
  | PoSniff i =>
      input ← po_sniffing p !! i;
      let drop := with_flow (po_accepted p) (delete i (po_sniffing p)) (po_waiting p) (S (po_closed p)) p in
      Some (match dispatch (d_cfg (po_disp p)) input with
            | Sniff.Closed => drop
            | Handed t replay rest =>
                let t := handoff_target (po_disp p) t in
                match targets (po_disp p) !! t with
                | None => drop
                | Some _ =>
                    with_flow (po_accepted p) (delete i (po_sniffing p)) (po_waiting p ++ [(t, newReplayConn replay rest)]) (po_closed p) p
                end
            end)
  | PoQueue i =>
      '(t, c) ← po_waiting p !! i;
      match handoff (po_disp p) t c with
      | (d, true) => Some (mkPort d (po_base p) (po_loop p) (po_ctx p) (po_watched p) (po_accepted p) (po_sniffing p)
                             (delete i (po_waiting p)) (po_in p ++ [(t, c)]) (po_log p) (po_closed p))
      | (_, false) => None
      end
  | PoTimeout i =>
      _ ← po_waiting p !! i;
      Some (with_flow (po_accepted p) (po_sniffing p) (delete i (po_waiting p)) (S (po_closed p)) p)
  | PoCancel => Some (with_flags (po_loop p) true (po_watched p) p)
  | PoWatch => if po_ctx p && negb (po_watched p) then Some (close_port (with_flags (po_loop p) true true p)) else None
  | PoClose => Some (close_port p)
  | PoTake pick t =>
      match Listener_ (po_disp p) t with
      | Err _ => None
      | Ok t =>
          match Sniff.Accept pick (po_disp p) t with
          | (d, Accepted c) => Some (log_accept d t (Ok c) p)
          | (d, AcceptClosed) => Some (log_accept d t (Err ErrClosed) p)
          | (_, AcceptWaits) => None
          end
      end
  end.

Fixpoint port_run (p : port) (evs : list port_event) : option port :=
  match evs with [] => Some p | ev :: evs => port_step p ev ≫= λ p, port_run p evs end.

(** ** Invariant *)

(** The entries of one target. *)
Definition of_target {A : Type} (t : string) (l : list (string * A)) : list A := (filter (λ x, x.1 = t) l).*2.

Lemma of_target_app {A} t (l1 l2 : list (string * A)) : of_target t (l1 ++ l2) = of_target t l1 ++ of_target t l2.
Proof. unfold of_target. by rewrite filter_app, fmap_app. Qed.

Lemma of_target_one {A} t t' (a : A) : of_target t [(t', a)] = if decide (t' = t) then [a] else [].
Proof. unfold of_target. rewrite filter_cons. simpl. by destruct (decide (t' = t)). Qed.

Lemma oks_app {C} (l1 l2 : list (result string C)) : oks (l1 ++ l2) = oks l1 ++ oks l2.
Proof. apply omap_app. Qed.

(** What the [Accept]s of a target answered, in order. *)
Definition answers (t : string) (p : port) : list (result string replayConn) := of_target t (po_log p).

Record port_inv (p : port) : Prop := {
  pi_order t : of_target t (po_in p) = oks (answers t p) ++ default [] (targets (po_disp p) !! t);
  pi_bound t q : targets (po_disp p) !! t = Some q → (length q ≤ queueCap)%nat;
  pi_count : po_accepted p = (length (po_sniffing p) + length (po_waiting p) + length (po_in p) + po_closed p)%nat;
  pi_base : po_base p = negb (d_done (po_disp p));
  pi_loop : po_loop p = false → d_done (po_disp p) = true;
  pi_waiting t c : (t, c) ∈ po_waiting p → is_Some (targets (po_disp p) !! t);
  pi_errors t e : Err e ∈ answers t p → e = ErrClosed ∧ d_done (po_disp p) = true;
}.

Lemma port_inv_close p : port_inv p → port_inv (close_port p).
Proof. intros []. split; simpl; try done. intros t e He. split; [by eapply pi_errors0|done]. Qed.

Lemma port_inv_flags loop ctx w p :
  port_inv p → (loop = false → d_done (po_disp p) = true ∨ po_loop p = false) → port_inv (with_flags loop ctx w p).
Proof. intros [] Hl. split; simpl; try done. intros E. destruct (Hl E); auto. Qed.

(** A connection moves on, or is dropped, before it is queued. *)
Lemma port_inv_flow acc sn wt cl p :
  port_inv p → acc = (length sn + length wt + length (po_in p) + cl)%nat →
  (∀ t c, (t, c) ∈ wt → is_Some (targets (po_disp p) !! t)) → port_inv (with_flow acc sn wt cl p).
Proof. by intros [] ??; split. Qed.

Lemma delete_sub {A} (l : list A) i x : x ∈ delete i l → x ∈ l.
Proof. intros Hx. by eapply elem_of_submseteq; [exact Hx|apply submseteq_delete]. Qed.

Lemma length_delete_at {A} (l : list A) i x : l !! i = Some x → length l = S (length (delete i l)).
Proof. intros Hl. rewrite (delete_Permutation _ _ _ Hl) at 1. done. Qed.

Lemma port_inv_sniff p i p' : port_inv p → port_step p (PoSniff i) = Some p' → port_inv p'.
Proof.
  intros Hi (input & Hin & [= <-])%bind_Some. pose proof (length_delete_at _ _ _ Hin) as Hlen.
  pose proof (pi_count _ Hi) as Hc. pose proof (pi_waiting _ Hi) as Hw.
  assert (port_inv (with_flow (po_accepted p) (delete i (po_sniffing p)) (po_waiting p) (S (po_closed p)) p)) as Hdrop
    by (apply port_inv_flow; [done|lia|done]).
  destruct (dispatch _ input) as [|t rep rest]; [done|].
  destruct (targets (po_disp p) !! handoff_target (po_disp p) t) eqn:Et; [|done].
  apply port_inv_flow; [done|rewrite length_app; simpl; lia|].
  intros t' c [?|[= -> ->]%list_elem_of_singleton]%elem_of_app; [by eapply Hw|by rewrite Et].
Qed.

Lemma port_inv_queue p i p' : port_inv p → port_step p (PoQueue i) = Some p' → port_inv p'.
Proof.
  intros Hi ([t c] & Hin & Hs)%bind_Some. pose proof (length_delete_at _ _ _ Hin) as Hlen. destruct Hi.
  destruct (pi_waiting0 t c) as [q Hq]; [by eapply list_elem_of_lookup_2|].
  unfold handoff, handoff_target in Hs. rewrite Hq, Hq in Hs. destruct (Nat.ltb_spec (length q) queueCap) as [Hlt|]; [|done].
  injection Hs as <-. split; simpl; try done.
  - intros t'. rewrite of_target_app, of_target_one, pi_order0. change (answers t' _) with (answers t' p).
    destruct (decide (t = t')) as [<-|Hne]; [by rewrite lookup_insert_eq, Hq, <- app_assoc|].
    by rewrite lookup_insert_ne, app_nil_r.
  - intros t' q' [[<- <-]|[_ Hq']]%lookup_insert_Some; [rewrite length_app; simpl; lia|by eapply pi_bound0].
  - rewrite length_app. simpl. lia.
  - intros t' c' Hw%delete_sub. apply lookup_insert_is_Some'. right. by eapply pi_waiting0.
Qed.

(** An [Accept] answers with an error, or with the head of its queue. *)
Lemma port_inv_refused p t : port_inv p → d_done (po_disp p) = true → port_inv (log_accept (po_disp p) t (Err ErrClosed) p).
Proof.
  intros [] Hd. split; simpl; try done; unfold answers; simpl; intros t'.
  - rewrite of_target_app, oks_app, of_target_one. rewrite pi_order0. by destruct (decide (t = t')); rewrite ?app_nil_r.
  - intros e. rewrite of_target_app, of_target_one.
    intros [?|He]%elem_of_app; [by eapply pi_errors0|]. destruct (decide (t = t')); [|by apply elem_of_nil in He].
    apply list_elem_of_singleton in He. by injection He as ->.
Qed.

Lemma port_inv_taken p t c q :
  port_inv p → targets (po_disp p) !! t = Some (c :: q) →
  port_inv (log_accept (mkDispatcher (d_cfg (po_disp p)) (<[t := q]> (targets (po_disp p))) (d_done (po_disp p))) t (Ok c) p).
Proof.
  intros [] Eq. split; simpl; try done; unfold answers; simpl; intros t'.
  - rewrite pi_order0, of_target_app, oks_app, of_target_one. unfold answers.
    destruct (decide (t = t')) as [<-|Hne]; [by rewrite lookup_insert_eq, Eq, <- app_assoc|by rewrite lookup_insert_ne, app_nil_r].
  - intros q' [[<- <-]|[_ Hq']]%lookup_insert_Some; [specialize (pi_bound0 _ _ Eq); simpl in pi_bound0; lia|by eapply pi_bound0].
  - intros c' Hw. apply lookup_insert_is_Some'. right. by eapply pi_waiting0.
  - intros e. rewrite of_target_app, of_target_one. intros [?|He]%elem_of_app; [by eapply pi_errors0|].
    destruct (decide (t = t')); [by apply list_elem_of_singleton in He|by apply elem_of_nil in He].
Qed.

Lemma port_inv_take p pick t p' : port_inv p → port_step p (PoTake pick t) = Some p' → port_inv p'.
Proof.
  intros Hi Hs. cbn [port_step] in Hs. unfold Listener_ in Hs. destruct (targets (po_disp p) !! t) as [q|] eqn:Eq; [|done].
  unfold Sniff.Accept in Hs. rewrite Eq in Hs.
  destruct q as [|c q]; [destruct (d_done (po_disp p)) eqn:Ed; [injection Hs as <-; by apply port_inv_refused|done]|].
  destruct (d_done (po_disp p) && pick) eqn:Ed; simpl in Hs; injection Hs as <-;
    [apply andb_true_iff in Ed as [Ed _]; by apply port_inv_refused|by apply port_inv_taken].
Qed.

Lemma port_inv_step p ev p' : port_inv p → port_step p ev = Some p' → port_inv p'.
Proof.
  intros Hi Hs. pose proof (pi_count _ Hi) as Hc. pose proof (pi_waiting _ Hi) as Hw.
  destruct ev as [input| |i|i|i| | | |pick t];
    [| |by eapply port_inv_sniff|by eapply port_inv_queue| | | | |by eapply port_inv_take].
  all: cbn [port_step] in Hs.
  - destruct (_ && _); [|done]. injection Hs as <-. apply port_inv_flow; [done|rewrite length_app; simpl; lia|done].
  - destruct (po_loop p); [|done]. injection Hs as <-. apply port_inv_flags; [by apply port_inv_close|by left].
  - apply bind_Some in Hs as ([t c] & Hin & [= <-]). pose proof (length_delete_at _ _ _ Hin).
    apply port_inv_flow; [done|lia|]. intros t' c' Hd%delete_sub. by eapply Hw.
  - injection Hs as <-. apply port_inv_flags; [done|by right].
  - destruct (_ && _); [|done]. injection Hs as <-. apply port_inv_close, port_inv_flags; [done|by right].
  - injection Hs as <-. by apply port_inv_close.
Qed.

Lemma port_run_inv evs p p' : port_inv p → port_run p evs = Some p' → port_inv p'.
Proof.
  revert p. induction evs as [|ev evs IH]; intros p Hi Hr; simpl in Hr; [by injection Hr as <-|].
  apply bind_Some in Hr as (p1 & Hs & Hr). eapply IH; [|done]. by eapply port_inv_step.
Qed.

(** A new dispatcher has empty queues. *)
Lemma open_port_inv cfg d : Sniff.New cfg = Some d → port_inv (open_port d).
Proof.
  unfold Sniff.New. destruct (String.eqb _ _); [done|]. intros [= <-].
  set (m := list_to_map _ : gmap string (list replayConn)).
  assert (∀ t q, m !! t = Some q → q = []) as Hq.
  { intros t q Ht%elem_of_list_to_map_2. apply list_elem_of_fmap in Ht as (? & [= -> ->] & _). done. }
  split; simpl; try done.
  - intros t. fold m. destruct (m !! t) as [q|] eqn:Et; [|done]. by rewrite (Hq _ _ Et).
  - intros t q. fold m. intros Et. rewrite (Hq _ _ Et). simpl. lia.
  - by intros t c ?%elem_of_nil.
  - by intros t e ?%elem_of_nil.
Qed.

(** ** Closing *)

Definition closes_port (ev : port_event) : bool := match ev with PoAcceptErr | PoWatch | PoClose => true | _ => false end.

Lemma handoff_done d t c : d_done (handoff d t c).1 = d_done d.
Proof. unfold handoff. destruct (targets d !! _) as [q|]; [|done]. by destruct (_ <? _)%nat. Qed.

Lemma accept_done pick d t : d_done (Sniff.Accept pick d t).1 = d_done d.
Proof. unfold Sniff.Accept. destruct (targets d !! t) as [[|c q]|]; try done. by destruct (_ && _). Qed.

Lemma port_step_done p ev p' :
  port_step p ev = Some p' → d_done (po_disp p') = d_done (po_disp p) || closes_port ev.
Proof.
  intros Hs. destruct ev as [input| |i|i|i| | | |pick t]; cbn [port_step] in Hs; simpl; rewrite ?orb_false_r, ?orb_true_r.
  - destruct (_ && _); [|done]. by injection Hs as <-.
  - destruct (po_loop p); [|done]. by injection Hs as <-.
  - apply bind_Some in Hs as (input & _ & [= <-]). destruct (dispatch _ _); [done|]. by destruct (targets _ !! _).
  - apply bind_Some in Hs as ([t c] & _ & Hs). pose proof (handoff_done (po_disp p) t c) as Hd.
    destruct (handoff _ _ _) as [d []]; [|done]. by injection Hs as <-.
  - by apply bind_Some in Hs as (x & _ & [= <-]).
  - by injection Hs as <-.
  - destruct (_ && _); [|done]. by injection Hs as <-.
  - by injection Hs as <-.
  - destruct (Listener_ _ _) as [t'|]; [|done]. pose proof (accept_done pick (po_disp p) t') as Hd.
    destruct (Sniff.Accept _ _ _) as [d []]; [..|done]; by injection Hs as <-.
Qed.

Lemma port_run_done evs p p' :
  port_run p evs = Some p' → d_done (po_disp p') = d_done (po_disp p) || existsb closes_port evs.
Proof.
  revert p. induction evs as [|ev evs IH]; intros p Hr; simpl in Hr; [injection Hr as <-; by rewrite orb_false_r|].
  apply bind_Some in Hr as (p1 & Hs & Hr). rewrite (IH _ Hr), (port_step_done _ _ _ Hs). simpl. by rewrite orb_assoc.
Qed.

Lemma open_port_reach cfg d evs p :
  Sniff.New cfg = Some d → port_run (open_port d) evs = Some p → port_inv p ∧ d_done (po_disp p) = existsb closes_port evs.
Proof.
  intros Hn Hr. split; [eapply port_run_inv; [by eapply open_port_inv|done]|]. rewrite (port_run_done _ _ _ Hr).
  unfold Sniff.New in Hn. destruct (String.eqb _ _); [done|]. by injection Hn as <-.
Qed.

(** A queued connection leaves its queue through its target's [Accept] only. *)
Lemma port_step_keeps p ev p' t q :
  port_step p ev = Some p' → (∀ pick, ev ≠ PoTake pick t) → targets (po_disp p) !! t = Some q →
  ∃ q', targets (po_disp p') !! t = Some (q ++ q').
Proof.
  intros Hs Hev Hq.
  assert (targets (po_disp p') = targets (po_disp p) → ∃ q', targets (po_disp p') !! t = Some (q ++ q')) as Hsame
    by (intros ->; exists []; by rewrite app_nil_r).
  destruct ev as [input| |i|i|i| | | |pick t']; cbn [port_step] in Hs.
  - destruct (_ && _); [|done]. injection Hs as <-. by apply Hsame.
  - destruct (po_loop p); [|done]. injection Hs as <-. by apply Hsame.
  - apply bind_Some in Hs as (input & _ & [= <-]). apply Hsame. destruct (dispatch _ _); [done|].
    by destruct (targets (po_disp p) !! handoff_target _ _).
  - apply bind_Some in Hs as ([t' c] & _ & Hs). unfold handoff in Hs. destruct (targets (po_disp p) !! handoff_target _ _) as [q0|] eqn:E; [|done].
    destruct (_ <? _)%nat; [|done]. injection Hs as <-. simpl. destruct (decide (handoff_target (po_disp p) t' = t)) as [<-|Hne].
    + rewrite lookup_insert_eq. exists [c]. congruence.
    + rewrite lookup_insert_ne by done. exists []. by rewrite app_nil_r.
  - apply bind_Some in Hs as (x & _ & [= <-]). by apply Hsame.
  - injection Hs as <-. by apply Hsame.
  - destruct (_ && _); [|done]. injection Hs as <-. by apply Hsame.
  - injection Hs as <-. by apply Hsame.
  - destruct (Listener_ _ _) as [t''|] eqn:El; [|done]. unfold Listener_ in El. destruct (targets _ !! t') as [q0|] eqn:E0; [|done].
    injection El as <-. unfold Sniff.Accept in Hs. rewrite E0 in Hs.
    destruct q0 as [|c0 q0]; [destruct (d_done (po_disp p)); [injection Hs as <-; by apply Hsame|done]|].
    destruct (_ && _); injection Hs as <-; [by apply Hsame|]. simpl. rewrite lookup_insert_ne; [exists []; by rewrite app_nil_r|].
    intros <-. by apply (Hev pick).
Qed.

(** * Properties *)

(** The port hands every connection on at most once and in order. In every
    interleaving of the accept loop, the goroutines that sniff, the watcher and the
    facades, a connection that was accepted is in exactly one place (being looked
    at, waiting for room, queued for a target once, or closed), the [Accept]s of a
    target return the connections queued for it in the order they were queued, and
    at most 16 of them wait in the queue. *)
Theorem shared_port_order cfg d evs p t :
  Sniff.New cfg = Some d → port_run (open_port d) evs = Some p →
  po_accepted p = (length (po_sniffing p) + length (po_waiting p) + length (po_in p) + po_closed p)%nat ∧
  of_target t (po_in p) = oks (answers t p) ++ default [] (targets (po_disp p) !! t) ∧
  (length (default [] (targets (po_disp p) !! t)) ≤ queueCap)%nat.
Proof.
  intros Hn Hr. destruct (open_port_reach _ _ _ _ Hn Hr) as [[] _]. split_and!; try done.
  destruct (targets _ !! t) as [q|] eqn:Eq; [by eapply pi_bound0|simpl; lia].
Qed.

(** Closing the port reaches everybody. After the user's [Close], the cancelled
    context's or the one that follows a failure of the physical listener, that
    listener is closed and accepts nothing more, and no facade's [Accept] waits;
    without any of them it is open, and an [Accept] answers no error. *)
Theorem port_closing cfg d evs p :
  Sniff.New cfg = Some d → port_run (open_port d) evs = Some p →
  po_base p = negb (existsb closes_port evs) ∧
  (existsb closes_port evs = true →
    (∀ input, port_step p (PoAccept input) = None) ∧
    (∀ pick t, is_Some (targets (po_disp p) !! t) → is_Some (port_step p (PoTake pick t)))) ∧
  (existsb closes_port evs = false → ∀ t e, Err e ∉ answers t p).
Proof.
  intros Hn Hr. destruct (open_port_reach _ _ _ _ Hn Hr) as [[] Hd]. rewrite Hd in *. split_and!; [done|intros Hc; split|intros Hc].
  - intros input. simpl. by rewrite pi_base0, Hc.
  - intros pick t [q Hq]. simpl. unfold Listener_, Sniff.Accept. rewrite Hq, Hq, Hd, Hc. destruct q; [done|]. by destruct pick.
  - intros t e He. destruct (pi_errors0 _ _ He) as [_ E]. by rewrite Hc in E.
Qed.

(** C13: A server behind the port serves its target. Any server that keeps the
    framework's laws and is ready takes the facade it is given, and its [Serve]
    does not crash: while it runs it has handed to goroutines every connection
    queued for the target, in order, but those still in the queue; it returns only
    once the port is closed, with the closed listener's error, and has handed over
    the first of them. *)
Theorem served_through_port {S : Type} `{!NetServer S string replayConn, !NetServerLaws S string replayConn} cfg d evs p (s : S) t :
  Sniff.New cfg = Some d → port_run (open_port d) evs = Some p → ns_ready s = true →
  ns_Listen (ns_UseListener t s) = Ok (Some t) ∧
  match ns_Serve (ns_UseListener t s) (Some t) (answers t p) with
  | ServePanic => False
  | ServeRunning conns => of_target t (po_in p) = conns ++ default [] (targets (po_disp p) !! t)
  | ServeReturned conns err => err = Some ErrClosed ∧ existsb closes_port evs = true ∧ conns `prefix_of` of_target t (po_in p)
  end.
Proof.
  intros Hn Hr Hready. destruct (ns_injected t s) as [Hl Hready']. split; [done|].
  destruct (open_port_reach _ _ _ _ Hn Hr) as [[] Hd]. rewrite ns_accepts by congruence.
  pose proof (serve_accepts_spec (ns_retries (ns_UseListener t s)) (answers t p)) as Hs. specialize (pi_order0 t).
  destruct (serve_accepts _ _) as [|conns|conns err]; [done| |].
  - destruct Hs as [-> _]. done.
  - destruct Hs as (l1 & l2 & e & Hl12 & -> & -> & _). destruct (pi_errors0 t e) as [-> Hdone]; [rewrite Hl12; set_solver|].
    split_and!; [done|by rewrite <- Hd|]. rewrite pi_order0, Hl12, oks_app, <- app_assoc. by apply prefix_app_r.
Qed.

(** A closed port still queues. [handoff] does not look at [done]: a connection
    that waits for room when the port is closed is put in its target's queue once
    there is some, and stays there, open, for as long as nobody calls that target's
    [Accept]: a server whose [Serve] has returned leaves it to no one. *)
Theorem queued_after_close cfg d evs p i t c q :
  Sniff.New cfg = Some d → port_run (open_port d) evs = Some p → existsb closes_port evs = true →
  po_waiting p !! i = Some (t, c) → targets (po_disp p) !! t = Some q → (length q < queueCap)%nat →
  ∃ p', port_step p (PoQueue i) = Some p' ∧ d_done (po_disp p') = true ∧
    ∀ evs' p'', (∀ pick, PoTake pick t ∉ evs') → port_run p' evs' = Some p'' →
      ∃ q', targets (po_disp p'') !! t = Some (q ++ c :: q').
Proof.
  intros Hn Hr Hc Hw Hq Hlen. destruct (open_port_reach _ _ _ _ Hn Hr) as [_ Hd].
  assert (handoff (po_disp p) t c = (mkDispatcher (d_cfg (po_disp p)) (<[t := q ++ [c]]> (targets (po_disp p))) (d_done (po_disp p)), true)) as Hh.
  { unfold handoff, handoff_target. rewrite Hq, Hq. by destruct (Nat.ltb_spec (length q) queueCap); [|lia]. }
  eexists. split; [cbn [port_step]; rewrite Hw; cbn [mbind option_bind]; by rewrite Hh|]. split; [simpl; by rewrite Hd|].
  intros evs' p'' Hno Hr'. 
  assert (∀ p1 q1, targets (po_disp p1) !! t = Some q1 → port_run p1 evs' = Some p'' → ∃ q', targets (po_disp p'') !! t = Some (q1 ++ q')) as Hkeep.
  { clear -Hno. induction evs' as [|ev evs' IH]; intros p1 q1 Hq1 Hr; simpl in Hr; [injection Hr as <-; exists []; by rewrite app_nil_r|].
    apply bind_Some in Hr as (p2 & Hs & Hr).
    assert (∀ pick, ev ≠ PoTake pick t) as Hev by (intros pick ->; apply (Hno pick); by left).
    destruct (port_step_keeps _ _ _ _ _ Hs Hev Hq1) as [q2 Hq2].
    destruct (IH ltac:(intros pick ?; apply (Hno pick); by right) _ _ Hq2 Hr) as [q3 Hq3]. exists (q2 ++ q3). by rewrite app_assoc. }
  pose proof (λ H, Hkeep _ (q ++ [c]) H Hr') as Hk. destruct Hk as [q' Hq']; [simpl; by rewrite lookup_insert_eq|]. exists q'. by rewrite Hq', <- app_assoc.
Qed.

(** * Witnesses *)

Definition demo_port_cfg : Sniff.Config := Sniff.mkConfig [] ∅ "web" [] "star".
Definition demo_input (b : byte) : list (list byte) := [[b; x02; x03; x04]].

(** Two connections for the default target, one of which is accepted; a third one
    waits when the port is closed. *)
Definition demo_port_evs : list port_event :=
  [PoAccept (demo_input x00); PoAccept (demo_input x01); PoAccept (demo_input x05); PoAccept [[x01]]; PoSniff 1; PoSniff 0; PoQueue 0;
   PoTake false "star"; PoQueue 0; PoSniff 1; PoSniff 0; PoCancel; PoWatch; PoTake true "star"].

Lemma demo_port : ∃ d p, Sniff.New demo_port_cfg = Some d ∧ port_run (open_port d) demo_port_evs = Some p ∧
  po_accepted p = 4%nat ∧ po_closed p = 1%nat ∧ length (po_waiting p) = 1%nat ∧ length (po_in p) = 2%nat ∧
  (snd <$> po_log p) = [Ok (newReplayConn [x01; x02; x03] [[x04]]); Err ErrClosed] ∧
  targets (po_disp p) !! "star" = Some [newReplayConn [x00; x02; x03] [[x04]]] ∧
  po_waiting p !! 0%nat = Some ("star", newReplayConn [x05; x02; x03] [[x04]]).
Proof.
  eexists. eexists. split; [reflexivity|]. split; [vm_compute; reflexivity|]. repeat (split; [vm_compute; reflexivity|]). vm_compute. reflexivity.
Defined.

Lemma shared_port_order_witness :
  ∃ d p, port_run (open_port d) demo_port_evs = Some p ∧
    of_target "star" (po_in p) = [newReplayConn [x01; x02; x03] [[x04]]; newReplayConn [x00; x02; x03] [[x04]]].
Proof.
  destruct demo_port as (d & p & Hn & Hr & _ & _ & _ & _ & Hl & Hq & _). exists d, p. split; [exact Hr|].
  destruct (shared_port_order demo_port_cfg d demo_port_evs p "star" Hn Hr) as (_ & Ho & _). rewrite Ho, Hq.
  assert (oks (answers "star" p) = [newReplayConn [x01; x02; x03] [[x04]]]) as ->; [|reflexivity].
  injection Hn as <-. vm_compute in Hr. injection Hr as <-. vm_compute. reflexivity.
Defined.

Lemma port_closing_witness :
  ∃ d p, port_run (open_port d) demo_port_evs = Some p ∧ po_base p = false ∧ port_step p (PoAccept (demo_input x00)) = None ∧
    is_Some (port_step p (PoTake true "web")).
Proof.
  destruct demo_port as (d & p & Hn & Hr & _). exists d, p. split; [exact Hr|].
  destruct (port_closing demo_port_cfg d demo_port_evs p Hn Hr) as (Hb & Hc & _). destruct (Hc eq_refl) as [Ha Ht].
  split; [rewrite Hb; reflexivity|]. split; [apply Ha|]. apply Ht.
  injection Hn as <-. vm_compute in Hr. injection Hr as <-. vm_compute. by eexists.
Defined.

Lemma served_through_port_witness :
  ∃ d p, port_run (open_port d) demo_port_evs = Some p ∧
    proxy_serve (Some "star") (answers "star" p) = ServeReturned [newReplayConn [x01; x02; x03] [[x04]]] (Some ErrClosed) ∧
    [newReplayConn [x01; x02; x03] [[x04]]] `prefix_of` of_target "star" (po_in p).
Proof.
  destruct demo_port as (d & p & Hn & Hr & _). exists d, p. split; [exact Hr|].
  pose proof (served_through_port (S := dns_server (L := string)) demo_port_cfg d demo_port_evs p (mkDnsServer None) "star" Hn Hr eq_refl) as [_ Hs].
  assert (answers "star" p = [Ok (newReplayConn [x01; x02; x03] [[x04]]); Err ErrClosed]) as Ha
    by (injection Hn as <-; vm_compute in Hr; injection Hr as <-; vm_compute; reflexivity).
  rewrite Ha in Hs |- *. split; [reflexivity|]. simpl in Hs. apply Hs.
Defined.

Lemma queued_after_close_witness :
  ∃ d p p', port_run (open_port d) demo_port_evs = Some p ∧ d_done (po_disp p) = true ∧ port_step p (PoQueue 0) = Some p' ∧
    targets (po_disp p') !! "star" = Some [newReplayConn [x00; x02; x03] [[x04]]; newReplayConn [x05; x02; x03] [[x04]]].
Proof.
  destruct demo_port as (d & p & Hn & Hr & _ & _ & _ & _ & _ & Hq & Hw).
  destruct (queued_after_close demo_port_cfg d demo_port_evs p 0 "star" _ _ Hn Hr eq_refl Hw Hq) as (p' & Hs & Hd & Hk); [simpl; unfold queueCap; lia|].
  exists d, p, p'. split; [exact Hr|]. split; [injection Hn as <-; vm_compute in Hr; by injection Hr as <-|]. split; [exact Hs|].
  destruct (Hk [] p' (λ _, not_elem_of_nil _) eq_refl) as [q' Hq'].
  injection Hn as <-. vm_compute in Hr. injection Hr as <-. vm_compute in Hs. injection Hs as <-. vm_compute. reflexivity.
Defined.
