(* ===== verification/Session.v ===== *)
(** The links of the protocols (protocol/star/session.go, protocol/ws/ws.go): the
    write lock under which the goroutines of a star session send their frames, the
    deadlines of its connection, and the two ends of the websocket handshake with
    what they do to the connection. *)
From S2P Require Import Prelude Message.
From S2P Require Ws Adapter Rainnet.
From Stdlib Require Import ZArith Lia.

(** * Concurrent senders *)

(** [Session.Send] from several goroutines. [wr_queue]: the messages each has yet
    to send; [wr_owner]: who holds [writeMu] and what is left of the frame that
    [conn.Write] is writing; [wr_log]: the calls that returned, in order, and
    whether without an error; [wr_cut]: a [Write] failed in the middle of a frame. *)
Record wire := mkWire {
  wr_bytes : list byte;
  wr_owner : option (nat * list byte);
  wr_queue : list (list Message);
  wr_log : list (nat * Message * bool);
  wr_cut : bool;
}.

Definition open_wire (queues : list (list Message)) : wire := mkWire [] None queues [] false.

Inductive send_event :=
  | SdLock (i : nat)
  | SdWrite (i n : nat)
  | SdUnlock (i : nat)
  | SdFail (i : nat).        (* [conn.Write] returns an error *)

(** The call of sender [i] returns. *)
Definition returns (i : nat) (m : Message) (q : list Message) (ok : bool) (w : wire) : wire :=
  mkWire (wr_bytes w) None (<[i := q]> (wr_queue w)) (wr_log w ++ [(i, m, ok)])
    (wr_cut w || match wr_owner w with
                 | Some (_, rest) => negb ok && negb (bool_decide (rest = frame m))
                 | None => false
                 end).

Definition send_step (w : wire) (ev : send_event) : option wire :=
  match ev with
  | SdLock i =>
      match wr_owner w, wr_queue w !! i with
      | None, Some (m :: q) =>
          if MaxPayloadSize <? Z.of_nat (length (Payload m)) then Some (returns i m q false w)
          else Some (mkWire (wr_bytes w) (Some (i, frame m)) (wr_queue w) (wr_log w) (wr_cut w))
      | _, _ => None
      end
  | SdWrite i n =>
      match wr_owner w with
      | Some (j, rest) =>
          if decide (i = j) then
            Some (mkWire (wr_bytes w ++ take n rest) (Some (i, drop n rest)) (wr_queue w) (wr_log w) (wr_cut w))
          else None
      | None => None
      end
  | SdUnlock i =>
      match wr_owner w, wr_queue w !! i with
      | Some (j, []), Some (m :: q) => if decide (i = j) then Some (returns i m q true w) else None
      | _, _ => None
      end
  | SdFail i =>
      match wr_owner w, wr_queue w !! i with
      | Some (j, rest), Some (m :: q) =>
          if decide (i = j ∧ rest ≠ []) then Some (returns i m q false w) else None
      | _, _ => None
      end
  end.

Fixpoint send_run (w : wire) (evs : list send_event) : option wire :=
  match evs with [] => Some w | ev :: evs => send_step w ev ≫= λ w, send_run w evs end.

(** The calls that returned without an error, and the calls of one sender. *)
Definition sent (w : wire) : list Message := (λ x, x.1.2) <$> filter (λ x, x.2 = true) (wr_log w).
Definition calls (i : nat) (w : wire) : list Message := (λ x, x.1.2) <$> filter (λ x, x.1.1 = i) (wr_log w).

(** What of a frame is on the wire. *)
Definition partial (w : wire) (part : list byte) : Prop :=
  match wr_owner w with
  | None => part = []
  | Some (i, rest) => ∃ m q, wr_queue w !! i = Some (m :: q) ∧ frame m = part ++ rest
  end.

Record wire_inv (queues : list (list Message)) (w : wire) : Prop := {
  wi_order i q0 : queues !! i = Some q0 → ∃ q, wr_queue w !! i = Some q ∧ q0 = calls i w ++ q;
  wi_bytes : wr_cut w = false → ∃ part, wr_bytes w = concat (frame <$> sent w) ++ part ∧ partial w part;
  wi_len : length (wr_queue w) = length queues ∧ Forall (λ x, x.1.1 < length queues)%nat (wr_log w);
  wi_size : Forall (λ m, Z.of_nat (length (Payload m)) ≤ MaxPayloadSize) (sent w);
  wi_owner i rest : wr_owner w = Some (i, rest) → ∃ m q, wr_queue w !! i = Some (m :: q) ∧ Z.of_nat (length (Payload m)) ≤ MaxPayloadSize;
}.

Lemma calls_returns i j m q ok w : calls i (returns j m q ok w) = calls i w ++ (if decide (j = i) then [m] else []).
Proof. unfold calls. simpl. rewrite filter_app, fmap_app, filter_cons. simpl. by destruct (decide (j = i)). Qed.

Lemma sent_returns j m q ok w : sent (returns j m q ok w) = sent w ++ (if ok : bool then [m] else []).
Proof. unfold sent. simpl. rewrite filter_app, fmap_app, filter_cons. simpl. by destruct ok; destruct (decide _). Qed.

(** A call that returns was the first of its sender's queue. *)
Lemma order_returns (queues : list (list Message)) j m q ok w :
  (∀ i q0, queues !! i = Some q0 → ∃ q, wr_queue w !! i = Some q ∧ q0 = calls i w ++ q) → wr_queue w !! j = Some (m :: q) →
  ∀ i q0, queues !! i = Some q0 → ∃ q', wr_queue (returns j m q ok w) !! i = Some q' ∧ q0 = calls i (returns j m q ok w) ++ q'.
Proof.
  intros Ho Hj i q0 Hi. destruct (Ho i q0 Hi) as (q1 & Hq & ->). rewrite calls_returns. simpl.
  destruct (decide (j = i)) as [->|Hne].
  - rewrite list_lookup_insert_eq by (by eapply lookup_lt_Some). eexists. split; [done|]. rewrite <- app_assoc. simpl. congruence.
  - rewrite list_lookup_insert_ne by done. eexists. split; [done|]. by rewrite app_nil_r.
Qed.

(** What does not depend on how the call ended. *)
Lemma wire_inv_returns queues j m q (ok : bool) w :
  wire_inv queues w → wr_queue w !! j = Some (m :: q) → (ok = true → Z.of_nat (length (Payload m)) ≤ MaxPayloadSize) →
  (wr_cut (returns j m q ok w) = false → wr_bytes w = concat (frame <$> sent w) ++ (if ok then frame m else [])) →
  wire_inv queues (returns j m q ok w).
Proof.
  intros [Ho Hb [Hl Hidx] Hsz Hown] Hj Hok Hbs. split.
  - by apply order_returns.
  - intros Hc. exists []. rewrite sent_returns, fmap_app, concat_app, app_nil_r. split; [|done]. cbn [wr_bytes returns].
    rewrite Hbs by done. by destruct ok; simpl; rewrite ?app_nil_r.
  - cbn [wr_queue wr_log returns]. rewrite length_insert. split; [done|]. apply Forall_app. split; [done|]. apply Forall_singleton.
    simpl. rewrite <- Hl. by eapply lookup_lt_Some.
  - rewrite sent_returns. apply Forall_app. split; [done|]. destruct ok; [|done]. apply Forall_singleton. by apply Hok.
  - done.
Qed.

Lemma wire_inv_step queues w ev w' : wire_inv queues w → send_step w ev = Some w' → wire_inv queues w'.
Proof.
  intros Hi Hs. pose proof Hi as [Ho Hb Hl Hsz Hown]. destruct ev as [i|i n|i|i]; cbn [send_step] in Hs.
  - destruct (wr_owner w) as [[j rest]|] eqn:Eo; [done|]. destruct (wr_queue w !! i) as [[|m q]|] eqn:Eq; try done.
    assert (wr_cut w = false → wr_bytes w = concat (frame <$> sent w)) as Hb'.
    { intros Hc. destruct (Hb Hc) as (part & -> & Hp). unfold partial in Hp. rewrite Eo in Hp. subst part. by rewrite app_nil_r. }
    destruct (Z.ltb_spec MaxPayloadSize (Z.of_nat (length (Payload m)))); injection Hs as <-.
    + apply wire_inv_returns; try done. unfold returns. cbn [wr_cut]. rewrite Eo, orb_false_r, app_nil_r. done.
    + split; [exact Ho| |exact Hl|exact Hsz|].
      * intros Hc. exists []. simpl. split; [by rewrite app_nil_r, Hb'|]. by exists m, q.
      * intros i' rest [= <- <-]. exists m, q. split; [done|lia].
  - destruct (wr_owner w) as [[j rest]|] eqn:Eo; [|done]. destruct (decide (i = j)) as [<-|]; [|done]. injection Hs as <-.
    split; [exact Ho| |exact Hl|exact Hsz|intros i' r' [= <- <-]; by eapply Hown].
    intros Hc. destruct (Hb Hc) as (part & Hbs & Hp). unfold partial in Hp. rewrite Eo in Hp.
    destruct Hp as (m & q & Hq & Hf). exists (part ++ take n rest). simpl. rewrite Hbs, <- app_assoc. split; [done|].
    exists m, q. split; [done|]. by rewrite Hf, <- app_assoc, take_drop.
  - destruct (wr_owner w) as [[j [|b rest]]|] eqn:Eo; try done. destruct (wr_queue w !! i) as [[|m q]|] eqn:Eq; try done.
    destruct (decide (i = j)) as [<-|]; [|done]. injection Hs as <-. destruct (Hown _ _ eq_refl) as (m' & q' & Hq' & Hs').
    rewrite Eq in Hq'. injection Hq' as <- <-. apply wire_inv_returns; try done.
    unfold returns. cbn [wr_cut]. rewrite Eo. simpl. rewrite orb_false_r. intros Hc. destruct (Hb Hc) as (part & -> & Hp).
    unfold partial in Hp. rewrite Eo, Eq in Hp. destruct Hp as (m' & q' & [= <- <-] & Hf). by rewrite Hf, app_nil_r.
  - destruct (wr_owner w) as [[j rest]|] eqn:Eo; [|done]. destruct (wr_queue w !! i) as [[|m q]|] eqn:Eq; try done.
    destruct (decide _) as [[<- Hne]|]; [|done]. injection Hs as <-. apply wire_inv_returns; try done.
    unfold returns. cbn [wr_cut]. rewrite Eo. simpl. intros [Hc Hrest%negb_false_iff%bool_decide_eq_true]%orb_false_iff.
    destruct (Hb Hc) as (part & -> & Hp). unfold partial in Hp. rewrite Eo, Eq in Hp. destruct Hp as (m' & q' & [= <- <-] & Hf).
    assert (part = []) as -> by (rewrite <- Hrest in Hf; apply (f_equal length) in Hf; rewrite length_app in Hf; apply nil_length_inv; lia).
    done.
Qed.

Lemma send_run_inv queues evs w w' : wire_inv queues w → send_run w evs = Some w' → wire_inv queues w'.
Proof.
  revert w. induction evs as [|ev evs IH]; intros w Hi Hr; simpl in Hr; [by injection Hr as <-|].
  apply bind_Some in Hr as (w1 & Hs & Hr). eapply IH; [|done]. by eapply wire_inv_step.
Qed.

Lemma open_wire_inv queues : wire_inv queues (open_wire queues).
Proof. split; simpl; try done; [intros i q0 Hi; by exists q0|]. intros _. by exists []. Qed.

(** The messages sent can be read back. *)
Lemma sent_wf queues w :
  wire_inv queues w → (∀ q m, q ∈ queues → m ∈ q → 0 ≤ StreamID m < 2 ^ 32) → Forall Message_wf (sent w).
Proof.
  intros [Ho _ [_ Hidx] Hsz _] Hid. apply Forall_forall. intros m Hm. rewrite Forall_forall in Hsz. split; [|by apply Hsz].
  unfold sent in Hm. apply list_elem_of_fmap in Hm as ([[i m'] ok] & -> & [Hok Hin]%list_elem_of_filter). simpl in *.
  rewrite Forall_forall in Hidx. specialize (Hidx _ Hin). simpl in Hidx. apply lookup_lt_is_Some in Hidx as [q0 Hq0].
  destruct (Ho _ _ Hq0) as (q & _ & ->). eapply Hid; [by eapply list_elem_of_lookup_2|]. apply elem_of_app. left.
  unfold calls. apply list_elem_of_fmap. exists (i, m', ok). split; [done|]. by apply list_elem_of_filter.
Qed.

(** C12: Concurrent sends are atomic. Whatever the goroutines that share a session and
    however the connection splits their writes: each one's messages are sent in the
    order of its calls; as long as no [Write] has failed in the middle of a frame,
    what is on the wire is the whole frames of the calls that returned without an
    error, in the order in which they returned, followed by the beginning of at
    most one frame, that of the lock's holder; so a peer reads exactly those
    messages whenever nobody is writing. *)
Theorem concurrent_sends queues evs w :
  send_run (open_wire queues) evs = Some w → (∀ q m, q ∈ queues → m ∈ q → 0 ≤ StreamID m < 2 ^ 32) →
  (∀ i q0, queues !! i = Some q0 → ∃ q, wr_queue w !! i = Some q ∧ q0 = calls i w ++ q) ∧
  (wr_cut w = false →
    (∃ part, wr_bytes w = concat (frame <$> sent w) ++ part ∧ partial w part) ∧
    (wr_owner w = None → read_all (length (sent w)) (wr_bytes w) = (sent w, ErrIO EOF))).
Proof.
  intros Hr Hid. pose proof (send_run_inv _ _ _ _ (open_wire_inv queues) Hr) as Hi. pose proof (sent_wf _ _ Hi Hid) as Hwf.
  destruct Hi as [Ho Hb _ _ _]. split; [done|]. intros Hc. split; [by apply Hb|]. intros Hown.
  destruct (Hb Hc) as (part & -> & Hp). unfold partial in Hp. rewrite Hown in Hp. subst part. rewrite app_nil_r.
  by apply read_all_sent.
Qed.

(** A frame that was cut takes what it lacks from what follows it. *)
Lemma cut_frame_swallows m j rest :
  Message_wf m → (HeaderSize ≤ j < length (frame m))%nat → (length (frame m) - j ≤ length rest)%nat →
  ReadMessage (take j (frame m) ++ rest) =
    Ok (mkMessage (Type_ m) (Flags m) (StreamID m) (take (j - HeaderSize) (Payload m) ++ take (length (frame m) - j) rest),
        drop (length (frame m) - j) rest).
Proof.
  intros [Hid Hp] [Hj1 Hj2] Hr. rewrite length_frame in *. rewrite frame_split, take_app_ge, length_header by (rewrite length_header; lia).
  rewrite <- !app_assoc. rewrite ReadMessage_header by apply length_be_put. rewrite bool_decide_true by done. cbn [negb].
  unfold MaxPayloadSize in *. rewrite !be_get_put by (change (256 ^ Z.of_nat 4) with (2 ^ 32); (apply u32_range || lia)).
  rewrite u32_small by lia. destruct (Z.ltb_spec (2 ^ 20) (Z.of_nat (length (Payload m)))); [lia|].
  destruct (Z.ltb_spec 0 (Z.of_nat (length (Payload m)))); [|lia]. rewrite Nat2Z.id.
  set (a := take (j - HeaderSize) (Payload m)). set (n := (HeaderSize + length (Payload m) - j)%nat) in *.
  assert (length a = (j - HeaderSize)%nat) as Ha by (unfold a; rewrite length_take; lia).
  assert (a ++ rest = (a ++ take n rest) ++ drop n rest) as -> by (by rewrite <- app_assoc, take_drop).
  rewrite read_full_app' by (rewrite length_app, Ha, length_take; lia). done.
Qed.

(** A write that fails in the middle of a frame poisons the session. [Send] gives
    the lock back and the session stays open: when the next sender's message goes
    out without an error, the peer receives neither of the two messages, but the
    failed one with the other's frame in its payload. *)
Theorem failed_write_poisons m m' j :
  Message_wf m → Message_wf m' → (HeaderSize ≤ j < length (frame m))%nat → (length (frame m) - j ≤ length (frame m'))%nat →
  ∃ w rest, send_run (open_wire [[m]; [m']]) [SdLock 0; SdWrite 0 j; SdFail 0; SdLock 1; SdWrite 1 (length (frame m')); SdUnlock 1] = Some w ∧
    sent w = [m'] ∧ wr_cut w = true ∧
    ReadMessage (wr_bytes w) =
      Ok (mkMessage (Type_ m) (Flags m) (StreamID m) (take (j - HeaderSize) (Payload m) ++ take (length (frame m) - j) (frame m')), rest).
Proof.
  intros Hm Hm' Hj Hl. pose proof Hm as [_ Hsz]. pose proof Hm' as [_ Hsz'].
  assert (drop j (frame m) ≠ []) as Hd by (intros E; apply (f_equal length) in E; rewrite length_drop in E; change (length []) with 0%nat in E; lia).
  assert (drop j (frame m) ≠ frame m) as Hd' by (intros E; apply (f_equal length) in E; rewrite length_drop in E; unfold HeaderSize in *; lia).
  eexists. exists (drop (length (frame m) - j) (frame m')). split.
  { cbn [send_run send_step open_wire wr_owner wr_queue lookup list_lookup mbind option_bind].
    destruct (Z.ltb_spec MaxPayloadSize (Z.of_nat (length (Payload m)))); [lia|].
    cbn [mbind option_bind wr_owner wr_queue]. rewrite decide_True by done. cbn [mbind option_bind wr_owner wr_queue].
    cbn [list_lookup lookup]. rewrite decide_True by done. cbn [mbind option_bind returns wr_owner wr_queue].
    cbn [lookup list_lookup insert list_insert]. destruct (Z.ltb_spec MaxPayloadSize (Z.of_nat (length (Payload m')))); [lia|].
    cbn [mbind option_bind wr_owner wr_queue]. rewrite decide_True by done. cbn [mbind option_bind wr_owner wr_queue].
    rewrite drop_all. cbn [lookup list_lookup]. rewrite decide_True by done. cbn [mbind option_bind returns wr_owner wr_queue]. reflexivity. }
  split; [reflexivity|]. unfold returns, open_wire. cbn [wr_cut wr_bytes wr_log wr_owner]. split.
  - rewrite bool_decide_false by done. done.
  - rewrite app_nil_l, (take_ge (frame m')) by done. by apply cut_frame_swallows.
Qed.

(** * Deadlines *)

(** A connection under a session: its deadlines for reading and writing, in
    nanoseconds, and whether it is closed. *)
Record link := mkLink { lk_read : option Z; lk_write : option Z; lk_closed : bool }.

Definition SetDeadline (t : option Z) (l : link) : link := mkLink t t (lk_closed l).
Definition SetReadDeadline (t : option Z) (l : link) : link := mkLink t (lk_write l) (lk_closed l).
Definition SetWriteDeadline (t : option Z) (l : link) : link := mkLink (lk_read l) t (lk_closed l).

(** The deadlines of a stream's connection are those of its session's link, and so
    those of all its streams. *)
Inductive stream_deadline := SdlBoth (t : option Z) | SdlRead (t : option Z) | SdlWrite (t : option Z).
Definition stream_SetDeadline (d : stream_deadline) (l : link) : link :=
  match d with SdlBoth t => SetDeadline t l | SdlRead t => SetReadDeadline t l | SdlWrite t => SetWriteDeadline t l end.

(** [Session.Close]; a session may have no connection. *)
Definition session_Close (c : option link) : option link :=
  match c with None => None | Some l => Some (mkLink (lk_read l) (lk_write l) true) end.

Definition deadline (now d : Z) (l : link) : link := SetDeadline (Some (now + d)) l.
Definition clearDeadline (l : link) : link := SetDeadline None l.

(** [deadline] and the deferred [clearDeadline] around the steps of an exchange. *)
Definition under_deadline {A : Type} (now d : Z) (body : link → A) (l : link) : link * A :=
  let l := deadline now d l in
  (clearDeadline l, body l).

(** [StreamConn.Meta], which [SetTarget] does not touch. *)
Definition stream_Meta (sc : Adapter.StreamConn) : Rainnet.Meta :=
  Rainnet.mkMeta ("star-conn-" +:+ pretty (Adapter.sc_connID sc)) "" (Adapter.addr_String (Adapter.RemoteAddr sc)) "" "".
Definition stream_SetTarget (target : string) (sc : Adapter.StreamConn) : Adapter.StreamConn := sc.

(** A read that the peer answers at some time with [r]; [None]: it never does. *)
Definition read_by {A E : Type} (timeout : E) (answer : option (Z * result E A)) (l : link) : option (result E A) :=
  match lk_read l, answer with
  | Some t, Some (at_, r) => Some (if t <? at_ then Err timeout else r)
  | Some t, None => Some (Err timeout)
  | None, Some (_, r) => Some r
  | None, None => None
  end.

(** [Ping] over the clock: [sent] is what [Send] answered, [pong] when a message
    arrives and which. *)
Inductive ping_err := PingSend | PingRead (e : star_err) | PingTimeout | PingUnexpected (t : byte).

Definition ping_timed (now timeout : Z) (send_ok : bool) (answer : option (Z * result star_err Message)) (l : link) :
    link * option (result ping_err Z) :=
  under_deadline now timeout (λ l,
    if negb send_ok then Some (Err PingSend)
    else
      r ← read_by PingTimeout ((λ x, (x.1, map_err PingRead x.2)) <$> answer) l;
      Some (m ← r;
            if bool_decide (Type_ m = MsgPong) then Ok (default 0 (fst <$> answer) - now) else Err (PingUnexpected (Type_ m)))) l.

(** [Ping] always returns, within its timeout, and leaves no deadline behind: a
    round-trip time only for a pong that arrived in time, an error otherwise. *)
Theorem ping_bounded now timeout ok answer l l' r :
  ping_timed now timeout ok answer l = (l', r) →
  lk_read l' = None ∧ lk_write l' = None ∧ lk_closed l' = lk_closed l ∧
  match r with
  | None => False
  | Some (Ok rtt) => rtt ≤ timeout ∧ ∃ m, answer = Some (now + rtt, Ok m) ∧ Type_ m = MsgPong
  | Some (Err e) => ok = true → (∀ at_ m, answer = Some (at_, Ok m) → Type_ m = MsgPong → at_ ≤ now + timeout → False)
  end.
Proof.
  unfold ping_timed, under_deadline. intros [= <- <-]. split; [done|]. split; [done|]. split; [done|]. destruct ok; simpl; [|done].
  unfold read_by. simpl. destruct answer as [[at_ [m|e]]|]; simpl.
  - destruct (Z.ltb_spec (now + timeout) at_); simpl.
    + intros _ at' m' [= <- <-] _ ?. lia.
    + case_bool_decide; simpl; [|intros _ at' m' [= <- <-] ??; done]. split; [lia|]. exists m. split; [|done]. do 2 f_equal. lia.
  - destruct (Z.ltb_spec (now + timeout) at_); simpl; intros; naive_solver.
  - intros; naive_solver.
Qed.

(** * The websocket handshake and its connection *)

Section websocket.
(** [strings.EqualFold] and [ToLower], SHA-1 and base64. *)
Variable equalFold : string → string → bool.
Variable toLower : string → string.
Variable sha1_base64 : string → string.
Variable base64 : list byte → string.

Definition handshakeTimeout : Z := 10 * 10 ^ 9.

Inductive handshake_err :=
  | HsDial (e : string) | HsNonce (e : string) | HsWrite (e : string) | HsRead (e : string)
  | HsAccept (e : Ws.accept_err) | HsCheck (e : Ws.dial_err).

Definition crlf : string := String "013" (String "010" EmptyString).

Definition accept_text (accept : string) : string :=
  "HTTP/1.1 101 Switching Protocols" +:+ crlf +:+ "Upgrade: websocket" +:+ crlf +:+ "Connection: Upgrade" +:+ crlf +:+
  "Sec-WebSocket-Accept: " +:+ accept +:+ crlf +:+ crlf.

(** [Accept]: [req] is what [http.ReadRequest] finds in the headers [Upgrade],
    [Connection] and [Sec-WebSocket-Key], [write] the error of the answer's [Write]. The
    texts given to [Write] are returned. *)
Definition ws_Accept (now : Z) (req : result string (string * string * string)) (write : option string) (l : link) :
    link * (list string * result handshake_err unit) :=
  under_deadline now handshakeTimeout (λ _,
    match req with
    | Err e => ([], Err (HsRead e))
    | Ok (upgrade, connection, key) =>
        match Ws.accept_response equalFold toLower sha1_base64 upgrade connection key with
        | Err e => ([], Err (HsAccept e))
        | Ok accept => ([accept_text accept], match write with Some e => Err (HsWrite e) | None => Ok tt end)
        end
    end) l.

Definition request_text (path host key : string) : string :=
  "GET " +:+ path +:+ " HTTP/1.1" +:+ crlf +:+ "Host: " +:+ host +:+ crlf +:+ "Upgrade: websocket" +:+ crlf +:+
  "Connection: Upgrade" +:+ crlf +:+ "Sec-WebSocket-Key: " +:+ key +:+ crlf +:+ "Sec-WebSocket-Version: 13" +:+ crlf +:+ crlf.

(** [Dial]: the connection to the host, if there is one, as it leaves it. [resp] is
    what [http.ReadResponse] finds: the status and [Sec-WebSocket-Accept]. *)
Definition ws_Dial (now : Z) (addr : string) (dial : result string unit) (nonce : result string (list byte)) (write : option string)
    (resp : result string (Z * string)) : option link * (list string * result handshake_err unit) :=
  let '(host, path) := Ws.dial_target addr in
  match dial with
  | Err e => (None, ([], Err (HsDial e)))
  | Ok _ =>
      let l := deadline now handshakeTimeout (mkLink None None false) in
      let fail texts e := (clearDeadline <$> session_Close (Some l), (texts, Err e)) in
      match nonce with
      | Err e => fail [] (HsNonce e)
      | Ok nonce =>
          let key := base64 nonce in
          let texts := [request_text path host key] in
          match write with
          | Some e => fail texts (HsWrite e)
          | None =>
              match resp with
              | Err e => fail texts (HsRead e)
              | Ok (status, accept) =>
                  match Ws.dial_check sha1_base64 key status accept with
                  | Err e => fail texts (HsCheck e)
                  | Ok _ => (Some (clearDeadline l), (texts, Ok tt))
                  end
              end
          end
      end
  end.

(** [Accept] leaves its connection to its caller: it never closes it, whatever
    happens, and leaves no deadline. It answers a request exactly if it passes the
    checks, with its key's answer, and succeeds exactly if that was written. *)
Theorem Accept_link now req write l l' texts r :
  ws_Accept now req write l = (l', (texts, r)) →
  lk_closed l' = lk_closed l ∧ lk_read l' = None ∧ lk_write l' = None ∧
  (∀ text, text ∈ texts ↔ ∃ u cn key accept, req = Ok (u, cn, key) ∧ Ws.accept_response equalFold toLower sha1_base64 u cn key = Ok accept ∧ text = accept_text accept) ∧
  (r = Ok tt ↔ texts ≠ [] ∧ write = None).
Proof.
  unfold ws_Accept, under_deadline. intros [= <- Ha]. split; [done|]. split; [done|]. split; [done|].
  destruct req as [[[u cn] key]|e]; [|injection Ha as <- <-; set_solver].
  destruct (Ws.accept_response _ _ _ u cn key) as [accept|e] eqn:Eac; injection Ha as <- <-.
  - split; [|destruct write; naive_solver]. intros text. rewrite list_elem_of_singleton. split; [intros ->; by exists u, cn, key, accept|].
    intros (u' & cn' & key' & accept' & [= <- <- <-] & E & ->). congruence.
  - split; [|naive_solver]. intros text. split; [by intros ?%elem_of_nil|]. intros (u' & cn' & key' & accept' & [= <- <- <-] & E & ->). congruence.
Qed.

(** [Dial] returns an open connection without a deadline or closes the one it made:
    the first exactly after a response of status 101 with the answer to the key
    that was sent; and it sends one request at most. *)
Theorem Dial_link now addr dial nonce write resp c texts r :
  ws_Dial now addr dial nonce write resp = (c, (texts, r)) →
  (length texts ≤ 1)%nat ∧
  match r with
  | Ok _ => c = Some (mkLink None None false) ∧ ∃ n, nonce = Ok n ∧ resp = Ok (101, Ws.acceptKey sha1_base64 (base64 n)) ∧
              texts = [request_text (Ws.dial_target addr).2 (Ws.dial_target addr).1 (base64 n)]
  | Err e => c = match dial with Ok _ => Some (mkLink None None true) | Err _ => None end
  end.
Proof.
  unfold ws_Dial. intros Hd. destruct (Ws.dial_target addr) as [host path].
  destruct dial as [[]|e]; [|injection Hd as <- <- <-; split; [simpl; lia|done]].
  destruct nonce as [n|e]; [|injection Hd as <- <- <-; split; [simpl; lia|done]].
  destruct write as [e|]; [injection Hd as <- <- <-; split; [simpl; lia|done]|].
  destruct resp as [[status accept]|e]; [|injection Hd as <- <- <-; split; [simpl; lia|done]]. unfold Ws.dial_check in Hd.
  destruct (Z.eqb_spec status 101) as [->|]; simpl in Hd; [|injection Hd as <- <- <-; split; [simpl; lia|done]].
  destruct (String.eqb_spec accept (Ws.acceptKey sha1_base64 (base64 n))) as [->|]; simpl in Hd; injection Hd as <- <- <-;
    (split; [simpl; lia|]); [|done]. split; [done|]. by exists n.
Qed.
End websocket.

(** * Witnesses *)

(** Two senders whose writes are split and whose calls alternate. *)
Definition demo_m : Message := mkMessage MsgData x00 7 [x61; x62].
Definition demo_sends : list send_event :=
  [SdLock 1; SdWrite 1 5; SdWrite 1 20; SdUnlock 1; SdLock 0; SdWrite 0 13; SdWrite 0 1; SdUnlock 0].

Lemma concurrent_sends_witness :
  ∃ w, send_run (open_wire [[demo_m]; [HalfClose 7]]) demo_sends = Some w ∧ sent w = [HalfClose 7; demo_m] ∧
    read_all 2 (wr_bytes w) = ([HalfClose 7; demo_m], ErrIO EOF).
Proof.
  destruct (send_run (open_wire [[demo_m]; [HalfClose 7]]) demo_sends) as [w|] eqn:Hr; [|vm_compute in Hr; discriminate Hr].
  exists w. split; [reflexivity|]. destruct (concurrent_sends [[demo_m]; [HalfClose 7]] demo_sends w Hr) as [_ H].
  - intros q m Hq Hm. repeat (apply elem_of_cons in Hq as [->|Hq]; [apply list_elem_of_singleton in Hm as ->; simpl; lia|]).
    by apply elem_of_nil in Hq.
  - assert (wr_cut w = false ∧ wr_owner w = None ∧ sent w = [HalfClose 7; demo_m]) as (H1 & H2 & H3)
      by (vm_compute in Hr; injection Hr as <-; split; [reflexivity|split; reflexivity]).
    destruct (H H1) as [_ Ha]. specialize (Ha H2). rewrite H3 in Ha. split; [exact H3|exact Ha].
Defined.

Lemma failed_write_poisons_witness :
  ∃ w rest, sent w = [HalfClose 7] ∧ ReadMessage (wr_bytes w) = Ok (mkMessage MsgData x00 7 [x61; x01], rest).
Proof.
  destruct (failed_write_poisons demo_m (HalfClose 7) 13) as (w & rest & _ & Hs & _ & Hr).
  - split; vm_compute; [split; congruence|congruence].
  - split; vm_compute; [split; congruence|congruence].
  - unfold HeaderSize. simpl. lia.
  - simpl. lia.
  - exists w, rest. split; [exact Hs|exact Hr].
Defined.

Definition demo_pong : option (Z * result star_err Message) := Some (120, Ok (mkMessage MsgPong x00 0 [])).

Lemma ping_bounded_witness :
  (ping_timed 100 50 true demo_pong (mkLink None None false)).2 = Some (Ok 20) ∧
  lk_read (ping_timed 100 50 true demo_pong (mkLink None None false)).1 = None ∧ 20 ≤ 50.
Proof.
  destruct (ping_bounded 100 50 true demo_pong (mkLink None None false) _ _ eq_refl) as (H1 & _ & _ & H2 & _).
  split; [reflexivity|]. split; [exact H1|exact H2].
Defined.

Lemma Accept_link_witness :
  (ws_Accept String.eqb (λ _, "upgrade") (λ s, s) 0 (Ok ("websocket", "Upgrade", "k")) (Some "reset") (mkLink None None false))%string.2.2 ≠ Ok tt.
Proof.
  intros H. destruct (Accept_link String.eqb (λ _, "upgrade"%string) (λ s, s) 0 (Ok ("websocket", "Upgrade", "k"))%string (Some "reset"%string) (mkLink None None false) _ _ _ eq_refl) as (_ & _ & _ & _ & Hr).
  destruct (proj1 Hr H) as [_ E]. discriminate E.
Defined.

Lemma Dial_link_witness :
  (ws_Dial (λ s, s) (λ _, "k") 0 "ws://h/p" (Ok tt) (Ok []) None (Ok (101, Ws.acceptKey (λ s, s) "k")))%string.1 = Some (mkLink None None false).
Proof.
  exact (proj1 (proj2 (Dial_link (λ s, s) (λ _, "k"%string) 0 "ws://h/p"%string (Ok tt) (Ok []) None (Ok (101, Ws.acceptKey (λ s, s) "k"%string)) _ _ _ eq_refl))).
Defined.
