(* ===== verification/Setup.v ===== *)
(** What is put together before anything is served: the administration server with
    its routes (internal/star/starserver/admin_server.go), the servers built from a
    configuration without the framework (register.go), the parameters and the
    buffers of the bridge (internal/bridge/bridge.go), and what is declared and
    not used: the server type of internal/dns/server, the controller of
    internal/star/starserver/internal, the framework's client side. *)
From S2P Require Import Prelude Message StreamTable CtrlHub Config Register CtrlProxy Proxy ConfigStore Dns Admin.
From S2P Require Pluginer.
From Stdlib Require Import ZArith Lia.

(** * The administration server *)

(** [now]: the time at which it is made. *)
Definition NewAdminServer (name : string) (listener : ListenerList) (hub : CtrlHub) (connects : ConnectTable)
    (ctrls : list CtrlProxyServer) (apis : list Dns.Handler) (now : Z) : AdminServer :=
  mkAdmin name (AdminPassword (ll_Settings listener)) hub connects ctrls apis now [] [].

(** ** How [net/http]'s mux compares patterns *)

Inductive relationship := Equivalent | MoreGeneral | MoreSpecific | Disjoint | Overlaps.
#[export] Instance relationship_eq_dec : EqDecision relationship.
Proof. solve_decision. Defined.

Definition combine (r1 r2 : relationship) : relationship :=
  match r1, r2 with
  | Equivalent, r => r
  | Disjoint, _ | Overlaps, Disjoint => Disjoint
  | Overlaps, _ => Overlaps
  | r, Equivalent => r
  | MoreGeneral, MoreSpecific | MoreSpecific, MoreGeneral => Overlaps
  | _, r => r
  end.

Definition compareMethods (m1 m2 : string) : relationship :=
  if String.eqb m1 m2 then Equivalent
  else if String.eqb m1 "GET" && String.eqb m2 "HEAD" then MoreGeneral
  else if String.eqb m2 "GET" && String.eqb m1 "HEAD" then MoreSpecific
  else Disjoint.

Definition compareSegment (s1 s2 : option string) : relationship :=
  match s1, s2 with
  | None, None => Equivalent
  | None, Some _ => MoreGeneral
  | Some _, None => MoreSpecific
  | Some a, Some b => if String.eqb a b then Equivalent else Disjoint
  end.

(** Paths of another length have no path in common. *)
Fixpoint comparePaths (p1 p2 : list (option string)) : relationship :=
  match p1, p2 with
  | [], [] => Equivalent
  | s1 :: p1, s2 :: p2 => combine (compareSegment s1 s2) (comparePaths p1 p2)
  | _, _ => Disjoint
  end.

Definition conflicts (p1 p2 : pattern) : bool :=
  match combine (compareMethods p1.1.1 p2.1.1) (comparePaths p1.1.2 p2.1.2) with
  | Equivalent | Overlaps => true
  | _ => false
  end.

(** [HandleFunc] on each pattern in turn; [None] is a panic. *)
Fixpoint register_all (seen ps : list pattern) : option (list pattern) :=
  match ps with
  | [] => Some seen
  | p :: ps => if existsb (conflicts p) seen then None else register_all (seen ++ [p]) ps
  end.

(** The mux of [AdminServer.Serve]: a name is read as it is written if it has no
    slash, brace or percent sign and is not empty or made of dots. *)
Definition admin_mux (a : AdminServer) : option (list pattern) := register_all [] (patterns a).

Definition plain_char (c : ascii) : bool :=
  negb (existsb (Ascii.eqb c) ["/"; "{"; "}"; "%"]%char).
Fixpoint plain_chars (s : string) : bool :=
  match s with EmptyString => true | String c s => plain_char c && plain_chars s end.
Definition plain_name (s : string) : bool :=
  plain_chars s && negb (String.eqb s "" || String.eqb s "." || String.eqb s "..").

(** ** Lemmas *)

Lemma combine_disjoint r : combine r Disjoint = Disjoint.
Proof. by destruct r. Qed.

Lemma comparePaths_length p1 p2 : length p1 ≠ length p2 → comparePaths p1 p2 = Disjoint.
Proof.
  revert p2. induction p1 as [|s1 p1 IH]; intros [|s2 p2] Hl; try done. simpl in *. rewrite IH by lia. apply combine_disjoint.
Qed.

Lemma conflicts_length p1 p2 : length p1.1.2 ≠ length p2.1.2 → conflicts p1 p2 = false.
Proof. intros Hl. unfold conflicts. by rewrite comparePaths_length, combine_disjoint. Qed.

Lemma comparePaths_refl p : comparePaths p p = Equivalent.
Proof. induction p as [|[s|] p IH]; simpl; [done| |]; rewrite IH; simpl; [by rewrite String.eqb_refl|done]. Qed.

Lemma register_all_app seen ps1 ps2 :
  register_all seen (ps1 ++ ps2) = register_all seen ps1 ≫= λ seen, register_all seen ps2.
Proof. revert seen. induction ps1 as [|p ps1 IH]; intros seen; simpl; [done|]. destruct (existsb _ _); [done|]. apply IH. Qed.

(** What is registered is kept, and conflicts with nothing that was seen. *)
Lemma register_all_Some seen ps seen' :
  register_all seen ps = Some seen' → seen' = seen ++ ps ∧ ∀ p q, p ∈ ps → q ∈ seen → conflicts p q = false.
Proof.
  revert seen. induction ps as [|p ps IH]; intros seen Hr; simpl in Hr.
  { injection Hr as <-. rewrite app_nil_r. split; [done|]. by intros p q ?%elem_of_nil. }
  destruct (existsb (conflicts p) seen) eqn:E; [done|]. apply IH in Hr as [-> Hc]. rewrite <- app_assoc. split; [done|].
  intros p' q [->|Hp]%elem_of_cons Hq; [|apply Hc; [done|set_solver]].
  destruct (conflicts p q) eqn:Ec; [|done]. rewrite <- E. symmetry. apply existsb_exists. exists q. by rewrite <- list_elem_of_In.
Qed.

Definition dns_patterns (i : nat) (name : string) : list pattern :=
  [("GET", lit ("/api/dns/" +:+ name +:+ "/zones"), λ _, RGetZones i);
   ("PUT", lit ("/api/dns/" +:+ name +:+ "/zones"), λ _, RPutZones i)].

Lemma plain_no_slash s : plain_chars s = true → no_slash s = true.
Proof.
  induction s as [|c s IH]; simpl; [done|]. intros [Hc Hs]%andb_true_iff. rewrite IH by done.
  unfold plain_char in Hc. simpl in Hc. by destruct (Ascii.eqb c "/").
Qed.

Lemma dns_lit name : plain_chars name = true → lit ("/api/dns/" +:+ name +:+ "/zones") = Some <$> [""; "api"; "dns"; name; "zones"].
Proof.
  intros Hn. unfold lit. do 2 f_equal. change ("/api/dns/" +:+ name +:+ "/zones") with ("/api/dns" +:+ "/" +:+ (name +:+ "/" +:+ "zones")).
  rewrite split_slash_app, split_app by by apply plain_no_slash. done.
Qed.

(** Two patterns of DNS components conflict exactly if they have the method and the
    name in common. *)
Lemma dns_conflicts m1 m2 n1 n2 f g :
  plain_chars n1 = true → plain_chars n2 = true → m1 ∈ ["GET"; "PUT"] → m2 ∈ ["GET"; "PUT"] →
  conflicts (m1, lit ("/api/dns/" +:+ n1 +:+ "/zones"), f) (m2, lit ("/api/dns/" +:+ n2 +:+ "/zones"), g) =
    bool_decide (m1 = m2 ∧ n1 = n2).
Proof.
  intros H1 H2 Hm1 Hm2. unfold conflicts. simpl fst. simpl snd. rewrite !dns_lit by done.
  assert (comparePaths (Some <$> [""; "api"; "dns"; n1; "zones"]) (Some <$> [""; "api"; "dns"; n2; "zones"]) =
    if String.eqb n1 n2 then Equivalent else Disjoint) as -> by (simpl; by destruct (String.eqb n1 n2)).
  assert (compareMethods m1 m2 = if String.eqb m1 m2 then Equivalent else Disjoint) as ->.
  { repeat (apply elem_of_cons in Hm1 as [->|Hm1]; [repeat (apply elem_of_cons in Hm2 as [->|Hm2]; [done|]); by apply elem_of_nil in Hm2|]).
    by apply elem_of_nil in Hm1. }
  destruct (String.eqb_spec m1 m2) as [Em|Em], (String.eqb_spec n1 n2) as [En|En]; simpl; symmetry;
    (by apply bool_decide_true) || (apply bool_decide_false; naive_solver).
Qed.

(** What the mux may hold before the components of the names [ns] register. *)
Definition clear_of (ns : list string) (q : pattern) : Prop :=
  length q.1.2 ≠ 5%nat ∨ ∃ m n f, q = (m, lit ("/api/dns/" +:+ n +:+ "/zones"), f) ∧ m ∈ ["GET"; "PUT"] ∧ plain_chars n = true ∧ n ∉ ns.

Lemma clear_of_conflicts n ns m f q :
  clear_of ns q → n ∈ ns → plain_chars n = true → m ∈ ["GET"; "PUT"] →
  conflicts (m, lit ("/api/dns/" +:+ n +:+ "/zones"), f) q = false.
Proof.
  intros [Hq|(m' & n' & g & -> & Hm' & Hp & Hn')] Hn Hpn Hm.
  - apply conflicts_length. simpl fst. simpl snd. rewrite dns_lit by done. simpl. intros E. by apply Hq.
  - rewrite dns_conflicts by done. apply bool_decide_false. intros [_ ->]. done.
Qed.

Definition dns_all (i : nat) (hs : list Dns.Handler) : list pattern := concat (imap (λ k h, dns_patterns (i + k) (h_name h)) hs).

Lemma dns_all_cons i h hs : dns_all i (h :: hs) = dns_patterns i (h_name h) ++ dns_all (S i) hs.
Proof.
  unfold dns_all. rewrite imap_cons. cbn [concat]. rewrite Nat.add_0_r. f_equal. f_equal. apply imap_ext. intros k x _. unfold compose.
  by rewrite Nat.add_succ_r.
Qed.

Lemma register_dns hs i seen :
  Forall (λ h, plain_chars (h_name h) = true) hs → NoDup (h_name <$> hs) → Forall (clear_of (h_name <$> hs)) seen →
  register_all seen (dns_all i hs) = Some (seen ++ dns_all i hs).
Proof.
  revert i seen. induction hs as [|h hs IH]; intros i seen Hp Hnd Hs; [simpl; by rewrite app_nil_r|].
  rewrite dns_all_cons, register_all_app. rewrite fmap_cons in Hnd, Hs. apply NoDup_cons in Hnd as [Hh Hnd].
  apply Forall_cons in Hp as [Hph Hp]. rewrite Forall_forall in Hs.
  assert (∀ m f, m ∈ ["GET"; "PUT"] → existsb (conflicts (m, lit ("/api/dns/" +:+ h_name h +:+ "/zones"), f)) seen = false) as Hc.
  { intros m f Hm. apply not_true_is_false. intros (q & Hq%list_elem_of_In & E)%existsb_exists.
    rewrite (clear_of_conflicts _ (h_name h :: (h_name <$> hs))) in E; try done; [by apply Hs|by left]. }
  unfold dns_patterns at 1. cbn [register_all]. rewrite Hc by set_solver. rewrite existsb_app, Hc by set_solver. cbn [existsb orb].
  rewrite dns_conflicts, bool_decide_false by (done || set_solver || (by intros [? _])). cbn [orb mbind option_bind].
  rewrite IH; [by rewrite <- !app_assoc|done|done|]. apply Forall_app. split; [apply Forall_app; split|].
  - apply Forall_forall. intros q Hq. destruct (Hs q Hq) as [?|(m & n & f & -> & ? & ? & ?)]; [by left|right].
    exists m, n, f. split_and!; try done. set_solver.
  - apply Forall_singleton. right. exists "GET", (h_name h), (λ _, RGetZones i). split_and!; try done. set_solver.
  - apply Forall_singleton. right. exists "PUT", (h_name h), (λ _, RPutZones i). split_and!; try done. set_solver.
Qed.

(** The patterns of the server itself. *)
Lemma patterns_split a : ∃ own, patterns a = own ++ dns_all 0 (a_dns a) ∧ register_all [] own = Some own ∧
  Forall (λ q : pattern, length q.1.2 ≠ 5%nat) own.
Proof.
  eexists. split; [unfold patterns; reflexivity|]. split; [vm_compute; reflexivity|]. repeat (constructor; [vm_compute; discriminate|]). constructor.
Qed.

(** The administration server starts exactly if its DNS components have different
    names. [Serve] registers its own patterns and two for each component; with
    names that the mux reads as they are written, two patterns conflict only if two
    components have the same name, and then registration panics. *)
Theorem admin_mux_total a :
  Forall (λ h, plain_name (h_name h) = true) (a_dns a) →
  admin_mux a = (if decide (NoDup (h_name <$> a_dns a)) then Some (patterns a) else None).
Proof.
  intros Hp. destruct (patterns_split a) as (own & Hpat & Hown & Hlen). unfold admin_mux. rewrite Hpat.
  assert (Forall (λ h, plain_chars (h_name h) = true) (a_dns a)) as Hpc
    by (eapply Forall_impl; [exact Hp|]; intros h Hh; by apply andb_true_iff in Hh as [? _]).
  rewrite register_all_app, Hown. cbn [mbind option_bind]. destruct (decide _) as [Hnd|Hnd].
  - apply register_dns; [done..|]. eapply Forall_impl; [exact Hlen|]. by left.
  - destruct (register_all own _) as [ps|] eqn:E; [|done]. exfalso. apply Hnd. clear Hpat Hown Hnd Hp Hlen.
    revert E Hpc. generalize 0%nat. generalize own. induction (a_dns a) as [|h hs IH]; intros seen i E Hpc; [constructor|].
    rewrite dns_all_cons, register_all_app in E. apply bind_Some in E as (seen' & E1 & E2).
    apply register_all_Some in E1 as [-> _]. apply Forall_cons in Hpc as [Hph Hpc]. rewrite fmap_cons. apply NoDup_cons.
    split; [|by eapply IH]. intros (h' & Hn & Hh')%list_elem_of_fmap. apply register_all_Some in E2 as [_ Hc].
    apply list_elem_of_lookup_1 in Hh' as [k Hk].
    assert (("GET", lit ("/api/dns/" +:+ h_name h' +:+ "/zones"), λ _, RGetZones (S i + k)) ∈ dns_all (S i) hs) as Hin.
    { unfold dns_all. apply list_elem_of_concat. exists (dns_patterns (S i + k) (h_name h')). split; [by left|].
      apply elem_of_lookup_imap. by exists k, h'. }
    specialize (Hc _ ("GET", lit ("/api/dns/" +:+ h_name h +:+ "/zones"), λ _, RGetZones i) Hin ltac:(set_solver)).
    rewrite Forall_forall in Hpc. rewrite dns_conflicts in Hc; [|apply Hpc; by eapply list_elem_of_lookup_2|done|set_solver|set_solver].
    apply bool_decide_eq_false in Hc. by apply Hc.
Qed.

(** * Servers of a configuration *)

Section build.
Variable has_transport has_codec : string → bool.

(** The context is made without a file and no plugin is set up. *)
Definition BuildServersFromRoot (root : Root) : result make_err (list server) :=
  Register.MakeServers has_transport has_codec (λ _, false) (buildRuntimeConfig root).

(** [makeListeners], [makeBridgers] and [makeDailers], which nothing calls. *)
Definition makeListeners : result make_err (list server) := Ok [].
Definition makeBridgers : option make_err := None.
Definition makeDailers : option make_err := None.

Definition plugin_handler (ing : IngressSpec) : Prop := ing_Handler ing ∉ ["star"; "admin"; "dns"; ""].

Definition dns_names (ss : list server) : list string :=
  omap (λ s, match s with SrvDns l => Some (ll_Name l) | _ => None end) ss.

(** What one ingress gives without plugins. *)
Lemma ingress_server_bare cfg ing (s : server) :
  s ∈ (ingress_server has_transport has_codec (λ _, false) cfg ing).1 →
  match s with
  | SrvNil => plugin_handler ing
  | SrvDns l => l = ingress_listener ing ∧ ing_Handler ing = "dns"
  | SrvCtrl _ => ing_Handler ing = "star"
  | SrvProxy _ _ => ing_Handler ing = ""
  | SrvChain _ | SrvAdmin _ => False
  end.
Proof.
  unfold ingress_server, plugin_handler. destruct (make_server _ _ _ _ _) as [[ss admins]|] eqn:E; [|by intros ?%elem_of_nil].
  revert E. unfold make_server, ingress_listener. cbn zeta.
  destruct (String.eqb_spec (ing_Handler ing) "star") as [->|H1];
    [simpl; intros [= <- <-] Hs; apply list_elem_of_singleton in Hs; subst s; done|].
  destruct (String.eqb_spec (ing_Handler ing) "admin") as [->|H2]; [simpl; intros [= <- <-] Hs; by apply elem_of_nil in Hs|].
  destruct (String.eqb_spec (ing_Handler ing) "dns") as [->|H3];
    [simpl; intros [= <- <-] Hs; apply list_elem_of_singleton in Hs; subst s; done|].
  destruct (str_empty (ing_Handler ing)) eqn:He; simpl.
  - assert (ing_Handler ing = "") as -> by (apply not_false_iff_true in He; destruct (decide (ing_Handler ing = "")); [done|]; exfalso; apply He; by apply str_empty_false).
    destruct (_ || _); intros [= <- <-] Hs; [|by apply elem_of_nil in Hs]. apply list_elem_of_singleton in Hs. by subst s.
  - apply str_empty_false in He. destruct (_ && _); [done|]. intros [= <- <-] Hs. apply list_elem_of_singleton in Hs. subst s. set_solver.
Qed.

Lemma dns_names_app ss1 ss2 : dns_names (ss1 ++ ss2) = dns_names ss1 ++ dns_names ss2.
Proof. apply omap_app. Qed.

Lemma ingress_server_plugin cfg ing :
  transport_ok has_transport ing → plugin_handler ing → (ingress_server has_transport has_codec (λ _, false) cfg ing).1 = [SrvNil].
Proof.
  intros Hok Hp. pose proof (make_server_ok has_transport has_codec (λ _, false) cfg ing Hok) as Hm.
  unfold plugin_handler in Hp. rewrite !not_elem_of_cons in Hp. destruct Hp as (H1 & H2 & H3 & H4 & _).
  revert Hm. generalize (ingress_server has_transport has_codec (λ _, false) cfg ing). intros r. unfold make_server, ingress_listener. cbn zeta.
  rewrite (proj2 (String.eqb_neq _ _) H1), (proj2 (String.eqb_neq _ _) H2), (proj2 (String.eqb_neq _ _) H3).
  rewrite (proj2 (str_empty_false _) H4). simpl. destruct (_ && _); [done|]. by intros [= <-].
Qed.

Lemma ingress_server_dns cfg ing :
  dns_names (ingress_server has_transport has_codec (λ _, false) cfg ing).1 `sublist_of` [ing_Name ing].
Proof.
  pose proof (ingress_server_bare cfg ing) as Hs. revert Hs. unfold ingress_server.
  destruct (make_server _ _ _ _ _) as [[ss admins]|] eqn:E; [|intros; apply sublist_nil_l]. simpl. intros Hs.
  assert (length ss ≤ 1)%nat as Hl.
  { revert E. unfold make_server. clear. repeat case_match; intros; simplify_eq/=; lia. }
  destruct ss as [|s [|]]; [apply sublist_nil_l| |simpl in Hl; lia]. specialize (Hs s ltac:(by left)).
  destruct s as [| | |l| |]; try (simpl; apply sublist_nil_l). destruct Hs as [-> _]. simpl. by rewrite ingress_listener_name.
Qed.

(** Servers built without the framework have no plugins. From a valid
    configuration whose transports are registered, [BuildServersFromRoot] gives a
    list in which every ingress with a plugin handler is a nil server, whose first
    method call crashes, and no ingress a plugin chain; and the DNS components have
    different names, as the administration server needs. *)
Theorem build_without_plugins root :
  validate root = Ok tt → Services root ≠ [] → Forall (transport_ok has_transport) (ingresses root) →
  ∃ ss, BuildServersFromRoot root = Ok ss ∧
    (SrvNil ∈ ss ↔ ∃ ing, ing ∈ ingresses root ∧ plugin_handler ing) ∧ (∀ l, SrvChain l ∉ ss) ∧ NoDup (dns_names ss).
Proof.
  intros Hv Hne Hok. eexists. split; [by apply MakeServers_ingresses|].
  set (cfg := buildRuntimeConfig root). set (ivs := ingress_server has_transport has_codec (λ _, false) cfg).
  assert (∀ s, s ∈ concat (ivs <$> ingresses root).*1 → ∃ ing, ing ∈ ingresses root ∧ s ∈ (ivs ing).1) as Hin.
  { intros s (l & Hs & Hl)%list_elem_of_concat. rewrite <- list_fmap_compose in Hl.
    apply list_elem_of_fmap in Hl as (ing & -> & Hing). by exists ing. }
  split_and!.
  - rewrite elem_of_app. split.
    + intros [(ing & Hing & Hs)%Hin|Hs]; [|by apply list_elem_of_fmap in Hs as (? & ? & _)].
      exists ing. split; [done|]. by apply ingress_server_bare in Hs.
    + intros (ing & Hing & Hp). left. apply list_elem_of_concat. exists (ivs ing).1. split.
      * unfold ivs. rewrite ingress_server_plugin; [by left| |done]. rewrite Forall_forall in Hok. by apply Hok.
      * rewrite <- list_fmap_compose. apply list_elem_of_fmap. by exists ing.
  - intros l [(ing & Hing & Hs)%Hin|Hs]%elem_of_app; [by apply ingress_server_bare in Hs|by apply list_elem_of_fmap in Hs as (? & ? & _)].
  - rewrite dns_names_app. assert (∀ l, dns_names (SrvAdmin <$> l) = []) as -> by (intros l; by induction l). rewrite app_nil_r.
    apply validate_spec in Hv as (_ & Hnd & _). eapply sublist_NoDup; [exact Hnd|]. unfold ingress_names.
    rewrite concat_fmap_fmap. unfold ingresses. fold (ingresses root). clear Hin Hok. induction (ingresses root) as [|ing ings IH]; [constructor|].
    cbn [fmap list_fmap concat]. rewrite dns_names_app. change (ing_Name ing :: (ing_Name <$> ings)) with ([ing_Name ing] ++ (ing_Name <$> ings)).
    apply sublist_app; [apply ingress_server_dns|exact IH].
Qed.
End build.

(** * The bridge's parameters and buffers *)

Definition defaultDrainTimeout : Z := 30 * 10 ^ 9.
Definition defaultBufferSize : Z := Z.shiftl 64 10.

Record Options := mkOptions { DrainTimeout : Z; BufferSize : Z }.
Definition Option_ : Type := Options → Options.
Definition WithDrainTimeout (d : Z) : Option_ := λ o, mkOptions d (BufferSize o).
Definition WithBufferSize (n : Z) : Option_ := λ o, mkOptions (DrainTimeout o) n.

(** What [Bridge] works with. *)
Definition bridge_options (opts : list Option_) : Options :=
  let o := foldl (λ o f, f o) (mkOptions defaultDrainTimeout defaultBufferSize) opts in
  if BufferSize o <=? 0 then mkOptions (DrainTimeout o) defaultBufferSize else o.

(** [armDrain] starts a timer for a positive timeout only. *)
Definition arms_timer (o : Options) : bool := 0 <? DrainTimeout o.

(** The buffers of the process as a heap of their sizes; [bp_pool]: those in
    [bufPool]; [bp_used]: those that pumps hold, each with the size asked for. *)
Record buffers := mkBuffers { bp_heap : list Z; bp_pool : list nat; bp_used : list (nat * Z) }.

Inductive buffer_event :=
  | BfGet (size : Z) (pick : option nat)     (* [pick]: which buffer the pool gives, if any *)
  | BfPut (k : nat)                          (* the pump of the [k]-th buffer in use ends *)
  | BfDrop (k : nat).                        (* the collector empties the pool *)

(** [getBuf]. *)
Definition getBuf (size : Z) (pick : option nat) (b : buffers) : option buffers :=
  let make := mkBuffers (bp_heap b ++ [size]) (bp_pool b) (bp_used b ++ [(length (bp_heap b), size)]) in
  if size =? defaultBufferSize then
    match pick with
    | Some k => i ← bp_pool b !! k; Some (mkBuffers (bp_heap b) (delete k (bp_pool b)) (bp_used b ++ [(i, size)]))
    | None => Some make
    end
  else Some make.

(** [putBuf] of a buffer of [b]. *)
Definition putBuf (size : Z) (i : nat) (b : buffers) : buffers :=
  if (size =? defaultBufferSize) && bool_decide (bp_heap b !! i = Some defaultBufferSize)
  then mkBuffers (bp_heap b) (bp_pool b ++ [i]) (bp_used b) else b.

Definition buf_step (b : buffers) (ev : buffer_event) : option buffers :=
  match ev with
  | BfGet size pick => getBuf size pick b
  | BfPut k =>
      '(i, size) ← bp_used b !! k;
      Some (putBuf size i (mkBuffers (bp_heap b) (bp_pool b) (delete k (bp_used b))))
  | BfDrop k => _ ← bp_pool b !! k; Some (mkBuffers (bp_heap b) (delete k (bp_pool b)) (bp_used b))
  end.

Fixpoint buf_run (b : buffers) (evs : list buffer_event) : option buffers :=
  match evs with [] => Some b | ev :: evs => buf_step b ev ≫= λ b, buf_run b evs end.

Record buf_inv (b : buffers) : Prop := {
  bi_nodup : NoDup (bp_pool b ++ (bp_used b).*1);
  bi_pool i : i ∈ bp_pool b → bp_heap b !! i = Some defaultBufferSize;
  bi_used i size : (i, size) ∈ bp_used b → bp_heap b !! i = Some size;
}.

Lemma buf_inv_make size b : buf_inv b → buf_inv (mkBuffers (bp_heap b ++ [size]) (bp_pool b) (bp_used b ++ [(length (bp_heap b), size)])).
Proof.
  intros [H1 H2 H3]. split; simpl.
  - rewrite fmap_app, app_assoc. apply NoDup_app. split; [done|]. split; [|apply NoDup_singleton].
    intros i Hi Hi'. simpl in Hi'. apply list_elem_of_singleton in Hi'. subst i.
    assert (is_Some (bp_heap b !! length (bp_heap b))) as [? Hl]; [|apply lookup_lt_Some in Hl; lia].
    apply elem_of_app in Hi as [Hi|Hi]; [rewrite H2 by done; by eexists|].
    apply list_elem_of_fmap in Hi as ([i s] & Hi & Hin). simpl in Hi. rewrite Hi, (H3 _ _ Hin). by eexists.
  - intros i Hi. by apply lookup_app_l_Some, H2.
  - intros i s [Hi|[= -> ->]%list_elem_of_singleton]%elem_of_app; [by apply lookup_app_l_Some, H3|].
    by apply list_lookup_middle.
Qed.

Lemma buf_inv_step b ev b' : buf_inv b → buf_step b ev = Some b' → buf_inv b'.
Proof.
  intros Hi Hs. pose proof Hi as [H1 H2 H3]. destruct ev as [size pick|k|k]; cbn [buf_step] in Hs.
  - unfold getBuf in Hs. destruct (Z.eqb_spec size defaultBufferSize) as [->|]; [|injection Hs as <-; by apply buf_inv_make].
    destruct pick as [k|]; [|injection Hs as <-; by apply buf_inv_make]. apply bind_Some in Hs as (i & Hk & [= <-]).
    pose proof (delete_Permutation _ _ _ Hk) as Hp. split; simpl.
    + rewrite Hp in H1. rewrite fmap_app. simpl. rewrite app_assoc, (Permutation_app_comm _ [i]). exact H1.
    + intros j Hj. apply H2. rewrite Hp. by right.
    + intros j s [?|[= -> ->]%list_elem_of_singleton]%elem_of_app; [by apply H3|]. apply H2. by eapply list_elem_of_lookup_2.
  - apply bind_Some in Hs as ([i size] & Hk & [= <-]). pose proof (delete_Permutation _ _ _ Hk) as Hp.
    rewrite Hp in H1. simpl in H1. assert (buf_inv (mkBuffers (bp_heap b) (bp_pool b) (delete k (bp_used b)))) as Hd.
    { split; simpl; [|done|].
      - apply NoDup_app in H1 as (H11 & H12 & [_ H13]%NoDup_cons). apply NoDup_app. split_and!; [done| |done]. intros j Hj Hj'.
        apply (H12 j Hj). by right.
      - intros j s Hj. apply H3. rewrite Hp. by right. }
    unfold putBuf. simpl. destruct (_ && _) eqn:E; [|done]. apply andb_true_iff in E as [_ E%bool_decide_eq_true]. split; simpl.
    + by rewrite <- app_assoc.
    + intros j [?|Hj]%elem_of_app; [by apply H2|]. apply list_elem_of_singleton in Hj. by subst j.
    + apply Hd.
  - apply bind_Some in Hs as (i & Hk & [= <-]). pose proof (delete_Permutation _ _ _ Hk) as Hp. rewrite Hp in H1. split; simpl.
    + by apply NoDup_cons in H1 as [_ ?].
    + intros j Hj. apply H2. rewrite Hp. by right.
    + done.
Qed.

(** No two pumps share a buffer. However bridges of any options begin and end and
    whatever the pool gives or forgets, a buffer is held by one pump or by the pool
    and not twice; a pump's buffer has the size its bridge asked for, which is
    positive whatever the options ([io.CopyBuffer] crashes on an empty one); and
    the pool holds buffers of the default size only. *)
Theorem buffers_exclusive evs b :
  buf_run (mkBuffers [] [] []) evs = Some b →
  (∀ size pick, BfGet size pick ∈ evs → ∃ opts, size = BufferSize (bridge_options opts)) →
  NoDup (bp_pool b ++ (bp_used b).*1) ∧ (∀ i, i ∈ bp_pool b → bp_heap b !! i = Some defaultBufferSize) ∧
  (∀ i size, (i, size) ∈ bp_used b → bp_heap b !! i = Some size ∧ 0 < size).
Proof.
  intros Hr Hsz. assert (∀ opts, 0 < BufferSize (bridge_options opts)) as Hpos.
  { intros opts. unfold bridge_options. destruct (Z.leb_spec (BufferSize (foldl (λ o f, f o) (mkOptions defaultDrainTimeout defaultBufferSize) opts)) 0); [done|lia]. }
  assert (∀ evs b0 b, buf_run b0 evs = Some b → (∀ size pick, BfGet size pick ∈ evs → 0 < size) →
    buf_inv b0 → (∀ i size, (i, size) ∈ bp_used b0 → 0 < size) → buf_inv b ∧ ∀ i size, (i, size) ∈ bp_used b → 0 < size) as Hg.
  { clear. induction evs as [|ev evs IH]; intros b0 b Hr Hsz Hi Hu; simpl in Hr; [by injection Hr as <-|].
    apply bind_Some in Hr as (b1 & Hs & Hr). eapply IH; [exact Hr|intros s k Hk; eapply Hsz; by right|by eapply buf_inv_step|].
    intros i s Hin. destruct ev as [size pick|k|k]; cbn [buf_step] in Hs.
    - assert ((i, s) ∈ bp_used b0 ∨ s = size) as [?| ->]; [|by eapply Hu|eapply Hsz; by left].
      unfold getBuf in Hs. destruct (size =? _), pick; [apply bind_Some in Hs as (j & _ & [= <-])|injection Hs as <-..]; simpl in Hin; set_solver.
    - apply bind_Some in Hs as ([j size] & Hk & [= <-]). unfold putBuf in Hin. apply (Hu i). rewrite (delete_Permutation _ _ _ Hk). right.
      by destruct (_ && _) in Hin.
    - apply bind_Some in Hs as (j & Hk & [= <-]). by eapply Hu. }
  destruct (Hg evs _ b Hr) as [[H1 H2 H3] Hu]; [intros s k Hk; destruct (Hsz s k Hk) as [opts ->]; apply Hpos| |by intros ?? ?%elem_of_nil|].
  { split; simpl; [constructor|by intros ? ?%elem_of_nil|by intros ?? ?%elem_of_nil]. }
  split_and!; [done|done|]. intros i size Hin. split; [by apply H3|by eapply Hu].
Qed.

(** * Declared and not used *)

(** ** The dns server type *)

Module DnsType.

Definition serverType : string := "dns".

Definition Directives : list string :=
  ["root"; "metadata"; "geoip"; "cancel"; "tls"; "quic"; "timeouts"; "multisocket"; "reload"; "nsid"; "bufsize"; "bind"; "debug"; "trace"; "ready"; "health"; "pprof"; "prometheus"; "errors"; "log"; "dnstap"; "local"; "dns64"; "acl"; "any"; "chaos"; "loadbalance"; "tsig"; "cache"; "rewrite"; "header"; "dnssec"; "autopath"; "minimal"; "template"; "transfer"; "hosts"; "route53"; "azure"; "clouddns"; "k8s_external"; "kubernetes"; "file"; "auto"; "secondary"; "etcd"; "loop"; "forward"; "grpc"; "erratic"; "whoami"; "on"; "sign"; "view"; "nomad"].

Section dns_type.
Context {W Ctx Srv Sock Cb : Type} `{!Pluginer.Components W Ctx Srv Sock Cb}.

(** Only [Directives] is set: [NewContext] is a nil function, and so is
    [DefaultInput], which the framework does not call. *)
Definition dns_type : Pluginer.ServerTypeDef (W := W) (Ctx := Ctx) (Srv := Srv) (Sock := Sock) (Cb := Cb) :=
  Pluginer.mkServerType Directives (Pluginer.mkInput "" [] "") (λ _ _, Pluginer.Panic).

(** [init]. *)
Definition register (r : Pluginer.Registry W Ctx Srv Sock Cb) : Pluginer.outcome (Pluginer.Registry W Ctx Srv Sock Cb) :=
  Pluginer.RegisterServerType serverType dns_type r.

(** The dns server type cannot be started. A binary that links internal/dns/server
    has the type registered, so that an input of type dns is not refused with an
    error: [Start] calls its nil [NewContext] and crashes. *)
Theorem dns_type_crashes r r' input p :
  register r = Pluginer.Ret r' → Pluginer.ServerTypeName input = serverType → Pluginer.Start r' input p = Pluginer.Panic.
Proof.
  unfold register, Pluginer.RegisterServerType. destruct (Pluginer.serverTypes r !! serverType); [done|]. intros [= <-] Ht.
  unfold Pluginer.Start, Pluginer.ValidateAndExecuteDirectives. simpl. by rewrite Ht, lookup_insert_eq.
Qed.
End dns_type.
End DnsType.

(** ** The controller of internal/star/starserver/internal *)

Module Controller.

Record ConnectProxy := mkConnectProxy { ProxyName : string; BridgeName : string; cn_ClientProxyName : string; cn_StreamId : string }.
Record ClientProxy := mkClientProxy { cl_ClientProxyName : string; cl_StreamId : string; Addr : string; Transport : string; KeyPassword : string }.
Record CtrlProxy := mkCtrlProxy { Name : string; Connect : list ConnectProxy; ClientProxies : list ClientProxy }.

Definition NewCtrlProxy (name : string) (connect : list ConnectProxy) (clientProxy : list ClientProxy) : CtrlProxy :=
  mkCtrlProxy name connect clientProxy.

(** Both succeed and change nothing. *)
Definition AddConnect (c : CtrlProxy) (streamId : string) : CtrlProxy * option string := (c, None).
Definition AddClientProxy (c : CtrlProxy) (clientProxy : ClientProxy) : CtrlProxy * option string := (c, None).

(** The calls of the controller's page, each an addition. *)
Inductive op := OpConnect (streamId : string) | OpClient (cp : ClientProxy).
Definition apply (c : CtrlProxy) (o : op) : CtrlProxy * option string :=
  match o with OpConnect s => AddConnect c s | OpClient cp => AddClientProxy c cp end.

(** A controller has what it was made with: whatever is added afterwards is
    reported as added and is not there. *)
Lemma additions_lost name cs cps ops :
  let c := NewCtrlProxy name cs cps in
  foldl (λ c o, (apply c o).1) c ops = c ∧ ∀ o, (apply c o).2 = None.
Proof. simpl. split; [|by intros []]. induction ops as [|[] ops IH]; simpl; [done|exact IH..]. Qed.
End Controller.

(** ** The old configuration's dialers (config/star.go) *)

Record DailerList := mkDailerList {
  da_Name : string; da_Type : string; da_Transport : string; da_Addr : string;
  da_ClientProxyName : string; da_KeyPassword : string; da_TLS : bool; da_TLSSkipVerify : bool }.

(** ** The framework's client side *)

Section clients.
Context {W Ctx Srv Sock Cb : Type} `{!Pluginer.Components W Ctx Srv Sock Cb}.
Abbreviation instance := (Pluginer.Instance Ctx Srv Sock Cb).
Abbreviation proc := (Pluginer.Proc W Ctx Srv Sock Cb).

(** [startWithClientFds]: the statements of [startWithListenerFds]. *)
Definition startWithClientFds (inst : instance) (p : proc) : Pluginer.outcome (proc * nat * Pluginer.error) :=
  let i := length (Pluginer.pr_heap p) in
  let done w inst err :=
    Pluginer.Ret (Pluginer.mkProc w (Pluginer.pr_heap p ++ [inst]) (Pluginer.pr_instances p ++ [i]) (Pluginer.pr_once p), i, err) in
  match Pluginer.i_context inst with
  | None => Pluginer.Panic
  | Some ctx =>
      match Pluginer.MakeServers ctx (Pluginer.pr_world p) with
      | Pluginer.Ret (w, Err e) => done w inst (Some e)
      | Pluginer.Ret (w, Ok serverList) =>
          match Pluginer.startServers serverList inst w with
          | Pluginer.Ret (inst, w, err) => done w inst err
          | Pluginer.Panic => Pluginer.Panic
          | Pluginer.Hang => Pluginer.Hang
          end
      | Pluginer.Panic => Pluginer.Panic
      | Pluginer.Hang => Pluginer.Hang
      end
  end.

Definition startClients (serverList : list Srv) (inst : instance) : Pluginer.error := None.

(** Starting clients is starting servers. *)
Lemma client_start_is_server_start inst p : startWithClientFds inst p = Pluginer.startWithListenerFds inst p.
Proof.
  unfold startWithClientFds, Pluginer.startWithListenerFds. destruct (Pluginer.i_context inst) as [ctx|]; [|done].
  destruct (Pluginer.MakeServers ctx (Pluginer.pr_world p)) as [[w [ss|e]]| |]; simpl; [|done..].
  by destruct (Pluginer.startServers ss inst w) as [[[inst' w'] err]| |].
Qed.

(** [Instance.Servers] and [ServerListener.Server]. *)
Definition Servers (inst : instance) : list (Pluginer.ServerListener Srv Sock) := Pluginer.i_servers inst.
Definition Server (sl : Pluginer.ServerListener Srv Sock) : Srv := Pluginer.sl_server sl.
End clients.

(** * Witnesses *)

Definition demo_two (n1 n2 : string) : AdminServer := with_dns [Dns.New n1 [] []; Dns.New n2 [] []] demo_admin.

Lemma admin_mux_total_witness :
  admin_mux (demo_two "dns-in" "dns-out") = Some (patterns (demo_two "dns-in" "dns-out")) ∧
  admin_mux (demo_two "dns-in" "dns-in") = None.
Proof.
  split.
  - rewrite (admin_mux_total (demo_two "dns-in" "dns-out")); [reflexivity|repeat constructor].
  - rewrite (admin_mux_total (demo_two "dns-in" "dns-in")); [reflexivity|repeat constructor].
Defined.

Definition demo_plugin_root : Root := mkRoot
  [mkServiceSpec "edge" [mkIngressSpec "a" "" ":1" "chain" (demo_extra []); mkIngressSpec "d" "" ":2" "dns" (demo_extra [])] []]
  [mkHandlerSpec "chain" ["socks5"]] [] [].

Lemma build_without_plugins_witness :
  ∃ ss, BuildServersFromRoot (λ _, true) (λ _, true) demo_plugin_root = Ok ss ∧ SrvNil ∈ ss.
Proof.
  destruct (build_without_plugins (λ _, true) (λ _, true) demo_plugin_root) as (ss & Hss & Hnil & _ & _).
  - vm_compute. reflexivity.
  - discriminate.
  - repeat constructor; right; right; reflexivity.
  - exists ss. split; [exact Hss|]. apply Hnil. eexists. split; [left|]. unfold plugin_handler. vm_compute. 
    intros H. repeat (apply elem_of_cons in H as [H|H]; [discriminate H|]). exact (not_elem_of_nil _ H).
Defined.

Lemma buffers_exclusive_witness :
  ∃ b, buf_run (mkBuffers [] [] []) [BfGet 65536 None; BfGet 100 None; BfPut 0; BfGet 65536 (Some 0%nat); BfPut 0] = Some b ∧
    bp_used b = [(0%nat, 65536)] ∧ bp_pool b = [] ∧ bp_heap b !! 0%nat = Some 65536.
Proof.
  eexists. split; [vm_compute; reflexivity|]. split; [reflexivity|]. split; [reflexivity|].
  refine (proj1 (proj2 (proj2 (buffers_exclusive [BfGet 65536 None; BfGet 100 None; BfPut 0; BfGet 65536 (Some 0%nat); BfPut 0] _ _ _)) 0%nat 65536 _)).
  - vm_compute. reflexivity.
  - intros size pick Hin. repeat (apply elem_of_cons in Hin as [[= -> _]|Hin]; [|try (apply elem_of_cons in Hin as [Hin|Hin]; [discriminate Hin|])]).
    + exists []. reflexivity.
    + exists [WithBufferSize 100]. reflexivity.
    + exists [WithDrainTimeout 0]. reflexivity.
    + destruct (not_elem_of_nil _ Hin).
  - vm_compute. left.
Defined.

Lemma dns_type_crashes_witness :
  ∃ r', DnsType.register Pluginer.Demo.registry = Pluginer.Ret r' ∧
    @Pluginer.Start _ _ _ _ _ Pluginer.Demo.comps r' (Pluginer.mkInput "f" [] "dns") Pluginer.Demo.empty_proc = Pluginer.Panic.
Proof.
  eexists. split; [reflexivity|].
  apply (@DnsType.dns_type_crashes _ _ _ _ _ Pluginer.Demo.comps Pluginer.Demo.registry); reflexivity.
Defined.
